(* ===== verification/_CoqProject ===== *)
-Q . S2P
Prelude.v
GoStd.v
Json.v
JsonTree.v
Rfc3339.v
Effects.v
World.v
Rand.v
Domain.v
Pool.v
Ports.v
Discovery.v
Poll.v
StorageProof.v
Update.v
Redis.v
Consumer.v
Queue.v
Codec.v
IpConfig.v
Loadtest.v
Ton.v
LiteClient.v
Postgres.v
DirectProvider.v
Dht.v
App.v
Typed.v
Agent.v
Boot.v
Metrics.v
System.v
Announce.v
Wallets.v
Workers.v
Delivery.v
Triggers.v
Fleet.v
Progress.v
Payments.v
Pipeline.v
