(* ===== verification/Prelude.v ===== *)
(** * mytonprovider-agent: a verification development

    The agent ([src/], Go) is a stateless worker of the TON storage network.
    The backend writes a trigger to a Redis stream per cycle; a consumer of the
    agent reads it, runs the cycle's use case, and acknowledges it; the use
    case reads what the database knows, asks the chain, the DHT and the
    providers, and publishes one result to the cycle's result stream.  Only
    checkpoints (LTs) are written to the database by the agent itself.

    ** How Go code is modelled

    A function is a program ([Effects.prog]): it returns, stops (a panic, a
    fatal error of the process, the bound of a modelled endless loop), or
    performs an operation and goes on with its answer.  Operations are those of
    the Go runtime ([Effects.goop]: the clock, [ctx.Err()], sleeping, the order
    of a map, random choices, the scheduler) and those of an interface: the
    methods of the use case's [ports.go], or the calls of a library.  A theorem
    says [every_run p Q]: whatever the answers and choices, the trace of
    operations and the outcome of [p] satisfy [Q]; an outcome that [Q] does not
    allow (a panic, a deadlock) does not occur.  The environment promises
    nothing of the services ([any_env]) unless a file says so; of the runtime
    it promises that a done context stays done, that [range] visits each key
    once, and that random numbers are in their range ([Effects.go_ok]).  Code
    under src/ that a program calls is translated; third-party libraries
    (tonutils-go, go-redis, pgx, prometheus) are interfaces or classes; of the
    standard library what is used is translated, encoding/json included.
    Logging and tracing spans have no operations.  Integers are [Z] with the
    wrap-around of their width written out ([GoStd.wrap_u64], ...); strings and
    byte slices are [string]; maps are [gmap]; errors are values ([GoStd.error])
    with [errors.Is]; a slice of a result tells [nil] from empty
    ([Domain.slice]).

    ** Files

    - Prelude: tactics, the hint databases [agent] and [agent_simpl], lemmas on
      lists and maps.
    - GoStd: what is used of Go's standard library (strings, encoding/hex,
      strconv, time, errors, context, big.Int conversions).  Json, JsonTree:
      encoding/json, strings and numbers, then trees with their printer and
      parser.  Rfc3339: the text form of [time.Time]; the local time zone is a
      parameter ([Rfc3339.Zone]).
    - Effects: programs, runs, the weakest preconditions [wp] (alone) and
      [rwp] (among other goroutines), [only] (which operations a program may
      perform), [recover], executable runs, and programs run by other programs
      ([interp], with [wp_interp]).  Rand: [rand.Shuffle].
    - World: any number of programs as processes over a shared state, one
      operation a step, which may die at any point and which others disturb;
      [safe] proves an invariant of every reachable state from one process at a
      time, with a relation of what the others may change ([Rely]); [keeps]
      is [safe] for programs that need no more than the invariant; [can] says
      what some run of a process reaches; a view ([is_view]) maps the runs of
      one world to those of a part of it.
    - Domain: internal/domain, internal/jobs/types.go, internal/lib/utils.
    - Pool: the loop that launches a goroutine per item behind a semaphore,
      used by poll.go, proof.go, liteclient/client.go, consumer.go and app.go,
      under an arbitrary scheduler; [pool_wp] gives what it computes from what
      each item's handling and body do, and that it neither deadlocks nor runs
      out of its bound.
    - Ports: the ports.go of the use cases, and the projections of a trace to
      what it published and stored ([writes]).
    - Discovery, Poll, StorageProof, Update: internal/usecase/discovery, poll,
      proof, update; the functions keep their names ([CollectNewProviders],
      [CollectStorageContracts], [ResolveEndpoints], [UpdateProviderRates],
      [UpdateRejectedContracts], [CheckStorageProofs], [UpdateIPInfo]).
    - Redis: the publisher and the consumer groups, over any codec (the class
      [Redis.Json]); Consumer: consumer.go and reaper.go of
      adapters/inbound/redisstream; Queue: the abstract queue they implement.
    - Codec: the JSON of the messages by their struct tags, the instance of
      [Redis.Json] the agent runs with.
    - IpConfig: ipconfig/client.go; Ton: master_scanner.go, scanner.go,
      inspector.go; LiteClient: ton/liteclient/client.go; Postgres: the
      repositories with the SQL of their queries on tables; DirectProvider: the
      rates probe and the check of a bag; Dht: dht.go.
    - App: internal/app/app.go (streams, configuration, bindings, [MustRun]);
      Boot: [New], [Close], internal/config with its defaults, cmd/app, the
      opening of the connections; Metrics: the HTTP endpoint of pkg/metrics and
      the goroutines [MustRun] starts for it; Loadtest: cmd/loadtest.
    - Compositions: Typed (the types of what is published), Agent (the workers
      with the cycles they run), System (the use cases over the adapters' code
      instead of over arbitrary answers: [adapter_answer] lists which adapter
      stands behind which port; resolve_endpoints is run by the resolver's own
      code, [with_resolver]; [scan_run] is a scan over a lite client whose
      listings are whole or cut short), Announce and Wallets (scan_master and
      scan_wallets across cycles, with the chain, the database and the backend),
      Workers (a worker and a reaper as processes of any world: what they keep
      and what they can do, from what their commands and their handler do),
      Delivery (them over a stream with its consumer group, for any handler)
      and Triggers (the same for the agent's cycles), Fleet (the whole
      deployment: the crews of all cycles of any number of agents over one
      Redis, one database and one chain; Announce, Wallets and Delivery are its
      views), Progress and Payments (what the deployment can always still do:
      answer a trigger of scan_master, of scan_wallets), Pipeline (a
      trigger of the load test, through the agent and back).  Announce, Wallets,
      Delivery, Fleet and Metrics are instances of World; what Redis, the
      database and the chain do is there a relation that allows all their
      documentation allows, failures included.  A scan there is a run of the
      scanner whose listing may be cut short, or which may be unable to read a
      contract; the state records, of each such scan, the LT it went from and
      the one it returned (its gap).  The backend stores the providers it was
      told of and may set an LT to that of any published result, also an older
      one (docs/02-data-contracts.md).

    ** What the theorems show

    - The deployment: whatever interleaves, dies or fails, no trigger is lost,
      and no registration and no withdrawal up to the stored LTs, except in the
      gap of a scan that was disturbed ([nothing_lost]); and from every
      state it can reach, while the lite server answers, the address of the
      master wallet parses, it has transactions and each has its incoming
      message, every registration on the chain outside the gaps can be announced
      by the next trigger of scan_master ([registrations_announced]), and likewise
      every withdrawal from a wallet of the database by the next trigger of
      scan_wallets ([withdrawals_published]).
    - Across cycles, for any interleaving of agents, crashes and failures: no
      registration up to the stored LT of the master wallet is lost outside the
      gaps ([no_registration_lost]), nor a withdrawal up to the stored LT of a
      provider's wallet ([no_withdrawal_lost]).  The exception is one: what is
      in a gap can be lost ([short_listing_loses_registrations]).
    - Across crashes of workers: a trigger waits, or is pending, or its handler
      failed, or its result was published ([no_trigger_lost]), and a pending one
      can always be taken over ([pending_taken_over]).
    - Checkpoints: scan_master and scan_wallets store LTs only after the result
      they belong to was published, and only when there is progress
      ([CollectNewProviders_checkpoint], [CollectStorageContracts_checkpoint]).
    - Results: what each cycle publishes, as a function of the answers it got,
      for every interleaving of its goroutines, and that it publishes at most
      once ([CollectStorageContracts_result] and the other theorems of that name,
      [ResolveEndpoints_accounting]); the breaker of check_proofs
      ([checkProvider_breaker], [maxFailureThreshold_fifth]); the low-balance
      rule in 64-bit arithmetic ([isRemovedByLowBalance_spec]).
    - Consumer: every trigger that was read is handled and acknowledged once,
      in order, after its handler ended, also when the handler panics
      ([runWorker_acks], [process_acks_after_handler]); with the seven cycles
      every trigger read is acknowledged, since each cycle ends
      ([worker_acknowledges_all]); workers and reaper implement an abstract
      queue ([consumer_refines_queue]); the reaper's endless loop on a failing
      Redis ([claimPending_spins]).
    - Messages: well-typed answers give well-typed results, whose encoding
      succeeds ([results_well_typed]); what is written is read back
      ([trigger_roundtrip], [result_roundtrip]).
    - Adapters: what the scanners extract from transactions
      ([MasterScan_result], [WalletScan_result]), completeness of the
      transaction listing against a server that answers with the chain
      ([GetTransactions_complete]) and the loss it allows
      ([short_listing_loses_registrations]), provider infos
      ([GetProvidersInfo_result]), soundness of the bag check
      ([Verify_result]) and which pieces it samples ([sampled_piece]), DHT
      resolution ([Resolve_result], [ResolveStorageWithOverlay_result]), each
      tied to the requests of the run: which answers it used, how often it
      tried again, and why it gave up.
      Lemmas of the same kind: [GetIPInfo_result], [master_LT_roundtrip],
      [UpdateLT_rows], [scan_finds_registrations],
      [GetActiveRelations_join], [PublishResult_entry],
      [GetStorageContractsInfo_result], [streams_distinct].
    - The agent: whatever the interleaving, every operation belongs to an
      enabled cycle and to the ports of its package ([MustRun_operations]);
      results carry the job id of their trigger ([process_publishes]), and the
      load test takes them for results of the trigger it wrote
      ([trigger_answered]); with the adapters as they are, scan_master announces
      canonical keys ([scan_master_canonical]), resolve_endpoints, composed with
      the resolver, publishes only endpoints announced, proved or at the
      provider's IP in the same run ([resolve_endpoints_trusted]), and check_proofs never reports a valid
      proof ([check_proofs_never_valid]).
    - Processes: the exit code of the load test and the results it can miss
      ([main_exit], [main_misses_early_results]); what [Close] leaves open
      ([run_closes_nothing]); the endpoint of the metrics is shut down only when
      the context is done ([silent_only_when_done]); with the default settings a
      reaper takes over jobs that still run ([reaper_before_timeout]).

    ** Bounds and fuel

    The pools of the use cases and of the lite client compute their number of
    scheduling steps from their items ([probe_steps], [proof_steps],
    [providers_steps]) and the theorems show it is enough.  [GetTransactions]
    takes as fuel the number of list requests; more than the length of the
    account's history is enough ([GetTransactions_complete]).  The JSON parser
    has the nesting depth of encoding/json.  The worker, the reaper,
    [claimPending], [Run] and [MustRun] do not end by themselves: their
    theorems hold for every fuel, and a run that used it up is the outcome
    [NoFuel].

    ** Not modelled

    Log output, [sl.Err] and tracing spans; cleanenv's reading of YAML and of
    the environment (one operation of [Boot]); the printing of the load test;
    the commented-out half of postgres/provider.go, which is not code.  The
    memory model below the critical sections: a section between [mu.Lock] and
    [mu.Unlock] is one step.  Of the collectors, only their registration and
    that the consumer moves them.  A sequential specification of the pools:
    their goroutines see a context done at different moments, so that what a
    cycle publishes is in general that of no order of its items one after the
    other; the theorems named [.._result] say what it publishes item by item. *)

From Stdlib Require Export ZArith Lia Ascii String.
From stdpp Require Export sorting.
From stdpp Require Export base tactics option numbers list strings gmap fin_maps.

#[global] Set Default Goal Selector "!".
#[export] Set Warnings "-clear-no-such-hyp,-register-all".

Declare Scope agent_scope.
Delimit Scope agent_scope with agent.

(** ** Hint databases of the development

    [agent] collects the lemmas that close the side goals of every component;
    the rewriting database [agent_simpl] holds the equations that only
    compute. *)
Create HintDb agent discriminated.
Create Rewrite HintDb agent_simpl.

(** Case analysis on the scrutinee of the goal's first [match]. *)
Ltac case_goal :=
  match goal with
  | |- context [match ?x with _ => _ end] => destruct x eqn:?
  end.

(** Case analysis on the scrutinee of a hypothesis. *)
Ltac case_hyp H :=
  match type of H with
  | context [match ?x with _ => _ end] => destruct x eqn:?
  end.

(** A trace is a prefix of what it has grown to. *)
Ltac grown :=
  solve [rewrite <- ?app_assoc; first [reflexivity | eexists; reflexivity | assumption]].

(** ** Lists *)
Section lists.
Context {A B C : Type}.
Implicit Types (l : list A).

Lemma Forall2_fmap_l_eq (f : A → B) (g : A → B) l :
  (∀ x, x ∈ l → f x = g x) → f <$> l = g <$> l.
Proof. intros Hfg. apply list_fmap_ext. intros i x Hi. apply Hfg. by eapply list_elem_of_lookup_2. Qed.

Lemma foldl_snoc (f : B → A → B) b l x : foldl f b (l ++ [x]) = f (foldl f b l) x.
Proof. by rewrite foldl_app. Qed.

Lemma omap_snoc (f : A → option B) l x :
  omap f (l ++ [x]) = omap f l ++ match f x with Some y => [y] | None => [] end.
Proof. rewrite omap_app. simpl. by destruct (f x). Qed.

Lemma omap_id_some l : omap Some l = l.
Proof. induction l as [|x l IH]; [done|]. csimpl. by rewrite IH. Qed.

Lemma prefix_snoc_split (l1 l2 : list A) x l3 :
  l1 ++ x :: l2 = l3 → l3 = (l1 ++ [x]) ++ l2.
Proof. intros <-. by rewrite <- app_assoc. Qed.

Lemma filter_snoc (P : A → Prop) `{!∀ x, Decision (P x)} l x :
  filter P (l ++ [x]) = if decide (P x) then filter P l ++ [x] else filter P l.
Proof.
  rewrite filter_app, filter_cons, filter_nil. case_decide; [done|apply app_nil_r].
Qed.

(** The index-based reading of [firstn]. *)
Lemma take_submseteq l n : take n l ⊆+ l.
Proof. apply sublist_submseteq. apply sublist_take. Qed.

Lemma take_length_take l n : take (length (take n l)) l = take n l.
Proof.
  rewrite length_take. destruct (Nat.le_ge_cases n (length l)).
  - by rewrite Nat.min_l.
  - by rewrite Nat.min_r, !take_ge by lia.
Qed.

Lemma sum_list_with_app (f : A → nat) l1 l2 :
  sum_list_with f (l1 ++ l2) = (sum_list_with f l1 + sum_list_with f l2)%nat.
Proof. induction l1 as [|x l1 IH]; simpl; [done|]. rewrite IH. lia. Qed.

Lemma sum_list_with_insert (f : A → nat) l i x y :
  l !! i = Some y →
  (sum_list_with f (<[i := x]> l) + f y = sum_list_with f l + f x)%nat.
Proof.
  revert i. induction l as [|z l IH]; intros [|i] Hi; simplify_eq/=; [lia|].
  specialize (IH _ Hi). lia.
Qed.

Lemma sum_list_with_delete (f : A → nat) l i y :
  l !! i = Some y → (sum_list_with f (delete i l) + f y = sum_list_with f l)%nat.
Proof.
  revert i. induction l as [|z l IH]; intros [|i] Hi; simplify_eq/=; [lia|].
  specialize (IH _ Hi). lia.
Qed.

Lemma omap_insert_perm (f : A → option B) l i x y :
  l !! i = Some y →
  option_list (f y) ++ omap f (<[i := x]> l) ≡ₚ option_list (f x) ++ omap f l.
Proof.
  revert i. induction l as [|z l IH]; intros [|i] Hi; simplify_eq/=.
  - destruct (f x), (f y); simpl; [apply Permutation_swap|done..].
  - specialize (IH _ Hi). destruct (f z); [|done].
    rewrite !(Permutation_app_comm (option_list _)) in *. simpl. by f_equiv.
Qed.

Lemma omap_delete_perm (f : A → option B) l i y :
  l !! i = Some y → option_list (f y) ++ omap f (delete i l) ≡ₚ omap f l.
Proof.
  revert i. induction l as [|z l IH]; intros [|i] Hi; simplify_eq/=.
  - by destruct (f y).
  - specialize (IH _ Hi). destruct (f z); [|done].
    rewrite Permutation_app_comm in *. simpl. by f_equiv.
Qed.
End lists.
