(* ===== verification/GoStd.v ===== *)
(** What the agent uses of the Go language and its standard library:
    machine integers, [time], byte strings with [strings.ToLower],
    [strings.Index], [encoding/hex], [strconv], error values with
    [errors.Is], and [context.Context]. *)

From S2P Require Import Prelude.

Open Scope Z_scope.

(** ** Machine integers

    A w-bit integer is a [Z]; arithmetic that can leave the range is wrapped
    explicitly. *)
Definition two64 : Z := 18446744073709551616.
Definition two63 : Z := 9223372036854775808.
Definition two32 : Z := 4294967296.
Definition two31 : Z := 2147483648.

Definition wrap_u64 (z : Z) : Z := z mod two64.
Definition wrap_i64 (z : Z) : Z := (z + two63) mod two64 - two63.
Definition wrap_u32 (z : Z) : Z := z mod two32.
Definition wrap_i32 (z : Z) : Z := (z + two31) mod two32 - two31.

Definition is_u64 (z : Z) : Prop := 0 <= z < two64.
Definition is_i64 (z : Z) : Prop := - two63 <= z < two63.
Definition is_u32 (z : Z) : Prop := 0 <= z < two32.

Lemma wrap_i64_id z : is_i64 z → wrap_i64 z = z.
Proof. unfold is_i64, wrap_i64, two63, two64. intros. rewrite Z.mod_small; lia. Qed.

Lemma wrap_i64_range z : is_i64 (wrap_i64 z).
Proof.
  unfold is_i64, wrap_i64. pose proof (Z.mod_pos_bound (z + two63) two64).
  unfold two63, two64 in *. lia.
Qed.

Lemma wrap_u64_id z : is_u64 z → wrap_u64 z = z.
Proof. unfold is_u64, wrap_u64. intros. by apply Z.mod_small. Qed.

Lemma wrap_i32_range z : - two31 <= wrap_i32 z < two31.
Proof.
  unfold wrap_i32. pose proof (Z.mod_pos_bound (z + two31) two32).
  unfold two31, two32 in *. lia.
Qed.

Lemma wrap_i32_id z : - two31 <= z < two31 → wrap_i32 z = z.
Proof. unfold wrap_i32, two31, two32. intros. rewrite Z.mod_small; lia. Qed.

(** ** [time]

    A [time.Time] is its instant in nanoseconds since the Unix epoch; a
    [time.Duration] is a signed 64-bit count of nanoseconds. *)
Definition Time := Z.
Definition Duration := Z.

Definition Nanosecond : Duration := 1.
Definition Millisecond : Duration := 1000000.
Definition Second : Duration := 1000000000.
Definition Minute : Duration := 60 * Second.
Definition Hour : Duration := 60 * Minute.

(** The zero [time.Time] is January 1, year 1. *)
Definition zero_time : Time := -62135596800 * Second.

(** [Time.Unix]: seconds since the epoch, rounded down. *)
Definition Unix (t : Time) : Z := t / Second.

(** [Time.Sub] saturates at the range of a [Duration]. *)
Definition Sub (t u : Time) : Duration := Z.max (- two63) (Z.min (two63 - 1) (t - u)).

(** ** Byte strings *)
Definition byte_val (c : ascii) : Z := Z.of_N (N_of_ascii c).
Definition byte_of_val (z : Z) : ascii := ascii_of_N (Z.to_N z).

Lemma byte_val_range c : 0 <= byte_val c < 256.
Proof. unfold byte_val. pose proof (N_ascii_bounded c). lia. Qed.

Lemma byte_of_val_of c : byte_of_val (byte_val c) = c.
Proof. unfold byte_of_val, byte_val. rewrite N2Z.id. apply ascii_N_embedding. Qed.

Lemma byte_val_of_val z : 0 <= z < 256 → byte_val (byte_of_val z) = z.
Proof.
  intros Hz. unfold byte_val, byte_of_val. rewrite N_ascii_embedding by lia. lia.
Qed.

Definition bytes (s : string) : list ascii := list_ascii_of_string s.
Definition of_bytes (l : list ascii) : string := string_of_list_ascii l.
Definition strlen (s : string) : Z := Z.of_nat (String.length s).

Lemma bytes_of_bytes l : bytes (of_bytes l) = l.
Proof. apply list_ascii_of_string_of_list_ascii. Qed.
Lemma of_bytes_bytes s : of_bytes (bytes s) = s.
Proof. apply string_of_list_ascii_of_string. Qed.
Lemma length_bytes s : length (bytes s) = String.length s.
Proof. induction s as [|c s IH]; [done|]. simpl. by rewrite <- IH. Qed.
#[export] Hint Rewrite bytes_of_bytes of_bytes_bytes length_bytes : agent_simpl.

Definition in_range (lo hi : Z) (c : ascii) : bool := (lo <=? byte_val c) && (byte_val c <=? hi).
Definition is_digit (c : ascii) : bool := in_range 48 57 c.
Definition is_upper (c : ascii) : bool := in_range 65 90 c.
Definition is_lower (c : ascii) : bool := in_range 97 122 c.

(** *** [strings.ToLower]

    An all-ASCII string is mapped byte by byte.  Any other string goes
    through [strings.Map(unicode.ToLower, s)], whose Unicode tables are the
    parameter [lower_slow]; what the agent relies on is that its output holds
    no ASCII upper-case letter. *)
Class Unicode := {
  lower_slow : string → string;
  lower_slow_no_upper s : Forall (λ c, is_upper c = false) (bytes (lower_slow s));
}.

Definition lower_byte (c : ascii) : ascii :=
  if is_upper c then byte_of_val (byte_val c + 32) else c.

Definition is_ASCII (s : string) : bool := forallb (λ c, byte_val c <? 128) (bytes s).

Definition ToLower `{Unicode} (s : string) : string :=
  if is_ASCII s then of_bytes (lower_byte <$> bytes s) else lower_slow s.

(** An instance for running examples: the identity outside ASCII letters. *)
Definition ascii_lower (s : string) : string := of_bytes (lower_byte <$> bytes s).

Lemma lower_byte_not_upper c : is_upper (lower_byte c) = false.
Proof.
  unfold lower_byte. destruct (is_upper c) eqn:Hc; [|done].
  unfold is_upper, in_range in *. pose proof (byte_val_range c).
  rewrite byte_val_of_val by lia. lia.
Qed.

Lemma lower_byte_id c : is_upper c = false → lower_byte c = c.
Proof. unfold lower_byte. by intros ->. Qed.

Lemma ascii_lower_no_upper s : Forall (λ c, is_upper c = false) (bytes (ascii_lower s)).
Proof.
  unfold ascii_lower. rewrite bytes_of_bytes, Forall_fmap.
  apply Forall_true. intros c. apply lower_byte_not_upper.
Qed.

Definition AsciiUnicode : Unicode := {|
  lower_slow := ascii_lower;
  lower_slow_no_upper := ascii_lower_no_upper |}.

Section to_lower.
Context `{Unicode}.

Lemma ToLower_no_upper s : Forall (λ c, is_upper c = false) (bytes (ToLower s)).
Proof.
  unfold ToLower. destruct (is_ASCII s); [apply ascii_lower_no_upper|apply lower_slow_no_upper].
Qed.

Lemma ToLower_id s :
  is_ASCII s = true → Forall (λ c, is_upper c = false) (bytes s) → ToLower s = s.
Proof.
  unfold ToLower. intros -> Hs. rewrite <- (of_bytes_bytes s) at 2. f_equal.
  induction Hs as [|c l Hc Hl IH]; [done|]. by rewrite fmap_cons, lower_byte_id, IH.
Qed.
End to_lower.

(** *** [strings.Index] and [strings.Contains] *)
Fixpoint index_from (sub s : list ascii) (i : Z) : Z :=
  if decide (sub `prefix_of` s) then i
  else match s with [] => -1 | _ :: s' => index_from sub s' (i + 1) end.
Definition Index (s sub : string) : Z := index_from (bytes sub) (bytes s) 0.
Definition Contains (s sub : string) : bool := 0 <=? Index s sub.

(** Slicing [s[pos:]]; the callers check the bound first. *)
Definition drop_bytes (pos : Z) (s : string) : string := of_bytes (drop (Z.to_nat pos) (bytes s)).

Lemma index_from_spec sub s i :
  0 <= i → index_from sub s i = -1 ∨
  ∃ pre post, s = pre ++ sub ++ post ∧ index_from sub s i = i + Z.of_nat (length pre).
Proof.
  revert i. induction s as [|c s IH]; intros i Hi; simpl; case_decide as Hp.
  - right. destruct Hp as [post ->]. exists [], post. simpl. split; [done|lia].
  - by left.
  - right. destruct Hp as [post ->]. exists [], post. simpl. split; [done|lia].
  - destruct (IH (i + 1)) as [?|(pre & post & -> & ->)]; [lia|by left|].
    right. exists (c :: pre), post. simpl. split; [done|lia].
Qed.

Lemma index_from_found sub pre post i :
  0 <= i → ∃ j, i <= j <= i + Z.of_nat (length pre) ∧ index_from sub (pre ++ sub ++ post) i = j.
Proof.
  revert i. induction pre as [|c pre IH]; intros i Hi.
  - exists i. simpl. split; [lia|]. destruct (sub ++ post) eqn:E; simpl.
    + rewrite decide_True; [done|]. exists post. by rewrite E.
    + rewrite decide_True; [done|]. exists post. by rewrite E.
  - simpl. case_decide.
    + exists i. split; [lia|done].
    + destruct (IH (i + 1)) as (j & Hj & ->); [lia|]. exists j. split; [lia|done].
Qed.

(** ** Error values

    An [error] is [option error]: [None] is [nil].  [ErrSentinel] is a
    package-level error variable, known by its name and its message;
    [ErrText] any other opaque error; [ErrWrap pre e] what
    [fmt.Errorf(pre + "%w", e)] returns; [ErrLS] the liteserver's
    [ton.LSError] with its code. *)
Inductive error :=
| ErrSentinel (name msg : string)
| ErrText (msg : string)
| ErrLS (code : Z) (msg : string)
| ErrWrap (pre : string) (e : error).

#[export] Instance error_eq_dec : EqDecision error.
Proof. solve_decision. Defined.

(** [e.Error()] *)
Fixpoint Error (e : error) : string :=
  match e with
  | ErrSentinel _ msg | ErrText msg | ErrLS _ msg => msg
  | ErrWrap pre e => pre +:+ Error e
  end.

(** [errors.Is(e, target)]: along the chain of [%w]. *)
Fixpoint Is (e target : error) : bool :=
  bool_decide (e = target) ||
  match e with ErrWrap _ e' => Is e' target | _ => false end.

(** [fmt.Errorf("%s:%w", op, err)] *)
Definition wrap (op : string) (e : error) : error := ErrWrap (op +:+ ":") e.

Definition Canceled : error := ErrSentinel "context.Canceled" "context canceled".
Definition DeadlineExceeded : error :=
  ErrSentinel "context.DeadlineExceeded" "context deadline exceeded".

Lemma Is_refl e : Is e e = true.
Proof. destruct e; simpl; by rewrite bool_decide_eq_true_2. Qed.

Lemma Is_wrap op e target : Is e target = true → Is (wrap op e) target = true.
Proof. simpl. intros ->. apply orb_true_r. Qed.

(** ** [encoding/hex] *)
Definition from_hex (c : ascii) : option Z :=
  if is_digit c then Some (byte_val c - 48)
  else if in_range 97 102 c then Some (byte_val c - 87)
  else if in_range 65 70 c then Some (byte_val c - 55)
  else None.

Definition hex_digit (n : Z) : ascii :=
  byte_of_val (if n <? 10 then n + 48 else n + 87).

Definition ErrInvalidByte : error := ErrText "encoding/hex: invalid byte".
Definition ErrLength : error :=
  ErrSentinel "hex.ErrLength" "encoding/hex: odd length hex string".

(** [hex.Decode] stops at the first byte that is not a digit; an odd trailing
    byte is checked before the length is blamed. *)
Fixpoint hex_decode (l : list ascii) : list ascii * option error :=
  match l with
  | [] => ([], None)
  | [c] => ([], Some (if from_hex c is Some _ then ErrLength else ErrInvalidByte))
  | a :: b :: l' =>
      match from_hex a, from_hex b with
      | Some x, Some y =>
          let (r, e) := hex_decode l' in (byte_of_val (16 * x + y) :: r, e)
      | _, _ => ([], Some ErrInvalidByte)
      end
  end.

Definition DecodeString (s : string) : string * option error :=
  let (r, e) := hex_decode (bytes s) in (of_bytes r, e).

(** [hex.EncodeToString], which is also [fmt.Sprintf("%x", b)]. *)
Definition hex_encode (l : list ascii) : list ascii :=
  c ← l; [hex_digit (byte_val c / 16); hex_digit (byte_val c mod 16)].
Definition EncodeToString (s : string) : string := of_bytes (hex_encode (bytes s)).

(** Lower-case hexadecimal digits, the alphabet of [EncodeToString]. *)
Definition is_lower_hex (c : ascii) : bool := is_digit c || in_range 97 102 c.

Lemma from_hex_digit n : 0 <= n < 16 → from_hex (hex_digit n) = Some n.
Proof.
  intros Hn.
  assert (∀ k : nat, (k < 16)%nat → from_hex (hex_digit (Z.of_nat k)) = Some (Z.of_nat k)) as Hk.
  { intros k Hk. do 16 (destruct k as [|k]; [vm_compute; reflexivity|]). lia. }
  rewrite <- (Z2Nat.id n) by lia. apply Hk. lia.
Qed.

Lemma from_hex_range c n : from_hex c = Some n → 0 <= n < 16.
Proof.
  unfold from_hex, is_digit, in_range. pose proof (byte_val_range c).
  intros. repeat case_match; simplify_eq; lia.
Qed.

Lemma from_hex_lower c n : is_upper c = false → from_hex c = Some n → is_lower_hex c = true.
Proof.
  unfold from_hex, is_lower_hex, is_upper, is_digit, in_range.
  intros. repeat case_match; simplify_eq; lia.
Qed.

Lemma hex_decode_encode l : hex_decode (hex_encode l) = (l, None).
Proof.
  induction l as [|c l IH]; [done|].
  change (hex_encode (c :: l))
    with (hex_digit (byte_val c / 16) :: hex_digit (byte_val c mod 16) :: hex_encode l).
  pose proof (byte_val_range c).
  assert (0 <= byte_val c / 16 < 16) by (split; [apply Z.div_pos; lia|apply Z.div_lt_upper_bound; lia]).
  pose proof (Z.mod_pos_bound (byte_val c) 16).
  cbn [hex_decode]. rewrite !from_hex_digit by lia. rewrite IH.
  rewrite <- Z_div_mod_eq_full. by rewrite byte_of_val_of.
Qed.

Lemma hex_decode_ok_digits l r :
  hex_decode l = (r, None) → Forall (λ c, is_Some (from_hex c)) l ∧ length l = (2 * length r)%nat.
Proof.
  revert r. induction l as [l IH] using (induction_ltof1 _ (@length _)); unfold ltof in IH.
  intros r. destruct l as [|a [|b l]]; simpl.
  - intros [= <-]. by split; [constructor|].
  - by repeat case_match.
  - destruct (from_hex a) eqn:Ha, (from_hex b) eqn:Hb; try done.
    destruct (hex_decode l) as [r' e'] eqn:El. intros [= <- ->].
    destruct (IH l ltac:(simpl; lia) r' El) as [HF Hlen]. split; [|simpl; lia].
    by repeat constructor; rewrite ?Ha, ?Hb.
Qed.

(** ** [strconv] *)

(** [strconv.FormatUint(n, 10)]; twenty digits hold any [uint64]. *)
Fixpoint format_digits (fuel : nat) (n : Z) (acc : list ascii) : list ascii :=
  match fuel with
  | O => acc
  | S fuel =>
      let acc := byte_of_val (48 + n mod 10) :: acc in
      if n <? 10 then acc else format_digits fuel (n / 10) acc
  end.
Definition FormatUint (n : Z) : string := of_bytes (format_digits 20 n []).

Definition ErrSyntax : error := ErrSentinel "strconv.ErrSyntax" "invalid syntax".
Definition ErrRange : error := ErrSentinel "strconv.ErrRange" "value out of range".
Definition dquote : string := of_bytes [byte_of_val 34].
Definition num_error (s : string) (e : error) : error :=
  ErrWrap ("strconv.ParseUint: parsing " +:+ dquote +:+ s +:+ dquote +:+ ": ") e.

(** The loop of [strconv.ParseUint(s, 10, 64)]: [n] is the value so far; the
    test against the cutoff precedes the multiplication, the wrap-around test
    follows the addition. *)
Fixpoint parse_digits (l : list ascii) (n : Z) : Z * option error :=
  match l with
  | [] => (n, None)
  | c :: l =>
      if negb (is_digit c) then (0, Some ErrSyntax)
      else if (two64 - 1) / 10 + 1 <=? n then (two64 - 1, Some ErrRange)
      else let n10 := wrap_u64 (n * 10) in
           let n1 := wrap_u64 (n10 + (byte_val c - 48)) in
           if n1 <? n10 then (two64 - 1, Some ErrRange) else parse_digits l n1
  end.
Definition ParseUint (s : string) : Z * option error :=
  match bytes s with
  | [] => (0, Some (num_error s ErrSyntax))
  | l => let (n, e) := parse_digits l 0 in (n, num_error s <$> e)
  end.

Lemma format_digits_acc fuel n acc : acc ≠ [] → format_digits fuel n acc ≠ [].
Proof. revert n acc. induction fuel; simpl; [done|]. intros. case_match; [done|]. by apply IHfuel. Qed.

Lemma format_digits_nonempty fuel n : format_digits (S fuel) n [] ≠ [].
Proof. cbn [format_digits]. case_match; [done|]. by apply format_digits_acc. Qed.

Lemma parse_digit_step d l n :
  0 <= d < 10 → 0 <= n → n * 10 + d < two64 →
  parse_digits (byte_of_val (48 + d) :: l) n = parse_digits l (n * 10 + d).
Proof.
  intros Hd Hn Hlt. cbn [parse_digits]. unfold is_digit, in_range.
  rewrite byte_val_of_val by lia.
  assert (n <= (two64 - 1) / 10) by (apply Z.div_le_lower_bound; lia).
  rewrite !(proj2 (Z.leb_le _ _)) by lia. cbn [andb negb].
  rewrite (proj2 (Z.leb_gt _ _)) by lia.
  rewrite (wrap_u64_id (n * 10)) by (unfold is_u64; lia).
  replace (n * 10 + (48 + d - 48)) with (n * 10 + d) by lia.
  rewrite wrap_u64_id by (unfold is_u64; lia).
  by rewrite (proj2 (Z.ltb_ge _ _)) by lia.
Qed.

Lemma parse_format_digits fuel n acc :
  0 <= n < two64 → n < 10 ^ Z.of_nat fuel → (0 < fuel)%nat →
  parse_digits (format_digits fuel n acc) 0 = parse_digits acc n.
Proof.
  revert n acc. induction fuel as [|fuel IH]; [lia|]. intros n acc Hn Hpow _.
  cbn [format_digits]. pose proof (Z.mod_pos_bound n 10). pose proof (Z_div_mod_eq_full n 10).
  destruct (Z.ltb_spec n 10).
  - rewrite Z.mod_small by lia. by rewrite parse_digit_step by lia.
  - rewrite IH.
    + rewrite parse_digit_step by lia. f_equal. lia.
    + lia.
    + rewrite Nat2Z.inj_succ, Z.pow_succ_r in Hpow by lia.
      apply Z.div_lt_upper_bound; lia.
    + destruct fuel; [change (10 ^ Z.of_nat 1) with 10 in Hpow|]; lia.
Qed.

Lemma ParseUint_FormatUint n : is_u64 n → ParseUint (FormatUint n) = (n, None).
Proof.
  intros Hn. unfold ParseUint, FormatUint. rewrite bytes_of_bytes.
  destruct (format_digits 20 n []) eqn:E.
  - by destruct (format_digits_nonempty 19 n).
  - rewrite <- E, parse_format_digits; [done|exact Hn| |lia].
    unfold is_u64, two64 in Hn. change (10 ^ Z.of_nat 20) with 100000000000000000000. lia.
Qed.

Lemma FormatUint_nonempty n : FormatUint n ≠ "".
Proof.
  intros E. assert (bytes (FormatUint n) = []) as E' by (by rewrite E).
  unfold FormatUint in E'. rewrite bytes_of_bytes in E'. by apply format_digits_nonempty in E'.
Qed.

(** ** [context.Context]

    A context carries the timeouts of the [context.WithTimeout] calls that
    derived it (innermost first) and the job id stored by [jobs.WithJobID].
    Whether it is done is an observation of the run, made by [ctx.Err()]. *)
Record Ctx := mkCtx { ctx_timeouts : list Duration; ctx_job : option string }.

#[export] Instance Ctx_eq_dec : EqDecision Ctx.
Proof. solve_decision. Defined.

Definition Background : Ctx := mkCtx [] None.
Definition WithTimeout (c : Ctx) (d : Duration) : Ctx := mkCtx (d :: ctx_timeouts c) (ctx_job c).

(** ** [big.Int] conversions *)

(** [new(big.Int).SetBytes(b)]: big-endian, unsigned. *)
Definition SetBytes (s : string) : Z := foldl (λ z c, z * 256 + byte_val c) 0 (bytes s).
(** [x.Int64()] and [x.Uint64()] keep the low 64 bits of the magnitude, and
    [Int64] applies the sign. *)
Definition big_Uint64 (x : Z) : Z := wrap_u64 (Z.abs x).
Definition big_Int64 (x : Z) : Z := wrap_i64 (Z.sgn x * wrap_i64 (Z.abs x)).

(** Lower-case digits survive decoding and encoding. *)
Lemma hex_digit_from c n : is_lower_hex c = true → from_hex c = Some n → hex_digit n = c.
Proof.
  intros Hl Hn. rewrite <- (byte_of_val_of c). unfold hex_digit. f_equal.
  unfold from_hex, is_lower_hex, is_digit, in_range in *.
  destruct (Z.ltb_spec n 10); repeat case_match; simplify_eq; lia.
Qed.

Lemma hex_encode_decode l r :
  Forall (λ c, is_lower_hex c = true) l → hex_decode l = (r, None) → hex_encode r = l.
Proof.
  revert r. induction l as [l IH] using (induction_ltof1 _ (@length _)); unfold ltof in IH.
  intros r HF. destruct l as [|a [|b l]]; simpl.
  - by intros [= <-].
  - by repeat case_match.
  - destruct (from_hex a) as [x|] eqn:Ha, (from_hex b) as [y|] eqn:Hb; try done.
    destruct (hex_decode l) as [r' e'] eqn:El. intros [= <- ->].
    apply Forall_cons in HF as [HFa HF]. apply Forall_cons in HF as [HFb HF].
    pose proof (from_hex_range _ _ Ha). pose proof (from_hex_range _ _ Hb).
    change (hex_encode (byte_of_val (16 * x + y) :: r'))
      with (hex_digit (byte_val (byte_of_val (16 * x + y)) / 16)
            :: hex_digit (byte_val (byte_of_val (16 * x + y)) mod 16) :: hex_encode r').
    rewrite byte_val_of_val by lia.
    rewrite (Z.mul_comm 16), Z.div_add_l, Z.div_small, Z.add_0_r by lia.
    rewrite Z.add_comm, Z.mod_add, Z.mod_small by lia.
    rewrite (hex_digit_from a), (hex_digit_from b), (IH l ltac:(simpl; lia) r') by done. done.
Qed.
