(* ===== verification/Json.v ===== *)
(** [encoding/json]: the syntax.  UTF-8, string literals, the tree of a JSON
    text, its compact printing as [json.Marshal] prints it, and the parser of
    [json.Unmarshal]. *)

From S2P Require Import Prelude GoStd.

(** ** UTF-8 *)

(** A continuation byte, and its six bits. *)
Definition is_cont (c : ascii) : bool := in_range 0x80 0xBF c.
Definition low6 (c : ascii) : Z := byte_val c - 0x80.

(** [utf8.DecodeRune] of a text that does not begin with an ASCII byte: the
    rune and its size, or [None] where Go answers [RuneError] with size 1. *)
Definition rune (l : list ascii) : option (Z * nat) :=
  match l with
  | c0 :: c1 :: l2 =>
      let b0 := byte_val c0 in
      if in_range 0xC2 0xDF c0 then
        if is_cont c1 then Some ((b0 - 0xC0) * 64 + low6 c1, 2%nat) else None
      else if in_range 0xE0 0xEF c0 then
        match l2 with
        | c2 :: _ =>
            let lo := if b0 =? 0xE0 then 0xA0 else 0x80 in
            let hi := if b0 =? 0xED then 0x9F else 0xBF in
            if in_range lo hi c1 && is_cont c2
            then Some ((b0 - 0xE0) * 4096 + low6 c1 * 64 + low6 c2, 3%nat) else None
        | [] => None
        end
      else if in_range 0xF0 0xF4 c0 then
        match l2 with
        | c2 :: c3 :: _ =>
            let lo := if b0 =? 0xF0 then 0x90 else 0x80 in
            let hi := if b0 =? 0xF4 then 0x8F else 0xBF in
            if in_range lo hi c1 && is_cont c2 && is_cont c3
            then Some ((b0 - 0xF0) * 262144 + low6 c1 * 4096 + low6 c2 * 64 + low6 c3, 4%nat)
            else None
        | _ => None
        end
      else None
  | _ => None
  end.

(** [utf8.AppendRune]; a surrogate is encoded as [RuneError]. *)
Definition RuneError : Z := 0xFFFD.
Definition is_surrogate (r : Z) : bool := (0xD800 <=? r) && (r <? 0xE000).
Definition encode_rune (r : Z) : list ascii :=
  let r := if is_surrogate r then RuneError else r in
  byte_of_val <$>
    (if r <? 0x80 then [r]
     else if r <? 0x800 then [0xC0 + r / 64; 0x80 + r mod 64]
     else if r <? 0x10000 then [0xE0 + r / 4096; 0x80 + r / 64 mod 64; 0x80 + r mod 64]
     else [0xF0 + r / 262144; 0x80 + r / 4096 mod 64; 0x80 + r / 64 mod 64; 0x80 + r mod 64]).

(** Valid UTF-8. *)
Inductive utf8 : list ascii → Prop :=
| utf8_nil : utf8 []
| utf8_ascii c l : byte_val c < 128 → utf8 l → utf8 (c :: l)
| utf8_rune l r n : 128 <= byte_val (hd zero l) → rune l = Some (r, n) → utf8 (drop n l) → utf8 l.

(** ** String literals *)
Definition is_char (n : Z) (c : ascii) : bool := byte_val c =? n.
Definition char (n : Z) : ascii := byte_of_val n.
Definition QUOTE : Z := 34.
Definition BACKSLASH : Z := 92.

(** [appendString(dst, s, escapeHTML = true)], of one ASCII byte. *)
Definition escape_ascii (c : ascii) : list ascii :=
  let b := byte_val c in
  if (b =? QUOTE) || (b =? BACKSLASH) then [char BACKSLASH; c]
  else if b =? 8 then bytes "\b"
  else if b =? 9 then bytes "\t"
  else if b =? 10 then bytes "\n"
  else if b =? 12 then bytes "\f"
  else if b =? 13 then bytes "\r"
  else if (b <? 32) || (b =? 60) || (b =? 62) || (b =? 38)   (* < > & *)
  then bytes "\u00" ++ [hex_digit (b / 16); hex_digit (b mod 16)]
  else [c].

Fixpoint escape (fuel : nat) (l : list ascii) : list ascii :=
  match fuel, l with
  | S fuel, c :: l' =>
      if byte_val c <? 128 then escape_ascii c ++ escape fuel l'
      else
        match rune l with
        | None => bytes "\ufffd" ++ escape fuel l'
        | Some (r, n) =>
            (if (r =? 0x2028) || (r =? 0x2029) then bytes "\u202" ++ [hex_digit (r mod 16)]
             else take n l) ++ escape fuel (drop n l)
        end
  | _, _ => []
  end.

Definition quote (s : string) : list ascii :=
  char QUOTE :: escape (length (bytes s)) (bytes s) ++ [char QUOTE].

(** Four hexadecimal digits. *)
Definition hex4 (l : list ascii) : option (Z * list ascii) :=
  match l with
  | a :: b :: c :: d :: l =>
      match from_hex a, from_hex b, from_hex c, from_hex d with
      | Some a, Some b, Some c, Some d => Some (((a * 16 + b) * 16 + c) * 16 + d, l)
      | _, _, _, _ => None
      end
  | _ => None
  end.

(** The byte an escape letter stands for. *)
Definition simple_escape (e : ascii) : option ascii :=
  let b := byte_val e in
  if (b =? QUOTE) || (b =? BACKSLASH) || (b =? 47) then Some e
  else if b =? 98 then Some (char 8)
  else if b =? 102 then Some (char 12)
  else if b =? 110 then Some (char 10)
  else if b =? 114 then Some (char 13)
  else if b =? 116 then Some (char 9)
  else None.

(** [\u] and the second half of a surrogate pair, as [getu4] and
    [utf16.DecodeRune] read them. *)
Definition low_half (r : Z) (l : list ascii) : option (Z * list ascii) :=
  match l with
  | b :: u :: l =>
      if is_char BACKSLASH b && is_char 117 u then
        '(r1, l) ← hex4 l;
        if (r <? 0xDC00) && (0xDC00 <=? r1) && (r1 <? 0xE000)
        then Some ((r - 0xD800) * 1024 + (r1 - 0xDC00) + 0x10000, l) else None
      else None
  | _ => None
  end.

Definition prepend (p : list ascii) (x : option (list ascii * list ascii))
    : option (list ascii * list ascii) :=
  match x with Some (s, rest) => Some (p ++ s, rest) | None => None end.

(** After the opening quote: the text of the literal, and what follows it. *)
Fixpoint str_body (fuel : nat) (l : list ascii) : option (list ascii * list ascii) :=
  match fuel, l with
  | S fuel, c :: l' =>
      if is_char QUOTE c then Some ([], l')
      else if byte_val c <? 32 then None
      else if is_char BACKSLASH c then
        match l' with
        | [] => None
        | e :: l'' =>
            match simple_escape e with
            | Some b => prepend [b] (str_body fuel l'')
            | None =>
                if is_char 117 e then
                  match hex4 l'' with
                  | None => None
                  | Some (r, l3) =>
                      if is_surrogate r then
                        match low_half r l3 with
                        | Some (r, l4) => prepend (encode_rune r) (str_body fuel l4)
                        | None => prepend (encode_rune RuneError) (str_body fuel l3)
                        end
                      else prepend (encode_rune r) (str_body fuel l3)
                  end
                else None
            end
        end
      else if byte_val c <? 128 then prepend [c] (str_body fuel l')
      else
        match rune l with
        | None => prepend (encode_rune RuneError) (str_body fuel l')
        | Some (_, n) => prepend (take n l) (str_body fuel (drop n l))
        end
  | _, _ => None
  end.
Definition unquote (l : list ascii) : option (list ascii * list ascii) := str_body (length l) l.

Example unquote_ex :
  unquote (bytes "a\u003c\ud83d\ude00\ud83dx\n" ++ [char QUOTE; char 33])
  = Some (bytes "a<" ++ encode_rune 0x1F600 ++ encode_rune RuneError ++ bytes "x" ++ [char 10], [char 33]).
Proof. reflexivity. Qed.

(** *** A literal read back *)
Lemma rune_size l r n : rune l = Some (r, n) → (2 <= n <= length l)%nat.
Proof.
  destruct l as [|c0 [|c1 l]]; simpl; [done..|]. intros Hr.
  repeat case_match; simplify_eq; simpl; lia.
Qed.

(** Lists of integers, element by element. *)
Ltac list_lia :=
  repeat (apply (f_equal2 cons); [Z.to_euclidean_division_equations; lia|]); reflexivity.

(** Decides the comparisons of the goal. *)
Ltac decide_ltb :=
  repeat match goal with
  | |- context [?a <? ?b] =>
      first [ rewrite (proj2 (Z.ltb_ge a b)) by lia | rewrite (proj2 (Z.ltb_lt a b)) by lia ]
  end.

(** What was decoded, encodes to the bytes it came from. *)
Lemma encode_decode l r n : rune l = Some (r, n) → encode_rune r = take n l.
Proof.
  destruct l as [|c0 [|c1 l]]; simpl; [done..|]. unfold is_cont, in_range, low6.
  pose proof (byte_val_range c0). pose proof (byte_val_range c1).
  assert (∀ r bs cs, is_surrogate r = false →
    (if r <? 0x80 then [r]
     else if r <? 0x800 then [0xC0 + r / 64; 0x80 + r mod 64]
     else if r <? 0x10000 then [0xE0 + r / 4096; 0x80 + r / 64 mod 64; 0x80 + r mod 64]
     else [0xF0 + r / 262144; 0x80 + r / 4096 mod 64; 0x80 + r / 64 mod 64; 0x80 + r mod 64]) = bs →
    bs = byte_val <$> cs → encode_rune r = cs) as Henc.
  { intros r' bs cs Hs Hbs Hcs. unfold encode_rune. rewrite Hs, Hbs, Hcs, <- list_fmap_compose.
    rewrite <- (list_fmap_id cs) at 2. apply Forall2_fmap_l_eq. intros c _. apply byte_of_val_of. }
  destruct ((0xC2 <=? byte_val c0) && (byte_val c0 <=? 0xDF)) eqn:H1.
  { case_goal; [|done]. intros [= <- <-].
    eapply Henc; [| |done]; [unfold is_surrogate; lia|].
    decide_ltb.
    csimpl. list_lia. }
  destruct ((0xE0 <=? byte_val c0) && (byte_val c0 <=? 0xEF)) eqn:H2.
  { destruct l as [|c2 l]; [done|]. pose proof (byte_val_range c2).
    case_goal; [|done]. intros [= <- <-].
    destruct (Z.eqb_spec (byte_val c0) 0xE0), (Z.eqb_spec (byte_val c0) 0xED); try (exfalso; lia);
      (eapply Henc; [| |done]; [unfold is_surrogate; lia|];
       decide_ltb;
       csimpl; list_lia). }
  destruct ((0xF0 <=? byte_val c0) && (byte_val c0 <=? 0xF4)) eqn:H3; [|done].
  destruct l as [|c2 [|c3 l]]; [done..|]. pose proof (byte_val_range c2). pose proof (byte_val_range c3).
  case_goal; [|done]. intros [= <- <-].
  destruct (Z.eqb_spec (byte_val c0) 0xF0), (Z.eqb_spec (byte_val c0) 0xF4); try (exfalso; lia);
    (eapply Henc; [| |done]; [unfold is_surrogate; lia|];
     decide_ltb;
     csimpl; list_lia).
Qed.

Lemma str_body_ascii c fuel rest :
  byte_val c < 128 →
  str_body (S fuel) (escape_ascii c ++ rest) = prepend [c] (str_body fuel rest).
Proof.
  destruct c as [[] [] [] [] [] [] [] []]; intros Hc;
    first [reflexivity | by vm_compute in Hc].
Qed.

(** The line separators are escaped too, as JavaScript needs it. *)
Lemma str_body_separator r fuel rest :
  r = 0x2028 ∨ r = 0x2029 →
  str_body (S fuel) ((bytes "\u202" ++ [hex_digit (r mod 16)]) ++ rest)
  = prepend (encode_rune r) (str_body fuel rest).
Proof. by intros [-> | ->]. Qed.

Lemma str_body_rune l r n fuel rest :
  128 <= byte_val (hd zero l) → rune l = Some (r, n) →
  str_body (S fuel) (take n l ++ rest) = prepend (take n l) (str_body fuel rest).
Proof.
  intros Hhd Hr. pose proof (rune_size _ _ _ Hr) as Hn. destruct l as [|c l]; [simpl in Hn; lia|].
  assert (rune (take n (c :: l) ++ rest) = Some (r, n)) as Hr'.
  { clear Hhd. revert Hr. destruct l as [|c1 [|c2 [|c3 l]]]; simpl; try done;
      repeat (case_goal; try done); intros [= <- <-]; simpl; by repeat (case_goal; simplify_eq; try done). }
  destruct n as [|n]; [lia|]. simpl in Hhd, Hr' |- *.
  unfold is_char, QUOTE, BACKSLASH.
  rewrite !(proj2 (Z.eqb_neq _ _)) by lia. rewrite !(proj2 (Z.ltb_ge _ _)) by lia.
  rewrite Hr'. simpl. rewrite take_app_le, take_ge by (rewrite ?length_take; simpl in *; lia).
  by rewrite drop_app_ge, length_take, Nat.min_l, Nat.sub_diag by (rewrite ?length_take; simpl in *; lia).
Qed.

(** One chunk of a valid text. *)
Lemma escape_rune ef l r n :
  128 <= byte_val (hd zero l) → rune l = Some (r, n) →
  escape (S ef) l =
    (if (r =? 0x2028) || (r =? 0x2029) then bytes "\u202" ++ [hex_digit (r mod 16)] else take n l)
    ++ escape ef (drop n l).
Proof.
  intros Hhd Hr. destruct l as [|c l]; [done|]. cbn [escape hd] in *.
  by rewrite (proj2 (Z.ltb_ge _ _)), Hr by lia.
Qed.

Lemma escape_ascii_cons ef c l :
  byte_val c < 128 → escape (S ef) (c :: l) = escape_ascii c ++ escape ef l.
Proof. intros Hc. cbn [escape]. by rewrite (proj2 (Z.ltb_lt _ _)). Qed.

Lemma str_body_escape l :
  utf8 l → ∀ ef fuel rest, (length l <= ef)%nat → (length l < fuel)%nat →
  str_body fuel (escape ef l ++ char QUOTE :: rest) = Some (l, rest).
Proof.
  induction 1 as [|c l Hc Hl IH|l r n Hhd Hr Hl IH]; intros ef fuel rest Hef Hf.
  - destruct fuel as [|fuel]; [simpl in Hf; lia|]. by destruct ef.
  - destruct ef as [|ef], fuel as [|fuel]; cbn [length] in *; [lia..|].
    rewrite escape_ascii_cons by done. rewrite <- app_assoc, str_body_ascii, IH by (done || lia). done.
  - pose proof (rune_size _ _ _ Hr) as Hn.
    destruct ef as [|ef], fuel as [|fuel]; [lia..|].
    rewrite (escape_rune _ _ r n) by done. rewrite <- app_assoc.
    rewrite length_drop in IH. pose proof (encode_decode _ _ _ Hr) as He.
    assert (str_body fuel (escape ef (drop n l) ++ char QUOTE :: rest) = Some (drop n l, rest)) as IH'
      by (apply IH; lia).
    destruct ((r =? 0x2028) || (r =? 0x2029)) eqn:Hsep.
    + rewrite str_body_separator, IH', He by (apply orb_true_iff in Hsep; lia). simpl.
      by rewrite take_drop.
    + rewrite (str_body_rune _ r), IH' by done. simpl. by rewrite take_drop.
Qed.

Lemma escape_length l ef : (length l <= ef)%nat → utf8 l → (length l <= length (escape ef l))%nat.
Proof.
  intros Hef Hl. revert ef Hef. induction Hl as [|c l Hc Hl IH|l r n Hhd Hr Hl IH]; intros ef Hef; cbn [length] in *; [lia| |].
  - destruct ef as [|ef]; [lia|]. rewrite escape_ascii_cons, length_app by done.
    specialize (IH ef ltac:(lia)). assert (1 <= length (escape_ascii c))%nat; [|lia].
    unfold escape_ascii. repeat case_goal; simpl; lia.
  - pose proof (rune_size _ _ _ Hr) as Hn. rewrite length_drop in IH.
    destruct ef as [|ef]; [lia|]. rewrite (escape_rune _ _ r n), length_app by done.
    specialize (IH ef ltac:(lia)).
    match goal with |- context [(length ?p + _)%nat] => enough (n <= length p)%nat by lia end.
    destruct (_ || _); [|rewrite length_take; lia]. simpl.
    enough (n <= 4)%nat by lia. clear -Hr. destruct l as [|c0 [|c1 l]]; simpl in Hr; [done..|].
    repeat case_match; simplify_eq; lia.
Qed.

(** A quoted string is read back. *)
Lemma unquote_quote s rest :
  utf8 (bytes s) →
  ∃ q, quote s ++ rest = char QUOTE :: q ∧ unquote q = Some (bytes s, rest).
Proof.
  intros Hs. exists ((escape (length (bytes s)) (bytes s) ++ [char QUOTE]) ++ rest).
  split; [done|]. unfold unquote.
  rewrite <- app_assoc. cbn [app]. apply str_body_escape; [done|done|].
  pose proof (escape_length (bytes s) _ (Nat.le_refl _) Hs).
  rewrite length_app. simpl. lia.
Qed.
