(* ===== verification/JsonTree.v ===== *)
(** [encoding/json]: the tree of a JSON text, its printing as [json.Marshal]
    prints it, and the parser of [json.Unmarshal] and [json.Decoder]. *)

From S2P Require Import Prelude GoStd Json.

(** ** Trees

    A number is its literal; an object is its list of members, in order and
    with duplicates. *)
Inductive json :=
| JNull
| JBool (b : bool)
| JNum (lit : list ascii)
| JStr (s : string)
| JArr (l : list json)
| JObj (ms : list (string * json)).

Section json_ind'.
Variable P : json → Prop.
Hypothesis Hnull : P JNull.
Hypothesis Hbool : ∀ b, P (JBool b).
Hypothesis Hnum : ∀ lit, P (JNum lit).
Hypothesis Hstr : ∀ s, P (JStr s).
Hypothesis Harr : ∀ l, Forall P l → P (JArr l).
Hypothesis Hobj : ∀ ms, Forall (λ m, P m.2) ms → P (JObj ms).

(** Induction with the hypothesis on every element and every member. *)
Fixpoint json_ind' (j : json) : P j :=
  match j with
  | JNull => Hnull
  | JBool b => Hbool b
  | JNum lit => Hnum lit
  | JStr s => Hstr s
  | JArr l => Harr l ((fix go l := match l return Forall P l with
                       | [] => Forall_nil_2 _
                       | x :: l => Forall_cons_2 _ _ _ (json_ind' x) (go l)
                       end) l)
  | JObj ms => Hobj ms ((fix go l := match l return Forall (λ m, P m.2) l with
                         | [] => Forall_nil_2 _
                         | x :: l => Forall_cons_2 (λ m, P m.2) _ _ (json_ind' x.2) (go l)
                         end) ms)
  end.
End json_ind'.

(** Nesting of arrays and objects. *)
Fixpoint depth (j : json) : nat :=
  match j with
  | JArr l => S (foldr (λ x n, Nat.max (depth x) n) O l)
  | JObj ms => S (foldr (λ m n, Nat.max (depth m.2) n) O ms)
  | _ => O
  end.

(** ** Printing *)
Definition sep_by (sep : ascii) (l : list (list ascii)) : list ascii :=
  match l with
  | [] => []
  | x :: l => x ++ mjoin ((λ y, sep :: y) <$> l)
  end.

Definition COMMA : Z := 44.
Definition COLON : Z := 58.

Fixpoint print (j : json) : list ascii :=
  match j with
  | JNull => bytes "null"
  | JBool true => bytes "true"
  | JBool false => bytes "false"
  | JNum lit => lit
  | JStr s => quote s
  | JArr l => char 91 :: sep_by (char COMMA) (print <$> l) ++ [char 93]
  | JObj ms =>
      char 123 :: sep_by (char COMMA) ((λ m, quote m.1 ++ char COLON :: print m.2) <$> ms) ++ [char 125]
  end.

(** ** Numbers *)

(** [strconv.AppendInt(b, z, 10)] and [AppendUint]. *)
Definition int_lit (z : Z) : list ascii :=
  (if z <? 0 then [char 45] else []) ++ format_digits 20 (Z.abs z) [].
Definition JInt (z : Z) : json := JNum (int_lit z).

(** The digits at the front. *)
Fixpoint digits (l : list ascii) : list ascii * list ascii :=
  match l with
  | c :: l' => if is_digit c then let (d, rest) := digits l' in (c :: d, rest) else ([], l)
  | [] => ([], [])
  end.

(** One digit at least. *)
Definition digits1 (l : list ascii) : option (list ascii * list ascii) :=
  match digits l with ([], _) => None | dr => Some dr end.

(** The integer part: [0] stands alone. *)
Definition int_part (l : list ascii) : option (list ascii * list ascii) :=
  match l with
  | c :: l' =>
      if is_char 48 c then Some ([c], l') else digits1 l
  | [] => None
  end.

(** An optional part: [None] is a syntax error. *)
Definition opt_part (head : ascii → bool) (sign : bool) (l : list ascii) : option (list ascii * list ascii) :=
  match l with
  | c :: l' =>
      if head c then
        let sgn := match l' with
                   | s :: l2 => if sign && (is_char 43 s || is_char 45 s) then ([s], l2) else ([], l')
                   | [] => ([], [])
                   end in
        '(d, rest) ← digits1 (snd sgn); Some (c :: fst sgn ++ d, rest)
      else Some ([], l)
  | [] => Some ([], [])
  end.

Definition number (l : list ascii) : option (list ascii * list ascii) :=
  let neg := match l with
             | c :: l' => if is_char 45 c then ([c], l') else ([], l)
             | [] => ([], [])
             end in
  '(i, l1) ← int_part (snd neg);
  '(f, l2) ← opt_part (is_char 46) false l1;
  '(e, l3) ← opt_part (λ c, is_char 101 c || is_char 69 c) true l2;
  Some (fst neg ++ i ++ f ++ e, l3).

(** ** Parsing *)
Definition is_space (c : ascii) : bool :=
  is_char 32 c || is_char 9 c || is_char 10 c || is_char 13 c.
Fixpoint skip (l : list ascii) : list ascii :=
  match l with
  | c :: l' => if is_space c then skip l' else l
  | [] => []
  end.

Definition expect (word l : list ascii) (j : json) : option (json * list ascii) :=
  if decide (word = take (length word) l) then Some (j, drop (length word) l) else None.

(** A member of an object: its key, the text of its value, its value. *)
Record member := Member { m_key : string; m_raw : list ascii; m_val : json }.
Definition plain (m : member) : string * json := (m_key m, m_val m).

Section lists.
Variable value : list ascii → option (json * list ascii).

(** After [\[], the first element at the front. *)
Fixpoint elements (fuel : nat) (l : list ascii) : option (list json * list ascii) :=
  match fuel with
  | O => None
  | S fuel =>
      '(v, l) ← value l;
      match skip l with
      | c :: l =>
          if is_char COMMA c then '(vs, l) ← elements fuel (skip l); Some (v :: vs, l)
          else if is_char 93 c then Some ([v], l) else None
      | [] => None
      end
  end.

(** After [{], the first key at the front. *)
Fixpoint members (fuel : nat) (l : list ascii) : option (list member * list ascii) :=
  match fuel, l with
  | S fuel, q :: l =>
      if is_char QUOTE q then
        '(k, l) ← unquote l;
        match skip l with
        | c :: l =>
            if is_char COLON c then
              let start := skip l in
              '(v, l) ← value start;
              let m := Member (of_bytes k) (take (length start - length l) start) v in
              match skip l with
              | c :: l =>
                  if is_char COMMA c then '(ms, l) ← members fuel (skip l); Some (m :: ms, l)
                  else if is_char 125 c then Some ([m], l) else None
              | [] => None
              end
            else None
        | [] => None
        end
      else None
  | _, _ => None
  end.

Definition array (l : list ascii) : option (list json * list ascii) :=
  let l := skip l in
  match l with
  | c :: l' => if is_char 93 c then Some ([], l') else elements (length l) l
  | [] => None
  end.
Definition object (l : list ascii) : option (list member * list ascii) :=
  let l := skip l in
  match l with
  | c :: l' => if is_char 125 c then Some ([], l') else members (length l) l
  | [] => None
  end.
End lists.

(** A value at the front, [d] the arrays and objects that may still be opened. *)
Fixpoint value (d : nat) (l : list ascii) : option (json * list ascii) :=
  match l with
  | [] => None
  | c :: l' =>
      if is_char QUOTE c then '(s, rest) ← unquote l'; Some (JStr (of_bytes s), rest)
      else if is_char 91 c then
        match d with
        | O => None
        | S d => '(vs, rest) ← array (value d) l'; Some (JArr vs, rest)
        end
      else if is_char 123 c then
        match d with
        | O => None
        | S d => '(ms, rest) ← object (value d) l'; Some (JObj (plain <$> ms), rest)
        end
      else if is_char 110 c then expect (bytes "null") l JNull
      else if is_char 116 c then expect (bytes "true") l (JBool true)
      else if is_char 102 c then expect (bytes "false") l (JBool false)
      else '(lit, rest) ← number l; Some (JNum lit, rest)
  end.

(** [maxNestingDepth] *)
Definition maxNestingDepth : Z := 10000.
Definition max_depth : nat := Z.to_nat maxNestingDepth.

(** What [json.Unmarshal] accepts: one value, white space around it. *)
Definition parse (l : list ascii) : option json :=
  '(v, rest) ← value max_depth (skip l);
  match skip rest with [] => Some v | _ => None end.

Example parse_ex :
  parse (bytes " {} ") = Some (JObj []) ∧
  parse (bytes "[1, -2.5e+3 ,[ ],null]")
  = Some (JArr [JNum (bytes "1"); JNum (bytes "-2.5e+3"); JArr []; JNull]) ∧
  parse (bytes "[1,]") = None ∧ parse (bytes "01") = None ∧ parse (bytes "1 2") = None.
Proof. vm_compute. split_and!; reflexivity. Qed.

(** ** A printed tree is read back *)

(** What [json.Marshal] prints of the agent's values: numbers are integers of
    at most 64 bits, strings are valid UTF-8. *)
Inductive clean : json → Prop :=
| clean_null : clean JNull
| clean_bool b : clean (JBool b)
| clean_int z : - two63 <= z < two64 → clean (JInt z)
| clean_str s : utf8 (bytes s) → clean (JStr s)
| clean_arr l : Forall clean l → clean (JArr l)
| clean_obj ms : Forall (λ m, utf8 (bytes m.1) ∧ clean m.2) ms → clean (JObj ms).

(** *** Integers *)
Lemma format_digits_app fuel n acc : format_digits fuel n acc = format_digits fuel n [] ++ acc.
Proof.
  revert n acc. induction fuel as [|fuel IH]; intros n acc; [done|]. cbn [format_digits].
  destruct (n <? 10); [done|].
  rewrite (IH _ (_ :: acc)), (IH _ [_]), <- app_assoc. done.
Qed.

Lemma is_digit_of n : 0 <= n → is_digit (byte_of_val (48 + n mod 10)) = true.
Proof.
  intros Hn. unfold is_digit, in_range. pose proof (Z.mod_pos_bound n 10).
  rewrite byte_val_of_val by lia. lia.
Qed.

(** Decimal digits, and no leading zero. *)
Lemma format_digits_shape fuel n :
  0 <= n → n < 10 ^ Z.of_nat fuel → (0 < fuel)%nat →
  ∃ c l, format_digits fuel n [] = c :: l ∧ Forall (λ c, is_digit c = true) (c :: l) ∧
    (0 < n → is_char 48 c = false).
Proof.
  revert n. induction fuel as [|fuel IH]; intros n Hn Hpow Hf; [lia|]. cbn [format_digits].
  pose proof (is_digit_of n Hn). destruct (Z.ltb_spec n 10).
  - eexists _, []. split; [done|]. split; [by repeat constructor|]. intros ?.
    unfold is_char. rewrite Z.mod_small, byte_val_of_val by lia. lia.
  - rewrite format_digits_app. destruct fuel as [|fuel].
    { change (10 ^ Z.of_nat 1) with 10 in Hpow. lia. }
    rewrite Nat2Z.inj_succ, Z.pow_succ_r in Hpow by lia.
    assert (0 < n / 10) by (apply Z.div_str_pos; lia).
    destruct (IH (n / 10)) as (c & l & -> & Hd & Hz); [lia|apply Z.div_lt_upper_bound; lia|lia|].
    exists c, (l ++ [byte_of_val (48 + n mod 10)]). split; [done|]. split; [|by auto].
    rewrite app_comm_cons, Forall_app. split; [done|by repeat constructor].
Qed.

Definition stops (P : ascii → bool) (l : list ascii) : Prop :=
  match l with [] => True | c :: _ => P c = false end.

Lemma digits_app l rest :
  Forall (λ c, is_digit c = true) l → stops is_digit rest → digits (l ++ rest) = (l, rest).
Proof.
  intros Hl Hrest. induction Hl as [|c l Hc Hl IH]; simpl.
  - destruct rest as [|c rest]; simpl in *; [done|]. by rewrite Hrest.
  - by rewrite Hc, IH.
Qed.

(** The characters that continue a number. *)
Definition in_number (c : ascii) : bool :=
  is_digit c || is_char 46 c || (is_char 101 c || is_char 69 c).

Lemma opt_part_none head sign rest :
  (∀ c, head c = true → in_number c = true) → stops in_number rest →
  opt_part head sign rest = Some ([], rest).
Proof.
  intros Hh Hrest. destruct rest as [|c rest]; [done|]. simpl in *.
  destruct (head c) eqn:Hc; [|done]. rewrite Hh in Hrest; done.
Qed.

Lemma number_int z rest :
  - two63 <= z < two64 → stops in_number rest →
  number (int_lit z ++ rest) = Some (int_lit z, rest).
Proof.
  intros Hz Hrest. unfold int_lit. unfold two63, two64 in Hz.
  destruct (format_digits_shape 20 (Z.abs z)) as (c & l & E & Hd & Hzero);
    [lia|change (10 ^ Z.of_nat 20) with 100000000000000000000; lia|lia|].
  assert (number (((if z <? 0 then [char 45] else []) ++ c :: l) ++ rest)
          = '(i, l1) ← int_part (c :: l ++ rest);
            '(f, l2) ← opt_part (is_char 46) false l1;
            '(e, l3) ← opt_part (λ c, is_char 101 c || is_char 69 c) true l2;
            Some ((if z <? 0 then [char 45] else []) ++ i ++ f ++ e, l3)) as Hnum.
  { unfold number. destruct (z <? 0); [done|]. simpl.
    assert (is_char 45 c = false) as ->; [|done].
    apply Forall_inv in Hd. unfold is_digit, in_range in Hd. unfold is_char. lia. }
  rewrite E, Hnum. clear Hnum.
  assert (stops is_digit rest) as Hrest'.
  { destruct rest as [|d rest]; [done|]. cbn [stops] in Hrest |- *. unfold in_number in Hrest.
    by destruct (is_digit d). }
  assert (int_part (c :: l ++ rest) = Some (c :: l, rest)) as ->.
  { unfold int_part. destruct (is_char 48 c) eqn:Hc.
    - destruct (Z.eq_dec z 0) as [->|Hne]; [|discriminate (Hzero ltac:(lia))].
      change (format_digits 20 (Z.abs 0) []) with [byte_of_val 48] in E. by simplify_eq.
    - unfold digits1. by rewrite app_comm_cons, digits_app. }
  cbn [mbind option_bind]. unfold mbind, option_bind.
  rewrite opt_part_none by (done || (unfold in_number; intros d ->; by rewrite orb_true_r)).
  rewrite opt_part_none by (done || (unfold in_number; intros d ->; by rewrite orb_true_r)).
  by rewrite app_nil_r.
Qed.

(** *** The head of a printed value *)

(** What a printed value begins with: one character that tells its kind. *)
Definition starts (c : ascii) : bool :=
  negb (is_space c) && negb (is_char 93 c) && negb (is_char 125 c).

Lemma print_head j : clean j → ∃ c l, print j = c :: l ∧ starts c = true.
Proof.
  destruct 1 as [|b|z Hz|s _|l _|ms _]; try (by eexists _, _).
  - destruct b; by eexists _, _.
  - simpl. unfold int_lit. destruct (z <? 0); [by eexists _, _|]. unfold two63, two64 in Hz.
    destruct (format_digits_shape 20 (Z.abs z)) as (c & l & -> & Hd & _);
      [lia|change (10 ^ Z.of_nat 20) with 100000000000000000000; lia|lia|].
    exists c, l. split; [done|]. apply Forall_inv in Hd.
    unfold starts, is_space, is_char. unfold is_digit, in_range in Hd. lia.
Qed.

Lemma skip_starts c l : starts c = true → skip (c :: l) = c :: l.
Proof. unfold starts. simpl. by destruct (is_space c). Qed.

Lemma starts_close c n : starts c = true → n = 93 ∨ n = 125 → is_char n c = false.
Proof. unfold starts. intros Hc [-> | ->]; destruct (is_char 93 c), (is_char 125 c); simpl in Hc; lia || done. Qed.

Lemma print_skip j rest : clean j → skip (print j ++ rest) = print j ++ rest.
Proof. intros (c & l & -> & Hc)%print_head. by apply skip_starts. Qed.

(** *** Lists *)
Definition tail_of (close : ascii) (texts : list (list ascii)) (rest : list ascii) : list ascii :=
  mjoin ((λ y, char COMMA :: y) <$> texts) ++ close :: rest.

Lemma tail_of_cons close x texts rest :
  tail_of close (x :: texts) rest = char COMMA :: x ++ tail_of close texts rest.
Proof. unfold tail_of. csimpl. by rewrite <- app_assoc. Qed.

Lemma tail_of_length close texts rest : (length texts < length (tail_of close texts rest))%nat.
Proof.
  unfold tail_of. rewrite length_app. cbn [length].
  enough (length texts <= length (mjoin ((λ y, char COMMA :: y) <$> texts)))%nat by lia.
  induction texts as [|x texts IH]; csimpl; [lia|]. rewrite length_app. lia.
Qed.

Lemma tail_of_stops close texts rest :
  in_number close = false → stops in_number (tail_of close texts rest).
Proof. by destruct texts. Qed.

Section read_lists.
Context (value : list ascii → option (json * list ascii)).

Definition reads (j : json) : Prop :=
  ∀ rest, stops in_number rest → value (print j ++ rest) = Some (j, rest).

Lemma elements_print x l fuel rest :
  Forall clean (x :: l) → Forall reads (x :: l) → (length l < fuel)%nat →
  elements value fuel (print x ++ tail_of (char 93) (print <$> l) rest) = Some (x :: l, rest).
Proof.
  intros Hc Hr. revert x fuel Hc Hr. induction l as [|y l IH]; intros x fuel Hc Hr Hf;
    (destruct fuel as [|fuel]; [lia|]);
    apply Forall_cons in Hr as [Hx Hr]; apply Forall_cons in Hc as [_ Hc]; cbn [elements].
  - by rewrite (Hx (tail_of _ _ rest)).
  - rewrite (Hx (tail_of _ _ rest)) by (by apply tail_of_stops).
    rewrite fmap_cons, tail_of_cons. unfold mbind, option_bind.
    rewrite skip_starts by done. cbn [is_char].
    replace (is_char COMMA (char COMMA)) with true by done.
    rewrite print_skip by (by apply Forall_inv in Hc).
    simpl in Hf. rewrite IH by (done || lia). done.
Qed.

Lemma array_print l rest :
  Forall clean l → Forall reads l →
  array value (sep_by (char COMMA) (print <$> l) ++ char 93 :: rest) = Some (l, rest).
Proof.
  intros Hc Hr. destruct l as [|x l]; [done|]. unfold array, sep_by. csimpl.
  rewrite <- app_assoc. fold (tail_of (char 93) (print <$> l) rest).
  pose proof (print_head x (Forall_inv Hc)) as (c & t & Hp & Hs).
  rewrite print_skip by (by apply Forall_inv in Hc).
  pose proof (elements_print x l (length (print x ++ tail_of (char 93) (print <$> l) rest)) rest Hc Hr) as He.
  rewrite Hp in He |- *. cbn [app] in He |- *. rewrite starts_close by eauto. apply He.
  pose proof (tail_of_length (char 93) (print <$> l) rest) as Hlen. rewrite length_fmap in Hlen.
  cbn [length]. rewrite length_app. lia.
Qed.

Definition print_member (m : string * json) : list ascii := quote m.1 ++ char COLON :: print m.2.
Definition printed (m : string * json) : member := Member m.1 (print m.2) m.2.

Lemma members_print m (ms : list (string * json)) fuel rest :
  Forall (λ m, utf8 (bytes m.1) ∧ clean m.2) (m :: ms) → Forall (λ m, reads m.2) (m :: ms) →
  (length ms < fuel)%nat →
  members value fuel (print_member m ++ tail_of (char 125) (print_member <$> ms) rest)
  = Some (printed <$> m :: ms, rest).
Proof.
  intros Hc Hr. revert m fuel Hc Hr. induction ms as [|m' ms IH]; intros [k v] fuel Hc Hr Hf;
    (destruct fuel as [|fuel]; [lia|]);
    apply Forall_cons in Hr as [Hv Hr]; apply Forall_cons in Hc as [[Hk Hcv] Hc];
    unfold print_member at 1; cbn [fst snd] in *; rewrite <- app_assoc; cbn [app].
  all: match goal with |- context [tail_of ?cl ?ts ?r] =>
         assert (stops in_number (tail_of cl ts r)) as Hstop by (by apply tail_of_stops);
         destruct (unquote_quote k (char COLON :: print v ++ tail_of cl ts r) Hk) as (q & -> & Hq)
       end.
  all: cbn [members]; replace (is_char QUOTE (char QUOTE)) with true by done;
       rewrite Hq; unfold mbind, option_bind; cbv beta iota;
       rewrite skip_starts by done; replace (is_char COLON (char COLON)) with true by done; cbv zeta;
       rewrite print_skip by done; rewrite (Hv _ Hstop), length_app, Nat.add_sub, take_app_length, of_bytes_bytes.
  - done.
  - rewrite (fmap_cons print_member), tail_of_cons, skip_starts by done.
    replace (is_char COMMA (char COMMA)) with true by done.
    assert (∀ r, skip (print_member m' ++ r) = print_member m' ++ r) as -> by done.
    simpl in Hf. rewrite IH by (done || lia). done.
Qed.

Lemma object_print (ms : list (string * json)) rest :
  Forall (λ m, utf8 (bytes m.1) ∧ clean m.2) ms → Forall (λ m, reads m.2) ms →
  object value (sep_by (char COMMA) (print_member <$> ms) ++ char 125 :: rest)
  = Some (printed <$> ms, rest).
Proof.
  intros Hc Hr. destruct ms as [|m ms]; [done|]. unfold object, sep_by. csimpl.
  rewrite <- app_assoc. fold (tail_of (char 125) (print_member <$> ms) rest).
  apply (members_print m ms (length (print_member m ++ tail_of (char 125) (print_member <$> ms) rest)) rest Hc Hr).
  pose proof (tail_of_length (char 125) (print_member <$> ms) rest) as Hlen.
  rewrite length_fmap in Hlen. rewrite length_app. lia.
Qed.
End read_lists.

(** *** Values *)
Lemma depth_elem l d x :
  (foldr (λ x n, Nat.max (depth x) n) O l <= d)%nat → x ∈ l → (depth x <= d)%nat.
Proof. induction l as [|y l IH]; simpl; [by intros _ ?%elem_of_nil|]. intros Hd [-> |?]%elem_of_cons; [lia|apply IH; [lia|done]]. Qed.

Lemma plain_printed (ms : list (string * json)) : plain <$> (printed <$> ms) = ms.
Proof. induction ms as [|[k v] ms IH]; [done|]. csimpl. by rewrite IH. Qed.

(** How [value] reads a number: by exclusion. *)
Lemma value_number d z rest :
  - two63 <= z < two64 → stops in_number rest →
  value d (int_lit z ++ rest) = Some (JInt z, rest).
Proof.
  intros Hz Hrest. pose proof (number_int z rest Hz Hrest) as Hnum.
  assert (∃ c l, int_lit z = c :: l ∧ (is_digit c || is_char 45 c = true)) as (c & l & E & Hc).
  { unfold int_lit. unfold two63, two64 in Hz. destruct (z <? 0); [by eexists _, _|].
    destruct (format_digits_shape 20 (Z.abs z)) as (c & l & -> & Hd & _);
      [lia|change (10 ^ Z.of_nat 20) with 100000000000000000000; lia|lia|].
    exists c, l. apply Forall_inv in Hd. by rewrite Hd. }
  unfold JInt. rewrite E in Hnum |- *. cbn [app] in Hnum |- *.
  assert (value d (c :: l ++ rest) = '(lit, rest) ← number (c :: l ++ rest); Some (JNum lit, rest)) as ->.
  { unfold is_digit, in_range, is_char in Hc. destruct d; cbn [value];
      unfold is_char, QUOTE; rewrite !(proj2 (Z.eqb_neq _ _)) by lia; done. }
  by rewrite Hnum.
Qed.

Lemma value_print j : clean j → ∀ d, (depth j <= d)%nat → reads (value d) j.
Proof.
  induction j as [|b|lit|s|l IH|ms IH] using json_ind'; intros Hc d Hd rest Hrest; inversion Hc; subst.
  - by destruct d.
  - by destruct d, b.
  - by apply value_number.
  - cbn [print]. destruct (unquote_quote s rest) as (q & -> & Hq); [done|].
    assert (∀ d, value d (char QUOTE :: q) = '(s, rest) ← unquote q; Some (JStr (of_bytes s), rest)) as ->
      by (by intros []).
    rewrite Hq. simpl. by rewrite of_bytes_bytes.
  - cbn [depth] in Hd. destruct d as [|d]; [lia|]. cbn [print]. cbn [app].
    rewrite <- app_assoc. cbn [app].
    assert (∀ l, value (S d) (char 91 :: l) = '(vs, rest) ← array (value d) l; Some (JArr vs, rest)) as -> by done.
    rewrite array_print; [done|done|].
    rewrite Forall_forall in IH |- *. intros x Hx. apply IH; [done| |].
    + match goal with H : Forall clean l |- _ => rewrite Forall_forall in H; by apply H end.
    + eapply depth_elem; [|done]. lia.
  - cbn [depth] in Hd. destruct d as [|d]; [lia|]. cbn [print]. cbn [app].
    rewrite <- app_assoc. cbn [app]. fold print_member.
    assert (∀ l, value (S d) (char 123 :: l)
      = '(ms, rest) ← object (value d) l; Some (JObj (plain <$> ms), rest)) as -> by done.
    rewrite (object_print _ ms); [|done|].
    + cbn [mbind option_bind]. unfold mbind, option_bind. by rewrite plain_printed.
    + match goal with H : Forall _ ms |- _ => rename H into Hms end. rewrite Forall_forall in IH, Hms |- *.
      intros m Hm. apply IH; [done|by apply Hms|].
      clear -Hd Hm. induction ms as [|m' ms IH]; [by apply elem_of_nil in Hm|].
      simpl in Hd. apply elem_of_cons in Hm as [-> |?]; [lia|apply IH; [lia|done]].
Qed.

(** A tree printed as [json.Marshal] prints it is read back as it was by
    [json.Unmarshal], members in their order, whatever its strings and its
    integers, when its strings are valid UTF-8 and its nesting is at most what
    the parser accepts. *)
Lemma parse_print j :
  clean j → Z.of_nat (depth j) <= maxNestingDepth → parse (print j) = Some j.
Proof.
  intros Hc Hd. unfold parse. rewrite <- (app_nil_r (print j)), print_skip by done.
  rewrite (value_print j Hc) by (done || (unfold max_depth; lia)). done.
Qed.
