(* ===== verification/Rfc3339.v ===== *)
(** [time.Time] as text: the calendar, [Time.MarshalJSON] and
    [Time.UnmarshalJSON]. *)

From S2P Require Import Prelude GoStd Json JsonTree.

(** ** The calendar

    Days are counted from 1970-01-01; years begin in March, so that the leap
    day is the last one. *)
Definition days_before (y : Z) : Z := 365 * y + y / 4 - y / 100 + y / 400 - 719468.

(** The March-based year of a day, and the day in it: 400, 100, 4 and 1 years
    are taken off in turn. *)
Definition year_day (z : Z) : Z * Z :=
  let z := z + 719468 in
  let a := z / 146097 in let d := z mod 146097 in
  let b := Z.min 3 (d / 36524) in let d := d - 36524 * b in
  let c := d / 1461 in let d := d mod 1461 in
  let e := Z.min 3 (d / 365) in let d := d - 365 * e in
  (400 * a + 100 * b + 4 * c + e, d).

Record date := Date { dt_year : Z; dt_month : Z; dt_day : Z }.

Definition civil (z : Z) : date :=
  let (y, d) := year_day z in
  let mp := (5 * d + 2) / 153 in
  Date (if mp <? 10 then y else y + 1) (if mp <? 10 then mp + 3 else mp - 9)
       (d - (153 * mp + 2) / 5 + 1).

Definition days (x : date) : Z :=
  let early := dt_month x <=? 2 in
  let y := if early then dt_year x - 1 else dt_year x in
  let mp := if early then dt_month x + 9 else dt_month x - 3 in
  days_before y + (153 * mp + 2) / 5 + dt_day x - 1.

Definition leap (y : Z) : bool :=
  (y mod 4 =? 0) && (negb (y mod 100 =? 0) || (y mod 400 =? 0)).
Definition daysIn (m y : Z) : Z :=
  if m =? 2 then (if leap y then 29 else 28)
  else if (m =? 4) || (m =? 6) || (m =? 9) || (m =? 11) then 30 else 31.

Example civil_ex :
  civil 0 = Date 1970 1 1 ∧ civil 11016 = Date 2000 2 29 ∧ civil (-719162) = Date 1 1 1 ∧
  days (Date 2026 4 26) = 20569.
Proof. vm_compute. split_and!; reflexivity. Qed.

Lemma year_day_spec z :
  let (y, d) := year_day z in
  days_before y + d = z ∧ 0 <= d <= 365 ∧ (d = 365 → leap (y + 1) = true).
Proof.
  unfold year_day. cbv zeta.
  set (a := (z + 719468) / 146097). set (d0 := (z + 719468) mod 146097).
  assert (z = 146097 * a + d0 - 719468) as Ez by (unfold a, d0; pose proof (Z.div_mod (z + 719468) 146097); lia).
  assert (0 <= d0 < 146097) as H0 by (apply Z.mod_pos_bound; lia). clearbody a d0. subst z.
  set (b := Z.min 3 (d0 / 36524)). set (d1 := d0 - 36524 * b).
  assert (0 <= b <= 3 ∧ 0 <= d1 ∧ (d1 < 36524 ∨ b = 3 ∧ d1 = 36524)) as (Hb & H1 & H1')
    by (unfold d1, b; Z.to_euclidean_division_equations; lia).
  assert (d0 = 36524 * b + d1) as E0 by (unfold d1; lia). clearbody b d1. subst d0.
  set (c := d1 / 1461). set (d2 := d1 mod 1461).
  assert (d1 = 1461 * c + d2) as E1 by (unfold c, d2; apply Z.div_mod; lia).
  assert (0 <= d2 < 1461) as H2 by (apply Z.mod_pos_bound; lia). clearbody c d2. subst d1.
  assert (0 <= c <= 24) as Hc by lia.
  set (e := Z.min 3 (d2 / 365)). set (d3 := d2 - 365 * e).
  assert (0 <= e <= 3 ∧ 0 <= d3 ∧ (d3 < 365 ∨ e = 3 ∧ d3 = 365)) as (He & H3 & H3')
    by (unfold d3, e; Z.to_euclidean_division_equations; lia).
  assert (d2 = 365 * e + d3) as E2 by (unfold d3; lia). clearbody e d3. subst d2.
  split; [|split; [lia|]].
  - unfold days_before.
    assert ((400 * a + 100 * b + 4 * c + e) / 4 = 100 * a + 25 * b + c) as ->
      by (Z.to_euclidean_division_equations; lia).
    assert ((400 * a + 100 * b + 4 * c + e) / 100 = 4 * a + b) as ->
      by (Z.to_euclidean_division_equations; lia).
    assert ((400 * a + 100 * b + 4 * c + e) / 400 = a) as ->
      by (Z.to_euclidean_division_equations; lia).
    lia.
  - intros ->. assert (e = 3) as -> by lia. unfold leap.
    assert ((400 * a + 100 * b + 4 * c + 3 + 1) mod 4 = 0) as -> by (Z.to_euclidean_division_equations; lia).
    destruct (Z.eqb_spec ((400 * a + 100 * b + 4 * c + 3 + 1) mod 100) 0) as [Hm|]; [|done].
    assert (c = 24) as -> by (Z.to_euclidean_division_equations; lia).
    assert (b = 3) as -> by lia.
    by assert ((400 * a + 100 * 3 + 4 * 24 + 3 + 1) mod 400 = 0) as -> by (Z.to_euclidean_division_equations; lia).
Qed.

(** Every day has its date. *)
Lemma days_civil z :
  days (civil z) = z ∧ 1 <= dt_month (civil z) <= 12 ∧
  1 <= dt_day (civil z) <= daysIn (dt_month (civil z)) (dt_year (civil z)).
Proof.
  unfold civil. pose proof (year_day_spec z) as Hs. destruct (year_day z) as [y d].
  destruct Hs as (Hz & Hd & Hl).
  set (mp := (5 * d + 2) / 153).
  assert (153 * mp <= 5 * d + 2 < 153 * mp + 153 ∧ 0 <= mp <= 11) as [Hmp Hr]
    by (unfold mp; Z.to_euclidean_division_equations; lia). clearbody mp.
  assert (0 <= d - (153 * mp + 2) / 5) as Hlow by (Z.to_euclidean_division_equations; lia).
  unfold days. cbn [dt_year dt_month dt_day].
  destruct (Z.ltb_spec mp 10).
  - rewrite (proj2 (Z.leb_gt _ _)) by lia. replace (mp + 3 - 3) with mp by lia.
    split; [lia|]. split; [lia|]. split; [lia|]. unfold daysIn.
    assert (mp = 0 ∨ mp = 1 ∨ mp = 2 ∨ mp = 3 ∨ mp = 4 ∨ mp = 5 ∨ mp = 6 ∨ mp = 7 ∨ mp = 8 ∨ mp = 9)
      as Hcases by lia.
    destruct_or! Hcases; subst mp;
      match goal with |- context [(153 * ?n + 2) / 5] =>
        let v := eval vm_compute in ((153 * n + 2) / 5) in change ((153 * n + 2) / 5) with v end;
      simpl; lia.
  - rewrite (proj2 (Z.leb_le _ _)) by lia. replace (mp - 9 + 9) with mp by lia.
    replace (y + 1 - 1) with y by lia. split; [lia|]. split; [lia|]. split; [lia|]. unfold daysIn.
    assert (mp = 10 ∨ mp = 11) as [-> | ->] by lia.
    + change ((153 * 10 + 2) / 5) with 306. simpl. lia.
    + change ((153 * 11 + 2) / 5) with 337. simpl.
      destruct (Z.eq_dec d 365) as [->|]; [rewrite Hl by done; lia|]. destruct (leap _); lia.
Qed.

(** ** Decimal digits of a fixed width *)
Definition digit (n : Z) : ascii := byte_of_val (48 + n mod 10).
Fixpoint pad (w : nat) (n : Z) : list ascii :=
  match w with O => [] | S w => pad w (n / 10) ++ [digit n] end.

Definition dec_from (z : Z) (l : list ascii) : Z := foldl (λ z c, z * 10 + (byte_val c - 48)) z l.
Definition dec (l : list ascii) : Z := dec_from 0 l.

(** Without the zeros at the end. *)
Fixpoint rtrim (l : list ascii) : list ascii :=
  match l with
  | [] => []
  | c :: l => match rtrim l with [] => if is_char 48 c then [] else [c] | l' => c :: l' end
  end.

Lemma byte_digit n : byte_val (digit n) = 48 + n mod 10.
Proof. unfold digit. pose proof (Z.mod_pos_bound n 10). rewrite byte_val_of_val; lia. Qed.

Lemma pad_length w n : length (pad w n) = w.
Proof. revert n. induction w as [|w IH]; intros n; [done|]. simpl. rewrite length_app, IH. simpl. lia. Qed.

Lemma pad_digits w n : Forall (λ c, is_digit c = true) (pad w n).
Proof.
  revert n. induction w as [|w IH]; intros n; [constructor|]. simpl. apply Forall_app. split; [done|].
  repeat constructor. unfold is_digit, in_range. rewrite byte_digit.
  pose proof (Z.mod_pos_bound n 10). lia.
Qed.

Lemma dec_snoc l c : dec (l ++ [c]) = dec l * 10 + (byte_val c - 48).
Proof. unfold dec, dec_from. by rewrite foldl_snoc. Qed.

Lemma dec_pad w n : 0 <= n < 10 ^ Z.of_nat w → dec (pad w n) = n.
Proof.
  revert n. induction w as [|w IH]; intros n Hn; [simpl in *; unfold dec, dec_from; simpl; lia|].
  rewrite Nat2Z.inj_succ, Z.pow_succ_r in Hn by lia.
  cbn [pad]. rewrite dec_snoc, byte_digit, IH.
  - pose proof (Z.div_mod n 10). lia.
  - split; [apply Z.div_pos; lia|apply Z.div_lt_upper_bound; lia].
Qed.

Lemma dec_from_app z l : dec_from z l = z * 10 ^ Z.of_nat (length l) + dec l.
Proof.
  induction l as [|c l IH] using rev_ind.
  - unfold dec, dec_from. simpl. lia.
  - rewrite length_app, Nat2Z.inj_add, Z.pow_add_r, dec_snoc by lia. unfold dec_from in *.
    rewrite foldl_snoc, IH. change (10 ^ Z.of_nat (length [c])) with 10. lia.
Qed.

Lemma rtrim_zeros l : ∃ k, l = rtrim l ++ replicate k (char 48).
Proof.
  induction l as [|c l [k Hl]]; [by exists O|]. simpl. destruct (rtrim l) as [|c' l'] eqn:E.
  - destruct (is_char 48 c) eqn:Hc.
    + exists (S k). simpl in *. rewrite Hl at 1. f_equal. unfold is_char in Hc. apply Z.eqb_eq in Hc.
      unfold char. rewrite <- Hc. symmetry. apply byte_of_val_of.
    + exists k. simpl in *. by rewrite Hl at 1.
  - exists k. by rewrite Hl at 1.
Qed.

Lemma dec_zeros k : dec (replicate k (char 48)) = 0.
Proof.
  induction k as [|k IH]; [done|]. rewrite replicate_S_end, dec_snoc, IH. done.
Qed.

(** The value of a fraction, from the digits that are left of it. *)
Lemma dec_rtrim l :
  dec (rtrim l) * 10 ^ Z.of_nat (length l - length (rtrim l)) = dec l.
Proof.
  destruct (rtrim_zeros l) as [k Hk].
  assert (length l - length (rtrim l) = k)%nat as ->
    by (rewrite Hk at 1; rewrite length_app, length_replicate; lia).
  assert (dec l = dec (rtrim l ++ replicate k (char 48))) as -> by (by rewrite <- Hk).
  unfold dec at 2, dec_from. rewrite foldl_app. fold (dec_from 0 (rtrim l)). fold (dec (rtrim l)).
  pose proof (dec_from_app (dec (rtrim l)) (replicate k (char 48))) as Happ.
  rewrite dec_zeros, length_replicate, Z.add_0_r in Happ. symmetry. exact Happ.
Qed.

(** ** [Time.MarshalJSON]

    [local_offset u]: seconds east of UTC of the local zone, at the Unix
    second [u].  The agent's times are local ([time.Now], [time.Unix]); the
    zero time is in UTC. *)
Class Zone := { local_offset : Z → Z }.

Definition FormatTime_error (msg : string) : error := ErrText ("Time.MarshalJSON: " +:+ msg).

Section format.
Context `{Zone}.

Definition offset_at (t : Time) : Z := if t =? zero_time then 0 else local_offset (Unix t).

(** [appendNano(b, ns, stdFracSecond9)] *)
Definition fraction (ns : Z) : list ascii :=
  match rtrim (pad 9 ns) with [] => [] | l => char 46 :: l end.

Definition zone_text (offset : Z) : list ascii :=
  if offset =? 0 then [char 90]
  else
    let zone := Z.quot offset 60 in
    char (if zone <? 0 then 45 else 43) ::
    pad 2 (Z.abs zone / 60) ++ char COLON :: pad 2 (Z.abs zone mod 60).

(** [t.appendStrictRFC3339]: only a year of four digits and a zone less than
    24 hours away can be written. *)
Definition FormatTime (t : Time) : list ascii + error :=
  let local := Unix t + offset_at t in
  let d := civil (local / 86400) in
  let s := local mod 86400 in
  if negb ((0 <=? dt_year d) && (dt_year d <=? 9999)) then
    inr (FormatTime_error "year outside of range [0,9999]")
  else if 24 <=? Z.abs (Z.quot (offset_at t) 60) / 60 then
    inr (FormatTime_error "timezone hour outside of range [0,23]")
  else
    inl (pad 4 (dt_year d) ++ char 45 :: pad 2 (dt_month d) ++ char 45 :: pad 2 (dt_day d) ++
         char 84 :: pad 2 (s / 3600) ++ char COLON :: pad 2 (s / 60 mod 60) ++ char COLON ::
         pad 2 (s mod 60) ++ fraction (t mod Second) ++ zone_text (offset_at t)).
End format.

(** ** [Time.UnmarshalJSON]

    [parseStrictRFC3339] falls back on [Parse(RFC3339, s)], which is laxer:
    an hour of one digit, a comma before the fraction. *)
Definition num2 (l : list ascii) : option (Z * list ascii) :=
  match l with
  | a :: b :: l => if is_digit a && is_digit b then Some (dec [a; b], l) else None
  | _ => None
  end.
Definition num1 (l : list ascii) : option (Z * list ascii) :=
  match l with
  | a :: l' =>
      if is_digit a then
        match num2 l with Some r => Some r | None => Some (dec [a], l') end
      else None
  | [] => None
  end.
Definition num4 (l : list ascii) : option (Z * list ascii) :=
  match l with
  | a :: b :: c :: d :: l =>
      if is_digit a && is_digit b && is_digit c && is_digit d then Some (dec [a; b; c; d], l) else None
  | _ => None
  end.
Definition eat (n : Z) (l : list ascii) : option (list ascii) :=
  match l with c :: l => if is_char n c then Some l else None | [] => None end.
Definition guard_z (lo hi n : Z) : option unit := if (lo <=? n) && (n <=? hi) then Some tt else None.

(** [parseNanoseconds]: digits after the ninth are dropped. *)
Definition nanos (l : list ascii) : Z * list ascii :=
  match l with
  | c :: l' =>
      if is_char 46 c || is_char 44 c then
        match digits l' with
        | ([], _) => (0, l)
        | (d, rest) => let d := take 9 d in (dec d * 10 ^ Z.of_nat (9 - length d), rest)
        end
      else (0, l)
  | [] => (0, l)
  end.

(** The zone, in seconds east of UTC. *)
Definition zone (l : list ascii) : option Z :=
  match l with
  | c :: l' =>
      if is_char 90 c then match l' with [] => Some 0 | _ => None end
      else
        '(hh, l) ← num2 l'; l ← eat COLON l; '(mm, l) ← num2 l;
        _ ← guard_z 0 24 hh; _ ← guard_z 0 60 mm;
        match l with
        | [] =>
            if is_char 43 c then Some ((hh * 60 + mm) * 60)
            else if is_char 45 c then Some (- ((hh * 60 + mm) * 60)) else None
        | _ => None
        end
  | [] => None
  end.

Definition ParseTime (l : list ascii) : option Time :=
  '(y, l) ← num4 l; l ← eat 45 l;
  '(m, l) ← num2 l; _ ← guard_z 1 12 m; l ← eat 45 l;
  '(d, l) ← num2 l; l ← eat 84 l;
  '(hh, l) ← num1 l; _ ← guard_z 0 23 hh; l ← eat COLON l;
  '(mm, l) ← num2 l; _ ← guard_z 0 59 mm; l ← eat COLON l;
  '(ss, l) ← num2 l; _ ← guard_z 0 59 ss;
  let (ns, l) := nanos l in
  off ← zone l;
  _ ← guard_z 1 (daysIn m y) d;
  Some ((days (Date y m d) * 86400 + hh * 3600 + mm * 60 + ss - off) * Second + ns).

Example ParseTime_ex :
  ParseTime (bytes "2026-04-26T11:35:00Z") = Some (1777203300 * Second) ∧
  ParseTime (bytes "2026-04-26T1:35:00,5+01:30") = Some (1777161900 * Second + 500000000) ∧
  ParseTime (bytes "2026-02-29T11:35:00Z") = None.
Proof. vm_compute. split_and!; reflexivity. Qed.

(** ** A time written is read back *)
Lemma num2_pad n rest : 0 <= n < 100 → num2 (pad 2 n ++ rest) = Some (n, rest).
Proof.
  intros Hn. pose proof (pad_digits 2 n) as Hd. pose proof (dec_pad 2 n Hn) as Hv.
  pose proof (pad_length 2 n) as Hl. destruct (pad 2 n) as [|a [|b [|]]]; try done.
  apply Forall_cons in Hd as [Ha [Hb _]%Forall_cons]. simpl. by rewrite Ha, Hb, Hv.
Qed.

Lemma num1_pad n rest : 0 <= n < 100 → num1 (pad 2 n ++ rest) = Some (n, rest).
Proof.
  intros Hn. pose proof (num2_pad n rest Hn) as H2. pose proof (pad_digits 2 n) as Hd.
  pose proof (pad_length 2 n) as Hl. destruct (pad 2 n) as [|a [|b [|]]]; try done.
  apply Forall_cons in Hd as [Ha _]. cbn [app] in *. unfold num1. by rewrite Ha, H2.
Qed.

Lemma num4_pad n rest : 0 <= n < 10000 → num4 (pad 4 n ++ rest) = Some (n, rest).
Proof.
  intros Hn. pose proof (pad_digits 4 n) as Hd. pose proof (dec_pad 4 n Hn) as Hv.
  pose proof (pad_length 4 n) as Hl. destruct (pad 4 n) as [|a [|b [|c [|d [|]]]]]; try done.
  apply Forall_cons in Hd as [Ha [Hb [Hc [Hd _]%Forall_cons]%Forall_cons]%Forall_cons].
  simpl. by rewrite Ha, Hb, Hc, Hd, Hv.
Qed.

Lemma eat_char n l : 0 <= n < 256 → eat n (char n :: l) = Some l.
Proof. intros Hn. unfold eat, is_char, char. by rewrite byte_val_of_val, Z.eqb_refl. Qed.

Lemma guard_z_in lo hi n : lo <= n <= hi → guard_z lo hi n = Some tt.
Proof. intros. unfold guard_z. by rewrite !(proj2 (Z.leb_le _ _)) by lia. Qed.

(** What follows the fraction. *)
Definition in_fraction (c : ascii) : bool := is_digit c || is_char 46 c || is_char 44 c.

Lemma nanos_fraction ns rest :
  0 <= ns < Second → stops in_fraction rest → nanos (fraction ns ++ rest) = (ns, rest).
Proof.
  intros Hns Hrest. unfold fraction.
  pose proof (dec_rtrim (pad 9 ns)) as Hv. rewrite pad_length, dec_pad in Hv by (unfold Second in Hns; simpl; lia).
  pose proof (pad_digits 9 ns) as Hd. pose proof (pad_length 9 ns) as Hl.
  destruct (rtrim_zeros (pad 9 ns)) as [k Hk]. rewrite Hk in Hd, Hl. rewrite length_app in Hl.
  apply Forall_app in Hd as [Hd _].
  destruct (rtrim (pad 9 ns)) as [|c l] eqn:E.
  - cbn [app]. change (dec []) with 0 in Hv. unfold nanos.
    destruct rest as [|c rest]; [by f_equal|]. cbn [stops] in Hrest. unfold in_fraction in Hrest.
    destruct (is_char 46 c), (is_char 44 c), (is_digit c); try done. by f_equal.
  - cbn [app]. unfold nanos. change (is_char 46 (char 46) || is_char 44 (char 46)) with true. cbv iota.
    rewrite app_comm_cons, digits_app; [|done|].
    + rewrite take_ge by lia. cbv zeta. by rewrite Hv.
    + destruct rest as [|d rest]; [done|]. cbn [stops] in *. unfold in_fraction in Hrest. by destruct (is_digit d).
Qed.

Lemma zone_text_zone off :
  off mod 60 = 0 → Z.abs off < 86400 → zone (zone_text off) = Some off ∧ stops in_fraction (zone_text off).
Proof.
  intros Hm Ha. unfold zone_text. destruct (Z.eqb_spec off 0) as [->|Hne]; [done|].
  assert (Z.quot off 60 * 60 = off) as Hq by (Z.to_euclidean_division_equations; lia).
  cbv zeta. set (q := Z.quot off 60) in *. clearbody q. subst off.
  split; [|by destruct (q <? 0)].
  assert (0 <= Z.abs q / 60 <= 23 ∧ 0 <= Z.abs q mod 60 <= 59) as [Hh Hmm]
    by (Z.to_euclidean_division_equations; lia).
  unfold zone. assert (is_char 90 (char (if q <? 0 then 45 else 43)) = false) as -> by (by destruct (q <? 0)).
  rewrite num2_pad by lia. cbn [mbind option_bind]. unfold mbind, option_bind.
  rewrite eat_char by (unfold COLON; lia). rewrite <- (app_nil_r (pad 2 (Z.abs q mod 60))), num2_pad by lia.
  rewrite !guard_z_in by lia.
  destruct (Z.ltb_spec q 0).
  - change (is_char 43 (char 45)) with false. change (is_char 45 (char 45)) with true. cbv iota.
    f_equal. Z.to_euclidean_division_equations; lia.
  - change (is_char 43 (char 43)) with true. cbv iota. f_equal. Z.to_euclidean_division_equations; lia.
Qed.

Section roundtrip.
Context `{Zone}.

(** The zone of a time is a whole number of minutes, less than a day away. *)
Definition whole_minutes (t : Time) : Prop := offset_at t mod 60 = 0 ∧ Z.abs (offset_at t) < 86400.

Lemma ParseTime_FormatTime t b :
  whole_minutes t → FormatTime t = inl b → ParseTime b = Some t.
Proof.
  intros [Hm Ha]. unfold FormatTime.
  set (off := offset_at t) in *. clearbody off. cbv zeta.
  pose proof (days_civil ((Unix t + off) / 86400)) as (Hdays & Hmonth & Hday).
  destruct (civil _) as [y m d]. cbn [dt_year dt_month dt_day] in *.
  destruct (_ && _) eqn:Hy; cbn [negb]; [|done]. destruct (24 <=? _); [done|]. intros Hb.
  match type of Hb with inl ?x = _ => assert (b = x) as -> by congruence end. clear Hb.
  assert (0 <= (Unix t + off) mod 86400 < 86400) as Hs by (apply Z.mod_pos_bound; lia).
  pose proof (Z.div_mod (Unix t + off) 86400 ltac:(lia)) as Hdm.
  set (s := (Unix t + off) mod 86400) in *. clearbody s.
  assert (1 <= d <= 31) as Hd31.
  { split; [lia|]. etransitivity; [apply Hday|]. unfold daysIn. repeat case_match; lia. }
  assert (0 <= s / 3600 <= 23 ∧ 0 <= s / 60 mod 60 <= 59 ∧ 0 <= s mod 60 <= 59 ∧
          s / 3600 * 3600 + s / 60 mod 60 * 60 + s mod 60 = s) as (Hh & Hmi & Hss & Hsum)
    by (Z.to_euclidean_division_equations; lia).
  unfold ParseTime. rewrite num4_pad by lia.
  cbn [mbind option_bind]. unfold mbind, option_bind.
  repeat first [ rewrite eat_char by (unfold COLON; lia) | rewrite num2_pad by lia
               | rewrite num1_pad by lia | rewrite guard_z_in by lia ].
  destruct (zone_text_zone off Hm Ha) as [Hz Hstop].
  rewrite nanos_fraction by (done || (apply Z.mod_pos_bound; unfold Second; lia)).
  rewrite Hz. f_equal. rewrite Hdays.
  unfold Unix in *. pose proof (Z.div_mod t Second ltac:(unfold Second; lia)). unfold Second in *. lia.
Qed.
End roundtrip.

(** ** The characters of a time *)
Definition time_char (c : ascii) : bool :=
  is_digit c || existsb (λ n, is_char n c) [45; 84; COLON; 46; 90; 43].

Lemma digits_time l : Forall (λ c, is_digit c = true) l → Forall (λ c, time_char c = true) l.
Proof. intros Hl. eapply Forall_impl; [done|]. unfold time_char. by intros c ->. Qed.

Lemma FormatTime_chars `{Zone} t b : FormatTime t = inl b → Forall (λ c, time_char c = true) b.
Proof.
  unfold FormatTime. cbv zeta. destruct (negb _); [done|]. destruct (24 <=? _); [done|]. intros Hb.
  match type of Hb with inl ?x = _ => assert (b = x) as -> by congruence end. clear Hb.
  assert (∀ n w l, Forall (λ c, time_char c = true) l →
    Forall (λ c, time_char c = true) (pad w n ++ l)) as Hpad.
  { intros n w l Hl. apply Forall_app. split; [apply digits_time, pad_digits|done]. }
  repeat first [ apply Hpad | apply Forall_cons; split; [done|] ].
  apply Forall_app. split.
  - unfold fraction. destruct (rtrim_zeros (pad 9 (t mod Second))) as [k Hk].
    pose proof (pad_digits 9 (t mod Second)) as Hd. rewrite Hk in Hd. apply Forall_app in Hd as [Hd _].
    destruct (rtrim _); [constructor|]. constructor; [done|]. by apply digits_time.
  - unfold zone_text. destruct (_ =? _); [by repeat constructor|]. cbv zeta.
    apply Forall_cons. split; [by destruct (_ <? _)|]. apply Hpad. constructor; [done|].
    apply digits_time, pad_digits.
Qed.

(** Such a text needs no escapes. *)
Lemma time_char_plain c : time_char c = true → byte_val c < 128 ∧ escape_ascii c = [c].
Proof. destruct c as [[] [] [] [] [] [] [] []]; by vm_compute. Qed.

Lemma quote_time l :
  Forall (λ c, time_char c = true) l → utf8 l ∧ quote (of_bytes l) = char QUOTE :: l ++ [char QUOTE].
Proof.
  intros Hl. unfold quote. rewrite bytes_of_bytes. split.
  - induction Hl as [|c l Hc Hl IH]; [constructor|]. constructor; [by apply time_char_plain|done].
  - f_equal. f_equal. induction Hl as [|c l Hc Hl IH]; [done|]. destruct (time_char_plain _ Hc) as [Hb He].
    cbn [length]. by rewrite escape_ascii_cons, He, IH.
Qed.
