(* ===== verification/Effects.v ===== *)
(** Effectful Go code as programs over an interface of operations.

    A program either returns, stops (a panic, or a fatal error of the
    process), or performs an operation and continues with its answer.  The
    operations are those of the Go runtime ([goop]) and those of an interface
    [I] (a [ports.go], a driver).  A run is a trace of operations with their
    answers; the environment may give any answer its laws allow, so a theorem
    about every run holds whatever the services answer. *)

From S2P Require Import Prelude GoStd.

(** ** Operations *)
Record iface := Iface { op : Type; ans : op → Type }.

Inductive goop :=
| CtxErr (c : Ctx)                    (* ctx.Err() *)
| TimeNow                             (* time.Now() *)
| Sleep (d : Duration)                (* time.Sleep(d) *)
| SelectDone (c : Ctx) (d : Duration) (* select { <-ctx.Done() | <-time.After(d) } *)
| WaitDone (c : Ctx)                  (* <-ctx.Done() *)
| RangeKeys (ks : list string)        (* the order in which range visits a map *)
| Int31n (n : Z)                      (* rand.Int31n(n), n > 0 *)
| Schedule (n : nat).                 (* the scheduler picks one of n goroutines *)

Definition goans (g : goop) : Type :=
  match g with
  | CtxErr _ => option error
  | TimeNow => Time
  | Sleep _ => unit
  | SelectDone _ _ => bool            (* true: ctx.Done() was chosen *)
  | WaitDone _ => unit
  | RangeKeys _ => list string
  | Int31n _ => Z
  | Schedule _ => nat
  end.

Inductive fop (I : iface) := Go (g : goop) | Ext (o : op I).
Arguments Go {I} g.
Arguments Ext {I} o.

Definition fans {I} (o : fop I) : Type :=
  match o with Go g => goans g | Ext o => ans I o end.

Record event (I : iface) := Ev { ev_op : fop I; ev_ans : fans ev_op }.
Arguments Ev {I} ev_op ev_ans.
Arguments ev_op {I} _.
Arguments ev_ans {I} _.

Abbreviation trace I := (list (event I)).

#[export] Instance goop_eq_dec : EqDecision goop.
Proof. solve_decision. Defined.
#[export] Instance fop_eq_dec {I : iface} `{EqDecision (op I)} : EqDecision (fop I).
Proof. solve_decision. Defined.

(** Two events of the same operation are equal only with equal answers. *)
Lemma Ev_inj {I : iface} `{EqDecision (op I)} (o : fop I) (x y : fans o) :
  Ev o x = Ev o y → x = y.
Proof.
  intros Heq.
  assert (existT (ev_op (Ev o x)) (ev_ans (Ev o x)) =
          existT (ev_op (Ev o y)) (ev_ans (Ev o y))) as Hsig by (by rewrite Heq).
  by apply (Eqdep_dec.inj_pair2_eq_dec _ (decide_rel (=))) in Hsig.
Qed.

Lemma Ev_list_inj {I : iface} `{EqDecision (op I)} (o : fop I) (x y : fans o) l l' :
  Ev o x :: l = Ev o y :: l' → x = y.
Proof. intros Heq. apply (f_equal (hd (Ev o x))) in Heq. by apply Ev_inj in Heq. Qed.

(** ** Programs *)
Inductive stop :=
| Panic (msg : string)   (* a panic of this goroutine; recover catches it *)
| Crash (msg : string)   (* the process dies: a panic in another goroutine, a deadlock *)
| NoFuel.                (* the bound of a modelled unbounded loop is reached *)

Inductive outcome (R : Type) := Returned (r : R) | Stopped (s : stop).
Arguments Returned {R} r.
Arguments Stopped {R} s.

Inductive prog (I : iface) (R : Type) :=
| Ret (r : R)
| Stop (s : stop)
| Do (o : fop I) (k : fans o → prog I R).
Arguments Ret {I R} r.
Arguments Stop {I R} s.
Arguments Do {I R} o k.

#[export] Instance prog_ret I : MRet (prog I) := @Ret I.
#[export] Instance prog_bind I : MBind (prog I) :=
  λ A B f, fix bind p :=
    match p with
    | Ret r => f r
    | Stop s => Stop s
    | Do o k => Do o (λ x, bind (k x))
    end.
#[export] Instance prog_fmap I : FMap (prog I) := λ A B f p, p ≫= λ x, mret (f x).

(** One operation of the runtime, or of the interface. *)
Definition go {I} (g : goop) : prog I (goans g) := Do (Go g) Ret.
Definition ext {I : iface} (o : op I) : prog I (ans I o) := Do (Ext o) Ret.

(** [recover()] in a deferred function: a panic becomes a value. *)
Fixpoint recover {I R} (p : prog I R) : prog I (R + string) :=
  match p with
  | Ret r => Ret (inl r)
  | Stop (Panic m) => Ret (inr m)
  | Stop s => Stop s
  | Do o k => Do o (λ x, recover (k x))
  end.

(** [for ... range]: the body continues with a new state, breaks, or returns
    from the enclosing function. *)
Inductive flow (S R : Type) := Next (s : S) | Break (s : S) | Return (r : R).
Arguments Next {S R} s.
Arguments Break {S R} s.
Arguments Return {S R} r.

Fixpoint range {I A S R} (xs : list A) (s : S) (body : A → S → prog I (flow S R))
    : prog I (flow S R) :=
  match xs with
  | [] => Ret (Next s)
  | x :: xs =>
      body x s ≫= λ f,
      match f with
      | Next s => range xs s body
      | Break s => Ret (Next s)
      | Return r => Ret (Return r)
      end
  end.

(** What follows the loop, unless the loop returned from the function. *)
Definition after {I S R} (f : flow S R) (k : S → prog I R) : prog I R :=
  match f with Next s | Break s => k s | Return r => mret r end.

(** Running the operations of [I] by programs over [J]. *)
Fixpoint interp {I J : iface} (h : ∀ o : op I, prog J (ans I o)) {R} (p : prog I R) : prog J R :=
  match p with
  | Ret r => Ret r
  | Stop s => Stop s
  | Do (Go g) k => @Do J R (Go g) (λ x : goans g, interp h (k x))
  | Do (Ext o) k => h o ≫= λ x, interp h (k x)
  end.

(** Executing a program against a concrete environment. *)
Fixpoint exec {I W} (h : W → ∀ o : fop I, fans o * W) {R} (p : prog I R) (w : W)
    : trace I * outcome R :=
  match p with
  | Ret r => ([], Returned r)
  | Stop s => ([], Stopped s)
  | Do o k =>
      let (x, w') := h w o in
      let (tr, out) := exec h (k x) w' in
      (Ev o x :: tr, out)
  end.

(** [if err != nil { return err }] *)
Notation "'iferr' err ';;' k" :=
  (match err with Some e => mret (Some e) | None => k end)
  (at level 100, err at level 99, k at level 200, right associativity).

(** [ctx.Err() != nil], where the code tests it. *)
Definition is_nil {A} (o : option A) : bool := match o with None => true | Some _ => false end.

(** ** Laws of the environment *)

(** [c] was seen done: a context that is done stays done. *)
Definition reports_done {I} (c : Ctx) (ev : event I) : Prop :=
  match ev with
  | Ev (Go (CtxErr c')) (Some _) => c' = c
  | Ev (Go (SelectDone c' _)) true => c' = c
  | Ev (Go (WaitDone c')) _ => c' = c
  | _ => False
  end.
Definition done_in {I} (c : Ctx) (tr : trace I) : Prop := Exists (reports_done c) tr.

Definition go_ok {I} (tr : trace I) (g : goop) : goans g → Prop :=
  match g with
  | CtxErr c => λ e, (done_in c tr → e ≠ None) ∧
                     (∀ err, e = Some err → err = Canceled ∨ err = DeadlineExceeded)
  | TimeNow => λ _, True
  | Sleep _ => λ _, True
  | SelectDone _ _ => λ _, True
  | WaitDone _ => λ _, True
  | RangeKeys ks => λ ks', ks' ≡ₚ ks
  | Int31n n => λ x, 0 <= x < n
  | Schedule n => λ i, (i < n)%nat
  end.

Lemma done_in_app {I} c (tr tr' : trace I) : done_in c (tr ++ tr') ↔ done_in c tr ∨ done_in c tr'.
Proof. apply Exists_app. Qed.

Lemma done_in_ctx_err {I} c (tr : trace I) x :
  is_nil x = false → done_in c (tr ++ [Ev (Go (CtxErr c)) x]).
Proof. destruct x; [|done]. intros _. apply done_in_app. right. by apply Exists_cons_hd. Qed.
#[export] Hint Resolve done_in_ctx_err : agent.

(** What an interface's documentation promises of its answers. *)
Class Env (I : iface) := ext_ok : trace I → ∀ o : op I, ans I o → Prop.

(** An environment that promises nothing. *)
Definition any_env (I : iface) : Env I := λ _ _ _, True.

Definition lawful {I : iface} {E : Env I} (tr : trace I) (o : fop I) : fans o → Prop :=
  match o with Go g => go_ok tr g | Ext o => ext_ok tr o end.

(** ** Runs

    [runs hist p tr out]: after the history [hist], [p] can perform exactly
    the operations [tr] and end with [out]. *)
Section runs.
Context {I : iface} {E : Env I}.

Fixpoint runs {R} (hist : trace I) (p : prog I R) (tr : trace I) (out : outcome R) : Prop :=
  match p with
  | Ret r => tr = [] ∧ out = Returned r
  | Stop s => tr = [] ∧ out = Stopped s
  | Do o k => ∃ x tr', lawful hist o x ∧ tr = Ev o x :: tr' ∧
                       runs (hist ++ [Ev o x]) (k x) tr' out
  end.

(** Every run from the empty history satisfies [Q]. *)
Definition every_run {R} (p : prog I R) (Q : trace I → outcome R → Prop) : Prop :=
  ∀ tr out, runs [] p tr out → Q tr out.

(** Weakest preconditions: what must hold of the history for every
    continuation to end in [Q], which sees the whole trace. *)
Fixpoint wp {R} (p : prog I R) (Q : trace I → outcome R → Prop) (hist : trace I) : Prop :=
  match p with
  | Ret r => Q hist (Returned r)
  | Stop s => Q hist (Stopped s)
  | Do o k => ∀ x, lawful hist o x → wp (k x) Q (hist ++ [Ev o x])
  end.

(** The same, in an environment of other goroutines that may perform any
    operations in between. *)
Fixpoint rwp {R} (p : prog I R) (Q : trace I → outcome R → Prop) (hist : trace I) : Prop :=
  match p with
  | Ret r => ∀ more, Q (hist ++ more) (Returned r)
  | Stop s => ∀ more, Q (hist ++ more) (Stopped s)
  | Do o k => ∀ more x, lawful (hist ++ more) o x →
                        rwp (k x) Q ((hist ++ more) ++ [Ev o x])
  end.

Implicit Types hist tr : trace I.

Lemma wp_runs {R} (p : prog I R) Q hist :
  wp p Q hist ↔ ∀ tr out, runs hist p tr out → Q (hist ++ tr) out.
Proof.
  revert hist. induction p as [r|s|o k IH]; intros hist; simpl.
  - split; [intros HQ ? ? [-> ->]; by rewrite app_nil_r|].
    intros HQ. specialize (HQ [] _ (conj eq_refl eq_refl)). by rewrite app_nil_r in HQ.
  - split; [intros HQ ? ? [-> ->]; by rewrite app_nil_r|].
    intros HQ. specialize (HQ [] _ (conj eq_refl eq_refl)). by rewrite app_nil_r in HQ.
  - split.
    + intros Hwp tr out (x & tr' & Hx & -> & Hr).
      specialize (proj1 (IH _ _) (Hwp x Hx) _ _ Hr) as Hq. by rewrite <- app_assoc in Hq.
    + intros HQ x Hx. apply IH. intros tr' out Hr.
      rewrite <- app_assoc. apply HQ. simpl. eauto.
Qed.

Lemma every_run_wp {R} (p : prog I R) Q : wp p Q [] → every_run p Q.
Proof. intros Hwp tr out Hr. by apply (proj1 (wp_runs p Q []) Hwp). Qed.

Lemma wp_mono {R} (p : prog I R) (Q Q' : trace I → outcome R → Prop) hist :
  wp p Q hist → (∀ tr out, Q (hist ++ tr) out → Q' (hist ++ tr) out) → wp p Q' hist.
Proof. rewrite !wp_runs. eauto. Qed.

Lemma wp_mono' {R} (p : prog I R) (Q Q' : trace I → outcome R → Prop) hist :
  wp p Q hist → (∀ tr out, Q tr out → Q' tr out) → wp p Q' hist.
Proof. intros ? ?. eapply wp_mono; eauto. Qed.

Lemma wp_ret {R} (r : R) Q hist : Q hist (Returned r) → wp (mret r) Q hist.
Proof. done. Qed.

Lemma wp_stop {R} s (Q : trace I → outcome R → Prop) hist :
  Q hist (Stopped s) → wp (Stop s) Q hist.
Proof. done. Qed.

(** The postcondition a prefix must establish for the rest of the program. *)
Definition seq_post {A R} (f : A → prog I R) (Q : trace I → outcome R → Prop)
    (tr : trace I) (out : outcome A) : Prop :=
  match out with Returned a => wp (f a) Q tr | Stopped s => Q tr (Stopped s) end.

Lemma wp_bind_iff {A R} (p : prog I A) (f : A → prog I R) Q hist :
  wp (p ≫= f) Q hist ↔ wp p (seq_post f Q) hist.
Proof.
  revert hist. induction p as [a|s|o k IH]; intros hist; [done|done|].
  split; intros Hwp x Hx; by apply IH, Hwp.
Qed.

Lemma wp_bind {A R} (p : prog I A) (f : A → prog I R) Q hist :
  wp p (seq_post f Q) hist → wp (p ≫= f) Q hist.
Proof. apply wp_bind_iff. Qed.

Lemma wp_go g Q hist :
  (∀ x, go_ok hist g x → Q (hist ++ [Ev (Go g) x]) (Returned x)) → wp (go g) Q hist.
Proof. done. Qed.

Lemma wp_ext o Q hist :
  (∀ x, ext_ok hist o x → Q (hist ++ [Ev (Ext o) x]) (Returned x)) → wp (ext o) Q hist.
Proof. done. Qed.

Lemma wp_go_bind {R} g (k : goans g → prog I R) Q hist :
  (∀ x, go_ok hist g x → wp (k x) Q (hist ++ [Ev (Go g) x])) → wp (go g ≫= k) Q hist.
Proof. done. Qed.

Lemma wp_ext_bind {R} o (k : ans I o → prog I R) Q hist :
  (∀ x, ext_ok hist o x → wp (k x) Q (hist ++ [Ev (Ext o) x])) → wp (ext o ≫= k) Q hist.
Proof. done. Qed.

Lemma wp_true {R} (p : prog I R) hist : wp p (λ _ _, True) hist.
Proof. apply wp_runs. done. Qed.

Lemma wp_conj {R} (p : prog I R) (Q Q' : trace I → outcome R → Prop) hist :
  wp p Q hist → wp p Q' hist → wp p (λ tr out, Q tr out ∧ Q' tr out) hist.
Proof. rewrite !wp_runs. eauto. Qed.

(** Loops: an invariant over the elements visited so far. *)
Lemma wp_range {A S R} (xs : list A) (s : S) (body : A → S → prog I (flow S R))
    (Inv : list A → S → trace I → Prop) (Brk : S → trace I → Prop)
    (Q : trace I → outcome (flow S R) → Prop) hist :
  Inv [] s hist →
  (∀ pre x suf s tr, xs = pre ++ x :: suf → hist `prefix_of` tr → Inv pre s tr →
     wp (body x s)
        (λ tr out, match out with
                   | Returned (Next s) => Inv (pre ++ [x]) s tr
                   | Returned (Break s) => Brk s tr
                   | Returned (Return r) => Q tr (Returned (Return r))
                   | Stopped e => Q tr (Stopped e)
                   end) tr) →
  (∀ s tr, hist `prefix_of` tr → Inv xs s tr ∨ Brk s tr → Q tr (Returned (Next s))) →
  wp (range xs s body) Q hist.
Proof.
  intros Hinit Hbody Hend.
  assert (∀ suf pre s tr, xs = pre ++ suf → hist `prefix_of` tr → Inv pre s tr →
            wp (range suf s body) Q tr) as Hgen; [|by apply (Hgen xs [])].
  induction suf as [|x suf IH]; intros pre s' tr -> Hpre Hinv.
  - rewrite app_nil_r in *. apply wp_ret, Hend; [done|by left].
  - simpl. apply wp_bind. eapply wp_mono; [by apply (Hbody pre x suf)|].
    intros tr' [[s''|s''|r]|e]; simpl; [| |done|done].
    + intros Hinv'. apply (IH (pre ++ [x])); [by rewrite <- app_assoc| |done].
      by apply prefix_app_r.
    + intros Hb. apply wp_ret, Hend; [by apply prefix_app_r|by right].
Qed.

(** ** Concrete runs *)
Fixpoint lawful_trace (hist tr : trace I) : Prop :=
  match tr with
  | [] => True
  | ev :: tr => lawful hist (ev_op ev) (ev_ans ev) ∧ lawful_trace (hist ++ [ev]) tr
  end.

Lemma exec_runs {W R} (h : W → ∀ o : fop I, fans o * W) (p : prog I R) w hist tr out :
  exec h p w = (tr, out) → lawful_trace hist tr → runs hist p tr out.
Proof.
  revert w hist tr. induction p as [r|s|o k IH]; intros w hist tr; simpl.
  - by intros [= <- <-] _.
  - by intros [= <- <-] _.
  - destruct (h w o) as [x w'] eqn:Hh.
    destruct (exec h (k x) w') as [tr' out'] eqn:He. intros [= <- <-] [Hx Htr].
    exists x, tr'. split; [done|]. split; [done|]. by eapply IH.
Qed.
End runs.

Arguments every_run {I E R} p Q.

(** ** Stepping through a program

    [wp_step] executes one operation with an arbitrary lawful answer, or
    branches on the next test of the code; [wp_steps] goes on until a loop or
    the end. *)
Ltac wp_destruct_answer x :=
  cbn in x;
  repeat match goal with
         | y : (_ * _)%type |- _ => destruct y
         | y : unit |- _ => destruct y
         end.

Ltac wp_step :=
  lazymatch goal with
  | |- wp (mret _) _ _ => apply wp_ret
  | |- wp (Ret _) _ _ => apply wp_ret
  | |- wp (Stop _) _ _ => apply wp_stop
  | |- wp (go _ ≫= _) _ _ =>
      apply wp_go_bind; let x := fresh "x" in let Hx := fresh "Hx" in
      intros x Hx; wp_destruct_answer x
  | |- wp (ext _ ≫= _) _ _ =>
      apply wp_ext_bind; let x := fresh "x" in let Hx := fresh "Hx" in
      intros x Hx; wp_destruct_answer x
  | |- wp (go ?g) ?Q ?h =>
      refine (wp_go g Q h _); let x := fresh "x" in let Hx := fresh "Hx" in
      intros x Hx; wp_destruct_answer x
  | |- wp (ext ?o) ?Q ?h =>
      let x := fresh "x" in let Hx := fresh "Hx" in
      first [ refine (wp_ext o Q h _); intros x Hx; wp_destruct_answer x
            | intros x Hx; wp_destruct_answer x; apply wp_ret ]
  | |- wp (match ?x with _ => _ end) _ _ => destruct x eqn:?
  | |- wp (match ?x with _ => _ end ≫= _) _ _ => destruct x eqn:?
  | |- wp (mret _ ≫= _) _ _ => apply wp_bind, wp_ret; unfold seq_post
  | |- seq_post _ _ _ _ => unfold seq_post
  | |- wp (range _ _ _ ≫= _) _ _ => apply wp_bind
  | |- wp ((_ ≫= _) ≫= _) _ _ => apply wp_bind
  end; cbv beta.

Ltac wp_steps := repeat wp_step.

(** An equation between two events: the operations must agree, then the
    answers. *)
Ltac ev_inv H :=
  let Hop := fresh "Hop" in
  pose proof (f_equal ev_op H) as Hop; cbn in Hop;
  first [ discriminate Hop
        | injection Hop as ?; subst; apply Ev_inj in H; simplify_eq/=
        | clear Hop; apply Ev_inj in H; simplify_eq/= ].

(** The goal [x ∈ l] for a list [l] of known elements; [x] may have holes. *)
Ltac list_member :=
  solve [repeat first [apply list_elem_of_here | apply list_elem_of_further]].

(** The goal [ev ∈ tr ++ [ev1] ++ ...]. *)
Ltac in_trace :=
  solve [ repeat rewrite elem_of_app; repeat rewrite list_elem_of_singleton; auto 20
        | list_member ].

(** Clears up facts about the events of a known trace: memberships become
    equations, equations between events become equations of their answers. *)
Ltac trace_simpl :=
  repeat first
    [ progress (intros; simplify_eq/=)
    | match goal with
      | H : _ ∧ _ |- _ => destruct H
      | H : ∃ _, _ |- _ => destruct H
      | H : _ ∈ [] |- _ => by apply not_elem_of_nil in H
      | H : _ ∈ _ :: _ |- _ => apply elem_of_cons in H as [H|H]
      | H : Ev _ _ = Ev _ _ |- _ => ev_inv H
      | |- _ ↔ _ => split
      | |- _ ∧ _ => split
      end ].

(** ** A calm environment for examples: contexts are never done, maps are
    visited in the order of the keys, every choice is the first. *)
Definition calm_go (g : goop) : goans g :=
  match g with
  | CtxErr _ => None
  | TimeNow => 0
  | Sleep _ => tt
  | SelectDone _ _ => false
  | WaitDone _ => tt
  | RangeKeys ks => ks
  | Int31n _ => 0
  | Schedule _ => 0%nat
  end.
Definition calm {I : iface} (answers : ∀ o : op I, ans I o) (w : unit) (o : fop I) : fans o * unit :=
  match o with Go g => (calm_go g, tt) | Ext o => (answers o, tt) end.

(** ** Bounded, interference-proof programs *)

(** [p] performs at most [n] operations. *)
Fixpoint depth_le {I R} (n : nat) (p : prog I R) {struct p} : Prop :=
  match p with
  | Ret _ | Stop _ => True
  | Do o k => match n with O => False | S n => ∀ x, depth_le n (k x) end
  end.

(** The postcondition of a program that always returns. *)
Definition returns {I R} (Q : R → trace I → Prop) (tr : trace I) (out : outcome R) : Prop :=
  match out with Returned r => Q r tr | Stopped _ => False end.

(** A property of traces that later operations cannot break. *)
Definition stable {I} (Q : trace I → Prop) : Prop := ∀ tr more, Q tr → Q (tr ++ more).

Section rwp.
Context {I : iface} {E : Env I}.
Implicit Types tr hist : trace I.

Lemma rwp_more {R} (p : prog I R) Q hist more : rwp p Q hist → rwp p Q (hist ++ more).
Proof.
  destruct p as [r|s|o k]; simpl; intros Hr.
  - intros more'. rewrite <- app_assoc. apply Hr.
  - intros more'. rewrite <- app_assoc. apply Hr.
  - intros more' x Hx. rewrite <- (app_assoc hist) in *. by apply Hr.
Qed.

Lemma rwp_bind {A R} (p : prog I A) (f : A → prog I R) (Q : trace I → outcome R → Prop) hist :
  (∀ s tr more, Q tr (Stopped s) → Q (tr ++ more) (Stopped s)) →
  rwp p (λ tr out, match out with Returned a => rwp (f a) Q tr | Stopped s => Q tr (Stopped s) end) hist →
  rwp (p ≫= f) Q hist.
Proof.
  intros HQ. revert hist. induction p as [a|s|o k IH]; intros hist Hr.
  - specialize (Hr []). by rewrite app_nil_r in Hr.
  - intros more. apply (Hr more).
  - intros more x Hx. by apply IH, Hr.
Qed.

Lemma rwp_go_bind {R} g (k : goans g → prog I R) Q hist :
  (∀ more x, go_ok (hist ++ more) g x → rwp (k x) Q ((hist ++ more) ++ [Ev (Go g) x])) →
  rwp (go g ≫= k) Q hist.
Proof. done. Qed.

Lemma rwp_ext_bind {R} o (k : ans I o → prog I R) Q hist :
  (∀ more x, ext_ok (hist ++ more) o x → rwp (k x) Q ((hist ++ more) ++ [Ev (Ext o) x])) →
  rwp (ext o ≫= k) Q hist.
Proof. done. Qed.

Lemma rwp_ret {R} (r : R) (Q : R → trace I → Prop) hist :
  (∀ more, Q r (hist ++ more)) → rwp (mret r) (returns Q) hist.
Proof. done. Qed.

Lemma rwp_mono {R} (p : prog I R) (Q Q' : trace I → outcome R → Prop) hist :
  rwp p Q hist → (∀ tr out, Q tr out → Q' tr out) → rwp p Q' hist.
Proof.
  revert hist. induction p as [r|s|o k IH]; intros hist Hr HQ; simpl in *; eauto.
Qed.

(** Without interference it is a run like any other. *)
Lemma rwp_wp {R} (p : prog I R) Q hist : rwp p Q hist → wp p Q hist.
Proof.
  revert hist. induction p as [r|s|o k IH]; intros hist Hr; simpl in *.
  - specialize (Hr []). by rewrite app_nil_r in Hr.
  - specialize (Hr []). by rewrite app_nil_r in Hr.
  - intros x Hx. specialize (Hr [] x). rewrite app_nil_r in Hr. by apply IH, Hr.
Qed.

Lemma depth_le_mono {R} n m (p : prog I R) : (n <= m)%nat → depth_le n p → depth_le m p.
Proof.
  revert n m. induction p as [r|s|o k IH]; intros n m Hle Hd; simpl in *; [done..|].
  destruct n as [|n], m as [|m]; [done|done|lia|]. intros x. apply (IH x n); [lia|done].
Qed.

Lemma depth_le_bind {A R} n m (p : prog I A) (f : A → prog I R) :
  depth_le n p → (∀ a, depth_le m (f a)) → depth_le (n + m) (p ≫= f).
Proof.
  revert n. induction p as [a|s|o k IH]; intros n Hp Hf; simpl in *.
  - eapply depth_le_mono; [|apply Hf]. lia.
  - done.
  - destruct n as [|n]; [done|]. intros x. apply (IH x n); [apply Hp|apply Hf].
Qed.

Lemma depth_le_range {A S R} n (xs : list A) (s : S) (body : A → S → prog I (flow S R)) :
  (∀ x s, depth_le n (body x s)) → depth_le (n * length xs) (range xs s body).
Proof.
  intros Hb. revert s. induction xs as [|x xs IH]; intros s; simpl; [done|].
  rewrite Nat.mul_succ_r, Nat.add_comm. apply depth_le_bind; [done|].
  intros [s'|s'|r]; [apply IH|done|done].
Qed.
End rwp.

(** ** Rules for programs that always return, among other goroutines *)
Section rwp_returns.
Context {I : iface} {E : Env I}.
Implicit Types tr hist : trace I.

Lemma rwp_bind_returns {A R} (p : prog I A) (f : A → prog I R) Q (Q' : trace I → outcome R → Prop) hist :
  rwp p (returns Q) hist → (∀ a tr, Q a tr → rwp (f a) Q' tr) → rwp (p ≫= f) Q' hist.
Proof.
  intros Hp Hf. revert hist Hp. induction p as [a|s|o k IH]; intros hist Hp; simpl in *.
  - specialize (Hp []). rewrite app_nil_r in Hp. by apply Hf.
  - by destruct (Hp []).
  - intros more x Hx. by apply IH, Hp.
Qed.

(** A stable fact of the history is still there at the end. *)
Lemma rwp_frame {R} (P : trace I → Prop) (p : prog I R) Q hist :
  stable P → P hist → rwp p (returns Q) hist → rwp p (returns (λ r tr, P tr ∧ Q r tr)) hist.
Proof.
  intros Hst. revert hist. induction p as [r|s|o k IH]; intros hist HP Hr; simpl in *.
  - intros more. split; [by apply Hst|apply Hr].
  - done.
  - intros more x Hx. apply IH; [|by apply Hr]. by apply Hst, Hst.
Qed.

Lemma stable_elem (ev : event I) : stable (λ tr, ev ∈ tr).
Proof. intros tr more ?. apply elem_of_app. by left. Qed.

Lemma rwp_go g (Q : goans g → trace I → Prop) hist :
  (∀ tr x more, hist `prefix_of` tr → go_ok tr g x → Q x ((tr ++ [Ev (Go g) x]) ++ more)) →
  rwp (go g) (returns Q) hist.
Proof. intros HQ more x Hx more'. simpl. apply HQ; [by eexists|done]. Qed.

(** The loop rule; the invariant must survive what others do. *)
Lemma rwp_range {A S R} (xs : list A) (s : S) (body : A → S → prog I (flow S R))
    (Inv : list A → S → trace I → Prop) (Q : flow S R → trace I → Prop) hist :
  (∀ pre s, stable (Inv pre s)) →
  (∀ f, stable (Q f)) →
  Inv [] s hist →
  (∀ pre x suf s tr, xs = pre ++ x :: suf → Inv pre s tr →
     rwp (body x s)
         (returns (λ f tr, match f with
                           | Next s => Inv (pre ++ [x]) s tr
                           | Break s => False
                           | Return r => Q (Return r) tr
                           end)) tr) →
  (∀ s tr, Inv xs s tr → Q (Next s) tr) →
  rwp (range xs s body) (returns Q) hist.
Proof.
  intros Hst HQ Hinit Hbody Hend.
  assert (∀ suf pre s tr, xs = pre ++ suf → Inv pre s tr →
            rwp (range suf s body) (returns Q) tr) as Hgen; [|by apply (Hgen xs [])].
  induction suf as [|x suf IH]; intros pre s' tr -> Hinv.
  - rewrite app_nil_r in *. apply rwp_ret. intros more. apply Hend. by apply Hst.
  - simpl. eapply rwp_bind_returns; [by apply (Hbody pre x suf)|].
    intros [s''|s''|r] tr' Hf; simpl in *; [|done|].
    + apply (IH (pre ++ [x])); [by rewrite <- app_assoc|done].
    + apply rwp_ret. intros more. by apply HQ.
Qed.
End rwp_returns.

(** [rwp_step] executes one operation of a goroutine, with the events of the
    others before it in [more]. *)
Ltac rwp_step :=
  lazymatch goal with
  | |- rwp (mret _) _ _ => apply rwp_ret
  | |- rwp (go _ ≫= _) _ _ =>
      apply rwp_go_bind; let more := fresh "more" in let x := fresh "x" in let Hx := fresh "Hx" in
      intros more x Hx; wp_destruct_answer x
  | |- rwp (ext _ ≫= _) _ _ =>
      apply rwp_ext_bind; let more := fresh "more" in let x := fresh "x" in let Hx := fresh "Hx" in
      intros more x Hx; wp_destruct_answer x
  | |- rwp (match ?x with _ => _ end) _ _ => destruct x eqn:?
  end; cbv beta.
Ltac rwp_steps := repeat rwp_step.

(** ** Programs restricted to some operations *)

(** [p] performs only operations of [P], and returns only values of [Q]. *)
Fixpoint only {I R} (P : fop I → Prop) (Q : R → Prop) (p : prog I R) : Prop :=
  match p with
  | Ret r => Q r
  | Stop _ => True
  | Do o k => P o ∧ ∀ x, only P Q (k x)
  end.

Section only.
Context {I : iface} {E : Env I} (P : fop I → Prop).
Implicit Types tr hist : trace I.

Lemma only_mono {R} (Q Q' : R → Prop) (p : prog I R) :
  only P Q p → (∀ r, Q r → Q' r) → only P Q' p.
Proof. intros Hp HQ. induction p as [r|s|o k IH]; simpl in *; [by apply HQ|done|naive_solver]. Qed.

Lemma only_bind {A R} (Q : A → Prop) (Q' : R → Prop) (p : prog I A) (f : A → prog I R) :
  only P Q p → (∀ a, Q a → only P Q' (f a)) → only P Q' (p ≫= f).
Proof.
  intros Hp Hf. induction p as [a|s|o k IH]; simpl in *; [by apply Hf|done|].
  destruct Hp as [Ho Hk]. split; [done|]. intros x. by apply IH.
Qed.

Lemma only_weaken {R} (P' : fop I → Prop) (Q : R → Prop) (p : prog I R) :
  only P Q p → (∀ o, P o → P' o) → only P' Q p.
Proof. intros Hp HP. induction p as [r|s|o k IH]; simpl in *; [done|done|naive_solver]. Qed.

Lemma only_go g : P (Go g) → only P (λ _, True) (go g).
Proof. by split. Qed.
Lemma only_ext o : P (Ext o) → only P (λ _, True) (ext o).
Proof. by split. Qed.

Lemma only_after {S R} (f : flow S R) (k : S → prog I R) :
  (∀ s, only P (λ _, True) (k s)) → only P (λ _, True) (after f k).
Proof. destruct f; simpl; auto. Qed.

Lemma only_recover {R} (p : prog I R) : only P (λ _, True) p → only P (λ _, True) (recover p).
Proof. intros Hp. induction p as [r|s|o k IH]; simpl in *; [done|by destruct s|naive_solver]. Qed.

Lemma depth_le_bind_only {A R} n m (Q : A → Prop) (p : prog I A) (f : A → prog I R) :
  depth_le n p → only P Q p → (∀ a, Q a → depth_le m (f a)) → depth_le (n + m) (p ≫= f).
Proof.
  revert n. induction p as [a|s|o k IH]; intros n Hp Hq Hf; simpl in *.
  - eapply depth_le_mono; [|by apply Hf]. lia.
  - done.
  - destruct n as [|n]; [done|]. intros x. apply (IH x n); [apply Hp|apply Hq|done].
Qed.

Lemma only_range {A S R} (xs : list A) (s : S) (body : A → S → prog I (flow S R)) :
  (∀ x s, only P (λ _, True) (body x s)) → only P (λ _, True) (range xs s body).
Proof.
  intros Hb. revert s. induction xs as [|x xs IH]; intros s; simpl; [done|].
  eapply only_bind; [apply Hb|]. intros [s'|s'|r] _; [apply IH|done|done].
Qed.

Lemma only_wp {R} (Q : R → Prop) (p : prog I R) (Q' : trace I → outcome R → Prop) hist :
  only P Q p → wp p Q' hist →
  wp p (λ tr out, Q' tr out ∧ ∃ more, tr = hist ++ more ∧ Forall (λ ev, P (ev_op ev)) more) hist.
Proof.
  revert hist. induction p as [r|s|o k IH]; intros hist Hp Hwp; simpl in *.
  - split; [done|]. exists []. by rewrite app_nil_r.
  - split; [done|]. exists []. by rewrite app_nil_r.
  - destruct Hp as [Ho Hk]. intros x Hx. eapply wp_mono'; [by apply IH, Hwp|].
    intros tr out (HQ & more & -> & Hm). split; [done|]. exists (Ev o x :: more).
    split; [by rewrite <- app_assoc|by constructor].
Qed.
End only.

(** [only_steps] walks a program without pools, branch by branch. *)
Ltac only_step :=
  lazymatch goal with
  | |- only _ _ (mret _) => exact Logic.I
  | |- only _ _ (Stop _) => exact Logic.I
  | |- only _ _ (_ ≫= _) => eapply (only_bind _ (λ _, True)); [|intros ? _]
  | |- only _ _ (go _) => apply only_go
  | |- only _ _ (ext _) => apply only_ext
  | |- only _ _ (range _ _ _) => apply only_range; intros ? ?
  | |- only _ _ (after _ _) => apply only_after; intros ?
  | |- only _ _ (match ?x with _ => _ end) => destruct x
  end; cbv beta.
Ltac only_steps := repeat only_step.

Lemma done_in_stable {I : iface} c : stable (I:=I) (done_in c).
Proof. intros tr more. rewrite done_in_app. tauto. Qed.
#[export] Hint Resolve done_in_stable : agent.

Lemma ctx_err_nil {I : iface} c (tr : trace I) x :
  go_ok tr (CtxErr c) x → is_nil x = true → ¬ done_in c tr.
Proof. intros [Hd _] Hx Hdone. destruct x; [done|]. by apply (Hd Hdone). Qed.

(** The second [ctx.Err()] of [if ctx.Err() != nil { return ctx.Err() }]. *)
Lemma ctx_err_again {I : iface} c (tr : trace I) x y :
  is_nil x = false → go_ok (tr ++ [Ev (Go (CtxErr c)) x]) (CtxErr c) y → ∃ e, y = Some e.
Proof.
  intros Hx [Hd _]. destruct y as [e|]; [by exists e|].
  by destruct (Hd (done_in_ctx_err _ _ _ Hx)).
Qed.

(** ** Programs of one interface inside a larger one *)
Definition iplus (I J : iface) : iface :=
  Iface (op I + op J) (λ o, match o with inl o => ans I o | inr o => ans J o end).

(** A program over [J] as one over [iplus I J]. *)
Fixpoint inject {I J : iface} {R} (p : prog J R) : prog (iplus I J) R :=
  match p with
  | Ret r => Ret r
  | Stop s => Stop s
  | Do (Go g) k => @Do (iplus I J) R (Go g) (λ x : goans g, inject (k x))
  | Do (Ext o) k => @Do (iplus I J) R (@Ext (iplus I J) (inr o)) (λ x : ans J o, inject (k x))
  end.

(** The operations an injected program can perform. *)
Definition injected {I J : iface} (o : fop (iplus I J)) : Prop :=
  match o with Ext (inl _) => False | _ => True end.

Lemma inject_only {I J : iface} {R} (p : prog J R) :
  only (I:=iplus I J) injected (λ _, True) (inject p).
Proof. induction p as [r|s|[g|o] k IH]; simpl; auto. Qed.

(** An injected program performs the operations of the program. *)
Definition lifted {I J : iface} (P : fop J → Prop) (o : fop (iplus I J)) : Prop :=
  match o with Go g => P (Go g) | Ext (inr o) => P (Ext o) | Ext (inl _) => False end.

Lemma inject_lifted {I J : iface} (P : fop J → Prop) {R} (p : prog J R) :
  only P (λ _, True) p → only (I:=iplus I J) (lifted P) (λ _, True) (inject p).
Proof. induction p as [r|s|[g|o] k IH]; simpl; naive_solver. Qed.

(** What [recover] makes of an outcome. *)
Definition recovered {R} (out : outcome R) : outcome (R + string) :=
  match out with
  | Returned r => Returned (inl r)
  | Stopped (Panic m) => Returned (inr m)
  | Stopped s => Stopped s
  end.

Section more_runs.
Context {I : iface} {E : Env I}.
Implicit Types tr hist : trace I.

Lemma runs_recover {R} (p : prog I R) hist tr out :
  runs hist (recover p) tr out → ∃ out', runs hist p tr out' ∧ out = recovered out'.
Proof.
  revert hist tr. induction p as [r|s|o k IH]; intros hist tr; simpl.
  - intros [-> ->]. by exists (Returned r).
  - destruct s; intros [-> ->]; by eexists (Stopped _).
  - intros (x & tr' & Hx & -> & Hr). destruct (IH _ _ _ Hr) as (out' & Hr' & ->). eauto 8.
Qed.

Lemma runs_only {R} (P : fop I → Prop) (Q : R → Prop) (p : prog I R) hist tr out :
  only P Q p → runs hist p tr out → Forall (λ ev, P (ev_op ev)) tr.
Proof.
  revert hist tr. induction p as [r|s|o k IH]; intros hist tr Hp; simpl in *.
  - by intros [-> _].
  - by intros [-> _].
  - destruct Hp as [Ho Hk]. intros (x & tr' & _ & -> & Hr). constructor; [done|]. by eapply IH.
Qed.

(** A program's own runs as its postcondition. *)
Lemma wp_self {R} (p : prog I R) hist :
  wp p (λ tr out, ∃ seg, tr = hist ++ seg ∧ runs hist p seg out) hist.
Proof. apply wp_runs. intros tr out Hr. by exists tr. Qed.
End more_runs.

(** ** Running against a stateful service *)
Fixpoint exec_state {I : iface} {W} (h : ∀ o : op I, W → ans I o * W) {R} (p : prog I R) (w : W)
    : outcome R * W :=
  match p with
  | Ret r => (Returned r, w)
  | Stop s => (Stopped s, w)
  | Do (Go g) k => exec_state h (k (calm_go g)) w
  | Do (Ext o) k => let (x, w') := h o w in exec_state h (k x) w'
  end.

Lemma exec_state_ext {I : iface} {W} (h : ∀ o : op I, W → ans I o * W) {R} o
    (k : ans I o → prog I R) w :
  exec_state h (ext o ≫= k) w = exec_state h (k (h o w).1) (h o w).2.
Proof. unfold ext. simpl. by destruct (h o w). Qed.

Section environments.
Context {I : iface}.

(** A law that speaks of single answers holds of every answer in a run. *)
Lemma runs_law (law : ∀ o : op I, ans I o → Prop) {R} (p : prog I R) hist tr out o x :
  runs (E:=λ _, law) hist p tr out → Ev (Ext o) x ∈ tr → law o x.
Proof.
  revert hist tr. induction p as [r|s|o' k IH]; intros hist tr; simpl.
  - intros [-> _] Hin. by apply elem_of_nil in Hin.
  - intros [-> _] Hin. by apply elem_of_nil in Hin.
  - intros (y & tr' & Hy & -> & Hr) [Heq|Hin]%elem_of_cons; [|by eapply IH].
    change (match Ev (Ext o) x with Ev (Ext o) x => law o x | _ => True end).
    rewrite Heq. by destruct o'.
Qed.

(** A run under a law is one under any weaker law. *)
Lemma runs_weaken (law law' : ∀ o : op I, ans I o → Prop) {R} (p : prog I R) hist tr out :
  (∀ o x, law o x → law' o x) → runs (E:=λ _, law) hist p tr out → runs (E:=λ _, law') hist p tr out.
Proof.
  intros Hlaw. revert hist tr. induction p as [r|s|o k IH]; intros hist tr; simpl; [done..|].
  intros (y & tr' & Hy & -> & Hr). exists y, tr'. split_and!; [|done|by apply IH].
  destruct o; [exact Hy|by apply Hlaw].
Qed.

(** A run in a lawful environment is a run in one without laws. *)
Lemma runs_any (E : Env I) {R} (p : prog I R) hist tr out :
  runs (E:=E) hist p tr out → runs (E:=any_env I) hist p tr out.
Proof.
  revert hist tr. induction p as [r|s|o k IH]; intros hist tr; simpl; [done..|].
  intros (y & tr' & Hy & -> & Hr). exists y, tr'. split_and!; [by destruct o|done|by apply IH].
Qed.
End environments.

(** ** What two histories say of contexts *)
Section less_done.
Context {K K' : iface}.

(** What is known to be done in [h] is done in [h']. *)
Definition less_done (h : trace K) (h' : trace K') : Prop := ∀ c, done_in c h → done_in c h'.

Lemma go_ok_less (h : trace K) (h' : trace K') g x : less_done h h' → go_ok h' g x → go_ok h g x.
Proof. intros Hl. destruct g; simpl; try done. intros [Hd Ho]. split; [|done]. intros Hc. by apply Hd, Hl. Qed.

Lemma less_done_snoc (h : trace K) (h' : trace K') ev ev' :
  less_done h h' → (∀ c, reports_done c ev → reports_done c ev') → less_done (h ++ [ev]) (h' ++ [ev']).
Proof.
  intros Hl Hev c. rewrite !done_in_app. intros [Hc|Hc]; [left; by apply Hl|right].
  apply Exists_cons in Hc as [Hc|Hc]; [|by apply Exists_nil in Hc]. apply Exists_cons_hd. by apply Hev.
Qed.

Lemma less_done_nil (h' : trace K') : less_done [] h'.
Proof. by intros c ?%Exists_nil. Qed.
End less_done.

(** ** Programs whose operations are programs *)
Section composed.
Context {I J : iface} (h : ∀ o : op I, prog J (ans I o)).
#[local] Existing Instance any_env.

(** [R] ties what a program has seen of [I] to what happened over [J]. *)
Lemma wp_interp (R : trace I → trace J → Prop) {A} (p : prog I A) (Q : trace J → outcome A → Prop) hist tr :
  (∀ g x hist tr, R hist tr → go_ok tr g x → go_ok hist g x ∧ R (hist ++ [Ev (Go g) x]) (tr ++ [Ev (Go g) x])) →
  (∀ o hist tr, R hist tr → wp (h o) (λ tr out, match out with
     | Returned x => R (hist ++ [Ev (Ext o) x]) tr
     | Stopped s => Q tr (Stopped s)
     end) tr) →
  R hist tr → wp p (λ hist out, ∀ tr, R hist tr → Q tr out) hist → wp (interp h p) Q tr.
Proof.
  intros Hgo Hext. revert hist tr. induction p as [r|s|[g|o] k IH]; intros hist tr HR Hp; simpl in *.
  - by apply Hp.
  - by apply Hp.
  - intros x Hx. destruct (Hgo g x hist tr HR Hx) as [Hx' HR']. eapply IH; [exact HR'|by apply Hp].
  - apply wp_bind. eapply wp_mono'; [by apply Hext|]. intros tr' [x|s]; unfold seq_post; [|done].
    intros HR'. eapply IH; [exact HR'|by apply Hp].
Qed.
End composed.

(** What a run over two interfaces shows of the second. *)
Section right_part.
Context {I J : iface}.
#[local] Existing Instance any_env.

Definition right_event (ev : event (iplus I J)) : option (event J) :=
  match ev with
  | Ev (Go g) x => Some (@Ev J (Go g) x)
  | Ev (Ext (inl _)) _ => None
  | Ev (Ext (inr o)) x => Some (@Ev J (@Ext J o) x)
  end.
Definition right_part (tr : trace (iplus I J)) : trace J := omap right_event tr.

Lemma right_part_app tr tr' : right_part (tr ++ tr') = right_part tr ++ right_part tr'.
Proof. apply omap_app. Qed.

Lemma right_part_done c tr : done_in c (right_part tr) ↔ done_in c tr.
Proof.
  unfold done_in, right_part. induction tr as [|[[g|[o|o]] x] tr IH]; csimpl; rewrite ?Exists_nil, ?Exists_cons, ?IH;
    [done|by destruct g|simpl; tauto|simpl; tauto].
Qed.

Lemma right_part_go tr g x : go_ok tr g x → go_ok (right_part tr) g x.
Proof. apply go_ok_less. intros c. apply right_part_done. Qed.

Lemma wp_inject {R} (p : prog J R) Q tr :
  wp p Q (right_part tr) → wp (inject p) (λ tr' out, tr `prefix_of` tr' ∧ Q (right_part tr') out) tr.
Proof.
  revert tr. induction p as [r|s|[g|o] k IH]; intros tr Hp; simpl in *; [done|done| |]; intros x Hx.
  - eapply wp_mono'; [apply IH; rewrite right_part_app; apply Hp; by apply right_part_go|].
    intros tr' out [Hpre HQ]. split; [|done]. etrans; [|exact Hpre]. by eexists.
  - eapply wp_mono'; [apply IH; rewrite right_part_app; by apply Hp|].
    intros tr' out [Hpre HQ]. split; [|done]. etrans; [|exact Hpre]. by eexists.
Qed.
End right_part.
