(* ===== verification/World.v ===== *)
(** Any number of processes over one shared state.

    A process is what it has done and what is left of its program; one operation
    is one step, in any order, and a process may disappear between two of them.
    Others change the state too.  An invariant of the state is proved per
    operation: a program is [safe] when, whatever the others do in between, each
    of its operations keeps the state good; then the state is good in every
    reachable system. *)

From S2P Require Import Prelude Effects.

(** What the operations of [I] may answer and do, and what others do. *)
Class World (I : iface) := {
  state : Type;
  acts : state → ∀ o : op I, ans I o → state → Prop;
  others : state → state → Prop }.

Section system.
Context {I : iface} {W : World I} {R : Type}.
Implicit Types (s : state) (p : prog I R) (h : trace I).

(** The programs processes start with. *)
Context (starts : prog I R → Prop).

Definition proc : Type := trace I * prog I R.
Definition system : Type := state * list proc.

Inductive step : system → system → Prop :=
| step_others s s' ps : others s s' → step (s, ps) (s', ps)
| step_start s ps p : starts p → step (s, ps) (s, ([], p) :: ps)
| step_end s before hp rest :   (* it returned, panicked, or its process died *)
    step (s, before ++ hp :: rest) (s, before ++ rest)
| step_go s before h g k x rest :
    go_ok h g x →
    step (s, before ++ (h, @Do I R (Go g) k) :: rest)
         (s, before ++ (h ++ [@Ev I (Go g) x], k x) :: rest)
| step_call s s' before h o k x rest :
    acts s o x s' →
    step (s, before ++ (h, @Do I R (@Ext I o) k) :: rest)
         (s', before ++ (h ++ [@Ev I (@Ext I o) x], k x) :: rest).
End system.

(** ** Rely and guarantee

    A good state, and what the states after it keep. *)
Class Rely {I : iface} (W : World I) := {
  good : state → Prop;
  later : state → state → Prop;
  later_preorder :: PreOrder later;
  others_good s s' : good s → others s s' → good s' ∧ later s s' }.

(** What the runtime promises whatever the process did before. *)
Lemma go_ok_nil {I K : iface} (h : trace I) g x : go_ok h g x → go_ok (I:=K) [] g x.
Proof. apply go_ok_less, less_done_nil. Qed.

Section safe.
Context {I : iface} {W : World I} {G : Rely W}.
Implicit Types (s : state) (h : trace I).

(** After [h], each operation of [p], done in a later good state, keeps it good;
    when [p] returns, [Q] holds. *)
Fixpoint safe_after {R} (p : prog I R) (Q : R → state → Prop) h s : Prop :=
  match p with
  | Ret r => Q r s
  | Stop _ => True
  | @Do _ _ (Go g) k => ∀ x : goans g, go_ok h g x → safe_after (k x) Q (h ++ [@Ev I (Go g) x]) s
  | @Do _ _ (Ext o) k => ∀ (x : ans I o) s1 s2, later s s1 → good s1 → acts s1 o x s2 →
      good s2 ∧ later s1 s2 ∧ safe_after (k x) Q (h ++ [@Ev I (@Ext I o) x]) s2
  end.
Definition safe {R} (p : prog I R) (Q : R → state → Prop) s : Prop := ∀ h, safe_after p Q h s.

(** [Q] survives what others do. *)
Definition lasting {R} (Q : R → state → Prop) : Prop :=
  ∀ r s s', later s s' → good s' → Q r s → Q r s'.

Lemma safe_later {R} (p : prog I R) Q h s s' :
  lasting Q → later s s' → good s' → safe_after p Q h s → safe_after p Q h s'.
Proof.
  intros HQ Hl Hg. revert h. induction p as [r|e|[g|o] k IH]; intros h; simpl; [by apply HQ|done|auto|].
  intros Hs x s1 s2 Hl1. apply Hs. by etrans.
Qed.

Lemma safe_after_mono {R} (p : prog I R) (Q Q' : R → state → Prop) h s :
  (∀ r s, Q r s → Q' r s) → safe_after p Q h s → safe_after p Q' h s.
Proof.
  intros HQ. revert h s. induction p as [r|e|[g|o] k IH]; intros h s; simpl; [apply HQ|done|auto|].
  intros Hs x s1 s2 Hl Hg Ha. destruct (Hs x s1 s2 Hl Hg Ha) as (? & ? & ?). auto.
Qed.

Lemma safe_mono {R} (p : prog I R) (Q Q' : R → state → Prop) s :
  (∀ r s, Q r s → Q' r s) → safe p Q s → safe p Q' s.
Proof. intros HQ Hs h. by eapply safe_after_mono. Qed.

Lemma safe_ret {R} (r : R) (Q : R → state → Prop) s : Q r s → safe (mret r) Q s.
Proof. by intros HQ h. Qed.
Lemma safe_stop {R} e (Q : R → state → Prop) s : safe (Stop e) Q s.
Proof. by intros h. Qed.

Lemma safe_after_bind {A R} (p : prog I A) (f : A → prog I R) Q h s :
  safe_after p (λ a s, safe (f a) Q s) h s → safe_after (p ≫= f) Q h s.
Proof.
  revert h s. induction p as [r|e|[g|o] k IH]; intros h s; [|done| |].
  - intros Hs. apply Hs.
  - intros Hs x Hx. by apply IH, Hs.
  - intros Hs x s1 s2 Hl Hg Ha. destruct (Hs x s1 s2 Hl Hg Ha) as (? & ? & ?).
    split_and!; [done|done|by apply IH].
Qed.
Lemma safe_bind {A R} (p : prog I A) (f : A → prog I R) Q s :
  safe p (λ a s, safe (f a) Q s) s → safe (p ≫= f) Q s.
Proof. intros Hs h. apply safe_after_bind, Hs. Qed.

Lemma safe_go {R} g (k : goans g → prog I R) Q s :
  (∀ x, go_ok (I:=I) [] g x → safe (k x) Q s) → safe (go g ≫= k) Q s.
Proof. intros Hk h x Hx. apply Hk. by eapply go_ok_nil. Qed.

Lemma safe_call {R} (o : op I) (k : ans I o → prog I R) Q s :
  (∀ x s1 s2, later s s1 → good s1 → acts s1 o x s2 → good s2 ∧ later s1 s2 ∧ safe (k x) Q s2) →
  safe (ext o ≫= k) Q s.
Proof.
  intros Hk h x s1 s2 Hl Hg Ha. destruct (Hk x s1 s2 Hl Hg Ha) as (? & ? & Hs). split_and!; [done|done|apply Hs].
Qed.

(** An operation that leaves the state as it is. *)
Lemma safe_read {R} (o : op I) (k : ans I o → prog I R) Q s :
  (∀ x s1 s2, acts s1 o x s2 → s2 = s1) →
  (∀ x s1, later s s1 → good s1 → acts s1 o x s1 → safe (k x) Q s1) →
  safe (ext o ≫= k) Q s.
Proof.
  intros Ho Hk. apply safe_call. intros x s1 s2 Hl Hg Ha. pose proof (Ho _ _ _ Ha) as ->.
  split_and!; [done|done|by apply Hk].
Qed.

(** A loop with an invariant that others cannot break. *)
Lemma safe_range {A S R} (Inv : list A → S → state → Prop) (B : R → state → Prop) xs st
    (body : A → S → prog I (flow S R)) s :
  (∀ pre x suf st s, xs = pre ++ x :: suf → Inv pre st s →
     safe (body x st) (λ f s, match f with
                              | Next st => Inv (pre ++ [x]) st s
                              | Break st => False
                              | Return r => B r s
                              end) s) →
  Inv [] st s →
  safe (range xs st body) (λ f s, match f with
                                  | Next st => Inv xs st s
                                  | Break st => False
                                  | Return r => B r s
                                  end) s.
Proof.
  intros Hbody. enough (∀ pre suf, xs = pre ++ suf → ∀ st s, Inv pre st s →
    safe (range suf st body) (λ f s, match f with
                                     | Next st => Inv xs st s
                                     | Break st => False
                                     | Return r => B r s
                                     end) s) as Hall by (by apply (Hall [] xs)).
  intros pre suf. revert pre. induction suf as [|x suf IH]; intros pre Hx st' s' Hinv.
  { rewrite app_nil_r in Hx. subst pre. by apply safe_ret. }
  apply safe_bind. eapply safe_mono; [|by apply (Hbody pre x suf)].
  intros [st2|st2|r] s2; [|done|by intros Hr h]. intros H2. apply (IH (pre ++ [x])); [|done].
  by rewrite <- app_assoc.
Qed.

(** Operations that keep the state good, whatever they answer. *)
Lemma safe_only {R} (P : fop I → Prop) (p : prog I R) s :
  only P (λ _, True) p →
  (∀ o x s1 s2, P (@Ext I o) → good s1 → acts s1 o x s2 → good s2 ∧ later s1 s2) →
  good s → safe p (λ _ s', good s' ∧ later s s') s.
Proof.
  intros Hp Ho Hg h.
  enough (∀ h s0, later s s0 → good s0 → safe_after p (λ _ s', good s' ∧ later s s') h s0) as Hall
    by by apply Hall. clear Hg h.
  induction p as [r|e|[g|o] k IH]; intros h s0 Hl Hg; simpl in *;
    [done|done|intros x _; by apply (IH x (proj2 Hp x))|].
  destruct Hp as [Hpo Hk]. intros x s1 s2 Hl1 Hg1 Ha. destruct (Ho _ _ _ _ Hpo Hg1 Ha) as [Hg2 Hl2].
  split_and!; [done|done|]. apply (IH x (Hk x)); [|done]. etrans; [exact Hl|]. by etrans.
Qed.

(** ** Programs that keep the state good *)
Definition keeps {R} (p : prog I R) : Prop := ∀ s, good s → safe p (λ _ s', good s' ∧ later s s') s.

Lemma safe_keeps {R} (p : prog I R) (Q : R → state → Prop) : (∀ s, good s → safe p Q s) → keeps p.
Proof.
  intros Hp s Hg h. specialize (Hp s Hg h).
  enough (∀ h s0, later s s0 → good s0 → safe_after p Q h s0 →
            safe_after p (λ _ s', good s' ∧ later s s') h s0) as Hall by by apply Hall.
  clear Hg h Hp. induction p as [r|e|[g|o] k IH]; intros h s0 Hl Hg; simpl; [done|done|intros Hs x Hx; by apply IH, Hs|].
  intros Hs x s1 s2 Hl1 Hg1 Ha. destruct (Hs x s1 s2 Hl1 Hg1 Ha) as (Hg2 & Hl2 & Hs2).
  split_and!; [done|done|]. apply IH; [|done|done]. etrans; [exact Hl|]. by etrans.
Qed.

Lemma keeps_safe {R} (p : prog I R) s : keeps p → good s → safe p (λ _ _, True) s.
Proof. intros Hp Hg. eapply safe_mono; [|by apply Hp]. done. Qed.

Lemma only_keeps {R} (P : fop I → Prop) (p : prog I R) :
  only P (λ _, True) p →
  (∀ o x s1 s2, P (@Ext I o) → good s1 → acts s1 o x s2 → good s2 ∧ later s1 s2) → keeps p.
Proof. intros Hp Ho s Hg. by eapply safe_only. Qed.

Lemma keeps_ret {R} (r : R) : keeps (mret r).
Proof. intros s Hg h. done. Qed.
Lemma keeps_stop {R} e : keeps (Stop (R:=R) e).
Proof. intros s Hg h. done. Qed.

Lemma keeps_bind {A R} (p : prog I A) (f : A → prog I R) : keeps p → (∀ a, keeps (f a)) → keeps (p ≫= f).
Proof.
  intros Hp Hf s Hg. apply safe_bind. eapply safe_mono; [|by apply Hp].
  intros a s1 [Hg1 Hl1]. eapply safe_mono; [|by apply Hf]. intros r s2 [Hg2 Hl2]. split; [done|by etrans].
Qed.

Lemma keeps_go {R} g (k : goans g → prog I R) : (∀ x, keeps (k x)) → keeps (go g ≫= k).
Proof. intros Hk s Hg. apply safe_go. intros x _. by apply Hk. Qed.

Lemma keeps_call {R} (o : op I) (k : ans I o → prog I R) :
  (∀ x s1 s2, good s1 → acts s1 o x s2 → good s2 ∧ later s1 s2) → (∀ x, keeps (k x)) → keeps (ext o ≫= k).
Proof.
  intros Ho Hk s Hg. apply safe_call. intros x s1 s2 Hl Hg1 Ha. destruct (Ho _ _ _ Hg1 Ha) as [Hg2 Hl2].
  split_and!; [done|done|]. eapply safe_mono; [|by apply Hk]. intros r s3 [Hg3 Hl3]. split; [done|].
  etrans; [exact Hl|]. by etrans.
Qed.

Lemma keeps_range {A S R} (xs : list A) st (body : A → S → prog I (flow S R)) :
  (∀ x st, keeps (body x st)) → keeps (range xs st body).
Proof.
  intros Hbody. revert st. induction xs as [|x xs IH]; intros st; [apply keeps_ret|].
  apply keeps_bind; [done|]. intros [st'|st'|r]; [apply IH|apply keeps_ret|apply keeps_ret].
Qed.

Lemma keeps_recover {R} (p : prog I R) : keeps p → keeps (recover p).
Proof.
  intros Hp s Hg h. specialize (Hp s Hg h).
  enough (∀ h s0, later s s0 → good s0 → safe_after p (λ _ s', good s' ∧ later s s') h s0 →
            safe_after (recover p) (λ _ s', good s' ∧ later s s') h s0) as Hall by by apply Hall.
  clear Hg h Hp. induction p as [r|[m|m|]|[g|o] k IH]; intros h s0 Hl Hg; simpl;
    [done|done|done|done|intros Hs x Hx; by apply IH, Hs|].
  intros Hs x s1 s2 Hl1 Hg1 Ha. destruct (Hs x s1 s2 Hl1 Hg1 Ha) as (Hg2 & Hl2 & Hs2).
  split_and!; [done|done|]. apply IH; [|done|done]. etrans; [exact Hl|]. by etrans.
Qed.

(** ** Reachable systems *)
Section reachable.
Context {R : Type} (starts : prog I R → Prop).
Context (Hstarts : ∀ p s, starts p → good s → safe p (λ _ _, True) s).

Definition fine (s : state) (hp : proc (R:=R)) : Prop := safe_after hp.2 (λ _ _, True) hp.1 s.
Definition invariant (sys : system (R:=R)) : Prop := good sys.1 ∧ ∀ hp, hp ∈ sys.2 → fine sys.1 hp.

(** What the processes have left is safe in a later state. *)
Lemma invariant_intro s s' (ps : list (proc (R:=R))) :
  good s' → later s s' → (∀ hp, hp ∈ ps → fine s hp ∨ fine s' hp) → invariant (s', ps).
Proof.
  intros Hg Hl Hps. split; [done|]. intros hp Hp. destruct (Hps hp Hp) as [Hs|Hs]; [|done].
  by eapply safe_later.
Qed.

Lemma step_invariant sys sys' : step starts sys sys' → invariant sys → invariant sys'.
Proof.
  intros Hstep [Hg Hs].
  destruct Hstep as [s s' ps Ho|s ps p Hp|s before hp rest|s before h g k x rest Hx|s s' before h o k x rest Ha];
    cbn [fst snd] in *.
  - destruct (others_good _ _ Hg Ho). apply (invariant_intro s); auto.
  - apply (invariant_intro s); [done|done|]. intros q [-> |Hq]%elem_of_cons; left; [|auto].
    by apply (Hstarts p s).
  - apply (invariant_intro s); [done|done|]. intros q Hq. left. apply Hs. set_solver.
  - apply (invariant_intro s); [done|done|].
    intros q [Hq|[-> |Hq]%elem_of_cons]%elem_of_app; left; [apply Hs; set_solver| |apply Hs; set_solver].
    apply (Hs (h, @Do I R (@Go I g) k)); [set_solver|done].
  - assert (fine s (h, @Do I R (@Ext I o) k)) as Hcall by (apply Hs; set_solver).
    destruct (Hcall x s s') as (Hg' & Hl & Hk); [done|done|done|].
    apply (invariant_intro s); [done|done|].
    intros q [Hq|[-> |Hq]%elem_of_cons]%elem_of_app;
      [left; apply Hs; set_solver|by right|left; apply Hs; set_solver].
Qed.

(** Every system reached from a good state without processes is good. *)
Lemma reachable_good s sys : rtc (step starts) (s, []) sys → good s → good sys.1.
Proof.
  intros Hsteps Hg. enough (invariant sys) as [? _] by done.
  assert (invariant (s, [])) as Hi by (split; [done|by intros p ?%elem_of_nil]). clear Hg.
  induction Hsteps as [|x y z Hxy _ IH]; [done|]. by eapply IH, step_invariant.
Qed.
End reachable.
End safe.

(** ** Programs of one interface inside a larger one *)
Definition plus_acts {I J : iface} {S : Type} (a : S → ∀ o : op I, ans I o → S → Prop)
    (b : S → ∀ o : op J, ans J o → S → Prop) (s : S) (o : op (iplus I J)) : ans (iplus I J) o → S → Prop :=
  match o with inl o => a s o | inr o => b s o end.

(** An operation that does nothing to the state. *)
Definition silent {I : iface} {S : Type} (s : S) (o : op I) (x : ans I o) (s' : S) : Prop := s' = s.

Lemma silent_good {I : iface} {S : Type} (is_good : S → Prop) (extends : S → S → Prop) {Hpre : PreOrder extends}
    s (o : op I) (x : ans I o) s' :
  is_good s → silent s o x s' → is_good s' ∧ extends s s'.
Proof. by intros Hg ->. Qed.

Section inject.
Context {I J : iface} {S : Type} (a : S → ∀ o : op I, ans I o → S → Prop).
Context (b : S → ∀ o : op J, ans J o → S → Prop) (oth : S → S → Prop).
Context (is_good : S → Prop) (extends : S → S → Prop) (Hpre : PreOrder extends).
Context (Hoth : ∀ s s', is_good s → oth s s' → is_good s' ∧ extends s s').

Lemma keeps_inject {R} (p : prog J R) :
  keeps (G:=Build_Rely J (Build_World J S b oth) is_good extends Hpre Hoth) p →
  keeps (G:=Build_Rely (iplus I J) (Build_World (iplus I J) S (plus_acts a b) oth) is_good extends Hpre Hoth)
    (inject p).
Proof.
  intros Hp s Hg h. specialize (Hp s Hg []). cbn in *. assert (less_done (K:=J) [] h) as Hd by apply less_done_nil.
  revert h Hd Hp. generalize ([] : trace J) as tr. clear Hg. generalize s at 2 4 as s0.
  induction p as [r|e|[g|o] k IH]; intros s0 tr h Hd; simpl; [done|done| |].
  - intros Hs x Hx. eapply IH; [|apply Hs; by eapply go_ok_less].
    apply less_done_snoc; [done|]. intros c. by destruct g.
  - intros Hs x s1 s2 Hl1 Hg1 Ha. destruct (Hs x s1 s2 Hl1 Hg1 Ha) as (Hg2 & Hl2 & Hs2).
    split_and!; [done|done|]. eapply IH; [|exact Hs2]. by apply less_done_snoc.
Qed.
End inject.

(** ** Progress

    What a process can do alone: for some answers the environment may give, [p]
    ends with [Q]. *)
Section can.
Context {I : iface} {W : World I}.
Implicit Types (s : state) (h : trace I).

Fixpoint can {R} (p : prog I R) (Q : outcome R → trace I → state → Prop) h s : Prop :=
  match p with
  | Ret r => Q (Returned r) h s
  | Stop e => Q (Stopped e) h s
  | @Do _ _ (Go g) k => ∃ x : goans g, go_ok h g x ∧ can (k x) Q (h ++ [@Ev I (Go g) x]) s
  | @Do _ _ (Ext o) k => ∃ (x : ans I o) s', acts s o x s' ∧ can (k x) Q (h ++ [@Ev I (@Ext I o) x]) s'
  end.

Lemma can_mono {R} (p : prog I R) (Q Q' : outcome R → trace I → state → Prop) h s :
  (∀ out h s, Q out h s → Q' out h s) → can p Q h s → can p Q' h s.
Proof. intros HQ. revert h s. induction p as [r|e|[g|o] k IH]; intros h s; simpl; naive_solver. Qed.

(** What follows a part that can end so. *)
Definition then_can {A R} (f : A → prog I R) (Q : outcome R → trace I → state → Prop) (out : outcome A) h s : Prop :=
  match out with Returned a => can (f a) Q h s | Stopped e => Q (Stopped e) h s end.

Lemma can_bind {A R} (p : prog I A) (f : A → prog I R) Q h s : can p (then_can f Q) h s → can (p ≫= f) Q h s.
Proof. revert h s. induction p as [r|e|[g|o] k IH]; intros h s; simpl; [done|done|naive_solver|naive_solver]. Qed.

Lemma can_go {R} g (k : goans g → prog I R) x Q h s :
  go_ok h g x → can (k x) Q (h ++ [@Ev I (Go g) x]) s → can (go g ≫= k) Q h s.
Proof. intros Hx Hk. by exists x. Qed.

Lemma can_call {R} (o : op I) (k : ans I o → prog I R) x s' Q h s :
  acts s o x s' → can (k x) Q (h ++ [@Ev I (@Ext I o) x]) s' → can (ext o ≫= k) Q h s.
Proof. intros Ha Hk. by exists x, s'. Qed.

(** A loop that can go on after each item. *)
Lemma can_range {A S R} (body : A → S → prog I (flow S R)) (Inv : list A → S → trace I → state → Prop) xs acc h s :
  (∀ pre x suf acc h s, xs = pre ++ x :: suf → Inv pre acc h s →
     can (body x acc) (λ out h s, ∃ acc, out = Returned (Next acc) ∧ Inv (pre ++ [x]) acc h s) h s) →
  Inv [] acc h s → can (range xs acc body) (λ out h s, ∃ acc, out = Returned (Next acc) ∧ Inv xs acc h s) h s.
Proof.
  intros Hbody Hinv. enough (∀ suf pre acc h s, xs = pre ++ suf → Inv pre acc h s →
    can (range suf acc body) (λ out h s, ∃ acc, out = Returned (Next acc) ∧ Inv xs acc h s) h s) as Hall by by apply (Hall xs []).
  clear acc h s Hinv. induction suf as [|x suf IH]; intros pre acc h s Hxs Hinv.
  - rewrite app_nil_r in Hxs. subst. by exists acc.
  - cbn [range]. apply can_bind. eapply can_mono; [|by eapply Hbody].
    intros out h' s' (acc' & -> & Hinv'). cbn [then_can]. apply (IH (pre ++ [x])); [|done].
    by rewrite <- app_assoc.
Qed.

(** The system can do what one of its processes can do alone. *)
Lemma can_steps {R} (starts : prog I R → Prop) (p : prog I R) Q h s ps :
  can p Q h s →
  ∃ out h' s' p', Q out h' s' ∧ rtc (step starts) (s, (h, p) :: ps) (s', (h', p') :: ps).
Proof.
  revert h s. induction p as [r|e|[g|o] k IH]; intros h s; simpl.
  - intros HQ. exists (Returned r), h, s, (Ret r). split; [done|apply rtc_refl].
  - intros HQ. exists (Stopped e), h, s, (Stop e). split; [done|apply rtc_refl].
  - intros (x & Hx & Hk). destruct (IH x _ _ Hk) as (out & h' & s' & p' & HQ & Hsteps).
    exists out, h', s', p'. split; [done|]. eapply rtc_l; [|exact Hsteps]. by apply (step_go starts s [] h g k x ps).
  - intros (x & s1 & Ha & Hk). destruct (IH x _ _ Hk) as (out & h' & s' & p' & HQ & Hsteps).
    exists out, h', s', p'. split; [done|]. eapply rtc_l; [|exact Hsteps].
    by apply (step_call starts s s1 [] h o k x ps).
Qed.

(** ... and what a new process can do. *)
Lemma can_start {R} (starts : prog I R → Prop) (p : prog I R) Q s ps :
  starts p → can p Q [] s → ∃ out h' s' ps', Q out h' s' ∧ rtc (step starts) (s, ps) (s', ps').
Proof.
  intros Hp Hc. destruct (can_steps starts p Q [] s ps Hc) as (out & h' & s' & p' & HQ & Hsteps).
  exists out, h', s', ((h', p') :: ps). split; [done|]. eapply rtc_l; [by apply (step_start starts s ps p)|exact Hsteps].
Qed.
End can.

Section can_inject.
Context {I J : iface} {S : Type} (a : S → ∀ o : op I, ans I o → S → Prop).
Context (b : S → ∀ o : op J, ans J o → S → Prop) (oth : S → S → Prop).

Lemma can_inject {R} (p : prog J R) Q tr h s :
  less_done h tr → can (W:=Build_World J S b oth) p Q tr s →
  can (W:=Build_World (iplus I J) S (plus_acts a b) oth) (inject p)
    (λ out h' s', ∃ tr', less_done h' tr' ∧ Q out tr' s') h s.
Proof.
  revert tr h s. induction p as [r|e|[g|o] k IH]; intros tr h s Hd; simpl; [eauto|eauto| |].
  - intros (x & Hx & Hk). exists x. split; [by eapply go_ok_less|]. eapply IH; [|exact Hk].
    apply less_done_snoc; [done|]. intros c. by destruct g.
  - intros (x & s' & Ha & Hk). exists x, s'. split; [done|]. eapply IH; [|exact Hk]. by apply less_done_snoc.
Qed.
End can_inject.

(** [recover] ends whichever way a panic or a return does. *)
Lemma can_recover {I : iface} {W : World I} {R} (p : prog I R) Q h s :
  can p (λ out, Q (recovered out)) h s → can (recover p) Q h s.
Proof. revert h s. induction p as [r|[m|m|]|[g|o] k IH]; intros h s; simpl; [done..|naive_solver|naive_solver]. Qed.

(** What a program can do is a run of it, in an environment that allows what
    the world does. *)
Lemma can_runs {I : iface} {W : World I} {R} (law : ∀ o : op I, ans I o → Prop) (p : prog I R) Q h s :
  (∀ s o x s', acts s o x s' → law o x) → can p Q h s →
  ∃ tr out s', runs (E:=λ _, law) h p tr out ∧ Q out (h ++ tr) s' ∧
    Forall (λ ev, match ev with Ev (Ext o) x => ∃ s s', acts s o x s' | _ => True end) tr.
Proof.
  intros Hlaw. revert h s. induction p as [r|e|[g|o] k IH]; intros h s; simpl.
  - intros HQ. exists [], (Returned r), s. by rewrite app_nil_r.
  - intros HQ. exists [], (Stopped e), s. by rewrite app_nil_r.
  - intros (x & Hx & Hk). destruct (IH x _ _ Hk) as (tr & out & s' & Hr & HQ & Hall).
    exists (@Ev I (@Go I g) x :: tr), out, s'. rewrite cons_middle, app_assoc.
    split; [by exists x, tr|]. split; [done|]. by constructor.
  - intros (x & s1 & Ha & Hk). destruct (IH x _ _ Hk) as (tr & out & s' & Hr & HQ & Hall).
    exists (@Ev I (@Ext I o) x :: tr), out, s'. rewrite cons_middle, app_assoc.
    split; [exists x, tr; split_and!; [by eapply Hlaw|done|done]|]. split; [done|]. constructor; [by exists s, s1|done].
Qed.

(** ** Views

    A part of a system's state, with a world of its own, in which every step
    of the system is some steps of this world's. *)
Section view.
Context {I : iface} {W1 W2 : World I} {R : Type} (starts : prog I R → Prop).
Context (view : state (World:=W1) → state (World:=W2)).

Record is_view : Prop := {
  view_acts s o x s' : acts s o x s' → acts (view s) o x (view s');
  view_others s s' : others s s' → view s' = view s ∨ others (view s) (view s') }.

Lemma view_step sys sys' :
  is_view → step starts sys sys' →
  rtc (step starts) (view sys.1, sys.2) (view sys'.1, sys'.2).
Proof.
  intros [Ha Ho]. destruct 1 as [s s' ps Hos| | | |]; cbn [fst snd].
  - destruct (Ho _ _ Hos) as [-> |Hv]; [apply rtc_refl|apply rtc_once; by constructor].
  - apply rtc_once. by constructor.
  - apply rtc_once. constructor.
  - apply rtc_once. by constructor.
  - apply rtc_once. constructor. auto.
Qed.

Lemma view_steps sys sys' :
  is_view → rtc (step starts) sys sys' → rtc (step starts) (view sys.1, sys.2) (view sys'.1, sys'.2).
Proof.
  intros Hv. induction 1 as [|x y z Hxy _ IH]; [apply rtc_refl|]. etrans; [by apply view_step|exact IH].
Qed.
End view.
