(* ===== verification/Rand.v ===== *)
(** [math/rand]: shuffling a slice. *)

From S2P Require Import Prelude GoStd Effects.

(** [rand.Shuffle(n, swap)]: for [i] from [n-1] down to 1, swap [i] with a
    random [j] of [0, i]. *)
Definition swap {A} (i j : nat) (l : list A) : list A :=
  match l !! i, l !! j with
  | Some x, Some y => <[j := x]> (<[i := y]> l)
  | _, _ => l
  end.
Fixpoint Shuffle {I A} (i : nat) (l : list A) : prog I (list A) :=
  match i with
  | O => mret l
  | S i' =>
      j ← go (Int31n (Z.of_nat i + 1));
      Shuffle i' (swap i (Z.to_nat j) l)
  end.

Lemma swap_perm {A} i j (l : list A) : swap i j l ≡ₚ l.
Proof.
  unfold swap. destruct (l !! i) as [x|] eqn:Hi, (l !! j) as [y|] eqn:Hj; [|done..].
  by apply Permutation_insert_swap.
Qed.

Lemma Shuffle_rwp {I : iface} {E : Env I} {A} i (l : list A) (tr : trace I) :
  rwp (Shuffle i l) (returns (λ s _, s ≡ₚ l)) tr.
Proof.
  revert l tr. induction i as [|i IH]; intros l tr; simpl; [done|].
  intros more j _. eapply rwp_mono; [apply IH|]. intros tr' [l'|s]; simpl; [|done].
  intros ->. apply swap_perm.
Qed.

Lemma Shuffle_depth {I : iface} {A} i (l : list A) : depth_le i (Shuffle (I:=I) i l).
Proof. revert l. induction i as [|i IH]; intros l; simpl; [done|]. intros j. apply IH. Qed.

