(* ===== verification/Domain.v ===== *)
(** The data of the agent: [internal/domain], the messages of
    [internal/jobs], and the helpers of [internal/lib/utils]. *)

From S2P Require Import Prelude GoStd Effects.

(** ** internal/domain/provider.go *)
Definition TspRegistrationPrefix : string := "tsp-".

Record Provider := mkProvider {
  pr_PublicKey : string;
  pr_Address : string;
  pr_LT : Z;
  pr_RegisteredAt : Time }.
#[export] Instance Provider_eq_dec : EqDecision Provider.
Proof. solve_decision. Defined.

Record Rates := mkRates {
  RatePerMBDay : Z;
  MinBounty : Z;
  MinSpan : Z;
  MaxSpan : Z }.
#[export] Instance Rates_eq_dec : EqDecision Rates.
Proof. solve_decision. Defined.

Record Endpoint := mkEndpoint {
  ep_PublicKey : string;
  ep_IP : string;
  ep_Port : Z }.
#[export] Instance Endpoint_eq_dec : EqDecision Endpoint.
Proof. solve_decision. Defined.

Record ProviderEndpoint := mkProviderEndpoint {
  pe_PublicKey : string;
  pe_Provider : Endpoint;
  pe_Storage : Endpoint;
  pe_UpdatedAt : Time }.
#[export] Instance ProviderEndpoint_eq_dec : EqDecision ProviderEndpoint.
Proof. solve_decision. Defined.

Record ProviderStatus := mkProviderStatus {
  ps_PublicKey : string;
  ps_IsOnline : bool;
  ps_CheckedAt : Time }.
#[export] Instance ProviderStatus_eq_dec : EqDecision ProviderStatus.
Proof. solve_decision. Defined.

Record IpInfo := mkIpInfo {
  ii_Country : string;
  ii_CountryISO : string;
  ii_City : string;
  ii_TimeZone : string;
  ii_IP : string }.
#[export] Instance IpInfo_eq_dec : EqDecision IpInfo.
Proof. solve_decision. Defined.

(** The zero values Go gives a [var]. *)
Definition zeroEndpoint : Endpoint := mkEndpoint "" "" 0.
Definition zeroProviderEndpoint : ProviderEndpoint :=
  mkProviderEndpoint "" zeroEndpoint zeroEndpoint zero_time.
Definition zeroRates : Rates := mkRates 0 0 0 0.
Definition zeroIpInfo : IpInfo := mkIpInfo "" "" "" "" "".

(** ** internal/domain/contract.go *)
Definition StorageRewardWithdrawalOpCode : Z := 0xa91baf56.

Record StorageContract := mkStorageContract {
  sc_Address : string;
  sc_BagID : string;
  sc_OwnerAddr : string;
  sc_Size : Z;
  sc_ChunkSize : Z;
  sc_LastLT : Z;
  sc_Providers : list string }.
#[export] Instance StorageContract_eq_dec : EqDecision StorageContract.
Proof. solve_decision. Defined.

Record ContractProviderRelation := mkRelation {
  cr_ContractAddr : string;
  cr_ProviderPubkey : string;
  cr_ProviderAddress : string;
  cr_BagID : string;
  cr_Size : Z }.
#[export] Instance ContractProviderRelation_eq_dec : EqDecision ContractProviderRelation.
Proof. solve_decision. Defined.

Record OnChainProvider := mkOnChainProvider {
  oc_Key : string;
  oc_LastProofTime : Time;
  oc_RatePerMBDay : Z;
  oc_MaxSpan : Z }.
#[export] Instance OnChainProvider_eq_dec : EqDecision OnChainProvider.
Proof. solve_decision. Defined.

Record ContractOnChainState := mkOnChainState {
  os_Address : string;
  os_Balance : Z;
  os_Providers : list OnChainProvider;
  os_LiteServerError : bool }.
#[export] Instance ContractOnChainState_eq_dec : EqDecision ContractOnChainState.
Proof. solve_decision. Defined.

(** ** internal/domain/reason.go *)
Definition ReasonCode := Z.
Definition ValidStorageProof : ReasonCode := 0.
Definition IPNotFound : ReasonCode := 101.
Definition NotFound : ReasonCode := 102.
Definition UnavailableProvider : ReasonCode := 103.
Definition CantCreatePeer : ReasonCode := 104.
Definition UnknownPeer : ReasonCode := 105.
Definition PingFailed : ReasonCode := 201.
Definition InvalidBagID : ReasonCode := 202.
Definition FailedInitialPing : ReasonCode := 203.
Definition GetInfoFailed : ReasonCode := 301.
Definition InvalidHeader : ReasonCode := 302.
Definition CantGetPiece : ReasonCode := 401.
Definition CantParseBoC : ReasonCode := 402.
Definition ProofCheckFailed : ReasonCode := 403.

Record ProofResult := mkProofResult {
  pf_ContractAddr : string;
  pf_ProviderAddr : string;
  pf_Reason : ReasonCode;
  pf_CheckedAt : Time }.
#[export] Instance ProofResult_eq_dec : EqDecision ProofResult.
Proof. solve_decision. Defined.

(** ** internal/jobs/types.go *)

(** [jobs.WithJobID] and [jobs.JobIDFrom]: the job id travels in the context. *)
Definition WithJobID (ctx : Ctx) (jobID : string) : Ctx := mkCtx (ctx_timeouts ctx) (Some jobID).
Definition JobIDFrom (ctx : Ctx) : string := default "" (ctx_job ctx).

Lemma JobIDFrom_WithJobID ctx id : JobIDFrom (WithJobID ctx id) = id.
Proof. done. Qed.
Lemma JobIDFrom_WithTimeout ctx d : JobIDFrom (WithTimeout ctx d) = JobIDFrom ctx.
Proof. done. Qed.

Definition CycleScanMaster : string := "scan_master".
Definition CycleScanWallets : string := "scan_wallets".
Definition CycleResolveEndpoints : string := "resolve_endpoints".
Definition CycleProbeRates : string := "probe_rates".
Definition CycleInspectContracts : string := "inspect_contracts".
Definition CycleCheckProofs : string := "check_proofs".
Definition CycleLookupIPInfo : string := "lookup_ipinfo".

(** A slice: [nil] and an empty slice are different values, which only their
    JSON encoding tells apart. *)
Inductive slice (A : Type) := SliceNil | SliceOf (l : list A).
#[global] Arguments SliceNil {A}.
#[global] Arguments SliceOf {A}.
#[export] Instance slice_eq_dec `{EqDecision A} : EqDecision (slice A).
Proof. solve_decision. Defined.
Definition elems {A} (s : slice A) : list A := match s with SliceNil => [] | SliceOf l => l end.

(** The list of a result: a cycle that found nothing to ask about publishes the
    zero result, whose lists are [nil]. *)
Definition slice_of {A B} (asked : list A) (l : list B) : slice B :=
  match asked with [] => SliceNil | _ :: _ => SliceOf l end.

Lemma elem_slice_of {A B} (asked : list A) (l : list B) x : x ∈ elems (slice_of asked l) → x ∈ l.
Proof. destruct asked; simpl; [by intros ?%elem_of_nil|done]. Qed.

Definition StatusOK : string := "ok".
Definition StatusError : string := "error".

Record ScanMasterResult := MkScanMasterResult {
  sm_NewProviders' : slice Provider;
  sm_LastLT : Z;
  sm_ScannedCount : Z }.
#[export] Instance ScanMasterResult_eq_dec : EqDecision ScanMasterResult.
Proof. solve_decision. Defined.
Definition sm_NewProviders (r : ScanMasterResult) : list Provider := elems (sm_NewProviders' r).
#[global] Arguments sm_NewProviders !_ /.
Definition mkScanMasterResult (newproviders : list Provider) (lastlt : Z) (scannedcount : Z) : ScanMasterResult :=
  MkScanMasterResult (SliceOf newproviders) lastlt scannedcount.
#[global] Arguments mkScanMasterResult _ _ _ /.

Record ScanWalletsResult := MkScanWalletsResult {
  sw_Contracts' : slice StorageContract;
  sw_Relations' : slice ContractProviderRelation;
  sw_UpdatedWallets' : slice Provider }.
#[export] Instance ScanWalletsResult_eq_dec : EqDecision ScanWalletsResult.
Proof. solve_decision. Defined.
Definition sw_Contracts (r : ScanWalletsResult) : list StorageContract := elems (sw_Contracts' r).
#[global] Arguments sw_Contracts !_ /.
Definition sw_Relations (r : ScanWalletsResult) : list ContractProviderRelation := elems (sw_Relations' r).
#[global] Arguments sw_Relations !_ /.
Definition sw_UpdatedWallets (r : ScanWalletsResult) : list Provider := elems (sw_UpdatedWallets' r).
#[global] Arguments sw_UpdatedWallets !_ /.
Definition mkScanWalletsResult (contracts : list StorageContract) (relations : list ContractProviderRelation) (updatedwallets : list Provider) : ScanWalletsResult :=
  MkScanWalletsResult (SliceOf contracts) (SliceOf relations) (SliceOf updatedwallets).
#[global] Arguments mkScanWalletsResult _ _ _ /.
Definition zeroScanWalletsResult : ScanWalletsResult := MkScanWalletsResult SliceNil SliceNil SliceNil.
#[global] Arguments zeroScanWalletsResult /.

Record ResolveEndpointsResult := MkResolveEndpointsResult {
  re_Endpoints' : slice ProviderEndpoint;
  re_Skipped : Z;
  re_Failed : Z }.
#[export] Instance ResolveEndpointsResult_eq_dec : EqDecision ResolveEndpointsResult.
Proof. solve_decision. Defined.
Definition re_Endpoints (r : ResolveEndpointsResult) : list ProviderEndpoint := elems (re_Endpoints' r).
#[global] Arguments re_Endpoints !_ /.
Definition mkResolveEndpointsResult (endpoints : list ProviderEndpoint) (skipped : Z) (failed : Z) : ResolveEndpointsResult :=
  MkResolveEndpointsResult (SliceOf endpoints) skipped failed.
#[global] Arguments mkResolveEndpointsResult _ _ _ /.
Definition zeroResolveEndpointsResult : ResolveEndpointsResult := MkResolveEndpointsResult SliceNil 0 0.
#[global] Arguments zeroResolveEndpointsResult /.

Record ProviderRateUpdate := mkProviderRateUpdate {
  ru_PublicKey : string;
  ru_Rates : Rates }.
#[export] Instance ProviderRateUpdate_eq_dec : EqDecision ProviderRateUpdate.
Proof. solve_decision. Defined.

Record ProbeRatesResult := MkProbeRatesResult {
  pb_Statuses' : slice ProviderStatus;
  pb_Rates' : slice ProviderRateUpdate }.
#[export] Instance ProbeRatesResult_eq_dec : EqDecision ProbeRatesResult.
Proof. solve_decision. Defined.
Definition pb_Statuses (r : ProbeRatesResult) : list ProviderStatus := elems (pb_Statuses' r).
#[global] Arguments pb_Statuses !_ /.
Definition pb_Rates (r : ProbeRatesResult) : list ProviderRateUpdate := elems (pb_Rates' r).
#[global] Arguments pb_Rates !_ /.
Definition mkProbeRatesResult (statuses : list ProviderStatus) (rates : list ProviderRateUpdate) : ProbeRatesResult :=
  MkProbeRatesResult (SliceOf statuses) (SliceOf rates).
#[global] Arguments mkProbeRatesResult _ _ /.
Definition zeroProbeRatesResult : ProbeRatesResult := MkProbeRatesResult SliceNil SliceNil.
#[global] Arguments zeroProbeRatesResult /.

Record InspectContractsResult := MkInspectContractsResult {
  ic_Rejected' : slice ContractProviderRelation;
  ic_Skipped' : slice string }.
#[export] Instance InspectContractsResult_eq_dec : EqDecision InspectContractsResult.
Proof. solve_decision. Defined.
Definition ic_Rejected (r : InspectContractsResult) : list ContractProviderRelation := elems (ic_Rejected' r).
#[global] Arguments ic_Rejected !_ /.
Definition ic_Skipped (r : InspectContractsResult) : list string := elems (ic_Skipped' r).
#[global] Arguments ic_Skipped !_ /.
Definition mkInspectContractsResult (rejected : list ContractProviderRelation) (skipped : list string) : InspectContractsResult :=
  MkInspectContractsResult (SliceOf rejected) (SliceOf skipped).
#[global] Arguments mkInspectContractsResult _ _ /.
Definition zeroInspectContractsResult : InspectContractsResult := MkInspectContractsResult SliceNil SliceNil.
#[global] Arguments zeroInspectContractsResult /.

Record CheckProofsResult := MkCheckProofsResult {
  cp_Results' : slice ProofResult }.
#[export] Instance CheckProofsResult_eq_dec : EqDecision CheckProofsResult.
Proof. solve_decision. Defined.
Definition cp_Results (r : CheckProofsResult) : list ProofResult := elems (cp_Results' r).
#[global] Arguments cp_Results !_ /.
Definition mkCheckProofsResult (results : list ProofResult) : CheckProofsResult :=
  MkCheckProofsResult (SliceOf results).
#[global] Arguments mkCheckProofsResult _ /.
Definition zeroCheckProofsResult : CheckProofsResult := MkCheckProofsResult SliceNil.
#[global] Arguments zeroCheckProofsResult /.

Record IPInfoUpdate := mkIPInfoUpdate {
  iu_PublicKey : string;
  iu_IP : string;
  iu_Info : IpInfo }.
#[export] Instance IPInfoUpdate_eq_dec : EqDecision IPInfoUpdate.
Proof. solve_decision. Defined.

Record LookupIPInfoResult := MkLookupIPInfoResult {
  li_Items' : slice IPInfoUpdate }.
#[export] Instance LookupIPInfoResult_eq_dec : EqDecision LookupIPInfoResult.
Proof. solve_decision. Defined.
Definition li_Items (r : LookupIPInfoResult) : list IPInfoUpdate := elems (li_Items' r).
#[global] Arguments li_Items !_ /.
Definition mkLookupIPInfoResult (items : list IPInfoUpdate) : LookupIPInfoResult :=
  MkLookupIPInfoResult (SliceOf items).
#[global] Arguments mkLookupIPInfoResult _ /.
Definition zeroLookupIPInfoResult : LookupIPInfoResult := MkLookupIPInfoResult SliceNil.
#[global] Arguments zeroLookupIPInfoResult /.

(** The [Payload any] of a [ResultEnvelope]: one case per cycle. *)
Inductive payload :=
| PScanMaster (r : ScanMasterResult)
| PScanWallets (r : ScanWalletsResult)
| PResolveEndpoints (r : ResolveEndpointsResult)
| PProbeRates (r : ProbeRatesResult)
| PInspectContracts (r : InspectContractsResult)
| PCheckProofs (r : CheckProofsResult)
| PLookupIPInfo (r : LookupIPInfoResult).

#[export] Instance payload_eq_dec : EqDecision payload.
Proof. solve_decision. Defined.

Record ResultEnvelope := mkResultEnvelope {
  env_JobID : string;
  env_Type : string;
  env_Status : string;
  env_Error : string;
  env_Payload : option payload;
  env_ProcessedAt : Time;
  env_AgentID : string }.
#[export] Instance ResultEnvelope_eq_dec : EqDecision ResultEnvelope.
Proof. solve_decision. Defined.

(** [jobs.TriggerEnvelope]; [Hint] is an uninterpreted raw message. *)
Record TriggerEnvelope := mkTriggerEnvelope {
  tr_JobID : string;
  tr_Type : string;
  tr_Hint : option string;
  tr_EnqueuedAt : Time }.
#[export] Instance TriggerEnvelope_eq_dec : EqDecision TriggerEnvelope.
Proof. solve_decision. Defined.

(** ** internal/lib/utils/utils.go *)

(** [TryNTimes(f, n)]: [f] is a closure, [C] the variables it captures and
    assigns.  One second of sleep follows every failure, the last included. *)
Fixpoint TryNTimes {I C} (f : C → prog I (C * option error)) (n : nat) (c : C)
    (err : option error) : prog I (C * option error) :=
  match n with
  | O => mret (c, err)
  | S n =>
      '(c, err) ← f c;
      match err with
      | None => mret (c, None)
      | Some _ => _ ← go (Sleep Second); TryNTimes f n c err
      end
  end.

(** The answers of the tries: all but the last failed; and the last did not, or
    it was the [n]th. *)
Definition tried {A} (n : nat) (rs : list (A * option error)) (r : A * option error) : Prop :=
  ∃ failed, rs = failed ++ [r] ∧ Forall (λ r, r.2 ≠ None) failed ∧ (length rs <= n)%nat ∧
    (r.2 = None ∨ length rs = n).

Lemma tried_again {A} n (rs : list (A * option error)) r x :
  x.2 ≠ None → tried n rs r → tried (S n) (x :: rs) r.
Proof.
  intros Hx (failed & -> & Hf & Hle & Hend). exists (x :: failed). split_and!; [done|by constructor|simpl; lia|].
  destruct Hend; [by left|right]. simpl. lia.
Qed.
Lemma tried_once {A} n (r : A * option error) : (0 < n)%nat → r.2 = None ∨ n = 1%nat → tried n [r] r.
Proof. intros Hn Hr. exists []. split_and!; [done|constructor|simpl; lia|]. destruct Hr; [by left|right]. simpl. lia. Qed.

(** Whatever goes on besides, the tries are events of the trace in their order,
    and the result is that of the last. *)
Lemma TryNTimes_rwp {I : iface} {E : Env I} {C} (f : C → prog I (C * option error)) (ev : C * option error → event I)
    n c err (hist : trace I) :
  (∀ c h, rwp (f c) (returns (λ r tr, ∃ more, tr = h ++ more ∧ ev r ∈ more)) h) →
  rwp (TryNTimes f (S n) c err)
    (returns (λ r tr, ∃ rs more, tr = hist ++ more ∧ tried (S n) rs r ∧ (ev <$> rs) `sublist_of` more)) hist.
Proof.
  intros Hf. revert c err hist. induction n as [|n IH]; intros c err hist;
    (eapply rwp_bind_returns; [apply Hf|]); intros [c' [e|]] tr (m1 & -> & Hev); cbv beta iota.
  - apply rwp_go_bind. intros more [] _. apply rwp_ret. intros more'. exists [(c', Some e)]. eexists.
    split; [by rewrite <- !app_assoc|]. split; [apply tried_once; [lia|by right]|].
    apply singleton_sublist_l. set_solver.
  - apply rwp_ret. intros more'. exists [(c', None)]. eexists. split; [by rewrite <- !app_assoc|].
    split; [apply tried_once; [lia|by left]|]. apply singleton_sublist_l. set_solver.
  - apply rwp_go_bind. intros more [] _. apply (rwp_mono _ _ _ _ (IH _ (Some e) _)). intros tr [r|s]; [|done].
    intros (rs & m2 & -> & Ht & Hsub). exists ((c', Some e) :: rs). eexists.
    split; [by rewrite <- !app_assoc|]. split; [by apply tried_again|].
    rewrite fmap_cons. change (ev (c', Some e) :: (ev <$> rs)) with ([ev (c', Some e)] ++ (ev <$> rs)).
    apply sublist_app; [by apply singleton_sublist_l|]. do 2 apply sublist_inserts_l. exact Hsub.
  - apply rwp_ret. intros more'. exists [(c', None)]. eexists. split; [by rewrite <- !app_assoc|].
    split; [apply tried_once; [lia|by left]|]. apply singleton_sublist_l. set_solver.
Qed.

(** A byte of a lower-cased bag id. *)
Definition is_bag_digit (c : ascii) : bool :=
  (in_range 48 57 c) || (in_range 97 102 c).

(** [ValidateBagID]: the loop reads [bagid[i]] of the lower-cased string for
    [i] in [0, 64); [None] is the panic of an index out of range. *)
Fixpoint check_bag_bytes (n : nat) (l : list ascii) : option bool :=
  match n with
  | O => Some true
  | S n =>
      match l with
      | [] => None
      | c :: l => if is_bag_digit c then check_bag_bytes n l else Some false
      end
  end.

Definition ValidateBagID `{Unicode} (bagid : string) : option bool :=
  if negb (strlen bagid =? 64) then Some false
  else check_bag_bytes 64 (bytes (ToLower bagid)).

(** ** The address template of discovery/helper.go and ton/master_scanner.go:
    [^[EUk0][Qq][A-Za-z0-9_-]{46}$] *)
Definition is_base64url (c : ascii) : bool :=
  is_upper c || is_lower c || is_digit c || (byte_val c =? 95) || (byte_val c =? 45).

Definition one_of (s : string) (c : ascii) : bool := existsb (λ d, bool_decide (d = c)) (bytes s).

Definition match_userFriendlyAddrTemplate (s : string) : bool :=
  match bytes s with
  | a :: b :: l => one_of "EUk0" a && one_of "Qq" b
                   && bool_decide (length l = 46%nat) && forallb is_base64url l
  | _ => false
  end.
