(* ===== verification/Pool.v ===== *)
(** Goroutines behind a semaphore.

    Three places of the agent fan work out the same way: a loop launches one
    goroutine per item, a buffered channel bounds how many run, each goroutine
    appends its result under a mutex, and [wg.Wait()] joins them.  [pool] is
    that pattern at the granularity of single operations: at every step the
    scheduler picks one enabled goroutine, so the operations of the
    goroutines interleave in every possible way.  The critical section
    ([mu.Lock ... mu.Unlock]) touches only the shared state [S] and is one
    step. *)

From S2P Require Import Prelude GoStd Effects.

(** What the loop decides for an item. *)
Inductive verdict (J : Type) := Skip | BreakLoop | Launch (j : J).
Arguments Skip {J}.
Arguments BreakLoop {J}.
Arguments Launch {J} j.

Section pool.
Context {I : iface} {X J A S : Type}.

(** [sp_main_acquires]: [sem <- struct{}{}] stands before the [go] statement
    (else it is the first statement of the goroutine). *)
Record spec := Spec {
  sp_cap : nat;
  sp_main_acquires : bool;
  sp_handle : X → prog I (verdict J);
  sp_body : J → prog I A;
  sp_commit : A → S → S }.

(** A goroutine waits for a slot, runs, or has committed and is about to
    release its slot and call [wg.Done()]. *)
Inductive gor := Queued (j : J) | Running (j : J) (p : prog I A) | Releasing.

Inductive main_state :=
| Handling (p : prog I (verdict J)) (rest : list X)
| Sending (j : J) (rest : list X)        (* at [sem <- struct{}{}] or at [go] *)
| Waiting.                               (* at [wg.Wait()] *)

Record state := State { st_main : main_state; st_threads : list gor; st_acc : S }.

Context (sp : spec).

Definition next_item (rest : list X) : main_state :=
  match rest with [] => Waiting | x :: rest => Handling (sp_handle sp x) rest end.

(** Slots of the semaphore in use. *)
Definition holds_slot (g : gor) : bool := match g with Queued _ => false | _ => true end.
Definition busy (ts : list gor) : nat := sum_list_with (λ g, if holds_slot g then 1 else 0)%nat ts.

Definition free_slot (st : state) : bool := (busy (st_threads st) <? sp_cap sp)%nat.

Definition main_enabled (st : state) : bool :=
  match st_main st with
  | Handling _ _ => true
  | Sending _ _ => if sp_main_acquires sp then free_slot st else true
  | Waiting => match st_threads st with [] => true | _ => false end
  end.
Definition gor_enabled (st : state) (g : gor) : bool :=
  match g with Queued _ => free_slot st | _ => true end.

(** The goroutines that can move: [None] is the main one. *)
Definition enabled (st : state) : list (option nat) :=
  (if main_enabled st then [None] else []) ++
  omap id (imap (λ i g, if gor_enabled st g then Some (Some i) else None) (st_threads st)).

(** A panic in a goroutine other than the handler's kills the process. *)
Definition uncaught (s : stop) : stop := match s with Panic m => Crash m | _ => s end.

Definition set_main (st : state) (m : main_state) : state :=
  State m (st_threads st) (st_acc st).
Definition set_threads (st : state) (ts : list gor) : state :=
  State (st_main st) ts (st_acc st).

Definition step_main (st : state) : prog I (state + S) :=
  match st_main st with
  | Handling (Ret Skip) rest => Ret (inl (set_main st (next_item rest)))
  | Handling (Ret BreakLoop) rest => Ret (inl (set_main st Waiting))
  | Handling (Ret (Launch j)) rest => Ret (inl (set_main st (Sending j rest)))
  | Handling (Stop s) rest => Stop s
  | Handling (Do o k) rest => Do o (λ x, Ret (inl (set_main st (Handling (k x) rest))))
  | Sending j rest =>
      let g := if sp_main_acquires sp then Running j (sp_body sp j) else Queued j in
      Ret (inl (State (next_item rest) (st_threads st ++ [g]) (st_acc st)))
  | Waiting => Ret (inr (st_acc st))
  end.

Definition step_gor (st : state) (i : nat) : prog I (state + S) :=
  let ts := st_threads st in
  match ts !! i with
  | Some (Queued j) => Ret (inl (set_threads st (<[i := Running j (sp_body sp j)]> ts)))
  | Some (Running j (Ret a)) =>
      Ret (inl (State (st_main st) (<[i := Releasing]> ts) (sp_commit sp a (st_acc st))))
  | Some (Running j (Stop s)) => Stop (uncaught s)
  | Some (Running j (Do o k)) =>
      Do o (λ x, Ret (inl (set_threads st (<[i := Running j (k x)]> ts))))
  | Some Releasing => Ret (inl (set_threads st (delete i ts)))
  | None => Ret (inl st)
  end.

Definition step (st : state) (c : option nat) : prog I (state + S) :=
  match c with None => step_main st | Some i => step_gor st i end.

Definition deadlock : string := "all goroutines are asleep - deadlock!".

Fixpoint run (fuel : nat) (st : state) : prog I S :=
  match fuel with
  | O => Stop NoFuel
  | Datatypes.S fuel =>
      if (length (enabled st) =? 0)%nat then Stop (Crash deadlock)
      else
        i ← go (Schedule (length (enabled st)));
        match enabled st !! i with
        | None => Stop NoFuel
        | Some c =>
            r ← step st c;
            match r with inl st => run fuel st | inr s => mret s end
        end
  end.

(** The whole section of code, from before the loop to after [wg.Wait()].
    [cost x] bounds the steps spent on the item [x]. *)
Definition pool (cost : X → nat) (items : list X) (s0 : S) : prog I S :=
  run (Datatypes.S (sum_list_with cost items)) (State (next_item items) [] s0).

(** ** Reachable states and the semaphore *)
Inductive pool_step : state → state → Prop :=
| pool_step_intro st c hist tr st' `{Env I} :
    c ∈ enabled st → runs hist (step st c) tr (Returned (inl st')) → pool_step st st'.

Inductive reachable (items : list X) (s0 : S) : state → Prop :=
| reach_init : reachable items s0 (State (next_item items) [] s0)
| reach_step st st' : reachable items s0 st → pool_step st st' → reachable items s0 st'.
End pool.
Arguments spec I X J A S : clear implicits.
Arguments gor I J A : clear implicits.
Arguments main_state I X J : clear implicits.
Arguments state I X J A S : clear implicits.

(** ** The semaphore *)
Section semaphore.
Context {I : iface} {X J A S : Type} (sp : spec I X J A S).
Implicit Types st : state I X J A S.

Lemma enabled_main st : None ∈ enabled sp st → main_enabled sp st = true.
Proof.
  unfold enabled. rewrite elem_of_app, list_elem_of_omap.
  intros [Hin|(o & Ho & Hid)].
  - by destruct (main_enabled sp st); [|apply elem_of_nil in Hin].
  - apply elem_of_lookup_imap in Ho as (i & g & -> & _). by destruct (gor_enabled sp st g).
Qed.

Lemma enabled_gor st i :
  Some i ∈ enabled sp st ↔ ∃ g, st_threads st !! i = Some g ∧ gor_enabled sp st g = true.
Proof.
  unfold enabled. rewrite elem_of_app, list_elem_of_omap. split.
  - intros [Hin|(o & Ho & Hid)].
    + destruct (main_enabled sp st); [apply list_elem_of_singleton in Hin|apply elem_of_nil in Hin]; done.
    + apply elem_of_lookup_imap in Ho as (i' & g & -> & Hg).
      destruct (gor_enabled sp st g) eqn:?; simplify_eq/=. eauto.
  - intros (g & Hg & Hen). right. exists (Some (Some i)). split; [|done].
    apply elem_of_lookup_imap. exists i, g. by rewrite Hen.
Qed.

Lemma busy_insert (ts : list (gor I J A)) i g g' :
  ts !! i = Some g' →
  (busy (<[i := g]> ts) + (if holds_slot g' then 1 else 0) =
   busy ts + (if holds_slot g then 1 else 0))%nat.
Proof. apply sum_list_with_insert. Qed.

(** At most [sp_cap] goroutines hold a slot, in every reachable state. *)
Lemma semaphore_bound items s0 st :
  reachable sp items s0 st → (busy (st_threads st) <= sp_cap sp)%nat.
Proof.
  induction 1 as [|st st' Hr IH Hs]; [simpl; lia|].
  destruct Hs as [st c hist tr st' E Hen Hrun]. destruct c as [i|].
  - apply enabled_gor in Hen as (g & Hg & Hen). simpl in Hrun. unfold step_gor in Hrun.
    rewrite Hg in Hrun. destruct g as [j|j [a|s|o k]|]; simpl in *.
    + destruct Hrun as [_ [= ->]]. simpl. apply Nat.ltb_lt in Hen.
      pose proof (busy_insert _ _ (Running j (sp_body sp j)) _ Hg). simpl in *. lia.
    + destruct Hrun as [_ [= ->]]. simpl.
      pose proof (busy_insert _ _ Releasing _ Hg). simpl in *. lia.
    + by destruct Hrun.
    + destruct Hrun as (x & ? & _ & _ & _ & [= ->]). simpl.
      pose proof (busy_insert _ _ (Running j (k x)) _ Hg). simpl in *. lia.
    + destruct Hrun as [_ [= ->]]. simpl.
      pose proof (sum_list_with_delete (λ g, if holds_slot g then 1 else 0)%nat _ _ _ Hg).
      unfold busy in *. simpl in *. lia.
  - apply enabled_main in Hen. simpl in Hrun. unfold step_main in Hrun.
    destruct (st_main st) as [[[| |j]|s|o k] rest|j rest|] eqn:Hm; simpl in *.
    1-3: by destruct Hrun as [_ [= ->]].
    + by destruct Hrun.
    + by destruct Hrun as (x & ? & _ & _ & _ & [= ->]).
    + destruct Hrun as [_ [= ->]]. simpl. unfold busy. rewrite sum_list_with_app.
      unfold main_enabled in Hen. rewrite Hm in Hen. fold (busy (st_threads st)).
      destruct (sp_main_acquires sp); simpl; [|lia]. apply Nat.ltb_lt in Hen. lia.
    + by destruct Hrun.
Qed.
End semaphore.

(** ** Correctness of the pattern

    [handled x v] is what the loop guarantees of its decision for an item and
    [finished j a] what a goroutine guarantees of its result, whatever the
    other goroutines do meanwhile.  Then every run of the pool ends, without
    deadlock: each launched job has committed exactly one result, and the
    shared state is the fold of the results in the order of the commits. *)
Section correctness.
Context {I : iface} {E : Env I} {X J A S : Type} (sp : spec I X J A S).
Context (handled : X → verdict J → trace I → Prop) (finished : J → A → trace I → Prop).
Context (hcost : nat) (jcost : J → nat) (cost : X → nat).
Implicit Types (st : state I X J A S) (tr : trace I) (vs : list (verdict J)) (dn : list (J * A)).

Record pool_ok : Prop := {
  po_cap : (0 < sp_cap sp)%nat;
  po_handled_stable x v : stable (handled x v);
  po_finished_stable j a : stable (finished j a);
  po_handle x tr : rwp (sp_handle sp x) (returns (handled x)) tr;
  po_handle_depth x : depth_le hcost (sp_handle sp x);
  po_body j tr : rwp (sp_body sp j) (returns (finished j)) tr;
  po_body_depth j : depth_le (jcost j) (sp_body sp j);
  po_cost x : (hcost + 5 <= cost x)%nat;
  po_cost_launch x j tr : handled x (Launch j) tr → (hcost + jcost j + 5 <= cost x)%nat }.

Definition launched vs : list J :=
  omap (λ v, match v with Launch j => Some j | _ => None end) vs.

(** What holds of the shared state once the pool has been joined. *)
Definition pool_result (items : list X) (s0 acc : S) tr : Prop :=
  ∃ pre suf vs dn,
    items = pre ++ suf ∧ (suf = [] ∨ BreakLoop ∈ vs) ∧
    Forall2 (λ x v, handled x v tr) pre vs ∧
    dn.*1 ≡ₚ launched vs ∧
    Forall (λ ja, finished ja.1 ja.2 tr) dn ∧
    acc = foldl (λ s ja, sp_commit sp ja.2 s) s0 dn.

Definition gor_job (g : gor I J A) : option J :=
  match g with Queued j | Running j _ => Some j | Releasing => None end.

Definition gor_inv tr (g : gor I J A) (n : nat) : Prop :=
  match g with
  | Queued j => n = (jcost j + 3)%nat
  | Running j p => ∃ m, depth_le m p ∧ n = (m + 2)%nat ∧ rwp p (returns (finished j)) tr
  | Releasing => n = 1%nat
  end.

Definition rest_cost (rest : list X) : nat := Datatypes.S (sum_list_with cost rest).

(** The main goroutine: [pre] are the items decided so far, [pending] the
    job it is about to launch, [n] bounds its remaining steps. *)
Definition main_inv (items pre : list X) tr (m : main_state I X J) (pending : list J)
    vs (n : nat) : Prop :=
  match m with
  | Handling p rest =>
      ∃ x k, items = pre ++ x :: rest ∧ pending = [] ∧ depth_le k p ∧
        rwp p (returns (handled x)) tr ∧ (k <= hcost)%nat ∧
        n = (k + (cost x - hcost) + rest_cost rest)%nat
  | Sending j rest =>
      items = pre ++ rest ∧ pending = [j] ∧ n = (jcost j + 4 + rest_cost rest)%nat
  | Waiting => pending = [] ∧ (∃ suf, items = pre ++ suf ∧ (suf = [] ∨ BreakLoop ∈ vs)) ∧ n = 1%nat
  end.

Record pool_inv_at (items : list X) (s0 : S) st tr (pre : list X) (pending : list J)
    vs dn (n : nat) (ns : list nat) : Prop := {
  pi_main : main_inv items pre tr (st_main st) pending vs n;
  pi_gors : Forall2 (gor_inv tr) (st_threads st) ns;
  pi_handled : Forall2 (λ x v, handled x v tr) pre vs;
  pi_jobs : dn.*1 ++ omap gor_job (st_threads st) ++ pending ≡ₚ launched vs;
  pi_finished : Forall (λ ja, finished ja.1 ja.2 tr) dn;
  pi_acc : st_acc st = foldl (λ s ja, sp_commit sp ja.2 s) s0 dn }.

(** The invariant, with a bound on the steps that remain. *)
Definition pool_inv (items : list X) (s0 : S) st tr (fuel : nat) : Prop :=
  ∃ pre pending vs dn n ns,
    pool_inv_at items s0 st tr pre pending vs dn n ns ∧ (n + sum_list ns <= fuel)%nat.

Context (Hok : pool_ok).

Lemma gor_inv_more tr more g n : gor_inv tr g n → gor_inv (tr ++ more) g n.
Proof.
  destruct g; simpl; [done| |done]. intros (m & ? & ? & ?). exists m. eauto using rwp_more.
Qed.

Lemma main_inv_more items pre tr more m pending vs n :
  main_inv items pre tr m pending vs n → main_inv items pre (tr ++ more) m pending vs n.
Proof.
  destruct m; simpl; [|done..]. intros (x & k & ? & ? & ? & ? & ? & ?).
  exists x, k. eauto 10 using rwp_more.
Qed.

Lemma pool_inv_at_more items s0 st tr more pre pending vs dn n ns :
  pool_inv_at items s0 st tr pre pending vs dn n ns →
  pool_inv_at items s0 st (tr ++ more) pre pending vs dn n ns.
Proof.
  intros [Hm Hg Hh Hj Hf Ha]. split; [by apply main_inv_more| | |done| |done].
  - eapply Forall2_impl; [done|]. intros. by apply gor_inv_more.
  - eapply Forall2_impl; [done|]. intros. by apply (po_handled_stable Hok).
  - eapply Forall_impl; [done|]. intros. by apply (po_finished_stable Hok).
Qed.

Lemma next_item_inv items pre rest tr vs :
  items = pre ++ rest →
  main_inv items pre tr (next_item sp rest) [] vs (rest_cost rest).
Proof.
  intros ->. destruct rest as [|x rest]; simpl.
  - split; [done|]. split; [exists []; eauto|done].
  - exists x, hcost. pose proof (po_cost Hok x). split_and!; try done.
    + apply (po_handle_depth Hok).
    + apply (po_handle Hok).
    + unfold rest_cost. simpl. lia.
Qed.

Lemma pool_init items s0 tr :
  pool_inv items s0 (State (next_item sp items) [] s0) tr (rest_cost items).
Proof.
  exists [], [], [], [], (rest_cost items), []. split; [|unfold rest_cost; simpl; lia].
  split; simpl; try done; by apply next_item_inv.
Qed.

(** Some goroutine can always move. *)
Lemma pool_progress items s0 st tr fuel :
  pool_inv items s0 st tr fuel → enabled sp st ≠ [].
Proof.
  intros _ Hen. pose proof (po_cap Hok) as Hcap.
  assert (∀ c, c ∉ enabled sp st) as Hnone by (intros c; rewrite Hen; apply not_elem_of_nil).
  assert (st_threads st = []) as Hts.
  { destruct (st_threads st) as [|g ts] eqn:Hts; [done|exfalso].
    assert (∀ i g, st_threads st !! i = Some g → gor_enabled sp st g = false) as Hall.
    { intros i g' Hi. destruct (gor_enabled sp st g') eqn:He; [|done].
      destruct (Hnone (Some i)). apply enabled_gor. eauto. }
    assert (busy (st_threads st) = 0)%nat as Hb.
    { assert (∀ g, g ∈ st_threads st → holds_slot g = false) as Hq.
      { intros g' (i & Hi)%list_elem_of_lookup. specialize (Hall i g' Hi). by destruct g'. }
      unfold busy. clear -Hq. induction (st_threads st) as [|g' l IH]; [done|]. simpl.
      rewrite (Hq g') by constructor. apply IH. intros g'' ?. apply Hq. by constructor. }
    specialize (Hall 0%nat g). rewrite Hts in Hall. specialize (Hall eq_refl).
    destruct g; simpl in Hall; [|done..]. unfold free_slot in Hall.
    apply Nat.ltb_ge in Hall. lia. }
  destruct (Hnone None). unfold enabled, main_enabled, free_slot. rewrite Hts. simpl.
  rewrite (proj2 (Nat.ltb_lt 0 (sp_cap sp)) Hcap).
  destruct (st_main st); [|destruct (sp_main_acquires sp)|]; simpl; by constructor.
Qed.

(** One step keeps the invariant and uses up fuel, or ends the pool. *)
Definition step_post (items : list X) (s0 : S) (fuel : nat) tr
    (out : outcome (state I X J A S + S)) : Prop :=
  match out with
  | Returned (inl st) => pool_inv items s0 st tr fuel
  | Returned (inr acc) => pool_result items s0 acc tr
  | Stopped _ => False
  end.

Lemma forall2_handled_snoc pre vs tr x v :
  Forall2 (λ x v, handled x v tr) pre vs → handled x v tr →
  Forall2 (λ x v, handled x v tr) (pre ++ [x]) (vs ++ [v]).
Proof. intros. apply Forall2_app; [done|]. by constructor. Qed.

Lemma launched_snoc vs v :
  launched (vs ++ [v]) = launched vs ++ match v with Launch j => [j] | _ => [] end.
Proof. unfold launched. rewrite omap_snoc. by destruct v. Qed.

(** The loop has decided about an item. *)
Lemma step_decided items s0 st tr pre x rest vs dn ns v n m pending fuel :
  items = pre ++ x :: rest →
  Forall2 (gor_inv tr) (st_threads st) ns →
  Forall2 (λ x v, handled x v tr) pre vs → handled x v tr →
  dn.*1 ++ omap gor_job (st_threads st) ++ [] ≡ₚ launched vs →
  Forall (λ ja, finished ja.1 ja.2 tr) dn →
  st_acc st = foldl (λ s ja, sp_commit sp ja.2 s) s0 dn →
  pending = (match v with Launch j => [j] | _ => [] end) →
  main_inv items (pre ++ [x]) tr m pending (vs ++ [v]) n →
  (n + sum_list ns <= fuel)%nat →
  pool_inv items s0 (set_main st m) tr fuel.
Proof.
  intros Hitems Hg Hh Hv Hj Hf Ha Hp Hm Hle.
  exists (pre ++ [x]), pending, (vs ++ [v]), dn, n, ns. split; [|done].
  split; simpl; try done; [by apply forall2_handled_snoc|].
  rewrite app_nil_r in Hj. rewrite launched_snoc, app_assoc, Hj, Hp. done.
Qed.

Lemma step_main_ok items s0 st tr fuel :
  pool_inv items s0 st tr (Datatypes.S fuel) → main_enabled sp st = true →
  wp (step_main sp st) (step_post items s0 fuel) tr.
Proof.
  intros (pre & pending & vs & dn & n & ns & Hinv & Hfuel) Hen.
  pose proof Hinv as [Hm Hg Hh Hj Hf Ha].
  unfold step_main. destruct (st_main st) as [p rest|j rest|] eqn:Hst; simpl in Hm.
  - destruct Hm as (x & k & Hitems & -> & Hdep & Hrwp & Hk & ->).
    pose proof (po_cost Hok x) as Hcx.
    destruct p as [v|s|o kk].
    + specialize (Hrwp []). rewrite app_nil_r in Hrwp. simpl in Hrwp.
      pose proof (prefix_snoc_split _ _ _ _ (eq_sym Hitems)) as Hitems'.
      destruct v as [| |j]; simpl; eapply step_decided; try done.
      * by apply next_item_inv.
      * lia.
      * simpl. split; [done|]. split; [|done]. exists rest. split; [done|]. right. set_solver.
      * unfold rest_cost in *. lia.
      * simpl. pose proof (po_cost_launch Hok _ _ _ Hrwp). lia.
    + specialize (Hrwp []). by simpl in Hrwp.
    + intros y Hy. destruct k as [|k]; [done|].
      apply pool_inv_at_more with (more := [Ev o y]) in Hinv as [_ ? ? ? ? ?].
      exists pre, [], vs, dn, (k + (cost x - hcost) + rest_cost rest)%nat, ns. split; [|lia].
      split; simpl; try done. specialize (Hrwp [] y). rewrite app_nil_r in Hrwp.
      exists x, k. split_and!; [done|done|apply Hdep|by apply Hrwp|lia|done].
  - destruct Hm as (Hitems & -> & ->).
    set (g := if sp_main_acquires sp then Running j (sp_body sp j) else Queued j).
    exists pre, [], vs, dn, (rest_cost rest), (ns ++ [(jcost j + 3)%nat]).
    split; [|rewrite sum_list_with_app; simpl; unfold rest_cost, id in *; lia].
    split; simpl; try done; [by apply next_item_inv| |].
    + apply Forall2_app; [done|]. constructor; [|done]. unfold g.
      destruct (sp_main_acquires sp); simpl; [|done].
      exists (jcost j + 1)%nat. split_and!; [|lia|apply (po_body Hok)].
      eapply depth_le_mono; [|apply (po_body_depth Hok)]. lia.
    + rewrite omap_snoc, app_nil_r, <- Hj. f_equiv. f_equiv.
      unfold g. by destruct (sp_main_acquires sp).
  - destruct Hm as (-> & (suf & Hitems & Hsuf) & ->). simpl.
    exists pre, suf, vs, dn. split_and!; try done.
    unfold main_enabled in Hen. rewrite Hst in Hen.
    destruct (st_threads st); [|done]. simpl in Hj. by rewrite app_nil_r in Hj.
Qed.

Lemma pool_gor_moved items s0 st tr fuel i g g' acc dn' pre pending vs dn n ns m :
  pool_inv_at items s0 st tr pre pending vs dn n ns →
  (n + sum_list ns <= Datatypes.S fuel)%nat →
  st_threads st !! i = Some g →
  (∀ k, gor_inv tr g k → gor_inv tr g' (m k) ∧ (m k < k)%nat) →
  option_list (gor_job g) ++ dn.*1 ≡ₚ option_list (gor_job g') ++ dn'.*1 →
  Forall (λ ja, finished ja.1 ja.2 tr) dn' →
  acc = foldl (λ s ja, sp_commit sp ja.2 s) s0 dn' →
  pool_inv items s0 (State (st_main st) (<[i := g']> (st_threads st)) acc) tr fuel.
Proof.
  intros [Hm Hg Hh Hj Hf Ha] Hle Hi Hgor Hjobs Hf' Hacc.
  destruct (Forall2_lookup_l _ _ _ _ _ Hg Hi) as (k & Hk & Hgk).
  destruct (Hgor k Hgk) as [Hg' Hlt].
  exists pre, pending, vs, dn', n, (<[i := m k]> ns). split.
  - split; simpl; try done; [by apply Forall2_insert|].
    rewrite <- Hj. clear Hj. pose proof (omap_insert_perm gor_job _ _ g' _ Hi) as Hperm.
    apply (Permutation_app_inv_l (option_list (gor_job g'))).
    rewrite !app_assoc, <- Hjobs. f_equiv.
    rewrite <- !app_assoc, !(Permutation_app_swap_app _ dn.*1). f_equiv. done.
  - pose proof (sum_list_with_insert id _ _ (m k) _ Hk). unfold id in *. lia.
Qed.

Lemma step_gor_ok items s0 st tr fuel i :
  pool_inv items s0 st tr (Datatypes.S fuel) → Some i ∈ enabled sp st →
  wp (step_gor sp st i) (step_post items s0 fuel) tr.
Proof.
  intros (pre & pending & vs & dn & n & ns & Hinv & Hfuel) Hen.
  apply enabled_gor in Hen as (g & Hi & _). unfold step_gor. rewrite Hi.
  pose proof Hinv as [Hm Hg Hh Hj Hf Ha].
  destruct g as [j|j [a|s|o k]|]; simpl.
  - eapply (pool_gor_moved _ _ st _ _ _ _ _ _ dn _ _ _ dn _ _ (λ k, k - 1)%nat); eauto.
    simpl. intros k ->. split; [|lia]. exists (jcost j). split_and!; [|lia|apply (po_body Hok)].
    apply (po_body_depth Hok).
  - destruct (Forall2_lookup_l _ _ _ _ _ Hg Hi) as (k & Hk & m & Hd & -> & Hr).
    specialize (Hr []). rewrite app_nil_r in Hr. simpl in Hr.
    eapply (pool_gor_moved _ _ st _ _ _ _ _ _ (dn ++ [(j, a)]) _ _ _ dn _ _ (λ _, 1)%nat); eauto.
    + simpl. intros k (m' & ? & -> & ?). split; [done|lia].
    + simpl. by rewrite fmap_app, Permutation_app_comm.
    + apply Forall_app. split; [done|]. by constructor.
    + by rewrite foldl_snoc, Ha.
  - destruct (Forall2_lookup_l _ _ _ _ _ Hg Hi) as (k & Hk & m & Hd & -> & Hr).
    by specialize (Hr []).
  - intros y Hy. pose proof (pool_inv_at_more _ _ _ _ [Ev o y] _ _ _ _ _ _ Hinv) as [_ Hg' _ _ Hf' _].
    destruct (Forall2_lookup_l _ _ _ _ _ Hg Hi) as (c & Hk & m & Hd & -> & Hr).
    destruct m as [|m]; [done|]. specialize (Hd y).
    specialize (Hr [] y). rewrite app_nil_r in Hr. specialize (Hr Hy).
    apply (pool_inv_at_more _ _ _ _ [Ev o y]) in Hinv. clear Hm Hg Hh Hj Hf.
    destruct Hinv as [Hm Hg Hh Hj Hf _].
    exists pre, pending, vs, dn, n, (<[i := (m + 2)%nat]> ns). split.
    + split; simpl; try done.
      * apply Forall2_insert; [done|]. exists m. eauto.
      * rewrite <- Hj. do 2 f_equiv.
        pose proof (omap_insert_perm gor_job _ _ (Running j (k y)) _ Hi) as Hp.
        simpl in Hp. by apply Permutation_cons_inv in Hp.
    + pose proof (sum_list_with_insert id _ _ (m + 2)%nat _ Hk). unfold id in *. lia.
  - destruct (Forall2_lookup_l _ _ _ _ _ Hg Hi) as (k & Hk & ->).
    exists pre, pending, vs, dn, n, (delete i ns). split.
    + split; simpl; try done; [by apply Forall2_delete|].
      pose proof (omap_delete_perm gor_job _ _ _ Hi) as Hp. simpl in Hp. by rewrite Hp.
    + pose proof (sum_list_with_delete id _ _ _ Hk). unfold id in *. lia.
Qed.

Lemma pool_inv_fuel items s0 st tr : ¬ pool_inv items s0 st tr 0.
Proof.
  intros (pre & pending & vs & dn & n & ns & [Hm _ _ _ _ _] & Hle).
  assert (0 < n)%nat; [|lia].
  destruct (st_main st); simpl in Hm; unfold rest_cost in *; naive_solver lia.
Qed.

Lemma run_ok items s0 fuel st tr :
  pool_inv items s0 st tr fuel →
  wp (run sp fuel st) (returns (pool_result items s0)) tr.
Proof.
  revert st tr. induction fuel as [|fuel IH]; intros st tr Hinv.
  { by destruct (pool_inv_fuel _ _ _ _ Hinv). }
  simpl. pose proof (pool_progress _ _ _ _ _ Hinv) as Hne.
  destruct (length (enabled sp st) =? 0)%nat eqn:Hlen.
  { by apply Nat.eqb_eq, nil_length_inv in Hlen. }
  apply wp_go_bind. intros i Hi. simpl in Hi.
  destruct (lookup_lt_is_Some_2 (enabled sp st) i Hi) as [c Hc]. rewrite Hc.
  apply list_elem_of_lookup_2 in Hc.
  assert (pool_inv items s0 st (tr ++ [Ev (Go (Schedule (length (enabled sp st)))) i])
            (Datatypes.S fuel)) as Hinv'.
  { destruct Hinv as (pre & pending & vs & dn & n & ns & Hat & Hle).
    exists pre, pending, vs, dn, n, ns. split; [by apply pool_inv_at_more|done]. }
  apply wp_bind. eapply wp_mono'.
  - destruct c as [i'|]; simpl; [by apply step_gor_ok|].
    apply step_main_ok; [done|]. by apply enabled_main.
  - intros tr' [[st'|acc]|s]; simpl; [apply IH|done|done].
Qed.

(** The rule for a pool: it always ends, and with a [pool_result]. *)
Lemma pool_wp items s0 tr :
  wp (pool sp cost items s0) (returns (pool_result items s0)) tr.
Proof. apply run_ok, pool_init. Qed.

(** When the loop did not break, the jobs are those of all the items. *)
Lemma pool_result_all (f : X → option J) items s0 acc tr :
  (∀ x, ¬ handled x BreakLoop tr) →
  (∀ x v, handled x v tr → match v with Launch j => Some j | _ => None end = f x) →
  pool_result items s0 acc tr →
  ∃ dn, dn.*1 ≡ₚ omap f items ∧ Forall (λ ja, finished ja.1 ja.2 tr) dn ∧
        acc = foldl (λ s ja, sp_commit sp ja.2 s) s0 dn.
Proof.
  intros Hnb Hf (pre & suf & vs & dn & -> & Hsuf & Hh & Hj & Hfin & Hacc). exists dn.
  assert (BreakLoop ∉ vs) as Hb.
  { intros (i & Hi)%list_elem_of_lookup.
    destruct (Forall2_lookup_r _ _ _ _ _ Hh Hi) as (x & _ & Hx). by destruct (Hnb x). }
  destruct Hsuf as [->|]; [|done]. split_and!; [|done|done].
  rewrite Hj, app_nil_r. clear -Hh Hf. unfold launched.
  induction Hh as [|x v pre vs Hv Hh IH]; [done|]. csimpl. rewrite (Hf _ _ Hv).
  destruct (f x); by rewrite IH.
Qed.
End correctness.

(** ** The operations of a pool are those of its parts *)
Section pool_only.
Context {I : iface} {X J A S : Type} (sp : spec I X J A S) (P : fop I → Prop).
Context (okX : X → Prop) (okJ : J → Prop).
Definition verdict_ok (v : verdict J) : Prop := match v with Launch j => okJ j | _ => True end.
Context (Hsched : ∀ n, P (Go (Schedule n))).
Context (Hhandle : ∀ x, okX x → only P verdict_ok (sp_handle sp x)).
Context (Hbody : ∀ j, okJ j → only P (λ _, True) (sp_body sp j)).
Implicit Types st : state I X J A S.

Definition gor_only (g : gor I J A) : Prop :=
  match g with Queued j => okJ j | Running _ p => only P (λ _, True) p | Releasing => True end.
Definition main_only (m : main_state I X J) : Prop :=
  match m with
  | Handling p rest => only P verdict_ok p ∧ Forall okX rest
  | Sending j rest => okJ j ∧ Forall okX rest
  | Waiting => True
  end.
Definition state_only st : Prop := main_only (st_main st) ∧ Forall gor_only (st_threads st).

Lemma next_item_only rest : Forall okX rest → main_only (next_item sp rest).
Proof. intros [|x l Hx Hl]; simpl; auto. Qed.

Definition step_only (r : state I X J A S + S) : Prop :=
  match r with inl st => state_only st | inr _ => True end.

Lemma step_main_only st : state_only st → only P step_only (step_main sp st).
Proof.
  intros [Hm Hg]. unfold step_main. destruct (st_main st) as [[[| |j]|s|o k] rest|j rest|]; simpl in *.
  - destruct Hm. split; [by apply next_item_only|done].
  - done.
  - done.
  - done.
  - destruct Hm as [[Ho Hk] Hr]. split; [done|]. intros x. split; [by split; [apply Hk|]|done].
  - destruct Hm as [Hj Hr]. split; [by apply next_item_only|]. apply Forall_app. split; [done|].
    constructor; [|done]. destruct (sp_main_acquires sp); simpl; auto.
  - done.
Qed.

Lemma step_gor_only st i : state_only st → only P step_only (step_gor sp st i).
Proof.
  intros [Hm Hg]. unfold step_gor. destruct (st_threads st !! i) as [g|] eqn:Hi; [|done].
  pose proof (Forall_lookup_1 _ _ _ _ Hg Hi) as Hgi.
  destruct g as [j|j [a|s|o k]|]; simpl in *.
  - split; [done|]. apply Forall_insert; simpl; auto.
  - split; [done|]. by apply Forall_insert; simpl.
  - done.
  - destruct Hgi as [Ho Hk]. split; [done|]. intros x. split; [done|]. by apply Forall_insert; simpl.
  - split; [done|]. by apply Forall_delete.
Qed.

Lemma run_state_only fuel st : state_only st → only P (λ _, True) (run sp fuel st).
Proof.
  revert st. induction fuel as [|fuel IH]; intros st Hst; simpl; [done|].
  case_match; [done|]. simpl. split; [apply Hsched|]. intros i. case_match; [|done].
  eapply only_bind with (Q := step_only).
  - destruct o; [by apply step_gor_only|by apply step_main_only].
  - intros [st'|s]; simpl; [apply IH|done].
Qed.

Lemma run_only fuel items s0 :
  Forall okX items → only P (λ _, True) (run sp fuel (State (next_item sp items) [] s0)).
Proof. intros Hx. apply run_state_only. split; simpl; [by apply next_item_only|constructor]. Qed.
End pool_only.

(** Without conditions on the items. *)
Lemma pool_only {I : iface} {X J A S} (sp : spec I X J A S) (P : fop I → Prop) cost items s0 :
  (∀ n, P (Go (Schedule n))) → (∀ x, only P (λ _, True) (sp_handle sp x)) →
  (∀ j, only P (λ _, True) (sp_body sp j)) → only P (λ _, True) (pool sp cost items s0).
Proof.
  intros Hsched Hh Hb. apply (run_only sp P (λ _, True) (λ _, True)).
  - done.
  - intros x _. eapply only_mono; [apply Hh|]. by intros [].
  - auto.
  - by apply Forall_true.
Qed.
