(* ===== verification/Ports.v ===== *)
(** The ports of the use cases ([internal/usecase/*/ports.go]): one operation
    per interface method, with the Go results as the type of its answer.  The
    same method of two packages ([GetActiveRelations], [PublishResult], ...)
    is one operation, since [app.New] passes the same object for both. *)

From S2P Require Import Prelude GoStd Effects Domain.

Inductive port :=
(* MasterScanner, WalletScanner *)
| MasterScan (ctx : Ctx) (masterAddr : string) (fromLT : Z)
| WalletScan (ctx : Ctx) (walletAddr : string) (fromLT : Z)
(* EndpointResolver *)
| Resolve (ctx : Ctx) (pubkey : string) (contractAddr : string)
| ResolveStorageWithOverlay (ctx : Ctx) (providerIP : string) (bags : list string)
(* ProviderRepo *)
| GetAllPubkeys (ctx : Ctx)
| GetAllWallets (ctx : Ctx)
| UpdateLT (ctx : Ctx) (providers : list Provider)
(* ContractRepo *)
| GetActiveRelations (ctx : Ctx)
(* EndpointRepo *)
| LoadAll (ctx : Ctx)
| LoadFresh (ctx : Ctx) (pubkey : string) (maxAge : Duration)
(* SystemRepo *)
| GetMasterWalletLT (ctx : Ctx)
| SetMasterWalletLT (ctx : Ctx) (lt : Z)
(* RatesProbe, ContractInspector, BagProver *)
| Probe (ctx : Ctx) (pubkey : string)
| InspectProviders (ctx : Ctx) (addrs : list string)
| Verify (ctx : Ctx) (ep : ProviderEndpoint) (bagID : string)
(* IPInfoClient, IPInfoRepo *)
| GetIPInfo (ctx : Ctx) (ip : string)
| GetProvidersIPs (ctx : Ctx)
(* Publisher *)
| PublishResult (ctx : Ctx) (streamKey jobID cycleType : string) (p : payload).

Definition port_ans (o : port) : Type :=
  match o with
  | MasterScan _ _ _ => list Provider * Z * option error
  | WalletScan _ _ _ => list StorageContract * Z * option error
  | Resolve _ _ _ => ProviderEndpoint * option error
  | ResolveStorageWithOverlay _ _ _ => Endpoint * option error
  | GetAllPubkeys _ => list string * option error
  | GetAllWallets _ => list Provider * option error
  | UpdateLT _ _ => option error
  | GetActiveRelations _ => list ContractProviderRelation * option error
  | LoadAll _ => gmap string ProviderEndpoint * option error
  | LoadFresh _ _ _ => ProviderEndpoint * bool * option error
  | GetMasterWalletLT _ => Z * option error
  | SetMasterWalletLT _ _ => option error
  | Probe _ _ => Rates * bool * option error
  | InspectProviders _ _ => list ContractOnChainState * option error
  | Verify _ _ _ => ReasonCode * option error
  | GetIPInfo _ _ => IpInfo * option error
  | GetProvidersIPs _ => list ProviderEndpoint * option error
  | PublishResult _ _ _ _ _ => option error
  end%type.

Definition ports : iface := Iface port port_ans.

#[export] Instance port_eq_dec : EqDecision port.
Proof. solve_decision. Defined.
#[export] Instance ports_op_eq_dec : EqDecision (op ports) := port_eq_dec.

Abbreviation call o := (ext (I:=ports) o).

(** What each package declares in its ports.go. *)
Definition discovery_port (o : port) : bool :=
  match o with
  | MasterScan _ _ _ | WalletScan _ _ _ | Resolve _ _ _ | ResolveStorageWithOverlay _ _ _
  | GetAllPubkeys _ | GetAllWallets _ | UpdateLT _ _ | GetActiveRelations _ | LoadAll _
  | GetMasterWalletLT _ | SetMasterWalletLT _ _ | PublishResult _ _ _ _ _ => true
  | _ => false
  end.
Definition poll_port (o : port) : bool :=
  match o with
  | Probe _ _ | InspectProviders _ _ | GetAllPubkeys _ | GetActiveRelations _
  | PublishResult _ _ _ _ _ => true
  | _ => false
  end.
Definition proof_port (o : port) : bool :=
  match o with
  | InspectProviders _ _ | Resolve _ _ _ | ResolveStorageWithOverlay _ _ _ | Verify _ _ _
  | GetActiveRelations _ | LoadFresh _ _ _ | PublishResult _ _ _ _ _ => true
  | _ => false
  end.
Definition update_port (o : port) : bool :=
  match o with
  | GetIPInfo _ _ | GetProvidersIPs _ | PublishResult _ _ _ _ _ => true
  | _ => false
  end.

(** The ports of the package that runs a cycle. *)
Definition cycle_port (cycle : string) : port → bool :=
  if bool_decide (cycle ∈ [CycleScanMaster; CycleScanWallets; CycleResolveEndpoints]) then discovery_port
  else if bool_decide (cycle ∈ [CycleProbeRates; CycleInspectContracts]) then poll_port
  else if bool_decide (cycle = CycleCheckProofs) then proof_port
  else update_port.

(** The event "[o] was called and answered [x]". *)
Abbreviation answered o x := (@Ev ports (@Ext ports o) x).

(** The use cases assume nothing of their ports. *)
#[export] Instance ports_env : Env ports := any_env ports.

(** ** Reading a trace of ports

    Each projection keeps, in order, the calls of one kind with their
    answers. *)
Definition as_publish (ev : event ports) : option (payload * option error) :=
  match ev with
  | Ev (Ext (PublishResult _ _ _ _ p)) e => Some (p, e)
  | _ => None
  end.
Definition published (tr : trace ports) : list (payload * option error) := omap as_publish tr.

(** What a run writes: results published (with the publisher's answer) and LT
    checkpoints stored. *)
Inductive write :=
| WPublished (p : payload) (err : option error)
| WMasterLT (lt : Z)
| WWalletLTs (ws : list Provider).

Definition as_write (ev : event ports) : option write :=
  match ev with
  | Ev (Ext (PublishResult _ _ _ _ p)) e => Some (WPublished p e)
  | Ev (Ext (SetMasterWalletLT _ lt)) _ => Some (WMasterLT lt)
  | Ev (Ext (UpdateLT _ ws)) _ => Some (WWalletLTs ws)
  | _ => None
  end.
Definition writes (tr : trace ports) : list write := omap as_write tr.

(** The clock was read as [t]. *)
Definition read_clock (tr : trace ports) (t : Time) : Prop := @Ev ports (Go TimeNow) t ∈ tr.
Lemma read_clock_more tr more t : read_clock tr t → read_clock (tr ++ more) t.
Proof. intros Ht. apply elem_of_app. by left. Qed.

Definition as_probe (ev : event ports) : option (string * (Rates * bool * option error)) :=
  match ev with
  | Ev (Ext (Probe _ pk)) a => Some (pk, a)
  | _ => None
  end.
Definition as_verify (ev : event ports) : option (string * (ReasonCode * option error)) :=
  match ev with
  | Ev (Ext (Verify _ _ bag)) a => Some (bag, a)
  | _ => None
  end.
Definition verified (tr : trace ports) := omap as_verify tr.

Lemma writes_snoc tr ev :
  writes (tr ++ [ev]) = writes tr ++ match as_write ev with Some w => [w] | None => [] end.
Proof. apply omap_snoc. Qed.

Lemma writes_app tr tr' : writes (tr ++ tr') = writes tr ++ writes tr'.
Proof. apply omap_app. Qed.
#[export] Hint Rewrite @app_nil_r writes_snoc : agent_simpl.

(** Operations that write nothing. *)
Definition no_write (o : fop ports) : Prop := ∀ x, as_write (Ev o x) = None.

Lemma no_write_trace tr : Forall (λ ev, no_write (ev_op ev)) tr → writes tr = [].
Proof.
  induction 1 as [|[o x] tr Ho _ IH]; [done|].
  change (writes (Ev o x :: tr))
    with (match as_write (Ev o x) with Some w => w :: writes tr | None => writes tr end).
  by assert (as_write (Ev o x) = None) as -> by exact (Ho x).
Qed.
