(* ===== verification/Discovery.v ===== *)
(** [internal/usecase/discovery]: the cycles [scan_master], [scan_wallets] and
    [resolve_endpoints].  Definitions first, in the order of discovery.go;
    then what each cycle guarantees. *)

From S2P Require Import Prelude GoStd Effects Domain Ports.

(** ** Configuration *)
Record Config := mkConfig {
  MasterAddr : string;
  EndpointTTL : Duration;
  ScanMasterStream : string;
  ScanWalletsStream : string;
  ResolveEndpointsStream : string }.

(** helper.go *)
Definition IsUserFriendly (s : string) : bool :=
  (strlen s =? 48) && match_userFriendlyAddrTemplate s.

Section discovery.
Context `{Unicode}.

(** ** scan_master *)

(** The providers whose public key, lower-cased, is not among the known. *)
Definition known_set (knownPubkeys : list string) : gset string :=
  list_to_set (ToLower <$> knownPubkeys).
Definition new_providers (known : gset string) (scanned : list Provider) : list Provider :=
  filter (λ p, ToLower (pr_PublicKey p) ∉ known) scanned.

Definition CollectNewProviders (d : Config) (ctx : Ctx) : prog ports (option error) :=
  '(fromLT, err) ← call (GetMasterWalletLT ctx);
  iferr err ;;
  '(knownPubkeys, err) ← call (GetAllPubkeys ctx);
  iferr err ;;
  let known := known_set knownPubkeys in
  '(scanned, lastLT, err) ← call (MasterScan ctx (MasterAddr d) fromLT);
  iferr err ;;
  let newProviders := new_providers known scanned in
  let result := mkScanMasterResult newProviders lastLT (Z.of_nat (length scanned)) in
  err ← call (PublishResult ctx (ScanMasterStream d) (JobIDFrom ctx) CycleScanMaster
                          (PScanMaster result));
  iferr err ;;
  if fromLT <? lastLT then
    _ ← call (SetMasterWalletLT ctx lastLT);   (* an error is only logged *)
    mret None
  else mret None.

(** ** scan_wallets *)

(** Two scans that found the same contract: providers are appended, the
    larger LT is kept, the other fields stay those of the first scan. *)
Definition merge_contract (merged : gmap string StorageContract) (c : StorageContract)
    : gmap string StorageContract :=
  match merged !! sc_Address c with
  | Some existing =>
      let lt := if sc_LastLT existing <? sc_LastLT c then sc_LastLT c else sc_LastLT existing in
      <[sc_Address c := mkStorageContract (sc_Address existing) (sc_BagID existing)
          (sc_OwnerAddr existing) (sc_Size existing) (sc_ChunkSize existing) lt
          (sc_Providers existing ++ sc_Providers c)]> merged
  | None => <[sc_Address c := c]> merged
  end.

Record scan_state := mkScanState {
  ss_merged : gmap string StorageContract;
  ss_updated : list Provider }.

Definition scan_wallet (ctx : Ctx) (w : Provider) (s : scan_state)
    : prog ports (flow scan_state (option error)) :=
  cerr ← go (CtxErr ctx);
  if negb (is_nil cerr) then
    cerr ← go (CtxErr ctx); mret (Return cerr)
  else if negb (IsUserFriendly (pr_Address w)) then mret (Next s)
  else
    '(contracts, lastLT, scanErr) ← call (WalletScan ctx (pr_Address w) (pr_LT w));
    match scanErr with
    | Some _ => mret (Next s)
    | None =>
        let merged := foldl merge_contract (ss_merged s) contracts in
        let updated :=
          if pr_LT w <? lastLT
          then ss_updated s ++ [mkProvider (pr_PublicKey w) (pr_Address w) lastLT (pr_RegisteredAt w)]
          else ss_updated s in
        mret (Next (mkScanState merged updated))
    end.

(** The relations of one contract; a provider address that is no known wallet
    is skipped with a warning. *)
Definition contract_relations (addrToPubkey : gmap string string) (c : StorageContract)
    : list ContractProviderRelation :=
  omap (λ providerAddr,
          pubkey ← addrToPubkey !! providerAddr;
          Some (mkRelation (sc_Address c) pubkey providerAddr (sc_BagID c) (sc_Size c)))
       (sc_Providers c).

Definition addr_to_pubkey (wallets : list Provider) : gmap string string :=
  foldl (λ m w, <[pr_Address w := pr_PublicKey w]> m) ∅ wallets.

Definition CollectStorageContracts (d : Config) (ctx : Ctx) : prog ports (option error) :=
  '(wallets, err) ← call (GetAllWallets ctx);
  iferr err ;;
  match wallets with
  | [] => call (PublishResult ctx (ScanWalletsStream d) (JobIDFrom ctx) CycleScanWallets
                            (PScanWallets zeroScanWalletsResult))
  | _ =>
      let addrToPubkey := addr_to_pubkey wallets in
      f ← range wallets (mkScanState ∅ []) (scan_wallet ctx);
      after f (λ s,
        keys ← go (RangeKeys (map_to_list (ss_merged s)).*1);
        let contracts := omap (λ k, ss_merged s !! k) keys in
        let relations := c ← contracts; contract_relations addrToPubkey c in
        let result := mkScanWalletsResult contracts relations (ss_updated s) in
        err ← call (PublishResult ctx (ScanWalletsStream d) (JobIDFrom ctx)
                                CycleScanWallets (PScanWallets result));
        iferr err ;;
        if (0 <? length (ss_updated s))%nat then
          _ ← call (UpdateLT ctx (ss_updated s));  (* an error is only logged *)
          mret None
        else mret None)
  end.

(** ** resolve_endpoints *)

(** First contract and all bags of each provider, over the relations. *)
Definition contract_by_pubkey (relations : list ContractProviderRelation) : gmap string string :=
  foldl (λ m r, match m !! cr_ProviderPubkey r with
                | Some _ => m
                | None => <[cr_ProviderPubkey r := cr_ContractAddr r]> m
                end) ∅ relations.
Definition bags_by_pubkey (relations : list ContractProviderRelation) : gmap string (list string) :=
  foldl (λ m r, <[cr_ProviderPubkey r :=
                    default [] (m !! cr_ProviderPubkey r) ++ [cr_BagID r]]> m) ∅ relations.

Record resolve_state := mkResolveState {
  rs_resolved : list ProviderEndpoint;
  rs_skipped : Z;
  rs_failed : Z }.

Definition rs_skip (s : resolve_state) : resolve_state :=
  mkResolveState (rs_resolved s) (rs_skipped s + 1) (rs_failed s).
Definition rs_fail (s : resolve_state) : resolve_state :=
  mkResolveState (rs_resolved s) (rs_skipped s) (rs_failed s + 1).

(** An endpoint of the database younger than the TTL is not resolved again. *)
Definition is_fresh (ttl : Duration) (now : Time) (ep : option ProviderEndpoint) : bool :=
  match ep with Some ep => Sub now (pe_UpdatedAt ep) <? ttl | None => false end.

Definition set_storage (ep : ProviderEndpoint) (st : Endpoint) : ProviderEndpoint :=
  mkProviderEndpoint (pe_PublicKey ep) (pe_Provider ep) st (pe_UpdatedAt ep).

Definition resolve_one (d : Config) (ctx : Ctx) (now : Time)
    (existing : gmap string ProviderEndpoint) (contractByPubkey : gmap string string)
    (bagsByPubkey : gmap string (list string)) (pubkey : string) (s : resolve_state)
    : prog ports (flow resolve_state (option error)) :=
  cerr ← go (CtxErr ctx);
  if negb (is_nil cerr) then
    cerr ← go (CtxErr ctx); mret (Return cerr)
  else if is_fresh (EndpointTTL d) now (existing !! pubkey) then mret (Next (rs_skip s))
  else
    let contractAddr := default "" (contractByPubkey !! pubkey) in
    let (pk, dErr) := DecodeString pubkey in
    if negb (is_nil dErr) || negb (strlen pk =? 32) then mret (Next (rs_fail s))
    else
      '(ep, rErr) ← call (Resolve ctx pk contractAddr);
      if negb (is_nil rErr) then mret (Next (rs_fail s))
      else if bool_decide (ep_IP (pe_Provider ep) = "") then mret (Next (rs_fail s))
      else
        ep ← (if bool_decide (ep_IP (pe_Storage ep) = "") then
                '(storageEP, sErr) ← call (ResolveStorageWithOverlay ctx (ep_IP (pe_Provider ep))
                                             (default [] (bagsByPubkey !! pubkey)));
                if negb (is_nil sErr) then mret ep else mret (set_storage ep storageEP)
              else mret ep);
        let ep := mkProviderEndpoint pubkey (pe_Provider ep) (pe_Storage ep) now in
        mret (Next (mkResolveState (rs_resolved s ++ [ep]) (rs_skipped s) (rs_failed s))).

Definition ResolveEndpoints (d : Config) (ctx : Ctx) : prog ports (option error) :=
  '(relations, err) ← call (GetActiveRelations ctx);
  iferr err ;;
  match relations with
  | [] => call (PublishResult ctx (ResolveEndpointsStream d) (JobIDFrom ctx) CycleResolveEndpoints
                  (PResolveEndpoints zeroResolveEndpointsResult))
  | _ =>
      '(existing, err) ← call (LoadAll ctx);
      iferr err ;;
      let contractByPubkey := contract_by_pubkey relations in
      let bagsByPubkey := bags_by_pubkey relations in
      now ← go TimeNow;
      pubkeys ← go (RangeKeys (map_to_list contractByPubkey).*1);
      f ← range pubkeys (mkResolveState [] 0 0)
            (resolve_one d ctx now existing contractByPubkey bagsByPubkey);
      after f (λ s,
        let result := mkResolveEndpointsResult (rs_resolved s) (rs_skipped s) (rs_failed s) in
        err ← call (PublishResult ctx (ResolveEndpointsStream d) (JobIDFrom ctx)
                      CycleResolveEndpoints (PResolveEndpoints result));
        iferr err ;;
        mret None)
  end.
End discovery.

(** ** Properties of scan_master *)

(** A checkpoint follows a successful publication of the result it belongs to. *)
Definition checkpoint_after_publish (ws : list write) : Prop :=
  ∀ pre w post, ws = pre ++ w :: post →
    match w with
    | WPublished _ _ => True
    | WMasterLT lt => ∃ r, WPublished (PScanMaster r) None ∈ pre ∧ sm_LastLT r = lt
    | WWalletLTs us => ∃ r, WPublished (PScanWallets r) None ∈ pre ∧ sw_UpdatedWallets r = us
    end.

Lemma checkpoint_after_publish_nil : checkpoint_after_publish [].
Proof. intros [|] ? ? ?; simplify_eq. Qed.

Lemma checkpoint_after_publish_one p e : checkpoint_after_publish [WPublished p e].
Proof. intros [|? [|]] ? ? ?; by simplify_eq/=. Qed.

Lemma checkpoint_after_publish_master r :
  checkpoint_after_publish [WPublished (PScanMaster r) None; WMasterLT (sm_LastLT r)].
Proof.
  intros [|? [|? [|]]] ? ? ?; simplify_eq/=; [done|].
  exists r. by rewrite list_elem_of_singleton.
Qed.

Lemma checkpoint_after_publish_wallets r :
  checkpoint_after_publish [WPublished (PScanWallets r) None; WWalletLTs (sw_UpdatedWallets r)].
Proof.
  intros [|? [|? [|]]] ? ? ?; simplify_eq/=; [done|].
  exists r. by rewrite list_elem_of_singleton.
Qed.

#[export] Hint Resolve checkpoint_after_publish_nil checkpoint_after_publish_one
  checkpoint_after_publish_master checkpoint_after_publish_wallets : agent.

Section scan_master.
Context `{Unicode}.
Implicit Types (d : Config) (ctx : Ctx).

Lemma elem_of_new_providers ks scanned q :
  q ∈ new_providers (known_set ks) scanned ↔
  q ∈ scanned ∧ ∀ k, k ∈ ks → ToLower k ≠ ToLower (pr_PublicKey q).
Proof.
  unfold new_providers, known_set. rewrite list_elem_of_filter, elem_of_list_to_set.
  rewrite list_elem_of_fmap. split.
  2: { intros [? Hk]. split; [|done]. intros (k & Heq & ?). by apply (Hk k). }
  intros [Hnot ?]. split; [done|]. intros k Hk Heq. apply Hnot. by exists k.
Qed.

Lemma new_providers_sublist known scanned : new_providers known scanned `sublist_of` scanned.
Proof. apply sublist_filter. Qed.

(** C9. scan_master stores the master wallet's LT only after it published the
    result with that LT, and exactly when that LT is larger than the stored
    one; a run that fails leaves no checkpoint. *)
Theorem CollectNewProviders_checkpoint d ctx :
  every_run (CollectNewProviders d ctx) (λ tr out,
    checkpoint_after_publish (writes tr) ∧
    (∀ lt, WMasterLT lt ∈ writes tr ↔
       ∃ r fromLT, WPublished (PScanMaster r) None ∈ writes tr ∧ sm_LastLT r = lt ∧
         answered (GetMasterWalletLT ctx) (fromLT, None) ∈ tr ∧ fromLT < lt) ∧
    (∀ e, out = Returned (Some e) → ∀ w, w ∈ writes tr → ∃ p, w = WPublished p (Some e))).
Proof.
  apply every_run_wp. unfold CollectNewProviders. wp_steps; cbn.
  all: split_and!; [by auto with agent| |]; trace_simpl; try list_member; try lia.
  - by eexists.
  - do 2 eexists. split_and!; [list_member|done|list_member|lia].
Qed.

(** The scan a published result comes from, and the LT it starts at. *)
Lemma scan_master_wp d ctx :
  wp (CollectNewProviders d ctx) (λ tr _,
    (∀ r e, WPublished (PScanMaster r) e ∈ writes tr →
       ∃ fromLT known scanned, answered (GetMasterWalletLT ctx) (fromLT, None) ∈ tr ∧
         answered (MasterScan ctx (MasterAddr d) fromLT) (scanned, sm_LastLT r, None) ∈ tr ∧
         sm_NewProviders r = new_providers known scanned ∧
         sm_ScannedCount r = Z.of_nat (length scanned)) ∧
    ∀ lt, WMasterLT lt ∈ writes tr →
       ∃ fromLT, answered (GetMasterWalletLT ctx) (fromLT, None) ∈ tr ∧ fromLT < lt) [].
Proof.
  unfold CollectNewProviders. wp_steps; cbn.
  all: split; intros; trace_simpl; try done.
  all: try (do 3 eexists; split_and!; [list_member|list_member|done|done]).
  eexists. split; [list_member|lia].
Qed.

Lemma scan_master_returns d ctx :
  wp (CollectNewProviders d ctx) (λ _ out, ∃ err, out = Returned err) [].
Proof. unfold CollectNewProviders. wp_steps; by eexists. Qed.

(** The result scan_master publishes: of the scanned providers, in order,
    those whose public key is not known up to letter case, with the scan's
    last LT and its size. *)
Theorem CollectNewProviders_result d ctx :
  every_run (CollectNewProviders d ctx) (λ tr out,
    ∀ p err, WPublished p err ∈ writes tr →
      out = Returned err ∧
      ∃ r fromLT knownPubkeys scanned,
        p = PScanMaster r ∧
        answered (GetAllPubkeys ctx) (knownPubkeys, None) ∈ tr ∧
        answered (MasterScan ctx (MasterAddr d) fromLT) (scanned, sm_LastLT r, None) ∈ tr ∧
        sm_ScannedCount r = Z.of_nat (length scanned) ∧
        sm_NewProviders r `sublist_of` scanned ∧
        ∀ q, q ∈ sm_NewProviders r ↔
             q ∈ scanned ∧ ∀ k, k ∈ knownPubkeys → ToLower k ≠ ToLower (pr_PublicKey q)).
Proof.
  apply every_run_wp. unfold CollectNewProviders. wp_steps; cbn.
  all: trace_simpl; try done.
  all: do 4 eexists; split_and!; [done|list_member|list_member|done| |].
  all: first [apply new_providers_sublist | intros q; apply elem_of_new_providers].
Qed.
End scan_master.

(** ** Properties of scan_wallets *)

(** What the merged map must hold for an address, given the contracts of all
    scans in order: the first one found, with the providers of every scan and
    the largest LT. *)
Definition merged_ref (a : string) (cs : list StorageContract) : option StorageContract :=
  match filter (λ c, sc_Address c = a) cs with
  | [] => None
  | c :: cs' =>
      Some (mkStorageContract (sc_Address c) (sc_BagID c) (sc_OwnerAddr c) (sc_Size c)
              (sc_ChunkSize c) (foldl Z.max (sc_LastLT c) (sc_LastLT <$> cs'))
              (mjoin (sc_Providers <$> c :: cs')))
  end.

Lemma merged_ref_address a cs c : merged_ref a cs = Some c → sc_Address c = a.
Proof.
  unfold merged_ref. destruct (filter _ _) as [|c0 cs'] eqn:Hf; [done|]. intros [= <-]. simpl.
  assert (c0 ∈ filter (λ c, sc_Address c = a) cs) as Hin by (rewrite Hf; constructor).
  by apply list_elem_of_filter in Hin as [? _].
Qed.

Lemma max_branch x y : (if x <? y then y else x) = x `max` y.
Proof. destruct (Z.ltb_spec x y); lia. Qed.

(** The merge of the code computes the reference. *)
Lemma merge_contracts_lookup cs a : foldl merge_contract ∅ cs !! a = merged_ref a cs.
Proof.
  revert a. induction cs as [|c cs IH] using rev_ind; intros a; [done|].
  rewrite foldl_snoc. set (m := foldl merge_contract ∅ cs) in *.
  assert (∀ b, b ≠ sc_Address c → merged_ref b (cs ++ [c]) = merged_ref b cs) as Hother.
  { intros b Hb. unfold merged_ref. rewrite filter_snoc. by case_decide. }
  assert (merge_contract m c !! sc_Address c = merged_ref (sc_Address c) (cs ++ [c])) as Hsame.
  { unfold merge_contract. rewrite IH. unfold merged_ref. rewrite filter_snoc, decide_True by done.
    destruct (filter _ cs) as [|c0 cs'] eqn:Hf; simpl; rewrite lookup_insert_eq.
    - rewrite app_nil_r. by destruct c.
    - do 2 f_equal.
      + by rewrite max_branch, fmap_app, foldl_app.
      + rewrite fmap_app, join_app. simpl. by rewrite app_nil_r, app_assoc. }
  destruct (decide (a = sc_Address c)) as [->|Hne]; [done|].
  rewrite Hother, <- IH by done. unfold merge_contract.
  destruct (m !! sc_Address c); by rewrite lookup_insert_ne.
Qed.

(** The wallet scans of a run: the calls made, and what the successful ones
    answered. *)
Definition as_scan_call (ev : event ports) : option (string * Z) :=
  match ev with
  | Ev (Ext (WalletScan _ addr from)) _ => Some (addr, from)
  | _ => None
  end.
Definition scan_calls (tr : trace ports) := omap as_scan_call tr.

Definition as_wallet_scan (ev : event ports) : option (string * Z * (list StorageContract * Z)) :=
  match ev with
  | Ev (Ext (WalletScan _ addr from)) (cs, last, None) => Some (addr, from, (cs, last))
  | _ => None
  end.
Definition wallet_scans (tr : trace ports) := omap as_wallet_scan tr.

Definition found_contracts (tr : trace ports) : list StorageContract :=
  '(_, (cs, _)) ← wallet_scans tr; cs.
Definition advanced_wallets (tr : trace ports) : list (string * Z) :=
  omap (λ '(addr, from, (_, last)), if from <? last then Some (addr, last) else None)
       (wallet_scans tr).

Definition wallet_key (w : Provider) : string * Z := (pr_Address w, pr_LT w).

(** [u] is the wallet [w] moved to a larger LT. *)
Definition advances (w u : Provider) : Prop :=
  pr_PublicKey u = pr_PublicKey w ∧ pr_Address u = pr_Address w ∧
  pr_RegisteredAt u = pr_RegisteredAt w ∧ pr_LT w < pr_LT u.

Lemma found_contracts_snoc tr ev :
  found_contracts (tr ++ [ev]) =
  found_contracts tr ++ match as_wallet_scan ev with Some (_, (cs, _)) => cs | None => [] end.
Proof.
  unfold found_contracts, wallet_scans. rewrite omap_snoc.
  destruct (as_wallet_scan ev) as [[[? ?] [? ?]]|]; simpl; [|by rewrite !app_nil_r].
  rewrite bind_app. simpl. by rewrite app_nil_r.
Qed.

Lemma advanced_wallets_snoc tr ev :
  advanced_wallets (tr ++ [ev]) =
  advanced_wallets tr ++
  match as_wallet_scan ev with
  | Some (addr, from, (_, last)) => if from <? last then [(addr, last)] else []
  | None => []
  end.
Proof.
  unfold advanced_wallets, wallet_scans. rewrite omap_snoc, omap_app. f_equal.
  destruct (as_wallet_scan ev) as [[[? z] [? z0]]|]; simpl; [|done]. by destruct (z <? z0).
Qed.

Lemma scan_calls_snoc tr ev :
  scan_calls (tr ++ [ev]) =
  scan_calls tr ++ match as_scan_call ev with Some c => [c] | None => [] end.
Proof. apply omap_snoc. Qed.
#[export] Hint Rewrite scan_calls_snoc found_contracts_snoc
  advanced_wallets_snoc : agent_simpl.

Section scan_wallets.
Context `{Unicode}.
Implicit Types (d : Config) (ctx : Ctx) (tr : trace ports).

(** The loop invariant: the state is what the scans of the trace amount to,
    the scans made are those of the wallets visited, nothing is written. *)
Record scan_inv (pre : list Provider) (s : scan_state) tr : Prop := {
  si_merged : ss_merged s = foldl merge_contract ∅ (found_contracts tr);
  si_updated : wallet_key <$> ss_updated s = advanced_wallets tr;
  si_from : ∀ u, u ∈ ss_updated s → ∃ w, w ∈ pre ∧ advances w u;
  si_calls : scan_calls tr = wallet_key <$> filter (λ w, IsUserFriendly (pr_Address w) = true) pre;
  si_writes : writes tr = [] }.

(** [scan_inv] reads the trace through projections: simplify them. *)
Ltac scan_simpl := autorewrite with agent_simpl; simpl; autorewrite with agent_simpl.

Lemma scan_inv_skip pre w s tr ev :
  scan_inv pre s tr → as_write ev = None → as_wallet_scan ev = None →
  as_scan_call ev = (if IsUserFriendly (pr_Address w) then Some (wallet_key w) else None) →
  scan_inv (pre ++ [w]) s (tr ++ [ev]).
Proof.
  intros [Hm Hu Hf Hc Hw] Hwr Hs Hcall. split; scan_simpl; rewrite ?Hwr, ?Hs, ?Hcall; scan_simpl.
  - done.
  - done.
  - intros u Hin. destruct (Hf u Hin) as (w' & ? & ?). exists w'. set_solver.
  - rewrite filter_snoc, Hc. case_decide as Hd; [rewrite Hd, fmap_app; done|].
    destruct (IsUserFriendly _); [done|by rewrite app_nil_r].
  - done.
Qed.

Lemma scan_inv_ctx_err pre s tr ctx x :
  scan_inv pre s tr → scan_inv pre s (tr ++ [Ev (Go (CtxErr ctx)) x]).
Proof. intros [Hm Hu Hf Hc Hw]. split; scan_simpl; done. Qed.

Lemma scan_inv_scanned ctx pre w s tr cs last :
  scan_inv pre s tr → IsUserFriendly (pr_Address w) = true →
  let u := mkProvider (pr_PublicKey w) (pr_Address w) last (pr_RegisteredAt w) in
  scan_inv (pre ++ [w])
    (mkScanState (foldl merge_contract (ss_merged s) cs)
       (if pr_LT w <? last then ss_updated s ++ [u] else ss_updated s))
    (tr ++ [answered (WalletScan ctx (pr_Address w) (pr_LT w)) (cs, last, None)]).
Proof.
  intros [Hm Hu Hf Hc Hw] Hfr u. split; scan_simpl.
  - by rewrite Hm, foldl_app.
  - rewrite <- Hu. destruct (pr_LT w <? last); scan_simpl; [by rewrite fmap_app|done].
  - intros v Hv.
    assert (v ∈ ss_updated s ∨ v = u ∧ pr_LT w < last) as [Hin|[-> Hlt]].
    { destruct (Z.ltb_spec (pr_LT w) last); [|by left].
      apply elem_of_app in Hv as [?|Hv]; [by left|right]. by apply list_elem_of_singleton in Hv. }
    + destruct (Hf v Hin) as (w' & ? & ?). exists w'. set_solver.
    + exists w. split; [set_solver|]. by unfold advances.
  - rewrite filter_snoc, decide_True, fmap_app, Hc; done.
  - done.
Qed.

Lemma scan_wallet_inv ctx pre w s tr :
  scan_inv pre s tr →
  wp (scan_wallet ctx w s)
     (λ tr out, match out with
                | Returned (Next s) => scan_inv (pre ++ [w]) s tr
                | Returned (Break s) => False
                | Returned (Return r) => writes tr = [] ∧ r ≠ None
                | Stopped e => False
                end) tr.
Proof.
  intros Hinv. unfold scan_wallet. wp_steps.
  - scan_simpl. split; [apply Hinv|]. apply Hx0, done_in_ctx_err. by destruct x.
  - apply scan_inv_skip; [done..|]. simpl. by destruct (IsUserFriendly _).
  - apply scan_inv_skip; [by apply scan_inv_ctx_err|done..|]. simpl.
    by destruct (IsUserFriendly _).
  - apply scan_inv_scanned; [by apply scan_inv_ctx_err|]. by destruct (IsUserFriendly _).
Qed.
(** What a published result says of the scans of the run. *)
Record wallets_result_ok (wallets : list Provider) tr (r : ScanWalletsResult) : Prop := {
  wr_calls : scan_calls tr =
    wallet_key <$> filter (λ w, IsUserFriendly (pr_Address w) = true) wallets;
  wr_contracts_nodup : NoDup (sc_Address <$> sw_Contracts r);
  wr_contracts c : c ∈ sw_Contracts r ↔ merged_ref (sc_Address c) (found_contracts tr) = Some c;
  wr_relations rel : rel ∈ sw_Relations r ↔
    ∃ c addr pk, c ∈ sw_Contracts r ∧ addr ∈ sc_Providers c ∧
      addr_to_pubkey wallets !! addr = Some pk ∧
      rel = mkRelation (sc_Address c) pk addr (sc_BagID c) (sc_Size c);
  wr_updated : wallet_key <$> sw_UpdatedWallets r = advanced_wallets tr;
  wr_updated_from u : u ∈ sw_UpdatedWallets r → ∃ w, w ∈ wallets ∧ advances w u }.

Lemma elem_of_contract_relations m c rel :
  rel ∈ contract_relations m c ↔
  ∃ addr pk, addr ∈ sc_Providers c ∧ m !! addr = Some pk ∧
    rel = mkRelation (sc_Address c) pk addr (sc_BagID c) (sc_Size c).
Proof.
  unfold contract_relations. rewrite list_elem_of_omap. split.
  - intros (addr & Ha & Hr). apply bind_Some in Hr as (pk & ? & [= <-]). eauto.
  - intros (addr & pk & Ha & Hl & ->). exists addr. by rewrite Hl.
Qed.

(** The keys visited by [range merged], in whatever order. *)
Lemma ranged_contracts (cs : list StorageContract) keys :
  let merged := foldl merge_contract ∅ cs in
  keys ≡ₚ (map_to_list merged).*1 →
  let contracts := omap (λ k, merged !! k) keys in
  sc_Address <$> contracts = keys ∧
  ∀ c, c ∈ contracts ↔ merged_ref (sc_Address c) cs = Some c.
Proof.
  intros merged Hkeys contracts.
  assert (∀ k, k ∈ keys ↔ is_Some (merged !! k)) as Hin.
  { intros k. rewrite Hkeys, list_elem_of_fmap. split.
    - intros ([k' c] & -> & Hc). apply elem_of_map_to_list in Hc. eauto.
    - intros [c Hc]. exists (k, c). by rewrite elem_of_map_to_list. }
  assert (∀ k c, merged !! k = Some c → sc_Address c = k) as Haddr.
  { intros k c Hk. eapply merged_ref_address. by rewrite <- merge_contracts_lookup. }
  split.
  - assert (Forall (λ k, is_Some (merged !! k)) keys) as HF
      by (apply Forall_forall; intros k; apply Hin).
    unfold contracts. clear -HF Haddr. induction HF as [|k ks [c Hk] _ IH]; [done|].
    csimpl. rewrite Hk. csimpl. by rewrite IH, (Haddr _ _ Hk).
  - intros c. unfold contracts. rewrite list_elem_of_omap, <- merge_contracts_lookup. fold merged.
    split.
    + intros (k & _ & Hk). by rewrite (Haddr _ _ Hk).
    + intros Hc. exists (sc_Address c). split; [|done]. apply Hin. eauto.
Qed.

Lemma scan_inv_result ctx wallets s tr keys :
  scan_inv wallets s tr → keys ≡ₚ (map_to_list (ss_merged s)).*1 →
  let contracts := omap (λ k, ss_merged s !! k) keys in
  wallets_result_ok wallets tr
    (mkScanWalletsResult contracts
       (c ← contracts; contract_relations (addr_to_pubkey wallets) c) (ss_updated s)).
Proof.
  intros [Hm Hu Hf Hc Hw] Hkeys contracts. rewrite Hm in Hkeys.
  destruct (ranged_contracts _ _ Hkeys) as [Hk Hcs]. rewrite <- Hm in Hcs, Hk. subst contracts.
  split; simpl; [done| |done| |done|done].
  - rewrite Hk, Hkeys. apply NoDup_fst_map_to_list.
  - intros rel. rewrite list_elem_of_bind. setoid_rewrite elem_of_contract_relations. naive_solver.
Qed.

Lemma scan_wallets_empty tr :
  scan_calls tr = [] → wallet_scans tr = [] →
  wallets_result_ok [] tr zeroScanWalletsResult.
Proof.
  intros Hc Hs.
  assert (found_contracts tr = [] ∧ advanced_wallets tr = []) as [Hf Ha]
      by (unfold found_contracts, advanced_wallets; by rewrite Hs).
  split; rewrite ?Hf, ?Ha; simpl; [done|constructor| | |done|].
  - intros c. by rewrite elem_of_nil.
  - intros rel. rewrite elem_of_nil. split; [done|]. by intros (? & ? & ? & ?%elem_of_nil & _).
  - intros u ?%elem_of_nil. done.
Qed.

(** Every run of scan_wallets publishes nothing and fails, or publishes one
    correct result; the LTs are stored only after a successful publication. *)
Definition scan_wallets_outcome ctx tr (out : outcome (option error)) : Prop :=
  (writes tr = [] ∧ ∃ e, out = Returned (Some e)) ∨
  ∃ wallets r err,
    answered (GetAllWallets ctx) (wallets, None) ∈ tr ∧ wallets_result_ok wallets tr r ∧
    out = Returned err ∧
    writes tr = WPublished (PScanWallets r) err ::
      (if bool_decide (err = None ∧ sw_UpdatedWallets r ≠ []) then [WWalletLTs (sw_UpdatedWallets r)]
       else []).

Lemma wallets_result_ok_ext wallets tr tr' r :
  scan_calls tr' = scan_calls tr → wallet_scans tr' = wallet_scans tr →
  wallets_result_ok wallets tr r → wallets_result_ok wallets tr' r.
Proof.
  intros Hc Hs [? ? ? ? ? ?].
  assert (found_contracts tr' = found_contracts tr ∧ advanced_wallets tr' = advanced_wallets tr)
    as [Hf Ha] by (unfold found_contracts, advanced_wallets; by rewrite Hs).
  split; rewrite ?Hc, ?Hf, ?Ha; done.
Qed.

(** After the loop: publishing, then the checkpoint if there is one. *)
Lemma scan_wallets_finish d ctx wallets s tr :
  answered (GetAllWallets ctx) (wallets, None) ∈ tr → scan_inv wallets s tr →
  wp (keys ← go (RangeKeys (map_to_list (ss_merged s)).*1);
      let contracts := omap (λ k, ss_merged s !! k) keys in
      let relations := c ← contracts; contract_relations (addr_to_pubkey wallets) c in
      let result := mkScanWalletsResult contracts relations (ss_updated s) in
      err ← call (PublishResult ctx (ScanWalletsStream d) (JobIDFrom ctx)
                    CycleScanWallets (PScanWallets result));
      iferr err ;;
      if (0 <? length (ss_updated s))%nat then
        _ ← call (UpdateLT ctx (ss_updated s)); mret None
      else mret None) (scan_wallets_outcome ctx) tr.
Proof.
  intros Hans Hinv. apply wp_go_bind. intros keys Hkeys.
  pose proof (scan_inv_result ctx _ _ _ _ Hinv Hkeys) as Hok. cbv zeta in *.
  pose proof (si_writes _ _ _ Hinv) as Hw.
  wp_steps; right; exists wallets; do 2 eexists;
    (split_and!; [rewrite !elem_of_app; tauto| |done|]).
  all: try (eapply wallets_result_ok_ext; [..|exact Hok]; unfold scan_calls, wallet_scans;
            rewrite ?omap_snoc; simpl; by rewrite ?app_nil_r).
  all: rewrite ?writes_snoc; simpl; rewrite ?app_nil_r, ?Hw; simpl.
  - done.
  - by destruct (ss_updated s).
  - by destruct (ss_updated s).
Qed.

Lemma scan_wallets_runs d ctx :
  every_run (CollectStorageContracts d ctx) (scan_wallets_outcome ctx).
Proof.
  apply every_run_wp. unfold CollectStorageContracts. wp_steps.
  - left. by eauto.
  - right. do 3 eexists. split_and!; [list_member|by apply scan_wallets_empty|done|].
    by rewrite bool_decide_eq_false_2 by naive_solver.
  - rename p into w. set (wallets := w :: _).
    apply (wp_range _ _ _ scan_inv (λ _ _, False)).
    + split; [done..|by intros u ?%elem_of_nil|done|done].
    + intros pre w' suf s tr Hw' _ Hinv. eapply wp_mono'; [by apply scan_wallet_inv|].
      intros tr' [[s'|s'|r]|e]; simpl; [done|done| |done].
      intros [Hwr Hr]. left. split; [done|]. destruct r; [by eauto|done].
    + intros s tr [more ->] [Hinv|[]]. apply scan_wallets_finish; [set_solver|done].
Qed.
End scan_wallets.

(** ** Properties of resolve_endpoints *)
Section resolve_endpoints.
Context `{Unicode}.
Implicit Types (d : Config) (ctx : Ctx) (tr : trace ports).

(** An endpoint the database knows is young when its age is below the TTL. *)
Definition young (ttl : Duration) (now : Time) (known : option ProviderEndpoint) : Prop :=
  if known is Some ep then Sub now (pe_UpdatedAt ep) < ttl else False.
#[export] Instance young_dec ttl now known : Decision (young ttl now known).
Proof. destruct known; simpl; apply _. Defined.
Lemma is_fresh_young ttl now known : is_fresh ttl now known = bool_decide (young ttl now known).
Proof.
  destruct known as [ep|]; simpl; [|done]. destruct (Z.ltb_spec (Sub now (pe_UpdatedAt ep)) ttl).
  - by rewrite bool_decide_eq_true_2.
  - rewrite bool_decide_eq_false_2; [done|]. simpl. lia.
Qed.

(** Where a resolved endpoint comes from: a provider with a well-formed
    32-byte key whose stored endpoint was stale, resolved by the DHT with an
    IP; its storage endpoint from the same answer or, when that has no IP,
    from the overlay. *)
Record resolved_ok d ctx (now : Time) (existing : gmap string ProviderEndpoint)
    (contracts : gmap string string) (bags : gmap string (list string)) tr
    (ep : ProviderEndpoint) : Prop := {
  ro_stale : ¬ young (EndpointTTL d) now (existing !! pe_PublicKey ep);
  ro_time : pe_UpdatedAt ep = now;
  ro_ip : ep_IP (pe_Provider ep) ≠ "";
  ro_from : ∃ pk ep0,
    DecodeString (pe_PublicKey ep) = (pk, None) ∧ strlen pk = 32 ∧
    answered (Resolve ctx pk (default "" (contracts !! pe_PublicKey ep))) (ep0, None) ∈ tr ∧
    pe_Provider ep = pe_Provider ep0 ∧
    (pe_Storage ep = pe_Storage ep0 ∨
     ep_IP (pe_Storage ep0) = "" ∧
     answered (ResolveStorageWithOverlay ctx (ep_IP (pe_Provider ep0))
                 (default [] (bags !! pe_PublicKey ep))) (pe_Storage ep, None) ∈ tr) }.

Lemma resolved_ok_more d ctx now ex cs bs tr more ep :
  resolved_ok d ctx now ex cs bs tr ep → resolved_ok d ctx now ex cs bs (tr ++ more) ep.
Proof.
  intros [? ? ? Hfrom]. destruct Hfrom as (pk & ep0 & ? & ? & ? & ? & Hs). split; [done..|].
  exists pk, ep0. split_and!; [done|done|rewrite elem_of_app; tauto|done|].
  rewrite elem_of_app. tauto.
Qed.

(** Why a stale provider is not among the endpoints: its key is malformed, or the
    DHT failed or found no IP. *)
Definition unresolved ctx (contracts : gmap string string) tr (pubkey : string) : Prop :=
  let (pk, err) := DecodeString pubkey in
  err ≠ None ∨ strlen pk ≠ 32 ∨
  ∃ ep rErr, answered (Resolve ctx pk (default "" (contracts !! pubkey))) (ep, rErr) ∈ tr ∧
    (rErr ≠ None ∨ ep_IP (pe_Provider ep) = "").

Lemma unresolved_more ctx cs tr more pubkey : unresolved ctx cs tr pubkey → unresolved ctx cs (tr ++ more) pubkey.
Proof.
  unfold unresolved. destruct (DecodeString pubkey) as [pk err]. intros [?|[?|(ep & e & Hin & ?)]]; [by left|by right; left|].
  right. right. exists ep, e. split; [apply elem_of_app; by left|done].
Qed.

Lemma unresolved_key ctx cs tr pubkey pk err :
  DecodeString pubkey = (pk, err) → negb (is_nil err) || negb (strlen pk =? 32) = true → unresolved ctx cs tr pubkey.
Proof.
  intros Hd Hbad. unfold unresolved. rewrite Hd. apply orb_true_iff in Hbad as [Hbad|Hbad]; [left; by destruct err|].
  right. left. by apply negb_true_iff, Z.eqb_neq in Hbad.
Qed.
Lemma unresolved_dht ctx cs tr pubkey pk err ep rErr :
  DecodeString pubkey = (pk, err) → answered (Resolve ctx pk (default "" (cs !! pubkey))) (ep, rErr) ∈ tr →
  rErr ≠ None ∨ ep_IP (pe_Provider ep) = "" → unresolved ctx cs tr pubkey.
Proof. intros Hd Hin Hno. unfold unresolved. rewrite Hd. right. right. by exists ep, rErr. Qed.

Record resolve_inv d ctx now ex cs bs (pre : list string) (s : resolve_state) tr : Prop := {
  ri_count : Z.of_nat (length (rs_resolved s)) + rs_skipped s + rs_failed s = Z.of_nat (length pre);
  ri_skipped : rs_skipped s =
    Z.of_nat (length (filter (λ pk, young (EndpointTTL d) now (ex !! pk)) pre));
  ri_keys : (pe_PublicKey <$> rs_resolved s) `sublist_of` pre;
  ri_resolved : ∀ ep, ep ∈ rs_resolved s → resolved_ok d ctx now ex cs bs tr ep;
  ri_failed : ∀ pk, pk ∈ pre → ¬ young (EndpointTTL d) now (ex !! pk) →
    pk ∈ pe_PublicKey <$> rs_resolved s ∨ unresolved ctx cs tr pk;
  ri_writes : writes tr = [] }.

Lemma resolve_inv_more d ctx now ex cs bs pre s tr ev :
  as_write ev = None →
  resolve_inv d ctx now ex cs bs pre s tr → resolve_inv d ctx now ex cs bs pre s (tr ++ [ev]).
Proof.
  intros Hev [? ? ? ? Hf Hw]. split; [done..| | |].
  - eauto using resolved_ok_more.
  - intros pk Hpk Hfresh. destruct (Hf pk Hpk Hfresh); [by left|right; by apply unresolved_more].
  - by rewrite writes_snoc, Hw, Hev.
Qed.

Lemma resolve_inv_skip d ctx now ex cs bs pre s tr pk :
  resolve_inv d ctx now ex cs bs pre s tr → young (EndpointTTL d) now (ex !! pk) →
  resolve_inv d ctx now ex cs bs (pre ++ [pk]) (rs_skip s) tr.
Proof.
  intros [Hc Hs ? ? Hfail ?] Hf. split; simpl; [rewrite length_app; simpl; lia| | |done| |done].
  - rewrite filter_snoc, decide_True, length_app by done. simpl. lia.
  - by apply sublist_inserts_r.
  - intros pk' [Hin| ->%list_elem_of_singleton]%elem_of_app Hf'; [by apply Hfail|done].
Qed.

Lemma resolve_inv_fail d ctx now ex cs bs pre s tr pk :
  resolve_inv d ctx now ex cs bs pre s tr → ¬ young (EndpointTTL d) now (ex !! pk) →
  unresolved ctx cs tr pk → resolve_inv d ctx now ex cs bs (pre ++ [pk]) (rs_fail s) tr.
Proof.
  intros [Hc Hs ? ? Hfail ?] Hf Hun. split; simpl; [rewrite length_app; simpl; lia| | |done| |done].
  - rewrite filter_snoc, decide_False by done. done.
  - by apply sublist_inserts_r.
  - intros pk' [Hin| ->%list_elem_of_singleton]%elem_of_app Hf'; [by apply Hfail|by right].
Qed.

Lemma resolve_inv_add d ctx now ex cs bs pre s tr ep :
  resolve_inv d ctx now ex cs bs pre s tr → resolved_ok d ctx now ex cs bs tr ep →
  resolve_inv d ctx now ex cs bs (pre ++ [pe_PublicKey ep])
    (mkResolveState (rs_resolved s ++ [ep]) (rs_skipped s) (rs_failed s)) tr.
Proof.
  intros [Hc Hs Hk Hr Hfail ?] Hok. split; simpl; [rewrite !length_app; simpl; lia| | | | |done].
  - rewrite filter_snoc, decide_False; [done|]. by apply Hok.
  - rewrite fmap_app. by apply sublist_app.
  - intros ep' [Hin|Hin]%elem_of_app; [by apply Hr|].
    by apply list_elem_of_singleton in Hin as ->.
  - rewrite fmap_app. intros pk' [Hin| ->%list_elem_of_singleton]%elem_of_app Hf'; [|left; set_solver].
    destruct (Hfail pk' Hin Hf'); [left; set_solver|by right].
Qed.

Lemma resolved_ok_intro d ctx now ex cs bs tr pubkey pk err (ep0 : ProviderEndpoint) st :
  ¬ young (EndpointTTL d) now (ex !! pubkey) →
  DecodeString pubkey = (pk, err) →
  negb (is_nil err) || negb (strlen pk =? 32) = false →
  bool_decide (ep_IP (pe_Provider ep0) = "") = false →
  answered (Resolve ctx pk (default "" (cs !! pubkey))) (ep0, None) ∈ tr →
  st = pe_Storage ep0 ∨
    ep_IP (pe_Storage ep0) = "" ∧
    answered (ResolveStorageWithOverlay ctx (ep_IP (pe_Provider ep0))
                (default [] (bs !! pubkey))) (st, None) ∈ tr →
  resolved_ok d ctx now ex cs bs tr (mkProviderEndpoint pubkey (pe_Provider ep0) st now).
Proof.
  intros Hf Hd Hlen Hip Hin Hst. apply orb_false_iff in Hlen as [Herr Hlen].
  destruct err; [done|]. apply bool_decide_eq_false in Hip.
  apply negb_false_iff, Z.eqb_eq in Hlen. split; [done..|].
  exists pk, ep0. by split_and!.
Qed.

Lemma resolve_one_inv d ctx now ex cs bs pre pk s tr :
  resolve_inv d ctx now ex cs bs pre s tr →
  wp (resolve_one d ctx now ex cs bs pk s)
     (λ tr out, match out with
                | Returned (Next s) => resolve_inv d ctx now ex cs bs (pre ++ [pk]) s tr
                | Returned (Break s) => False
                | Returned (Return r) => writes tr = [] ∧ r ≠ None
                | Stopped e => False
                end) tr.
Proof.
  intros Hinv. unfold resolve_one. rewrite is_fresh_young. wp_steps;
    repeat match goal with
    | Hy : bool_decide (young _ _ _) = true |- _ => apply bool_decide_eq_true in Hy
    | Hy : bool_decide (young _ _ _) = false |- _ => apply bool_decide_eq_false in Hy
    end.
  1: { rewrite !writes_snoc, (ri_writes _ _ _ _ _ _ _ _ _ Hinv). split; [done|].
       apply Hx0, done_in_ctx_err. by destruct x. }
  1: by apply resolve_inv_skip; [apply resolve_inv_more|].
  1-3: apply resolve_inv_fail; [by repeat apply resolve_inv_more|done|].
  1: by eapply unresolved_key.
  1: eapply unresolved_dht; [done|in_trace|left; by destruct o0].
  1: eapply unresolved_dht; [done|in_trace|right; by eapply bool_decide_eq_true].
  all: try (set (ep := mkProviderEndpoint _ _ _ _); apply (resolve_inv_add _ _ _ _ _ _ _ _ _ ep);
            [by repeat apply resolve_inv_more|]).
  all: destruct o0; [done|].
  all: eapply (resolved_ok_intro _ _ _ _ _ _ _ _ _ _ p); [done..|in_trace|].
  - by left.
  - right. destruct o1; [done|]. split; [by eapply bool_decide_eq_true|].
    in_trace.
  - by left.
Qed.

Lemma contract_by_pubkey_dom rels pk :
  is_Some (contract_by_pubkey rels !! pk) ↔ ∃ r, r ∈ rels ∧ cr_ProviderPubkey r = pk.
Proof.
  unfold contract_by_pubkey. induction rels as [|r rels IH] using rev_ind.
  - simpl. split; [by intros [? Hl]; rewrite lookup_empty in Hl|].
    by intros (? & ?%elem_of_nil & _).
  - rewrite foldl_snoc. setoid_rewrite elem_of_app. setoid_rewrite list_elem_of_singleton.
    set (m := foldl _ _ _) in *.
    destruct (m !! cr_ProviderPubkey r) eqn:Hm; [rewrite IH|rewrite lookup_insert].
    + split; [naive_solver|]. intros (r' & [?| ->] & <-); [by eauto|]. apply IH. by rewrite Hm.
    + case_decide as Heq; [subst; naive_solver|]. rewrite IH. naive_solver.
Qed.

(** What a published result says of the run: every provider with an active
    relation is counted once, as resolved, skipped or failed. *)
Definition resolve_result_ok d ctx tr (r : ResolveEndpointsResult) : Prop :=
  ∃ relations existing now keys,
    answered (GetActiveRelations ctx) (relations, None) ∈ tr ∧
    (relations ≠ [] → answered (LoadAll ctx) (existing, None) ∈ tr ∧ read_clock tr now) ∧
    NoDup keys ∧ (∀ pk, pk ∈ keys ↔ ∃ rel, rel ∈ relations ∧ cr_ProviderPubkey rel = pk) ∧
    Z.of_nat (length (re_Endpoints r)) + re_Skipped r + re_Failed r = Z.of_nat (length keys) ∧
    re_Skipped r = Z.of_nat (length
      (filter (λ pk, young (EndpointTTL d) now (existing !! pk)) keys)) ∧
    (pe_PublicKey <$> re_Endpoints r) `sublist_of` keys ∧
    (∀ pk, pk ∈ keys → ¬ young (EndpointTTL d) now (existing !! pk) →
       pk ∈ pe_PublicKey <$> re_Endpoints r ∨ unresolved ctx (contract_by_pubkey relations) tr pk) ∧
    ∀ ep, ep ∈ re_Endpoints r →
      resolved_ok d ctx now existing (contract_by_pubkey relations) (bags_by_pubkey relations) tr ep.

Definition resolve_outcome d ctx tr (out : outcome (option error)) : Prop :=
  (writes tr = [] ∧ ∃ e, out = Returned (Some e)) ∨
  ∃ r err, resolve_result_ok d ctx tr r ∧ out = Returned err ∧
           writes tr = [WPublished (PResolveEndpoints r) err].

Lemma resolve_result_intro d ctx relations existing now keys s tr more :
  answered (GetActiveRelations ctx) (relations, None) ∈ tr →
  answered (LoadAll ctx) (existing, None) ∈ tr → read_clock tr now →
  keys ≡ₚ (map_to_list (contract_by_pubkey relations)).*1 →
  resolve_inv d ctx now existing (contract_by_pubkey relations) (bags_by_pubkey relations) keys s tr →
  resolve_result_ok d ctx (tr ++ more)
    (mkResolveEndpointsResult (rs_resolved s) (rs_skipped s) (rs_failed s)).
Proof.
  intros Hrel Hex Hnow Hkeys [Hc Hs Hk Hr Hf _]. exists relations, existing, now, keys.
  split_and!; simpl; [set_solver|intros _; split; [set_solver|by apply read_clock_more]| | |done..| |eauto using resolved_ok_more].
  - rewrite Hkeys. apply NoDup_fst_map_to_list.
  - intros pk. rewrite Hkeys, <- contract_by_pubkey_dom, list_elem_of_fmap. split.
    + intros ([k c] & -> & Hin). apply elem_of_map_to_list in Hin. eauto.
    + intros [c Hin]. exists (pk, c). by rewrite elem_of_map_to_list.
  - intros pk Hpk Hst. destruct (Hf pk Hpk Hst); [by left|right; by apply unresolved_more].
Qed.

Lemma resolve_endpoints_runs d ctx :
  every_run (ResolveEndpoints d ctx) (resolve_outcome d ctx).
Proof.
  apply every_run_wp. unfold ResolveEndpoints. wp_steps.
  - left. by eauto.
  - right. do 2 eexists. split_and!; [|done|done]. exists [], ∅, 0, [].
    split_and!; [list_member|done|constructor| |done|done|done| |].
    + intros pk. rewrite elem_of_nil. split; [done|]. by intros (? & ?%elem_of_nil & _).
    + by intros pk ?%elem_of_nil.
    + intros ep ?%elem_of_nil. done.
  - left. by eauto.
  - rename l0 into rels, c into rel. set (relations := rel :: rels) in *. cbn in Hx2.
    eapply (wp_range _ _ _ (resolve_inv d ctx x g (contract_by_pubkey relations)
                              (bags_by_pubkey relations)) (λ _ _, False)).
    + split; [done|done|done|by intros u ?%elem_of_nil|by intros u ?%elem_of_nil|done].
    + intros pre pk suf s tr _ _ Hinv. eapply wp_mono'; [by apply resolve_one_inv|].
      intros tr' [[s'|s'|r]|e]; simpl; [done|done| |done].
      intros [Hwr Hr]. left. split; [done|]. destruct r; [by eauto|done].
    + intros s tr [more Htr] [Hinv|[]].
      assert (answered (GetActiveRelations ctx) (relations, None) ∈ tr) as Hans
        by (rewrite Htr; apply elem_of_app; left; list_member).
      assert (answered (LoadAll ctx) (g, None) ∈ tr) as Hex
        by (rewrite Htr; apply elem_of_app; left; list_member).
      assert (read_clock tr x) as Hnow
        by (rewrite Htr; apply read_clock_more; unfold read_clock; list_member).
      clear Htr.
      unfold seq_post, after. wp_steps; right; do 2 eexists.
      all: split_and!; [eapply resolve_result_intro; [exact Hans|exact Hex|exact Hnow|exact Hx2|exact Hinv]|done|].
      all: by rewrite writes_snoc, (ri_writes _ _ _ _ _ _ _ _ _ Hinv).
Qed.
End resolve_endpoints.

(** ** The guarantees of the three cycles *)
Section guarantees.
Context `{Unicode}.
Implicit Types (d : Config) (ctx : Ctx).

(** C8. scan_wallets stores the wallets' new LTs only after the result they
    belong to was published, stores them whenever there are any, and an
    error leaves no checkpoint behind. *)
Theorem CollectStorageContracts_checkpoint d ctx :
  every_run (CollectStorageContracts d ctx) (λ tr out,
    checkpoint_after_publish (writes tr) ∧
    (∀ us, WWalletLTs us ∈ writes tr ↔
       us ≠ [] ∧ ∃ r, WPublished (PScanWallets r) None ∈ writes tr ∧ sw_UpdatedWallets r = us) ∧
    ∃ err, out = Returned err ∧ ∀ e w, err = Some e → w ∈ writes tr → ∃ p, w = WPublished p (Some e)).
Proof.
  intros tr out [[-> [e ->]]|(ws & r & err & _ & _ & -> & ->)]%scan_wallets_runs.
  { split_and!; [by auto with agent|set_solver|]. exists (Some e). set_solver. }
  case_bool_decide as Hb; [destruct Hb as [-> Hne]|].
  - split_and!; [by auto with agent| |by exists None].
    intros us. split; intros Hus; trace_simpl; [done|eauto using list_elem_of_here|list_member].
  - split_and!; [by auto with agent| |].
    + intros us. split; intros Hus; trace_simpl. naive_solver.
    + exists err. split; [done|]. intros e w -> Hw. trace_simpl. by eexists.
Qed.

(** C18. What scan_wallets publishes: every wallet with a well-formed address
    was scanned from its stored LT; the contracts are those found, once per
    address, with the providers of all scans and the largest LT; the
    relations are exactly the pairs of a contract and a known provider
    address; the updated wallets are those whose scan advanced. *)
Theorem CollectStorageContracts_result d ctx :
  every_run (CollectStorageContracts d ctx) (λ tr out,
    ∀ p err, WPublished p err ∈ writes tr →
      out = Returned err ∧
      ∃ wallets r, p = PScanWallets r ∧
        answered (GetAllWallets ctx) (wallets, None) ∈ tr ∧ wallets_result_ok wallets tr r).
Proof.
  intros tr out [[-> _]|(ws & r & err & Hans & Hok & -> & ->)]%scan_wallets_runs p err'.
  - by intros ?%elem_of_nil.
  - case_bool_decide; intros Hp; trace_simpl; eauto 6.
Qed.

(** C27. resolve_endpoints publishes at most once, only the result of a complete
    pass: every provider with an active relation is counted exactly once as
    resolved, skipped or failed; the skipped ones are those whose endpoint in
    the database, as [LoadAll] answered it, is younger than the TTL at the time
    the clock was read; each endpoint published comes from an answer of the DHT
    for a stale provider with a 32-byte key and has an IP; and a stale provider
    that is not published has a malformed key, or the DHT answered its lookup
    with an error or without an IP. *)
Theorem ResolveEndpoints_accounting d ctx :
  every_run (ResolveEndpoints d ctx) (λ tr out,
    (∃ err, out = Returned err) ∧
    ∀ w, w ∈ writes tr →
      writes tr = [w] ∧
      ∃ r err, w = WPublished (PResolveEndpoints r) err ∧ out = Returned err ∧
               resolve_result_ok d ctx tr r).
Proof.
  intros tr out [[-> [e ->]]|(r & err & Hok & -> & ->)]%resolve_endpoints_runs.
  - split; [by eexists|]. intros w ?%elem_of_nil. done.
  - split; [by eexists|]. intros w ->%list_elem_of_singleton. eauto 6.
Qed.
End guarantees.

(** ** A concrete run of scan_wallets: two wallets share a contract. *)
Section example.
#[local] Existing Instance AsciiUnicode.

Definition ex_addr (c : string) : string := "EQ" +:+ of_bytes (replicate 45 "A"%char) +:+ c.
Definition ex_wallets : list Provider :=
  [mkProvider "p1" (ex_addr "1") 5 0; mkProvider "p2" (ex_addr "2") 7 0].
Definition ex_contract (lt : Z) (w : string) : StorageContract :=
  mkStorageContract "c" "bag" "owner" 10 1 lt [w].

Definition ex_answers (o : port) : port_ans o :=
  match o with
  | MasterScan _ _ _ => ([], 0, None)
  | WalletScan _ a _ => ([ex_contract (if bool_decide (a = ex_addr "1") then 6 else 9) a], 8, None)
  | Resolve _ _ _ => (zeroProviderEndpoint, None)
  | ResolveStorageWithOverlay _ _ _ => (zeroEndpoint, None)
  | GetAllPubkeys _ => ([], None)
  | GetAllWallets _ => (ex_wallets, None)
  | UpdateLT _ _ => None
  | GetActiveRelations _ => ([], None)
  | LoadAll _ => (∅, None)
  | LoadFresh _ _ _ => (zeroProviderEndpoint, false, None)
  | GetMasterWalletLT _ => (0, None)
  | SetMasterWalletLT _ _ => None
  | Probe _ _ => (zeroRates, false, None)
  | InspectProviders _ _ => ([], None)
  | Verify _ _ _ => (0, None)
  | GetIPInfo _ _ => (zeroIpInfo, None)
  | GetProvidersIPs _ => ([], None)
  | PublishResult _ _ _ _ _ => None
  end.

Example scan_wallets_run :
  let '(tr, out) := exec (calm (I:=ports) ex_answers)
                      (CollectStorageContracts (mkConfig "" 0 "" "" "") Background) tt in
  out = Returned None ∧
  writes tr =
    [WPublished (PScanWallets (mkScanWalletsResult
       [mkStorageContract "c" "bag" "owner" 10 1 9 [ex_addr "1"; ex_addr "2"]]
       [mkRelation "c" "p1" (ex_addr "1") "bag" 10; mkRelation "c" "p2" (ex_addr "2") "bag" 10]
       [mkProvider "p1" (ex_addr "1") 8 0; mkProvider "p2" (ex_addr "2") 8 0])) None;
     WWalletLTs [mkProvider "p1" (ex_addr "1") 8 0; mkProvider "p2" (ex_addr "2") 8 0]].
Proof. vm_compute. done. Qed.
End example.
