(* ===== verification/Poll.v ===== *)
(** [internal/usecase/poll]: the cycles [probe_rates], whose probes run
    concurrently, and [inspect_contracts].  Definitions first, in the order of
    poll.go; then what each cycle guarantees. *)

From S2P Require Import Prelude GoStd Effects Domain Pool Ports.

(** ** Configuration *)
Record Config := mkConfig {
  ProbeTimeout : Duration;
  MaxConcurrentProbe : Z;
  ProbeRatesStream : string;
  InspectContractsStream : string }.

(** [New] fills in the defaults; the rest of the constructor stores its
    arguments. *)
Definition New (cfg : Config) : Config :=
  mkConfig (if ProbeTimeout cfg <=? 0 then 14 * Second else ProbeTimeout cfg)
           (if MaxConcurrentProbe cfg <=? 0 then 30 else MaxConcurrentProbe cfg)
           (ProbeRatesStream cfg) (InspectContractsStream cfg).

(** ** probe_rates *)

(** The variables the goroutines share: [statuses] and [rateUpdates]. *)
Record rates_acc := mkRatesAcc {
  ra_statuses : list ProviderStatus;
  ra_rates : list ProviderRateUpdate }.

(** What a goroutine found out about its provider. *)
Record probed := mkProbed {
  pd_key : string;
  pd_rates : Rates;
  pd_online : bool;
  pd_now : Time }.

(** One iteration of the loop, up to the [go] statement. *)
Definition probe_handle (ctx : Ctx) (pubkey : string) : prog ports (verdict (string * string)) :=
  cerr ← go (CtxErr ctx);
  if negb (is_nil cerr) then mret BreakLoop
  else
    let (raw, dErr) := DecodeString pubkey in
    if negb (is_nil dErr) || negb (strlen raw =? 32) then mret Skip
    else mret (Launch (pubkey, raw)).

(** The goroutine, up to [mu.Lock()]. *)
Definition probe_body (p : Config) (ctx : Ctx) (job : string * string) : prog ports probed :=
  let (pubkey, raw) := job in
  '(rates, online, pErr) ← call (Probe (WithTimeout ctx (ProbeTimeout p)) raw);
  now ← go TimeNow;
  mret (mkProbed pubkey rates (online && is_nil pErr) now).

(** The critical section. *)
Definition probe_commit (a : probed) (s : rates_acc) : rates_acc :=
  mkRatesAcc
    (ra_statuses s ++ [mkProviderStatus (pd_key a) (pd_online a) (pd_now a)])
    (if pd_online a then ra_rates s ++ [mkProviderRateUpdate (pd_key a) (pd_rates a)]
     else ra_rates s).

Definition probe_spec (p : Config) (ctx : Ctx) : spec ports string (string * string) probed rates_acc :=
  {| sp_cap := Z.to_nat (MaxConcurrentProbe p);
     sp_main_acquires := true;
     sp_handle := probe_handle ctx;
     sp_body := probe_body p ctx;
     sp_commit := probe_commit |}.

(** Scheduling steps one provider can take. *)
Definition probe_steps (pubkey : string) : nat := 8.

Definition UpdateProviderRates (p : Config) (ctx : Ctx) : prog ports (option error) :=
  let op := "usecase.poll.UpdateProviderRates" in
  '(pubkeys, err) ← call (GetAllPubkeys ctx);
  iferr err ;;
  match pubkeys with
  | [] => call (PublishResult ctx (ProbeRatesStream p) (JobIDFrom ctx) CycleProbeRates
                  (PProbeRates zeroProbeRatesResult))
  | _ =>
      if MaxConcurrentProbe p <? 0 then Stop (Panic "makechan: size out of range")
      else
        acc ← pool (probe_spec p ctx) probe_steps pubkeys (mkRatesAcc [] []);
        cerr ← go (CtxErr ctx);
        if negb (is_nil cerr) then
          cerr ← go (CtxErr ctx); mret cerr
        else
          let result := mkProbeRatesResult (ra_statuses acc) (ra_rates acc) in
          err ← call (PublishResult ctx (ProbeRatesStream p) (JobIDFrom ctx) CycleProbeRates
                        (PProbeRates result));
          iferr (wrap op <$> err) ;;
          mret None
  end.

(** ** inspect_contracts *)

(** [tlb.MustFromTON(s).Nano()], of the tonutils library: an amount of TON in
    nanotons. *)
Class Tlb := MustFromTON : string → Z.

Section inspect.
Context `{Tlb}.

(** The bounty of one proof and the fee. *)
Definition low_balance_bounty (bagSize : Z) (provider : OnChainProvider) : Z :=
  let storageFee := MustFromTON "0.05" in
  let mul := oc_RatePerMBDay provider * bagSize * oc_MaxSpan provider in
  mul / (24 * 60 * 60 * 1024 * 1024) + storageFee.

Definition proof_deadline (provider : OnChainProvider) : Z :=
  wrap_i64 (wrap_i64 (Unix (oc_LastProofTime provider) + oc_MaxSpan provider) + 3600).

Definition isRemovedByLowBalance (bagSize : Z) (provider : OnChainProvider)
    (contract : ContractOnChainState) : prog ports bool :=
  let bounty := low_balance_bounty bagSize provider in
  if bounty <=? os_Balance contract then mret false
  else if Unix (oc_LastProofTime provider) <=? 0 then mret false
  else
    now ← go TimeNow;
    mret (proof_deadline provider <? Unix now).

Record contractInfo := mkContractInfo { ci_providers : gset string; ci_skip : bool }.

(** The loop over the providers of a contract: the set of the public keys
    that stay. *)
Definition inspect_provider (bagSize : Z) (s : ContractOnChainState) (prov : OnChainProvider)
    (set : gset string) : prog ports (flow (gset string) (option error)) :=
  let pubkey := EncodeToString (oc_Key prov) in
  removed ← isRemovedByLowBalance bagSize prov s;
  if removed : bool then mret (Next set) else mret (Next ({[pubkey]} ∪ set)).

Record inspect_acc := mkInspectAcc {
  ia_stateByAddr : gmap string contractInfo;
  ia_skipped : list string }.

Definition inspect_state (bagSizeByContract : gmap string Z) (s : ContractOnChainState)
    (acc : inspect_acc) : prog ports (flow inspect_acc (option error)) :=
  let bagSize := default 0 (bagSizeByContract !! os_Address s) in
  f ← range (os_Providers s) ∅ (inspect_provider bagSize s);
  match f with
  | Next set | Break set =>
      mret (Next (mkInspectAcc
        (<[os_Address s := mkContractInfo set (os_LiteServerError s)]> (ia_stateByAddr acc))
        (if os_LiteServerError s then ia_skipped acc ++ [os_Address s] else ia_skipped acc)))
  | Return r => mret (Return r)
  end.

(** The last loop: the rejected relations and the number of active ones. *)
Definition classify_relation (stateByAddr : gmap string contractInfo)
    (acc : list ContractProviderRelation * Z) (rel : ContractProviderRelation)
    : list ContractProviderRelation * Z :=
  let (rejected, active) := acc in
  match stateByAddr !! cr_ContractAddr rel with
  | None => (rejected ++ [rel], active)
  | Some info =>
      if ci_skip info then (rejected, active)
      else if decide (cr_ProviderPubkey rel ∈ ci_providers info) then (rejected, active + 1)
      else (rejected ++ [rel], active)
  end.

Definition UpdateRejectedContracts (p : Config) (ctx : Ctx) : prog ports (option error) :=
  let op := "usecase.poll.UpdateRejectedContracts" in
  '(relations, err) ← call (GetActiveRelations ctx);
  iferr err ;;
  match relations with
  | [] => call (PublishResult ctx (InspectContractsStream p) (JobIDFrom ctx) CycleInspectContracts
                  (PInspectContracts zeroInspectContractsResult))
  | _ =>
      let bagSizeByContract := foldl (λ m r, <[cr_ContractAddr r := cr_Size r]> m) ∅ relations in
      let uniqueAddrs : gset string := list_to_set (cr_ContractAddr <$> relations) in
      addrs ← go (RangeKeys (elements uniqueAddrs));
      '(states, err) ← call (InspectProviders ctx addrs);
      iferr err ;;
      f ← range states (mkInspectAcc ∅ []) (inspect_state bagSizeByContract);
      after f (λ acc,
        let '(rejected, _) := foldl (classify_relation (ia_stateByAddr acc)) ([], 0) relations in
        let result := mkInspectContractsResult rejected (ia_skipped acc) in
        err ← call (PublishResult ctx (InspectContractsStream p) (JobIDFrom ctx)
                      CycleInspectContracts (PInspectContracts result));
        iferr (wrap op <$> err) ;;
        mret None)
  end.
End inspect.

(** ** Properties of probe_rates *)

(** A public key the cycle can probe: 32 bytes in hexadecimal. *)
Definition valid_key (pubkey : string) : bool :=
  let (raw, dErr) := DecodeString pubkey in is_nil dErr && (strlen raw =? 32).

Section probe_rates.
Implicit Types (p : Config) (ctx : Ctx) (tr : trace ports).

(** [a] is what a probe of its own provider answered in this run. *)
Definition probe_observed p ctx tr (a : probed) : Prop :=
  ∃ raw rates online pErr,
    DecodeString (pd_key a) = (raw, None) ∧ strlen raw = 32 ∧
    answered (Probe (WithTimeout ctx (ProbeTimeout p)) raw) (rates, online, pErr) ∈ tr ∧
    pd_online a = (online && is_nil pErr) ∧ pd_rates a = rates ∧
    @Ev ports (Go TimeNow) (pd_now a) ∈ tr.

(** What a published result says: one status per valid key, and a rate
    exactly for those online, each from the provider's own probe. *)
Definition probe_result_ok p ctx tr (pubkeys : list string) (r : ProbeRatesResult) : Prop :=
  ∃ obs, pd_key <$> obs ≡ₚ filter (λ k, valid_key k = true) pubkeys ∧
    Forall (probe_observed p ctx tr) obs ∧
    pb_Statuses r = (λ a, mkProviderStatus (pd_key a) (pd_online a) (pd_now a)) <$> obs ∧
    pb_Rates r = omap (λ a, if pd_online a
                            then Some (mkProviderRateUpdate (pd_key a) (pd_rates a))
                            else None) obs.

Definition probe_outcome p ctx tr (out : outcome (option error)) : Prop :=
  (writes tr = [] ∧ ∃ e, out = Returned (Some e)) ∨
  ∃ pubkeys r perr, answered (GetAllPubkeys ctx) (pubkeys, None) ∈ tr ∧
    probe_result_ok p ctx tr pubkeys r ∧ writes tr = [WPublished (PProbeRates r) perr] ∧
    ∃ err, out = Returned err ∧ is_nil err = is_nil perr.

Definition probe_handled ctx (pubkey : string) (v : verdict (string * string)) tr : Prop :=
  match v with
  | BreakLoop => done_in ctx tr
  | Skip => valid_key pubkey = false
  | Launch (k, raw) => k = pubkey ∧ DecodeString k = (raw, None) ∧ strlen raw = 32
  end.
Definition probe_finished p ctx (job : string * string) (a : probed) tr : Prop :=
  pd_key a = job.1 ∧
  (DecodeString job.1 = (job.2, None) → strlen job.2 = 32 → probe_observed p ctx tr a).

Lemma probe_observed_more p ctx tr more a :
  probe_observed p ctx tr a → probe_observed p ctx (tr ++ more) a.
Proof.
  intros (raw & rates & online & pErr & ? & ? & ? & ? & ? & ?).
  exists raw, rates, online, pErr. rewrite !elem_of_app. tauto.
Qed.

Lemma probe_result_more p ctx tr more pubkeys r :
  probe_result_ok p ctx tr pubkeys r → probe_result_ok p ctx (tr ++ more) pubkeys r.
Proof.
  intros (obs & ? & Hobs & ? & ?). exists obs. split_and!; [done| |done|done].
  eapply Forall_impl; [done|]. intros a. apply probe_observed_more.
Qed.

(** The pool of probes meets the conditions of [pool_wp]. *)
Lemma probe_pool_ok p ctx :
  0 < MaxConcurrentProbe p →
  pool_ok (probe_spec p ctx) (probe_handled ctx) (probe_finished p ctx) 1 (λ _, 2%nat) probe_steps.
Proof.
  intros Hpos. split; cbn [sp_cap sp_handle sp_body sp_commit probe_spec]; try (unfold probe_steps; lia).
  - intros k [| |[k' raw]] tr more; simpl; [done|apply done_in_stable|done].
  - intros j a tr more [? Hobs]. split; [done|]. auto using probe_observed_more.
  - intros k tr. unfold probe_handle. apply rwp_go_bind. intros more x _.
    destruct (is_nil x) eqn:Hx; simpl.
    + destruct (DecodeString k) as [raw dErr] eqn:Hd.
      destruct (negb (is_nil dErr) || negb (strlen raw =? 32)) eqn:Hv;
        apply rwp_ret; intros more'; simpl.
      * unfold valid_key. rewrite Hd. by destruct (is_nil dErr), (strlen raw =? 32).
      * apply orb_false_iff in Hv as [He Hl]. destruct dErr; [done|].
        split_and!; [done|done|]. by apply negb_false_iff, Z.eqb_eq in Hl.
    + apply rwp_ret. intros more'. simpl. apply done_in_app. left. by apply done_in_ctx_err.
  - intros k. unfold probe_handle. intros x. simpl. by repeat case_match.
  - intros [k raw] tr. unfold probe_body. apply rwp_ext_bind. intros more [[rates online] pErr] _.
    apply rwp_go_bind. intros more' now _. apply rwp_ret. intros more''. split; [done|].
    simpl. intros Hd Hl. exists raw, rates, online, pErr. split_and!; try done; in_trace.
  - intros [k raw] [[rates online] pErr] now. done.
Qed.

Definition probe_job (k : string) : option (string * string) :=
  if valid_key k then Some (k, (DecodeString k).1) else None.

Lemma probe_jobs_keys ks : (omap probe_job ks).*1 = filter (λ k, valid_key k = true) ks.
Proof.
  induction ks as [|k ks IH]; [done|]. rewrite filter_cons. csimpl. unfold probe_job at 1.
  destruct (valid_key k); csimpl; by rewrite IH.
Qed.

Lemma probe_job_decoded k j :
  probe_job k = Some j → DecodeString j.1 = (j.2, None) ∧ strlen j.2 = 32.
Proof.
  unfold probe_job, valid_key. destruct (DecodeString k) as [raw [e|]] eqn:Hd; simpl; [done|].
  destruct (Z.eqb_spec (strlen raw) 32); [|done]. by intros [= <-].
Qed.

Lemma probe_fold_commit (obs : list probed) s :
  foldl (λ s a, probe_commit a s) s obs =
  mkRatesAcc
    (ra_statuses s ++ ((λ a, mkProviderStatus (pd_key a) (pd_online a) (pd_now a)) <$> obs))
    (ra_rates s ++ omap (λ a, if pd_online a
                              then Some (mkProviderRateUpdate (pd_key a) (pd_rates a))
                              else None) obs).
Proof.
  revert s. induction obs as [|a obs IH]; intros s; csimpl.
  - rewrite !app_nil_r. by destruct s.
  - rewrite IH. simpl. rewrite <- app_assoc. destruct (pd_online a); [|done].
    by rewrite <- app_assoc.
Qed.

Lemma foldl_fmap_snd {J A S} (f : A → S → S) (dn : list (J * A)) s :
  foldl (λ s ja, f ja.2 s) s dn = foldl (λ s a, f a s) s dn.*2.
Proof. revert s. induction dn as [|[j a] dn IH]; intros s; simpl; [done|apply IH]. Qed.

(** The joined pool holds a correct result, unless the context was done. *)
Lemma probe_pool_result p ctx tr pubkeys acc :
  ¬ done_in ctx tr →
  pool_result (probe_spec p ctx) (probe_handled ctx) (probe_finished p ctx) pubkeys
    (mkRatesAcc [] []) acc tr →
  probe_result_ok p ctx tr pubkeys (mkProbeRatesResult (ra_statuses acc) (ra_rates acc)).
Proof.
  intros Hnd Hres. apply (pool_result_all _ _ _ probe_job) in Hres as (dn & Hj & Hf & ->).
  - exists dn.*2. simpl. rewrite (foldl_fmap_snd probe_commit), probe_fold_commit. simpl.
    assert (pd_key <$> dn.*2 = dn.*1.*1) as Hkeys.
    { rewrite <- !list_fmap_compose. apply Forall_fmap_ext. eapply Forall_impl; [done|].
      intros [j a] [? _]. done. }
    split_and!; try done.
    + by rewrite Hkeys, Hj, probe_jobs_keys.
    + apply Forall_fmap, Forall_forall. intros [j a] Hin.
      destruct (proj1 (Forall_forall _ _) Hf _ Hin) as [_ Hobs]. simpl in *.
      assert (j ∈ omap probe_job pubkeys) as Hjin.
      { rewrite <- Hj. apply list_elem_of_fmap. by exists (j, a). }
      apply list_elem_of_omap in Hjin as (k & _ & Hk).
      apply probe_job_decoded in Hk as [? ?]. by apply Hobs.
  - done.
  - intros k [| |[k' raw]]; simpl.
    + unfold probe_job. by intros ->.
    + done.
    + intros (-> & Hd & Hl). unfold probe_job, valid_key. by rewrite Hd, Hl.
Qed.

(** The goroutines only probe. *)
Definition probe_only (o : fop ports) : Prop :=
  match o with Go _ | Ext (Probe _ _) => True | Ext _ => False end.

Lemma probe_pool_only p ctx pubkeys s0 :
  only probe_only (λ _, True) (pool (probe_spec p ctx) probe_steps pubkeys s0).
Proof.
  apply pool_only.
  - done.
  - intros k. simpl. split; [done|]. intros x. by repeat case_match.
  - intros [k raw]. simpl. split; [done|]. intros [[? ?] ?]. by split.
Qed.

Lemma probe_pool_writes p ctx pubkeys s0 :
  only no_write (λ _, True) (pool (probe_spec p ctx) probe_steps pubkeys s0).
Proof. eapply only_weaken; [apply probe_pool_only|]. by intros [g|[]] Ho x. Qed.

Lemma probe_rates_wp p ctx :
  wp (UpdateProviderRates (New p) ctx) (probe_outcome (New p) ctx) [].
Proof.
  assert (0 < MaxConcurrentProbe (New p)) as Hpos by (cbn [New MaxConcurrentProbe]; destruct (Z.leb_spec (MaxConcurrentProbe p) 0); lia).
  revert Hpos. generalize (New p). clear p. intros p Hpos.
  unfold UpdateProviderRates. wp_steps.
  - left. split; [done|]. by eexists.
  - right. exists [], zeroProbeRatesResult, x. split_and!; [list_member| |done|by eexists].
    exists []. by split_and!.
  - lia.
  - set (pubkeys := _ :: _) in *. apply wp_bind. eapply wp_mono'.
    { eapply only_wp; [apply probe_pool_writes|]. by eapply pool_wp, probe_pool_ok. }
    intros tr [acc|st] [Hres (more & Htr & Hmore)]; [|done]. simpl in Hres.
    assert (writes tr = []) as Hw by (by rewrite Htr, writes_app, (no_write_trace more)).
    assert (answered (GetAllPubkeys ctx) (pubkeys, None) ∈ tr) as Hans
      by (rewrite Htr; apply elem_of_app; left; list_member).
    clear Htr. unfold seq_post. wp_steps.
    1: { left. rewrite !writes_snoc, Hw. split; [done|].
      eapply ctx_err_again in Hx1 as [e ->]; [by exists e|by destruct x]. }
    all: right; exists pubkeys, (mkProbeRatesResult (ra_statuses acc) (ra_rates acc)), x0.
    all: split_and!; [rewrite !elem_of_app; tauto| |by rewrite !writes_snoc, Hw|].
    all: try (rewrite <- app_assoc; apply probe_result_more, probe_pool_result; [|done];
              eapply ctx_err_nil; [done|by destruct x]).
    all: eexists; split; [done|]; by destruct x0.
Qed.

(** C16. Every run of probe_rates returns: whatever the interleaving of the
    probes, nothing deadlocks or panics.  It fails having published nothing,
    or publishes once: exactly one status for every well-formed key, true to
    that key's own probe, and a rate update exactly for those online.  A
    context found done after the probes publishes nothing. *)
Theorem UpdateProviderRates_result p ctx :
  every_run (UpdateProviderRates (New p) ctx) (probe_outcome (New p) ctx).
Proof. apply every_run_wp, probe_rates_wp. Qed.
End probe_rates.

(** ** Properties of inspect_contracts *)
Section inspect_contracts.
Context `{Tlb}.
Implicit Types (p : Config) (ctx : Ctx) (tr : trace ports) (s : ContractOnChainState).

(** The judgement on a provider: removed when the balance does not pay for a
    proof, the provider has proved before, and the deadline has passed. *)
Definition removal_ok (bagSize : Z) s tr (prov : OnChainProvider) (removed : bool) : Prop :=
  if removed then
    os_Balance s < low_balance_bounty bagSize prov ∧ 0 < Unix (oc_LastProofTime prov) ∧
    ∃ now, @Ev ports (Go TimeNow) now ∈ tr ∧ proof_deadline prov < Unix now
  else
    low_balance_bounty bagSize prov <= os_Balance s ∨ Unix (oc_LastProofTime prov) <= 0 ∨
    ∃ now, @Ev ports (Go TimeNow) now ∈ tr ∧ Unix now <= proof_deadline prov.

(** The keys kept for a contract are those of its providers not removed. *)
Definition kept_ok (bagSize : Z) s tr (kept : gset string) : Prop :=
  ∃ removed, Forall2 (removal_ok bagSize s tr) (os_Providers s) removed ∧
    ∀ k, k ∈ kept ↔ ∃ prov, (prov, false) ∈ zip (os_Providers s) removed ∧
                            EncodeToString (oc_Key prov) = k.

(** The state that counts for an address is the last one reported. *)
Definition last_state (a : string) (states : list ContractOnChainState)
    : option ContractOnChainState :=
  last (filter (λ s, os_Address s = a) states).

Definition rejects (states : list ContractOnChainState) (kept : string → gset string)
    (rel : ContractProviderRelation) : bool :=
  match last_state (cr_ContractAddr rel) states with
  | None => true
  | Some s => negb (os_LiteServerError s) &&
              bool_decide (cr_ProviderPubkey rel ∉ kept (cr_ContractAddr rel))
  end.

Definition bag_sizes (relations : list ContractProviderRelation) : gmap string Z :=
  foldl (λ m r, <[cr_ContractAddr r := cr_Size r]> m) ∅ relations.

(** What a published result says. *)
Definition inspect_result_ok ctx tr (relations : list ContractProviderRelation)
    (r : InspectContractsResult) : Prop :=
  ∃ addrs states kept,
    NoDup addrs ∧ (∀ a, a ∈ addrs ↔ ∃ rel, rel ∈ relations ∧ cr_ContractAddr rel = a) ∧
    answered (InspectProviders ctx addrs) (states, None) ∈ tr ∧
    (∀ a s, last_state a states = Some s →
            kept_ok (default 0 (bag_sizes relations !! a)) s tr (kept a)) ∧
    ic_Skipped r = os_Address <$> filter (λ s, os_LiteServerError s = true) states ∧
    ic_Rejected r = filter (λ rel, rejects states kept rel = true) relations.

Definition inspect_outcome ctx tr (out : outcome (option error)) : Prop :=
  (writes tr = [] ∧ ∃ e, out = Returned (Some e)) ∨
  ∃ relations r perr, answered (GetActiveRelations ctx) (relations, None) ∈ tr ∧
    (if decide (relations = []) then r = zeroInspectContractsResult
     else inspect_result_ok ctx tr relations r) ∧
    writes tr = [WPublished (PInspectContracts r) perr] ∧
    ∃ err, out = Returned err ∧ is_nil err = is_nil perr.

Lemma removal_ok_more bag s tr more prov b :
  removal_ok bag s tr prov b → removal_ok bag s (tr ++ more) prov b.
Proof.
  unfold removal_ok. pose proof (λ ev, proj2 (elem_of_app tr more ev)).
  destruct b; naive_solver.
Qed.

Lemma kept_ok_more bag s tr more kept : kept_ok bag s tr kept → kept_ok bag s (tr ++ more) kept.
Proof.
  intros (removed & Hr & Hk). exists removed. split; [|done].
  eapply Forall2_impl; [done|]. intros. by apply removal_ok_more.
Qed.

Lemma isRemovedByLowBalance_wp bag s tr prov :
  wp (isRemovedByLowBalance bag prov s)
     (returns (λ b tr', removal_ok bag s tr' prov b ∧ writes tr' = writes tr)) tr.
Proof.
  unfold isRemovedByLowBalance. wp_steps; simpl.
  - split; [|done]. left. lia.
  - split; [|done]. right. left. lia.
  - rewrite writes_snoc, app_nil_r. split; [|done]. unfold removal_ok.
    destruct (Z.ltb_spec (proof_deadline prov) (Unix x)).
    + split_and!; [lia|lia|]. exists x. split; [in_trace|done].
    + right. right. exists x. split; [in_trace|done].
Qed.

(** C34. A provider is dropped for its contract's balance exactly when the
    balance is below the bounty plus the fee, it has a proof, and the clock is
    past the last proof by more than its span and an hour; the clock is read
    only when it matters, and the sum of the deadline does not overflow. *)
Theorem isRemovedByLowBalance_spec bag s prov :
  is_u32 (oc_MaxSpan prov) → Unix (oc_LastProofTime prov) < 2 ^ 62 →
  every_run (isRemovedByLowBalance bag prov s) (λ tr out, ∃ removed, out = Returned removed ∧
    (removed = true ↔
       os_Balance s < oc_RatePerMBDay prov * bag * oc_MaxSpan prov / 90596966400
                      + MustFromTON "0.05" ∧
       0 < Unix (oc_LastProofTime prov) ∧
       ∃ now, tr = [@Ev ports (Go TimeNow) now] ∧
              Unix (oc_LastProofTime prov) + oc_MaxSpan prov + 3600 < Unix now)).
Proof.
  intros Hspan Hlast. apply every_run_wp. unfold isRemovedByLowBalance, low_balance_bounty.
  change (24 * 60 * 60 * 1024 * 1024) with 90596966400. cbv zeta. wp_steps; eexists; (split; [done|]).
  - split; [done|]. lia.
  - split; [done|]. lia.
  - unfold is_u32, two32 in *.
    assert (proof_deadline prov = Unix (oc_LastProofTime prov) + oc_MaxSpan prov + 3600) as ->.
    { unfold proof_deadline. rewrite (wrap_i64_id (_ + oc_MaxSpan prov));
        [|unfold is_i64, two63; lia]. apply wrap_i64_id. unfold is_i64, two63. lia. }
    rewrite Z.ltb_lt. split.
    + intros. split_and!; [lia|lia|]. by exists x.
    + intros (_ & _ & now & Heq & ?). apply Ev_list_inj in Heq. by subst now.
Qed.

(** Judging the providers of one contract. *)
Definition keeps bag s tr (provs : list OnChainProvider) (set : gset string) : Prop :=
  ∃ removed, Forall2 (removal_ok bag s tr) provs removed ∧
    ∀ k, k ∈ set ↔ ∃ prov, (prov, false) ∈ zip provs removed ∧ EncodeToString (oc_Key prov) = k.

Lemma keeps_snoc bag s tr more provs set prov b :
  keeps bag s tr provs set → removal_ok bag s (tr ++ more) prov b →
  keeps bag s (tr ++ more) (provs ++ [prov])
    (if b then set else {[EncodeToString (oc_Key prov)]} ∪ set).
Proof.
  intros (removed & Hr & Hk) Hb. exists (removed ++ [b]).
  pose proof (Forall2_length _ _ _ Hr) as Hlen. split.
  - apply Forall2_app; [|by constructor]. eapply Forall2_impl; [done|].
    intros. by apply removal_ok_more.
  - intros k. rewrite zip_with_app by done. setoid_rewrite elem_of_app. simpl.
    setoid_rewrite list_elem_of_singleton.
    destruct b; [rewrite Hk|rewrite elem_of_union, elem_of_singleton, Hk]; naive_solver.
Qed.

Lemma inspect_providers_wp bag s tr :
  wp (range (os_Providers s) ∅ (inspect_provider bag s))
     (returns (λ f tr', ∃ set, f = Next set ∧ kept_ok bag s tr' set ∧ writes tr' = writes tr ∧
                               tr `prefix_of` tr')) tr.
Proof.
  apply (wp_range _ _ _ (λ pre set tr', keeps bag s tr' pre set ∧ writes tr' = writes tr)
                  (λ _ _, False)).
  - split; [|done]. exists []. split; [constructor|]. intros k. rewrite elem_of_empty.
    split; [done|]. by intros (? & ?%elem_of_nil & _).
  - intros pre prov suf set tr' _ _ [Hkeep Hw]. unfold inspect_provider. apply wp_bind.
    eapply wp_mono; [apply isRemovedByLowBalance_wp|].
    intros more [b|e]; simpl; [|done]. intros [Hrem Hw'].
    pose proof (keeps_snoc _ _ _ _ _ _ _ _ Hkeep Hrem) as Hk.
    destruct b; simpl; (split; [done|congruence]).
  - intros set tr' Hpre [[Hk Hw]|[]]. exists set. by split_and!.
Qed.

Record inspect_inv (bags : gmap string Z) (pre : list ContractOnChainState)
    (acc : inspect_acc) tr : Prop := {
  ii_state a : match last_state a pre with
               | None => ia_stateByAddr acc !! a = None
               | Some s => ∃ kept,
                   ia_stateByAddr acc !! a = Some (mkContractInfo kept (os_LiteServerError s)) ∧
                   kept_ok (default 0 (bags !! a)) s tr kept
               end;
  ii_skipped : ia_skipped acc = os_Address <$> filter (λ s, os_LiteServerError s = true) pre;
  ii_writes : writes tr = [] }.

Lemma last_state_snoc a pre s :
  last_state a (pre ++ [s]) = if decide (os_Address s = a) then Some s else last_state a pre.
Proof. unfold last_state. rewrite filter_snoc. case_decide; [apply last_snoc|done]. Qed.

Lemma inspect_state_wp bags pre s acc tr :
  inspect_inv bags pre acc tr →
  wp (inspect_state bags s acc)
     (returns (λ f tr', ∃ acc', f = Next acc' ∧ inspect_inv bags (pre ++ [s]) acc' tr')) tr.
Proof.
  intros [Hst Hsk Hw]. unfold inspect_state. apply wp_bind.
  eapply wp_mono'; [apply inspect_providers_wp|]. intros tr' [f|e]; simpl; [|done].
  intros (set & -> & Hkept & Hw' & [more ->]). eexists. split; [done|]. split; simpl.
  - intros a. rewrite last_state_snoc. case_decide as Ha.
    + subst a. exists set. by rewrite lookup_insert_eq.
    + rewrite lookup_insert_ne by done. specialize (Hst a).
      destruct (last_state a pre) as [s'|]; [|done]. destruct Hst as (kept & ? & ?).
      exists kept. eauto using kept_ok_more.
  - rewrite Hsk, filter_snoc. destruct (os_LiteServerError s); simpl; [by rewrite fmap_app|done].
  - congruence.
Qed.

(** The last loop is a filter. *)
Lemma classify_relations bags states acc tr rels kept :
  inspect_inv bags states acc tr →
  (∀ a s, last_state a states = Some s →
          ia_stateByAddr acc !! a = Some (mkContractInfo (kept a) (os_LiteServerError s))) →
  (foldl (classify_relation (ia_stateByAddr acc)) ([], 0) rels).1 =
  filter (λ rel, rejects states kept rel = true) rels.
Proof.
  intros [Hst _ _] Hkept. induction rels as [|rel rels IH] using rev_ind; [done|].
  rewrite foldl_snoc, filter_snoc, <- IH. destruct (foldl _ _ rels) as [rej act]. simpl.
  unfold classify_relation, rejects. specialize (Hst (cr_ContractAddr rel)).
  destruct (last_state (cr_ContractAddr rel) states) as [s|] eqn:Hl.
  - rewrite (Hkept _ _ Hl). simpl. destruct (os_LiteServerError s); [done|]. simpl.
    case_bool_decide; by repeat case_decide.
  - by rewrite Hst.
Qed.

Lemma inspect_inv_kept bags states acc tr :
  inspect_inv bags states acc tr →
  ∃ kept, ∀ a s, last_state a states = Some s →
    ia_stateByAddr acc !! a = Some (mkContractInfo (kept a) (os_LiteServerError s)) ∧
    kept_ok (default 0 (bags !! a)) s tr (kept a).
Proof.
  intros [Hst _ _].
  exists (λ a, default ∅ (ci_providers <$> ia_stateByAddr acc !! a)).
  intros a s Hl. specialize (Hst a). rewrite Hl in Hst. destruct Hst as (kept & -> & ?). done.
Qed.

Lemma inspect_contracts_wp p ctx :
  wp (UpdateRejectedContracts p ctx) (inspect_outcome ctx) [].
Proof.
  unfold UpdateRejectedContracts. wp_steps.
  - left. by eauto.
  - right. exists [], zeroInspectContractsResult, x.
    split_and!; [list_member|done|done|by eexists].
  - left. by eauto.
  - rename l0 into rels, c into rel. set (relations := rel :: rels) in *.
    rename x into addrs, l1 into states.
    change (addrs ≡ₚ elements (list_to_set (cr_ContractAddr <$> relations) : gset string)) in Hx0.
    eapply (wp_range _ _ _ (inspect_inv (bag_sizes relations)) (λ _ _, False)).
    + by split.
    + intros pre s suf acc tr _ _ Hinv. eapply wp_mono'; [by apply inspect_state_wp|].
      intros tr' [f|e]; [|done]. by intros (acc' & -> & ?).
    + intros acc tr [more Htr] [Hinv|[]].
      assert (answered (GetActiveRelations ctx) (relations, None) ∈ tr) as Hans
        by (rewrite Htr; apply elem_of_app; left; list_member).
      assert (answered (InspectProviders ctx addrs) (states, None) ∈ tr) as Hins
        by (rewrite Htr; apply elem_of_app; left; list_member).
      clear Htr. destruct (inspect_inv_kept _ _ _ _ Hinv) as [kept Hkept].
      assert (inspect_result_ok ctx tr relations
        (mkInspectContractsResult
           (foldl (classify_relation (ia_stateByAddr acc)) ([], 0) relations).1
           (ia_skipped acc))) as Hok.
      { exists addrs, states, kept. split_and!; [| |done| |apply Hinv|].
        - rewrite Hx0. apply NoDup_elements.
        - intros a. rewrite Hx0, elem_of_elements, elem_of_list_to_set, list_elem_of_fmap.
          naive_solver.
        - intros a s Hl. by apply Hkept.
        - eapply classify_relations; [done|]. intros a s Hl. by apply Hkept. }
      revert Hok. unfold seq_post, after. destruct (foldl _ _ relations) as [rejected active].
      cbn [fst]. intros Hok.
      wp_steps; right; exists relations; do 2 eexists; (split_and!;
        [rewrite elem_of_app; by left| |by rewrite writes_snoc, (ii_writes _ _ _ _ Hinv)|]).
      all: try (eexists; split; [done|]; by destruct x).
      all: rewrite decide_False by done.
      all: destruct Hok as (addrs' & states' & kept' & ? & ? & ? & ? & ? & ?).
      all: exists addrs', states', kept'; split_and!; try done; [by apply elem_of_app; left|].
      all: eauto using kept_ok_more.
Qed.

(** C17. Every run of inspect_contracts fails having published nothing, or
    publishes once.  It asks for every contract once; a relation is rejected
    exactly when no state came back for its contract, or the last state is
    no liteserver error and its provider is not among those kept there; the
    skipped contracts are those with a liteserver error. *)
Theorem UpdateRejectedContracts_result p ctx :
  every_run (UpdateRejectedContracts p ctx) (inspect_outcome ctx).
Proof. apply every_run_wp, inspect_contracts_wp. Qed.
End inspect_contracts.

(** A provider with half a gigabyte at 1000 nanotons per megabyte and day, its
    last proof one span ago, and a contract that is nearly empty. *)
Definition ex_TON : Tlb := λ _, 50000000.
Definition ex_provider : OnChainProvider := mkOnChainProvider "k" (1700000000 * Second) 1000 86400.
Definition ex_state : ContractOnChainState := mkOnChainState "c" 1000 [ex_provider] false.

Lemma isRemovedByLowBalance_witness :
  let _ := ex_TON in
  is_u32 (oc_MaxSpan ex_provider) ∧ Unix (oc_LastProofTime ex_provider) < 2 ^ 62 ∧
  every_run (isRemovedByLowBalance 536870912 ex_provider ex_state) (λ tr out,
    ∃ removed, out = Returned removed ∧
      (removed = true ↔
         1000 < 50512000 ∧ 0 < 1700000000 ∧
         ∃ now, tr = [@Ev ports (Go TimeNow) now] ∧ 1700090000 < Unix now)).
Proof.
  split; [vm_compute; split; congruence|]. split; [vm_compute; done|].
  exact (@isRemovedByLowBalance_spec ex_TON 536870912 ex_state ex_provider
           ltac:(vm_compute; split; congruence) ltac:(vm_compute; done)).
Defined.
