(* ===== verification/StorageProof.v ===== *)
(** [internal/usecase/proof]: the cycle [check_proofs].  One goroutine per
    provider verifies a sample of its bags and gives up after too many
    failures in a row. *)

From Stdlib Require Import Floats.SpecFloat.
From S2P Require Import Prelude GoStd Effects Rand Domain Pool Ports.

(** ** Configuration *)
Record Config := mkConfig {
  EndpointMaxAge : Duration;
  MaxConcurrentBags : Z;
  MaxBagsPerProvider : Z;
  BagsSamplePercent : Z;
  BetweenBagsCooldown : Duration;
  CheckProofsStream : string }.

Definition New (cfg : Config) : Config :=
  mkConfig (if EndpointMaxAge cfg <=? 0 then 1 * Hour else EndpointMaxAge cfg)
           (if MaxConcurrentBags cfg <=? 0 then 30 else MaxConcurrentBags cfg)
           (MaxBagsPerProvider cfg) (BagsSamplePercent cfg)
           (if BetweenBagsCooldown cfg <=? 0 then 500 * Millisecond else BetweenBagsCooldown cfg)
           (CheckProofsStream cfg).

(** ** Sampling *)

(** How many contracts of [n] are verified when there are too many. *)
Definition sample_limit (p : Config) (n : Z) : Z :=
  let limit := MaxBagsPerProvider p in
  if (0 <? BagsSamplePercent p) && (BagsSamplePercent p <? 100) then
    let calc := Z.quot (wrap_i64 (n * BagsSamplePercent p)) 100 in
    if (0 <? calc) && (calc <? limit) then calc else limit
  else limit.

Definition sampleContracts (p : Config) (contracts : list ContractProviderRelation)
    : prog ports (list ContractProviderRelation) :=
  let n := Z.of_nat (length contracts) in
  if (MaxBagsPerProvider p <=? 0) || (n <=? MaxBagsPerProvider p) then mret contracts
  else
    shuffled ← Shuffle (length contracts - 1) contracts;
    mret (take (Z.to_nat (sample_limit p n)) shuffled).

(** ** Verifying the sample *)
Definition fillReason (contracts : list ContractProviderRelation) (reason : ReasonCode)
    : prog ports (list ProofResult) :=
  now ← go TimeNow;
  mret ((λ c, mkProofResult (cr_ContractAddr c) (cr_ProviderAddress c) reason now) <$> contracts).

(** [uint32(float32(n) * 0.20)] in IEEE binary32; the constant is rounded to
    13421773 / 2^26 when it is converted. *)
Definition float32_of (n : Z) : spec_float := binary_normalize 24 128 n 0 false.
Definition float32_0_20 : spec_float := S754_finite false 13421773 (-26).
Definition uint32_of_float (f : spec_float) : Z :=
  match f with
  | S754_finite false m e => Z.shiftl (Z.pos m) e
  | _ => 0
  end.
Definition maxFailureThreshold (n : Z) : Z :=
  uint32_of_float (SFmul 24 128 (float32_of n) float32_0_20).

Record check_state := mkCheckState {
  ck_results : list ProofResult;
  ck_failsInARow : Z }.

Definition check_one (p : Config) (ctx : Ctx) (ep : ProviderEndpoint) (now : Time) (threshold : Z)
    (sc : ContractProviderRelation) (s : check_state)
    : prog ports (flow check_state (list ProofResult)) :=
  cerr ← go (CtxErr ctx);
  if negb (is_nil cerr) then mret (Return (ck_results s))
  else if (0 <? threshold) && (threshold <? ck_failsInARow s) then
    mret (Next (mkCheckState
      (ck_results s ++ [mkProofResult (cr_ContractAddr sc) (cr_ProviderAddress sc)
                          UnavailableProvider now])
      (ck_failsInARow s)))
  else
    '(reason, _) ← call (Verify ctx ep (cr_BagID sc));   (* an error is only logged *)
    checkedAt ← go TimeNow;
    let results := ck_results s ++
      [mkProofResult (cr_ContractAddr sc) (cr_ProviderAddress sc) reason checkedAt] in
    let failsInARow := if reason =? ValidStorageProof then 0 else wrap_u32 (ck_failsInARow s + 1) in
    if 0 <? BetweenBagsCooldown p then
      done ← go (SelectDone ctx (BetweenBagsCooldown p));
      if done : bool then mret (Return results) else mret (Next (mkCheckState results failsInARow))
    else mret (Next (mkCheckState results failsInARow)).

Definition checkProvider (p : Config) (ctx : Ctx) (pubkey : string)
    (contracts : list ContractProviderRelation) : prog ports (list ProofResult) :=
  '(ep, ok, err) ← call (LoadFresh ctx pubkey (EndpointMaxAge p));
  if negb (is_nil err) then fillReason contracts IPNotFound
  else if negb ok || bool_decide (ep_IP (pe_Storage ep) = "") then fillReason contracts IPNotFound
  else
    sample ← sampleContracts p contracts;
    now ← go TimeNow;
    let threshold := maxFailureThreshold (Z.of_nat (length sample)) in
    f ← range sample (mkCheckState [] 0) (check_one p ctx ep now threshold);
    after f (λ s, mret (ck_results s)).

(** ** The cycle *)
Definition by_provider (relations : list ContractProviderRelation)
    : gmap string (list ContractProviderRelation) :=
  foldl (λ m r, <[cr_ProviderPubkey r := default [] (m !! cr_ProviderPubkey r) ++ [r]]> m) ∅ relations.

Abbreviation proof_job := (string * list ContractProviderRelation)%type.

Definition proof_handle (ctx : Ctx) (job : proof_job) : prog ports (verdict proof_job) :=
  cerr ← go (CtxErr ctx);
  if negb (is_nil cerr) then mret BreakLoop else mret (Launch job).

(** The [results] the goroutines share, under [mu]. *)
Definition proof_spec (p : Config) (ctx : Ctx)
    : spec ports proof_job proof_job (list ProofResult) (list ProofResult) :=
  {| sp_cap := Z.to_nat (MaxConcurrentBags p);
     sp_main_acquires := true;
     sp_handle := proof_handle ctx;
     sp_body := λ job, checkProvider p ctx job.1 job.2;
     sp_commit := λ rs results, results ++ rs |}.

(** Operations of a provider with [n] contracts, and its scheduling steps. *)
Definition proof_depth (job : proof_job) : nat := 5 * length job.2 + 2.
Definition proof_steps (job : proof_job) : nat := 6 + proof_depth job.

Definition CheckStorageProofs (p : Config) (ctx : Ctx) : prog ports (option error) :=
  let op := "usecase.proof.CheckStorageProofs" in
  '(relations, err) ← call (GetActiveRelations ctx);
  iferr err ;;
  match relations with
  | [] => call (PublishResult ctx (CheckProofsStream p) (JobIDFrom ctx) CycleCheckProofs
                  (PCheckProofs zeroCheckProofsResult))
  | _ =>
      let byProvider := by_provider relations in
      if MaxConcurrentBags p <? 0 then Stop (Panic "makechan: size out of range")
      else
        pubkeys ← go (RangeKeys (map_to_list byProvider).*1);
        let jobs := omap (λ k, contracts ← byProvider !! k; Some (k, contracts)) pubkeys in
        results ← pool (proof_spec p ctx) proof_steps jobs [];
        cerr ← go (CtxErr ctx);
        if negb (is_nil cerr) then
          cerr ← go (CtxErr ctx); mret cerr
        else
          err ← call (PublishResult ctx (CheckProofsStream p) (JobIDFrom ctx) CycleCheckProofs
                        (PCheckProofs (mkCheckProofsResult results)));
          iferr (wrap op <$> err) ;;
          mret None
  end.

(** ** The threshold *)
Example threshold_small :
  maxFailureThreshold <$> [0; 4; 5; 9; 10; 99; 1000] = [0; 0; 1; 1; 2; 19; 200].
Proof. vm_compute. done. Qed.

Definition thresholds_to (n : nat) : bool :=
  forallb (λ i, maxFailureThreshold (Z.of_nat i) =? Z.of_nat i / 5) (seq 0 n).
Lemma thresholds_to_spec n i :
  thresholds_to n = true → 0 <= i < Z.of_nat n → maxFailureThreshold i = i / 5.
Proof.
  unfold thresholds_to. rewrite forallb_forall. intros Ht Hi. specialize (Ht (Z.to_nat i)).
  rewrite in_seq, Z2Nat.id in Ht by lia. apply Z.eqb_eq, Ht. lia.
Qed.
Lemma threshold_table : thresholds_to 2049 = true.
Proof. vm_cast_no_check (eq_refl true). Qed.

(** ** Sampling is fair: a sub-multiset of the contracts, of the right size *)
Section sampling.
Implicit Types (p : Config) (l : list ContractProviderRelation) (tr : trace ports).

(** The size of the sample of [n] contracts. *)
Definition sample_size p (n : Z) : Z :=
  if (MaxBagsPerProvider p <=? 0) || (n <=? MaxBagsPerProvider p) then n else sample_limit p n.

Lemma sample_size_bounds p n : 0 <= n → 0 <= sample_size p n <= n.
Proof.
  unfold sample_size, sample_limit. intros.
  destruct (_ || _) eqn:E; [lia|]. apply orb_false_iff in E as [? ?].
  destruct (_ && _); [|lia]. destruct (_ && _) eqn:E2; lia.
Qed.

Lemma sampleContracts_rwp p l tr :
  rwp (sampleContracts p l)
      (returns (λ s _, s ⊆+ l ∧ Z.of_nat (length s) = sample_size p (Z.of_nat (length l)))) tr.
Proof.
  pose proof (sample_size_bounds p (Z.of_nat (length l)) ltac:(lia)) as Hb.
  unfold sampleContracts, sample_size in *. destruct (_ || _); [by intros more|].
  eapply rwp_bind_returns; [apply Shuffle_rwp|]. intros l' tr' Hl. apply rwp_ret. intros more.
  split; [by trans l'; [apply take_submseteq|apply Permutation_submseteq]|].
  rewrite length_take, (Permutation_length Hl). lia.
Qed.

Lemma sampleContracts_depth p l : depth_le (length l) (sampleContracts p l).
Proof.
  unfold sampleContracts. destruct (_ || _); [done|].
  eapply (depth_le_mono (length l - 1 + 0)); [lia|].
  apply depth_le_bind; [apply Shuffle_depth|done].
Qed.
End sampling.

(** ** The breaker *)

(** Consecutive failures at the end of a list of answers, as the code counts
    them. *)
Definition count_fail (fails : Z) (r : ReasonCode) : Z :=
  if r =? ValidStorageProof then 0 else wrap_u32 (fails + 1).
Definition streak (answers : list ReasonCode) : Z := foldl count_fail 0 answers.

Lemma streak_snoc answers r : streak (answers ++ [r]) = count_fail (streak answers) r.
Proof. apply foldl_snoc. Qed.

(** A streak of more than [n] is at least that many failures in a row. *)
Lemma streak_trailing answers n :
  Z.of_nat n <= streak answers →
  ∃ before failed, answers = before ++ failed ∧ length failed = n ∧
                   Forall (λ r, r ≠ ValidStorageProof) failed.
Proof.
  revert n. induction answers as [|r answers IH] using rev_ind; intros n Hn.
  - exists [], []. unfold streak in Hn. simpl in Hn. assert (n = 0%nat) as -> by lia. done.
  - rewrite streak_snoc in Hn. unfold count_fail in Hn. destruct n as [|n].
    { exists (answers ++ [r]), []. by rewrite app_nil_r. }
    destruct (Z.eqb_spec r ValidStorageProof) as [|Hr]; [lia|].
    assert (Z.of_nat n <= streak answers) as Hn'.
    { unfold wrap_u32 in Hn. destruct (Z.le_gt_cases 0 (streak answers)).
      - pose proof (Z.mod_le (streak answers + 1) two32). unfold two32 in *. lia.
      - exfalso. clear -H. assert (0 <= streak answers); [|lia]. clear H.
        induction answers as [|r answers IH] using rev_ind; [done|].
        rewrite streak_snoc. unfold count_fail. case_match; [done|].
        unfold wrap_u32, two32. apply Z.mod_pos_bound. done. }
    destruct (IH n Hn') as (before & failed & -> & Hlen & HF).
    exists before, (failed ++ [r]). rewrite app_assoc, length_app, Hlen. simpl.
    split_and!; [done|lia|]. apply Forall_app. split; [done|by constructor].
Qed.

Section check_provider.
Implicit Types (p : Config) (ctx : Ctx) (l : list ContractProviderRelation) (tr : trace ports)
  (ep : ProviderEndpoint).

Definition same_contract (c : ContractProviderRelation) (r : ProofResult) : Prop :=
  pf_ContractAddr r = cr_ContractAddr c ∧ pf_ProviderAddr r = cr_ProviderAddress c.

(** The results for the contracts [l], in order: the first ones are what
    [Verify] answered for their bags; the others were not asked for and are
    [UnavailableProvider], which happens only after more than [threshold]
    failures in a row; and it happens as soon as that is the case. *)
Record checked_ok ctx ep (threshold : Z) l (rs : list ProofResult)
    (answers : list ReasonCode) tr : Prop := {
  co_contracts : Forall2 same_contract l rs;
  co_reasons : pf_Reason <$> rs =
    answers ++ replicate (length l - length answers) UnavailableProvider;
  co_asked : Forall2 (λ c r, ∃ e, answered (Verify ctx ep (cr_BagID c)) (r, e) ∈ tr)
    (take (length answers) l) answers;
  co_tripped : (length answers < length l)%nat → 0 < threshold ∧ threshold < streak answers;
  co_not_before i : (i < length answers)%nat →
    threshold <= 0 ∨ streak (take i answers) <= threshold;
  co_times : Forall (λ r, read_clock tr (pf_CheckedAt r)) rs }.

Lemma checked_ok_more ctx ep thr l rs answers tr more :
  checked_ok ctx ep thr l rs answers tr → checked_ok ctx ep thr l rs answers (tr ++ more).
Proof.
  intros [? ? Ha ? ? Hts]. split; [done..| |done|done|].
  - eapply Forall2_impl; [done|]. intros c r [e ?]. exists e. apply elem_of_app. by left.
  - eapply Forall_impl; [done|]. intros r. apply read_clock_more.
Qed.

Lemma checked_ok_length ctx ep thr l rs answers tr :
  checked_ok ctx ep thr l rs answers tr → (length answers <= length l)%nat.
Proof.
  intros [_ _ Ha _ _ _]. apply Forall2_length in Ha. rewrite length_take in Ha. lia.
Qed.

(** The breaker has tripped: the contract is not asked for. *)
Lemma checked_ok_skip ctx ep thr l rs answers tr c now :
  checked_ok ctx ep thr l rs answers tr → 0 < thr → thr < streak answers → read_clock tr now →
  checked_ok ctx ep thr (l ++ [c])
    (rs ++ [mkProofResult (cr_ContractAddr c) (cr_ProviderAddress c) UnavailableProvider now])
    answers tr.
Proof.
  intros Hok Hthr Hstr Hnow. pose proof (checked_ok_length _ _ _ _ _ _ _ Hok) as Hlen.
  destruct Hok as [Hc Hr Ha Ht Hn Hts]. split.
  - apply Forall2_app; [done|]. by repeat constructor.
  - rewrite fmap_app, Hr, length_app, <- app_assoc. simpl.
    replace (length l + 1 - length answers)%nat with (length l - length answers + 1)%nat by lia.
    by rewrite replicate_add.
  - by rewrite take_app_le.
  - done.
  - done.
  - apply Forall_app. split; [done|by constructor].
Qed.

(** It has not: the contract's bag is verified. *)
Lemma checked_ok_ask ctx ep thr l rs answers tr c r e now :
  checked_ok ctx ep thr l rs answers tr →
  (thr <= 0 ∨ streak answers <= thr) →
  answered (Verify ctx ep (cr_BagID c)) (r, e) ∈ tr → read_clock tr now →
  checked_ok ctx ep thr (l ++ [c])
    (rs ++ [mkProofResult (cr_ContractAddr c) (cr_ProviderAddress c) r now])
    (answers ++ [r]) tr.
Proof.
  intros Hok Hthr Hin Hnow. pose proof (checked_ok_length _ _ _ _ _ _ _ Hok) as Hlen.
  destruct Hok as [Hc Hr Ha Ht Hn Hts].
  assert (length answers = length l) as Heq.
  { destruct (decide (length answers < length l)%nat) as [Hlt|]; [|lia].
    destruct (Ht Hlt). lia. }
  split.
  - apply Forall2_app; [done|]. by repeat constructor.
  - rewrite fmap_app, Hr, !length_app, Heq, Nat.sub_diag, Nat.sub_diag. simpl. by rewrite !app_nil_r.
  - rewrite length_app. simpl. rewrite take_ge by (rewrite length_app; simpl; lia).
    rewrite take_ge in Ha by lia. apply Forall2_app; [done|]. constructor; [|done]. by exists e.
  - rewrite !length_app. simpl. lia.
  - intros i. rewrite length_app. simpl. intros Hi.
    destruct (decide (i < length answers)%nat) as [Hlt|].
    + rewrite take_app_le by lia. by apply Hn.
    + assert (i = length answers) as -> by lia. by rewrite take_app_length.
  - apply Forall_app. split; [done|by constructor].
Qed.

(** The results of a provider whose endpoint is known: those of a prefix of
    the sample, of all of it unless the context was done. *)
Definition sample_checked ctx ep l (rs : list ProofResult) tr : Prop :=
  ∃ pre suf answers, l = pre ++ suf ∧ (suf = [] ∨ done_in ctx tr) ∧
    checked_ok ctx ep (maxFailureThreshold (Z.of_nat (length l))) pre rs answers tr.

Lemma sample_checked_more ctx ep l rs tr more :
  sample_checked ctx ep l rs tr → sample_checked ctx ep l rs (tr ++ more).
Proof.
  intros (pre & suf & answers & ? & ? & ?). exists pre, suf, answers.
  rewrite done_in_app. split_and!; [done|naive_solver|by apply checked_ok_more].
Qed.

Definition check_inv ctx ep thr l (s : check_state) tr : Prop :=
  ∃ answers, checked_ok ctx ep thr l (ck_results s) answers tr ∧ ck_failsInARow s = streak answers.

Lemma check_inv_more ctx ep thr l s tr more :
  check_inv ctx ep thr l s tr → check_inv ctx ep thr l s (tr ++ more).
Proof. intros (answers & ? & ?). exists answers. split; [by apply checked_ok_more|done]. Qed.

(** An early return: the context was done after the contracts [l']. *)
Definition check_stopped ctx ep thr l l' (rs : list ProofResult) tr : Prop :=
  done_in ctx tr ∧ ∃ answers, l' `prefix_of` l ∧ checked_ok ctx ep thr l' rs answers tr.

Lemma check_one_rwp p ctx ep now thr pre sc suf s tr :
  check_inv ctx ep thr pre s tr → read_clock tr now →
  rwp (check_one p ctx ep now thr sc s)
      (returns (λ f tr, match f with
                        | Next s => check_inv ctx ep thr (pre ++ [sc]) s tr
                        | Break s => False
                        | Return rs => ∃ l', check_stopped ctx ep thr (pre ++ sc :: suf) l' rs tr
                        end)) tr.
Proof.
  intros (answers & Hok & Hfails) Hnow. unfold check_one.
  apply rwp_go_bind. intros more x Hx. destruct (negb (is_nil x)) eqn:Hnil.
  { apply rwp_ret. intros more'. exists pre. split.
    - apply done_in_app. left. apply done_in_ctx_err. by destruct x.
    - exists answers. split; [by eexists|]. rewrite <- !app_assoc. by apply checked_ok_more. }
  set (tr1 := (tr ++ more) ++ _).
  assert (checked_ok ctx ep thr pre (ck_results s) answers tr1) as Hok1
      by (unfold tr1; rewrite <- app_assoc; by apply checked_ok_more).
  assert (read_clock tr1 now) as Hnow1 by (unfold tr1; rewrite <- app_assoc; by apply read_clock_more).
  clearbody tr1. clear Hok Hnow. destruct ((0 <? thr) && (thr <? ck_failsInARow s)) eqn:Htrip.
  { apply andb_true_iff in Htrip as [? ?]. apply rwp_ret. intros more'. exists answers.
    split; [|done]. simpl. apply checked_ok_more, checked_ok_skip; [done|lia|lia|done]. }
  apply rwp_ext_bind. intros more2 [reason verr] _. apply rwp_go_bind. intros more3 now' _.
  set (rs := ck_results s ++ _). set (fails := if reason =? ValidStorageProof then 0 else _).
  set (ev := answered (Verify ctx ep (cr_BagID sc)) (reason, verr)).
  set (tr2 := (_ ++ more3) ++ _).
  assert (checked_ok ctx ep thr (pre ++ [sc]) rs (answers ++ [reason]) tr2 ∧
          fails = streak (answers ++ [reason])) as [Hok2 Hf2].
  { split; [|by rewrite streak_snoc, <- Hfails].
    apply (checked_ok_ask _ _ _ _ _ _ _ _ _ verr).
    - unfold tr2. rewrite <- !app_assoc. by apply checked_ok_more.
    - apply andb_false_iff in Htrip as [?|?]; lia.
    - unfold tr2. in_trace.
    - unfold read_clock, tr2. in_trace. }
  clearbody tr2. destruct (0 <? BetweenBagsCooldown p); rwp_steps; intros more4.
  - exists (pre ++ [sc]). split.
    + apply done_in_app. left. apply done_in_app. right. by apply Exists_cons_hd.
    + exists (answers ++ [reason]). split; [by exists suf; rewrite <- app_assoc|].
      rewrite <- !app_assoc. by apply checked_ok_more.
  - exists (answers ++ [reason]). split; [|done]. simpl. rewrite <- !app_assoc. by apply checked_ok_more.
  - exists (answers ++ [reason]). split; [|done]. by apply checked_ok_more.
Qed.

Lemma sample_loop_rwp p ctx ep now l tr :
  read_clock tr now →
  rwp (range l (mkCheckState [] 0) (check_one p ctx ep now (maxFailureThreshold (Z.of_nat (length l)))))
      (returns (λ f tr, match f with
                        | Next s => sample_checked ctx ep l (ck_results s) tr
                        | Break s => False
                        | Return rs => sample_checked ctx ep l rs tr
                        end)) tr.
Proof.
  intros Hnow. set (thr := maxFailureThreshold _).
  apply rwp_range with (Inv := λ pre s tr, check_inv ctx ep thr pre s tr ∧ read_clock tr now).
  - intros pre s tr' more [? ?]. split; [by apply check_inv_more|by apply read_clock_more].
  - intros [s|s|rs] tr' more; [apply sample_checked_more|done|apply sample_checked_more].
  - split; [|done]. exists []. split; [|done]. split; simpl; try done; intros; lia.
  - intros pre sc suf s tr' Hl [Hinv Hnow']. rewrite Hl. eapply rwp_mono.
    { apply (rwp_frame (λ tr, read_clock tr now)); [apply stable_elem|done|].
      by apply check_one_rwp with (suf := suf). }
    intros tr2 [[s'|s'|rs]|e]; simpl; [tauto..| |tauto]. intros [_ Hs]. revert Hs.
    intros (l' & Hd & answers & [suf' Hsuf] & Hok). exists l', suf', answers. rewrite <- Hl.
    split_and!; [congruence|by right|done].
  - intros s tr' [(answers & Hok & _) _]. exists l, [], answers. rewrite app_nil_r.
    split_and!; [done|by left|done].
Qed.

(** What a goroutine returns for its provider: [IPNotFound] for every contract
    when no fresh storage endpoint is known, else the checks of a sample. *)
Definition unknown_endpoint (ep : ProviderEndpoint) (ok : bool) (err : option error) : Prop :=
  err ≠ None ∨ ok = false ∨ ep_IP (pe_Storage ep) = "".

Definition provider_checked p ctx (job : proof_job) (rs : list ProofResult) tr : Prop :=
  ∃ ep ok err, answered (LoadFresh ctx job.1 (EndpointMaxAge p)) (ep, ok, err) ∈ tr ∧
    ((unknown_endpoint ep ok err ∧ ∃ now, read_clock tr now ∧
        rs = (λ c, mkProofResult (cr_ContractAddr c) (cr_ProviderAddress c) IPNotFound now) <$> job.2)
     ∨ (¬ unknown_endpoint ep ok err ∧ ∃ sample,
        sample ⊆+ job.2 ∧ Z.of_nat (length sample) = sample_size p (Z.of_nat (length job.2)) ∧
        sample_checked ctx ep sample rs tr)).

Lemma provider_checked_more p ctx job rs tr more :
  provider_checked p ctx job rs tr → provider_checked p ctx job rs (tr ++ more).
Proof.
  intros (ep & ok & err & Hin & Hcase). exists ep, ok, err.
  split; [apply elem_of_app; by left|].
  destruct Hcase as [(? & now & ? & ?)|(? & sample & ? & ? & ?)];
    [left; split; [done|]; exists now; eauto using read_clock_more|right].
  split; [done|]. exists sample. eauto using sample_checked_more.
Qed.

Lemma checkProvider_rwp p ctx job tr :
  rwp (checkProvider p ctx job.1 job.2) (returns (provider_checked p ctx job)) tr.
Proof.
  unfold checkProvider. apply rwp_ext_bind. intros more [[ep ok] err] _.
  set (ev := answered _ _). set (tr1 := _ ++ [ev]).
  assert (ev ∈ tr1) as Hev by (unfold tr1; in_trace). clearbody tr1.
  assert (∀ rs tr2, (tr1 `prefix_of` tr2) → unknown_endpoint ep ok err →
    (∃ now, read_clock tr2 now ∧ rs = (λ c, mkProofResult (cr_ContractAddr c) (cr_ProviderAddress c) IPNotFound now) <$> job.2) →
    provider_checked p ctx job rs tr2) as Hfill.
  { intros rs tr2 [more2 ->] Hu Hrs. exists ep, ok, err. split; [apply elem_of_app; by left|by left]. }
  assert (unknown_endpoint ep ok err →
          rwp (fillReason job.2 IPNotFound) (returns (provider_checked p ctx job)) tr1) as Hunk.
  { intros Hu. unfold fillReason. apply rwp_go_bind. intros more2 now _. apply rwp_ret.
    intros more3. apply Hfill; [rewrite <- !app_assoc; by eexists|done|].
    exists now. split; [unfold read_clock; in_trace|done]. }
  destruct (negb (is_nil err)) eqn:He; [apply Hunk; left; by destruct err|].
  destruct (negb ok || bool_decide (ep_IP (pe_Storage ep) = "")) eqn:Ho.
  { apply Hunk. right. apply orb_true_iff in Ho as [Ho|Ho]; [left; by destruct ok|right].
    by apply bool_decide_eq_true in Ho. }
  assert (¬ unknown_endpoint ep ok err) as Hknown.
  { apply orb_false_iff in Ho as [Ho1 Ho2]. apply bool_decide_eq_false in Ho2.
    destruct err, ok; simpl in *; try done. unfold unknown_endpoint. naive_solver. }
  clear Hfill Hunk Ho He.
  eapply rwp_bind_returns.
  { apply (rwp_frame (λ tr, ev ∈ tr)); [apply stable_elem|done|apply sampleContracts_rwp]. }
  intros sample tr2 (Hev2 & Hsub & Hlen). apply rwp_go_bind. intros more2 now _.
  eapply rwp_bind_returns.
  { apply (rwp_frame (λ tr, ev ∈ tr)); [apply stable_elem|in_trace|apply sample_loop_rwp].
    unfold read_clock. in_trace. }
  intros f tr3 [Hev3 Hf].
  assert (∀ rs more, sample_checked ctx ep sample rs tr3 →
                     provider_checked p ctx job rs (tr3 ++ more)) as Hdone.
  { intros rs more3 Hs. apply provider_checked_more. exists ep, ok, err. split; [done|right].
    split; [done|]. by exists sample. }
  unfold after. destruct f as [s|s|rs]; [|done|]; apply rwp_ret; intros more3; by apply Hdone.
Qed.

Lemma check_one_depth p ctx ep now thr sc s : depth_le 4 (check_one p ctx ep now thr sc s).
Proof.
  unfold check_one. intros cerr. simpl. destruct (is_nil cerr); [|done]. simpl.
  destruct (_ && _); [done|]. simpl. intros [r e] t. destruct (0 <? BetweenBagsCooldown p); [|done].
  simpl. intros []; done.
Qed.

(** A goroutine only loads the endpoint and verifies. *)
Definition check_only (o : fop ports) : Prop :=
  match o with Go _ | Ext (LoadFresh _ _ _) | Ext (Verify _ _ _) => True | Ext _ => False end.

Lemma Shuffle_only i l : only check_only (λ s, length s = length l) (Shuffle i l).
Proof.
  revert l. induction i as [|i IH]; intros l; simpl; [done|]. split; [done|].
  intros j. eapply only_mono; [apply IH|]. simpl. intros s ->. apply Permutation_length, swap_perm.
Qed.

Lemma sampleContracts_only p l :
  only check_only (λ s, (length s <= length l)%nat) (sampleContracts p l).
Proof.
  unfold sampleContracts. destruct (_ || _); [simpl; lia|].
  eapply only_bind; [apply Shuffle_only|]. intros s Hs. simpl. rewrite length_take, Hs. apply Nat.le_min_r.
Qed.

Lemma checkProvider_depth p ctx job : depth_le (proof_depth job) (checkProvider p ctx job.1 job.2).
Proof.
  unfold checkProvider, proof_depth.
  set (d := (length job.2 + S (4 * length job.2 + 0))%nat).
  apply (depth_le_mono (S d)); [unfold d; lia|]. simpl. intros [[ep ok] err].
  assert (depth_le d (fillReason job.2 IPNotFound)) as Hfill
    by (apply (depth_le_mono 1); [unfold d; lia|done]).
  destruct (negb (is_nil err)); [exact Hfill|]. destruct (_ || _); [exact Hfill|].
  eapply depth_le_bind_only; [apply sampleContracts_depth|apply sampleContracts_only|].
  intros sample Hs now. apply depth_le_bind; [|by intros [?|?|?]].
  apply (depth_le_mono (4 * length sample)); [cbv beta in Hs; lia|]. apply depth_le_range.
  intros sc s. apply check_one_depth.
Qed.

Lemma checkProvider_only p ctx job : only check_only (λ _, True) (checkProvider p ctx job.1 job.2).
Proof.
  unfold checkProvider. simpl. split; [done|]. intros [[ep ok] err].
  assert (only check_only (λ _, True) (fillReason job.2 IPNotFound)) as Hf
    by (simpl; split; [done|done]).
  destruct (negb (is_nil err)); [done|]. destruct (_ || _); [done|].
  eapply only_bind; [apply sampleContracts_only|]. intros sample _. simpl.
  split; [done|]. intros now. eapply only_bind; [apply only_range|].
  - intros sc s. simpl. split; [done|]. intros cerr. destruct (negb _); [done|].
    destruct (_ && _); [done|]. simpl. split; [done|]. intros [r e].
    split; [done|]. intros t. destruct (0 <? _); [|done]. simpl.
    split; [done|]. by intros [].
  - by intros [s|s|r] _.
Qed.
End check_provider.

(** ** The whole cycle *)
Section check_proofs.
Implicit Types (p : Config) (ctx : Ctx) (tr : trace ports).

(** As [provider_checked], with every contract of the sample in the results. *)
Definition provider_complete p ctx tr (job : proof_job) (rs : list ProofResult) : Prop :=
  ∃ ep ok err, answered (LoadFresh ctx job.1 (EndpointMaxAge p)) (ep, ok, err) ∈ tr ∧
    ((unknown_endpoint ep ok err ∧ ∃ now, read_clock tr now ∧
        rs = (λ c, mkProofResult (cr_ContractAddr c) (cr_ProviderAddress c) IPNotFound now) <$> job.2)
     ∨ (¬ unknown_endpoint ep ok err ∧ ∃ sample answers,
        sample ⊆+ job.2 ∧ Z.of_nat (length sample) = sample_size p (Z.of_nat (length job.2)) ∧
        checked_ok ctx ep (maxFailureThreshold (Z.of_nat (length sample))) sample rs answers tr)).

Lemma provider_checked_complete p ctx tr job rs :
  ¬ done_in ctx tr → provider_checked p ctx job rs tr → provider_complete p ctx tr job rs.
Proof.
  intros Hnd (ep & ok & err & Hin & Hcase). exists ep, ok, err. split; [done|].
  destruct Hcase as [?|(? & sample & ? & ? & pre & suf & answers & Hs & [->|] & Hok)];
    [by left|right|done].
  rewrite app_nil_r in Hs. subst pre. split; [done|]. by exists sample, answers.
Qed.

(** Each provider's relations, in order; each provider once. *)
Lemma by_provider_lookup relations pk :
  by_provider relations !! pk =
  match filter (λ r, cr_ProviderPubkey r = pk) relations with [] => None | cs => Some cs end.
Proof.
  revert pk. induction relations as [|r rels IH] using rev_ind; intros pk; [done|].
  unfold by_provider in *. rewrite foldl_snoc, filter_snoc.
  destruct (decide (cr_ProviderPubkey r = pk)) as [<-|Hne].
  - rewrite lookup_insert_eq, IH. by destruct (filter _ rels).
  - by rewrite lookup_insert_ne, IH by done.
Qed.

Definition proof_result_ok p ctx tr (relations : list ContractProviderRelation)
    (results : list ProofResult) : Prop :=
  ∃ checks : list (proof_job * list ProofResult),
    NoDup checks.*1.*1 ∧
    (∀ pk cs, (pk, cs) ∈ checks.*1 ↔
              cs = filter (λ r, cr_ProviderPubkey r = pk) relations ∧ cs ≠ []) ∧
    Forall (λ jr, provider_complete p ctx tr jr.1 jr.2) checks ∧
    results = mjoin checks.*2.

Definition proof_outcome p ctx tr (out : outcome (option error)) : Prop :=
  (writes tr = [] ∧ ∃ e, out = Returned (Some e)) ∨
  ∃ relations results perr, answered (GetActiveRelations ctx) (relations, None) ∈ tr ∧
    proof_result_ok p ctx tr relations results ∧
    writes tr = [WPublished (PCheckProofs (MkCheckProofsResult (slice_of relations results))) perr] ∧
    ∃ err, out = Returned err ∧ is_nil err = is_nil perr.

Definition proof_handled ctx (job : proof_job) (v : verdict proof_job) tr : Prop :=
  match v with Skip => False | BreakLoop => done_in ctx tr | Launch j => j = job end.

Lemma proof_pool_ok p ctx :
  0 < MaxConcurrentBags p →
  pool_ok (proof_spec p ctx) (proof_handled ctx) (provider_checked p ctx) 1 proof_depth proof_steps.
Proof.
  intros Hpos. split; cbn [sp_cap sp_handle sp_body sp_commit proof_spec]; try (unfold proof_steps; lia).
  - intros job [| |j] tr more; simpl; [done|apply done_in_stable|done].
  - intros job rs tr more. apply provider_checked_more.
  - intros job tr. unfold proof_handle. rwp_steps; intros more'; simpl; [|done].
    apply done_in_app. left. apply done_in_ctx_err. by destruct x.
  - intros job x. simpl. by destruct (negb _).
  - intros job tr. apply checkProvider_rwp.
  - intros job. apply checkProvider_depth.
  - intros job j tr. simpl. intros ->. unfold proof_steps. lia.
Qed.

Lemma proof_pool_checks p ctx jobs s0 :
  only check_only (λ _, True) (pool (proof_spec p ctx) proof_steps jobs s0).
Proof.
  apply pool_only.
  - done.
  - intros job. simpl. split; [done|]. intros x. by destruct (negb _).
  - intros job. apply checkProvider_only.
Qed.

Lemma proof_pool_only p ctx jobs s0 :
  only no_write (λ _, True) (pool (proof_spec p ctx) proof_steps jobs s0).
Proof. eapply only_weaken; [apply proof_pool_checks|]. by intros [g|[]] Ho x. Qed.

Lemma commit_results (dn : list (proof_job * list ProofResult)) acc :
  foldl (λ s ja, s ++ ja.2) acc dn = acc ++ mjoin dn.*2.
Proof.
  revert acc. induction dn as [|[j rs] dn IH]; intros acc; simpl; [by rewrite app_nil_r|].
  by rewrite IH, <- app_assoc.
Qed.

(** The jobs: the map's entries in the order visited. *)
Lemma jobs_of_keys relations keys :
  keys ≡ₚ (map_to_list (by_provider relations)).*1 →
  let jobs := omap (λ k, contracts ← by_provider relations !! k; Some (k, contracts)) keys in
  jobs.*1 = keys ∧
  ∀ pk cs, (pk, cs) ∈ jobs ↔ cs = filter (λ r, cr_ProviderPubkey r = pk) relations ∧ cs ≠ [].
Proof.
  intros Hkeys jobs.
  assert (∀ k, k ∈ keys ↔ is_Some (by_provider relations !! k)) as Hin.
  { intros k. rewrite Hkeys, list_elem_of_fmap. split.
    - intros ([k' c] & -> & Hc). apply elem_of_map_to_list in Hc. eauto.
    - intros [c Hc]. exists (k, c). by rewrite elem_of_map_to_list. }
  split.
  - assert (Forall (λ k, is_Some (by_provider relations !! k)) keys) as HF
      by (apply Forall_forall; intros k; apply Hin).
    unfold jobs. clear -HF. induction HF as [|k ks [c Hk] _ IH]; [done|].
    csimpl. rewrite Hk. csimpl. by rewrite IH.
  - intros pk cs. unfold jobs. rewrite list_elem_of_omap. split.
    + intros (k & _ & Hk). apply bind_Some in Hk as (c & Hc & [= -> ->]).
      rewrite by_provider_lookup in Hc. destruct (filter _ relations) eqn:Hf; [done|].
      by injection Hc as <-.
    + intros [-> Hne]. exists pk.
      assert (by_provider relations !! pk = Some (filter (λ r, cr_ProviderPubkey r = pk) relations))
        as Hl by (rewrite by_provider_lookup; by destruct (filter _ relations)).
      split; [apply Hin; by rewrite Hl|]. by rewrite Hl.
Qed.

Lemma proof_pool_result p ctx tr relations keys results :
  ¬ done_in ctx tr → keys ≡ₚ (map_to_list (by_provider relations)).*1 →
  pool_result (proof_spec p ctx) (proof_handled ctx) (provider_checked p ctx)
    (omap (λ k, contracts ← by_provider relations !! k; Some (k, contracts)) keys) [] results tr →
  proof_result_ok p ctx tr relations results.
Proof.
  intros Hnd Hkeys Hres. destruct (jobs_of_keys _ _ Hkeys) as [Hj1 Hj2].
  apply (pool_result_all _ _ _ Some) in Hres as (dn & Hj & Hf & ->).
  - exists dn. rewrite omap_id_some in Hj. split_and!.
    + rewrite Hj, Hj1, Hkeys. apply NoDup_fst_map_to_list.
    + intros pk cs. by rewrite Hj.
    + eapply Forall_impl; [done|]. intros [j rs]. by apply provider_checked_complete.
    + apply commit_results.
  - done.
  - by intros job [| |j] Hh; simpl in *; subst.
Qed.

Lemma provider_complete_more p ctx tr more job rs :
  provider_complete p ctx tr job rs → provider_complete p ctx (tr ++ more) job rs.
Proof.
  intros (ep & ok & err & Hin & Hcase). exists ep, ok, err.
  split; [apply elem_of_app; by left|].
  destruct Hcase as [(? & now & ? & ?)|(? & sample & answers & ? & ? & ?)];
    [left; split; [done|]; exists now; eauto using read_clock_more|right].
  split; [done|]. exists sample, answers. eauto using checked_ok_more.
Qed.

Lemma proof_result_more p ctx tr more relations results :
  proof_result_ok p ctx tr relations results → proof_result_ok p ctx (tr ++ more) relations results.
Proof.
  intros (checks & ? & ? & HF & ?). exists checks. split_and!; [done|done| |done].
  eapply Forall_impl; [done|]. intros jr. apply provider_complete_more.
Qed.

Lemma proof_result_empty p ctx tr : proof_result_ok p ctx tr [] [].
Proof.
  exists []. split_and!; [constructor| |constructor|done].
  intros pk cs. rewrite elem_of_nil. split; [done|]. by intros [-> ?].
Qed.

Lemma check_proofs_wp p ctx :
  0 < MaxConcurrentBags p → wp (CheckStorageProofs p ctx) (proof_outcome p ctx) [].
Proof.
  intros Hpos. unfold CheckStorageProofs. wp_steps.
  - left. split; [done|]. by eexists.
  - right. exists [], [], x.
    split_and!; [list_member|apply proof_result_empty|done|by eexists].
  - lia.
  - set (relations := _ :: _) in *. rename x into keys.
    change (keys ≡ₚ (map_to_list (by_provider relations)).*1) in Hx0.
    apply wp_bind. eapply wp_mono'.
    { eapply only_wp; [apply proof_pool_only|]. by eapply pool_wp, proof_pool_ok. }
    intros tr [results|st] [Hres (more & Htr & Hmore)]; [|done]. simpl in Hres.
    assert (writes tr = []) as Hw by (by rewrite Htr, writes_app, (no_write_trace more)).
    assert (answered (GetActiveRelations ctx) (relations, None) ∈ tr) as Hans
      by (rewrite Htr; apply elem_of_app; left; in_trace).
    clear Htr. unfold seq_post. wp_steps.
    1: { left. rewrite !writes_snoc, Hw. split; [done|].
         eapply ctx_err_again in Hx2 as [e ->]; [by exists e|by destruct x]. }
    all: right; exists relations, results, x0.
    all: split_and!; [rewrite !elem_of_app; tauto| |by rewrite !writes_snoc, Hw|].
    all: try (rewrite <- app_assoc; eapply proof_result_more, proof_pool_result; [|done|done];
              eapply ctx_err_nil; [done|by destruct x]).
    all: eexists; split; [done|]; by destruct x0.
Qed.

Lemma New_concurrency p : 0 < MaxConcurrentBags (New p).
Proof. cbn [New MaxConcurrentBags]. destruct (Z.leb_spec (MaxConcurrentBags p) 0); lia. Qed.

(** C15. Every run of check_proofs returns: whatever the interleaving of the
    providers' goroutines, nothing deadlocks or panics.  It fails having
    published nothing, or publishes once the concatenated results of every
    provider with an active relation, each checked exactly once and to the end:
    a result of a provider with a known endpoint is what the prover answered
    for that contract's bag, unless the breaker had tripped. *)
Theorem CheckStorageProofs_result p ctx :
  every_run (CheckStorageProofs (New p) ctx) (proof_outcome (New p) ctx).
Proof. apply every_run_wp, check_proofs_wp, New_concurrency. Qed.

(** C28. A bag is given up without being asked for only after failures in a row:
    when [checkProvider] returns fewer answers of the prover than results,
    the threshold is positive and the last answers, more than the threshold
    says, are all failures; and the prover was never asked while the count of
    failures exceeded the threshold. *)
Theorem checkProvider_breaker p ctx pubkey contracts :
  every_run (checkProvider p ctx pubkey contracts) (λ tr out, ∃ rs, out = Returned rs ∧
    ((∃ ep ok err now, answered (LoadFresh ctx pubkey (EndpointMaxAge p)) (ep, ok, err) ∈ tr ∧
        unknown_endpoint ep ok err ∧
        rs = (λ c, mkProofResult (cr_ContractAddr c) (cr_ProviderAddress c) IPNotFound now)
             <$> contracts) ∨
     ∃ ep sample answers, sample ⊆+ contracts ∧
       Forall2 same_contract (take (length rs) sample) rs ∧
       ((length rs < length sample)%nat → done_in ctx tr) ∧
       Forall2 (λ c r, ∃ e, answered (Verify ctx ep (cr_BagID c)) (r, e) ∈ tr)
         (take (length answers) sample) answers ∧
       pf_Reason <$> rs = answers ++ replicate (length rs - length answers) UnavailableProvider ∧
       let threshold := maxFailureThreshold (Z.of_nat (length sample)) in
       ((length answers < length rs)%nat →
          0 < threshold ∧ ∃ before failed, answers = before ++ failed ∧
            length failed = Z.to_nat (threshold + 1) ∧
            Forall (λ r, r ≠ ValidStorageProof) failed) ∧
       ∀ i, (i < length answers)%nat → threshold <= 0 ∨ streak (take i answers) <= threshold)).
Proof.
  apply every_run_wp. eapply wp_mono'.
  { apply rwp_wp, (checkProvider_rwp p ctx (pubkey, contracts)). }
  intros tr [rs|st]; simpl; [|done]. intros (ep & ok & err & Hin & Hcase). exists rs. split; [done|].
  destruct Hcase as [[Hu (now & _ & ->)]|(Hk & sample & Hsub & Hlen & Hch)].
  { left. by exists ep, ok, err, now. }
  destruct Hch as (pre & suf & answers & -> & Hsuf & Hok). right. exists ep, (pre ++ suf), answers.
  pose proof (checked_ok_length _ _ _ _ _ _ _ Hok) as Hle.
  destruct Hok as [Hc Hr Ha Ht Hn _]. pose proof (Forall2_length _ _ _ Hc) as Hl. rewrite <- Hl.
  split_and!; [done|by rewrite take_app_length| |by rewrite take_app_le|done| |done].
  - rewrite length_app. intros. destruct Hsuf as [->|]; [simpl in *; lia|done].
  - intros Hlt. destruct (Ht Hlt) as [? Hstr]. split; [done|]. apply streak_trailing. lia.
Qed.

(** C35. The threshold is a fifth of the sample, rounded down: the float32
    arithmetic of the code loses nothing up to 2048 bags. *)
Theorem maxFailureThreshold_fifth n :
  0 <= n <= 2048 → maxFailureThreshold n = n / 5.
Proof.
  intros Hn. apply (thresholds_to_spec 2049); [apply threshold_table|lia].
Qed.

Lemma maxFailureThreshold_witness : (0 <= 7 <= 2048) ∧ maxFailureThreshold 7 = 1.
Proof. split; [lia|]. exact (maxFailureThreshold_fifth 7 ltac:(lia)). Defined.
End check_proofs.
