(* ===== verification/Update.v ===== *)
(** [internal/usecase/update]: the cycle [lookup_ipinfo], one geo lookup after
    the other with a pause in between. *)

From S2P Require Import Prelude GoStd Effects Domain Ports.

Record Config := mkConfig {
  IPInfoTimeout : Duration;
  BetweenIPsCooldown : Duration;
  LookupIPInfoStream : string }.

Definition New (cfg : Config) : Config :=
  mkConfig (if IPInfoTimeout cfg <=? 0 then 10 * Second else IPInfoTimeout cfg)
           (if BetweenIPsCooldown cfg <=? 0 then 1 * Second else BetweenIPsCooldown cfg)
           (LookupIPInfoStream cfg).

(** The part of an iteration after the pause. *)
Definition fetch_one (u : Config) (ctx : Ctx) (ep : ProviderEndpoint) (items : list IPInfoUpdate)
    : prog ports (flow (list IPInfoUpdate) (option error)) :=
  '(info, fErr) ← call (GetIPInfo (WithTimeout ctx (IPInfoTimeout u)) (ep_IP (pe_Provider ep)));
  if negb (is_nil fErr) then mret (Next items)
  else mret (Next (items ++ [mkIPInfoUpdate (pe_PublicKey ep) (ep_IP (pe_Provider ep)) info])).

Definition update_one (u : Config) (ctx : Ctx) (iep : nat * ProviderEndpoint)
    (items : list IPInfoUpdate) : prog ports (flow (list IPInfoUpdate) (option error)) :=
  let (i, ep) := iep in
  cerr ← go (CtxErr ctx);
  if negb (is_nil cerr) then
    cerr ← go (CtxErr ctx); mret (Return cerr)
  else if bool_decide (ep_IP (pe_Provider ep) = "") then mret (Next items)
  else if (0 <? i)%nat && (0 <? BetweenIPsCooldown u) then
    done ← go (SelectDone ctx (BetweenIPsCooldown u));
    if done : bool then cerr ← go (CtxErr ctx); mret (Return cerr)
    else fetch_one u ctx ep items
  else fetch_one u ctx ep items.

Definition UpdateIPInfo (u : Config) (ctx : Ctx) : prog ports (option error) :=
  let op := "usecase.update.UpdateIPInfo" in
  '(endpoints, err) ← call (GetProvidersIPs ctx);
  iferr err ;;
  match endpoints with
  | [] => call (PublishResult ctx (LookupIPInfoStream u) (JobIDFrom ctx) CycleLookupIPInfo
                  (PLookupIPInfo zeroLookupIPInfoResult))
  | _ =>
      f ← range (imap pair endpoints) [] (update_one u ctx);
      after f (λ items,
        err ← call (PublishResult ctx (LookupIPInfoStream u) (JobIDFrom ctx) CycleLookupIPInfo
                      (PLookupIPInfo (mkLookupIPInfoResult items)));
        iferr (wrap op <$> err) ;;
        mret None)
  end.

(** ** Properties *)

(** The lookups of a run, with their answers. *)
Definition as_lookup (ev : event ports) : option (string * (IpInfo * option error)) :=
  match ev with
  | Ev (Ext (GetIPInfo _ ip)) a => Some (ip, a)
  | _ => None
  end.
Definition lookups (tr : trace ports) := omap as_lookup tr.

Lemma lookups_snoc tr ev :
  lookups (tr ++ [ev]) = lookups tr ++ match as_lookup ev with Some l => [l] | None => [] end.
Proof. apply omap_snoc. Qed.
#[export] Hint Rewrite lookups_snoc : agent_simpl.

Definition with_ip (endpoints : list ProviderEndpoint) : list ProviderEndpoint :=
  filter (λ ep, ep_IP (pe_Provider ep) ≠ "") endpoints.

(** The item of an endpoint and its lookup. *)
Definition item_of (ep : ProviderEndpoint) (l : string * (IpInfo * option error)) : option IPInfoUpdate :=
  match l with
  | (ip, (info, None)) => Some (mkIPInfoUpdate (pe_PublicKey ep) ip info)
  | _ => None
  end.

Definition ipinfo_result_ok (endpoints : list ProviderEndpoint) (items : list IPInfoUpdate)
    (tr : trace ports) : Prop :=
  (lookups tr).*1 = (λ ep, ep_IP (pe_Provider ep)) <$> with_ip endpoints ∧
  items = omap id (zip_with item_of (with_ip endpoints) (lookups tr)).

Lemma ipinfo_ok_skip eps items tr ep ev :
  ipinfo_result_ok eps items tr → ep_IP (pe_Provider ep) = "" → as_lookup ev = None →
  ipinfo_result_ok (eps ++ [ep]) items (tr ++ [ev]).
Proof.
  intros [Hl Hi] Hep Hev. unfold ipinfo_result_ok, with_ip.
  rewrite filter_snoc, decide_False, lookups_snoc, Hev, app_nil_r by naive_solver. done.
Qed.

Lemma ipinfo_ok_more eps items tr ev :
  ipinfo_result_ok eps items tr → as_lookup ev = None → ipinfo_result_ok eps items (tr ++ [ev]).
Proof. intros Hok Hev. unfold ipinfo_result_ok. rewrite lookups_snoc, Hev, app_nil_r. done. Qed.

Lemma ipinfo_ok_fetch eps items tr ep ctx info err :
  ipinfo_result_ok eps items tr → ep_IP (pe_Provider ep) ≠ "" →
  ipinfo_result_ok (eps ++ [ep])
    (if negb (is_nil err) then items
     else items ++ [mkIPInfoUpdate (pe_PublicKey ep) (ep_IP (pe_Provider ep)) info])
    (tr ++ [answered (GetIPInfo ctx (ep_IP (pe_Provider ep))) (info, err)]).
Proof.
  intros [Hl Hi] Hep. unfold ipinfo_result_ok, with_ip in *.
  rewrite filter_snoc, decide_True, lookups_snoc by done. simpl.
  assert (length (with_ip eps) = length (lookups tr)) as Hlen
    by (rewrite <- (length_fmap fst), Hl, length_fmap; done).
  rewrite !fmap_app, Hl. simpl. split; [done|].
  unfold with_ip in Hlen. rewrite zip_with_app, omap_app, <- Hi by done. simpl.
  destruct err; simpl; [by rewrite app_nil_r|done].
Qed.

Definition ipinfo_inv (pre : list (nat * ProviderEndpoint)) (items : list IPInfoUpdate)
    (tr : trace ports) : Prop := ipinfo_result_ok pre.*2 items tr ∧ writes tr = [].

Lemma fetch_one_wp u ctx pre i ep items tr :
  ipinfo_inv pre items tr → ep_IP (pe_Provider ep) ≠ "" →
  wp (fetch_one u ctx ep items)
     (returns (λ f tr, ∃ items, f = Next items ∧ ipinfo_inv (pre ++ [(i, ep)]) items tr)) tr.
Proof.
  intros [Hok Hw] Hep. unfold fetch_one. apply wp_ext_bind. intros [info err] _.
  pose proof (ipinfo_ok_fetch _ _ _ _ (WithTimeout ctx (IPInfoTimeout u)) info err Hok Hep) as Hok'.
  set (tr' := tr ++ _) in *. assert (writes tr' = []) by (unfold tr'; by rewrite writes_snoc, Hw).
  clearbody tr'. destruct (negb (is_nil err)); apply wp_ret; eexists; (split; [done|]);
    (split; [|done]); by rewrite fmap_app.
Qed.

Lemma update_one_wp u ctx pre iep items tr :
  ipinfo_inv pre items tr →
  wp (update_one u ctx iep items)
     (returns (λ f tr, match f with
                       | Next items => ipinfo_inv (pre ++ [iep]) items tr
                       | Break _ => False
                       | Return r => writes tr = [] ∧ r ≠ None
                       end)) tr.
Proof.
  intros [Hok Hw]. destruct iep as [i ep]. unfold update_one.
  apply wp_go_bind. intros x Hx. destruct (negb (is_nil x)) eqn:Hnil.
  { wp_steps. cbn [returns]. rewrite !writes_snoc, Hw. split; [done|].
    eapply ctx_err_again in Hx0 as [e ->]; [done|by destruct x]. }
  assert (ipinfo_inv pre items (tr ++ [Ev (Go (CtxErr ctx)) x])) as Hinv.
  { split; [by apply ipinfo_ok_more|by rewrite writes_snoc, Hw]. }
  case_bool_decide as Hip.
  { apply wp_ret. split; [|apply Hinv]. rewrite fmap_app. by apply ipinfo_ok_skip. }
  assert (∀ tr', ipinfo_inv pre items tr' →
    wp (fetch_one u ctx ep items)
     (returns (λ f tr, match f with
                       | Next items => ipinfo_inv (pre ++ [(i, ep)]) items tr
                       | Break _ => False
                       | Return r => writes tr = [] ∧ r ≠ None
                       end)) tr') as Hfetch.
  { intros tr' Hinv'. eapply wp_mono'; [by apply fetch_one_wp|].
    intros tr2 [f|e]; simpl; [|done]. by intros (items' & -> & ?). }
  destruct (_ && _); [|by apply Hfetch]. apply wp_go_bind. intros done Hdone. destruct done.
  - apply wp_go_bind. intros y [Hy _]. apply wp_ret. cbn [returns]. rewrite !writes_snoc, Hw. split; [done|].
    apply Hy, done_in_app. right. by apply Exists_cons_hd.
  - apply Hfetch. destruct Hinv as [Hi1 Hi2]. split; [by apply ipinfo_ok_more|].
    by rewrite writes_snoc, Hi2.
Qed.

Definition ipinfo_outcome ctx tr (out : outcome (option error)) : Prop :=
    (writes tr = [] ∧ ∃ e, out = Returned (Some e)) ∨
    ∃ endpoints items perr,
      answered (GetProvidersIPs ctx) (endpoints, None) ∈ tr ∧
      ipinfo_result_ok endpoints items tr ∧
      writes tr = [WPublished (PLookupIPInfo (MkLookupIPInfoResult (slice_of endpoints items))) perr] ∧
      ∃ err, out = Returned err ∧ is_nil err = is_nil perr.

Lemma update_ipinfo_wp u ctx : wp (UpdateIPInfo u ctx) (ipinfo_outcome ctx) [].
Proof.
  unfold UpdateIPInfo. wp_steps.
  - left. by eauto.
  - right. exists [], [], x. split_and!; [list_member|done|done|by eexists].
  - set (eps := p :: _). apply (wp_range _ _ _ ipinfo_inv (λ _ _, False)).
    + done.
    + intros pre iep suf items tr _ _ Hinv. eapply wp_mono'; [by apply update_one_wp|].
      intros tr' [[s'|s'|r]|e]; simpl; [done|done| |done].
      intros [Hwr Hr]. left. split; [done|]. destruct r; [by eauto|done].
    + intros items tr [more Htr] [[Hok Hw]|[]].
      assert (answered (GetProvidersIPs ctx) (eps, None) ∈ tr) as Hans
        by (rewrite Htr; apply elem_of_app; left; list_member).
      clear Htr. assert ((imap pair eps).*2 = eps) as He
        by (rewrite fmap_imap; change (imap (const id) eps = eps); by rewrite imap_const, list_fmap_id).
      rewrite He in Hok. unfold seq_post, after. wp_steps; right; exists eps, items, x.
      all: split_and!; [apply elem_of_app; by left|by apply ipinfo_ok_more|by rewrite writes_snoc, Hw|].
      all: eexists; split; [done|]; by destruct x.
Qed.

(** C29. Every run of lookup_ipinfo fails having published nothing, or publishes
    once: every endpoint with an IP was looked up exactly once, in order, and
    the items are those whose lookup succeeded, each with the information
    found for its own IP. *)
Theorem UpdateIPInfo_result u ctx : every_run (UpdateIPInfo u ctx) (ipinfo_outcome ctx).
Proof. apply every_run_wp, update_ipinfo_wp. Qed.
