(* ===== verification/Redis.v ===== *)
(** The Redis client and the metrics, as the adapters use them, and the
    publisher of results ([adapters/outbound/redisstream]). *)

From S2P Require Import Prelude GoStd Effects Domain.

(** ** The client of [github.com/redis/go-redis] and the counters of
    [pkg/metrics]: one operation per method called. *)

(** A value of the untyped map [XMessage.Values]. *)
Inductive xvalue := XString (s : string) | XOther.
#[export] Instance xvalue_eq_dec : EqDecision xvalue.
Proof. solve_decision. Defined.

Record XMessage := mkXMessage { msg_ID : string; msg_Values : gmap string xvalue }.
#[export] Instance XMessage_eq_dec : EqDecision XMessage.
Proof. solve_decision. Defined.

Record XStream := mkXStream { xs_Stream : string; xs_Messages : list XMessage }.

Inductive rop :=
| XReadGroup (ctx : Ctx) (group consumer stream : string) (count : Z) (block : Duration)
| XAutoClaim (ctx : Ctx) (stream group : string) (minIdle : Duration) (start : string) (count : Z)
    (consumer : string)
| XAck (ctx : Ctx) (stream group id : string)
| XAdd (ctx : Ctx) (stream : string) (maxLen : Z) (approx : bool) (data : string)
| XGroupCreateMkStream (ctx : Ctx) (stream group start : string)
| InflightInc (cycle : string)
| InflightDec (cycle : string)
| ObserveDuration (cycle : string) (d : Duration)
| CyclesTotalInc (cycle status : string)
| RedisErrorsInc.

Definition rop_ans (o : rop) : Type :=
  match o with
  | XReadGroup _ _ _ _ _ _ => list XStream * option error
  | XAutoClaim _ _ _ _ _ _ _ => list XMessage * string * option error
  | XAck _ _ _ _ | XAdd _ _ _ _ _ | XGroupCreateMkStream _ _ _ _ => option error
  | _ => unit
  end%type.

Definition redis : iface := Iface rop rop_ans.

#[export] Instance rop_eq_dec : EqDecision rop.
Proof. solve_decision. Defined.
#[export] Instance redis_op_eq_dec : EqDecision (op redis) := rop_eq_dec.
#[export] Instance redis_env : Env redis := any_env redis.

(** [redis.Nil]: no message arrived before the block timeout. *)
Definition redis_Nil : error := ErrSentinel "redis.Nil" "redis: nil".

(** [encoding/json] on the two envelopes. *)
Class Json := {
  json_Marshal : ResultEnvelope → string + error;
  json_Unmarshal : string → TriggerEnvelope * option error }.

(** ** Publisher *)
Record Publisher := mkPublisher { pub_maxLen : Z; pub_agentID : string }.

Section publisher.
Context `{Json}.

Definition publish (p : Publisher) (ctx : Ctx) (streamKey : string) (res : ResultEnvelope)
    : prog redis (option error) :=
  let op := "redisstream.Publisher.publish" in
  match json_Marshal res with
  | inr err => mret (Some (wrap op err))
  | inl data =>
      let MaxLen := if 0 <? pub_maxLen p then pub_maxLen p else 0 in
      let Approx := 0 <? pub_maxLen p in
      err ← ext (I:=redis) (XAdd ctx streamKey MaxLen Approx data);
      iferr (wrap op <$> err) ;;
      mret None
  end.

Definition PublishResult (p : Publisher) (ctx : Ctx) (streamKey jobID cycleType : string)
    (pl : payload) : prog redis (option error) :=
  now ← go TimeNow;
  publish p ctx streamKey
    (mkResultEnvelope jobID cycleType StatusOK "" (Some pl) now (pub_agentID p)).

Definition PublishError (p : Publisher) (ctx : Ctx) (streamKey jobID cycleType errMsg : string)
    : prog redis (option error) :=
  now ← go TimeNow;
  publish p ctx streamKey
    (mkResultEnvelope jobID cycleType StatusError errMsg None now (pub_agentID p)).

(** One call of [PublishResult] adds exactly one entry to the stream it was
    given, the encoded envelope with the job id, the cycle, status ok and the
    agent's id, and succeeds exactly when the entry was added; the stream is
    trimmed only when a positive length is configured.  An envelope that cannot
    be encoded adds nothing and is an error. *)
Theorem PublishResult_entry p ctx streamKey jobID cycleType pl :
  every_run (PublishResult p ctx streamKey jobID cycleType pl) (λ tr out,
    ∃ now, let env := mkResultEnvelope jobID cycleType StatusOK "" (Some pl) now (pub_agentID p) in
    match json_Marshal env with
    | inr e => tr = [@Ev redis (Go TimeNow) now] ∧
               out = Returned (Some (wrap "redisstream.Publisher.publish" e))
    | inl data => ∃ err maxLen,
        tr = [@Ev redis (Go TimeNow) now;
              @Ev redis (@Ext redis (XAdd ctx streamKey maxLen (0 <? maxLen) data)) err] ∧
        maxLen = Z.max 0 (pub_maxLen p) ∧
        out = Returned (wrap "redisstream.Publisher.publish" <$> err)
    end).
Proof.
  apply every_run_wp. unfold PublishResult, publish. apply wp_go_bind. intros now _.
  destruct (json_Marshal _) as [data|e] eqn:Hm.
  - assert ((if 0 <? pub_maxLen p then pub_maxLen p else 0) = Z.max 0 (pub_maxLen p)) as ->
      by (destruct (Z.ltb_spec 0 (pub_maxLen p)); lia).
    assert ((0 <? pub_maxLen p) = (0 <? Z.max 0 (pub_maxLen p))) as ->
      by (destruct (Z.ltb_spec 0 (pub_maxLen p)), (Z.ltb_spec 0 (Z.max 0 (pub_maxLen p))); lia).
    apply wp_ext_bind. intros err _.
    destruct err; apply wp_ret; exists now; cbv zeta; rewrite Hm; by eexists _, (Z.max 0 (pub_maxLen p)).
  - apply wp_ret. exists now. cbv zeta. by rewrite Hm.
Qed.
End publisher.

(** ** Consumer groups (groups.go) *)
Definition EnsureGroup (ctx : Ctx) (stream group : string) : prog redis (option error) :=
  let op := "redisstream.EnsureGroup" in
  err ← ext (I:=redis) (XGroupCreateMkStream ctx stream group "$");
  match err with
  | None => mret None
  | Some e =>
      if Contains (Error e) "BUSYGROUP" then mret None
      else mret (Some (ErrWrap (op +:+ ": stream=" +:+ stream +:+ " group=" +:+ group +:+ ": ") e))
  end.
