(* ===== verification/Consumer.v ===== *)
(** [adapters/inbound/redisstream]: the worker that reads triggers from a Redis
    stream and runs the cycle's handler, and the reaper that takes over the
    triggers of dead consumers.  The handler is any program over an interface
    [J] of its own; the consumer runs it between its Redis operations. *)

From S2P Require Import Prelude GoStd Effects Domain Pool Redis.

(** ** consumer.go: configuration *)
Record ConsumerConfig := mkConsumerConfig {
  cfg_Stream : string;
  cfg_Group : string;
  cfg_ConsumerID : string;
  cfg_CycleType : string;
  cfg_Pool : Z;
  cfg_Timeout : Duration;
  cfg_BlockMs : Z;
  cfg_MinIdle : Duration;
  cfg_ReaperTimeout : Duration }.

(** [c_metrics]: the pointer to the metrics is not nil. *)
Record Consumer := mkConsumer {
  c_stream : string;
  c_group : string;
  c_consumerID : string;
  c_cycleType : string;
  c_pool : Z;
  c_timeout : Duration;
  c_blockMs : Z;
  c_midIdle : Duration;
  c_reaperTimeout : Duration;
  c_metrics : bool }.

Definition NewConsumer (cfg : ConsumerConfig) (m : bool) : Consumer :=
  mkConsumer (cfg_Stream cfg) (cfg_Group cfg) (cfg_ConsumerID cfg) (cfg_CycleType cfg)
    (if cfg_Pool cfg <=? 0 then 1 else cfg_Pool cfg)
    (if cfg_Timeout cfg <=? 0 then 30 * Minute else cfg_Timeout cfg)
    (if cfg_BlockMs cfg <=? 0 then 5000 else cfg_BlockMs cfg)
    (cfg_MinIdle cfg) (cfg_ReaperTimeout cfg) m.

(** The job id of a message, or the empty string. *)
Definition decodeJobID `{Json} (msg : XMessage) : string :=
  match msg_Values msg !! "data" with
  | Some (XString s) =>
      match json_Unmarshal s with
      | (env, None) => tr_JobID env
      | (_, Some _) => ""
      end
  | Some XOther | None => ""
  end.

Section consumer.
Context `{Json} {J : iface}.

Abbreviation RJ := (iplus redis J).
Definition rcall (o : rop) : prog RJ (rop_ans o) := ext (I:=RJ) (inl o).

Context (c : Consumer) (handler : Ctx → prog J (option error)).

(** [if c.metrics != nil { ... }] *)
Definition with_metrics (p : prog RJ unit) : prog RJ unit :=
  if c_metrics c then p else mret tt.

(** A method call on the metrics without the test. *)
Definition nil_pointer : string := "runtime error: invalid memory address or nil pointer dereference".
Definition must_metrics (p : prog RJ unit) : prog RJ unit :=
  if c_metrics c then p else Stop (Panic nil_pointer).

Definition runHandler (ctx : Ctx) : prog RJ (option error) :=
  r ← recover (inject (handler ctx));
  match r with
  | inl err => mret err
  | inr m => mret (Some (ErrText ("error in handler: " +:+ m)))
  end.

(** The handler's context: the deadline of the cycle and the job's id. *)
Definition handler_ctx (ctx : Ctx) (msg : XMessage) : Ctx :=
  WithJobID (WithTimeout ctx (c_timeout c)) (decodeJobID msg).

Definition process (ctx : Ctx) (msg : XMessage) : prog RJ unit :=
  _ ← with_metrics (rcall (InflightInc (c_cycleType c)));
  start ← go TimeNow;
  err ← runHandler (handler_ctx ctx msg);
  now ← go TimeNow;
  let dur := Sub now start in
  let status := if is_nil err then StatusOK else StatusError in
  _ ← with_metrics (_ ← rcall (ObserveDuration (c_cycleType c) dur);
                    rcall (CyclesTotalInc (c_cycleType c) status));
  ackerr ← rcall (XAck ctx (c_stream c) (c_group c) (msg_ID msg));
  _ ← (if is_nil ackerr then mret tt else with_metrics (rcall RedisErrorsInc));
  with_metrics (rcall (InflightDec (c_cycleType c))).   (* deferred *)

Definition process_all (ctx : Ctx) (msgs : list XMessage) : prog RJ (flow unit unit) :=
  range msgs tt (λ msg _, _ ← process ctx msg; mret (Next tt)).

(** [for { ... }]: [fuel] bounds the rounds of the modelled run. *)
Fixpoint runWorker (fuel : nat) (ctx : Ctx) : prog RJ unit :=
  match fuel with
  | O => Stop NoFuel
  | S fuel =>
      cerr ← go (CtxErr ctx);
      if negb (is_nil cerr) then mret tt
      else
        '(streams, err) ← rcall (XReadGroup ctx (c_group c) (c_consumerID c) (c_stream c) 1
                                   (c_blockMs c * Millisecond));
        match err with
        | Some e =>
            if Is e redis_Nil || Is e Canceled then runWorker fuel ctx
            else
              _ ← with_metrics (rcall RedisErrorsInc);
              done ← go (SelectDone ctx Second);
              if done : bool then mret tt else runWorker fuel ctx
        | None =>
            _ ← range streams tt (λ s _, process_all ctx (xs_Messages s));
            runWorker fuel ctx
        end
  end.

(** reaper.go *)
Fixpoint claimPending (fuel : nat) (ctx : Ctx) (cursor : string) : prog RJ unit :=
  match fuel with
  | O => Stop NoFuel
  | S fuel =>
      '(jobs, start, err) ← rcall (XAutoClaim ctx (c_stream c) (c_group c) (c_midIdle c) cursor 10
                                     (c_consumerID c));
      _ ← (if is_nil err then mret tt else must_metrics (rcall RedisErrorsInc));
      _ ← process_all ctx jobs;
      if bool_decide (start = "0-0") then mret tt else claimPending fuel ctx start
  end.

(** The ticker's tick and [ctx.Done()] are one choice, as in the worker. *)
Fixpoint reaper_loop (fuel : nat) (ctx : Ctx) : prog RJ unit :=
  match fuel with
  | O => Stop NoFuel
  | S fuel' =>
      done ← go (SelectDone ctx (c_reaperTimeout c));
      if done : bool then mret tt
      else _ ← claimPending fuel ctx "0-0"; reaper_loop fuel' ctx
  end.

Definition runReaper (fuel : nat) (ctx : Ctx) : prog RJ unit :=
  if c_reaperTimeout c <=? 0 then Stop (Panic "non-positive interval for NewTicker")
  else reaper_loop fuel ctx.

(** [Run]: the reaper and the workers are goroutines, joined by [wg.Wait()];
    nothing bounds how many run at once. *)
Definition run_spec (fuel : nat) (ctx : Ctx) : spec RJ (option nat) (option nat) unit unit :=
  {| sp_cap := S (Z.to_nat (c_pool c));
     sp_main_acquires := false;
     sp_handle := λ g, mret (Launch g);
     sp_body := λ g, match g with None => runReaper fuel ctx | Some _ => runWorker fuel ctx end;
     sp_commit := λ _ s, s |}.

Definition Run (fuel steps : nat) (ctx : Ctx) : prog RJ unit :=
  let goroutines := None :: (Some <$> seq 0 (Z.to_nat (c_pool c))) in
  let sp := run_spec fuel ctx in
  run sp steps (State (next_item sp goroutines) [] tt).
End consumer.

(** ** Reading a consumer's trace *)
Section projections.
Context {J : iface}.
Implicit Types (tr : trace (iplus redis J)) (ev : event (iplus redis J)).

Definition as_ack ev : option string :=
  match ev with Ev (Ext (inl (XAck _ _ _ id))) _ => Some id | _ => None end.
Definition acks tr : list string := omap as_ack tr.

(** The messages a read or a claim answered. *)
Definition as_delivery ev : option (list string) :=
  match ev with
  | Ev (Ext (inl (XAutoClaim _ _ _ _ _ _ _))) (jobs, _, _) => Some (msg_ID <$> jobs)
  | Ev (Ext (inl (XReadGroup _ _ _ _ _ _))) (streams, None) =>
      Some (mjoin ((λ s, msg_ID <$> xs_Messages s) <$> streams))
  | _ => None
  end.
Definition delivered tr : list string := mjoin (omap as_delivery tr).

(** The change of the in-flight gauge. *)
Definition gauge_step ev : Z :=
  match ev with
  | Ev (Ext (inl (InflightInc _))) _ => 1
  | Ev (Ext (inl (InflightDec _))) _ => -1
  | _ => 0
  end.
Definition gauge tr : Z := foldr (λ ev n, gauge_step ev + n) 0 tr.

Definition is_read ev : bool :=
  match ev with Ev (Ext (inl (XReadGroup _ _ _ _ _ _))) _ => true | _ => false end.

(** The worker does not read once its context was seen done. *)
Definition no_read_after_done (ctx : Ctx) tr : Prop :=
  ∀ pre ev post, tr = pre ++ ev :: post → is_read ev = true → ¬ done_in ctx pre.

Lemma no_read_after_done_app ctx tr seg :
  no_read_after_done ctx tr → Forall (λ ev, is_read ev = false) seg →
  no_read_after_done ctx (tr ++ seg).
Proof.
  intros Htr Hseg pre ev post Heq Hev.
  apply app_eq_inv in Heq as [(k & -> & Hk)|(k & -> & Hk)].
  - destruct k as [|ev' k]; simpl in Hk.
    + exfalso. rewrite Forall_forall in Hseg. specialize (Hseg ev).
      rewrite <- Hk in Hseg. specialize (Hseg ltac:(constructor)). congruence.
    + injection Hk as <- ->. by eapply Htr.
  - exfalso. rewrite Forall_forall in Hseg. specialize (Hseg ev).
    assert (ev ∈ seg) by (rewrite Hk; set_solver). rewrite Hseg in Hev; done.
Qed.

(** The rounds of a worker. *)
Definition nreads tr : nat := length (filter (λ ev, is_read ev = true) tr).
Lemma nreads_app tr tr' : nreads (tr ++ tr') = (nreads tr + nreads tr')%nat.
Proof. unfold nreads. by rewrite filter_app, length_app. Qed.
Lemma nreads_none tr : Forall (λ ev, is_read ev = false) tr → nreads tr = O.
Proof. unfold nreads. induction 1 as [|ev tr Hev _ IH]; [done|]. rewrite filter_cons, Hev. exact IH. Qed.
Lemma nreads_quiet tr ev : is_read ev = false → nreads (tr ++ [ev]) = nreads tr.
Proof. intros Hev. rewrite nreads_app, (nreads_none [ev]) by by constructor. lia. Qed.

Lemma acks_app tr tr' : acks (tr ++ tr') = acks tr ++ acks tr'.
Proof. apply omap_app. Qed.
Lemma delivered_app tr tr' : delivered (tr ++ tr') = delivered tr ++ delivered tr'.
Proof. unfold delivered. by rewrite omap_app, join_app. Qed.
Lemma gauge_app tr tr' : gauge (tr ++ tr') = gauge tr + gauge tr'.
Proof. unfold gauge. induction tr as [|ev tr IH]; simpl; [done|]. rewrite IH. lia. Qed.

(** The handler's operations touch none of them. *)
Lemma injected_quiet tr :
  Forall (λ ev, injected (ev_op ev)) tr →
  acks tr = [] ∧ delivered tr = [] ∧ gauge tr = 0 ∧ Forall (λ ev, is_read ev = false) tr.
Proof.
  induction 1 as [|[o x] tr Ho _ (IHa & IHd & IHg & IHr)]; [done|].
  destruct o as [g|[o|o]]; simpl in Ho; [|done|].
  - split_and!; [exact IHa|exact IHd| |by constructor].
    change (0 + gauge tr = 0). by rewrite IHg.
  - split_and!; [exact IHa|exact IHd| |by constructor].
    change (0 + gauge tr = 0). by rewrite IHg.
Qed.
End projections.

(** ** One message *)
Section process.
Context `{Json} {J : iface}.
#[local] Existing Instance any_env.
Context (c : Consumer) (handler : Ctx → prog J (option error)).
Implicit Types (tr hist seg h : trace (iplus redis J)) (ctx : Ctx) (msg : XMessage).

Definition redis_ev (o : rop) (x : rop_ans o) : event (iplus redis J) :=
  @Ev (iplus redis J) (@Ext (iplus redis J) (inl o)) x.
Definition go_ev (g : goop) (x : goans g) : event (iplus redis J) := @Ev (iplus redis J) (Go g) x.
Definition if_metrics (evs : list (event (iplus redis J))) : list (event (iplus redis J)) :=
  if c_metrics c then evs else [].

(** How a handler's run counts: a panic is an error. *)
Definition handler_status (out : outcome (option error)) : string :=
  match out with Returned None => StatusOK | _ => StatusError end.

(** The operations of [process] up to the handler, and after it. *)
Definition before_handler (start : Time) : list (event (iplus redis J)) :=
  if_metrics [redis_ev (InflightInc (c_cycleType c)) tt] ++ [go_ev TimeNow start].
Definition after_handler ctx msg (start now : Time) (status : string) (ackerr : option error)
    : list (event (iplus redis J)) :=
  [go_ev TimeNow now] ++
  if_metrics [redis_ev (ObserveDuration (c_cycleType c) (Sub now start)) tt;
              redis_ev (CyclesTotalInc (c_cycleType c) status) tt] ++
  [redis_ev (XAck ctx (c_stream c) (c_group c) (msg_ID msg)) ackerr] ++
  (if is_nil ackerr then [] else if_metrics [redis_ev RedisErrorsInc tt]) ++
  if_metrics [redis_ev (InflightDec (c_cycleType c)) tt].

(** What one call of [process] does: the handler's own run [h] with the job's
    context, then the accounting and the acknowledgement; unless the process
    died in the handler. *)
Definition process_seg ctx msg hist seg (out : outcome unit) : Prop :=
  ∃ start h hout,
    runs (hist ++ before_handler start) (inject (I:=redis) (handler (handler_ctx c ctx msg))) h hout ∧
    match recovered hout with
    | Stopped s => out = Stopped s ∧ seg = before_handler start ++ h
    | Returned _ => ∃ now ackerr, out = Returned tt ∧
        seg = before_handler start ++ h ++
              after_handler ctx msg start now (handler_status hout) ackerr
    end.

(** The program after the handler. *)
Lemma after_handler_wp ctx msg start (err : option error) hist :
  wp (now ← go TimeNow;
      let dur := Sub now start in
      let status := if is_nil err then StatusOK else StatusError in
      _ ← with_metrics c (_ ← rcall (J:=J) (ObserveDuration (c_cycleType c) dur);
                          rcall (CyclesTotalInc (c_cycleType c) status));
      ackerr ← rcall (XAck ctx (c_stream c) (c_group c) (msg_ID msg));
      _ ← (if is_nil ackerr then mret tt else with_metrics c (rcall RedisErrorsInc));
      with_metrics c (rcall (InflightDec (c_cycleType c))))
     (λ tr out, ∃ now ackerr, out = Returned tt ∧
        tr = hist ++ after_handler ctx msg start now
                       (if is_nil err then StatusOK else StatusError) ackerr) hist.
Proof.
  unfold with_metrics, after_handler, if_metrics, rcall, redis_ev, go_ev.
  destruct (c_metrics c); wp_steps; exists x, x0; (split; [done|]); rewrite <- ?app_assoc;
    by destruct x0.
Qed.

Lemma before_handler_wp hist :
  wp (with_metrics c (rcall (J:=J) (InflightInc (c_cycleType c))))
     (λ tr out, out = Returned tt ∧
        tr = hist ++ if_metrics [redis_ev (InflightInc (c_cycleType c)) tt]) hist.
Proof.
  unfold with_metrics, if_metrics, rcall, redis_ev. destruct (c_metrics c); wp_steps; [done|].
  by rewrite app_nil_r.
Qed.

Lemma process_wp ctx msg hist :
  wp (process c handler ctx msg)
     (λ tr out, ∃ seg, tr = hist ++ seg ∧ process_seg ctx msg hist seg out) hist.
Proof.
  unfold process. apply wp_bind. eapply wp_mono'; [apply before_handler_wp|].
  intros tr out [-> ->]. unfold seq_post. apply wp_go_bind. intros start _. rewrite <- app_assoc.
  apply wp_bind. unfold runHandler. apply wp_bind. eapply wp_mono'; [apply wp_self|].
  intros tr out (h & -> & Hrun). apply runs_recover in Hrun as (hout & Hrun & ->).
  assert (∀ err : option error,
    handler_status hout = (if is_nil err then StatusOK else StatusError) →
    (∃ r, recovered hout = Returned r) →
    ∀ now ackerr, ∃ seg, ((hist ++ before_handler start) ++ h) ++
      after_handler ctx msg start now (if is_nil err then StatusOK else StatusError) ackerr =
      hist ++ seg ∧ process_seg ctx msg hist seg (Returned tt)) as Hseg.
  { intros err Hst [r Hr] now ackerr. eexists. rewrite <- !app_assoc. split; [done|].
    exists start, h, hout. split; [done|]. rewrite Hr. exists now, ackerr. by rewrite Hst. }
  destruct hout as [err|[m|m|]]; cbn [recovered seq_post].
  - apply wp_ret. unfold seq_post. eapply wp_mono'; [apply after_handler_wp|].
    intros tr out (now & ackerr & -> & ->). eapply Hseg; [by destruct err|by eexists].
  - apply wp_ret. unfold seq_post. eapply wp_mono'; [apply after_handler_wp|].
    intros tr out (now & ackerr & -> & ->). eapply Hseg; [done|by eexists].
  - eexists. rewrite <- app_assoc. split; [done|]. by exists start, h, (Stopped (Crash m)).
  - eexists. rewrite <- app_assoc. split; [done|]. by exists start, h, (Stopped NoFuel).
Qed.

(** Some run of the handler stops the process: it neither returns nor panics. *)
Definition dies (s : stop) : Prop :=
  (∀ m, s ≠ Panic m) ∧
  ∃ ctx hist h, runs hist (inject (I:=redis) (handler ctx)) h (Stopped s).

(** What a piece of a run did with messages of the given ids: every one is
    acknowledged, in order; or the process died in the handler of the first
    one that is not. *)
Definition handled_ids {R} (ids : list string) seg (out : outcome R) : Prop :=
  delivered seg = [] ∧ Forall (λ ev, is_read ev = false) seg ∧
  match out with
  | Returned _ => acks seg = ids ∧ gauge seg = 0
  | Stopped s => dies s ∧ ∃ id rest, ids = acks seg ++ id :: rest
  end.

Lemma if_metrics_quiet evs :
  acks evs = [] → delivered evs = [] → Forall (λ ev, is_read ev = false) evs →
  acks (if_metrics evs) = [] ∧ delivered (if_metrics evs) = [] ∧
  Forall (λ ev, is_read ev = false) (if_metrics evs).
Proof. unfold if_metrics. by destruct (c_metrics c). Qed.

Lemma process_seg_ids ctx msg hist seg out :
  process_seg ctx msg hist seg out → handled_ids [msg_ID msg] seg out.
Proof.
  intros (start & h & hout & Hrun & Hout). pose proof Hrun as Hself.
  apply (runs_only injected (λ _, True)) in Hrun; [|apply inject_only].
  apply injected_quiet in Hrun as (Ha & Hd & Hg & Hr).
  assert (acks (before_handler start) = [] ∧ delivered (before_handler start) = [] ∧
          Forall (λ ev, is_read ev = false) (before_handler start)) as (Hba & Hbd & Hbr)
    by (unfold before_handler, if_metrics; destruct (c_metrics c); by repeat constructor).
  unfold handled_ids. destruct (recovered hout) as [r|s] eqn:Hrec.
  - destruct Hout as (now & ackerr & -> & ->).
    rewrite !acks_app, !delivered_app, !gauge_app, !Forall_app, Ha, Hd, Hg, Hba, Hbd.
    unfold before_handler, after_handler, if_metrics.
    destruct (c_metrics c), ackerr; simpl; split_and!; try done; by repeat constructor.
  - destruct Hout as [-> ->]. rewrite acks_app, delivered_app, Forall_app, Ha, Hd, Hba, Hbd.
    split_and!; [done|done|done| |by exists (msg_ID msg), []]. split.
    + intros m ->. by destruct hout as [|[]].
    + assert (hout = Stopped s) as -> by (destruct hout as [|[]]; simpl in Hrec; congruence). by eauto.
Qed.

(** A loop over things that stand for messages. *)
Lemma range_ids {A} (ids : A → list string) (xs : list A) (body : A → unit → prog (iplus redis J) (flow unit unit)) hist :
  (∀ x hist, wp (body x tt) (λ tr out, ∃ seg, tr = hist ++ seg ∧ handled_ids (ids x) seg out ∧
                 (∀ f, out = Returned f → f = Next tt)) hist) →
  wp (range xs tt body)
     (λ tr out, ∃ seg, tr = hist ++ seg ∧ handled_ids (mjoin (ids <$> xs)) seg out ∧
                (∀ f, out = Returned f → f = Next tt)) hist.
Proof.
  intros Hbody. revert hist. induction xs as [|x xs IH]; intros hist.
  - apply wp_ret. exists []. rewrite app_nil_r. split; [done|]. split; [|by intros f [= <-]].
    by repeat constructor.
  - csimpl. apply wp_bind. eapply wp_mono'; [apply Hbody|].
    intros tr out (seg & -> & (Hd & Hr & Hout) & Hnext). destruct out as [f|s]; simpl.
    + rewrite (Hnext f eq_refl). destruct Hout as [Ha Hg]. eapply wp_mono'; [apply IH|].
      intros tr out (seg' & -> & (Hd' & Hr' & Hout') & Hn'). exists (seg ++ seg').
      rewrite <- app_assoc. split; [done|]. split; [|done].
      unfold handled_ids. rewrite delivered_app, acks_app, gauge_app, Forall_app, Hd, Hd', Ha, Hg.
      split; [done|]. split; [done|]. destruct out as [f'|s].
      * destruct Hout' as [-> ->]. done.
      * destruct Hout' as (? & id & rest & ->). split; [done|]. exists id, rest. by rewrite app_assoc.
    + exists seg. split; [done|]. split; [|done]. split; [done|]. split; [done|].
      destruct Hout as (? & id & rest & ->). split; [done|].
      exists id, (rest ++ mjoin (ids <$> xs)). by rewrite <- app_assoc.
Qed.

Lemma process_all_wp ctx msgs hist :
  wp (process_all c handler ctx msgs)
     (λ tr out, ∃ seg, tr = hist ++ seg ∧ handled_ids (msg_ID <$> msgs) seg out ∧
                (∀ f, out = Returned f → f = Next tt)) hist.
Proof.
  assert (msg_ID <$> msgs = mjoin ((λ m, [msg_ID m]) <$> msgs)) as ->
    by (induction msgs as [|m msgs IH]; [done|]; csimpl; by rewrite IH).
  apply range_ids. intros msg hist'. apply wp_bind. eapply wp_mono'; [apply process_wp|].
  intros tr out (seg & -> & Hseg%process_seg_ids). destruct out as [[]|s]; simpl.
  - exists seg. split; [done|]. split; [done|]. by intros f [= <-].
  - exists seg. done.
Qed.
End process.

(** ** The worker *)
Section worker.
Context `{Json} {J : iface}.
#[local] Existing Instance any_env.
Context (c : Consumer) (handler : Ctx → prog J (option error)).
Implicit Types (tr hist seg : trace (iplus redis J)) (ctx : Ctx).

(** Between two rounds: every message delivered is acknowledged, in order, and
    no cycle is in flight. *)
Record idle ctx tr : Prop := {
  id_acks : acks tr = delivered tr;
  id_gauge : gauge tr = 0;
  id_reads : no_read_after_done ctx tr }.

Lemma idle_quiet ctx tr ev :
  idle ctx tr → as_ack ev = None → as_delivery ev = None → gauge_step ev = 0 → is_read ev = false →
  idle ctx (tr ++ [ev]).
Proof.
  intros [Ha Hg Hr] Hack Hdel Hst Hread. split.
  - rewrite acks_app, delivered_app, Ha. unfold acks, delivered. csimpl. by rewrite Hack, Hdel.
  - rewrite gauge_app, Hg. simpl. lia.
  - apply no_read_after_done_app; [done|]. by repeat constructor.
Qed.

Lemma no_read_after_done_snoc ctx tr ev :
  no_read_after_done ctx tr → ¬ done_in ctx tr → no_read_after_done ctx (tr ++ [ev]).
Proof.
  intros Htr Hnd pre ev' post Heq Hev.
  destruct post as [|ev2 post _] using rev_ind.
  - apply app_inj_tail in Heq as [-> ->]. done.
  - rewrite app_comm_cons, app_assoc in Heq. apply app_inj_tail in Heq as [-> _]. by eapply Htr.
Qed.

(** How a worker ends: see the theorem below. *)
Definition worker_post ctx (rounds : nat) tr (out : outcome unit) : Prop :=
  no_read_after_done ctx tr ∧
  match out with
  | Returned _ => done_in ctx tr ∧ acks tr = delivered tr ∧ gauge tr = 0
  | Stopped s =>
      (s = NoFuel ∧ nreads tr = rounds ∧ acks tr = delivered tr ∧ gauge tr = 0) ∨
      (dies handler s ∧ ∃ id rest, delivered tr = acks tr ++ id :: rest)
  end.

Lemma idle_returns ctx rounds tr :
  idle ctx tr → done_in ctx tr → worker_post ctx rounds tr (Returned tt).
Proof. by intros [Ha Hg Hr]. Qed.

(** After a failed read: the pause, and the next round unless the context is
    done. *)
Lemma retry_wp fuel ctx rounds hist :
  (∀ hist, idle ctx hist → (nreads hist + fuel)%nat = rounds →
     wp (runWorker c handler fuel ctx) (worker_post ctx rounds) hist) →
  idle ctx hist → (nreads hist + fuel)%nat = rounds →
  wp (_ ← with_metrics c (rcall RedisErrorsInc);
      done ← go (SelectDone ctx Second);
      if done : bool then mret tt else runWorker c handler fuel ctx) (worker_post ctx rounds) hist.
Proof.
  intros IH. assert (∀ hist', idle ctx hist' → (nreads hist' + fuel = rounds)%nat →
    wp (done ← go (SelectDone ctx Second);
        if done : bool then mret tt else runWorker c handler fuel ctx) (worker_post ctx rounds) hist') as Hselect.
  { intros hist' Hidle' Hn' done _.
    destruct done; [apply idle_returns; [by apply idle_quiet|]|apply IH; [by apply idle_quiet|by rewrite nreads_quiet]].
    apply done_in_app. right. by apply Exists_cons_hd. }
  intros Hidle Hn. unfold with_metrics, rcall. destruct (c_metrics c); [|by apply Hselect].
  intros [] _. apply Hselect; [by apply idle_quiet|]. by rewrite nreads_quiet.
Qed.

Lemma worker_wp fuel ctx rounds hist :
  idle ctx hist → (nreads hist + fuel)%nat = rounds →
  wp (runWorker c handler fuel ctx) (worker_post ctx rounds) hist.
Proof.
  revert hist. induction fuel as [|fuel IH]; intros hist Hidle Hn.
  { split; [apply Hidle|]. left. destruct Hidle. split_and!; [done|lia|done|done]. }
  simpl. intros x Hx. assert (idle ctx (hist ++ [go_ev (CtxErr ctx) x])) as Hidle1 by (by apply idle_quiet).
  destruct (is_nil x) eqn:Hnil; simpl; [|apply idle_returns; [exact Hidle1|by apply done_in_ctx_err]].
  pose proof (ctx_err_nil _ _ _ Hx Hnil) as Hnd. destruct x; [done|]. intros [streams err] _.
  assert (¬ done_in ctx (hist ++ [go_ev (CtxErr ctx) None])) as Hnd1.
  { rewrite done_in_app. intros [?|Hd]; [done|]. by apply Exists_cons in Hd as [?|?%Exists_nil]. }
  set (rd := redis_ev (J:=J) (XReadGroup ctx (c_group c) (c_consumerID c) (c_stream c) 1
                                (c_blockMs c * Millisecond)) (streams, err)).
  set (h1 := (hist ++ [go_ev (CtxErr ctx) None]) ++ [rd]).
  match goal with |- wp ?p ?Q _ => change (wp p Q h1) end.
  assert (nreads h1 + fuel = rounds)%nat as Hn1
    by (unfold h1; rewrite nreads_app, nreads_quiet by done; change (nreads [rd]) with 1%nat; lia).
  destruct err as [e|].
  - assert (idle ctx h1) as Hidle2.
    { unfold h1. destruct Hidle1 as [Ha Hg Hr]. split; [| |by apply no_read_after_done_snoc].
      - rewrite acks_app, (delivered_app _ [rd]), Ha. done.
      - rewrite gauge_app, Hg. done. }
    destruct (Is e redis_Nil || Is e Canceled); [by apply IH|].
    by apply retry_wp.
  - (* the messages of the read *)
    set (ids := mjoin ((λ s, msg_ID <$> xs_Messages s) <$> streams)).
    apply wp_bind. eapply wp_mono'; [apply (range_ids handler (λ s, msg_ID <$> xs_Messages s))|].
    { intros s hist'. apply process_all_wp. }
    fold ids.
    assert (acks h1 = acks hist ∧ delivered h1 = delivered hist ++ ids ∧ gauge h1 = gauge hist ∧
            no_read_after_done ctx h1) as (Ha1 & Hd1 & Hg1 & Hr1).
    { unfold h1. rewrite !acks_app, !delivered_app, !gauge_app. unfold delivered, acks. simpl.
      rewrite !app_nil_r. split_and!; [done|done|lia|].
      apply no_read_after_done_snoc; [apply Hidle1|done]. }
    clearbody h1. destruct Hidle as [Ha Hg Hr].
    intros tr out (seg & -> & (Hd & Hrd & Hout) & Hnext).
    assert (no_read_after_done ctx (h1 ++ seg)) as Hr2 by (by apply no_read_after_done_app).
    destruct out as [f|s]; simpl.
    + destruct Hout as [Has Hgs]. apply IH; [split; [| |done]|by rewrite nreads_app, (nreads_none seg), Nat.add_0_r].
      * by rewrite acks_app, delivered_app, Ha1, Hd1, Ha, Has, Hd, app_nil_r.
      * rewrite gauge_app. lia.
    + destruct Hout as (Hp & id & rest & Hids). split; [done|].
      right. split; [done|]. exists id, rest.
      by rewrite acks_app, delivered_app, Ha1, Hd1, Hd, Ha, Hids, app_nil_r, <- app_assoc.
Qed.

Lemma idle_nil ctx : idle ctx [].
Proof. split; [done|done|]. intros [|] ? ? ?; done. Qed.

(** C24. At every moment a worker stops, every message it was given is
    acknowledged exactly once, in the order of delivery, and the gauge of
    running cycles is back where it was, unless a run of the handler killed the
    process, where the messages from that one on are not acknowledged.  It
    ends only when its context is done, and never reads another message once
    it saw that; a panic of the handler does not end it, and run for any number
    of rounds it performs that many reads. *)
Theorem runWorker_acks fuel ctx :
  every_run (runWorker c handler fuel ctx) (worker_post ctx fuel).
Proof. apply every_run_wp, worker_wp; [apply idle_nil|done]. Qed.

(** A job is acknowledged once, after its handler ended: the handler's own
    run, with the job's id and the cycle's timeout in its context, precedes
    the acknowledgement; it is counted under status ok exactly when the
    handler returned nil, a panic under error; and a job whose handler killed
    the process is not acknowledged. *)
Theorem process_acks_after_handler ctx msg :
  every_run (process c handler ctx msg) (λ tr out,
    process_seg c handler ctx msg [] tr out ∧ handled_ids handler [msg_ID msg] tr out ∧
    JobIDFrom (handler_ctx c ctx msg) = decodeJobID msg).
Proof.
  apply every_run_wp. eapply wp_mono'; [apply process_wp|]. simpl.
  intros tr out (seg & -> & Hseg). split_and!; [done|by eapply process_seg_ids|done].
Qed.
End worker.

(** ** The reaper *)
Section reaper.
Context `{Json} {J : iface}.
#[local] Existing Instance any_env.
Context (c : Consumer) (handler : Ctx → prog J (option error)).
Implicit Types (tr hist seg : trace (iplus redis J)) (ctx : Ctx).

(** How a scan of the pending entries ends. *)
Definition claim_post tr (out : outcome unit) : Prop :=
  (acks tr = delivered tr ∧ gauge tr = 0 ∧ (out = Returned tt ∨ out = Stopped NoFuel)) ∨
  (c_metrics c = false ∧ out = Stopped (Panic nil_pointer)) ∨
  ∃ id rest s, out = Stopped s ∧ (∀ m, s ≠ Panic m) ∧ delivered tr = acks tr ++ id :: rest.

Lemma claim_quiet (jobs : list XMessage) ctx cursor start err hist :
  acks hist = delivered hist → gauge hist = 0 →
  let h1 := hist ++ [redis_ev (XAutoClaim ctx (c_stream c) (c_group c) (c_midIdle c) cursor 10
                                 (c_consumerID c)) (jobs, start, err)] in
  acks h1 = acks hist ∧ delivered h1 = delivered hist ++ (msg_ID <$> jobs) ∧ gauge h1 = 0.
Proof.
  intros Ha Hg h1. unfold h1. rewrite acks_app, delivered_app, gauge_app.
  unfold acks, delivered. simpl. rewrite !app_nil_r. split_and!; [done|done|lia].
Qed.

Lemma claim_wp fuel ctx cursor hist :
  acks hist = delivered hist → gauge hist = 0 →
  wp (claimPending c handler fuel ctx cursor) claim_post hist.
Proof.
  revert cursor hist. induction fuel as [|fuel IH]; intros cursor hist Ha Hg.
  { left. split_and!; [done|done|]. by right. }
  simpl. intros [[jobs start] err] _.
  destruct (claim_quiet jobs ctx cursor start err hist Ha Hg) as (Ha1 & Hd1 & Hg1).
  set (h1 := hist ++ _) in *.
  match goal with |- wp ?p ?Q _ => change (wp p Q h1) end. clearbody h1.
  assert (∀ h2, acks h2 = acks h1 → delivered h2 = delivered h1 → gauge h2 = 0 →
    wp (_ ← process_all c handler ctx jobs;
        if bool_decide (start = "0-0") then mret tt else claimPending c handler fuel ctx start)
       claim_post h2) as Hjobs.
  { intros h2 Ha2 Hd2 Hg2. apply wp_bind. eapply wp_mono'; [apply process_all_wp|].
    intros tr out (seg & -> & (Hd & _ & Hout) & Hnext).
    destruct out as [f|s]; simpl.
    - destruct Hout as [Has Hgs].
      assert (acks (h2 ++ seg) = delivered (h2 ++ seg) ∧ gauge (h2 ++ seg) = 0) as [Ha3 Hg3].
      { rewrite acks_app, delivered_app, gauge_app. split; [|lia].
        by rewrite Ha2, Hd2, Ha1, Hd1, Has, Hd, Ha, app_nil_r. }
      case_bool_decide; [|by apply IH]. left. split_and!; [done|done|]. by left.
    - destruct Hout as ([Hp _] & id & rest & Hids). right. right. exists id, rest, s. split_and!; [done|done|].
      by rewrite acks_app, delivered_app, Ha2, Hd2, Ha1, Hd1, Hd, Ha, Hids, app_nil_r, <- app_assoc. }
  destruct err as [e|]; simpl; [|by apply Hjobs].
  unfold must_metrics, rcall. destruct (c_metrics c) eqn:Hm.
  - intros [] _. apply Hjobs.
    + by rewrite acks_app, app_nil_r.
    + by rewrite delivered_app, app_nil_r.
    + rewrite gauge_app. simpl. lia.
  - right. by left.
Qed.

(** Taking over pending jobs acknowledges exactly the jobs it was given, in
    order; only if the process dies in a handler a job stays pending.  Without
    metrics a failed claim kills the process: the pointer is used untested. *)
Theorem claimPending_acks fuel ctx cursor :
  every_run (claimPending c handler fuel ctx cursor) claim_post.
Proof. by apply every_run_wp, claim_wp. Qed.
End reaper.

(** *** A Redis that fails

    [XAutoClaim] answers an error; go-redis then returns no messages and an
    empty cursor. *)
Section redis_down.
Context `{Json} {J : iface}.

Definition claim_fails (o : op (iplus redis J)) : ans (iplus redis J) o → Prop :=
  match o with
  | inl (XAutoClaim _ _ _ _ _ _ _) => λ a, a.1.1 = [] ∧ a.1.2 = "" ∧ a.2 ≠ None
  | _ => λ _, True
  end.
#[local] Instance redis_down : Env (iplus redis J) := λ _, claim_fails.

Context (c : Consumer) (handler : Ctx → prog J (option error)).

Definition as_claim (ev : event (iplus redis J)) : option string :=
  match ev with Ev (Ext (inl (XAutoClaim _ _ _ _ start _ _))) _ => Some start | _ => None end.
Definition is_wait (ev : event (iplus redis J)) : bool :=
  match ev with Ev (Go _) _ => true | _ => false end.

(** C38. Once Redis fails, the scan of the pending entries never ends: each
    failed claim is followed at once by another with an empty cursor, without
    a pause and without a look at the context, for as many rounds as one
    cares to run it. *)
Theorem claimPending_spins fuel ctx :
  every_run (claimPending c handler (S fuel) ctx "0-0") (λ tr out,
    if c_metrics c then
      out = Stopped NoFuel ∧ omap as_claim tr = "0-0" :: replicate fuel "" ∧
      Forall (λ ev, is_wait ev = false) tr
    else out = Stopped (Panic nil_pointer)).
Proof.
  apply every_run_wp. destruct (c_metrics c) eqn:Hm.
  - assert (∀ fuel cursor hist, Forall (λ ev, is_wait ev = false) hist →
      wp (claimPending c handler fuel ctx cursor)
         (λ tr out, out = Stopped NoFuel ∧
            omap as_claim tr = omap as_claim hist ++ take fuel (cursor :: replicate (pred fuel) "") ∧
            Forall (λ ev, is_wait ev = false) tr) hist) as Hgen.
    { clear fuel. induction fuel as [|fuel IH]; intros cursor hist Hw.
      { simpl. split_and!; [done|by rewrite app_nil_r|done]. }
      simpl. intros [[jobs start] err] (Hj & Hs & He). simpl in Hj, Hs, He. subst jobs start.
      destruct err as [e|]; [|done]. simpl. unfold must_metrics. rewrite Hm. intros [] _.
      eapply wp_mono'; [apply IH|].
      - apply Forall_app; split; [apply Forall_app; split; [done|]|]; by repeat constructor.
      - intros tr out (-> & Hc & Hw'). split_and!; [done| |done].
        rewrite Hc, !omap_app. simpl. rewrite <- !app_assoc. simpl. do 2 f_equal.
        destruct fuel; [done|]. simpl. by rewrite !take_ge by (rewrite length_replicate; lia). }
    eapply wp_mono'; [by apply Hgen|]. simpl. intros tr out (-> & -> & ?).
    split_and!; [done| |done]. by rewrite take_ge by (rewrite length_replicate; lia).
  - simpl. intros [[jobs start] err] (_ & _ & He). simpl in He. destruct err; [|done]. simpl.
    unfold must_metrics. by rewrite Hm.
Qed.
End redis_down.
