(* ===== verification/Queue.v ===== *)
(** The contract of the consumer: a queue of jobs, as an abstract machine, and
    the refinement of it by the workers and the reaper. *)

From S2P Require Import Prelude GoStd Effects Domain Pool Redis Consumer.

(** ** The machine

    A queue takes a batch of jobs only when it is empty, works on its first
    job only, and drops it when it is acknowledged. *)
Inductive action := Deliver (ids : list string) | Work | Ack (id : string).

Inductive qstep : list string → action → list string → Prop :=
| q_deliver ids : qstep [] (Deliver ids) ids
| q_work id q : qstep (id :: q) Work (id :: q)
| q_ack id q : qstep (id :: q) (Ack id) q.

Inductive accepts : list string → list action → list string → Prop :=
| acc_nil q : accepts q [] q
| acc_cons q a q' acts q'' : qstep q a q' → accepts q' acts q'' → accepts q (a :: acts) q''.

Lemma accepts_app q acts q' acts' q'' :
  accepts q acts q' → accepts q' acts' q'' → accepts q (acts ++ acts') q''.
Proof. induction 1; simpl; [done|]. intros. by econstructor; eauto. Qed.

Lemma accepts_one q a q' : qstep q a q' → accepts q [a] q'.
Proof. intros. by econstructor; [|constructor]. Qed.

(** The machine is deterministic, and can be run. *)
Definition qnext (q : list string) (a : action) : option (list string) :=
  match q, a with
  | [], Deliver ids => Some ids
  | id :: q, Work => Some (id :: q)
  | id :: q, Ack id' => if decide (id' = id) then Some q else None
  | _, _ => None
  end.
Lemma qnext_step q a q' : qnext q a = Some q' ↔ qstep q a q'.
Proof.
  split.
  - destruct q as [|id q], a; simpl; intros Hq; try (case_decide); simplify_eq; constructor.
  - destruct 1; simpl; by rewrite ?decide_True.
Qed.

(** What is in the queue was delivered, and every job leaves it once, in order. *)
Definition delivered_by (a : action) : list string := match a with Deliver ids => ids | _ => [] end.
Definition acked_by (a : action) : list string := match a with Ack id => [id] | _ => [] end.
Lemma accepts_balance q acts q' :
  accepts q acts q' → q ++ (acts ≫= delivered_by) = (acts ≫= acked_by) ++ q'.
Proof.
  induction 1 as [q|q a q' acts q'' Hs _ IH]; [simpl; by rewrite app_nil_r|].
  csimpl. destruct Hs as [ids|id q|id q]; simpl in *; [by rewrite IH|done|by rewrite IH].
Qed.

(** ** The consumer's events as actions *)
Section refinement.
Context `{Json} {J : iface}.
#[local] Existing Instance any_env.
Context (c : Consumer) (handler : Ctx → prog J (option error)).
Implicit Types (tr hist seg : trace (iplus redis J)) (ctx : Ctx).

Definition action_of (ev : event (iplus redis J)) : option action :=
  match ev with
  | Ev (Ext (inr _)) _ => Some Work
  | Ev (Ext (inl (XAck _ _ _ id))) _ => Some (Ack id)
  | Ev (Ext (inl (XAutoClaim _ _ _ _ _ _ _))) (jobs, _, _) => Some (Deliver (msg_ID <$> jobs))
  | Ev (Ext (inl (XReadGroup _ _ _ _ _ _))) (streams, None) =>
      Some (Deliver (mjoin ((λ s, msg_ID <$> xs_Messages s) <$> streams)))
  | _ => None
  end.
Definition actions tr : list action := omap action_of tr.

Lemma actions_app tr tr' : actions (tr ++ tr') = actions tr ++ actions tr'.
Proof. apply omap_app. Qed.
Lemma actions_quiet tr ev : action_of ev = None → actions (tr ++ [ev]) = actions tr.
Proof. intros Hev. unfold actions. rewrite omap_snoc, Hev. apply app_nil_r. Qed.

(** The handler works on the first job of the queue. *)
Lemma injected_work seg id q :
  Forall (λ ev, injected (ev_op ev)) seg → accepts (id :: q) (actions seg) (id :: q).
Proof.
  induction 1 as [|[[g|[o|o]] x] seg Ho _ IH]; [constructor|exact IH|done|].
  econstructor; [apply q_work|exact IH].
Qed.

(** From a queue that begins with [ids], a piece of a run that handles them. *)
Definition works {R} (ids : list string) seg (out : outcome R) : Prop :=
  ∀ q, match out with
       | Returned _ => accepts (ids ++ q) (actions seg) q
       | Stopped _ => ∃ q', accepts (ids ++ q) (actions seg) q'
       end.

Lemma process_works ctx msg hist seg out :
  process_seg c handler ctx msg hist seg out → works [msg_ID msg] seg out.
Proof.
  intros (start & h & hout & Hrun & Hout) q.
  apply (runs_only injected (λ _, True)) in Hrun; [|apply inject_only].
  pose proof (injected_work h (msg_ID msg) q Hrun) as Hh.
  assert (actions (before_handler c start) = []) as Hb
    by (unfold before_handler, if_metrics; by destruct (c_metrics c)).
  destruct (recovered hout).
  - destruct Hout as (now & ackerr & -> & ->). rewrite !actions_app, Hb. simpl.
    eapply accepts_app; [exact Hh|].
    unfold after_handler, if_metrics. destruct (c_metrics c), ackerr; simpl;
      (econstructor; [apply q_ack|constructor]).
  - destruct Hout as [-> ->]. rewrite actions_app, Hb. exists (msg_ID msg :: q). exact Hh.
Qed.

Lemma range_works {A} (ids : A → list string) (xs : list A)
    (body : A → unit → prog (iplus redis J) (flow unit unit)) hist :
  (∀ x hist, wp (body x tt) (λ tr out, ∃ seg, tr = hist ++ seg ∧ works (ids x) seg out ∧
                 (∀ f, out = Returned f → f = Next tt)) hist) →
  wp (range xs tt body)
     (λ tr out, ∃ seg, tr = hist ++ seg ∧ works (mjoin (ids <$> xs)) seg out ∧
                (∀ f, out = Returned f → f = Next tt)) hist.
Proof.
  intros Hbody. revert hist. induction xs as [|x xs IH]; intros hist.
  - apply wp_ret. exists []. rewrite app_nil_r. split; [done|]. split; [|by intros f [= <-]]. constructor.
  - csimpl. apply wp_bind. eapply wp_mono'; [apply Hbody|].
    intros tr out (seg & -> & Hw & Hnext). destruct out as [f|s]; simpl.
    + rewrite (Hnext f eq_refl). eapply wp_mono'; [apply IH|].
      intros tr out (seg' & -> & Hw' & Hn'). exists (seg ++ seg').
      rewrite <- app_assoc. split; [done|]. split; [|done].
      intros q. specialize (Hw' q). specialize (Hw (mjoin (ids <$> xs) ++ q)). rewrite <- app_assoc, actions_app.
      cbn beta iota in Hw. destruct out as [f'|s]; [eapply accepts_app; [exact Hw|exact Hw']|].
      destruct Hw' as [q' Hw']. exists q'. eapply accepts_app; [exact Hw|exact Hw'].
    + exists seg. split; [done|]. split; [|done]. intros q. rewrite <- app_assoc. apply Hw.
Qed.

Lemma process_all_works ctx msgs hist :
  wp (process_all c handler ctx msgs)
     (λ tr out, ∃ seg, tr = hist ++ seg ∧ works (msg_ID <$> msgs) seg out ∧
                (∀ f, out = Returned f → f = Next tt)) hist.
Proof.
  assert (msg_ID <$> msgs = mjoin ((λ m, [msg_ID m]) <$> msgs)) as ->
    by (induction msgs as [|m msgs IH]; [done|]; csimpl; by rewrite IH).
  apply range_works. intros msg hist'. apply wp_bind. eapply wp_mono'; [apply process_wp|].
  intros tr out (seg & -> & Hseg%process_works). destruct out as [[]|s]; simpl.
  - exists seg. split; [done|]. split; [exact Hseg|]. by intros f [= <-].
  - exists seg. done.
Qed.

(** A trace of the machine, that ends with an empty queue if the program ends. *)
Definition refines {R} tr (out : outcome R) : Prop :=
  ∃ q, accepts [] (actions tr) q ∧ ((∃ r, out = Returned r) → q = []).

Lemma refines_stop {R} tr s : accepts [] (actions tr) [] → refines tr (Stopped (R:=R) s).
Proof. intros Ha. exists []. split; [done|]. by intros [r ?]. Qed.
Lemma refines_ret {R} tr (r : R) : accepts [] (actions tr) [] → refines tr (Returned r).
Proof. intros Ha. by exists []. Qed.

(** The jobs of a batch, and what comes after them. *)
Lemma batch_refines {R} ctx (p : prog (iplus redis J) (flow unit unit)) (k : prog (iplus redis J) R) ids hist :
  accepts [] (actions hist) ids →
  (∀ hist', wp p (λ tr out, ∃ seg, tr = hist' ++ seg ∧ works ids seg out ∧
                           (∀ f, out = Returned f → f = Next tt)) hist') →
  (∀ hist', accepts [] (actions hist') [] → wp k refines hist') →
  wp (_ ← p; k) refines hist.
Proof.
  intros Ha Hp Hk. apply wp_bind. eapply wp_mono'; [apply Hp|].
  intros tr out (seg & -> & Hw & _). specialize (Hw []). rewrite app_nil_r in Hw.
  destruct out as [f|s]; cbn [seq_post].
  - apply Hk. rewrite actions_app. by eapply accepts_app.
  - destruct Hw as [q Hq]. exists q. rewrite actions_app. split; [by eapply accepts_app|]. by intros [r ?].
Qed.

Lemma deliver_ids hist ev ids :
  accepts [] (actions hist) [] → action_of ev = Some (Deliver ids) → accepts [] (actions (hist ++ [ev])) ids.
Proof.
  intros Ha Hev. unfold actions in *. rewrite omap_snoc, Hev.
  eapply accepts_app; [exact Ha|]. apply accepts_one, q_deliver.
Qed.

Lemma worker_refines_wp fuel ctx hist :
  accepts [] (actions hist) [] → wp (runWorker c handler fuel ctx) refines hist.
Proof.
  revert hist. induction fuel as [|fuel IH]; intros hist Ha; [by apply refines_stop|].
  simpl. intros x _. destruct (is_nil x); cbn [negb]; [|apply refines_ret; by rewrite actions_quiet].
  intros [streams err] _. destruct err as [e|].
  - match goal with |- wp _ _ ?h => assert (accepts [] (actions h) []) as Ha' by (by rewrite !actions_quiet) end.
    destruct (_ || _); [by apply IH|].
    assert (∀ h, accepts [] (actions h) [] →
      wp (done ← go (SelectDone ctx Second);
          if done : bool then mret tt else runWorker c handler fuel ctx) refines h) as Hsel.
    { intros h Hh done _. destruct done; [apply refines_ret|apply IH]; by rewrite actions_quiet. }
    unfold with_metrics, rcall. destruct (c_metrics c); [|by apply Hsel].
    intros [] _. apply Hsel. by rewrite actions_quiet.
  - apply (batch_refines ctx _ _ (mjoin ((λ s, msg_ID <$> xs_Messages s) <$> streams))).
    + eapply deliver_ids; [by rewrite actions_quiet|done].
    + intros hist'. apply (range_works (λ s, msg_ID <$> xs_Messages s)). intros s hist2. apply process_all_works.
    + intros hist'. apply IH.
Qed.

Lemma claim_refines_wp fuel ctx cursor hist :
  accepts [] (actions hist) [] →
  wp (claimPending c handler fuel ctx cursor) (λ tr out, refines tr out) hist.
Proof.
  revert cursor hist. induction fuel as [|fuel IH]; intros cursor hist Ha; [by apply refines_stop|].
  simpl. intros [[jobs start] err] _.
  match goal with |- wp _ _ ?h =>
    assert (accepts [] (actions h) (msg_ID <$> jobs)) as Ha' by (by eapply deliver_ids)
  end.
  assert (∀ h, accepts [] (actions h) (msg_ID <$> jobs) →
    wp (_ ← process_all c handler ctx jobs;
        if bool_decide (start = "0-0") then mret tt else claimPending c handler fuel ctx start)
       refines h) as Hjobs.
  { intros h Hh. apply (batch_refines ctx _ _ (msg_ID <$> jobs)); [done|apply process_all_works|].
    intros h' Hh'. case_bool_decide; [by apply refines_ret|by apply IH]. }
  destruct err as [e|]; cbn [is_nil]; [|by apply Hjobs].
  unfold must_metrics, rcall. destruct (c_metrics c).
  - intros [] _. apply Hjobs. by rewrite actions_quiet.
  - exists (msg_ID <$> jobs). split; [done|]. by intros [r ?].
Qed.

(** A refining program, and what follows from an empty queue. *)
Lemma seq_refines {R} (p : prog (iplus redis J) unit) (k : prog (iplus redis J) R) hist :
  wp p refines hist → (∀ h, accepts [] (actions h) [] → wp k refines h) → wp (_ ← p; k) refines hist.
Proof.
  intros Hp Hk. apply wp_bind. eapply wp_mono'; [exact Hp|].
  intros tr [u|s] (q & Hq & He); cbn [seq_post].
  - apply Hk. by rewrite (He ltac:(by eexists)) in Hq.
  - exists q. split; [done|]. by intros [r ?].
Qed.

Lemma reaper_refines_wp fuel ctx hist :
  accepts [] (actions hist) [] → wp (runReaper c handler fuel ctx) refines hist.
Proof.
  unfold runReaper. destruct (c_reaperTimeout c <=? 0); [intros; by apply refines_stop|].
  revert hist. induction fuel as [|fuel IH]; intros hist Ha; [by apply refines_stop|].
  cbn [reaper_loop]. intros done _. destruct done; [apply refines_ret; by rewrite actions_quiet|].
  apply seq_refines; [apply claim_refines_wp; by rewrite actions_quiet|exact IH].
Qed.

(** C11. The workers and the reaper implement the queue of jobs: what a run of
    either does, as deliveries, work and acknowledgements, is a run of the
    machine from the empty queue, which ends with the empty queue whenever the
    program ends.  So a batch is read or claimed only when every job of the
    previous one has been acknowledged, the handler works only on the first
    job of the batch, and jobs are acknowledged in order, each after its own
    work; what was delivered is what was acknowledged and what is left. *)
Theorem consumer_refines_queue fuel ctx :
  every_run (runWorker c handler fuel ctx) refines ∧
  every_run (runReaper c handler fuel ctx) refines.
Proof.
  split; apply every_run_wp; [apply worker_refines_wp|apply reaper_refines_wp]; constructor.
Qed.
End refinement.
