(* ===== verification/Codec.v ===== *)
(** The JSON messages of the agent ([internal/jobs/types.go],
    [internal/domain]): how [json.Marshal] writes a result and a trigger, and
    how [json.Unmarshal] reads a trigger, by the struct tags of their types. *)

From S2P Require Import Prelude GoStd Json JsonTree Rfc3339 Effects Domain Redis Consumer.

(** ** Marshalling

    A value is a tree or the error of a [MarshalJSON]. *)
Definition encoded : Type := (json + error)%type.

(** [base64.StdEncoding.EncodeToString] *)
Definition b64_digit (n : Z) : ascii :=
  byte_of_val (if n <? 26 then n + 65 else if n <? 52 then n + 71 else if n <? 62 then n - 4
               else if n =? 62 then 43 else 47).
Fixpoint base64 (l : list ascii) : list ascii :=
  match l with
  | a :: b :: c :: l =>
      let n := byte_val a * 65536 + byte_val b * 256 + byte_val c in
      b64_digit (n / 262144) :: b64_digit (n / 4096 mod 64) :: b64_digit (n / 64 mod 64)
        :: b64_digit (n mod 64) :: base64 l
  | [a; b] =>
      let n := byte_val a * 65536 + byte_val b * 256 in
      [b64_digit (n / 262144); b64_digit (n / 4096 mod 64); b64_digit (n / 64 mod 64); char 61]
  | [a] =>
      let n := byte_val a * 65536 in
      [b64_digit (n / 262144); b64_digit (n / 4096 mod 64); char 61; char 61]
  | [] => []
  end.

Section marshal.
Context `{Zone}.

Definition jstr (s : string) : encoded := inl (JStr s).
Definition jint (z : Z) : encoded := inl (JInt z).
Definition jbool (b : bool) : encoded := inl (JBool b).
(** [[]byte]; the model's empty byte slice is [nil]. *)
Definition jbytes (s : string) : encoded :=
  inl (if bool_decide (s = "") then JNull else JStr (of_bytes (base64 (bytes s)))).
Definition jtime (t : Time) : encoded :=
  match FormatTime t with
  | inl b => inl (JStr (of_bytes b))
  | inr e => inr (ErrWrap "json: error calling MarshalJSON for type time.Time: " e)
  end.

(** The fields of a struct, in order; the first error stops. *)
Fixpoint fields (fs : list (string * encoded)) : list (string * json) + error :=
  match fs with
  | [] => inl []
  | (k, inr e) :: _ => inr e
  | (k, inl v) :: fs => match fields fs with inl ms => inl ((k, v) :: ms) | inr e => inr e end
  end.
Definition jobj (fs : list (string * encoded)) : encoded :=
  match fields fs with inl ms => inl (JObj ms) | inr e => inr e end.

Fixpoint items {A} (f : A → encoded) (l : list A) : list json + error :=
  match l with
  | [] => inl []
  | x :: l =>
      match f x with
      | inr e => inr e
      | inl v => match items f l with inl vs => inl (v :: vs) | inr e => inr e end
      end
  end.
Definition jarr {A} (f : A → encoded) (l : list A) : encoded :=
  match items f l with inl vs => inl (JArr vs) | inr e => inr e end.
Definition jslice {A} (f : A → encoded) (s : slice A) : encoded :=
  match s with SliceNil => inl JNull | SliceOf l => jarr f l end.

(** *** internal/domain *)
Definition enc_Provider (p : Provider) : encoded :=
  jobj [("public_key", jstr (pr_PublicKey p)); ("address", jstr (pr_Address p));
        ("lt", jint (pr_LT p)); ("registered_at", jtime (pr_RegisteredAt p))].

Definition enc_Rates (r : Rates) : encoded :=
  jobj [("rate_per_mb_day", jint (RatePerMBDay r)); ("min_bounty", jint (MinBounty r));
        ("min_span", jint (MinSpan r)); ("max_span", jint (MaxSpan r))].

Definition enc_Endpoint (e : Endpoint) : encoded :=
  jobj [("public_key", jbytes (ep_PublicKey e)); ("ip", jstr (ep_IP e)); ("port", jint (ep_Port e))].

Definition enc_ProviderEndpoint (e : ProviderEndpoint) : encoded :=
  jobj [("public_key", jstr (pe_PublicKey e)); ("provider", enc_Endpoint (pe_Provider e));
        ("storage", enc_Endpoint (pe_Storage e)); ("updated_at", jtime (pe_UpdatedAt e))].

Definition enc_ProviderStatus (s : ProviderStatus) : encoded :=
  jobj [("public_key", jstr (ps_PublicKey s)); ("is_online", jbool (ps_IsOnline s));
        ("checked_at", jtime (ps_CheckedAt s))].

Definition enc_IpInfo (i : IpInfo) : encoded :=
  jobj [("country", jstr (ii_Country i)); ("country_iso", jstr (ii_CountryISO i));
        ("city", jstr (ii_City i)); ("timezone", jstr (ii_TimeZone i)); ("ip", jstr (ii_IP i))].

(** The list of a contract's providers is never [nil]. *)
Definition enc_StorageContract (c : StorageContract) : encoded :=
  jobj [("address", jstr (sc_Address c)); ("bag_id", jstr (sc_BagID c));
        ("owner_address", jstr (sc_OwnerAddr c)); ("size", jint (sc_Size c));
        ("chunk_size", jint (sc_ChunkSize c)); ("last_tx_lt", jint (sc_LastLT c));
        ("providers", jarr jstr (sc_Providers c))].

Definition enc_Relation (r : ContractProviderRelation) : encoded :=
  jobj [("contract_address", jstr (cr_ContractAddr r)); ("provider_public_key", jstr (cr_ProviderPubkey r));
        ("provider_address", jstr (cr_ProviderAddress r)); ("bag_id", jstr (cr_BagID r));
        ("size", jint (cr_Size r))].

Definition enc_ProofResult (r : ProofResult) : encoded :=
  jobj [("contract_address", jstr (pf_ContractAddr r)); ("provider_address", jstr (pf_ProviderAddr r));
        ("reason", jint (pf_Reason r)); ("checked_at", jtime (pf_CheckedAt r))].

(** *** internal/jobs/types.go *)
Definition enc_RateUpdate (u : ProviderRateUpdate) : encoded :=
  jobj [("public_key", jstr (ru_PublicKey u)); ("rates", enc_Rates (ru_Rates u))].

Definition enc_IPInfoUpdate (u : IPInfoUpdate) : encoded :=
  jobj [("public_key", jstr (iu_PublicKey u)); ("ip", jstr (iu_IP u)); ("info", enc_IpInfo (iu_Info u))].

Definition enc_payload (p : payload) : encoded :=
  match p with
  | PScanMaster r =>
      jobj [("new_providers", jslice enc_Provider (sm_NewProviders' r)); ("last_lt", jint (sm_LastLT r));
            ("scanned_count", jint (sm_ScannedCount r))]
  | PScanWallets r =>
      jobj [("contracts", jslice enc_StorageContract (sw_Contracts' r));
            ("relations", jslice enc_Relation (sw_Relations' r));
            ("updated_wallets", jslice enc_Provider (sw_UpdatedWallets' r))]
  | PResolveEndpoints r =>
      jobj [("endpoints", jslice enc_ProviderEndpoint (re_Endpoints' r)); ("skipped", jint (re_Skipped r));
            ("failed", jint (re_Failed r))]
  | PProbeRates r =>
      jobj [("statuses", jslice enc_ProviderStatus (pb_Statuses' r));
            ("rates", jslice enc_RateUpdate (pb_Rates' r))]
  | PInspectContracts r =>
      jobj [("rejected", jslice enc_Relation (ic_Rejected' r)); ("skipped_addrs", jslice jstr (ic_Skipped' r))]
  | PCheckProofs r => jobj [("results", jslice enc_ProofResult (cp_Results' r))]
  | PLookupIPInfo r => jobj [("items", jslice enc_IPInfoUpdate (li_Items' r))]
  end.

(** [error] and [payload] are omitted when empty. *)
Definition enc_ResultEnvelope (e : ResultEnvelope) : encoded :=
  jobj ([("job_id", jstr (env_JobID e)); ("type", jstr (env_Type e)); ("status", jstr (env_Status e))]
        ++ (if bool_decide (env_Error e = "") then [] else [("error", jstr (env_Error e))])
        ++ match env_Payload e with None => [] | Some p => [("payload", enc_payload p)] end
        ++ [("processed_at", jtime (env_ProcessedAt e)); ("agent_id", jstr (env_AgentID e))]).

(** A trigger without a hint, as the load test writes it. *)
Definition enc_Trigger (jobID cycle : string) (enqueuedAt : Time) : encoded :=
  jobj [("job_id", jstr jobID); ("type", jstr cycle); ("enqueued_at", jtime enqueuedAt)].

Definition marshal (x : encoded) : string + error :=
  match x with inl j => inl (of_bytes (print j)) | inr e => inr e end.
End marshal.

(** ** Unmarshalling *)
Definition ErrSyntaxJSON : error := ErrText "json: syntax error".
Definition ErrTypeJSON : error := ErrText "json: cannot unmarshal".
Definition ErrTimeJSON : error := ErrText "Time.UnmarshalJSON: cannot parse".

(** What a field does with its member: a value of another type is remembered as
    an error and skipped, a failing [UnmarshalJSON] ends the decoding. *)
Inductive stored (S : Type) := Stored (s : S) | Mismatch | Failed (s : S) (e : error).
#[global] Arguments Stored {S}.
#[global] Arguments Mismatch {S}.
#[global] Arguments Failed {S}.

Definition field (S : Type) : Type := string * (member → S → stored S).

(** [foldName]: ASCII letters without their case; the long s and the Kelvin
    sign are the only other characters that fold to ASCII. *)
Fixpoint fold_name (l : list ascii) : list ascii :=
  match l with
  | [] => []
  | c :: l' =>
      match l' with
      | c1 :: l1 =>
          if is_char 0xC5 c && is_char 0xBF c1 then char 115 :: fold_name l1
          else
            match l1 with
            | c2 :: l2 =>
                if is_char 0xE2 c && is_char 0x84 c1 && is_char 0xAA c2
                then char 107 :: fold_name l2 else lower_byte c :: fold_name l'
            | [] => lower_byte c :: fold_name l'
            end
      | [] => [lower_byte c]
      end
  end.

Fixpoint find_field {S} (fs : list (field S)) (key : list ascii) : option (member → S → stored S) :=
  match fs with
  | [] => None
  | (name, f) :: fs => if bool_decide (bytes name = key) then Some f else find_field fs key
  end.

(** The members in order; a later one overwrites an earlier one. *)
Fixpoint decode_members {S} (fs : list (field S)) (s : S) (saved : option error) (ms : list member)
    : S * option error :=
  match ms with
  | [] => (s, saved)
  | m :: ms =>
      match find_field fs (fold_name (bytes (m_key m))) with
      | None => decode_members fs s saved ms
      | Some f =>
          match f m s with
          | Stored s => decode_members fs s saved ms
          | Mismatch => decode_members fs s (Some (default ErrTypeJSON saved)) ms
          | Failed s e => (s, Some e)
          end
      end
  end.

(** The members of the object at the front of a text. *)
Definition top_members (l : list ascii) : list member :=
  match skip l with
  | _ :: l => match object (value (pred max_depth)) l with Some (ms, _) => ms | None => [] end
  | [] => []
  end.

Definition decode_struct {S} (fs : list (field S)) (zero : S) (v : json) (l : list ascii)
    : S * option error :=
  match v with
  | JObj _ => decode_members fs zero None (top_members l)
  | JNull => (zero, None)
  | _ => (zero, Some ErrTypeJSON)
  end.

(** [json.Unmarshal(data, &s)] *)
Definition unmarshal {S} (fs : list (field S)) (zero : S) (data : string) : S * option error :=
  match parse (bytes data) with
  | None => (zero, Some ErrSyntaxJSON)
  | Some v => decode_struct fs zero v (bytes data)
  end.

(** Fields of type [string] and [time.Time]. *)
Definition as_string {S} (set : string → S → S) (m : member) (s : S) : stored S :=
  match m_val m with
  | JStr x => Stored (set x s)
  | JNull => Stored s
  | _ => Mismatch
  end.

(** The text between the quotes, taken as it is. *)
Definition time_text (raw : list ascii) : option (list ascii) :=
  match raw with
  | q :: l =>
      if is_char QUOTE q && match last l with Some q' => is_char QUOTE q' | None => false end
      then Some (take (length l - 1) l) else None
  | [] => None
  end.
Definition as_time {S} (set : Time → S → S) (m : member) (s : S) : stored S :=
  if bool_decide (m_raw m = bytes "null") then Stored s
  else
    match time_text (m_raw m) with
    | None => Failed s ErrTimeJSON
    | Some l =>
        match ParseTime l with
        | Some t => Stored (set t s)
        | None => Failed (set zero_time s) ErrTimeJSON
        end
    end.

(** [json.RawMessage] *)
Definition as_raw {S} (set : string → S → S) (m : member) (s : S) : stored S :=
  Stored (set (of_bytes (m_raw m)) s).

Definition zeroTrigger : TriggerEnvelope := mkTriggerEnvelope "" "" None zero_time.
Definition trigger_fields : list (field TriggerEnvelope) :=
  [("job_id", as_string (λ x t, mkTriggerEnvelope x (tr_Type t) (tr_Hint t) (tr_EnqueuedAt t)));
   ("type", as_string (λ x t, mkTriggerEnvelope (tr_JobID t) x (tr_Hint t) (tr_EnqueuedAt t)));
   ("hint", as_raw (λ x t, mkTriggerEnvelope (tr_JobID t) (tr_Type t) (Some x) (tr_EnqueuedAt t)));
   ("enqueued_at", as_time (λ x t, mkTriggerEnvelope (tr_JobID t) (tr_Type t) (tr_Hint t) x))].
Definition unmarshal_trigger (data : string) : TriggerEnvelope * option error :=
  unmarshal trigger_fields zeroTrigger data.

(** The codec the publisher and the consumer are given. *)
#[export] Instance GoJson `{Zone} : Json := {|
  json_Marshal := λ e, marshal (enc_ResultEnvelope e);
  json_Unmarshal := unmarshal_trigger |}.

(** ** Reading a result, as the load test does

    [Payload any] takes whatever value is there; the only value it refuses is
    a number that is no [float64]. *)
Definition pow10 (n : Z) : Z := 10 ^ n.

(** The largest [float64] is less than [2^1024 - 2^970]; from there on a
    literal is rounded out of range. *)
Definition float_limit : Z := 2 ^ 1024 - 2 ^ 970.

(** Mantissa and decimal exponent of a literal. *)
Definition exponent (l : list ascii) : Z :=
  match l with
  | e :: s :: l' => if is_char 45 s then - dec l' else if is_char 43 s then dec l' else dec (s :: l')
  | _ => 0
  end.
Definition float_ok (lit : list ascii) : bool :=
  let (i, l) := digits (match lit with c :: l => if is_char 45 c then l else lit | [] => [] end) in
  let (f, l) := match l with
                | c :: l' => if is_char 46 c then digits l' else ([], l)
                | [] => ([], [])
                end in
  let e := exponent l - Z.of_nat (length f) in
  let m := dec (i ++ f) in
  if 0 <=? e then m * pow10 e <? float_limit else m <? float_limit * pow10 (- e).

Fixpoint floats_ok (j : json) : bool :=
  match j with
  | JNum lit => float_ok lit
  | JArr l => forallb floats_ok l
  | JObj ms => forallb (λ m, floats_ok m.2) ms
  | _ => true
  end.

Record ReadResult := mkReadResult {
  rr_JobID : string;
  rr_Type : string;
  rr_Status : string;
  rr_Error : string;
  rr_Payload : option json;
  rr_ProcessedAt : Time;
  rr_AgentID : string }.
Definition zeroReadResult : ReadResult := mkReadResult "" "" "" "" None zero_time "".

Definition as_any (m : member) (r : ReadResult) : stored ReadResult :=
  if floats_ok (m_val m) then
    Stored (mkReadResult (rr_JobID r) (rr_Type r) (rr_Status r) (rr_Error r)
              (match m_val m with JNull => None | v => Some v end) (rr_ProcessedAt r) (rr_AgentID r))
  else Mismatch.

Definition result_fields : list (field ReadResult) :=
  [("job_id", as_string (λ x r, mkReadResult x (rr_Type r) (rr_Status r) (rr_Error r) (rr_Payload r) (rr_ProcessedAt r) (rr_AgentID r)));
   ("type", as_string (λ x r, mkReadResult (rr_JobID r) x (rr_Status r) (rr_Error r) (rr_Payload r) (rr_ProcessedAt r) (rr_AgentID r)));
   ("status", as_string (λ x r, mkReadResult (rr_JobID r) (rr_Type r) x (rr_Error r) (rr_Payload r) (rr_ProcessedAt r) (rr_AgentID r)));
   ("error", as_string (λ x r, mkReadResult (rr_JobID r) (rr_Type r) (rr_Status r) x (rr_Payload r) (rr_ProcessedAt r) (rr_AgentID r)));
   ("payload", as_any);
   ("processed_at", as_time (λ x r, mkReadResult (rr_JobID r) (rr_Type r) (rr_Status r) (rr_Error r) (rr_Payload r) x (rr_AgentID r)));
   ("agent_id", as_string (λ x r, mkReadResult (rr_JobID r) (rr_Type r) (rr_Status r) (rr_Error r) (rr_Payload r) (rr_ProcessedAt r) x))].
Definition unmarshal_result (data : string) : ReadResult * option error :=
  unmarshal result_fields zeroReadResult data.

Example float_ok_ex :
  float_ok (bytes "-12.5e3") = true ∧ float_ok (bytes "1e309") = false ∧
  float_ok (bytes "0.1E-400") = true.
Proof. vm_compute. split_and!; reflexivity. Qed.

(** ** What was marshalled is read back *)
Lemma max_depth_S : max_depth = S (pred max_depth).
Proof. unfold max_depth, maxNestingDepth. lia. Qed.

(** An object of the agent's own, seen by the decoder. *)
Lemma unmarshal_obj {S} (fs : list (field S)) zero ms :
  clean (JObj ms) → Z.of_nat (depth (JObj ms)) <= maxNestingDepth →
  unmarshal fs zero (of_bytes (print (JObj ms))) = decode_members fs zero None (printed <$> ms).
Proof.
  intros Hc Hd. unfold unmarshal. rewrite bytes_of_bytes, parse_print by done. cbn [decode_struct].
  unfold top_members. rewrite <- (app_nil_r (print (JObj ms))), print_skip by done.
  cbn [print app]. rewrite <- app_assoc. cbn [app]. fold print_member.
  rewrite (object_print _ ms); [done|by inversion Hc|].
  inversion Hc as [| | | | |? Hms]; subst. rewrite Forall_forall in Hms |- *. intros m Hm.
  apply value_print; [by apply Hms|]. cbn [depth] in Hd.
  assert (depth m.2 <= foldr (λ m n, Nat.max (depth m.2) n) 0 ms)%nat; [|unfold max_depth; lia].
  clear -Hm. induction ms as [|m' ms IH]; [by apply elem_of_nil in Hm|].
  apply elem_of_cons in Hm as [-> |Hm]; simpl; [lia|]. specialize (IH Hm). lia.
Qed.

(** *** Numbers *)
Lemma dec_bound l : Forall (λ c, is_digit c = true) l → 0 <= dec l < 10 ^ Z.of_nat (length l).
Proof.
  induction l as [|c l IH] using rev_ind; [done|]. intros [Hl Hc]%Forall_app.
  apply Forall_inv in Hc. unfold is_digit, in_range in Hc.
  rewrite dec_snoc, length_app, Nat2Z.inj_add, Z.pow_add_r by lia.
  change (10 ^ Z.of_nat (length [c])) with 10. specialize (IH Hl). lia.
Qed.

Lemma format_digits_length fuel n : (length (format_digits fuel n []) <= fuel)%nat.
Proof.
  revert n. induction fuel as [|fuel IH]; intros n; [done|]. cbn [format_digits].
  destruct (n <? 10); [simpl; lia|]. rewrite format_digits_app, length_app. specialize (IH (n / 10)).
  simpl. lia.
Qed.

Lemma float_int z : - two63 <= z < two64 → float_ok (int_lit z) = true.
Proof.
  intros Hz. unfold int_lit, two63, two64 in *.
  destruct (format_digits_shape 20 (Z.abs z)) as (c & l & E & Hd & _);
    [lia|change (10 ^ Z.of_nat 20) with 100000000000000000000; lia|lia|].
  pose proof (format_digits_length 20 (Z.abs z)) as Hlen. rewrite E in Hlen |- *.
  assert (float_ok ((if z <? 0 then [char 45] else []) ++ c :: l)
          = (let (i, r) := digits (c :: l) in
             let (f, r) := match r with
                           | c :: l' => if is_char 46 c then digits l' else ([], r)
                           | [] => ([], [])
                           end in
             let e := exponent r - Z.of_nat (length f) in
             let m := dec (i ++ f) in
             if 0 <=? e then m * pow10 e <? float_limit else m <? float_limit * pow10 (- e))) as ->.
  { destruct (z <? 0); [done|]. unfold float_ok. cbn [app].
    assert (is_char 45 c = false) as ->; [|done].
    apply Forall_inv in Hd. unfold is_digit, in_range in Hd. unfold is_char. lia. }
  rewrite <- (app_nil_r (c :: l)) at 1. rewrite digits_app by done. cbv beta iota zeta.
  cbn [exponent length Z.of_nat]. change (0 <=? 0 - 0) with true. cbv iota.
  rewrite app_nil_r. change (pow10 (0 - Z.of_nat 0)) with 1. apply Z.ltb_lt.
  pose proof (dec_bound _ Hd) as Hb.
  assert (10 ^ Z.of_nat (length (c :: l)) <= 10 ^ 20) by (apply Z.pow_le_mono_r; lia).
  assert (10 ^ 20 < float_limit) by (by vm_compute). rewrite Z.mul_1_r. lia.
Qed.

Lemma clean_floats j : clean j → floats_ok j = true.
Proof.
  induction j as [|b|lit|s|l IH|ms IH] using json_ind'; intros Hc; inversion Hc; subst; try done.
  - by apply float_int.
  - cbn [floats_ok]. apply forallb_forall. intros x Hx%list_elem_of_In.
    rewrite Forall_forall in IH. apply IH; [done|].
    match goal with H : Forall clean l |- _ => rewrite Forall_forall in H; by apply H end.
  - cbn [floats_ok]. apply forallb_forall. intros m Hm%list_elem_of_In.
    rewrite Forall_forall in IH. apply IH; [done|].
    match goal with H : Forall _ ms |- _ => rewrite Forall_forall in H; by apply H end.
Qed.

(** *** Times *)
Lemma time_text_quoted l :
  time_text (char QUOTE :: l ++ [char QUOTE]) = Some l.
Proof.
  unfold time_text. rewrite last_snoc. change (is_char QUOTE (char QUOTE)) with true. cbn [andb].
  rewrite length_app. cbn [length]. by rewrite Nat.add_sub, take_app_length.
Qed.

Lemma as_time_read `{Zone} {S} (set : Time → S → S) k t b s :
  whole_minutes t → FormatTime t = inl b →
  as_time set (printed (k, JStr (of_bytes b))) s = Stored (set t s).
Proof.
  intros Ht Hb. pose proof (quote_time b (FormatTime_chars _ _ Hb)) as [_ Hq].
  unfold as_time, printed. cbn [m_raw snd print]. rewrite Hq.
  rewrite bool_decide_eq_false_2 by done.
  by rewrite time_text_quoted, (ParseTime_FormatTime t).
Qed.

(** ** The trigger *)
Lemma enc_Trigger_read `{Zone} jobID cycle t data :
  utf8 (bytes jobID) → utf8 (bytes cycle) → whole_minutes t →
  marshal (enc_Trigger jobID cycle t) = inl data →
  unmarshal_trigger data = (mkTriggerEnvelope jobID cycle None t, None).
Proof.
  intros Hj Hc Ht. unfold enc_Trigger, jobj, jstr, jtime. cbn [fields].
  destruct (FormatTime t) as [b|e] eqn:Hb; [|done]. cbn [marshal]. intros Hd.
  match type of Hd with inl ?x = _ => assert (data = x) as -> by congruence end. clear Hd.
  pose proof (quote_time b (FormatTime_chars _ _ Hb)) as [Hu _].
  unfold unmarshal_trigger. rewrite unmarshal_obj.
  - csimpl. unfold trigger_fields. cbn [decode_members find_field printed m_key m_val fst snd].
    repeat (rewrite bool_decide_eq_true_2 by done || rewrite bool_decide_eq_false_2 by done).
    cbn [as_string m_val printed snd tr_JobID tr_Type tr_Hint tr_EnqueuedAt zeroTrigger].
    change (Member "enqueued_at" _ _) with (printed ("enqueued_at", JStr (of_bytes b))).
    by rewrite (as_time_read _ _ t).
  - constructor. repeat (apply Forall_cons; split; [split|]); try done;
      [by repeat constructor|by constructor|by repeat constructor|by constructor|by repeat constructor|].
    constructor. by rewrite bytes_of_bytes.
  - done.
Qed.

(** ** The result *)
Section results.
Context `{Zone}.

(** A time that RFC 3339 can hold. *)
Definition writable (t : Time) : Prop :=
  whole_minutes t ∧ 0 <= dt_year (civil ((Unix t + offset_at t) / 86400)) <= 9999.

Lemma writable_format t : writable t → ∃ b, FormatTime t = inl b.
Proof.
  intros [[_ Ha] Hy]. unfold FormatTime. cbv zeta. rewrite !(proj2 (Z.leb_le _ _)) by lia. cbn [andb negb].
  rewrite (proj2 (Z.leb_gt _ _)) by (Z.to_euclidean_division_equations; lia). by eexists.
Qed.

(** Strings and integers a message can carry unchanged. *)
Definition text (s : string) : Prop := utf8 (bytes s).
Definition int64 (z : Z) : Prop := - two63 <= z < two64.

Definition ok_Provider (p : Provider) : Prop :=
  text (pr_PublicKey p) ∧ text (pr_Address p) ∧ int64 (pr_LT p) ∧ writable (pr_RegisteredAt p).
Definition ok_Rates (r : Rates) : Prop :=
  int64 (RatePerMBDay r) ∧ int64 (MinBounty r) ∧ int64 (MinSpan r) ∧ int64 (MaxSpan r).
Definition ok_Endpoint (e : Endpoint) : Prop := text (ep_IP e) ∧ int64 (ep_Port e).
Definition ok_ProviderEndpoint (e : ProviderEndpoint) : Prop :=
  text (pe_PublicKey e) ∧ ok_Endpoint (pe_Provider e) ∧ ok_Endpoint (pe_Storage e) ∧ writable (pe_UpdatedAt e).
Definition ok_ProviderStatus (s : ProviderStatus) : Prop := text (ps_PublicKey s) ∧ writable (ps_CheckedAt s).
Definition ok_IpInfo (i : IpInfo) : Prop :=
  text (ii_Country i) ∧ text (ii_CountryISO i) ∧ text (ii_City i) ∧ text (ii_TimeZone i) ∧ text (ii_IP i).
Definition ok_StorageContract (c : StorageContract) : Prop :=
  text (sc_Address c) ∧ text (sc_BagID c) ∧ text (sc_OwnerAddr c) ∧ int64 (sc_Size c) ∧
  int64 (sc_ChunkSize c) ∧ int64 (sc_LastLT c) ∧ Forall text (sc_Providers c).
Definition ok_Relation (r : ContractProviderRelation) : Prop :=
  text (cr_ContractAddr r) ∧ text (cr_ProviderPubkey r) ∧ text (cr_ProviderAddress r) ∧ text (cr_BagID r) ∧
  int64 (cr_Size r).
Definition ok_ProofResult (r : ProofResult) : Prop :=
  text (pf_ContractAddr r) ∧ text (pf_ProviderAddr r) ∧ int64 (pf_Reason r) ∧ writable (pf_CheckedAt r).
Definition ok_RateUpdate (u : ProviderRateUpdate) : Prop := text (ru_PublicKey u) ∧ ok_Rates (ru_Rates u).
Definition ok_IPInfoUpdate (u : IPInfoUpdate) : Prop :=
  text (iu_PublicKey u) ∧ text (iu_IP u) ∧ ok_IpInfo (iu_Info u).
Definition ok_payload (p : payload) : Prop :=
  match p with
  | PScanMaster r => Forall ok_Provider (sm_NewProviders r) ∧ int64 (sm_LastLT r) ∧ int64 (sm_ScannedCount r)
  | PScanWallets r =>
      Forall ok_StorageContract (sw_Contracts r) ∧ Forall ok_Relation (sw_Relations r) ∧
      Forall ok_Provider (sw_UpdatedWallets r)
  | PResolveEndpoints r =>
      Forall ok_ProviderEndpoint (re_Endpoints r) ∧ int64 (re_Skipped r) ∧ int64 (re_Failed r)
  | PProbeRates r => Forall ok_ProviderStatus (pb_Statuses r) ∧ Forall ok_RateUpdate (pb_Rates r)
  | PInspectContracts r => Forall ok_Relation (ic_Rejected r) ∧ Forall text (ic_Skipped r)
  | PCheckProofs r => Forall ok_ProofResult (cp_Results r)
  | PLookupIPInfo r => Forall ok_IPInfoUpdate (li_Items r)
  end.
Definition ok_envelope (e : ResultEnvelope) : Prop :=
  text (env_JobID e) ∧ text (env_Type e) ∧ text (env_Status e) ∧ text (env_Error e) ∧
  text (env_AgentID e) ∧ writable (env_ProcessedAt e) ∧
  match env_Payload e with Some p => ok_payload p | None => True end.

(** *** What is encoded of such values: clean trees of bounded depth *)
Definition good (n : nat) (x : encoded) : Prop := ∃ j, x = inl j ∧ clean j ∧ (depth j <= n)%nat.

Lemma good_str n s : text s → good n (jstr s).
Proof. intros Hs. eexists. split; [done|]. split; [by constructor|simpl; lia]. Qed.
Lemma good_int n z : int64 z → good n (jint z).
Proof. intros Hz. eexists. split; [done|]. split; [by constructor|simpl; lia]. Qed.
Lemma good_bool n b : good n (jbool b).
Proof. eexists. split; [done|]. split; [constructor|simpl; lia]. Qed.

Lemma utf8_ascii_list l : Forall (λ c, byte_val c < 128) l → utf8 l.
Proof. induction 1; by constructor. Qed.

Lemma b64_digit_ascii n : 0 <= n < 64 → byte_val (b64_digit n) < 128.
Proof.
  intros Hn. unfold b64_digit. repeat case_match; rewrite byte_val_of_val; lia.
Qed.

Lemma base64_ascii l : Forall (λ c, byte_val c < 128) (base64 l).
Proof.
  induction l as [l IH] using (induction_ltof1 _ (@length _)); unfold ltof in IH.
  destruct l as [|a [|b [|c l]]]; [constructor| | |]; cbn [base64]; cbv zeta;
    pose proof (byte_val_range a); try pose proof (byte_val_range b); try pose proof (byte_val_range c).
  all: repeat (apply Forall_cons; split;
    [first [done | apply b64_digit_ascii; Z.to_euclidean_division_equations; lia]|]).
  - constructor.
  - constructor.
  - apply IH. simpl. lia.
Qed.

Lemma good_bytes n s : good n (jbytes s).
Proof.
  unfold jbytes. eexists. split; [done|]. case_bool_decide; (split; [|simpl; lia]); constructor.
  rewrite bytes_of_bytes. apply utf8_ascii_list, base64_ascii.
Qed.

Lemma good_time n t : writable t → good n (jtime t).
Proof.
  intros Ht. destruct (writable_format t Ht) as [b Hb]. unfold jtime. rewrite Hb. eexists. split; [done|].
  split; [|simpl; lia]. constructor. rewrite bytes_of_bytes. by eapply quote_time, FormatTime_chars.
Qed.

Lemma fields_good n (fs : list (string * encoded)) :
  Forall (λ f, text f.1 ∧ good n f.2) fs →
  ∃ ms, fields fs = inl ms ∧ Forall (λ m, utf8 (bytes m.1) ∧ clean m.2) ms ∧
        (foldr (λ m k, Nat.max (depth m.2) k) 0 ms <= n)%nat.
Proof.
  induction 1 as [|[k x] fs [Hk (j & Hx & Hj & Hd)] _ (ms & Hms & Hc & Hn)].
  { exists []. split_and!; [done|constructor|simpl; lia]. }
  cbn [fst snd] in *. subst x. cbn [fields]. rewrite Hms. eexists. split; [done|]. split; [by constructor|].
  simpl. lia.
Qed.

Lemma good_obj n (fs : list (string * encoded)) :
  Forall (λ f, text f.1 ∧ good n f.2) fs → good (S n) (jobj fs).
Proof.
  intros (ms & Hms & Hc & Hd)%fields_good. unfold jobj. rewrite Hms. eexists. split; [done|].
  split; [by constructor|]. simpl. lia.
Qed.

Lemma good_arr {A} n (f : A → encoded) l : Forall (λ x, good n (f x)) l → good (S n) (jarr f l).
Proof.
  intros Hl. unfold jarr.
  assert (∃ vs, items f l = inl vs ∧ Forall clean vs ∧ (foldr (λ x k, Nat.max (depth x) k) 0 vs <= n)%nat)
    as (vs & -> & Hc & Hd).
  { induction Hl as [|x l (j & Hx & Hj & Hd) _ (vs & Hvs & Hc & Hn)].
    { exists []. split_and!; [done|constructor|simpl; lia]. }
    cbn [items]. rewrite Hx, Hvs. eexists. split; [done|]. split; [by constructor|]. simpl. lia. }
  eexists. split; [done|]. split; [by constructor|]. simpl. lia.
Qed.

Lemma good_slice {A} n (P : A → Prop) (f : A → encoded) s :
  (∀ x, P x → good n (f x)) → Forall P (elems s) → good (S n) (jslice f s).
Proof.
  intros Hf Hs. destruct s as [|l].
  { exists JNull. split; [done|]. split; [constructor|simpl; lia]. }
  apply good_arr. eapply Forall_impl; [done|apply Hf].
Qed.
End results.

Create HintDb codec discriminated.

(** A struct whose fields have what they need in the context. *)
Ltac good_struct :=
  unfold text, int64 in *; destruct_and?;
  apply good_obj;
  repeat (apply Forall_cons; split;
    [split; [by repeat constructor|]; cbn [snd];
     first [ by apply good_str | by apply good_int | by apply good_bool | by apply good_bytes
           | by apply good_time | by eauto with codec ]|]);
  try constructor.

Section payloads.
Context `{Zone}.

Lemma good_Provider p : ok_Provider p → good 1 (enc_Provider p).
Proof. intros Hp. unfold ok_Provider in Hp. unfold enc_Provider. good_struct. Qed.
Lemma good_Rates r : ok_Rates r → good 1 (enc_Rates r).
Proof. intros Hr. unfold ok_Rates in Hr. unfold enc_Rates. good_struct. Qed.
Lemma good_Endpoint e : ok_Endpoint e → good 1 (enc_Endpoint e).
Proof. intros He. unfold ok_Endpoint in He. unfold enc_Endpoint. good_struct. Qed.
Hint Resolve good_Rates good_Endpoint : codec.
Lemma good_ProviderEndpoint e : ok_ProviderEndpoint e → good 2 (enc_ProviderEndpoint e).
Proof. intros He. unfold ok_ProviderEndpoint in He. unfold enc_ProviderEndpoint. good_struct. Qed.
Lemma good_ProviderStatus s : ok_ProviderStatus s → good 1 (enc_ProviderStatus s).
Proof. intros Hs. unfold ok_ProviderStatus in Hs. unfold enc_ProviderStatus. good_struct. Qed.
Lemma good_IpInfo i : ok_IpInfo i → good 1 (enc_IpInfo i).
Proof. intros Hi. unfold ok_IpInfo in Hi. unfold enc_IpInfo. good_struct. Qed.
Lemma good_texts n l : Forall text l → good (S n) (jarr jstr l).
Proof. intros Hl. apply good_arr. eapply Forall_impl; [done|]. intros s. apply good_str. Qed.
Hint Resolve good_texts good_IpInfo : codec.
Lemma good_StorageContract c : ok_StorageContract c → good 2 (enc_StorageContract c).
Proof. intros Hc. unfold ok_StorageContract in Hc. unfold enc_StorageContract. good_struct. Qed.
Lemma good_Relation r : ok_Relation r → good 1 (enc_Relation r).
Proof. intros Hr. unfold ok_Relation in Hr. unfold enc_Relation. good_struct. Qed.
Lemma good_ProofResult r : ok_ProofResult r → good 1 (enc_ProofResult r).
Proof. intros Hr. unfold ok_ProofResult in Hr. unfold enc_ProofResult. good_struct. Qed.
Lemma good_RateUpdate u : ok_RateUpdate u → good 2 (enc_RateUpdate u).
Proof. intros Hu. unfold ok_RateUpdate in Hu. unfold enc_RateUpdate. good_struct. Qed.
Lemma good_IPInfoUpdate u : ok_IPInfoUpdate u → good 2 (enc_IPInfoUpdate u).
Proof. intros Hu. unfold ok_IPInfoUpdate in Hu. unfold enc_IPInfoUpdate. good_struct. Qed.

Lemma good_list {A} n (P : A → Prop) (f : A → encoded) s :
  (n <= 2)%nat → (∀ x, P x → good n (f x)) → Forall P (elems s) → good 3 (jslice f s).
Proof.
  intros Hn Hf Hs. eapply good_slice; [|exact Hs]. intros x Hx.
  destruct (Hf x Hx) as (j & Hj & Hc & Hd). exists j. split_and!; [done|done|lia].
Qed.

Lemma good_payload p : ok_payload p → good 4 (enc_payload p).
Proof.
  intros Hp. destruct p as [r|r|r|r|r|r|r]; cbn [ok_payload] in Hp; cbn [enc_payload];
    unfold int64 in *; destruct_and?; apply good_obj;
    repeat (apply Forall_cons; split; [split; [by repeat constructor|]; cbn [snd]|]);
    try apply Forall_nil_2; try by apply good_int.
  - by apply (good_list 1 ok_Provider); [lia|apply good_Provider|].
  - by apply (good_list 2 ok_StorageContract); [lia|apply good_StorageContract|].
  - by apply (good_list 1 ok_Relation); [lia|apply good_Relation|].
  - by apply (good_list 1 ok_Provider); [lia|apply good_Provider|].
  - by apply (good_list 2 ok_ProviderEndpoint); [lia|apply good_ProviderEndpoint|].
  - by apply (good_list 1 ok_ProviderStatus); [lia|apply good_ProviderStatus|].
  - by apply (good_list 2 ok_RateUpdate); [lia|apply good_RateUpdate|].
  - by apply (good_list 1 ok_Relation); [lia|apply good_Relation|].
  - by apply (good_list 1 text); [lia|apply good_str|].
  - by apply (good_list 1 ok_ProofResult); [lia|apply good_ProofResult|].
  - by apply (good_list 2 ok_IPInfoUpdate); [lia|apply good_IPInfoUpdate|].
Qed.

(** *** The envelope read back *)
Definition read_back (env : ResultEnvelope) (pl : option json) : ReadResult :=
  mkReadResult (env_JobID env) (env_Type env) (env_Status env) (env_Error env) pl
    (env_ProcessedAt env) (env_AgentID env).

Lemma payload_tree p : ok_payload p → ∃ ms, enc_payload p = inl (JObj ms) ∧ clean (JObj ms) ∧ (depth (JObj ms) <= 4)%nat.
Proof.
  intros Hp. destruct (good_payload p Hp) as (j & Hj & Hc & Hd).
  assert (∃ ms, j = JObj ms) as [ms ->]; [|by exists ms].
  destruct p; cbn [enc_payload] in Hj; unfold jobj in Hj;
    match type of Hj with match ?f with _ => _ end = _ => destruct f as [ms|e] end; simplify_eq; by exists ms.
Qed.

(** The tree of an envelope, from the text of its time and its payload's tree. *)
Definition result_tree (env : ResultEnvelope) (b : list ascii) (pl : option json) : list (string * json) :=
  [("job_id", JStr (env_JobID env)); ("type", JStr (env_Type env)); ("status", JStr (env_Status env))]
  ++ (if bool_decide (env_Error env = "") then [] else [("error", JStr (env_Error env))])
  ++ match pl with None => [] | Some j => [("payload", j)] end
  ++ [("processed_at", JStr (of_bytes b)); ("agent_id", JStr (env_AgentID env))].

Definition small_member (m : string * json) : Prop :=
  utf8 (bytes m.1) ∧ clean m.2 ∧ (depth m.2 <= 4)%nat.

Lemma small_str k s : text k → text s → small_member (k, JStr s).
Proof. intros Hk Hs. split_and!; [done|by constructor|simpl; lia]. Qed.

Lemma result_tree_small env b pl :
  ok_envelope env → utf8 b →
  match pl with Some j => small_member ("payload", j) | None => True end →
  Forall small_member (result_tree env b pl).
Proof.
  intros (Hj & Ht & Hs & He & Ha & _) Hb Hpl. unfold result_tree. rewrite !Forall_app.
  split_and!.
  - repeat (apply Forall_cons; split; [apply small_str; [by repeat constructor|done]|]). constructor.
  - case_bool_decide; [constructor|]. constructor; [|constructor]. by apply small_str; [repeat constructor|].
  - destruct pl; [by constructor|constructor].
  - constructor; [apply small_str; [by repeat constructor|by unfold text; rewrite bytes_of_bytes]|].
    constructor; [|constructor]. by apply small_str; [repeat constructor|].
Qed.

Lemma small_obj ms :
  Forall small_member ms → clean (JObj ms) ∧ Z.of_nat (depth (JObj ms)) <= maxNestingDepth.
Proof.
  intros Hms. split; [constructor; eapply Forall_impl; [done|]; by intros m (? & ? & ?)|].
  assert (depth (JObj ms) <= 5)%nat; [|unfold maxNestingDepth; lia]. cbn [depth].
  induction Hms as [|m ms (_ & _ & Hm) _ IH]; simpl in *; lia.
Qed.

Lemma decode_step {S} (fs : list (field S)) s saved m ms f s' :
  find_field fs (fold_name (bytes m.1)) = Some f → f (printed m) s = Stored s' →
  decode_members fs s saved (printed <$> m :: ms) = decode_members fs s' saved (printed <$> ms).
Proof. intros Hf Hs. csimpl. cbn [m_key printed]. by rewrite Hf, Hs. Qed.

Lemma as_any_read j r :
  clean j → (∃ ms, j = JObj ms) →
  as_any (printed ("payload", j)) r
  = Stored (mkReadResult (rr_JobID r) (rr_Type r) (rr_Status r) (rr_Error r) (Some j)
              (rr_ProcessedAt r) (rr_AgentID r)).
Proof. intros Hj [ms ->]. unfold as_any. cbn [m_val printed snd]. by rewrite clean_floats. Qed.

Lemma result_tree_read env b pl :
  whole_minutes (env_ProcessedAt env) → FormatTime (env_ProcessedAt env) = inl b →
  match pl with Some j => clean j ∧ ∃ ms, j = JObj ms | None => True end →
  decode_members result_fields zeroReadResult None (printed <$> result_tree env b pl)
  = (read_back env pl, None).
Proof.
  intros Hw Hb Hpl. unfold result_tree. destruct env as [job ty st er p at_ ag].
  cbn [env_JobID env_Type env_Status env_Error env_ProcessedAt env_AgentID] in *.
  case_bool_decide as Her; destruct pl as [j|]; cbn [app].
  all: repeat (erewrite decode_step; [|reflexivity|
         first [ reflexivity | apply as_any_read; by destruct Hpl | by apply (as_time_read _ _ at_ b) ]]).
  all: try subst er; reflexivity.
Qed.

Definition payload_json (env : ResultEnvelope) : option json :=
  match env_Payload env with
  | Some p => match enc_payload p with inl j => Some j | inr _ => None end
  | None => None
  end.

Lemma enc_envelope env b :
  ok_envelope env → FormatTime (env_ProcessedAt env) = inl b →
  enc_ResultEnvelope env = inl (JObj (result_tree env b (payload_json env))) ∧
  match payload_json env with
  | Some j => small_member ("payload", j) ∧ clean j ∧ ∃ ms, j = JObj ms
  | None => True
  end.
Proof.
  intros (_ & _ & _ & _ & _ & _ & Hp) Hb.
  unfold enc_ResultEnvelope, payload_json, result_tree, jobj, jtime, jstr. rewrite Hb.
  destruct (env_Payload env) as [p|]; [|by case_bool_decide].
  destruct (payload_tree p Hp) as (ms & -> & Hc & Hd). split; [by case_bool_decide|].
  split; [|split; [done|by eexists]]. split_and!; [by repeat constructor|done|done].
Qed.

(** A result whose strings are valid UTF-8 and whose times RFC 3339 can hold is
    always marshalled, and read back with the same header. *)
Lemma envelope_read env :
  ok_envelope env →
  ∃ data, marshal (enc_ResultEnvelope env) = inl data ∧
          unmarshal_result data = (read_back env (payload_json env), None).
Proof.
  intros Hok. assert (writable (env_ProcessedAt env)) as Hw by apply Hok.
  destruct (writable_format _ Hw) as [b Hb].
  pose proof (quote_time b (FormatTime_chars _ _ Hb)) as [Hu _].
  destruct (enc_envelope env b Hok Hb) as [-> Hpl]. eexists. split; [done|].
  assert (Forall small_member (result_tree env b (payload_json env))) as Hs
    by (apply result_tree_small; [done|done|by destruct (payload_json env); [apply Hpl|]]).
  destruct (small_obj _ Hs) as [Hc Hd].
  unfold unmarshal_result. rewrite unmarshal_obj by done.
  apply result_tree_read; [apply Hw|done|by destruct (payload_json env); [apply Hpl|]].
Qed.
End payloads.

(** ** The contract of the two streams *)

(** C21. The agent takes from a trigger exactly the job id it was written with:
    the JSON of any trigger whose strings are valid UTF-8 and whose time RFC
    3339 can hold is written, and [decodeJobID] of a message that carries it
    answers the job id, whatever the id is. *)
Theorem trigger_roundtrip `{Zone} jobID cycle t :
  text jobID → text cycle → writable t →
  ∃ data, marshal (enc_Trigger jobID cycle t) = inl data ∧
    unmarshal_trigger data = (mkTriggerEnvelope jobID cycle None t, None) ∧
    ∀ msg, msg_Values msg !! "data" = Some (XString data) → decodeJobID msg = jobID.
Proof.
  intros Hj Hc Ht. destruct (writable_format t Ht) as [b Hb].
  assert (∃ data, marshal (enc_Trigger jobID cycle t) = inl data) as [data Hd].
  { unfold enc_Trigger, jobj, jtime, jstr. cbn [fields]. rewrite Hb. by eexists. }
  assert (unmarshal_trigger data = (mkTriggerEnvelope jobID cycle None t, None)) as Hu
    by (eapply enc_Trigger_read; [done|done|apply Ht|done]).
  exists data. split_and!; [done|done|]. intros msg Hmsg. unfold decodeJobID. rewrite Hmsg.
  cbn [json_Unmarshal GoJson]. by rewrite Hu.
Qed.

(** C20. Publishing never fails for the encoding of a result whose strings are
    valid UTF-8, whose integers have 64 bits and whose times RFC 3339 can hold:
    the envelope is marshalled, for each of the seven payloads, and a reader
    that decodes it gets back the job id, the cycle, the status, the error, the
    agent, the instant, and the payload's tree. *)
Theorem result_roundtrip `{Zone} env :
  ok_envelope env →
  ∃ data, json_Marshal env = inl data ∧
          unmarshal_result data = (read_back env (payload_json env), None).
Proof. apply envelope_read. Qed.

Definition UTC : Zone := {| local_offset := λ _, 0 |}.
Definition ex_envelope : ResultEnvelope :=
  mkResultEnvelope "job-1" CycleScanMaster StatusOK ""
    (Some (PScanMaster (mkScanMasterResult
       [mkProvider "ab" "EQ<>" 18446744073709551615 (1777203300 * Second)] 7 1)))
    (1777203314 * Second + 5) "agent".

Ltac ok_by_computing :=
  repeat match goal with
  | |- _ ∧ _ => split
  | |- ok_envelope _ => unfold ok_envelope
  | |- ok_payload _ => cbn [ok_payload]
  | |- ok_Provider _ => unfold ok_Provider
  | |- match _ with _ => _ end => cbn [env_Payload ex_envelope]
  | |- Forall _ _ => constructor
  | |- text _ => by repeat constructor
  | |- int64 _ => by vm_compute
  | |- writable _ => by vm_compute
  end.

Lemma trigger_roundtrip_witness :
  ∃ data, marshal (enc_Trigger (H:=UTC) "job-1" "scan_master" 0) = inl data ∧
    unmarshal_trigger data = (mkTriggerEnvelope "job-1" "scan_master" None 0, None) ∧
    ∀ msg, msg_Values msg !! "data" = Some (XString data) → decodeJobID (H:=@GoJson UTC) msg = "job-1".
Proof. apply (trigger_roundtrip (H:=UTC)); ok_by_computing. Defined.

Lemma result_roundtrip_witness :
  ok_envelope (H:=UTC) ex_envelope ∧
  ∃ data, json_Marshal (Json:=@GoJson UTC) ex_envelope = inl data ∧
    unmarshal_result data = (read_back ex_envelope (payload_json (H:=UTC) ex_envelope), None).
Proof.
  assert (ok_envelope (H:=UTC) ex_envelope) as Hok by ok_by_computing.
  split; [exact Hok|exact (result_roundtrip (H:=UTC) ex_envelope Hok)].
Defined.

(** What the result of an empty cycle looks like: its lists are [null], not
    the empty arrays of docs/02-data-contracts.md. *)
Lemma zero_results_are_null `{Zone} :
  marshal (enc_payload (PScanWallets zeroScanWalletsResult))
  = inl (of_bytes (print (JObj [("contracts", JNull); ("relations", JNull); ("updated_wallets", JNull)]))) ∧
  marshal (enc_payload (PScanWallets (mkScanWalletsResult [] [] [])))
  = inl (of_bytes (print (JObj [("contracts", JArr []); ("relations", JArr []); ("updated_wallets", JArr [])]))).
Proof. done. Qed.
