(* ===== verification/IpConfig.v ===== *)
(** [adapters/outbound/ipconfig]: the location of an IP address, asked of
    ifconfig.co. *)

From S2P Require Import Prelude GoStd Effects Domain Json JsonTree.
From S2P Require Import Codec.

(** ** net/http, as the client uses it

    A response is its status and its body: the bytes read, and the error, if
    any, that ended the reading before the body did. *)
Record response := mkResponse {
  resp_StatusCode : Z;
  resp_Status : string;
  resp_body : string;
  resp_readerr : option error }.

Inductive httpop :=
| NewRequest (ctx : Ctx) (url : string)     (* http.NewRequestWithContext(ctx, "GET", url, nil) *)
| HttpDo (ctx : Ctx) (url : string)         (* http.DefaultClient.Do(req) *)
| BodyClose.

Definition httpop_ans (o : httpop) : Type :=
  match o with
  | NewRequest _ _ => option error
  | HttpDo _ _ => response + error
  | BodyClose => unit
  end%type.
Definition http : iface := Iface httpop httpop_ans.
#[export] Instance httpop_eq_dec : EqDecision httpop.
Proof. solve_decision. Defined.
#[export] Instance http_op_eq_dec : EqDecision (op http) := httpop_eq_dec.
#[export] Instance http_env : Env http := any_env http.

(** ** [json.NewDecoder(body).Decode(&v)]

    The first value of the stream: what follows an object or an array is not
    looked at, any other value must be followed by white space or the end. *)
Definition is_container (j : json) : bool :=
  match j with JArr _ | JObj _ => true | _ => false end.
Definition Decode {S} (fs : list (field S)) (zero : S) (body : string) (readerr : option error)
    : S * option error :=
  let broken := (zero, Some (default ErrSyntaxJSON readerr)) in
  match value max_depth (skip (bytes body)) with
  | None => broken
  | Some (v, rest) =>
      if is_container v then decode_struct fs zero v (bytes body)
      else match rest with
           | [] => if is_nil readerr then decode_struct fs zero v (bytes body) else broken
           | c :: _ => if is_space c then decode_struct fs zero v (bytes body) else broken
           end
  end.

(** ** client.go *)
Record Info := mkInfo {
  inf_IP : string;
  inf_Country : string;
  inf_CountryISO : string;
  inf_City : string;
  inf_TimeZone : string }.
Definition zeroInfo : Info := mkInfo "" "" "" "" "".
Definition info_fields : list (field Info) :=
  [("ip", as_string (λ x i, mkInfo x (inf_Country i) (inf_CountryISO i) (inf_City i) (inf_TimeZone i)));
   ("country", as_string (λ x i, mkInfo (inf_IP i) x (inf_CountryISO i) (inf_City i) (inf_TimeZone i)));
   ("country_iso", as_string (λ x i, mkInfo (inf_IP i) (inf_Country i) x (inf_City i) (inf_TimeZone i)));
   ("city", as_string (λ x i, mkInfo (inf_IP i) (inf_Country i) (inf_CountryISO i) x (inf_TimeZone i)));
   ("time_zone", as_string (λ x i, mkInfo (inf_IP i) (inf_Country i) (inf_CountryISO i) (inf_City i) x))].

Definition GetIPInfo (ctx : Ctx) (ip : string) : prog http (IpInfo * option error) :=
  let op := "adapters.ipconfig.GetIPInfo" in
  let url := "https://ifconfig.co/json?ip=" +:+ ip in
  err ← ext (I:=http) (NewRequest ctx url);
  match err with
  | Some e => mret (zeroIpInfo, Some (wrap op e))
  | None =>
      resp ← ext (I:=http) (HttpDo ctx url);
      match resp with
      | inr e => mret (zeroIpInfo, Some (wrap op e))
      | inl resp =>
          if negb (resp_StatusCode resp =? 200) then
            _ ← ext (I:=http) BodyClose;
            mret (zeroIpInfo, Some (ErrText (op +:+ ":failed to get IP config: " +:+ resp_Status resp)))
          else
            let (config, err) := Decode info_fields zeroInfo (resp_body resp) (resp_readerr resp) in
            _ ← ext (I:=http) BodyClose;
            match err with
            | Some e => mret (zeroIpInfo, Some (wrap op e))
            | None =>
                mret (mkIpInfo (inf_Country config) (inf_CountryISO config) (inf_City config)
                        (inf_TimeZone config) (inf_IP config), None)
            end
      end
  end.

(** ** What it answers *)
Definition as_response (ev : event http) : option (response + error) :=
  match ev with Ev (Ext (HttpDo _ _)) r => Some r | _ => None end.
Definition as_body_close (ev : event http) : option unit :=
  match ev with Ev (Ext BodyClose) _ => Some tt | _ => None end.

Definition ipinfo_post ctx ip (tr : trace http) (out : outcome (IpInfo * option error)) : Prop :=
  (∀ ev, ev ∈ tr → match ev_op ev with
                   | Ext (NewRequest c u) | Ext (HttpDo c u) =>
                       c = ctx ∧ u = "https://ifconfig.co/json?ip=" +:+ ip
                   | _ => True
                   end) ∧
  (* every response's body is closed *)
  length (omap as_body_close tr)
  = length (omap (λ r, match r with inl x => Some x | inr _ => None end : option response) (omap as_response tr)) ∧
  match out with
  | Returned (i, None) => ∃ r config, omap as_response tr = [inl r] ∧ resp_StatusCode r = 200 ∧
      Decode info_fields zeroInfo (resp_body r) (resp_readerr r) = (config, None) ∧
      i = mkIpInfo (inf_Country config) (inf_CountryISO config) (inf_City config)
            (inf_TimeZone config) (inf_IP config)
  | Returned (i, Some _) => i = zeroIpInfo
  | Stopped _ => False
  end.

(** [GetIPInfo] always returns, asks about the address it was given and
    closes every body it got; an information is that of a complete JSON value
    in a response with status 200, and every failure, a body cut short
    included, is an error and the zero information. *)
Theorem GetIPInfo_result ctx ip : every_run (GetIPInfo ctx ip) (ipinfo_post ctx ip).
Proof.
  apply every_run_wp. unfold GetIPInfo. wp_steps.
  all: split; [|split; [done|]].
  all: try (intros ev Hev; simpl in Hev;
    repeat (apply elem_of_cons in Hev as [-> |Hev]; [done|]); by apply elem_of_nil in Hev).
  all: try reflexivity.
  eexists _, _. split; [reflexivity|]. split; [|by split].
  match goal with H : negb (_ =? _) = false |- _ => apply negb_false_iff, Z.eqb_eq in H; exact H end.
Qed.

Example GetIPInfo_ex :
  (exec (calm (I:=http) (λ o, match o with
          | NewRequest _ _ => None
          | HttpDo _ _ => inl (mkResponse 200 "200 OK"
              (of_bytes (bytes "{ " ++ quote "COUNTRY" ++ bytes " :" ++ quote "Malta" ++ bytes "} trailing")) None)
          | BodyClose => tt
          end)) (GetIPInfo Background "1.2.3.4") tt).2
  = Returned (mkIpInfo "Malta" "" "" "" "", None).
Proof. vm_compute. reflexivity. Qed.
