(* ===== verification/Loadtest.v ===== *)
(** [cmd/loadtest]: sends triggers to a cycle's stream and waits for as many
    results. *)

From stdpp Require Import gmap strings.
From S2P Require Import Prelude GoStd Effects Domain Json JsonTree Rfc3339 Redis Codec.

(** ** The flags *)
Record flags := mkFlags {
  fl_prefix : string;
  fl_cycle : string;
  fl_count : Z;
  fl_timeout : Duration }.

(** ** The client, and the source of ids *)
Inductive lop :=
| Ping (ctx : Ctx)
| NewString                                                        (* uuid.NewString() *)
| LXAdd (ctx : Ctx) (stream data : string)
| XRead (ctx : Ctx) (stream lastID : string) (count : Z) (block : Duration).
Definition lop_ans (o : lop) : Type :=
  match o with
  | Ping _ | LXAdd _ _ _ => option error
  | NewString => string
  | XRead _ _ _ _ _ => list XStream * option error
  end%type.
Definition load : iface := Iface lop lop_ans.
#[export] Instance lop_eq_dec : EqDecision lop.
Proof. solve_decision. Defined.
#[export] Instance load_op_eq_dec : EqDecision (op load) := lop_eq_dec.
#[export] Instance load_env : Env load := any_env load.

Definition cycleStream (f : flags) : string := fl_prefix f +:+ ":cycle:" +:+ fl_cycle f.
Definition resultStream (f : flags) : string := fl_prefix f +:+ ":result:" +:+ fl_cycle f.

(** ** Receiving *)
Record recv := mkRecv {
  rc_jobIDs : gset string;
  rc_lastID : string;
  rc_gotOK : Z;
  rc_gotErr : Z }.

Definition handle_message (s : recv) (msg : XMessage) : recv :=
  let s := mkRecv (rc_jobIDs s) (msg_ID msg) (rc_gotOK s) (rc_gotErr s) in
  let raw := match msg_Values msg !! "data" with Some (XString x) => x | _ => "" end in
  match unmarshal_result raw with
  | (_, Some _) => s
  | (env, None) =>
      if decide (rr_JobID env ∈ rc_jobIDs s) then
        let left := rc_jobIDs s ∖ {[ rr_JobID env ]} in
        if bool_decide (rr_Status env = StatusOK)
        then mkRecv left (rc_lastID s) (rc_gotOK s + 1) (rc_gotErr s)
        else mkRecv left (rc_lastID s) (rc_gotOK s) (rc_gotErr s + 1)
      else s
  end.
Definition handle_streams (s : recv) (streams : list XStream) : recv :=
  foldl handle_message s (mjoin (xs_Messages <$> streams)).

(** [for len(jobIDs) > 0 && time.Now().Before(deadline)]; [fuel] bounds the
    rounds. *)
Fixpoint receive (f : flags) (deadline : Time) (fuel : nat) (s : recv) : prog load recv :=
  match fuel with
  | O => Stop NoFuel
  | S fuel =>
      if decide (rc_jobIDs s = ∅) then mret s
      else
        now ← go TimeNow;
        if negb (now <? deadline) then mret s
        else
          now ← go TimeNow;
          let readCtx := WithTimeout Background (Sub deadline now) in
          '(streams, err) ← ext (I:=load) (XRead readCtx (resultStream f) (rc_lastID s) (fl_count f) (2 * Second));
          match (err : option error) with
          | Some _ => receive f deadline fuel s
          | None => receive f deadline fuel (handle_streams s streams)
          end
  end.

(** ** Sending *)
Section main.
Context `{Zone}.

(** [for i := 0; i < *count; i++]; [None]: [log.Fatalf] was called. *)
Fixpoint send (f : flags) (n : nat) (jobIDs : gset string) : prog load (option (gset string)) :=
  match n with
  | O => mret (Some jobIDs)
  | S n =>
      id ← ext (I:=load) NewString;
      now ← go TimeNow;
      match marshal (enc_Trigger id (fl_cycle f) now) with
      | inr _ => mret None
      | inl data =>
          err ← ext (I:=load) (LXAdd Background (cycleStream f) data);
          match (err : option error) with
          | Some _ => mret None
          | None => send f n ({[ id ]} ∪ jobIDs)
          end
      end
  end.

(** The exit code of [main]. *)
Definition main (f : flags) (fuel : nat) : prog load Z :=
  if bool_decide (fl_cycle f = "") then mret 1
  else
    err ← ext (I:=load) (Ping Background);
    match (err : option error) with
    | Some _ => mret 1
    | None =>
        let lastID := "$" in
        _ ← go TimeNow;
        sent ← send f (Z.to_nat (fl_count f)) ∅;
        match (sent : option (gset string)) with
        | None => mret 1
        | Some jobIDs =>
            _ ← go TimeNow;
            now ← go TimeNow;
            let deadline := now + wrap_i64 (fl_timeout f * fl_count f) in
            s ← receive f deadline fuel (mkRecv jobIDs lastID 0 0);
            if negb (bool_decide (rc_jobIDs s = ∅)) then mret 1
            else if 0 <? rc_gotErr s then mret 2
            else mret 0
        end
    end.
End main.

(** ** Reading a trace *)
Implicit Types (tr hist : trace load) (ev : event load).

Definition as_read ev : option string :=
  match ev with Ev (Ext (XRead _ _ lastID _ _)) _ => Some lastID | _ => None end.
Definition messages ev : list XMessage :=
  match ev with Ev (Ext (XRead _ _ _ _ _)) (streams, None) => mjoin (xs_Messages <$> streams) | _ => [] end.
Definition received tr : list XMessage := tr ≫= messages.
Definition as_id ev : option string :=
  match ev with Ev (Ext NewString) id => Some id | _ => None end.
Definition ids tr : list string := omap as_id tr.

(** The read point after an event: the id of the last message. *)
Definition next_point (pt : string) ev : string := default pt (msg_ID <$> last (messages ev)).

(** Every read starts at the point the messages before it moved to. *)
Fixpoint reads_from (pt : string) tr : Prop :=
  match tr with
  | [] => True
  | ev :: tr => match as_read ev with Some l => l = pt | None => True end ∧ reads_from (next_point pt ev) tr
  end.

Lemma reads_from_snoc pt tr ev :
  reads_from pt (tr ++ [ev]) ↔
  reads_from pt tr ∧ match as_read ev with Some l => l = foldl next_point pt tr | None => True end.
Proof. revert pt. induction tr as [|ev' tr IH]; intros pt; simpl; [tauto|]. rewrite IH. tauto. Qed.

(** The result a message carries. *)
Definition carried (m : XMessage) : option ReadResult :=
  match unmarshal_result (match msg_Values m !! "data" with Some (XString x) => x | _ => "" end) with
  | (env, None) => Some env
  | (_, Some _) => None
  end.
Definition answered_ok (ms : list XMessage) (id : string) : Prop :=
  ∃ m env, m ∈ ms ∧ carried m = Some env ∧ rr_JobID env = id ∧ rr_Status env = StatusOK.

(** Between two rounds. *)
Record recv_inv (s : recv) tr : Prop := {
  ri_point : rc_lastID s = foldl next_point "$" tr;
  ri_reads : reads_from "$" tr;
  ri_err : 0 <= rc_gotErr s;
  ri_ids id : id ∈ ids tr → id ∈ rc_jobIDs s ∨ answered_ok (received tr) id ∨ 0 < rc_gotErr s }.

Lemma handle_message_carried s m :
  handle_message s m =
  let s := mkRecv (rc_jobIDs s) (msg_ID m) (rc_gotOK s) (rc_gotErr s) in
  match carried m with
  | None => s
  | Some env =>
      if decide (rr_JobID env ∈ rc_jobIDs s) then
        let left := rc_jobIDs s ∖ {[ rr_JobID env ]} in
        if bool_decide (rr_Status env = StatusOK)
        then mkRecv left (rc_lastID s) (rc_gotOK s + 1) (rc_gotErr s)
        else mkRecv left (rc_lastID s) (rc_gotOK s) (rc_gotErr s + 1)
      else s
  end.
Proof. unfold handle_message, carried. by destruct (unmarshal_result _) as [env [e|]]. Qed.

(** What the messages of a read do to the state. *)
Lemma handle_messages s ms :
  let s' := foldl handle_message s ms in
  rc_lastID s' = default (rc_lastID s) (msg_ID <$> last ms) ∧ rc_gotErr s <= rc_gotErr s' ∧
  ∀ id, id ∈ rc_jobIDs s → id ∈ rc_jobIDs s' ∨ answered_ok ms id ∨ rc_gotErr s < rc_gotErr s'.
Proof.
  induction ms as [|m ms (Hl & He & Hi)] using rev_ind; [simpl; split_and!; [done|lia|by left]|].
  rewrite foldl_snoc, handle_message_carried, last_snoc. simpl.
  set (s' := foldl handle_message s ms) in *.
  assert (∀ id, answered_ok ms id → answered_ok (ms ++ [m]) id) as Hmore.
  { intros id (m' & env & Hm & Hr). exists m', env. split; [rewrite elem_of_app; by left|done]. }
  destruct (carried m) as [env|] eqn:Hc; [|simpl; split_and!; [done|done|naive_solver]].
  destruct (decide _) as [Hin|Hin]; [|simpl; split_and!; [done|done|naive_solver]].
  case_bool_decide as Hst; simpl; (split; [done|]; split; [lia|]); intros id [Hid|[Hid|Hid]]%Hi; auto.
  - destruct (decide (id = rr_JobID env)) as [->|]; [|left; set_solver]. right. left.
    exists m, env. split_and!; [set_solver|done|done|done].
  - right. right. lia.
  - right. right. lia.
Qed.

(** An event that neither reads nor draws an id. *)
Lemma recv_inv_quiet s tr ev :
  as_read ev = None → as_id ev = None → messages ev = [] → recv_inv s tr → recv_inv s (tr ++ [ev]).
Proof.
  intros Hr Hid Hm [Hp Hrd He Hi]. split.
  - rewrite foldl_snoc. unfold next_point. by rewrite Hm.
  - apply reads_from_snoc. by rewrite Hr.
  - done.
  - intros id. unfold ids, received in *. rewrite omap_snoc, Hid, app_nil_r. intros [?|[Ha|?]]%Hi; auto.
    right. left. destruct Ha as (m & env & Hin & Ha). exists m, env. split; [|done].
    rewrite bind_app. set_solver.
Qed.

(** One read. *)
Lemma recv_inv_read s tr ctx stream count block streams err :
  recv_inv s tr →
  let ev := @Ev load (@Ext load (XRead ctx stream (rc_lastID s) count block)) (streams, err) in
  recv_inv (if is_nil err then handle_streams s streams else s) (tr ++ [ev]).
Proof.
  intros [Hp Hrd He Hi] ev.
  assert (reads_from "$" (tr ++ [ev])) as Hrd' by (by apply reads_from_snoc).
  assert (ids (tr ++ [ev]) = ids tr) as Hids by (unfold ids; rewrite omap_snoc; apply app_nil_r).
  assert (received (tr ++ [ev]) = received tr ++ messages ev) as Hrec
    by (unfold received; rewrite bind_app; simpl; by rewrite app_nil_r).
  destruct err as [e|]; cbn [is_nil].
  - split; [rewrite foldl_snoc; exact Hp|done|done|]. intros id. rewrite Hids, Hrec. simpl. rewrite app_nil_r. apply Hi.
  - unfold handle_streams. set (ms := mjoin (xs_Messages <$> streams)) in *.
    destruct (handle_messages s ms) as (Hl & Hge & Hans). split; [|done|lia|].
    + rewrite Hl, foldl_snoc, Hp. done.
    + intros id. rewrite Hids, Hrec. intros [Hin|[Ha|?]]%Hi.
      * destruct (Hans id Hin) as [?|[(m & env & Hm & Ha)|?]]; [by left| |right; right; lia].
        right. left. exists m, env. split; [|done]. apply elem_of_app. by right.
      * right. left. destruct Ha as (m & env & Hm & Ha). exists m, env. split; [|done].
        apply elem_of_app. by left.
      * right. right. lia.
Qed.

Lemma ids_quiet tr ev : as_id ev = None → ids (tr ++ [ev]) = ids tr.
Proof. intros Hev. unfold ids. rewrite omap_snoc, Hev. apply app_nil_r. Qed.

Lemma receive_wp f deadline fuel s hist :
  recv_inv s hist →
  wp (receive f deadline fuel s)
     (λ tr out, reads_from "$" tr ∧ ids tr = ids hist ∧
                ∀ s', out = Returned s' → recv_inv s' tr) hist.
Proof.
  revert s hist. induction fuel as [|fuel IH]; intros s hist Hinv; [by split; [apply Hinv|]|].
  cbn [receive]. destruct (decide _); [split; [apply Hinv|by split; [|intros s' [= <-]]]|].
  apply wp_go_bind. intros now _. apply (recv_inv_quiet _ _ (@Ev load (@Go load TimeNow) now)) in Hinv; [|done..].
  destruct (negb _).
  { split; [apply Hinv|]. split; [by rewrite ids_quiet|by intros s' [= <-]]. }
  apply wp_go_bind. intros now' _. apply (recv_inv_quiet _ _ (@Ev load (@Go load TimeNow) now')) in Hinv; [|done..].
  apply wp_ext_bind. intros [streams err] _.
  apply (recv_inv_read _ _ (WithTimeout Background (Sub deadline now')) (resultStream f) (fl_count f)
           (2 * Second) streams err) in Hinv. cbv zeta in Hinv.
  destruct err as [e|]; (eapply wp_mono'; [apply IH, Hinv|]);
    intros tr out (Hr & Hid & Ho); (split; [exact Hr|]); (split; [|exact Ho]); rewrite Hid;
    by rewrite !ids_quiet.
Qed.

Section main_runs.
Context `{Zone}.

(** Before the first read: every id drawn is waited for. *)
Definition sent_inv (jobs : gset string) tr : Prop :=
  Forall (λ ev, as_read ev = None) tr ∧ ∀ id, id ∈ jobs ↔ id ∈ ids tr.

Lemma sent_inv_quiet jobs tr ev :
  as_read ev = None → as_id ev = None → sent_inv jobs tr → sent_inv jobs (tr ++ [ev]).
Proof.
  intros Hr Hid [Hf Hi]. split; [apply Forall_app; split; [done|by constructor]|].
  intros id. unfold ids in *. rewrite omap_snoc, Hid, app_nil_r. apply Hi.
Qed.

Lemma no_reads_from pt tr : Forall (λ ev, as_read ev = None) tr → reads_from pt tr ∧ foldl next_point pt tr = pt.
Proof.
  induction 1 as [|ev tr Hev _ IH]; [done|]. simpl. rewrite Hev.
  assert (next_point pt ev = pt) as ->; [|tauto].
  destruct ev as [[g|o] x]; [done|]. by destruct o.
Qed.

Lemma send_wp f n jobs hist :
  sent_inv jobs hist →
  wp (send f n jobs)
     (λ tr out, Forall (λ ev, as_read ev = None) tr ∧
                ∃ r, out = Returned r ∧ ∀ jobs', r = Some jobs' →
                  sent_inv jobs' tr ∧ (length (ids hist) + n = length (ids tr))%nat) hist.
Proof.
  revert jobs hist. induction n as [|n IH]; intros jobs hist Hinv.
  { split; [apply Hinv|]. eexists. split; [done|]. intros jobs' [= <-]. split; [done|lia]. }
  cbn [send]. apply wp_ext_bind. intros id _. apply wp_go_bind. intros now _.
  set (h1 := hist ++ [@Ev load (@Ext load NewString) id]).
  assert (sent_inv ({[id]} ∪ jobs) (h1 ++ [@Ev load (@Go load TimeNow) now])) as Hinv1.
  { apply sent_inv_quiet; [done..|]. destruct Hinv as [Hf Hi]. split.
    - apply Forall_app. split; [done|by constructor].
    - intros id'. unfold h1, ids in *. rewrite omap_snoc. simpl. rewrite elem_of_union, elem_of_singleton.
      rewrite elem_of_app, list_elem_of_singleton, Hi. tauto. }
  assert (length (ids (h1 ++ [@Ev load (@Go load TimeNow) now])) = S (length (ids hist))) as Hlen.
  { unfold h1, ids. rewrite !omap_snoc, !length_app. simpl. lia. }
  set (h2 := h1 ++ [@Ev load (@Go load TimeNow) now]) in *. clearbody h2. clear h1.
  destruct (marshal _) as [data|e]; [|by split; [apply Hinv1|by eexists]].
  apply wp_ext_bind. intros err _.
  assert (sent_inv ({[id]} ∪ jobs) (h2 ++ [@Ev load (@Ext load (LXAdd Background (cycleStream f) data)) err])) as Hinv2
    by (by apply sent_inv_quiet).
  assert (length (ids (h2 ++ [@Ev load (@Ext load (LXAdd Background (cycleStream f) data)) err])) = S (length (ids hist))) as Hlen2.
  { unfold ids in *. rewrite omap_snoc, length_app. simpl. lia. }
  destruct err as [e|]; [by split; [apply Hinv2|by eexists]|].
  eapply wp_mono'; [by apply IH|]. intros tr out (Hf & r & -> & Hr). split; [done|].
  exists r. split; [done|]. intros jobs' Hj. destruct (Hr jobs' Hj) as [Hs Hl]. split; [done|]. lia.
Qed.

Definition main_post (f : flags) tr (out : outcome Z) : Prop :=
  reads_from "$" tr ∧
  (out = Returned 0 →
     length (ids tr) = Z.to_nat (fl_count f) ∧
     ∀ id, id ∈ ids tr → answered_ok (received tr) id).

Lemma main_wp f fuel : wp (main f fuel) (main_post f) [].
Proof.
  unfold main. case_bool_decide; [done|].
  apply wp_ext_bind. intros err _. destruct err as [e|]; [done|].
  apply wp_go_bind. intros t0 _. apply wp_bind.
  eapply wp_mono'; [apply (send_wp _ _ ∅)|].
  { split; [by repeat constructor|]. intros id. unfold ids. simpl. set_solver. }
  intros tr out (Hf & r & -> & Hr). cbn [seq_post].
  destruct r as [jobs|]; [|split; [by apply no_reads_from|done]].
  destruct (Hr jobs eq_refl) as [Hsent Hlen]. clear Hr Hf.
  apply wp_go_bind. intros t1 _. apply (sent_inv_quiet _ _ (@Ev load (@Go load TimeNow) t1)) in Hsent; [|done..].
  apply wp_go_bind. intros t2 _. apply (sent_inv_quiet _ _ (@Ev load (@Go load TimeNow) t2)) in Hsent; [|done..].
  set (h := (tr ++ _) ++ _) in *.
  assert (length (ids h) = Z.to_nat (fl_count f)) as Hlen'
    by (unfold h, ids in *; rewrite !omap_snoc, !length_app; simpl in *; lia). clearbody h.
  assert (recv_inv (mkRecv jobs "$" 0 0) h) as Hinv.
  { destruct Hsent as [Hf Hi]. destruct (no_reads_from "$" h Hf) as [Hr Hp].
    split; [done|done|simpl; lia|]. intros id Hid. left. by apply Hi. }
  apply wp_bind. eapply wp_mono'; [by apply receive_wp|].
  intros tr' out (Hr & Hids & Ho). destruct out as [s|st]; cbn [seq_post]; [|done].
  specialize (Ho s eq_refl). destruct Ho as [_ _ _ Hi].
  destruct (bool_decide (rc_jobIDs s = ∅)) eqn:Hempty; cbn [negb]; [|done].
  apply bool_decide_eq_true in Hempty. destruct (Z.ltb_spec 0 (rc_gotErr s)); [done|].
  split; [done|]. intros _. split; [by rewrite Hids|].
  intros id [Hin|[?|?]]%Hi; [set_solver|done|lia].
Qed.
(** C40. The load test exits with 0 only if every trigger it sent was answered:
    for each id there is a message it received that carries a result of that
    job with status ok, as many ids as it was asked for.  And every read of the
    result stream starts where the messages received before it end, which is
    the point "$" of Redis, the end of the stream at the time of the call, for
    as long as nothing was received. *)
Theorem main_exit f fuel : every_run (main f fuel) (main_post f).
Proof. apply every_run_wp, main_wp. Qed.

(** *** Results that arrive before the first read

    Redis answers a read from "$" with messages added while it waits, and with
    an error when there are none. *)
Definition answered_before (o : lop) : lop_ans o → Prop :=
  match o with
  | XRead _ _ lastID _ _ => λ a, lastID = "$" → a.2 ≠ None
  | _ => λ _, True
  end.
Definition early_results : Env load := λ _, answered_before.

Lemma nothing_received pt tr :
  pt = "$" → reads_from pt tr →
  (∀ (o : lop) (x : lop_ans o), @Ev load (@Ext load o) x ∈ tr → answered_before o x) →
  received tr = [].
Proof.
  revert pt. induction tr as [|ev tr IH]; intros pt -> Hr Hlaw; [done|].
  destruct Hr as [Hev Hr].
  assert (messages ev = []) as Hm.
  { destruct ev as [[g|o] x]; [done|]. specialize (Hlaw o x ltac:(set_solver)).
    destruct o; try done. simpl in Hev, Hlaw, x |- *. destruct x as [streams [e|]]; [done|].
    by destruct (Hlaw Hev). }
  unfold received in *. simpl. rewrite Hm. apply (IH (next_point "$" ev)).
  - unfold next_point. by rewrite Hm.
  - done.
  - intros o x Hin. apply Hlaw. set_solver.
Qed.

(** The read point is not remembered before the triggers are sent, as its
    comment says: when the results arrive before the first read, so that no
    read from "$" sees a message, the load test never exits with 0, although
    every trigger may have been answered. *)
Theorem main_misses_early_results f fuel :
  0 < fl_count f →
  every_run (E:=early_results) (main f fuel) (λ _ out, out ≠ Returned 0).
Proof.
  intros Hc tr out Hrun ->.
  destruct (proj1 (wp_runs _ _ []) (main_wp f fuel) _ _ (runs_any _ _ _ _ _ Hrun)) as [Hr Ho].
  destruct (Ho eq_refl) as [Hlen Hans].
  assert (received tr = []) as Hrec.
  { eapply nothing_received; [done|exact Hr|]. intros o x Hin.
    exact (runs_law (I:=load) answered_before _ _ _ _ o x Hrun Hin). }
  cbn [app] in Hlen, Hans. destruct (ids tr) as [|id l]; [cbn [length] in Hlen; lia|].
  destruct (Hans id ltac:(set_solver)) as (m & env & Hm & _). rewrite Hrec in Hm. by apply elem_of_nil in Hm.
Qed.
End main_runs.

Definition ex_flags : flags := mkFlags "mtpa" "scan_master" 1 (60 * Second).
Lemma main_misses_early_results_witness :
  0 < fl_count ex_flags ∧
  every_run (E:=early_results) (main (H:=UTC) ex_flags 5) (λ _ out, out ≠ Returned 0).
Proof. split; [done|exact (main_misses_early_results (H:=UTC) ex_flags 5 eq_refl)]. Defined.
