(* ===== verification/Ton.v ===== *)
(** [adapters/outbound/ton]: the master-wallet scanner, the provider-wallet
    scanner and the inspector, over the interface [tonclient.Client]. *)

From S2P Require Import Prelude GoStd Effects Domain.

(** ** The types and the interface of ton/liteclient *)
Record Transaction := mkTransaction {
  tx_Hash : string;
  tx_LT : Z;
  tx_Op : Z;
  tx_From : string;
  tx_To : string;
  tx_Message : string;
  tx_CreatedAt : Time }.

Record ContractInfo := mkContractInfo {     (* tonclient.StorageContract *)
  in_Address : string;
  in_BagID : string;
  in_OwnerAddr : string;
  in_Size : Z;
  in_ChunkSize : Z }.

Record ProviderInfo := mkProviderInfo {     (* tonclient.Provider *)
  pi_Key : string;
  pi_LastProofTime : Time;
  pi_RatePerMBDay : Z;
  pi_MaxSpan : Z }.

Record StorageContractProviders := mkContractProviders {
  cpv_Address : string;
  cpv_Balance : Z;
  cpv_Providers : list ProviderInfo;
  cpv_LiteServerError : bool }.

Inductive tonop :=
| GetTransactions (ctx : Ctx) (addr : string) (lastProcessedLT : Z)
| GetStorageContractsInfo (ctx : Ctx) (addrs : list string)
| GetProvidersInfo (ctx : Ctx) (addrs : list string).

(** A transaction of the slice may be a nil pointer. *)
Definition tonop_ans (o : tonop) : Type :=
  match o with
  | GetTransactions _ _ _ => list (option Transaction) * option error
  | GetStorageContractsInfo _ _ => list ContractInfo * option error
  | GetProvidersInfo _ _ => list StorageContractProviders * option error
  end%type.

Definition tonclient : iface := Iface tonop tonop_ans.
#[export] Instance tonop_eq_dec : EqDecision tonop.
Proof. solve_decision. Defined.
#[export] Instance tonclient_op_eq_dec : EqDecision (op tonclient) := tonop_eq_dec.
#[export] Instance tonclient_env : Env tonclient := any_env tonclient.
Abbreviation tcall o := (ext (I:=tonclient) o).
Abbreviation tanswered o x := (@Ev tonclient (@Ext tonclient o) x).

Definition getTxTimeout : Duration := 20 * Second.

(** ** master_scanner.go *)
Definition pubkeyHexLen : Z := 64.

Definition IsUserFriendly (s : string) : bool :=
  (strlen s =? 48) && match_userFriendlyAddrTemplate s.

Section master_scanner.
Context `{Unicode}.

(** The public key a registration comment carries. *)
Definition registration_key (message : string) : option string :=
  let pos := Index message TspRegistrationPrefix in
  if pos <? 0 then None
  else
    let pos := pos + strlen TspRegistrationPrefix in
    if strlen message <=? pos then None
    else
      let pubkey := ToLower (drop_bytes pos message) in
      if negb (strlen pubkey =? pubkeyHexLen) then None
      else
        let (raw, decErr) := DecodeString pubkey in
        if negb (is_nil decErr) || negb (strlen raw =? 32) then None else Some pubkey.

Record master_state := mkMasterState {
  ms_unique : gmap string Provider;
  ms_lastLT : Z }.

Definition master_tx (fromLT : Z) (s : master_state) (otx : option Transaction) : master_state :=
  match otx with
  | None => s
  | Some tx =>
      if tx_LT tx <=? fromLT then s
      else
        let lastLT := if ms_lastLT s <? tx_LT tx then tx_LT tx else ms_lastLT s in
        let s := mkMasterState (ms_unique s) lastLT in
        if negb (IsUserFriendly (tx_From tx)) then s
        else
          match registration_key (tx_Message tx) with
          | None => s
          | Some pubkey =>
              match ms_unique s !! pubkey with
              | Some _ => s
              | None =>
                  mkMasterState
                    (<[pubkey := mkProvider pubkey (tx_From tx) 0 (tx_CreatedAt tx)]> (ms_unique s))
                    lastLT
              end
          end
  end.

Definition MasterScan (ctx : Ctx) (masterAddr : string) (fromLT : Z)
    : prog tonclient (list Provider * Z * option error) :=
  let op := "adapters.outbound.ton.MasterScanner.Scan" in
  '(txs, err) ← tcall (GetTransactions (WithTimeout ctx getTxTimeout) masterAddr fromLT);
  match err with
  | Some e => mret ([], fromLT, Some (ErrWrap (op +:+ ": get transactions: ") e))
  | None =>
      let s := foldl (master_tx fromLT) (mkMasterState ∅ fromLT) txs in
      if decide (ms_unique s = ∅) then mret ([], ms_lastLT s, None)
      else
        keys ← go (RangeKeys (map_to_list (ms_unique s)).*1);
        mret (omap (λ k, ms_unique s !! k) keys, ms_lastLT s, None)
  end.
End master_scanner.

(** ** scanner.go *)
Record wallet_state := mkWalletState {
  ws_contractLT : gmap string Z;
  ws_lastLT : Z }.

Definition wallet_tx (s : wallet_state) (otx : option Transaction) : wallet_state :=
  match otx with
  | None => s
  | Some tx =>
      if negb (tx_Op tx =? StorageRewardWithdrawalOpCode) then s
      else
        mkWalletState
          (if default 0 (ws_contractLT s !! tx_From tx) <? tx_LT tx
           then <[tx_From tx := tx_LT tx]> (ws_contractLT s) else ws_contractLT s)
          (if ws_lastLT s <? tx_LT tx then tx_LT tx else ws_lastLT s)
  end.

Definition wallet_contracts (walletAddr : string) (contractLT : gmap string Z)
    (infos : list ContractInfo) : list StorageContract :=
  omap (λ info,
          txLT ← contractLT !! in_Address info;
          Some (mkStorageContract (in_Address info) (in_BagID info) (in_OwnerAddr info)
                  (in_Size info) (in_ChunkSize info) txLT [walletAddr])) infos.

Definition WalletScan (ctx : Ctx) (walletAddr : string) (fromLT : Z)
    : prog tonclient (list StorageContract * Z * option error) :=
  let op := "adapters.outbound.ton.Scanner.Scan" in
  '(txs, err) ← tcall (GetTransactions (WithTimeout ctx getTxTimeout) walletAddr fromLT);
  match err with
  | Some e => mret ([], fromLT, Some (ErrWrap (op +:+ ": get transactions: ") e))
  | None =>
      let s := foldl wallet_tx (mkWalletState ∅ fromLT) txs in
      if decide (ws_contractLT s = ∅) then mret ([], ws_lastLT s, None)
      else
        addrs ← go (RangeKeys (map_to_list (ws_contractLT s)).*1);
        '(infos, err) ← tcall (GetStorageContractsInfo ctx addrs);
        match err with
        | Some e =>
            mret ([], fromLT, Some (ErrWrap (op +:+ ": get storage contracts info: ") e))
        | None => mret (wallet_contracts walletAddr (ws_contractLT s) infos, ws_lastLT s, None)
        end
  end.

(** ** inspector.go *)
Definition on_chain_provider (p : ProviderInfo) : OnChainProvider :=
  mkOnChainProvider (pi_Key p) (pi_LastProofTime p) (pi_RatePerMBDay p) (pi_MaxSpan p).
Definition on_chain_state (r : StorageContractProviders) : ContractOnChainState :=
  mkOnChainState (cpv_Address r) (cpv_Balance r) (on_chain_provider <$> cpv_Providers r)
    (cpv_LiteServerError r).

Definition InspectProviders (ctx : Ctx) (addrs : list string)
    : prog tonclient (list ContractOnChainState * option error) :=
  let op := "adapters.outbound.ton.Inspector.InspectProviders" in
  match addrs with
  | [] => mret ([], None)
  | _ =>
      '(raw, err) ← tcall (GetProvidersInfo ctx addrs);
      match err with
      | Some e => mret ([], Some (wrap op e))
      | None => mret (on_chain_state <$> raw, None)
      end
  end.

(** ** Properties of the master scanner *)
Section master_properties.
Context `{Unicode}.
Implicit Types (txs : list (option Transaction)) (ctx : Ctx) (tr : trace tonclient).

(** The transactions after [fromLT], and the registrations among them. *)
Definition fresh_txs (fromLT : Z) txs : list Transaction :=
  filter (λ tx, fromLT < tx_LT tx) (omap id txs).
Definition registration (tx : Transaction) : option Provider :=
  if IsUserFriendly (tx_From tx) then
    pubkey ← registration_key (tx_Message tx);
    Some (mkProvider pubkey (tx_From tx) 0 (tx_CreatedAt tx))
  else None.
Definition registrations (fromLT : Z) txs : list Provider := omap registration (fresh_txs fromLT txs).

(** A public key in the form the whole agent compares keys in: the lower-case
    hexadecimal digits of 32 bytes. *)
Definition canonical_key (pk : string) : Prop :=
  ∃ raw, strlen raw = 32 ∧ DecodeString pk = (raw, None) ∧ EncodeToString raw = pk ∧ strlen pk = 64.

Lemma registration_key_canonical m pk : registration_key m = Some pk → canonical_key pk.
Proof.
  unfold registration_key. destruct (_ <? 0); [done|]. destruct (_ <=? _); [done|].
  set (s := drop_bytes _ _). destruct (strlen (ToLower s) =? pubkeyHexLen) eqn:Hlen; [|done]. simpl.
  destruct (DecodeString (ToLower s)) as [raw e] eqn:Hd.
  destruct (negb (is_nil e) || negb (strlen raw =? 32)) eqn:Hc; [done|]. intros [= <-].
  apply orb_false_iff in Hc as [He Hr]. destruct e; [done|]. exists raw.
  split_and!; [by apply Z.eqb_eq, negb_false_iff|done| |by apply Z.eqb_eq].
  unfold DecodeString in Hd. destruct (hex_decode _) as [l e'] eqn:Hx. injection Hd as <- ->.
  unfold EncodeToString. rewrite bytes_of_bytes.
  destruct (hex_decode_ok_digits _ _ Hx) as [Hdig _].
  rewrite (hex_encode_decode (bytes (ToLower s))); [apply of_bytes_bytes| |done].
  pose proof (ToLower_no_upper s) as Hup. rewrite Forall_forall in *.
  intros c Hin. destruct (Hdig c Hin) as [n Hn]. by eapply from_hex_lower; [apply Hup|].
Qed.

Lemma max_if x y : (if x <? y then y else x) = Z.max x y.
Proof. destruct (Z.ltb_spec x y); lia. Qed.

Lemma fresh_txs_snoc fromLT txs otx :
  fresh_txs fromLT (txs ++ [otx]) =
  fresh_txs fromLT txs ++ match otx with
                          | Some tx => if fromLT <? tx_LT tx then [tx] else []
                          | None => []
                          end.
Proof.
  unfold fresh_txs. rewrite omap_snoc, filter_app. destruct otx as [tx|]; simpl; [|done].
  rewrite filter_cons. destruct (Z.ltb_spec fromLT (tx_LT tx)); by case_decide; try lia.
Qed.

(** The loop computes the first registration of every key and the largest LT. *)
Lemma master_fold fromLT txs :
  let s := foldl (master_tx fromLT) (mkMasterState ∅ fromLT) txs in
  (∀ k, ms_unique s !! k = head (filter (λ p, pr_PublicKey p = k) (registrations fromLT txs))) ∧
  ms_lastLT s = foldl Z.max fromLT (tx_LT <$> fresh_txs fromLT txs).
Proof.
  induction txs as [|otx txs IH] using rev_ind; [done|].
  rewrite foldl_snoc, fresh_txs_snoc. unfold registrations in *. rewrite fresh_txs_snoc.
  set (s := foldl _ _ txs) in *. destruct IH as [IHu IHl]. cbv zeta.
  destruct otx as [tx|]; simpl; [|by rewrite !app_nil_r].
  destruct (Z.leb_spec (tx_LT tx) fromLT), (Z.ltb_spec fromLT (tx_LT tx)); try lia;
    [by rewrite !app_nil_r|].
  rewrite max_if, omap_snoc, fmap_app, foldl_app. simpl. unfold registration at 2.
  destruct (IsUserFriendly (tx_From tx)); simpl; [|by rewrite !app_nil_r, <- IHl].
  destruct (registration_key (tx_Message tx)) as [pk|]; simpl; [|by rewrite !app_nil_r, <- IHl].
  destruct (ms_unique s !! pk) eqn:Hpk; simpl; (split; [|by rewrite <- IHl]); intros k;
    rewrite filter_snoc; simpl; case_decide as Hk; subst.
  - rewrite IHu in Hpk. rewrite IHu. by destruct (filter _ _).
  - apply IHu.
  - rewrite lookup_insert_eq. rewrite IHu in Hpk. by destruct (filter _ _).
  - by rewrite lookup_insert_ne.
Qed.

Lemma foldl_max_ge l a : a <= foldl Z.max a l ∧ ∀ x, x ∈ l → x <= foldl Z.max a l.
Proof.
  revert a. induction l as [|y l IH]; intros a; simpl.
  - split; [done|]. by intros x ?%elem_of_nil.
  - destruct (IH (Z.max a y)) as [Hge Hall]. split; [lia|].
    intros x [->|Hx]%elem_of_cons; [lia|by apply Hall].
Qed.

(** What a scan returns, given the transactions. *)
Definition master_scan_post ctx masterAddr fromLT tr (out : outcome (list Provider * Z * option error)) : Prop :=
  ∃ txs err providers lastLT rerr,
    tanswered (GetTransactions (WithTimeout ctx getTxTimeout) masterAddr fromLT) (txs, err) ∈ tr ∧
    out = Returned (providers, lastLT, rerr) ∧ is_nil rerr = is_nil err ∧
    if is_nil err then
      NoDup (pr_PublicKey <$> providers) ∧
      (∀ p, p ∈ providers ↔
            head (filter (λ q, pr_PublicKey q = pr_PublicKey p) (registrations fromLT txs)) = Some p) ∧
      (∀ p, p ∈ providers → canonical_key (pr_PublicKey p)) ∧
      lastLT = foldl Z.max fromLT (tx_LT <$> fresh_txs fromLT txs) ∧ fromLT <= lastLT
    else providers = [] ∧ lastLT = fromLT.

Lemma MasterScan_wp ctx masterAddr fromLT :
  wp (MasterScan ctx masterAddr fromLT) (master_scan_post ctx masterAddr fromLT) [].
Proof.
  unfold MasterScan. apply wp_ext_bind. intros [txs [e|]] _.
  { apply wp_ret. exists txs, (Some e). do 3 eexists. split; [list_member|]. by split_and!. }
  destruct (master_fold fromLT txs) as [Hu Hl].
  pose proof (foldl_max_ge (tx_LT <$> fresh_txs fromLT txs) fromLT) as [Hge _].
  set (s := foldl _ _ txs) in *.
  assert (∀ k p, ms_unique s !! k = Some p → pr_PublicKey p = k ∧ canonical_key k) as Hkey.
  { intros k p Hk. rewrite Hu in Hk. apply head_Some in Hk as [l Hf].
    assert (p ∈ filter (λ p, pr_PublicKey p = k) (registrations fromLT txs)) as Hin
      by (rewrite Hf; constructor).
    apply list_elem_of_filter in Hin as [<- Hin]. split; [done|].
    apply list_elem_of_omap in Hin as (tx & _ & Hreg). unfold registration in Hreg.
    destruct (IsUserFriendly _); [|done]. apply bind_Some in Hreg as (pk & Hpk & [= <-]).
    by eapply registration_key_canonical. }
  destruct (decide (ms_unique s = ∅)) as [Hemp|Hne].
  - apply wp_ret. exists txs, None. do 3 eexists.
    split; [list_member|]. split; [done|]. split; [done|]. simpl.
    split_and!; [constructor| | |done|by rewrite Hl].
    + intros p. rewrite elem_of_nil. split; [done|]. intros Hh. rewrite <- Hu, Hemp in Hh.
      by rewrite lookup_empty in Hh.
    + by intros p ?%elem_of_nil.
  - apply wp_go_bind. intros keys Hkeys. apply wp_ret. exists txs, None. do 3 eexists.
    split; [in_trace|]. split; [done|]. split; [done|]. simpl.
    assert (∀ k, k ∈ keys ↔ is_Some (ms_unique s !! k)) as Hin.
    { intros k. rewrite Hkeys, list_elem_of_fmap. split.
      - intros ([k' p] & -> & Hp). apply elem_of_map_to_list in Hp. eauto.
      - intros [p Hp]. exists (k, p). by rewrite elem_of_map_to_list. }
    split_and!; [| | |done|by rewrite Hl].
    + assert (pr_PublicKey <$> omap (λ k, ms_unique s !! k) keys = keys) as ->.
      { assert (Forall (λ k, is_Some (ms_unique s !! k)) keys) as HF
          by (apply Forall_forall; intros k; apply Hin).
        clear -HF Hkey. induction HF as [|k ks [p Hk] _ IH]; [done|].
        csimpl. rewrite Hk. csimpl. destruct (Hkey _ _ Hk) as [-> _]. by rewrite IH. }
      rewrite Hkeys. apply NoDup_fst_map_to_list.
    + intros p. rewrite list_elem_of_omap, <- Hu. split.
      * intros (k & _ & Hk). by destruct (Hkey _ _ Hk) as [-> _].
      * intros Hp. exists (pr_PublicKey p). split; [|done]. apply Hin. eauto.
    + intros p (k & _ & Hk)%list_elem_of_omap. by destruct (Hkey _ _ Hk) as [-> ?].
Qed.

(** C30. The master scanner returns every public key registered after [fromLT]
    exactly once, with the address and time of its first registration, in the
    canonical form of a key; the LT it returns is the largest it saw and never
    below [fromLT]; when the transactions cannot be read it is [fromLT] itself
    and no provider is returned. *)
Theorem MasterScan_result ctx masterAddr fromLT :
  every_run (MasterScan ctx masterAddr fromLT) (master_scan_post ctx masterAddr fromLT).
Proof. apply every_run_wp, MasterScan_wp. Qed.
End master_properties.

(** ** Properties of the wallet scanner *)
Section wallet_properties.
Implicit Types (txs : list (option Transaction)) (ctx : Ctx) (tr : trace tonclient).

(** The withdrawals of storage rewards, and the largest LT of an address. *)
Definition withdrawals txs : list Transaction :=
  filter (λ tx, tx_Op tx = StorageRewardWithdrawalOpCode) (omap id txs).
Definition latest_LT (a : string) txs : Z :=
  foldl Z.max 0 (tx_LT <$> filter (λ tx, tx_From tx = a) (withdrawals txs)).

Lemma withdrawals_snoc txs otx :
  withdrawals (txs ++ [otx]) =
  withdrawals txs ++ match otx with
                     | Some tx => if tx_Op tx =? StorageRewardWithdrawalOpCode then [tx] else []
                     | None => []
                     end.
Proof.
  unfold withdrawals. rewrite omap_snoc, filter_app. destruct otx as [tx|]; simpl; [|done].
  rewrite filter_cons. destruct (Z.eqb_spec (tx_Op tx) StorageRewardWithdrawalOpCode); by case_decide.
Qed.

Lemma wallet_fold fromLT txs :
  let s := foldl wallet_tx (mkWalletState ∅ fromLT) txs in
  (∀ a, ws_contractLT s !! a = if 0 <? latest_LT a txs then Some (latest_LT a txs) else None) ∧
  ws_lastLT s = foldl Z.max fromLT (tx_LT <$> withdrawals txs).
Proof.
  induction txs as [|otx txs IH] using rev_ind; [done|].
  rewrite foldl_snoc. unfold latest_LT in *. rewrite withdrawals_snoc.
  set (s := foldl _ _ txs) in *. destruct IH as [IHu IHl]. cbv zeta.
  destruct otx as [tx|]; simpl; [|by rewrite !app_nil_r].
  destruct (tx_Op tx =? StorageRewardWithdrawalOpCode); simpl; [|by rewrite !app_nil_r].
  rewrite max_if, fmap_app, foldl_app, <- IHl. split; [|done]. intros a.
  rewrite filter_snoc. case_decide as Ha; [subst a|].
  - rewrite fmap_app, foldl_app. simpl. rewrite IHu.
    set (m := foldl Z.max 0 (tx_LT <$> filter (λ t, tx_From t = tx_From tx) (withdrawals txs))) in *.
    destruct (foldl_max_ge (tx_LT <$> filter (λ t, tx_From t = tx_From tx) (withdrawals txs)) 0) as [Hm _].
    fold m in Hm. destruct (Z.ltb_spec 0 m); simpl.
    + destruct (Z.ltb_spec m (tx_LT tx)), (Z.ltb_spec 0 (Z.max m (tx_LT tx))); try lia.
      * rewrite lookup_insert_eq. f_equal. lia.
      * rewrite IHu. fold m. rewrite (proj2 (Z.ltb_lt 0 m)) by lia. f_equal. lia.
    + destruct (Z.ltb_spec 0 (tx_LT tx)), (Z.ltb_spec 0 (Z.max m (tx_LT tx))); try lia.
      * rewrite lookup_insert_eq. f_equal. lia.
      * rewrite IHu. fold m. by rewrite (proj2 (Z.ltb_ge 0 m)) by lia.
  - destruct (_ <? _); [by rewrite lookup_insert_ne|done].
Qed.

(** What a scan returns, given the transactions. *)
Definition wallet_scan_post ctx walletAddr fromLT tr
    (out : outcome (list StorageContract * Z * option error)) : Prop :=
  ∃ contracts lastLT rerr, out = Returned (contracts, lastLT, rerr) ∧
  match rerr with
  | Some _ => contracts = [] ∧ lastLT = fromLT
  | None => ∃ txs,
      tanswered (GetTransactions (WithTimeout ctx getTxTimeout) walletAddr fromLT) (txs, None) ∈ tr ∧
      lastLT = foldl Z.max fromLT (tx_LT <$> withdrawals txs) ∧ fromLT <= lastLT ∧
      ((∀ a, latest_LT a txs <= 0) ∧ contracts = [] ∨
       ∃ addrs infos, NoDup addrs ∧ (∀ a, a ∈ addrs ↔ 0 < latest_LT a txs) ∧
         tanswered (GetStorageContractsInfo ctx addrs) (infos, None) ∈ tr ∧
         contracts = (λ info, mkStorageContract (in_Address info) (in_BagID info)
                                (in_OwnerAddr info) (in_Size info) (in_ChunkSize info)
                                (latest_LT (in_Address info) txs) [walletAddr]) <$>
                     filter (λ info, 0 < latest_LT (in_Address info) txs) infos)
  end.

Lemma WalletScan_wp ctx walletAddr fromLT :
  wp (WalletScan ctx walletAddr fromLT) (wallet_scan_post ctx walletAddr fromLT) [].
Proof.
  unfold WalletScan. apply wp_ext_bind. intros [txs [e|]] _.
  { apply wp_ret. do 3 eexists. by split. }
  destruct (wallet_fold fromLT txs) as [Hu Hl].
  pose proof (foldl_max_ge (tx_LT <$> withdrawals txs) fromLT) as [Hge _].
  set (s := foldl _ _ txs) in *.
  destruct (decide (ws_contractLT s = ∅)) as [Hemp|Hne].
  - apply wp_ret. do 3 eexists. split; [done|]. exists txs.
    split_and!; [list_member|by rewrite Hl|by rewrite Hl|]. left. split; [|done].
    intros a. specialize (Hu a). rewrite Hemp, lookup_empty in Hu.
    destruct (Z.ltb_spec 0 (latest_LT a txs)); [done|lia].
  - apply wp_go_bind. intros addrs Haddrs. apply wp_ext_bind. intros [infos [e|]] _.
    { apply wp_ret. do 3 eexists. by split. }
    apply wp_ret. do 3 eexists. split; [done|]. exists txs.
    split_and!; [in_trace|by rewrite Hl|by rewrite Hl|]. right. exists addrs, infos.
    split_and!; [| |in_trace|].
    + rewrite Haddrs. apply NoDup_fst_map_to_list.
    + intros a. rewrite Haddrs, list_elem_of_fmap. split.
      * intros ([k z] & -> & Hp). apply elem_of_map_to_list in Hp. rewrite Hu in Hp. simpl.
        destruct (Z.ltb_spec 0 (latest_LT k txs)); [lia|done].
      * intros Ha. exists (a, latest_LT a txs). rewrite elem_of_map_to_list, Hu.
        by rewrite (proj2 (Z.ltb_lt _ _)) by lia.
    + clear -Hu. unfold wallet_contracts. induction infos as [|info infos IH]; [done|].
      rewrite filter_cons. csimpl. rewrite Hu, IH.
      destruct (Z.ltb_spec 0 (latest_LT (in_Address info) txs)); case_decide; try lia; done.
Qed.

(** The wallet scanner asks once for every contract that paid a storage
    reward, and returns those it was told about, each with the largest LT of
    its withdrawals and the wallet as its provider; the LT it returns is the
    largest of all withdrawals and never below [fromLT]; after any error it is
    [fromLT] itself and no contract is returned. *)
Theorem WalletScan_result ctx walletAddr fromLT :
  every_run (WalletScan ctx walletAddr fromLT) (wallet_scan_post ctx walletAddr fromLT).
Proof. apply every_run_wp, WalletScan_wp. Qed.

(** A contract whose information could not be read is lost: the scan succeeds
    without it and its transactions are behind the LT that is returned. *)
Example WalletScan_skips_unreadable :
  let tx := mkTransaction "h" 10 StorageRewardWithdrawalOpCode "contract" "wallet" "" 0 in
  let answers (o : tonop) : tonop_ans o :=
    match o with
    | GetTransactions _ _ _ => ([Some tx], None)
    | GetStorageContractsInfo _ _ => ([], None)
    | GetProvidersInfo _ _ => ([], None)
    end in
  (exec (calm (I:=tonclient) answers) (WalletScan Background "wallet" 5) tt).2 =
  Returned ([], 10, None).
Proof. vm_compute. done. Qed.
End wallet_properties.
