(* ===== verification/LiteClient.v ===== *)
(** [adapters/outbound/ton/liteclient]: the client of the TON lite servers,
    over the API of tonutils-go.  Types and methods of that library are
    parameters; what a transaction list is documented to be is the law of the
    environment [chain_env]. *)

From S2P Require Import Prelude GoStd Effects Domain Pool Ton.

(** ** The library *)
Class TonUtils := {
  Address : Type;
  Block : Type;
  Cell : Type;
  ParseAddr : string → Address + error;
  addr_String : Address → string;
  LoadStringSnake : Cell → string * option error;   (* BeginParse().LoadStringSnake() *)
  LoadUInt32 : Cell → Z * option error;             (* BeginParse().LoadUInt(32) *)
  zeroBlock : Block }.

Definition ErrNoTransactionsWereFound : error :=
  ErrSentinel "ton.ErrNoTransactionsWereFound" "no transactions were found".

(** Constants of client.go *)
Definition getProvidersRetries : nat := 5.
Definition parrallelRequests : nat := 30.
Definition batch : Z := 100.

Section liteclient.
Context `{TonUtils}.

Record InternalMessage := mkInternalMessage {
  im_SrcAddr : Address;
  im_DstAddr : Address;
  im_CreatedAt : Z;
  im_Payload : option Cell }.
Inductive in_message :=
| MsgInternal (m : option InternalMessage)   (* [None]: another Go type behind the tag *)
| MsgOther.
Record tlbTransaction := mkTlbTransaction {
  tt_LT : Z;
  tt_Hash : string;
  tt_PrevTxLT : Z;
  tt_PrevTxHash : string;
  tt_In : option in_message }.               (* [None]: a nil pointer *)
Record Account := mkAccount { ac_LastTxLT : Z; ac_LastTxHash : string }.
Record StorageInfo := mkStorageInfo {
  si_TorrentHash : string;
  si_OwnerAddr : Address;
  si_Size : Z;
  si_ChunkSize : Z }.
Record ProviderDataV1 := mkProviderDataV1 {
  pd_Key : string;
  pd_LastProofAt : Time;
  pd_RatePerMB : Z;                          (* nanotons *)
  pd_MaxSpan : Z }.

Inductive liteop :=
| GetMasterchainInfo (ctx : Ctx)
| GetAccount (ctx : Ctx) (block : Block) (a : Address)
| ListTransactions (ctx : Ctx) (a : Address) (limit lt : Z) (hash : string)
| GetStorageInfoV1 (ctx : Ctx) (block : Block) (a : Address)
| GetProvidersV1 (ctx : Ctx) (block : Block) (a : Address).

(** [GetProvidersV1] also answers the balance in nanotons. *)
Definition liteop_ans (o : liteop) : Type :=
  match o with
  | GetMasterchainInfo _ => Block * option error
  | GetAccount _ _ _ => Account * option error
  | ListTransactions _ _ _ _ _ => list tlbTransaction * option error
  | GetStorageInfoV1 _ _ _ => option StorageInfo * option error
  | GetProvidersV1 _ _ _ => list ProviderDataV1 * Z * option error
  end%type.
Definition lite : iface := Iface liteop liteop_ans.
Definition lcall (o : liteop) : prog lite (liteop_ans o) := ext (I:=lite) o.

(** ** parseTx *)
Definition nil_dereference : string := "runtime error: invalid memory address or nil pointer dereference".

(** The comment and the operation of a payload; errors leave what was read. *)
Definition payload_comment (p : option Cell) : string :=
  match p with Some b => (LoadStringSnake b).1 | None => "" end.
Definition payload_op (p : option Cell) : Z :=
  match p with Some b => (LoadUInt32 b).1 | None => 0 end.

Definition parseTx (tx : tlbTransaction) : prog lite (option Transaction) :=
  match tt_In tx with
  | None => Stop (Panic nil_dereference)
  | Some MsgOther | Some (MsgInternal None) => mret None
  | Some (MsgInternal (Some msg)) =>
      mret (Some (mkTransaction (tt_Hash tx) (tt_LT tx) (payload_op (im_Payload msg))
        (addr_String (im_SrcAddr msg)) (addr_String (im_DstAddr msg))
        (payload_comment (im_Payload msg)) (im_CreatedAt msg * Second)))
  end.

(** ** GetTransactions *)

(** [res[reverseIter:]] for the newest transaction not after [lp], if any; the
    loop looks at [res] from its end. *)
Fixpoint cut_rev (lp : Z) (rev_res newer : list tlbTransaction) : option (list tlbTransaction) :=
  match rev_res with
  | [] => None
  | tx :: older => if tt_LT tx <=? lp then Some (tx :: newer) else cut_rev lp older (tx :: newer)
  end.
Definition cut (lp : Z) (res : list tlbTransaction) : option (list tlbTransaction) :=
  cut_rev lp (rev res) [].

(** The loop [list: for { ... }]: what was collected, or the error returned. *)
Fixpoint list_loop (fuel : nat) (ctx : Ctx) (a : Address) (lp lastLT : Z) (lastHash : string)
    (transactions : list tlbTransaction) : prog lite (list tlbTransaction * option error) :=
  match fuel with
  | O => Stop NoFuel
  | S fuel =>
      '(res, errTx) ← lcall (ListTransactions ctx a batch lastLT lastHash);
      match errTx with
      | Some e =>
          if Is e ErrNoTransactionsWereFound && (0 <? length transactions)%nat
          then mret (transactions, None)
          else if Is e DeadlineExceeded then mret (transactions, None)
          else if match e with ErrLS code _ => code =? -400 | _ => false end
          then mret (transactions, None)
          else mret ([], Some (ErrWrap "list transactions: " e))
      | None =>
          match res with
          | [] => mret (transactions, None)
          | oldest :: _ =>
              match cut lp res with
              | Some newer => mret (transactions ++ newer, None)
              | None => list_loop fuel ctx a lp (tt_PrevTxLT oldest) (tt_PrevTxHash oldest)
                          (transactions ++ res)
              end
          end
      end
  end.

Definition parse_all (transactions : list tlbTransaction)
    : prog lite (flow (list (option Transaction)) unit) :=
  range transactions [] (λ t txs,
    r ← parseTx t;
    match r with
    | Some tx => mret (Next (txs ++ [Some tx]))
    | None => mret (Next txs)
    end).

Definition GetTransactions (fuel : nat) (ctx : Ctx) (addr : string) (lastProcessedLT : Z)
    : prog lite (list (option Transaction) * option error) :=
  match ParseAddr addr with
  | inr e => mret ([], Some (ErrWrap ("failed to parse master address " +:+ dquote +:+ addr +:+ dquote +:+ ": ") e))
  | inl a =>
      '(block, err) ← lcall (GetMasterchainInfo ctx);
      match err with
      | Some e => mret ([], Some (ErrWrap "get masterchain info err: " e))
      | None =>
          '(account, err) ← lcall (GetAccount ctx block a);
          match err with
          | Some e => mret ([], Some (ErrWrap "get account err: " e))
          | None =>
              '(transactions, err) ← list_loop fuel ctx a lastProcessedLT
                                       (ac_LastTxLT account) (ac_LastTxHash account) [];
              match err with
              | Some e => mret ([], Some e)
              | None =>
                  f ← parse_all transactions;
                  match f with
                  | Next txs | Break txs => mret (txs, None)
                  | Return _ => mret ([], None)
                  end
              end
          end
      end
  end.

(** ** GetStorageContractsInfo *)
Definition storage_info_one (ctx : Ctx) (block : Block) (a : string) (contracts : list ContractInfo)
    : prog lite (flow (list ContractInfo) unit) :=
  match ParseAddr a with
  | inr _ => mret (Next contracts)
  | inl addr =>
      '(info, err) ← lcall (GetStorageInfoV1 ctx block addr);
      match err, info with
      | None, Some info =>
          mret (Next (contracts ++ [mkContractInfo a (EncodeToString (si_TorrentHash info))
                  (addr_String (si_OwnerAddr info)) (si_Size info) (si_ChunkSize info)]))
      | _, _ => mret (Next contracts)
      end
  end.

Definition GetStorageContractsInfo (ctx : Ctx) (addrs : list string)
    : prog lite (list ContractInfo * option error) :=
  '(block, err) ← lcall (GetMasterchainInfo ctx);
  match err with
  | Some e => mret ([], Some (ErrWrap "get masterchain info err: " e))
  | None =>
      f ← range addrs [] (storage_info_one ctx block);
      match f with
      | Next contracts | Break contracts => mret (contracts, None)
      | Return _ => mret ([], None)
      end
  end.

(** ** GetProvidersInfo *)
Abbreviation captured := (list ProviderDataV1 * Z)%type.   (* info, coins *)

Definition try_providers (ctx : Ctx) (block : Block) (addr : Address) (_ : captured)
    : prog lite (captured * option error) :=
  '(info, coins, cErr) ← lcall (GetProvidersV1 ctx block addr);
  mret ((info, coins), cErr).

Definition provider_info (p : ProviderDataV1) : ProviderInfo :=
  mkProviderInfo (pd_Key p) (pd_LastProofAt p) (big_Uint64 (pd_RatePerMB p)) (pd_MaxSpan p).

(** The goroutine of an address; [None] when the address is malformed. *)
Definition providers_body (ctx : Ctx) (block : Block) (addrStr : string)
    : prog lite (option StorageContractProviders) :=
  match ParseAddr addrStr with
  | inr _ => mret None
  | inl addr =>
      '((info, coins), callErr) ←
        TryNTimes (try_providers ctx block addr) getProvidersRetries ([], 0) None;
      mret (Some (mkContractProviders addrStr (big_Uint64 coins) (provider_info <$> info)
                    (negb (is_nil callErr))))
  end.

Definition providers_spec (ctx : Ctx) (block : Block)
    : spec lite string string (option StorageContractProviders) (list StorageContractProviders) :=
  {| sp_cap := parrallelRequests;
     sp_main_acquires := false;
     sp_handle := λ a, mret (Launch a);
     sp_body := providers_body ctx block;
     sp_commit := λ r acc, match r with Some s => acc ++ [s] | None => acc end |}.

Definition providers_steps (a : string) : nat := 2 * getProvidersRetries + 5.

Definition GetProvidersInfo (ctx : Ctx) (addrs : list string)
    : prog lite (list StorageContractProviders * option error) :=
  '(block, err) ← lcall (GetMasterchainInfo ctx);
  match err with
  | Some e => mret ([], Some (ErrWrap "get masterchain info err: " e))
  | None =>
      contractsProviders ← pool (providers_spec ctx block) providers_steps addrs [];
      mret (contractsProviders, None)
  end.
End liteclient.

(** ** The transactions of an account *)
Section chain.
Context `{TonUtils}.
Implicit Types (history res : list tlbTransaction) (tr : trace lite).

(** An account's history, newest first: LTs are positive and decrease, and
    every transaction points to the one before it. *)
Fixpoint chain history : Prop :=
  match history with
  | [] => True
  | tx :: older =>
      0 < tt_LT tx ∧
      match older with
      | [] => tt_PrevTxLT tx = 0
      | tx' :: _ => tt_PrevTxLT tx = tt_LT tx' ∧ tt_LT tx' < tt_LT tx
      end ∧ chain older
  end.

(** The history from the transaction of LT [lt] on. *)
Fixpoint from_LT (lt : Z) history : list tlbTransaction :=
  match history with
  | [] => []
  | tx :: older => if tt_LT tx =? lt then history else from_LT lt older
  end.

(** What the library documents: [GetAccount] answers the LT of the newest
    transaction; [ListTransactions] a batch, of one to [limit] if there are any,
    of the transactions before and including the given one, the oldest first,
    or an error; [ErrNoTransactionsWereFound] only when there are none. *)
Definition chain_ok history (o : liteop) : liteop_ans o → Prop :=
  match o with
  | GetAccount _ _ _ => λ a, a.2 = None → ac_LastTxLT a.1 = match history with [] => 0 | tx :: _ => tt_LT tx end
  | ListTransactions _ _ limit lt _ => λ a,
      match a.2 with
      | None => ∃ k, Z.of_nat (S k) <= limit ∧ a.1 = rev (take (S k) (from_LT lt history))
      | Some e => Is e ErrNoTransactionsWereFound = true → from_LT lt history = []
      end
  | _ => λ _, True
  end.

Lemma chain_tail history n : chain history → chain (drop n history).
Proof.
  revert n. induction history as [|tx history IH]; intros [|n] Hc; try done.
  simpl. apply IH. by destruct Hc as (_ & _ & ?).
Qed.

Lemma chain_below history tx tx' :
  chain (tx :: history) → tx' ∈ history → tt_LT tx' < tt_LT tx.
Proof.
  revert tx. induction history as [|tx1 history IH]; intros tx Hc Hin.
  - by apply elem_of_nil in Hin.
  - destruct Hc as (_ & [_ Hlt] & Hc). apply elem_of_cons in Hin as [->|Hin]; [done|].
    specialize (IH tx1 Hc Hin). lia.
Qed.

(** The history after [n] transactions starts where the last one points. *)
Lemma from_LT_drop history n tx :
  chain history → history !! n = Some tx →
  from_LT (tt_LT tx) history = drop n history ∧
  from_LT (tt_PrevTxLT tx) history = drop (S n) history.
Proof.
  revert n. induction history as [|tx0 history IH]; intros n Hc Hn; [done|].
  pose proof Hc as (Hpos & Hprev & Hc').
  assert (∀ m, tt_LT tx0 ≠ m → from_LT m (tx0 :: history) = from_LT m history) as Hskip.
  { intros m Hm. simpl. by rewrite (proj2 (Z.eqb_neq _ _) Hm). }
  destruct n as [|n]; simpl in Hn.
  - injection Hn as <-. split; [simpl; by rewrite Z.eqb_refl|].
    destruct history as [|tx1 history]; simpl in Hprev.
    + rewrite Hprev. simpl. by rewrite (proj2 (Z.eqb_neq _ 0)) by lia.
    + destruct Hprev as [-> Hlt]. rewrite Hskip by lia. simpl. by rewrite Z.eqb_refl.
  - destruct (IH n Hc' Hn) as [IH1 IH2].
    assert (tt_LT tx < tt_LT tx0) as Hlt by (eapply chain_below; [done|by eapply list_elem_of_lookup_2]).
    split; [rewrite Hskip by lia; done|].
    assert (tt_PrevTxLT tx ≠ tt_LT tx0) as Hp.
    { pose proof (chain_tail _ n Hc') as Hd. rewrite (drop_S _ tx n Hn) in Hd.
      destruct Hd as (? & Hd & _). destruct (drop (S n) history) eqn:E; [lia|].
      destruct Hd as [? ?]. lia. }
    rewrite Hskip by done. done.
Qed.

(** [cut] keeps the newest transaction not after [lp] and everything newer. *)
Lemma cut_rev_spec lp rev_res newer l :
  cut_rev lp rev_res newer = Some l →
  ∃ n tx, rev_res !! n = Some tx ∧ tt_LT tx <= lp ∧ l = rev (take (S n) rev_res) ++ newer.
Proof.
  revert newer. induction rev_res as [|tx rev_res IH]; intros newer; simpl; [done|].
  destruct (Z.leb_spec (tt_LT tx) lp).
  - intros [= <-]. by exists 0%nat, tx.
  - intros Hc. destruct (IH _ Hc) as (n & tx' & ? & ? & ->). exists (S n), tx'.
    split_and!; [done|done|]. simpl. by rewrite <- app_assoc.
Qed.

Lemma cut_rev_none lp rev_res newer :
  cut_rev lp rev_res newer = None → Forall (λ tx, lp < tt_LT tx) rev_res.
Proof.
  revert newer. induction rev_res as [|tx rev_res IH]; intros newer; simpl; [constructor|].
  destruct (Z.leb_spec (tt_LT tx) lp); [done|]. constructor; [done|by eapply IH].
Qed.

Definition parsed (tx : tlbTransaction) : option Transaction :=
  match tt_In tx with
  | Some (MsgInternal (Some msg)) =>
      Some (mkTransaction (tt_Hash tx) (tt_LT tx) (payload_op (im_Payload msg))
        (addr_String (im_SrcAddr msg)) (addr_String (im_DstAddr msg))
        (payload_comment (im_Payload msg)) (im_CreatedAt msg * Second))
  | _ => None
  end.

(** A page without a transaction at or below [lp]. *)
Lemma cut_newer lp res : Forall (λ tx, lp < tt_LT tx) res → cut lp res = None.
Proof.
  intros Hres%(Forall_rev). unfold cut. revert Hres. generalize ([] : list tlbTransaction).
  induction (rev res) as [|tx l IH]; intros newer; [done|]. intros [Htx Hl]%Forall_cons. simpl.
  destruct (Z.leb_spec (tt_LT tx) lp); [lia|by apply IH].
Qed.

(** With their incoming messages, transactions are parsed without more ado. *)
Lemma parse_all_eq txs :
  Forall (λ t, tt_In t ≠ None) txs → parse_all txs = mret (Next (Some <$> omap parsed txs)).
Proof.
  intros Hall. unfold parse_all. rewrite <- (app_nil_l (Some <$> omap parsed txs)).
  match goal with |- range _ _ ?f = _ => set (body := f) end.
  generalize ([] : list (option Transaction)). induction Hall as [|t txs Ht _ IH]; intros acc; csimpl.
  { by rewrite app_nil_r. }
  cbn [range]. assert (body t acc = mret (Next (acc ++ option_list (Some <$> parsed t)))) as ->.
  { unfold body, parseTx, parsed. destruct (tt_In t) as [[[]|]|]; simpl; rewrite ?app_nil_r; done. }
  refine (eq_trans (IH _) _). csimpl. destruct (parsed t); csimpl; [by rewrite <- app_assoc|by rewrite app_nil_r].
Qed.

Lemma chain_pos history t : chain history → t ∈ history → 0 < tt_LT t.
Proof.
  induction history as [|t' history IH]; intros Hc; [by intros ?%elem_of_nil|].
  intros [-> |Hin]%elem_of_cons; [by destruct Hc|]. by apply IH; [destruct Hc as (_ & _ & ?)|].
Qed.

Lemma parse_all_wp (Q : trace lite → outcome (flow (list (option Transaction)) unit) → Prop) txs hist :
  (Forall (λ t, tt_In t ≠ None) txs → Q hist (Returned (Next (Some <$> omap parsed txs)))) →
  ((∃ t, t ∈ txs ∧ tt_In t = None) → Q hist (Stopped (Panic nil_dereference))) →
  ∀ E : Env lite, wp (parse_all txs) Q hist.
Proof.
  intros HQ HP E. unfold parse_all.
  assert (∀ pre acc, Forall (λ t, tt_In t ≠ None) pre → acc = Some <$> omap parsed pre →
    ∀ suf, txs = pre ++ suf →
    wp (range suf acc (λ t txs, r ← parseTx t;
          match r with Some tx => mret (Next (txs ++ [Some tx])) | None => mret (Next txs) end)) Q hist)
    as Hgen; [|by apply (Hgen [] [])].
  intros pre acc Hpre -> suf. revert pre Hpre. induction suf as [|t suf IH]; intros pre Hpre Hs.
  - rewrite app_nil_r in Hs. subst pre. by apply HQ.
  - simpl. unfold parseTx. destruct (tt_In t) as [m|] eqn:Ht.
    + assert (Forall (λ t, tt_In t ≠ None) (pre ++ [t])) as Hpre'.
      { apply Forall_app. split; [done|]. constructor; [|done]. by rewrite Ht. }
      specialize (IH (pre ++ [t]) Hpre'). rewrite <- app_assoc in IH. specialize (IH Hs).
      rewrite omap_snoc in IH. unfold parsed at 2 in IH. rewrite Ht in IH.
      destruct m as [[msg|]|]; simpl; [|by rewrite app_nil_r in IH..].
      by rewrite fmap_app in IH.
    + apply HP. exists t. split; [|done]. rewrite Hs. set_solver.
Qed.
End chain.

(** ** Collecting the transactions of an account *)
Section collect.
Context `{TonUtils}.
Context (history : list tlbTransaction) (Hchain : chain history).
Implicit Types (tr : trace lite) (txs : list tlbTransaction).

#[local] Instance chain_env : Env lite := λ _, chain_ok history.

(** The listing was cut short by a deadline or by the server's -400. *)
Definition cut_short tr : Prop :=
  ∃ ctx a lt hash res e,
    @Ev lite (@Ext lite (ListTransactions ctx a batch lt hash)) (res, Some e) ∈ tr ∧
    (Is e DeadlineExceeded = true ∨ ∃ m, e = ErrLS (-400) m).

(** Collected: the [n] newest transactions, which are all after [lp] unless
    the listing was cut short. *)
Definition collected (lp : Z) tr txs : Prop :=
  ∃ n, txs ≡ₚ take n history ∧ (cut_short tr ∨ Forall (λ tx, tt_LT tx <= lp) (drop n history)).

Lemma drop_old lp n tx :
  history !! n = Some tx → tt_LT tx <= lp → Forall (λ tx, tt_LT tx <= lp) (drop (S n) history).
Proof.
  intros Hn Hle. pose proof (chain_tail _ n Hchain) as Hc. rewrite (drop_S _ _ _ Hn) in Hc.
  rewrite Forall_forall. intros tx' Hin. pose proof (chain_below _ _ _ Hc Hin). lia.
Qed.

(** A page is the newest part of what is left, its first entry the oldest. *)
Lemma page_oldest (rest : list tlbTransaction) k oldest page :
  oldest :: page = rev (take (S k) rest) →
  ∃ m, take (S k) rest = take (S m) rest ∧ rest !! m = Some oldest ∧ length (take (S k) rest) = S m.
Proof.
  intros Hp. set (b := take (S k) rest) in *.
  assert (b = rev page ++ [oldest]) as Hb by (rewrite <- (rev_involutive b), <- Hp; done).
  exists (length (rev page)). assert (length b = S (length (rev page))) as Hlen
    by (rewrite Hb, length_app; simpl; lia).
  split_and!; [|..|done].
  - rewrite <- Hlen. unfold b. by rewrite take_length_take.
  - assert (b !! length (rev page) = Some oldest) as Ho
      by (rewrite Hb; by rewrite lookup_app_r, Nat.sub_diag by lia).
    unfold b in Ho. rewrite lookup_take in Ho. by case_decide.
Qed.

Lemma list_loop_wp fuel ctx a lp lastLT lastHash txs n hist :
  txs ≡ₚ take n history → from_LT lastLT history = drop n history →
  (n <= length history)%nat → (length history < n + fuel)%nat →
  wp (list_loop fuel ctx a lp lastLT lastHash txs)
     (returns (λ r tr, match r.2 with
                       | None => collected lp tr r.1
                       | Some _ => r.1 = []
                       end)) hist.
Proof.
  revert lastLT lastHash txs n hist.
  induction fuel as [|fuel IH]; intros lastLT lastHash txs n hist Htxs Hfrom Hn Hfuel; [lia|].
  simpl. intros [res [e|]] Hans; simpl in Hans.
  - (* an error *)
    set (tr' := hist ++ _).
    assert ((Is e DeadlineExceeded = true ∨ ∃ m, e = ErrLS (-400) m) → collected lp tr' txs) as Hcut.
    { intros He. exists n. split; [done|]. left. exists ctx, a, lastLT, lastHash, res, e.
      split; [unfold tr'; in_trace|done]. }
    destruct (Is e ErrNoTransactionsWereFound) eqn:Hnone; simpl.
    + destruct (0 <? length txs)%nat; [|destruct (Is e DeadlineExceeded)].
      * exists n. split; [done|]. right. rewrite <- Hfrom, Hans by done. constructor.
      * apply Hcut. by left.
      * by destruct e.
    + destruct (Is e DeadlineExceeded); [apply Hcut; by left|].
      destruct e; simpl; try done. destruct (Z.eqb_spec code (-400)) as [->|]; [|done].
      apply Hcut. right. by eexists.
  - destruct Hans as (k & _ & Hres). simpl in Hres. rewrite Hfrom in Hres.
    set (b := take (S k) (drop n history)) in *.
    destruct res as [|oldest rest] eqn:Hr.
    { exists n. split; [done|]. right. assert (b = []) as Hb.
      { destruct b; [done|]. simpl in Hres. by destruct (rev b). }
      unfold b in Hb. destruct (drop n history); [constructor|done]. }
    set (res' := oldest :: rest) in *. clear Hr.
    assert (rev res' = b) as Hrev by (by rewrite Hres, rev_involutive).
    destruct (page_oldest (drop n history) k oldest rest Hres) as (m & Hb & Hold & Hlen). fold b in Hb, Hlen.
    clearbody b.
    unfold cut. rewrite Hrev. destruct (cut_rev lp b []) as [newer|] eqn:Hcut.
    + apply cut_rev_spec in Hcut as (i & tx & Hi & Hle & ->). rewrite app_nil_r.
      rewrite Hb in Hi. apply lookup_take_Some in Hi as [Hi Hlt]. rewrite lookup_drop in Hi.
      exists (n + S i)%nat. split.
      * rewrite <- Permutation_rev, Hb, take_take, Htxs, Nat.min_l by lia. by rewrite take_take_drop.
      * right. rewrite <- plus_n_Sm. by eapply drop_old.
    + apply (IH _ _ _ (n + S m)%nat).
      * rewrite Htxs, <- (take_take_drop history n (S m)), <- Hb, <- Hrev. by rewrite <- Permutation_rev.
      * rewrite lookup_drop in Hold. rewrite <- plus_n_Sm. by eapply from_LT_drop.
      * rewrite lookup_drop in Hold. apply lookup_lt_Some in Hold. lia.
      * lia.
Qed.

(** What the client returns. *)
Definition listing_post (lp : Z) tr (out : outcome (list (option Transaction) * option error)) : Prop :=
  match out with
  | Returned (txs, Some _) => txs = []
  | Returned (txs, None) => ∃ got, collected lp tr got ∧ txs = Some <$> omap parsed got
  | Stopped s => s = Panic nil_dereference ∧ ∃ t, t ∈ history ∧ tt_In t = None
  end.

Lemma GetTransactions_wp fuel ctx addr lp :
  (length history < fuel)%nat → wp (GetTransactions fuel ctx addr lp) (listing_post lp) [].
Proof.
  intros Hfuel. unfold GetTransactions.
  destruct (ParseAddr addr) as [a|e]; [|done].
  apply wp_ext_bind. intros [block [e|]] _; [done|].
  apply wp_ext_bind. intros [acc [e|]] Hacc; [done|].
  specialize (Hacc eq_refl). simpl in Hacc.
  apply wp_bind. eapply wp_mono'.
  { apply (list_loop_wp fuel ctx a lp _ _ [] 0); [done| |lia|lia].
    rewrite Hacc. destruct history as [|tx older]; [done|]. simpl. by rewrite Z.eqb_refl. }
  intros tr [[got [e|]]|s]; simpl; [by intros ->| |done]. intros Hgot.
  apply wp_bind. apply parse_all_wp.
  - intros _. simpl. by exists got.
  - intros (t & Hin & Ht). split; [done|]. exists t. split; [|done].
    destruct Hgot as (n & Hperm & _). rewrite Hperm in Hin.
    eapply elem_of_subseteq; [|exact Hin]. apply subseteq_take.
Qed.

(** C25. Enough rounds for the length of the account's history are enough for
    the listing to end.  What it then returns is, in some order, the parsed
    form of the account's newest transactions, without gap; all that were left
    out are not after [lp], unless a deadline or the server's -400 cut the
    listing short; after an error nothing is returned.  It panics only on a
    transaction without an incoming message. *)
Theorem GetTransactions_complete fuel ctx addr lp :
  (length history < fuel)%nat →
  every_run (GetTransactions fuel ctx addr lp) (listing_post lp).
Proof. intros Hfuel. by apply every_run_wp, GetTransactions_wp. Qed.
End collect.

(** ** Contracts and their providers *)
Section providers.
Context `{TonUtils}.
#[local] Existing Instance any_env.
Implicit Types (tr : trace lite).

Definition info_event ctx block a (x : option StorageInfo * option error) : event lite :=
  @Ev lite (@Ext lite (GetStorageInfoV1 ctx block a)) x.
Definition providers_event ctx block a (x : list ProviderDataV1 * Z * option error) : event lite :=
  @Ev lite (@Ext lite (GetProvidersV1 ctx block a)) x.

(** The entry of an address: what the last of at most five tries answered, all
    before it having failed; an error flag exactly when all five failed. *)
Definition provider_entry ctx block tr (addrStr : string) (e : StorageContractProviders) : Prop :=
  ∃ a, ParseAddr addrStr = inl a ∧ cpv_Address e = addrStr ∧
    ∃ rs info coins err, tried 5 rs (info, coins, err) ∧
      (providers_event ctx block a <$> rs) `sublist_of` tr ∧
      cpv_Providers e = provider_info <$> info ∧ cpv_Balance e = big_Uint64 coins ∧
      cpv_LiteServerError e = negb (is_nil err).

Definition providers_finished ctx block (addrStr : string) (r : option StorageContractProviders) tr : Prop :=
  match r with
  | None => ∃ e, ParseAddr addrStr = inr e
  | Some e => provider_entry ctx block tr addrStr e
  end.

Lemma provider_entry_more ctx block tr more addrStr e :
  provider_entry ctx block tr addrStr e → provider_entry ctx block (tr ++ more) addrStr e.
Proof.
  intros (a & ? & ? & rs & info & coins & err & ? & ? & ?). exists a. split_and!; [done|done|].
  exists rs, info, coins, err. split; [done|]. split; [by apply sublist_inserts_r|done].
Qed.

(** One try: its request and answer. *)
Lemma try_providers_rwp ctx block a c hist :
  rwp (try_providers ctx block a c)
      (returns (λ r tr, ∃ more, tr = hist ++ more ∧ providers_event ctx block a r ∈ more)) hist.
Proof.
  intros more [[info coins] cErr] _ more'. eexists. split; [by rewrite <- !app_assoc|].
  unfold providers_event. set_solver.
Qed.

Lemma try_depth ctx block a n c err :
  depth_le (2 * n) (TryNTimes (try_providers ctx block a) n c err).
Proof.
  revert c err. induction n as [|n IH]; intros c err; [done|].
  apply (depth_le_mono (S (S (2 * n)))); [lia|]. simpl. intros [[info coins] [e|]]; [|done].
  intros []. apply (depth_le_mono (2 * n)); [lia|apply IH].
Qed.

Lemma providers_pool_ok ctx block :
  pool_ok (providers_spec ctx block) (λ a v _, v = Launch a) (providers_finished ctx block)
    0 (λ _, (2 * getProvidersRetries)%nat) providers_steps.
Proof.
  split; cbn [sp_cap sp_handle sp_body sp_commit providers_spec];
    try (unfold providers_steps, parrallelRequests; lia).
  - intros a v tr more. done.
  - intros a [e|] tr more; simpl; [apply provider_entry_more|done].
  - intros a tr. by apply rwp_ret.
  - done.
  - intros a tr. unfold providers_body. destruct (ParseAddr a) as [addr|e] eqn:Ha.
    + eapply rwp_bind_returns.
      { apply (TryNTimes_rwp _ (providers_event ctx block addr) 4). intros c h. apply try_providers_rwp. }
      intros [[info coins] err] tr' (rs & more & -> & Ht & Hsub). apply rwp_ret. intros more'.
      apply provider_entry_more. exists addr. split_and!; [done|done|]. exists rs, info, coins, err.
      split_and!; [done|by apply sublist_inserts_l|done..].
    + apply rwp_ret. intros more. by exists e.
  - intros a. unfold providers_body. destruct (ParseAddr a) as [addr|e]; [|done].
    apply (depth_le_mono (2 * getProvidersRetries + 0)); [lia|].
    apply depth_le_bind; [apply try_depth|]. by intros [[info coins] err].
Qed.

Definition parseable (a : string) : bool := match ParseAddr a with inl _ => true | inr _ => false end.

Lemma fold_entries (dn : list (string * option StorageContractProviders)) acc :
  foldl (λ s ja, match ja.2 with Some e => s ++ [e] | None => s end) acc dn = acc ++ omap id dn.*2.
Proof.
  revert acc. induction dn as [|[a [e|]] dn IH]; intros acc; csimpl; [by rewrite app_nil_r| |apply IH].
  by rewrite IH, <- app_assoc.
Qed.

Lemma entries_addresses ctx block tr (dn : list (string * option StorageContractProviders)) :
  Forall (λ ja, providers_finished ctx block ja.1 ja.2 tr) dn →
  cpv_Address <$> omap id dn.*2 = filter (λ a, parseable a = true) dn.*1.
Proof.
  unfold parseable. induction 1 as [|[a r] dn Hr _ IH]; [done|].
  csimpl. rewrite filter_cons, <- IH. destruct r as [e|]; simpl in Hr.
  - destruct Hr as (addr & -> & <- & _). by rewrite decide_True.
  - destruct Hr as [e ->]. by rewrite decide_False.
Qed.


(** What became of an address: its contract's information, or nothing when the
    address is malformed, the request failed or found no contract. *)
Definition info_entry ctx block tr (a : string) (r : option ContractInfo) : Prop :=
  match r with
  | Some c => ∃ addr info, ParseAddr a = inl addr ∧ info_event ctx block addr (Some info, None) ∈ tr ∧
      c = mkContractInfo a (EncodeToString (si_TorrentHash info)) (addr_String (si_OwnerAddr info))
            (si_Size info) (si_ChunkSize info)
  | None => (∃ e, ParseAddr a = inr e) ∨
      ∃ addr info err, ParseAddr a = inl addr ∧ info_event ctx block addr (info, err) ∈ tr ∧
        (err ≠ None ∨ info = None)
  end.

Lemma info_entry_more ctx block tr more a r :
  info_entry ctx block tr a r → info_entry ctx block (tr ++ more) a r.
Proof.
  unfold info_entry. pose proof (λ ev, proj2 (elem_of_app tr more ev)).
  destruct r; naive_solver.
Qed.

Definition infos_inv ctx block (addrs : list string) (contracts : list ContractInfo) tr : Prop :=
  ∃ rs, Forall2 (info_entry ctx block tr) addrs rs ∧ contracts = omap id rs.

Lemma infos_inv_snoc ctx block addrs contracts tr more a r :
  infos_inv ctx block addrs contracts tr → info_entry ctx block (tr ++ more) a r →
  infos_inv ctx block (addrs ++ [a]) (contracts ++ option_list r) (tr ++ more).
Proof.
  intros (rs & Hrs & ->) Hr. exists (rs ++ [r]). split.
  - apply Forall2_app; [|by constructor]. eapply Forall2_impl; [done|].
    intros. by apply info_entry_more.
  - rewrite omap_snoc. by destruct r.
Qed.

Lemma storage_info_one_wp ctx block addrs a contracts tr :
  infos_inv ctx block addrs contracts tr →
  wp (storage_info_one ctx block a contracts)
     (returns (λ f tr, ∃ contracts', f = Next contracts' ∧
                       infos_inv ctx block (addrs ++ [a]) contracts' tr)) tr.
Proof.
  intros Hinv. unfold storage_info_one. destruct (ParseAddr a) as [addr|e] eqn:Ha.
  - apply wp_ext_bind. intros [info err] _.
    assert (∀ r, info_entry ctx block (tr ++ [info_event ctx block addr (info, err)]) a r →
      infos_inv ctx block (addrs ++ [a]) (contracts ++ option_list r)
        (tr ++ [info_event ctx block addr (info, err)])) as Hsnoc
      by (intros r Hr; by apply infos_inv_snoc).
    destruct err as [e|]; [|destruct info as [info|]]; apply wp_ret; eexists; (split; [done|]).
    + specialize (Hsnoc None). simpl in Hsnoc. rewrite app_nil_r in Hsnoc. apply Hsnoc.
      right. exists addr, info, (Some e). split_and!; [done|in_trace|by left].
    + apply (Hsnoc (Some _)). exists addr, info. split_and!; [done|in_trace|done].
    + specialize (Hsnoc None). simpl in Hsnoc. rewrite app_nil_r in Hsnoc. apply Hsnoc.
      right. exists addr, None, None. split_and!; [done|in_trace|by right].
  - apply wp_ret. eexists. split; [done|].
    pose proof (infos_inv_snoc ctx block addrs contracts tr [] a None Hinv) as Hs.
    simpl in Hs. rewrite !app_nil_r in Hs. apply Hs. left. by eexists.
Qed.

(** Reading contracts: every address is asked for at most once and in
    order; the contracts returned are exactly those whose request succeeded
    and found one, each with its own data. *)
Theorem GetStorageContractsInfo_result ctx addrs :
  every_run (GetStorageContractsInfo ctx addrs) (λ tr out,
    (∃ e, out = Returned ([], Some e)) ∨
    ∃ block contracts, out = Returned (contracts, None) ∧
      infos_inv ctx block addrs contracts tr).
Proof.
  apply every_run_wp. unfold GetStorageContractsInfo. apply wp_ext_bind. intros [block [e|]] _.
  { apply wp_ret. left. by eexists. }
  apply wp_bind. apply (wp_range _ _ _ (infos_inv ctx block) (λ _ _, False)).
  - by exists [].
  - intros pre a suf contracts tr _ _ Hinv. eapply wp_mono'; [by apply storage_info_one_wp|].
    intros tr' [f|s]; simpl; [|done]. by intros (contracts' & -> & ?).
  - intros contracts tr _ [Hinv|[]]. unfold seq_post. apply wp_ret. right. eauto.
Qed.
End providers.

(** The interface [Client] of the scanners, by this client. *)
Definition tonclient_of `{TonUtils} (fuel : nat) (o : tonop) : prog lite (tonop_ans o) :=
  match o with
  | Ton.GetTransactions ctx addr lt => GetTransactions fuel ctx addr lt
  | Ton.GetStorageContractsInfo ctx addrs => GetStorageContractsInfo ctx addrs
  | Ton.GetProvidersInfo ctx addrs => GetProvidersInfo ctx addrs
  end.
(** ** A listing that is cut short, on three registrations *)
Section gap.
#[local] Existing Instance AsciiUnicode.

#[local] Instance ex_ton : TonUtils := {|
  Address := string; Block := unit; Cell := string;
  ParseAddr := inl; addr_String := id;
  LoadStringSnake := λ s, (s, None); LoadUInt32 := λ _, (0, None);
  zeroBlock := tt |}.

Definition gap_key (c : string) : string := "tsp-" +:+ of_bytes (replicate 63 "a"%char) +:+ c.
Definition gap_from : string := "EQ" +:+ of_bytes (replicate 46 "A"%char).
Definition gap_tx (lt prev : Z) (c : string) : tlbTransaction :=
  mkTlbTransaction lt "" prev "" (Some (MsgInternal (Some
    (mkInternalMessage gap_from "master" 0 (Some (gap_key c)))))).
Definition gap_history : list tlbTransaction := [gap_tx 3 2 "3"; gap_tx 2 1 "2"; gap_tx 1 0 "1"].

Lemma GetTransactions_complete_witness :
  chain gap_history ∧ (length gap_history < 10)%nat ∧
  every_run (E:=chain_env gap_history) (GetTransactions 10 Background "master" 1)
    (listing_post gap_history 1).
Proof.
  assert (chain gap_history) as Hc by (simpl; lia).
  assert (length gap_history < 10)%nat as Hl by (simpl; lia).
  split; [exact Hc|]. split; [exact Hl|].
  exact (GetTransactions_complete gap_history Hc 10 Background "master" 1 Hl).
Defined.

(** A server that lists one transaction per request and, when [slow], misses
    the deadline at the second request. *)
Definition gap_server (slow : bool) (o : liteop) : liteop_ans o :=
  match o with
  | GetMasterchainInfo _ => (tt, None)
  | GetAccount _ _ _ => (mkAccount 3 "", None)
  | ListTransactions _ _ _ lt _ =>
      if slow && negb (lt =? 3) then ([], Some DeadlineExceeded)
      else (rev (take 1 (from_LT lt gap_history)), None)
  | GetStorageInfoV1 _ _ _ => (None, None)
  | GetProvidersV1 _ _ _ => ([], 0, None)
  end.

(** The master scanner on that client. *)
Definition gap_scan (slow : bool) (fromLT : Z) : outcome (list Provider * Z * option error) :=
  (exec (calm (I:=lite) (gap_server slow))
     (interp (I:=tonclient) (J:=lite) (tonclient_of 10) (MasterScan Background "master" fromLT)) tt).2.
Definition keys_of (out : outcome (list Provider * Z * option error)) : option (list string * Z) :=
  match out with
  | Returned (ps, lt, None) => Some ((λ p, drop_bytes 63 (pr_PublicKey p)) <$> ps, lt)
  | _ => None
  end.

(** A scan whose second request misses the deadline returns the newest one and
    its LT as the place to go on from; the next scan, from there and without
    trouble, returns nothing more.  A scan without trouble returns all three.
    [System.short_listing_loses_registrations] is the general case. *)
Example short_listing_run :
  keys_of (gap_scan true 0) = Some (["3"], 3) ∧
  keys_of (gap_scan false 3) = Some ([], 3) ∧
  keys_of (gap_scan false 0) = Some (["3"; "1"; "2"], 3).
Proof. vm_compute. done. Qed.
End gap.
