(* ===== verification/Postgres.v ===== *)
(** [adapters/outbound/postgres]: the repositories.  Each query of the code is
    one operation; [run_sql] is the SQL text of the queries as functions on the
    tables, for the theorems that follow data through the database. *)

From S2P Require Import Prelude GoStd Effects Domain.

(** ** The tables the queries read and write *)
Record provider_row := mkProviderRow {
  pv_public_key : string;
  pv_address : string;
  pv_last_tx_lt : Z;
  pv_ip : option string;
  pv_port : option Z;
  pv_storage_ip : option string;
  pv_storage_port : option Z;
  pv_updated_at : Time;
  pv_ip_info : gmap string string }.       (* a jsonb object with text fields *)
Record contract_row := mkContractRow {
  ct_address : string;
  ct_provider_address : string;
  ct_bag_id : string;
  ct_size : Z }.
Record db := mkDb {
  db_providers : list provider_row;
  db_contracts : list contract_row;
  db_params : gmap string string }.         (* system.params: key, value *)

(** ** The queries *)

(** The rows of a query, each scanned or with the error of [Scan]; and the
    error of [rows.Err()] after the last. *)
Record rows (T : Type) := mkRows { rw_rows : list (T + error); rw_err : option error }.
Arguments mkRows {T} _ _.
Arguments rw_rows {T} _.
Arguments rw_err {T} _.

Record providerLTDTO := mkLTDTO { lt_PublicKey : string; lt_LastTxLT : Z }.

(** Nullable columns come as pointers. *)
Record endpoint_row := mkEndpointRow {
  er_public_key : string;
  er_ip : option string;
  er_port : option Z;
  er_storage_ip : option string;
  er_storage_port : option Z }.

Inductive pgop :=
| SelectPubkeys (ctx : Ctx)
| SelectWallets (ctx : Ctx)
| UpdateProvidersLT (ctx : Ctx) (dtos : list providerLTDTO)
| SelectRelations (ctx : Ctx)
| SelectFresh (ctx : Ctx) (pubkey : string) (maxAge : Duration)
| SelectEndpoints (ctx : Ctx)
| SelectIPs (ctx : Ctx)
| UpsertParam (ctx : Ctx) (key value : string)
| SelectParam (ctx : Ctx) (key : string).

Definition pgop_ans (o : pgop) : Type :=
  match o with
  | SelectPubkeys _ => rows string + error
  | SelectWallets _ => rows (string * string * Z) + error
  | UpdateProvidersLT _ _ => option error
  | SelectRelations _ => rows (string * string * string * string * Z) + error
  | SelectFresh _ _ _ => endpoint_row + error
  | SelectEndpoints _ => rows (endpoint_row * Time) + error
  | SelectIPs _ => rows (string * string) + error
  | UpsertParam _ _ _ => option error
  | SelectParam _ _ => rows string + error
  end%type.
Definition pg : iface := Iface pgop pgop_ans.
#[export] Instance pg_env : Env pg := any_env pg.
Definition pcall (o : pgop) : prog pg (pgop_ans o) := ext (I:=pg) o.

Definition ErrNoRows : error := ErrSentinel "pgx.ErrNoRows" "no rows in result set".

(** [for rows.Next() { rows.Scan }] and [rows.Err()]. *)
Fixpoint scan_rows {T} (l : list (T + error)) (acc : list T) : list T + error :=
  match l with
  | [] => inl acc
  | inl x :: l => scan_rows l (acc ++ [x])
  | inr e :: _ => inr e
  end.
Definition collect {T} (op : string) (r : rows T + error) : list T * option error :=
  match r with
  | inr e => if Is e ErrNoRows then ([], None) else ([], Some (wrap op e))
  | inl r =>
      match scan_rows (rw_rows r) [] with
      | inr e => ([], Some (wrap op e))
      | inl l => match rw_err r with Some e => ([], Some (wrap op e)) | None => (l, None) end
      end
  end.

(** provider.go *)
Definition GetAllPubkeys (ctx : Ctx) : prog pg (list string * option error) :=
  r ← pcall (SelectPubkeys ctx);
  mret (collect "postgres.ProviderRepo.GetAllPubkeys" r).

Definition GetAllWallets (ctx : Ctx) : prog pg (list Provider * option error) :=
  r ← pcall (SelectWallets ctx);
  let (l, e) := collect "postgres.ProviderRepo.GetAllWallets" r in
  mret ((λ '(pk, a, lt), mkProvider pk a lt zero_time) <$> l, e).

Definition UpdateLT (ctx : Ctx) (providers : list Provider) : prog pg (option error) :=
  match providers with
  | [] => mret None
  | _ =>
      let dtos := (λ p, mkLTDTO (pr_PublicKey p) (pr_LT p)) <$> providers in
      err ← pcall (UpdateProvidersLT ctx dtos);
      mret (wrap "postgres.ProviderRepo.UpdateLT" <$> (err : option error))
  end.

(** contract.go *)
Definition GetActiveRelations (ctx : Ctx) : prog pg (list ContractProviderRelation * option error) :=
  r ← pcall (SelectRelations ctx);
  let (l, e) := collect "postgres.ContractRepo.GetActiveRelations" r in
  mret ((λ '(pk, paddr, addr, bag, size), mkRelation addr pk paddr bag size) <$> l, e).

(** endpoint.go *)
Definition endpoint_of (r : endpoint_row) (updated : Time) : ProviderEndpoint :=
  mkProviderEndpoint (er_public_key r)
    (mkEndpoint "" (default "" (er_ip r)) (default 0 (er_port r)))
    (mkEndpoint "" (default "" (er_storage_ip r)) (default 0 (er_storage_port r)))
    updated.

Definition LoadFresh (ctx : Ctx) (pubkey : string) (maxAge : Duration)
    : prog pg (ProviderEndpoint * bool * option error) :=
  r ← pcall (SelectFresh ctx pubkey maxAge);
  match (r : endpoint_row + error) with
  | inr e =>
      if Is e ErrNoRows then mret (zeroProviderEndpoint, false, None)
      else mret (zeroProviderEndpoint, false, Some (wrap "postgres.EndpointRepo.LoadFresh" e))
  | inl r => mret (endpoint_of r zero_time, true, None)
  end.

Definition LoadAll (ctx : Ctx) : prog pg (gmap string ProviderEndpoint * option error) :=
  r ← pcall (SelectEndpoints ctx);
  let (l, e) := collect "postgres.EndpointRepo.LoadAll" r in
  mret (foldl (λ m '(r, t), <[er_public_key r := endpoint_of r t]> m) ∅ l, e).

(** ipinfo.go *)
Definition GetProvidersIPs (ctx : Ctx) : prog pg (list ProviderEndpoint * option error) :=
  r ← pcall (SelectIPs ctx);
  let (l, e) := collect "postgres.IPInfoRepo.GetProvidersIPs" r in
  mret ((λ '(pk, ip), mkProviderEndpoint pk (mkEndpoint "" ip 0) zeroEndpoint zero_time) <$> l, e).

(** system.go *)
Definition lastLTKey : string := "masterWalletLastLT".

Definition SetMasterWalletLT (ctx : Ctx) (lt : Z) : prog pg (option error) :=
  err ← pcall (UpsertParam ctx lastLTKey (FormatUint lt));
  mret (wrap "postgres.SystemRepo.SetMasterWalletLT" <$> (err : option error)).

Definition GetMasterWalletLT (ctx : Ctx) : prog pg (Z * option error) :=
  let op := "postgres.SystemRepo.GetMasterWalletLT" in
  r ← pcall (SelectParam ctx lastLTKey);
  match (r : rows string + error) with
  | inr e => mret (0, Some (wrap op e))
  | inl r =>
      match head (rw_rows r) with                     (* if rows.Next() *)
      | Some (inr e) => mret (0, Some (wrap op e))
      | first =>
          let val := match first with Some (inl v) => v | _ => "" end in
          match rw_err r with
          | Some e => mret (0, Some (wrap op e))
          | None =>
              if bool_decide (val = "") then mret (0, None)
              else
                let (lt, err) := ParseUint val in
                match err with
                | Some e => mret (0, Some (wrap op e))
                | None => mret (lt, None)
                end
          end
      end
  end.

(** ** The SQL of the queries

    [lower] is the database's function; [now] its clock. *)
Section sql.
Context (lower : string → string) (now : Time).

Definition all_rows {T} (l : list T) : rows T + error := inl (mkRows (inl <$> l) None).

Definition row_endpoint (p : provider_row) : endpoint_row :=
  mkEndpointRow (pv_public_key p) (pv_ip p) (pv_port p) (pv_storage_ip p) (pv_storage_port p).

Definition set_lt (p : provider_row) (lt : Z) : provider_row :=
  mkProviderRow (pv_public_key p) (pv_address p) lt (pv_ip p) (pv_port p) (pv_storage_ip p)
    (pv_storage_port p) (pv_updated_at p) (pv_ip_info p).

(** UPDATE providers p SET last_tx_lt = c.last_tx_lt FROM (...) c
    WHERE p.public_key = c.public_key; of several matches one is used. *)
Definition sql_update_lt (dtos : list providerLTDTO) (p : provider_row) : provider_row :=
  match filter (λ c, lower (lt_PublicKey c) = pv_public_key p) dtos with
  | c :: _ => set_lt p (lt_LastTxLT c)
  | [] => p
  end.

(** ip IS NOT NULL AND updated_at > NOW() - make_interval(secs => maxAge) *)
Definition sql_fresh (pubkey : string) (maxAge : Duration) (p : provider_row) : bool :=
  bool_decide (lower (pv_public_key p) = lower pubkey) &&
  negb (bool_decide (pv_ip p = None)) && (now - maxAge <? pv_updated_at p).

(** length(ip) > 0 AND (ip_info = '{}' OR ip_info->>'ip' <> ip); a comparison
    with NULL does not hold. *)
Definition sql_needs_info (p : provider_row) : bool :=
  match pv_ip p with
  | Some ip =>
      negb (bool_decide (ip = "")) &&
      (bool_decide (pv_ip_info p = ∅) ||
       match pv_ip_info p !! "ip" with Some ip' => negb (bool_decide (ip' = ip)) | None => false end)
  | None => false
  end.

(** bigint holds 64 bits with sign; a larger value is an error. *)
Definition ErrBigint : error := ErrText "ERROR: value is out of range for type bigint (SQLSTATE 22003)".

Definition run_sql (o : pgop) (d : db) : pgop_ans o * db :=
  match o with
  | SelectPubkeys _ => (all_rows (pv_public_key <$> db_providers d), d)
  | SelectWallets _ =>
      (all_rows ((λ p, (pv_public_key p, pv_address p, pv_last_tx_lt p)) <$> db_providers d), d)
  | UpdateProvidersLT _ dtos =>
      if existsb (λ c, two63 <=? lt_LastTxLT c) dtos then (Some ErrBigint, d)
      else (None, mkDb (sql_update_lt dtos <$> db_providers d) (db_contracts d) (db_params d))
  | SelectRelations _ =>
      (all_rows (sc ← db_contracts d;
                 p ← filter (λ p, pv_address p = ct_provider_address sc) (db_providers d);
                 [(pv_public_key p, ct_provider_address sc, ct_address sc, ct_bag_id sc, ct_size sc)]),
       d)
  | SelectFresh _ pubkey maxAge =>
      (match filter (λ p, sql_fresh pubkey maxAge p = true) (db_providers d) with
       | p :: _ => inl (row_endpoint p)
       | [] => inr ErrNoRows
       end, d)
  | SelectEndpoints _ =>
      (all_rows ((λ p, (row_endpoint p, pv_updated_at p)) <$>
                 filter (λ p, default "" (pv_ip p) ≠ "") (db_providers d)), d)
  | SelectIPs _ =>
      (all_rows ((λ p, (pv_public_key p, default "" (pv_ip p))) <$>
                 filter (λ p, sql_needs_info p = true) (db_providers d)), d)
  | UpsertParam _ key value =>
      (None, mkDb (db_providers d) (db_contracts d) (<[key := value]> (db_params d)))
  | SelectParam _ key => (all_rows (option_list (db_params d !! key)), d)
  end.
End sql.

(** ** Properties *)

(** Reading rows is all or nothing: the rows in order, or no row and an error. *)
Lemma scan_rows_spec {T} (l : list (T + error)) acc :
  match scan_rows l acc with
  | inl r => l = inl <$> drop (length acc) r ∧ take (length acc) r = acc
  | inr e => inr e ∈ l
  end.
Proof.
  revert acc. induction l as [|[x|e] l IH]; intros acc; simpl.
  - by rewrite drop_all, firstn_all.
  - specialize (IH (acc ++ [x])). destruct (scan_rows l (acc ++ [x])) as [r|e]; [|by right].
    destruct IH as [-> Ht]. rewrite length_app in *. simpl in *.
    assert (r = acc ++ x :: drop (length acc + 1) r) as Hr.
    { rewrite <- (take_drop (length acc + 1) r) at 1. by rewrite Ht, <- app_assoc. }
    rewrite Hr at 2 3. rewrite drop_app_length, take_app_length. done.
  - constructor.
Qed.

Lemma collect_all {T} op (l : list T) : collect op (all_rows l) = (l, None).
Proof.
  unfold collect, all_rows. simpl. pose proof (scan_rows_spec (inl <$> l : list (T + error)) []) as Hs.
  destruct (scan_rows _ []) as [r|e].
  - destruct Hs as [Hs _]. simpl in Hs. rewrite drop_0 in Hs.
    apply (inj (fmap inl)) in Hs. by subst.
  - apply list_elem_of_fmap in Hs as (? & ? & ?). done.
Qed.

Section database.
Context (lower : string → string) (now : Time).
Implicit Types (d : db) (ctx : Ctx).

Abbreviation on_db p d := (exec_state (I:=pg) (run_sql lower now) p d).

(** Before anything was stored the LT is zero. *)
Lemma master_LT_initial ctx d :
  db_params d !! lastLTKey = None → (on_db (GetMasterWalletLT ctx) d).1 = Returned (0, None).
Proof. unfold GetMasterWalletLT. cbn -[lastLTKey]. by intros ->. Qed.

(** The master wallet's LT survives the database: stored as decimal text
    under one key and read back, it is the same 64-bit number; no table and no
    other parameter is touched; before anything was stored it reads as zero. *)
Theorem master_LT_roundtrip ctx lt d :
  is_u64 lt →
  (on_db (SetMasterWalletLT ctx lt) d).1 = Returned None ∧
  let d' := (on_db (SetMasterWalletLT ctx lt) d).2 in
  (on_db (GetMasterWalletLT ctx) d').1 = Returned (lt, None) ∧
  db_providers d' = db_providers d ∧ db_contracts d' = db_contracts d ∧
  (∀ key, key ≠ lastLTKey → db_params d' !! key = db_params d !! key) ∧
  (db_params d !! lastLTKey = None → (on_db (GetMasterWalletLT ctx) d).1 = Returned (0, None)).
Proof.
  intros Hlt. unfold SetMasterWalletLT, GetMasterWalletLT. cbn -[FormatUint ParseUint lastLTKey].
  split; [done|]. rewrite lookup_insert_eq. cbn -[FormatUint ParseUint lastLTKey].
  rewrite bool_decide_eq_false_2 by apply FormatUint_nonempty.
  rewrite ParseUint_FormatUint by done. split_and!; [done..| |].
  - intros key Hkey. by rewrite lookup_insert_ne.
  - intros ->. done.
Qed.

(** Storing wallet LTs changes the column of the matching providers and
    nothing else: each provider whose key is the lower-cased key of a stored
    wallet gets the LT of such a wallet, every other row stays; an LT that does
    not fit the column changes nothing and is an error. *)
Theorem UpdateLT_rows ctx ws d :
  ws ≠ [] →
  let '(out, d') := on_db (UpdateLT ctx ws) d in
  if existsb (λ w, two63 <=? pr_LT w) ws then (∃ e, out = Returned (Some e)) ∧ d' = d
  else
    out = Returned None ∧ db_contracts d' = db_contracts d ∧ db_params d' = db_params d ∧
    Forall2 (λ r r',
      (∃ w, w ∈ ws ∧ lower (pr_PublicKey w) = pv_public_key r ∧ r' = set_lt r (pr_LT w)) ∨
      ((∀ w, w ∈ ws → lower (pr_PublicKey w) ≠ pv_public_key r) ∧ r' = r))
      (db_providers d) (db_providers d').
Proof.
  intros Hne. unfold UpdateLT. destruct ws as [|w0 ws']; [done|]. set (ws := w0 :: ws') in *.
  set (dtos := (λ p, mkLTDTO (pr_PublicKey p) (pr_LT p)) <$> ws).
  assert (existsb (λ c, two63 <=? lt_LastTxLT c) dtos = existsb (λ w, two63 <=? pr_LT w) ws) as Hex.
  { unfold dtos. clear. induction ws as [|w ws IH]; [done|]. csimpl. by rewrite IH. }
  assert (∀ w, w ∈ ws → mkLTDTO (pr_PublicKey w) (pr_LT w) ∈ dtos) as Hin1.
  { intros w Hw. apply list_elem_of_fmap. eauto. }
  assert (∀ c, c ∈ dtos → ∃ w, c = mkLTDTO (pr_PublicKey w) (pr_LT w) ∧ w ∈ ws) as Hin2.
  { intros c. apply list_elem_of_fmap. }
  clearbody dtos. cbn -[two63 existsb]. rewrite Hex.
  destruct (existsb _ ws); simpl; [split; [by eexists|done]|].
  split_and!; [done..|]. apply Forall2_fmap_r, Forall_Forall2_diag, Forall_forall. intros r _.
  unfold compose, sql_update_lt.
  destruct (filter (λ c, lower (lt_PublicKey c) = pv_public_key r) dtos) as [|c cs] eqn:Hf.
  - right. split; [|done]. intros w Hw Hk.
    assert (mkLTDTO (pr_PublicKey w) (pr_LT w) ∈ filter (λ c, lower (lt_PublicKey c) = pv_public_key r) dtos)
      as Hin by (apply list_elem_of_filter; split; [done|]; by apply Hin1).
    rewrite Hf in Hin. by apply elem_of_nil in Hin.
  - left. assert (c ∈ filter (λ c, lower (lt_PublicKey c) = pv_public_key r) dtos) as Hin
      by (rewrite Hf; constructor).
    apply list_elem_of_filter in Hin as [Hk Hin]. apply Hin2 in Hin as (w & -> & Hw).
    by exists w.
Qed.

(** The active relations are the join the query asks for: exactly the pairs
    of a contract and a provider with the contract's provider address. *)
Theorem GetActiveRelations_join ctx d :
  ∃ rels, (on_db (GetActiveRelations ctx) d) = (Returned (rels, None), d) ∧
    ∀ rel, rel ∈ rels ↔
      ∃ sc p, sc ∈ db_contracts d ∧ p ∈ db_providers d ∧ pv_address p = ct_provider_address sc ∧
        rel = mkRelation (ct_address sc) (pv_public_key p) (ct_provider_address sc) (ct_bag_id sc)
                (ct_size sc).
Proof.
  eexists. split.
  { unfold GetActiveRelations, pcall.
    etransitivity; [exact (exec_state_ext (I:=pg) (run_sql lower now) (SelectRelations ctx) _ d)|].
    cbn [run_sql fst snd]. by rewrite collect_all. }
  intros rel. rewrite list_elem_of_fmap. split.
  - intros ([[[[pk pa] ad] bag] sz] & -> & Hin).
    apply list_elem_of_bind in Hin as (sc & Hin & Hsc).
    apply list_elem_of_bind in Hin as (p & Hin & Hp).
    apply list_elem_of_singleton in Hin. simplify_eq.
    apply list_elem_of_filter in Hp as [Hp1 Hp2]. exists sc, p. done.
  - intros (sc & p & Hsc & Hp & Ha & ->).
    exists (pv_public_key p, ct_provider_address sc, ct_address sc, ct_bag_id sc, ct_size sc).
    split; [done|]. apply list_elem_of_bind. exists sc. split; [|done].
    apply list_elem_of_bind. exists p. rewrite list_elem_of_singleton, list_elem_of_filter. done.
Qed.
End database.

(** The endpoint of [LoadFresh] has no storage key: the query does not select
    one and nothing fills the field. *)
Lemma LoadFresh_no_storage_key ctx pubkey maxAge :
  every_run (LoadFresh ctx pubkey maxAge) (λ tr out,
    ∃ ep ok err, out = Returned (ep, ok, err) ∧ ep_PublicKey (pe_Storage ep) = "").
Proof.
  apply every_run_wp. unfold LoadFresh, pcall. apply wp_ext_bind. intros [r|e] _.
  - apply wp_ret. by do 3 eexists.
  - destruct (Is e ErrNoRows); apply wp_ret; by do 3 eexists.
Qed.

(** Witnesses and a run: the LTs are stored without comparing them, so that a
    smaller LT replaces a larger one. *)
Definition ex_db : db :=
  mkDb [mkProviderRow "aa" "addr" 10 None None None None 0 ∅] [] ∅.

Lemma master_LT_roundtrip_witness :
  is_u64 18446744073709551615 ∧
  (exec_state (I:=pg) (run_sql id 0) (SetMasterWalletLT Background 18446744073709551615) ex_db).1
    = Returned None.
Proof.
  assert (is_u64 18446744073709551615) as Hu by (unfold is_u64, two64; lia).
  split; [exact Hu|]. exact (proj1 (master_LT_roundtrip id 0 Background _ ex_db Hu)).
Defined.

Lemma UpdateLT_rows_witness :
  [mkProvider "aa" "" 5 0] ≠ [] ∧
  (exec_state (I:=pg) (run_sql id 0) (UpdateLT Background [mkProvider "aa" "" 5 0]) ex_db).1
    = Returned None.
Proof.
  assert ([mkProvider "aa" "" 5 0] ≠ []) as Hne by done. split; [exact Hne|].
  pose proof (UpdateLT_rows id 0 Background [mkProvider "aa" "" 5 0] ex_db Hne) as Ht.
  vm_compute in Ht. vm_compute. exact (proj1 Ht).
Defined.

Example UpdateLT_goes_back :
  pv_last_tx_lt <$> db_providers
    (exec_state (I:=pg) (run_sql id 0) (UpdateLT Background [mkProvider "aa" "" 5 0]) ex_db).2 = [5].
Proof. vm_compute. done. Qed.
