(* ===== verification/DirectProvider.v ===== *)
(** [adapters/outbound/directprovider]: the rates probe and the check of one
    bag, over the ADNL and RLDP libraries. *)

From S2P Require Import Prelude GoStd Effects Domain.

Definition probeFakeSize : Z := 1.
Definition pingTimeout : Duration := 5 * Second.
Definition rlQueryTimeout : Duration := 10 * Second.

(** [strconv.Itoa] *)
Definition Itoa (n : Z) : string := if n <? 0 then "-" +:+ FormatUint (- n) else FormatUint n.

(** ** The libraries *)
Record TorrentInfo := mkTorrentInfo {
  ti_PieceSize : Z;       (* uint32 *)
  ti_FileSize : Z;        (* uint64 *)
  ti_RootHash : string }.
Record StorageRates := mkStorageRates {
  sr_Available : bool;
  sr_RatePerMBDay : string;
  sr_MinBounty : string;
  sr_MinSpan : Z;
  sr_MaxSpan : Z }.

Class ProviderLib := {
  Peer : Type;
  BagCell : Type;
  overlay_key : string → string + error;          (* tl.Hash(keys.PublicKeyOverlay{Key: bag}) *)
  FromBOC : string → BagCell + error;
  cell_Hash : BagCell → string;
  LoadTorrentInfo : BagCell → TorrentInfo + error; (* tlb.LoadFromCell *)
  CheckProof : BagCell → string → option error }.

Section direct.
Context `{ProviderLib}.

(** One operation per method that goes to the network. *)
Inductive dirop :=
| GetStorageRates (ctx : Ctx) (pubkey : string) (size : Z)
| RegisterClient (addr key : string)
| Ping (ctx : Ctx) (p : Peer)
| GetADNL (p : Peer)            (* rl.GetADNL().(adnl.Peer) of the client on [p] *)
| Reinit (p : Peer)
| QueryTorrentInfo (ctx : Ctx) (p : Peer) (over : string)
| QueryPiece (ctx : Ctx) (p : Peer) (over : string) (pieceID : Z)
| CloseRLDP (p : Peer).
Definition dirop_ans (o : dirop) : Type :=
  match o with
  | GetStorageRates _ _ _ => option StorageRates * option error
  | RegisterClient _ _ => Peer + error
  | Ping _ _ => option error
  | GetADNL _ => option Peer
  | Reinit _ | CloseRLDP _ => unit
  | QueryTorrentInfo _ _ _ | QueryPiece _ _ _ _ => string + error
  end%type.
Definition direct : iface := Iface dirop dirop_ans.
#[export] Instance direct_env : Env direct := any_env direct.
Definition dcall (o : dirop) : prog direct (dirop_ans o) := ext (I:=direct) o.

(** ** Probe *)
Definition Probe (ctx : Ctx) (pubkey : string) : prog direct (Rates * bool * option error) :=
  let op := "adapters.directprovider.Probe" in
  '(res, err) ← dcall (GetStorageRates ctx pubkey probeFakeSize);
  match err with
  | Some e => mret (zeroRates, false, Some (wrap op e))
  | None =>
      match res with
      | None => mret (zeroRates, false, None)
      | Some res =>
          if negb (sr_Available res) then mret (zeroRates, false, None)
          else
            mret (mkRates (big_Int64 (SetBytes (sr_RatePerMBDay res)))
                          (big_Int64 (SetBytes (sr_MinBounty res)))
                          (sr_MinSpan res) (sr_MaxSpan res), true, None)
      end
  end.

(** ** checkPiece *)

(** [int32(torrent.FileSize / uint64(torrent.PieceSize))], zero without a
    piece size. *)
Definition total_pieces (t : TorrentInfo) : Z :=
  if ti_PieceSize t =? 0 then 0 else wrap_i32 (ti_FileSize t / ti_PieceSize t).

Definition pick_piece (t : TorrentInfo) : prog direct Z :=
  if 0 <? total_pieces t then go (Int31n (total_pieces t)) else mret 1.

(** [if time.Since(est) > 5*time.Second { peer.Reinit() ... }] *)
Definition reinit_if_slow (peer : Peer) (est : Time) : prog direct bool :=
  now ← go TimeNow;
  if 5 * Second <? Sub now est then _ ← dcall (Reinit peer); mret true else mret false.

(** The second half: the torrent's header is known. *)
Definition check_piece_of (ctx : Ctx) (peer : Peer) (over : string) (est : Time) (torrent : TorrentInfo)
    : prog direct ReasonCode :=
  pieceID ← pick_piece torrent;
  _ ← reinit_if_slow peer est;
  r ← dcall (QueryPiece (WithTimeout ctx rlQueryTimeout) peer over pieceID);
  match (r : string + error) with
  | inr _ => mret CantGetPiece
  | inl piece =>
      match FromBOC piece with
      | inr _ => mret CantParseBoC
      | inl proof =>
          match CheckProof proof (ti_RootHash torrent) with
          | Some _ => mret ProofCheckFailed
          | None => mret ValidStorageProof
          end
      end
  end.

(** The torrent's header: its query, its hash, its cell. *)
Definition check_info_of (ctx : Ctx) (peer : Peer) (bag over : string) (est : Time)
    : prog direct ReasonCode :=
  r ← dcall (QueryTorrentInfo (WithTimeout ctx rlQueryTimeout) peer over);
  match (r : string + error) with
  | inr _ => mret GetInfoFailed
  | inl data =>
      match FromBOC data with
      | inr _ => mret InvalidHeader
      | inl cl =>
          if negb (bool_decide (cell_Hash cl = bag)) then mret InvalidHeader
          else
            match LoadTorrentInfo cl with
            | inr _ => mret InvalidHeader
            | inl torrent => check_piece_of ctx peer over est torrent
            end
      end
  end.

Definition checkPiece (ctx : Ctx) (rl : Peer) (bagID : string) : prog direct ReasonCode :=
  peer ← dcall (GetADNL rl);
  match (peer : option Peer) with
  | None => mret UnknownPeer
  | Some peer =>
      _ ← dcall (Reinit peer);
      est ← go TimeNow;
      err ← dcall (Ping (WithTimeout ctx pingTimeout) peer);
      if negb (is_nil (err : option error)) then mret PingFailed
      else
        let (bag, err) := DecodeString bagID in
        if negb (is_nil err) then mret InvalidBagID
        else
          match overlay_key bag with
          | inr _ => mret InvalidBagID
          | inl over =>
              slow ← reinit_if_slow peer est;
              est ← (if slow : bool then go TimeNow else mret est);
              check_info_of ctx peer bag over est
          end
  end.

(** ** Verify *)
Definition Verify (ctx : Ctx) (ep : ProviderEndpoint) (bagID : string)
    : prog direct (ReasonCode * option error) :=
  let st := pe_Storage ep in
  if bool_decide (ep_IP st = "") || (ep_Port st =? 0) || bool_decide (ep_PublicKey st = "")
  then mret (IPNotFound, None)
  else
    let addr := ep_IP st +:+ ":" +:+ Itoa (ep_Port st) in
    r ← dcall (RegisterClient addr (ep_PublicKey st));
    match (r : Peer + error) with
    | inr _ => mret (CantCreatePeer, None)
    | inl peer =>
        err ← dcall (Ping (WithTimeout ctx pingTimeout) peer);
        if negb (is_nil (err : option error)) then mret (FailedInitialPing, None)
        else
          reason ← checkPiece ctx peer bagID;
          _ ← dcall (CloseRLDP peer);     (* deferred *)
          mret (reason, None)
    end.
End direct.

(** ** Properties *)
Section properties.
Context `{ProviderLib}.
Implicit Types (tr hist : trace direct) (ctx : Ctx) (ep : ProviderEndpoint).

Definition dev (o : dirop) (x : dirop_ans o) : event direct := @Ev direct (@Ext direct o) x.

(** The piece asked for. *)
Definition piece_ok (t : TorrentInfo) (pieceID : Z) : Prop :=
  if 0 <? total_pieces t then 0 <= pieceID < total_pieces t else pieceID = 1.

(** The peer behind the client [rl] proved it holds a piece of the bag: it
    sent a header whose hash is the bag id, and for the piece asked for a
    proof that the library checked against that header's root. *)
Definition proven ctx (rl : Peer) (bagID : string) tr : Prop :=
  ∃ peer bag over info cl torrent pieceID piece proof,
    dev (GetADNL rl) (Some peer) ∈ tr ∧
    DecodeString bagID = (bag, None) ∧ overlay_key bag = inl over ∧
    dev (QueryTorrentInfo (WithTimeout ctx rlQueryTimeout) peer over) (inl info) ∈ tr ∧
    FromBOC info = inl cl ∧ cell_Hash cl = bag ∧ LoadTorrentInfo cl = inl torrent ∧
    piece_ok torrent pieceID ∧
    dev (QueryPiece (WithTimeout ctx rlQueryTimeout) peer over pieceID) (inl piece) ∈ tr ∧
    FromBOC piece = inl proof ∧ CheckProof proof (ti_RootHash torrent) = None.

Definition proof_post ctx rl bagID hist (r : ReasonCode) tr : Prop :=
  hist `prefix_of` tr ∧ (r = ValidStorageProof → proven ctx rl bagID tr).

Lemma proof_post_mono ctx rl bagID hist hist' r tr :
  proof_post ctx rl bagID hist' r tr → hist `prefix_of` hist' → proof_post ctx rl bagID hist r tr.
Proof. intros [Hp Hr] Hpre. split; [by etrans|done]. Qed.

Lemma proof_post_fail ctx rl bagID hist r :
  r ≠ ValidStorageProof → wp (mret r) (returns (proof_post ctx rl bagID hist)) hist.
Proof. intros Hr. apply wp_ret. by split. Qed.

Lemma pick_piece_wp torrent hist :
  wp (pick_piece torrent) (returns (λ i tr, hist `prefix_of` tr ∧ piece_ok torrent i)) hist.
Proof.
  unfold pick_piece, piece_ok. destruct (0 <? total_pieces torrent).
  - intros i Hi. split; [by eexists|done].
  - by apply wp_ret.
Qed.

Lemma reinit_wp peer est hist :
  wp (reinit_if_slow peer est) (returns (λ _ tr, hist `prefix_of` tr)) hist.
Proof.
  unfold reinit_if_slow, dcall. apply wp_go_bind. intros now _.
  destruct (5 * Second <? Sub now est).
  - apply wp_ext_bind. intros [] _. apply wp_ret. rewrite <- app_assoc. by eexists.
  - apply wp_ret. by eexists.
Qed.

(** A failing branch of a check that started at [hist]. *)
Ltac check_fails := apply wp_ret; split; [grown|done].

Lemma check_piece_of_wp ctx rl peer over est torrent bagID bag info cl hist :
  dev (GetADNL rl) (Some peer) ∈ hist →
  DecodeString bagID = (bag, None) → overlay_key bag = inl over →
  dev (QueryTorrentInfo (WithTimeout ctx rlQueryTimeout) peer over) (inl info) ∈ hist →
  FromBOC info = inl cl → cell_Hash cl = bag → LoadTorrentInfo cl = inl torrent →
  wp (check_piece_of ctx peer over est torrent) (returns (proof_post ctx rl bagID hist)) hist.
Proof.
  intros Hg Hd Ho Hin Hb Hh Ht. unfold check_piece_of. apply wp_bind.
  eapply wp_mono'; [apply pick_piece_wp|]. intros tr [i|s]; [|done]. intros [[m1 ->] Hi].
  unfold seq_post. apply wp_bind. eapply wp_mono'; [apply reinit_wp|].
  intros tr [slow|s]; [|done]. intros [m2 ->]. unfold seq_post, dcall.
  apply wp_ext_bind. intros [piece|e] _; [|check_fails].
  destruct (FromBOC piece) as [proof|e] eqn:Hp; [|check_fails].
  destruct (CheckProof proof (ti_RootHash torrent)) eqn:Hc; [check_fails|].
  apply wp_ret. split; [grown|]. intros _.
  exists peer, bag, over, info, cl, torrent, i, piece, proof.
  split_and!; try done; rewrite !elem_of_app; [by left; left; left..|].
  right. by apply list_elem_of_singleton.
Qed.

Lemma check_info_of_wp ctx rl peer bag over est bagID hist :
  dev (GetADNL rl) (Some peer) ∈ hist →
  DecodeString bagID = (bag, None) → overlay_key bag = inl over →
  wp (check_info_of ctx peer bag over est) (returns (proof_post ctx rl bagID hist)) hist.
Proof.
  intros Hg Hd Ho. unfold check_info_of, dcall. apply wp_ext_bind. intros [data|e] _; [|check_fails].
  destruct (FromBOC data) as [cl|e] eqn:Hb; [|check_fails].
  case_bool_decide as Hh; [|check_fails]. cbn [negb].
  destruct (LoadTorrentInfo cl) as [torrent|e] eqn:Ht; [|check_fails].
  eapply wp_mono'; [eapply check_piece_of_wp; try done|].
  - apply elem_of_app. by left.
  - apply elem_of_app. right. by apply list_elem_of_singleton.
  - intros tr [r|s]; [|done]. intros Hr. eapply proof_post_mono; [done|grown].
Qed.

Lemma checkPiece_wp ctx rl bagID hist :
  wp (checkPiece ctx rl bagID) (returns (proof_post ctx rl bagID hist)) hist.
Proof.
  unfold checkPiece, dcall. apply wp_ext_bind. intros [peer|] _; [|check_fails].
  apply wp_ext_bind. intros [] _. apply wp_go_bind. intros est _.
  apply wp_ext_bind. intros [e|] _; [check_fails|]. cbn [is_nil negb].
  destruct (DecodeString bagID) as [bag [e|]] eqn:Hd; [check_fails|]. cbn [is_nil negb].
  destruct (overlay_key bag) as [over|e] eqn:Ho; [|check_fails].
  apply wp_bind. eapply wp_mono'; [apply reinit_wp|]. intros tr [slow|s]; [|done]. intros [m ->].
  unfold seq_post. destruct slow; [apply wp_go_bind; intros est' _|];
    (eapply wp_mono'; [apply check_info_of_wp; try done; unfold dev; rewrite !elem_of_app, !list_elem_of_singleton; tauto|];
     intros tr [r|s]; [|done]; intros Hr; eapply proof_post_mono; [done|grown]).
Qed.
(** The endpoint has what [Verify] needs to reach the storage node. *)
Definition reachable ep : Prop :=
  ep_IP (pe_Storage ep) ≠ "" ∧ ep_Port (pe_Storage ep) ≠ 0 ∧ ep_PublicKey (pe_Storage ep) ≠ "".
Definition storage_addr ep : string := ep_IP (pe_Storage ep) +:+ ":" +:+ Itoa (ep_Port (pe_Storage ep)).

Lemma Verify_unreachable ctx ep bagID tr out :
  ¬ reachable ep → runs [] (Verify ctx ep bagID) tr out →
  tr = [] ∧ out = Returned (IPNotFound, None).
Proof.
  unfold reachable, Verify. intros Hno.
  destruct (bool_decide (ep_IP _ = "") || (ep_Port _ =? 0) || bool_decide (ep_PublicKey _ = "")) eqn:Hb; [done|].
  destruct Hno. apply orb_false_iff in Hb as [[H1 H2]%orb_false_iff H3].
  apply bool_decide_eq_false in H1, H3. by apply Z.eqb_neq in H2.
Qed.

Lemma Verify_reachable ctx ep bagID : reachable ep →
  Verify ctx ep bagID =
    (r ← dcall (RegisterClient (storage_addr ep) (ep_PublicKey (pe_Storage ep)));
     match (r : Peer + error) with
     | inr _ => mret (CantCreatePeer, None)
     | inl peer =>
         err ← dcall (Ping (WithTimeout ctx pingTimeout) peer);
         if negb (is_nil (err : option error)) then mret (FailedInitialPing, None)
         else
           reason ← checkPiece ctx peer bagID;
           _ ← dcall (CloseRLDP peer);
           mret (reason, None)
     end).
Proof.
  intros (H1 & H2%Z.eqb_neq & H3). unfold Verify. by rewrite !bool_decide_eq_false_2, H2.
Qed.

(** C26. [Verify] always returns a reason, never an error, and answers
    [ValidStorageProof] only for a reachable endpoint whose node, dialled at
    the endpoint's address with its key, pinged, sent the header of that very
    bag and then a piece proof that checks against the header's root. *)
Theorem Verify_result ctx ep bagID :
  every_run (Verify ctx ep bagID) (λ tr out, ∃ reason,
    out = Returned (reason, None) ∧
    (¬ reachable ep → reason = IPNotFound ∧ tr = []) ∧
    (reason = ValidStorageProof → ∃ rl,
       dev (RegisterClient (storage_addr ep) (ep_PublicKey (pe_Storage ep))) (inl rl) ∈ tr ∧
       dev (Ping (WithTimeout ctx pingTimeout) rl) None ∈ tr ∧
       proven ctx rl bagID tr)).
Proof.
  assert (Decision (reachable ep)) as Hdec by (unfold reachable; apply _).
  destruct (decide (reachable ep)) as [Hr|Hno].
  2: { intros tr out Hrun. destruct (Verify_unreachable _ _ _ _ _ Hno Hrun) as [-> ->].
       exists IPNotFound. by split_and!. }
  apply every_run_wp. rewrite (Verify_reachable _ _ _ Hr). unfold dcall.
  apply wp_ext_bind. intros [rl|e] _; [|apply wp_ret; by exists CantCreatePeer].
  apply wp_ext_bind. intros [e|] _; [apply wp_ret; by exists FailedInitialPing|]. cbn [is_nil negb].
  apply wp_bind. eapply wp_mono'; [apply checkPiece_wp|]. intros tr [reason|s]; [|done].
  intros [[m ->] Hp]. unfold seq_post. apply wp_ext_bind. intros [] _. apply wp_ret.
  exists reason. split_and!; [done..|]. intros Hv. exists rl.
  split_and!; [rewrite !elem_of_app, !list_elem_of_singleton; tauto..|].
  destruct (Hp Hv) as (peer & bag & over & info & cl & torrent & i & piece & proof & Hp').
  exists peer, bag, over, info, cl, torrent, i, piece, proof.
  rewrite (elem_of_app (_ ++ m)), (elem_of_app (_ ++ m)), (elem_of_app (_ ++ m)). tauto.
Qed.

Definition no_piece tr : Prop := ∀ c p o id x, dev (QueryPiece c p o id) x ∉ tr.

(** A program that performs no operation keeps the trace. *)
Definition silent {R} (p : prog direct R) : Prop := match p with Do _ _ => False | _ => True end.
Lemma wp_frozen {R} (p : prog direct R) (P : trace direct → Prop) hist :
  silent p → P hist → wp p (λ tr _, P tr) hist.
Proof. by destruct p. Qed.

Lemma no_piece_snoc tr ev :
  no_piece tr → (∀ c p o id x, ev ≠ dev (QueryPiece c p o id) x) → no_piece (tr ++ [ev]).
Proof.
  intros Hn Hev c p o id x [Hin|Heq%list_elem_of_singleton]%elem_of_app; [by eapply Hn|].
  by eapply Hev.
Qed.

Lemma pick_piece_query torrent :
  wp (pick_piece torrent) (returns (λ i tr, no_piece tr ∧ piece_ok torrent i)) [].
Proof.
  unfold pick_piece, piece_ok. destruct (0 <? total_pieces torrent).
  - intros i Hi. split; [|done]. apply no_piece_snoc; [|done]. by intros ????? ?%not_elem_of_nil.
  - apply wp_ret. split; [|done]. by intros ????? ?%not_elem_of_nil.
Qed.

Lemma reinit_query peer est hist :
  no_piece hist → wp (reinit_if_slow peer est) (returns (λ _ tr, no_piece tr)) hist.
Proof.
  intros Hn. unfold reinit_if_slow, dcall. apply wp_go_bind. intros now _.
  destruct (5 * Second <? Sub now est).
  - apply wp_ext_bind. intros [] _. apply wp_ret.
    by apply no_piece_snoc; [apply no_piece_snoc|].
  - apply wp_ret. by apply no_piece_snoc.
Qed.

Lemma piece_ok_sizes torrent id :
  0 <= ti_FileSize torrent → 0 < ti_PieceSize torrent → piece_ok torrent id →
  (ti_PieceSize torrent <= ti_FileSize torrent → ti_FileSize torrent / ti_PieceSize torrent < two31 →
   0 <= id ∧ (id + 1) * ti_PieceSize torrent <= ti_FileSize torrent) ∧
  (ti_FileSize torrent < ti_PieceSize torrent → ti_FileSize torrent <= id * ti_PieceSize torrent).
Proof.
  unfold piece_ok, total_pieces. intros Hf Hp.
  set (n := ti_FileSize torrent / ti_PieceSize torrent).
  assert (n * ti_PieceSize torrent <= ti_FileSize torrent) by
    (subst n; rewrite Z.mul_comm; apply Z.mul_div_le; lia).
  replace (ti_PieceSize torrent =? 0) with false by (symmetry; apply Z.eqb_neq; lia).
  intros Hid. split.
  - intros Hle Hn. assert (1 <= n) by (subst n; apply Z.div_le_lower_bound; lia).
    rewrite wrap_i32_id in Hid by (unfold two31 in *; lia).
    replace (0 <? n) with true in Hid by (symmetry; apply Z.ltb_lt; lia). nia.
  - intros Hlt. assert (n = 0) as Hn0 by (subst n; apply Z.div_small; lia).
    rewrite Hn0 in Hid. change (wrap_i32 0) with 0 in Hid. simpl in Hid. subst id. lia.
Qed.

(** C36. Which pieces of a bag are sampled, by the header's sizes: only whole
    pieces inside the bag when it has at least one (and fewer than 2^31); but
    for a bag shorter than one piece, whose only piece is piece 0, the piece
    asked for begins at or past its end. *)
Theorem sampled_piece ctx peer over est torrent :
  0 <= ti_FileSize torrent → 0 < ti_PieceSize torrent →
  every_run (check_piece_of ctx peer over est torrent) (λ tr _,
    ∀ c p o id x, dev (QueryPiece c p o id) x ∈ tr →
      (ti_PieceSize torrent <= ti_FileSize torrent → ti_FileSize torrent / ti_PieceSize torrent < two31 →
       0 <= id ∧ (id + 1) * ti_PieceSize torrent <= ti_FileSize torrent) ∧
      (ti_FileSize torrent < ti_PieceSize torrent → ti_FileSize torrent <= id * ti_PieceSize torrent)).
Proof.
  intros Hf Hp.
  assert (∀ id, piece_ok torrent id →
      (ti_PieceSize torrent <= ti_FileSize torrent → ti_FileSize torrent / ti_PieceSize torrent < two31 →
       0 <= id ∧ (id + 1) * ti_PieceSize torrent <= ti_FileSize torrent) ∧
      (ti_FileSize torrent < ti_PieceSize torrent → ti_FileSize torrent <= id * ti_PieceSize torrent)) as Hok.
  { intros id. apply piece_ok_sizes; lia. }
  apply every_run_wp. unfold check_piece_of. apply wp_bind.
  eapply wp_mono'; [apply pick_piece_query|]. intros tr [i|s]; [|done]. intros [Hn Hi].
  unfold seq_post. apply wp_bind. eapply wp_mono'; [by apply reinit_query|].
  intros tr' [slow|s]; [|done]. intros Hn'. unfold seq_post, dcall.
  apply wp_ext_bind. intros a _. eapply wp_mono'.
  { apply (wp_frozen _ (λ tr, ∀ c p o id x, dev (QueryPiece c p o id) x ∈ tr → id = i)).
    - destruct a as [piece|e]; [|done]. destruct (FromBOC piece) as [pf|e]; [|done].
      by destruct (CheckProof pf _).
    - intros c p o id x [Hin|Heq%list_elem_of_singleton]%elem_of_app; [by destruct (Hn' _ _ _ _ _ Hin)|].
      by injection (f_equal ev_op Heq) as [= -> -> -> ->]. }
  intros tr'' out Hall c p o id x Hin. by rewrite (Hall _ _ _ _ _ Hin) in *; apply Hok.
Qed.
End properties.

(** ** A concrete library, for the witness *)
Definition demo_lib : ProviderLib := {|
  Peer := nat;
  BagCell := string;
  overlay_key := inl;
  FromBOC := inl;
  cell_Hash := λ c, c;
  LoadTorrentInfo := λ c, inl (mkTorrentInfo 1000 2500 c);
  CheckProof := λ p root, if bool_decide (p = root) then None else Some (ErrText "bad proof") |}.

Lemma sampled_piece_witness :
  every_run (@check_piece_of demo_lib (mkCtx [] None) 0%nat "ov" 0 (mkTorrentInfo 1000 2500 "r"))
    (λ tr _, ∀ c p o id x, @dev demo_lib (QueryPiece c p o id) x ∈ tr →
      (1000 <= 2500 → 2500 / 1000 < two31 → 0 <= id ∧ (id + 1) * 1000 <= 2500) ∧
      (2500 < 1000 → 2500 <= id * 1000)).
Proof.
  exact (@sampled_piece demo_lib (mkCtx [] None) 0%nat "ov" 0 (mkTorrentInfo 1000 2500 "r")
           ltac:(vm_compute; discriminate) ltac:(vm_compute; reflexivity)).
Defined.

(** A node that proves the bag it is asked for: [Verify] answers
    [ValidStorageProof]. *)
Definition honest (o : @dirop demo_lib) : @dirop_ans demo_lib o :=
  match o with
  | GetStorageRates _ _ _ => (None, None)
  | RegisterClient _ _ => inl 7%nat
  | Ping _ _ => None
  | GetADNL p => Some p
  | Reinit _ => tt
  | QueryTorrentInfo _ _ over => inl over
  | QueryPiece _ _ over _ => inl over
  | CloseRLDP _ => tt
  end.
Definition demo_endpoint : ProviderEndpoint :=
  mkProviderEndpoint "p" zeroEndpoint (mkEndpoint "key" "10.0.0.1" 443) 0.
Example Verify_honest :
  (exec (calm (I:=@direct demo_lib) honest) (@Verify demo_lib (mkCtx [] None) demo_endpoint "00ff") tt).2
  = Returned (ValidStorageProof, None).
Proof. reflexivity. Qed.
