(* ===== verification/Dht.v ===== *)
(** [adapters/outbound/dht]: the endpoints of a provider, over the DHT client
    and the storage transport. *)

From S2P Require Import Prelude GoStd Effects Rand Domain LiteClient.

Definition verifyStorageRetries : nat := 3.
Definition providerResponseTimeout : Duration := 14 * Second.
Definition dhtTimeout : Duration := 14 * Second.

(** ** The libraries *)
Class DhtLib := {
  NodeID : Type;                              (* overlay.Node.ID, an interface value *)
  ed25519 : NodeID → option string;           (* node.ID.(keys.PublicKeyED25519): its key *)
  key_hash : string → string + error;         (* tl.Hash(keys.PublicKeyED25519{Key}) *)
  parse_record : string → string + error }.   (* tl.Parse of ProviderDHTRecord: its ADNLAddr *)

Definition ErrDHTValueIsNotFound : error :=
  ErrSentinel "dht.ErrDHTValueIsNotFound" "value is not found".

Section dht.
Context `{TonUtils} `{DhtLib}.

Record address := mkAddress { ad_IP : string; ad_Port : Z }.   (* IP.String() *)

(** Pointers among the answers are options. *)
Inductive dhtop :=
| FindValue (ctx : Ctx) (id name : string) (index : Z)
| FindAddresses (ctx : Ctx) (key : string)
| FindOverlayNodes (ctx : Ctx) (bag : string)
| VerifyStorageADNLProof (ctx : Ctx) (pubkey : string) (contract : Address).
Definition dhtop_ans (o : dhtop) : Type :=
  match o with
  | FindValue _ _ _ _ => option string * option error             (* the value's Data *)
  | FindAddresses _ _ => option (list address) * string * option error
  | FindOverlayNodes _ _ => option (list NodeID) * option error
  | VerifyStorageADNLProof _ _ _ => string * option error
  end%type.
Definition dht : iface := Iface dhtop dhtop_ans.
Definition hcall (o : dhtop) : prog dht (dhtop_ans o) := ext (I:=dht) o.

(** [domain.Endpoint{PublicKey: pub, IP: a.IP.String(), Port: a.Port}] *)
Definition endpoint_at (pub : string) (a : address) : Endpoint := mkEndpoint pub (ad_IP a) (ad_Port a).

Definition errorf_nil (pre : string) : error := ErrText (pre +:+ ": %!w(<nil>)").

(** ** findProviderEndpoint *)
Definition findProviderEndpoint (ctx : Ctx) (pubkey : string) : prog dht (Endpoint * option error) :=
  match key_hash pubkey with
  | inr e => mret (zeroEndpoint, Some (ErrWrap "hash provider key: " e))
  | inl channelKeyId =>
      '(dhtVal, err) ← hcall (FindValue (WithTimeout ctx dhtTimeout) channelKeyId "storage-provider" 0);
      match err with
      | Some e => mret (zeroEndpoint, Some (ErrWrap "find value in dht: " e))
      | None =>
          match dhtVal with
          | None => Stop (Panic nil_dereference)
          | Some data =>
              match parse_record data with
              | inr e => mret (zeroEndpoint, Some (ErrWrap "parse dht record: " e))
              | inl adnl =>
                  '((l, pub), err) ← hcall (FindAddresses (WithTimeout ctx dhtTimeout) adnl);
                  match (err : option error), (l : option (list address)) with
                  | Some e, _ => mret (zeroEndpoint, Some (ErrWrap "find addresses: " e))
                  | None, None => Stop (Panic nil_dereference)
                  | None, Some [] => mret (zeroEndpoint, Some (errorf_nil "find addresses"))
                  | None, Some (a :: _) => mret (endpoint_at pub a, None)
                  end
              end
          end
      end
  end.

(** ** findStorageEndpoint *)

(** The closure given to [utils.TryNTimes]; it assigns [proof]. *)
Definition verify_proof (ctx : Ctx) (pubkey : string) (addr : Address) (_ : string)
    : prog dht (string * option error) :=
  hcall (VerifyStorageADNLProof (WithTimeout ctx providerResponseTimeout) pubkey addr).

Definition findStorageEndpoint (ctx : Ctx) (pubkey contractAddr : string)
    : prog dht (Endpoint * option error) :=
  match ParseAddr contractAddr with
  | inr e => mret (zeroEndpoint, Some (ErrWrap "parse contract address: " e))
  | inl addr =>
      '(proof, err) ← TryNTimes (verify_proof ctx pubkey addr) verifyStorageRetries "" None;
      match (err : option error) with
      | Some e => mret (zeroEndpoint, Some (ErrWrap "verify storage adnl proof: " e))
      | None =>
          '((l, pub), err) ← hcall (FindAddresses (WithTimeout ctx dhtTimeout) proof);
          match (err : option error) with
          | Some e => mret (zeroEndpoint, Some (ErrWrap "find storage addresses: " e))
          | None =>
              match (l : option (list address)) with
              | None | Some [] => mret (zeroEndpoint, Some (ErrText "no storage addresses found"))
              | Some (a :: _) => mret (endpoint_at pub a, None)
              end
          end
      end
  end.

(** ** Resolve *)
Definition Resolve (ctx : Ctx) (pubkey contractAddr : string)
    : prog dht (ProviderEndpoint * option error) :=
  let op := "adapters.dht.Resolve" in
  '(providerEP, err) ← findProviderEndpoint ctx pubkey;
  match (err : option error) with
  | Some e => mret (zeroProviderEndpoint, Some (wrap op e))
  | None =>
      '(storageEP, err) ← findStorageEndpoint ctx pubkey contractAddr;
      match (err : option error) with
      | Some _ => mret (mkProviderEndpoint "" providerEP zeroEndpoint zero_time, None)
      | None => mret (mkProviderEndpoint "" providerEP storageEP zero_time, None)
      end
  end.

(** ** ResolveStorageWithOverlay *)
Definition bags_to_check (n : Z) : Z :=
  if 100 <? n then Z.max 1 (n * 10 / 100)
  else if 5 <? n then Z.max 1 (n * 20 / 100)
  else n.

(** The addresses of one overlay node: the endpoint, when one is the
    provider's. *)
Definition try_node (ctx : Ctx) (providerIP : string) (node : NodeID) (_ : unit)
    : prog dht (flow unit (Endpoint * option error)) :=
  match ed25519 node with
  | None => mret (Next tt)
  | Some key =>
      match key_hash key with
      | inr _ => mret (Next tt)
      | inl adnlID =>
          '((addrList, pubKey), err) ← hcall (FindAddresses (WithTimeout ctx dhtTimeout) adnlID);
          if negb (is_nil (err : option error)) then mret (Next tt)
          else
            match find (λ a, bool_decide (ad_IP a = providerIP)) (default [] addrList) with
            | Some a => mret (Return (endpoint_at pubKey a, None))
            | None => mret (Next tt)
            end
      end
  end.

(** One bag of the sample. *)
Definition try_bag (ctx : Ctx) (providerIP : string) (bagID : string) (_ : unit)
    : prog dht (flow unit (Endpoint * option error)) :=
  let (bag, err) := DecodeString bagID in
  if negb (is_nil err) then mret (Next tt)
  else
    '(nodesList, err) ← hcall (FindOverlayNodes (WithTimeout ctx dhtTimeout) bag);
    if negb (is_nil (err : option error)) then mret (Next tt)
    else range (default [] nodesList) tt (try_node ctx providerIP).

Definition ResolveStorageWithOverlay (ctx : Ctx) (providerIP : string) (bags : list string)
    : prog dht (Endpoint * option error) :=
  match bags with
  | [] => mret (zeroEndpoint, Some (ErrText "no bags provided"))
  | _ =>
      let bagsToCheck := bags_to_check (Z.of_nat (length bags)) in
      shuffled ← Shuffle (length bags - 1) bags;
      f ← range (take (Z.to_nat bagsToCheck) shuffled) tt (try_bag ctx providerIP);
      after f (λ _, mret (zeroEndpoint, Some (ErrText
        ("storage not found via overlay after checking " +:+ FormatUint bagsToCheck +:+ " bags"))))
  end.
End dht.

(** ** Properties *)
#[local] Existing Instance any_env.
Section properties.
Context `{TonUtils} `{DhtLib}.
Implicit Types (tr hist : trace dht) (ctx : Ctx).

Definition hev (o : dhtop) (x : dhtop_ans o) : event dht := @Ev dht (@Ext dht o) x.

(** [e] is the first address the DHT gave for [key]. *)
Definition first_address ctx (key : string) (e : Endpoint) tr : Prop :=
  ∃ a more pub, e = endpoint_at pub a ∧
    hev (FindAddresses (WithTimeout ctx dhtTimeout) key) (Some (a :: more), pub, None) ∈ tr.

(** The endpoint the provider announced under its key. *)
Definition announced ctx (pubkey : string) (e : Endpoint) tr : Prop :=
  ∃ id data adnl, key_hash pubkey = inl id ∧
    hev (FindValue (WithTimeout ctx dhtTimeout) id "storage-provider" 0) (Some data, None) ∈ tr ∧
    parse_record data = inl adnl ∧ first_address ctx adnl e tr.

(** The DHT gave no address for [key]. *)
Definition no_address ctx (key : string) tr : Prop :=
  ∃ l pub err, hev (FindAddresses (WithTimeout ctx dhtTimeout) key) (l, pub, err) ∈ tr ∧
    (err ≠ None ∨ default [] l = []).

(** Why the provider was not found: its record, or the addresses under it. *)
Definition provider_failed ctx (pubkey : string) tr : Prop :=
  (∃ e, key_hash pubkey = inr e) ∨
  ∃ id v err, key_hash pubkey = inl id ∧
    hev (FindValue (WithTimeout ctx dhtTimeout) id "storage-provider" 0) (v, err) ∈ tr ∧
    (err ≠ None ∨ ∃ data, v = Some data ∧
       ((∃ e, parse_record data = inr e) ∨ ∃ adnl, parse_record data = inl adnl ∧ no_address ctx adnl tr)).

(** The answers of the tries to have the storage identity proved. *)
Definition proof_tries ctx (pubkey : string) (addr : Address) (rs : list (string * option error)) (r : string * option error) tr : Prop :=
  tried 3 rs r ∧
  (hev (VerifyStorageADNLProof (WithTimeout ctx providerResponseTimeout) pubkey addr) <$> rs) `sublist_of` tr.

(** Why the storage node was not found: the contract's address, three refused
    proofs, or no address of the identity that was proved. *)
Definition storage_failed ctx (pubkey contractAddr : string) tr : Prop :=
  (∃ e, ParseAddr contractAddr = inr e) ∨
  ∃ addr rs proof err, ParseAddr contractAddr = inl addr ∧ proof_tries ctx pubkey addr rs (proof, err) tr ∧
    (err ≠ None ∨ no_address ctx proof tr).

(** The storage endpoint whose ADNL identity the provider proved for the
    contract, in the last of its tries. *)
Definition proved_storage ctx (pubkey contractAddr : string) (e : Endpoint) tr : Prop :=
  ∃ addr rs proof, ParseAddr contractAddr = inl addr ∧ proof_tries ctx pubkey addr rs (proof, None) tr ∧
    first_address ctx proof e tr.

(** A library call broke its promise of a value with a nil error. *)
Definition missing_value tr : Prop :=
  (∃ c id n i, hev (FindValue c id n i) (None, None) ∈ tr) ∨
  ∃ c k pub, hev (FindAddresses c k) (None, pub, None) ∈ tr.

(** *** What was seen stays seen *)
Lemma first_address_more ctx key e tr more : first_address ctx key e tr → first_address ctx key e (tr ++ more).
Proof. intros (a & l & pub & -> & Ha). exists a, l, pub. split; [done|]. apply elem_of_app. by left. Qed.
Lemma no_address_more ctx key tr more : no_address ctx key tr → no_address ctx key (tr ++ more).
Proof. intros (l & pub & err & Hin & ?). exists l, pub, err. split; [|done]. apply elem_of_app. by left. Qed.
Lemma announced_more ctx pubkey e tr more :
  announced ctx pubkey e tr → announced ctx pubkey e (tr ++ more).
Proof.
  intros (id & data & adnl & Hk & Hv & Hp & Ha). exists id, data, adnl.
  split_and!; [done|apply elem_of_app; by left|done|by apply first_address_more].
Qed.
Lemma proof_tries_more ctx pubkey addr rs r tr more :
  proof_tries ctx pubkey addr rs r tr → proof_tries ctx pubkey addr rs r (tr ++ more).
Proof. intros [? ?]. split; [done|]. by apply sublist_inserts_r. Qed.
Lemma provider_failed_more ctx pubkey tr more :
  provider_failed ctx pubkey tr → provider_failed ctx pubkey (tr ++ more).
Proof.
  intros [?|(id & v & err & Hk & Hin & Hwhy)]; [by left|right]. exists id, v, err.
  split_and!; [done|apply elem_of_app; by left|].
  destruct Hwhy as [?|(data & -> & [?|(adnl & ? & ?)])]; [by left|right; eexists..]; (split; [done|]); [by left|].
  right. exists adnl. split; [done|by apply no_address_more].
Qed.
Lemma storage_failed_more ctx pubkey c tr more :
  storage_failed ctx pubkey c tr → storage_failed ctx pubkey c (tr ++ more).
Proof.
  intros [?|(addr & rs & proof & err & Hp & Ht & Hwhy)]; [by left|right]. exists addr, rs, proof, err.
  split_and!; [done|by apply proof_tries_more|]. destruct Hwhy; [by left|right; by apply no_address_more].
Qed.
Lemma proved_storage_more ctx pubkey c e tr more :
  proved_storage ctx pubkey c e tr → proved_storage ctx pubkey c e (tr ++ more).
Proof.
  intros (addr & rs & proof & Hp & Ht & Ha). exists addr, rs, proof.
  split_and!; [done|by apply proof_tries_more|by apply first_address_more].
Qed.

(** *** The two searches *)
Lemma find_provider_wp ctx pubkey hist :
  wp (findProviderEndpoint ctx pubkey)
    (λ tr out, hist `prefix_of` tr ∧ match out with
       | Returned (e, None) => announced ctx pubkey e tr
       | Returned (e, Some _) => e = zeroEndpoint ∧ provider_failed ctx pubkey tr
       | Stopped s => s = Panic nil_dereference ∧ missing_value tr
       end) hist.
Proof.
  unfold findProviderEndpoint, hcall. destruct (key_hash pubkey) as [id|e] eqn:Hk.
  2: { split; [done|]. split; [done|]. left. by eexists. }
  apply wp_ext_bind. intros [dhtVal err] _. set (tr1 := hist ++ _).
  assert (∃ ev, ev = hev (FindValue (WithTimeout ctx dhtTimeout) id "storage-provider" 0) (dhtVal, err) ∧ tr1 = hist ++ [ev])
    as (ev & Hev & Htr1) by by eexists. clearbody tr1. subst tr1.
  destruct err as [e|].
  { split; [grown|]. split; [done|]. right. exists id, dhtVal, (Some e). subst ev. split_and!; [done|in_trace|by left]. }
  destruct dhtVal as [data|].
  2: { split; [grown|]. split; [done|]. left. do 4 eexists. subst ev. in_trace. }
  assert (∀ more, (∃ e, parse_record data = inr e) ∨
            (∃ adnl, parse_record data = inl adnl ∧ no_address ctx adnl ((hist ++ [ev]) ++ more)) →
            provider_failed ctx pubkey ((hist ++ [ev]) ++ more)) as Hfail.
  { intros more Hwhy. right. exists id, (Some data), None. subst ev. split_and!; [done|in_trace|]. right. by exists data. }
  destruct (parse_record data) as [adnl|e] eqn:Hp.
  2: { split; [grown|]. split; [done|]. rewrite <- (app_nil_r (hist ++ [ev])). apply Hfail. left. by eexists. }
  apply wp_ext_bind. intros [[l pub] err] _.
  assert (err ≠ None ∨ default [] l = [] → provider_failed ctx pubkey ((hist ++ [ev]) ++
            [hev (FindAddresses (WithTimeout ctx dhtTimeout) adnl) (l, pub, err)])) as Hnone.
  { intros Hno. apply Hfail. right. exists adnl. split; [done|]. exists l, pub, err. split; [in_trace|done]. }
  destruct err as [e|]; [split; [grown|]; split; [done|]; apply Hnone; by left|].
  destruct l as [[|a l]|].
  - split; [grown|]. split; [done|]. apply Hnone. by right.
  - apply wp_ret. split; [grown|]. exists id, data, adnl. subst ev. split_and!; [done|in_trace|done|].
    exists a, l, pub. split; [done|in_trace].
  - split; [grown|]. split; [done|]. right. do 3 eexists. in_trace.
Qed.

Lemma find_storage_wp ctx pubkey contractAddr hist :
  wp (findStorageEndpoint ctx pubkey contractAddr)
    (returns (λ r tr, hist `prefix_of` tr ∧
       match r with
       | (e, None) => proved_storage ctx pubkey contractAddr e tr
       | (e, Some _) => e = zeroEndpoint ∧ storage_failed ctx pubkey contractAddr tr
       end)) hist.
Proof.
  unfold findStorageEndpoint, hcall. destruct (ParseAddr contractAddr) as [addr|e] eqn:Hp.
  2: { split; [done|]. split; [done|]. left. by eexists. }
  set (ev := hev (VerifyStorageADNLProof (WithTimeout ctx providerResponseTimeout) pubkey addr)).
  apply wp_bind. eapply wp_mono'.
  { apply rwp_wp, (TryNTimes_rwp _ ev 2). intros c h more r _. intros more'. eexists.
    split; [by rewrite <- !app_assoc|]. set_solver. }
  intros tr [[proof err]|s]; [|done]. intros (rs & more & -> & Ht & Hsub). unfold seq_post; cbv beta iota.
  assert (proof_tries ctx pubkey addr rs (proof, err) (hist ++ more)) as Htries
    by (split; [done|by apply sublist_inserts_l]).
  destruct err as [e|].
  { split; [grown|]. split; [done|]. right. exists addr, rs, proof, (Some e). split_and!; [done|done|by left]. }
  apply wp_ext_bind. intros [[l pub] err] _.
  assert (err ≠ None ∨ default [] l = [] → storage_failed ctx pubkey contractAddr ((hist ++ more) ++
            [hev (FindAddresses (WithTimeout ctx dhtTimeout) proof) (l, pub, err)])) as Hnone.
  { intros Hno. right. exists addr, rs, proof, None. split_and!; [done|by apply proof_tries_more|].
    right. exists l, pub, err. split; [in_trace|done]. }
  destruct err as [e|]; [split; [grown|]; split; [done|]; apply Hnone; by left|].
  destruct l as [[|a l]|]; [split; [grown|]; split; [done|]; apply Hnone; by right| |
    split; [grown|]; split; [done|]; apply Hnone; by right].
  apply wp_ret. split; [grown|]. exists addr, rs, proof. split_and!; [done|by apply proof_tries_more|].
  exists a, l, pub. split; [done|in_trace].
Qed.

Definition resolve_post ctx pubkey contractAddr tr (out : outcome (ProviderEndpoint * option error)) : Prop :=
  match out with
  | Returned (ep, Some _) => ep = zeroProviderEndpoint ∧ provider_failed ctx pubkey tr
  | Returned (ep, None) =>
      announced ctx pubkey (pe_Provider ep) tr ∧
      (proved_storage ctx pubkey contractAddr (pe_Storage ep) tr ∨
       pe_Storage ep = zeroEndpoint ∧ storage_failed ctx pubkey contractAddr tr) ∧
      pe_PublicKey ep = ""
  | Stopped s => s = Panic nil_dereference ∧ missing_value tr
  end.

Lemma resolve_post_more ctx pubkey contractAddr tr more x :
  resolve_post ctx pubkey contractAddr tr (Returned x) → resolve_post ctx pubkey contractAddr (tr ++ more) (Returned x).
Proof.
  destruct x as [ep [e|]]; simpl; [intros [? ?]; split; [done|by apply provider_failed_more]|].
  intros (Ha & Hs & Hk). split_and!; [by apply announced_more| |done].
  destruct Hs as [?|[? ?]]; [left; by apply proved_storage_more|right]. split; [done|by apply storage_failed_more].
Qed.

Lemma Resolve_wp ctx pubkey contractAddr hist :
  wp (Resolve ctx pubkey contractAddr) (λ tr out, hist `prefix_of` tr ∧ resolve_post ctx pubkey contractAddr tr out) hist.
Proof.
  unfold Resolve. apply wp_bind.
  eapply wp_mono'; [apply find_provider_wp|]. intros tr [[e [err|]]|s]; simpl; [by intros [? [-> ?]]| |done].
  intros [Hpre Hann]. apply wp_bind. eapply wp_mono'; [apply find_storage_wp|].
  intros tr' [[e' [err|]]|s]; [| |done]; simpl; intros [[more ->] Hst]; (split; [etrans; [exact Hpre|grown]|]);
    (split; [by apply announced_more|]); (split; [|done]); [right; split; [done|apply Hst]|by left].
Qed.

(** C31. Resolving a provider fails, with nothing, only when its record or the
    addresses under it could not be had; otherwise it gives the first address
    the DHT holds for the ADNL identity the provider announced under its key.
    The storage endpoint is the first address of the identity the provider
    proved for the contract, in the last of at most three tries; it is empty,
    which is no error, only when the contract's address is malformed, all three
    tries failed, or the DHT had no address for the identity.  It panics only
    when the DHT library returns neither a value nor an error. *)
Theorem Resolve_result ctx pubkey contractAddr :
  every_run (Resolve ctx pubkey contractAddr) (resolve_post ctx pubkey contractAddr).
Proof. apply every_run_wp. eapply wp_mono'; [apply Resolve_wp|]. by intros tr out [_ ?]. Qed.

(** *** The overlay search *)
Lemma bags_to_check_bounds n : 1 <= n → 1 <= bags_to_check n <= n.
Proof.
  intros Hn. unfold bags_to_check. destruct (Z.ltb_spec 100 n); [|destruct (Z.ltb_spec 5 n); [|lia]].
  - pose proof (Z.mul_div_le (n * 10) 100). lia.
  - pose proof (Z.mul_div_le (n * 20) 100). lia.
Qed.

(** The node was asked after and has no address of that IP. *)
Definition node_fruitless ctx (ip : string) tr (node : NodeID) : Prop :=
  ∀ key id, ed25519 node = Some key → key_hash key = inl id →
    ∃ l pub err, hev (FindAddresses (WithTimeout ctx dhtTimeout) id) (l, pub, err) ∈ tr ∧
      (err = None → ∀ a, a ∈ default [] l → ad_IP a ≠ ip).
Definition bag_fruitless ctx (ip : string) tr (bagID : string) : Prop :=
  ∀ bag, DecodeString bagID = (bag, None) →
    ∃ nodes err, hev (FindOverlayNodes (WithTimeout ctx dhtTimeout) bag) (nodes, err) ∈ tr ∧
      (err = None → Forall (node_fruitless ctx ip tr) (default [] nodes)).

(** The endpoint of a node of the bag's overlay, at the provider's IP. *)
Definition node_found ctx (ip : string) (node : NodeID) (e : Endpoint) tr : Prop :=
  ∃ key id l a pub, ed25519 node = Some key ∧ key_hash key = inl id ∧
    hev (FindAddresses (WithTimeout ctx dhtTimeout) id) (Some l, pub, None) ∈ tr ∧
    a ∈ l ∧ ad_IP a = ip ∧ e = endpoint_at pub a.
Definition bag_found ctx (ip bagID : string) (e : Endpoint) tr : Prop :=
  ∃ bag nodes node, DecodeString bagID = (bag, None) ∧
    hev (FindOverlayNodes (WithTimeout ctx dhtTimeout) bag) (Some nodes, None) ∈ tr ∧
    node ∈ nodes ∧ node_found ctx ip node e tr.

Lemma node_fruitless_more ctx ip tr node : ∀ tr', tr `prefix_of` tr' →
  node_fruitless ctx ip tr node → node_fruitless ctx ip tr' node.
Proof.
  intros ? [more ->] Hn key id Hk Hi. destruct (Hn _ _ Hk Hi) as (l & pub & err & Hin & Ha).
  exists l, pub, err. split; [apply elem_of_app; by left|done].
Qed.

Lemma bag_fruitless_more ctx ip tr tr' bagID : tr `prefix_of` tr' →
  bag_fruitless ctx ip tr bagID → bag_fruitless ctx ip tr' bagID.
Proof.
  intros Hpre Hb bag Hbag. destruct (Hb bag Hbag) as (nodes & err & Hin & Hn).
  exists nodes, err. split; [destruct Hpre as [more ->]; apply elem_of_app; by left|].
  intros He. eapply Forall_impl; [by apply Hn|]. intros node. by apply node_fruitless_more.
Qed.

Lemma bag_found_more ctx ip bagID e tr more : bag_found ctx ip bagID e tr → bag_found ctx ip bagID e (tr ++ more).
Proof.
  intros (bag & nodes & node & Hd & Hin & Hn & key & id & l & a & pub & Hk & Hi & Ha & Hal).
  exists bag, nodes, node. split_and!; [done|apply elem_of_app; by left|done|].
  exists key, id, l, a, pub. split_and!; [done|done|apply elem_of_app; by left|by apply Hal..].
Qed.

(** The outcome of one round of a search: go on, or return what was found. *)
Definition search_post (Fruitless : trace dht → Prop) (Found : Endpoint → trace dht → Prop) hist
    tr (out : outcome (flow unit (Endpoint * option error))) : Prop :=
  hist `prefix_of` tr ∧
  match out with
  | Returned (Next _) => Fruitless tr
  | Returned (Return (e, err)) => err = None ∧ Found e tr
  | _ => False
  end.

(** A search goes through its candidates until one is found. *)
Lemma search_wp {A} (xs : list A) body (Fruitless : A → trace dht → Prop)
    (Found : A → Endpoint → trace dht → Prop) hist :
  (∀ x tr tr', tr `prefix_of` tr' → Fruitless x tr → Fruitless x tr') →
  (∀ x tr, x ∈ xs → hist `prefix_of` tr → wp (body x tt) (search_post (Fruitless x) (Found x) tr) tr) →
  wp (range xs tt body)
    (search_post (λ tr, Forall (λ x, Fruitless x tr) xs) (λ e tr, ∃ x, x ∈ xs ∧ Found x e tr) hist) hist.
Proof.
  intros Hmore Hbody.
  apply (wp_range xs tt body (λ pre _ tr, hist `prefix_of` tr ∧ Forall (λ x, Fruitless x tr) pre)
           (λ _ _, False)).
  - by split.
  - intros pre x suf [] tr -> Hpre [_ Hall]. eapply wp_mono'; [apply Hbody; [|done]|].
    { rewrite elem_of_app, elem_of_cons. tauto. }
    intros tr' [[[]|?|[e err]]|s] [Hpre' Hp]; try done.
    + split; [by etrans|]. apply Forall_app. split; [|by constructor].
      eapply Forall_impl; [exact Hall|]. intros y. by apply Hmore.
    + split; [by etrans|]. destruct Hp as [-> Hf]. split; [done|]. exists x. split; [|done].
      rewrite elem_of_app, elem_of_cons. tauto.
  - intros [] tr Hpre [[_ Hall]|[]]. by split.
Qed.

Lemma try_node_wp ctx ip node tr :
  wp (try_node ctx ip node tt)
    (search_post (λ tr, node_fruitless ctx ip tr node) (λ e tr, node_found ctx ip node e tr) tr) tr.
Proof.
  unfold try_node, hcall. destruct (ed25519 node) as [key|] eqn:Hk.
  2: { apply wp_ret. split; [done|]. intros key id. by rewrite Hk. }
  destruct (key_hash key) as [id|e] eqn:Hi.
  2: { apply wp_ret. split; [done|]. intros key' id. by intros [= <-]%(eq_trans (eq_sym Hk)) ?%(eq_trans (eq_sym Hi)). }
  apply wp_ext_bind. intros [[l pub] err] _.
  assert (∀ l', l = l' → (err = None → ∀ a, a ∈ default [] l' → ad_IP a ≠ ip) →
    node_fruitless ctx ip (tr ++ [hev (FindAddresses (WithTimeout ctx dhtTimeout) id) (l, pub, err)]) node) as Hnone.
  { intros l' -> Ha key' id' Hk' Hi'. rewrite Hk in Hk'. injection Hk' as <-.
    rewrite Hi in Hi'. injection Hi' as <-. exists l', pub, err. split; [|done].
    apply elem_of_app. right. by apply list_elem_of_singleton. }
  destruct err as [e|]; cbn [is_nil negb]; [apply wp_ret; split; [grown|by apply (Hnone l)]|].
  destruct (find _ _) as [a|] eqn:Hf; apply wp_ret; (split; [grown|]).
  - apply find_some in Hf as [Ha%list_elem_of_In Hip%bool_decide_eq_true]. split; [done|].
    destruct l as [l|]; [|by apply elem_of_nil in Ha]. exists key, id, l, a, pub. split_and!; try done.
    apply elem_of_app. right. by apply list_elem_of_singleton.
  - apply (Hnone l eq_refl). intros _ a Ha Hip.
    apply list_elem_of_In, (find_none _ _ Hf), bool_decide_eq_false in Ha. done.
Qed.

Lemma try_bag_wp ctx ip bagID tr :
  wp (try_bag ctx ip bagID tt)
    (search_post (λ tr, bag_fruitless ctx ip tr bagID) (λ e tr, bag_found ctx ip bagID e tr) tr) tr.
Proof.
  unfold try_bag, hcall. destruct (DecodeString bagID) as [bag [e|]] eqn:Hd; cbn [is_nil negb].
  { apply wp_ret. split; [done|]. intros bag'. by rewrite Hd. }
  apply wp_ext_bind. intros [nodes err] _.
  set (ev := @Ev dht _ _). set (tr1 := tr ++ [ev]).
  assert (ev ∈ tr1) as Hev by (apply elem_of_app; right; by apply list_elem_of_singleton).
  destruct err as [e|]; cbn [is_nil negb].
  { apply wp_ret. split; [grown|]. intros bag'. rewrite Hd. intros [= <-]. exists nodes, (Some e). split; [exact Hev|intros [=]]. }
  eapply wp_mono'.
  { apply (search_wp _ _ (λ node tr, node_fruitless ctx ip tr node) (λ node e tr, node_found ctx ip node e tr)).
    - intros node t t' Hp. by apply node_fruitless_more.
    - intros node t _ _. apply try_node_wp. }
  intros tr' [[[]|?|[e err]]|s] [[more ->] Hp]; try done; (split; [unfold tr1; grown|]).
  - intros bag'. rewrite Hd. intros [= <-]. exists nodes, None. split; [apply elem_of_app; left; exact Hev|done].
  - destruct Hp as [-> (node & Hnode & Hf)]. split; [done|].
    destruct nodes as [nodes|]; [|by apply elem_of_nil in Hnode]. exists bag, nodes, node.
    split_and!; [done|apply elem_of_app; left; exact Hev|done|done].
Qed.

Definition overlay_post ctx providerIP (bags : list string) tr (out : outcome (Endpoint * option error)) : Prop :=
  ∃ e err, out = Returned (e, err) ∧
  match err with
  | None => ep_IP e = providerIP ∧ ∃ bagID, bagID ∈ bags ∧ bag_found ctx providerIP bagID e tr
  | Some _ => e = zeroEndpoint ∧ ∃ sample, sample ⊆+ bags ∧
      (bags ≠ [] → Z.of_nat (length sample) = bags_to_check (Z.of_nat (length bags)) ∧
                   1 <= Z.of_nat (length sample)) ∧
      Forall (bag_fruitless ctx providerIP tr) sample
  end.

Lemma ResolveStorageWithOverlay_wp ctx providerIP bags hist :
  wp (ResolveStorageWithOverlay ctx providerIP bags) (overlay_post ctx providerIP bags) hist.
Proof.
  unfold ResolveStorageWithOverlay. destruct bags as [|b0 bags'].
  { apply wp_ret. do 2 eexists. split; [done|]. split; [done|]. exists []. by split_and!. }
  set (bags := b0 :: bags'). cbv zeta.
  pose proof (bags_to_check_bounds (Z.of_nat (length bags)) ltac:(simpl; lia)) as Hn.
  set (n := bags_to_check _) in *. apply wp_bind.
  eapply wp_mono'; [apply rwp_wp, Shuffle_rwp|]. intros tr [shuffled|s]; [|done]. intros Hperm.
  apply wp_bind. eapply wp_mono'.
  { apply (search_wp _ _ (λ b tr, bag_fruitless ctx providerIP tr b) (λ b e tr, bag_found ctx providerIP b e tr)).
    - intros b t t' Hp. by apply bag_fruitless_more.
    - intros b t _ _. apply try_bag_wp. }
  intros tr' [[[]|?|[e err]]|s] [_ Hp]; try done; apply wp_ret.
  - do 2 eexists. split; [done|]. split; [done|]. exists (take (Z.to_nat n) shuffled). split_and!; [| |done].
    + trans shuffled; [apply take_submseteq|by apply Permutation_submseteq].
    + intros _. rewrite length_take, (Permutation_length Hperm). lia.
  - destruct Hp as [-> (b & Hb & Hf)]. exists e, None. split; [done|]. split.
    + by destruct Hf as (? & ? & ? & ? & ? & ? & ? & ? & ? & ? & ? & ? & ? & ? & ? & <- & ->).
    + exists b. split; [|done]. rewrite <- Hperm. eapply elem_of_subseteq; [|exact Hb]. apply subseteq_take.
Qed.

(** C32. The overlay search always returns.  What it finds is an address, at
    the provider's own IP, of a node that the DHT lists in the overlay of one
    of the bags; it gives up only when every bag of a sample of the right size
    was looked up and none of its nodes has such an address. *)
Theorem ResolveStorageWithOverlay_result ctx providerIP bags :
  every_run (ResolveStorageWithOverlay ctx providerIP bags) (overlay_post ctx providerIP bags).
Proof. apply every_run_wp, ResolveStorageWithOverlay_wp. Qed.
End properties.
