(* ===== verification/App.v ===== *)
(** [internal/app]: the wiring.  Stream names, the configuration each use case
    gets, the table of cycles, and the process [MustRun] starts: one consumer
    per enabled cycle, all running at once, until the shutdown signal. *)

From S2P Require Import Prelude GoStd Effects Domain Pool Ports Discovery Poll StorageProof Update.
From S2P Require Import Redis Consumer.

(** ** Configuration: what the wiring reads of [config.Config] *)
Record UsecaseCfg := mkUsecaseCfg {
  uc_Enabled : bool;
  uc_Pool : Z;
  uc_Timeout : Duration;
  uc_BlockMs : Z;
  uc_Concurrency : Z;
  uc_EndpointTTL : Duration }.
Record AppConfig := mkAppConfig {
  ac_AgentID : string;
  ac_MinJobIdle : Duration;
  ac_ReaperTimeout : Duration;
  ac_Group : string;
  ac_StreamPrefix : string;
  ac_MasterAddress : string;
  ac_Discovery : UsecaseCfg;
  ac_Poll : UsecaseCfg;
  ac_Proof : UsecaseCfg;
  ac_Update : UsecaseCfg }.

(** [fmt.Sprintf("%s:%s:%s", prefix, kind, cycleType)] *)
Definition streamKey (cfg : AppConfig) (kind cycleType : string) : string :=
  ac_StreamPrefix cfg +:+ ":" +:+ kind +:+ ":" +:+ cycleType.

(** ** New: the use cases *)
Definition discovery_config (cfg : AppConfig) : Discovery.Config :=
  Discovery.mkConfig (ac_MasterAddress cfg) (uc_EndpointTTL (ac_Discovery cfg))
    (streamKey cfg "result" CycleScanMaster) (streamKey cfg "result" CycleScanWallets)
    (streamKey cfg "result" CycleResolveEndpoints).
Definition poll_config (cfg : AppConfig) : Poll.Config :=
  Poll.New (Poll.mkConfig 0 (uc_Concurrency (ac_Poll cfg))
    (streamKey cfg "result" CycleProbeRates) (streamKey cfg "result" CycleInspectContracts)).
Definition proof_config (cfg : AppConfig) : StorageProof.Config :=
  StorageProof.New (StorageProof.mkConfig (uc_EndpointTTL (ac_Proof cfg)) (uc_Concurrency (ac_Proof cfg))
    0 0 0 (streamKey cfg "result" CycleCheckProofs)).
Definition update_config (cfg : AppConfig) : Update.Config :=
  Update.New (Update.mkConfig 0 0 (streamKey cfg "result" CycleLookupIPInfo)).

(** The agent's operations: Redis and the metrics, and the ports. *)
Abbreviation agent := (iplus redis ports).
#[export] Instance agent_env : Env agent := any_env agent.

Section app.
Context `{Unicode} `{Tlb} `{Json}.

Record binding := mkBinding {
  b_cycleType : string;
  b_usecase : UsecaseCfg;
  b_handler : Ctx → prog ports (option error) }.

Definition bindings (cfg : AppConfig) : list binding :=
  [mkBinding CycleScanMaster (ac_Discovery cfg) (CollectNewProviders (discovery_config cfg));
   mkBinding CycleScanWallets (ac_Discovery cfg) (CollectStorageContracts (discovery_config cfg));
   mkBinding CycleResolveEndpoints (ac_Discovery cfg) (ResolveEndpoints (discovery_config cfg));
   mkBinding CycleProbeRates (ac_Poll cfg) (UpdateProviderRates (poll_config cfg));
   mkBinding CycleInspectContracts (ac_Poll cfg) (UpdateRejectedContracts (poll_config cfg));
   mkBinding CycleCheckProofs (ac_Proof cfg) (CheckStorageProofs (proof_config cfg));
   mkBinding CycleLookupIPInfo (ac_Update cfg) (UpdateIPInfo (update_config cfg))].

(** ** MustRun *)
Definition consumer_of (cfg : AppConfig) (b : binding) : Consumer :=
  NewConsumer (mkConsumerConfig (streamKey cfg "cycle" (b_cycleType b)) (ac_Group cfg)
                 (ac_AgentID cfg) (b_cycleType b) (uc_Pool (b_usecase b)) (uc_Timeout (b_usecase b))
                 (uc_BlockMs (b_usecase b)) (ac_MinJobIdle cfg) (ac_ReaperTimeout cfg)) true.

(** One turn of the loop over the bindings. *)
Definition start_binding (cfg : AppConfig) (ctx : Ctx) (b : binding) : prog agent (verdict binding) :=
  if negb (uc_Enabled (b_usecase b)) then mret Skip
  else
    err ← interp (I:=redis) (λ o : rop, rcall o)
            (EnsureGroup ctx (streamKey cfg "cycle" (b_cycleType b)) (ac_Group cfg));
    match (err : option error) with
    | Some e => Stop (Panic (Error e))
    | None => mret (Launch b)
    end.

(** The consumers run at once; [fuel] bounds the rounds of each worker, [steps]
    the scheduling steps. *)
Definition run_binding (cfg : AppConfig) (fuel steps : nat) (ctx : Ctx) (b : binding) : prog agent unit :=
  Run (consumer_of cfg b) (b_handler b) fuel steps ctx.
(** The main goroutine starts a consumer for each binding, waits for the shutdown
    signal, here [None], and at last joins the consumers. *)
Definition main_item (cfg : AppConfig) (ctx : Ctx) (item : option binding) : prog agent (verdict binding) :=
  match item with
  | Some b => start_binding cfg ctx b
  | None => _ ← go (WaitDone ctx); mret Skip
  end.
Definition must_spec (cfg : AppConfig) (fuel steps : nat) (ctx : Ctx)
    : spec agent (option binding) binding unit unit :=
  {| sp_cap := length (bindings cfg);
     sp_main_acquires := false;
     sp_handle := main_item cfg ctx;
     sp_body := run_binding cfg fuel steps ctx;
     sp_commit := λ _ s, s |}.
Definition MustRun (cfg : AppConfig) (fuel steps : nat) (ctx : Ctx) : prog agent unit :=
  let sp := must_spec cfg fuel steps ctx in
  run sp steps (State (next_item sp ((Some <$> bindings cfg) ++ [None])) [] tt).
End app.

(** ** Streams *)
Definition cycles : list string :=
  [CycleScanMaster; CycleScanWallets; CycleResolveEndpoints; CycleProbeRates; CycleInspectContracts;
   CycleCheckProofs; CycleLookupIPInfo].
Definition streams (cfg : AppConfig) : list string :=
  (streamKey cfg "cycle" <$> cycles) ++ (streamKey cfg "result" <$> cycles).

#[export] Instance append_inj s : Inj (=) (=) (String.append s).
Proof. induction s as [|c s IH]; intros t t' Heq; [done|]. injection Heq as Heq. by apply IH. Qed.

(** Whatever the prefix, no two of the agent's fourteen streams coincide:
    a result is never read as a trigger, nor under another cycle. *)
Theorem streams_distinct cfg : NoDup (streams cfg).
Proof.
  assert (streams cfg = String.append (ac_StreamPrefix cfg) <$>
            (((λ t, ":cycle:" +:+ t) <$> cycles) ++ ((λ t, ":result:" +:+ t) <$> cycles))) as -> by done.
  apply NoDup_fmap_2; [apply _|]. apply (bool_decide_unpack _). by vm_compute.
Qed.

(** ** What the agent does to the outside *)

(** The cycle a payload belongs to. *)
Definition payload_cycle (p : payload) : string :=
  match p with
  | PScanMaster _ => CycleScanMaster
  | PScanWallets _ => CycleScanWallets
  | PResolveEndpoints _ => CycleResolveEndpoints
  | PProbeRates _ => CycleProbeRates
  | PInspectContracts _ => CycleInspectContracts
  | PCheckProofs _ => CycleCheckProofs
  | PLookupIPInfo _ => CycleLookupIPInfo
  end.

(** A call of a port of the cycle's package; a publication goes to [stream],
    for the job, with a result of the cycle; LTs are stored by the cycle they
    belong to. *)
Definition pub_op (stream job cycle : string) (o : fop ports) : Prop :=
  match o with
  | Ext (Ports.PublishResult _ s j t p) => s = stream ∧ j = job ∧ t = cycle ∧ payload_cycle p = cycle
  | Ext (Ports.SetMasterWalletLT _ _) => cycle = CycleScanMaster
  | Ext (Ports.UpdateLT _ _) => cycle = CycleScanWallets
  | Ext o => cycle_port cycle o = true
  | Go _ => True
  end.

Section publishing.
Context `{Unicode} `{Tlb} `{Json}.
Implicit Types (ctx : Ctx) (cfg : AppConfig) (b : binding).

Lemma CollectNewProviders_pub d ctx :
  only (pub_op (ScanMasterStream d) (JobIDFrom ctx) CycleScanMaster) (λ _, True) (CollectNewProviders d ctx).
Proof. unfold CollectNewProviders. by only_steps. Qed.

Lemma CollectStorageContracts_pub d ctx :
  only (pub_op (ScanWalletsStream d) (JobIDFrom ctx) CycleScanWallets) (λ _, True)
    (CollectStorageContracts d ctx).
Proof. unfold CollectStorageContracts, scan_wallet. by only_steps. Qed.

Lemma ResolveEndpoints_pub d ctx :
  only (pub_op (ResolveEndpointsStream d) (JobIDFrom ctx) CycleResolveEndpoints) (λ _, True)
    (ResolveEndpoints d ctx).
Proof. unfold ResolveEndpoints, resolve_one. by only_steps. Qed.

Lemma UpdateProviderRates_pub p ctx :
  only (pub_op (ProbeRatesStream p) (JobIDFrom ctx) CycleProbeRates) (λ _, True) (UpdateProviderRates p ctx).
Proof.
  unfold UpdateProviderRates. only_steps; try done.
  eapply only_weaken; [apply probe_pool_only|]. by intros [g|[]].
Qed.

Lemma UpdateRejectedContracts_pub p ctx :
  only (pub_op (InspectContractsStream p) (JobIDFrom ctx) CycleInspectContracts) (λ _, True)
    (UpdateRejectedContracts p ctx).
Proof.
  unfold UpdateRejectedContracts, inspect_state, inspect_provider, isRemovedByLowBalance. by only_steps.
Qed.

Lemma CheckStorageProofs_pub p ctx :
  only (pub_op (CheckProofsStream p) (JobIDFrom ctx) CycleCheckProofs) (λ _, True) (CheckStorageProofs p ctx).
Proof.
  unfold CheckStorageProofs. only_steps; try done.
  eapply only_weaken; [apply proof_pool_checks|]. by intros [g|[]].
Qed.

Lemma UpdateIPInfo_pub u ctx :
  only (pub_op (LookupIPInfoStream u) (JobIDFrom ctx) CycleLookupIPInfo) (λ _, True) (UpdateIPInfo u ctx).
Proof. unfold UpdateIPInfo, update_one, fetch_one. by only_steps. Qed.

Lemma binding_pub cfg b ctx :
  b ∈ bindings cfg →
  only (pub_op (streamKey cfg "result" (b_cycleType b)) (JobIDFrom ctx) (b_cycleType b)) (λ _, True)
    (b_handler b ctx).
Proof.
  unfold bindings. rewrite !elem_of_cons, elem_of_nil.
  intros [-> | [-> | [-> | [-> | [-> | [-> | [-> | []]]]]]]]; cbn [b_handler b_cycleType].
  - apply (CollectNewProviders_pub (discovery_config cfg)).
  - apply (CollectStorageContracts_pub (discovery_config cfg)).
  - apply (ResolveEndpoints_pub (discovery_config cfg)).
  - apply (UpdateProviderRates_pub (poll_config cfg)).
  - apply (UpdateRejectedContracts_pub (poll_config cfg)).
  - apply (CheckStorageProofs_pub (proof_config cfg)).
  - apply (UpdateIPInfo_pub (update_config cfg)).
Qed.

(** An operation of a consumer of [b] that handles [msg]: its Redis commands
    name its own trigger stream and its group, its handler calls only ports
    that its package declares, stores only the LTs of its own cycle, and
    publishes only results of the cycle for the job of the message. *)
Definition consumer_op cfg b (job : string → Prop) (o : fop agent) : Prop :=
  match o with
  | Ext (inl (XReadGroup _ g c s _ _)) =>
      s = streamKey cfg "cycle" (b_cycleType b) ∧ g = ac_Group cfg ∧ c = ac_AgentID cfg
  | Ext (inl (XAutoClaim _ s g _ _ _ c)) =>
      s = streamKey cfg "cycle" (b_cycleType b) ∧ g = ac_Group cfg ∧ c = ac_AgentID cfg
  | Ext (inl (XAck _ s g _)) | Ext (inl (XGroupCreateMkStream _ s g _)) =>
      s = streamKey cfg "cycle" (b_cycleType b) ∧ g = ac_Group cfg
  | Ext (inl (XAdd _ _ _ _ _)) => False
  | Ext (inr (Ports.PublishResult _ s j t p)) =>
      s = streamKey cfg "result" (b_cycleType b) ∧ job j ∧
      t = b_cycleType b ∧ payload_cycle p = b_cycleType b
  | Ext (inr (Ports.SetMasterWalletLT _ _)) => b_cycleType b = CycleScanMaster
  | Ext (inr (Ports.UpdateLT _ _)) => b_cycleType b = CycleScanWallets
  | Ext (inr o) => cycle_port (b_cycleType b) o = true
  | _ => True
  end.

Lemma handler_lifted cfg b (job : string → Prop) ctx :
  b ∈ bindings cfg → job (JobIDFrom ctx) →
  only (consumer_op cfg b job) (λ _, True) (runHandler (b_handler b) ctx).
Proof.
  intros Hb Hjob. unfold runHandler. only_steps.
  apply only_recover. eapply only_weaken; [by eapply inject_lifted, binding_pub|].
  intros [g|[o|[]]]; try done. simpl. by intros (-> & -> & -> & ->).
Qed.

Lemma process_ops cfg b (job : string → Prop) ctx msg :
  b ∈ bindings cfg → job (decodeJobID msg) →
  only (consumer_op cfg b job) (λ _, True) (process (consumer_of cfg b) (b_handler b) ctx msg).
Proof.
  intros Hb Hjob. unfold process, with_metrics, rcall. only_steps; try done.
  by apply handler_lifted.
Qed.

Abbreviation any_job := (λ _ : string, True).

Lemma process_all_ops cfg b ctx msgs :
  b ∈ bindings cfg →
  only (consumer_op cfg b any_job) (λ _, True) (process_all (consumer_of cfg b) (b_handler b) ctx msgs).
Proof. intros Hb. unfold process_all. only_steps. by apply process_ops. Qed.

Lemma worker_ops cfg b fuel ctx :
  b ∈ bindings cfg →
  only (consumer_op cfg b any_job) (λ _, True) (runWorker (consumer_of cfg b) (b_handler b) fuel ctx).
Proof.
  intros Hb. induction fuel as [|fuel IH]; [done|]. cbn [runWorker].
  unfold with_metrics, rcall. only_steps; try done. by apply process_all_ops.
Qed.

Lemma claim_ops cfg b fuel ctx cursor :
  b ∈ bindings cfg →
  only (consumer_op cfg b any_job) (λ _, True)
    (claimPending (consumer_of cfg b) (b_handler b) fuel ctx cursor).
Proof.
  intros Hb. revert cursor. induction fuel as [|fuel IH]; intros cursor; [done|]. cbn [claimPending].
  unfold must_metrics, rcall. only_steps; try done. by apply process_all_ops.
Qed.

Lemma reaper_ops cfg b fuel ctx :
  b ∈ bindings cfg →
  only (consumer_op cfg b any_job) (λ _, True) (runReaper (consumer_of cfg b) (b_handler b) fuel ctx).
Proof.
  intros Hb. unfold runReaper. case_match; [done|].
  induction fuel as [|fuel IH]; [done|]. cbn [reaper_loop]. only_steps; try done. by apply claim_ops.
Qed.

Lemma Run_ops cfg b fuel steps ctx :
  b ∈ bindings cfg →
  only (consumer_op cfg b any_job) (λ _, True) (run_binding cfg fuel steps ctx b).
Proof.
  intros Hb. apply (run_only _ _ (λ _, True) (λ _, True)).
  - done.
  - by intros x _.
  - intros [i|] _; [by apply worker_ops|by apply reaper_ops].
  - by apply Forall_true.
Qed.

(** Some enabled cycle's consumer may perform the operation. *)
Definition agent_op cfg (o : fop agent) : Prop :=
  match o with
  | Go _ => True
  | Ext _ => ∃ b, b ∈ bindings cfg ∧ uc_Enabled (b_usecase b) = true ∧ consumer_op cfg b any_job o
  end.

(** C12. In every run of the agent, whatever the interleaving of its workers,
    every operation is one an enabled cycle may perform: triggers are read,
    claimed and acknowledged only on the trigger stream of an enabled cycle,
    within the configured group, a cycle calls only the ports its package
    declares, only scan_master stores the LT of the master wallet and only
    scan_wallets those of the providers' wallets, and a result is published only
    to the result stream of the cycle it belongs to, under that cycle's name and
    with that cycle's payload. *)
Theorem MustRun_operations cfg fuel steps ctx :
  every_run (MustRun cfg fuel steps ctx) (λ tr _, Forall (λ ev, agent_op cfg (ev_op ev)) tr).
Proof.
  intros tr out Hrun. eapply runs_only; [|exact Hrun].
  apply (run_only _ _ (λ item, if item is Some b then b ∈ bindings cfg else True)
           (λ b, b ∈ bindings cfg ∧ uc_Enabled (b_usecase b) = true)).
  - done.
  - intros [b|] Hb; cbn [sp_handle must_spec main_item]; [|by only_steps]. unfold start_binding.
    destruct (uc_Enabled (b_usecase b)) eqn:Hen; cbn [negb]; [|done].
    eapply (only_bind _ (λ _, True)).
    + simpl. split; [by exists b|]. intros [e|]; [|done]. by destruct (Contains _ _).
    + intros [e|] _; [done|]. by split.
  - intros b [Hb Hen]. eapply only_weaken; [by apply Run_ops|]. intros [g|o] Ho; [done|]. by exists b.
  - apply Forall_forall. intros item [(b & -> & ?)%list_elem_of_fmap| ->%list_elem_of_singleton]%elem_of_app; done.
Qed.

(** Handling a trigger publishes nothing but results of the consumer's own
    cycle, to that cycle's result stream, and each carries the job id that was
    decoded from the trigger. *)
Theorem process_publishes cfg b ctx msg :
  b ∈ bindings cfg →
  every_run (process (consumer_of cfg b) (b_handler b) ctx msg) (λ tr _,
    ∀ c s j t p e, @Ev agent (@Ext agent (inr (Ports.PublishResult c s j t p))) e ∈ tr →
      s = streamKey cfg "result" (b_cycleType b) ∧ j = decodeJobID msg ∧
      t = b_cycleType b ∧ payload_cycle p = t).
Proof.
  intros Hb tr out Hrun c s j t p e Hin.
  pose proof (process_ops cfg b (λ j, j = decodeJobID msg) ctx msg Hb eq_refl) as Hops.
  pose proof (runs_only _ _ _ _ _ _ Hops Hrun) as Hall.
  rewrite Forall_forall in Hall. specialize (Hall _ Hin). simpl in Hall.
  destruct Hall as (? & ? & -> & ?). by split_and!.
Qed.
End publishing.

(** ** Example *)
Definition ex_json : Json := {|
  json_Marshal := λ e, inl (env_JobID e);
  json_Unmarshal := λ s, (mkTriggerEnvelope s "scan_master" None 0, None) |}.
Definition ex_usecase : UsecaseCfg := mkUsecaseCfg true 1 0 0 0 0.
Definition ex_app : AppConfig :=
  mkAppConfig "agent-1" 0 0 "mtpa" "mtpa" "EQ" ex_usecase ex_usecase ex_usecase ex_usecase.
Definition ex_binding : binding :=
  mkBinding CycleScanMaster ex_usecase (@CollectNewProviders AsciiUnicode (discovery_config ex_app)).
Definition ex_message : XMessage := mkXMessage "1-0" {[ "data" := XString "job-7" ]}.
