(* ===== verification/Typed.v ===== *)
(** Types that Go checks and the model does not: strings that are valid UTF-8,
    integers of 64 bits, slices no longer than an [int], instants RFC 3339 can
    hold.  If the ports' answers and the clock respect them, so does everything
    a cycle publishes, and its encoding cannot fail. *)

From S2P Require Import Prelude GoStd Json JsonTree Rfc3339 Effects Domain Pool Ports.
From S2P Require Import Discovery Poll StorageProof Update Redis Codec App.

(** ** Well-typed answers *)
Section typed.
Context `{Zone}.

(** The length of a slice is an [int]. *)
Definition sized {A} (l : list A) : Prop := Z.of_nat (length l) < two63.

Definition ok_answer (o : port) : port_ans o → Prop :=
  match o with
  | MasterScan _ _ _ => λ '(providers, lastLT, _), Forall ok_Provider providers ∧ sized providers ∧ int64 lastLT
  | WalletScan _ _ _ => λ '(contracts, lastLT, _), Forall ok_StorageContract contracts ∧ int64 lastLT
  | Ports.Resolve _ _ _ => λ '(ep, _), ok_Endpoint (pe_Provider ep) ∧ ok_Endpoint (pe_Storage ep)
  | ResolveStorageWithOverlay _ _ _ => λ '(ep, _), ok_Endpoint ep
  | GetAllPubkeys _ => λ '(pubkeys, _), Forall text pubkeys
  | GetAllWallets _ => λ '(wallets, _), Forall ok_Provider wallets
  | GetActiveRelations _ => λ '(relations, _), Forall ok_Relation relations ∧ sized relations
  | Probe _ _ => λ '(rates, _, _), ok_Rates rates
  | InspectProviders _ _ => λ '(states, _), Forall (λ s, text (os_Address s)) states
  | Verify _ _ _ => λ '(reason, _), int64 reason
  | GetIPInfo _ _ => λ '(info, _), ok_IpInfo info
  | GetProvidersIPs _ => λ '(endpoints, _),
      Forall (λ ep, text (pe_PublicKey ep) ∧ text (ep_IP (pe_Provider ep))) endpoints
  | _ => λ _, True
  end.

(** Every answer of a port and every reading of the clock. *)
Definition ok_event (ev : event ports) : Prop :=
  match ev with
  | Ev (Ext o) x => ok_answer o x
  | Ev (Go TimeNow) t => writable t
  | _ => True
  end.
Definition well_typed (tr : trace ports) : Prop := Forall ok_event tr.

Lemma typed_answer tr o x : well_typed tr → answered o x ∈ tr → ok_answer o x.
Proof. intros Hty Hin. exact (proj1 (Forall_forall _ _) Hty _ Hin). Qed.
Lemma typed_clock tr t : well_typed tr → read_clock tr t → writable t.
Proof. intros Hty Hin. exact (proj1 (Forall_forall _ _) Hty _ Hin). Qed.

(** Of a list, when of each element. *)
Lemma all_of {A} (P : A → Prop) l : (∀ x, x ∈ l → P x) → Forall P l.
Proof. apply Forall_forall. Qed.
Lemma one_of_all {A} (P : A → Prop) l x : Forall P l → x ∈ l → P x.
Proof. rewrite Forall_forall. auto. Qed.
Lemma all_filter {A} (P Q : A → Prop) `{∀ x, Decision (Q x)} l : Forall P l → Forall P (filter Q l).
Proof. intros Hl. apply all_of. intros x [_ Hx]%list_elem_of_filter. by eapply one_of_all. Qed.
Lemma sized_count {A} (l : list A) : sized l → int64 (Z.of_nat (length l)).
Proof. unfold sized, int64, two63, two64. lia. Qed.

Section cycles.
Context `{Unicode} `{Tlb}.
Implicit Types (ctx : Ctx) (tr : trace ports).
Context (tr : trace ports) (Htyped : well_typed tr).

(** The type of an answer in the trace. *)
Ltac typed Hin := pose proof (typed_answer _ _ _ Htyped Hin) as ?Hty; cbn [ok_answer] in Hty.

(** *** scan_master *)
Lemma scan_master_typed d ctx r :
  (∃ fromLT known scanned, answered (GetMasterWalletLT ctx) (fromLT, None) ∈ tr ∧
     answered (MasterScan ctx (MasterAddr d) fromLT) (scanned, sm_LastLT r, None) ∈ tr ∧
     sm_NewProviders r = new_providers known scanned ∧ sm_ScannedCount r = Z.of_nat (length scanned)) →
  ok_payload (PScanMaster r).
Proof.
  intros (fromLT & known & scanned & _ & Hscan & Hnew & Hcount). typed Hscan.
  destruct Hty as (Hps & Hlen & Hlt). cbn [ok_payload]. rewrite Hnew, Hcount. split_and!; [|done|by apply sized_count].
  apply all_of. intros p Hp. eapply one_of_all; [done|].
  eapply elem_of_submseteq; [exact Hp|apply sublist_submseteq, new_providers_sublist].
Qed.

(** *** scan_wallets *)
Lemma max_int64 l z : int64 z → Forall int64 l → int64 (foldl Z.max z l).
Proof.
  intros Hz Hl. revert z Hz. induction Hl as [|x l Hx _ IH]; intros z Hz; simpl; [done|].
  apply IH. unfold int64 in *. lia.
Qed.

Lemma merged_typed a cs c :
  Forall ok_StorageContract cs → merged_ref a cs = Some c → ok_StorageContract c.
Proof.
  intros Hcs. unfold merged_ref.
  assert (Forall ok_StorageContract (filter (λ c, sc_Address c = a) cs)) as Hf by by apply all_filter.
  destruct (filter _ cs) as [|c0 cs']; [done|]. intros [= <-].
  apply Forall_cons in Hf as [(? & ? & ? & ? & ? & ? & ?) Hcs']. unfold ok_StorageContract.
  cbn [sc_Address sc_BagID sc_OwnerAddr sc_Size sc_ChunkSize sc_LastLT sc_Providers]. split_and!; try done.
  - apply max_int64; [done|]. apply Forall_fmap. eapply Forall_impl; [done|]. intros x Hx. apply Hx.
  - apply Forall_app. split; [done|]. apply Forall_join, Forall_fmap. eapply Forall_impl; [done|]. intros x Hx. apply Hx.
Qed.

(** What a scan found or advanced to was answered. *)
Lemma wallet_scan_typed addr from cs last :
  (addr, from, (cs, last)) ∈ wallet_scans tr → Forall ok_StorageContract cs ∧ int64 last.
Proof.
  intros ([o x] & Hin & Hev)%list_elem_of_omap. destruct o as [g|o]; [done|]. destruct o; try done.
  destruct x as [[cs' last'] [e|]]; [done|]. injection Hev as <- <- <- <-. typed Hin. done.
Qed.

Lemma found_typed : Forall ok_StorageContract (found_contracts tr).
Proof.
  apply all_of. intros c ([[addr from] [cs last]] & Hc & Hin)%list_elem_of_bind.
  apply wallet_scan_typed in Hin as [Hcs _]. by eapply one_of_all.
Qed.

Lemma advanced_typed addr last : (addr, last) ∈ advanced_wallets tr → int64 last.
Proof.
  intros ([[a from] [cs l]] & Hin & Hl)%list_elem_of_omap. destruct (from <? l); [|done].
  injection Hl as <- <-. by apply wallet_scan_typed in Hin as [_ ?].
Qed.

Lemma addr_to_pubkey_typed wallets addr pk :
  Forall ok_Provider wallets → addr_to_pubkey wallets !! addr = Some pk → text pk.
Proof.
  unfold addr_to_pubkey. revert addr pk. induction wallets as [|w ws IH] using rev_ind; intros addr pk; [done|].
  rewrite Forall_app, foldl_snoc. intros [Hws [Hw _]%Forall_cons].
  rewrite lookup_insert_Some. intros [[_ <-]|[_ Hl]]; [apply Hw|by eapply IH].
Qed.

Lemma wallets_typed ctx wallets r :
  answered (GetAllWallets ctx) (wallets, None) ∈ tr → wallets_result_ok wallets tr r →
  ok_payload (PScanWallets r).
Proof.
  intros Hans [_ _ Hcs Hrels Hupd Hfrom]. typed Hans.
  assert (Forall ok_StorageContract (sw_Contracts r)) as Hall.
  { apply all_of. intros c Hc. eapply merged_typed; [apply found_typed|]. by apply Hcs. }
  split_and!; [done| |].
  - apply all_of. intros rel (c & addr & pk & Hc & Haddr & Hpk & ->)%Hrels.
    destruct (one_of_all _ _ _ Hall Hc) as (? & ? & ? & ? & ? & ? & Hp).
    split_and!; simpl; [done|by eapply addr_to_pubkey_typed|by eapply one_of_all|done|done].
  - apply all_of. intros u Hu. destruct (Hfrom u Hu) as (w & Hw & Hk & Ha & Ht & _).
    destruct (one_of_all _ _ _ Hty Hw) as (? & ? & ? & ?).
    split_and!; [by rewrite Hk|by rewrite Ha| |by rewrite Ht].
    apply (advanced_typed (pr_Address u)). rewrite <- Hupd. apply list_elem_of_fmap. by exists u.
Qed.

(** *** resolve_endpoints *)
Lemma resolve_typed d ctx r : resolve_result_ok d ctx tr r → ok_payload (PResolveEndpoints r).
Proof.
  intros (rels & ex & now & keys & Hrels & Hnow & Hnd & Hkeys & Hcount & Hskip & Hsub & _ & Hok). typed Hrels.
  destruct Hty as [Htys Hlen].
  assert (length keys <= length rels)%nat as Hk.
  { rewrite <- (length_fmap cr_ProviderPubkey). apply submseteq_length, NoDup_submseteq; [done|].
    intros pk (rel & Hrel & <-)%Hkeys. apply list_elem_of_fmap. by exists rel. }
  pose proof (sublist_length _ _ Hsub) as He. rewrite length_fmap in He.
  pose proof (sublist_length _ _ (sublist_filter (λ pk, young (EndpointTTL d) now (ex !! pk)) keys)) as Hs.
  unfold sized in Hlen. split_and!; [|unfold int64, two63, two64 in *; lia..].
  apply all_of. intros ep Hep. destruct (Hok ep Hep) as [_ Htime _ (pk & ep0 & _ & _ & Hans & Hprov & Hst)].
  assert (pe_PublicKey ep ∈ keys) as (rel & Hrel & Hkey)%Hkeys.
  { eapply elem_of_submseteq; [|by apply sublist_submseteq]. apply list_elem_of_fmap. by exists ep. }
  assert (writable now) as Hw.
  { apply (typed_clock tr), Hnow; [done|]. intros Hnil. rewrite Hnil in Hrel. by apply elem_of_nil in Hrel. }
  typed Hans. destruct Hty as [Hp0 Hs0]. split_and!; [|by rewrite Hprov| |by rewrite Htime].
  - rewrite <- Hkey. apply (one_of_all _ _ _ Htys Hrel).
  - destruct Hst as [-> |[_ Hover]]; [done|]. by typed Hover.
Qed.

(** *** probe_rates *)
Lemma probe_typed p ctx pubkeys r :
  answered (GetAllPubkeys ctx) (pubkeys, None) ∈ tr → probe_result_ok p ctx tr pubkeys r →
  ok_payload (PProbeRates r).
Proof.
  intros Hans (obs & Hkeys & Hobs & Hst & Hrates). typed Hans.
  assert (Forall (λ a, text (pd_key a) ∧ ok_Rates (pd_rates a) ∧ writable (pd_now a)) obs) as Hall.
  { apply all_of. intros a Ha.
    destruct (one_of_all _ _ _ Hobs Ha) as (raw & rates & online & pErr & _ & _ & Hprobe & _ & -> & Hnow).
    typed Hprobe. split_and!; [|done|by apply (typed_clock tr)].
    assert (pd_key a ∈ filter (λ k, valid_key k = true) pubkeys) as [_ Hk]%list_elem_of_filter
      by (rewrite <- Hkeys; apply list_elem_of_fmap; by exists a).
    by eapply one_of_all. }
  cbn [ok_payload]. rewrite Hst, Hrates. split.
  - apply Forall_fmap. eapply Forall_impl; [done|]. by intros a (? & _ & ?).
  - apply all_of. intros u (a & Ha & Hu)%list_elem_of_omap. destruct (pd_online a); [|done].
    injection Hu as <-. by destruct (one_of_all _ _ _ Hall Ha) as (? & ? & _).
Qed.

(** *** inspect_contracts *)
Lemma inspect_typed ctx relations r :
  answered (GetActiveRelations ctx) (relations, None) ∈ tr → inspect_result_ok ctx tr relations r →
  ok_payload (PInspectContracts r).
Proof.
  intros Hans (addrs & states & kept & _ & _ & Hst & _ & Hsk & Hrej). typed Hans. typed Hst.
  cbn [ok_payload]. rewrite Hsk, Hrej. split; [by apply all_filter, Hty|].
  apply Forall_fmap. by apply all_filter.
Qed.

(** *** check_proofs *)
Lemma same_contract_typed l rs :
  Forall ok_Relation l → Forall2 same_contract l rs →
  Forall (λ r, text (pf_ContractAddr r) ∧ text (pf_ProviderAddr r)) rs.
Proof.
  intros Hl. induction 1 as [|c r l rs [Hc Hp] _ IH]; [constructor|].
  apply Forall_cons in Hl as [(? & ? & ? & _) Hl]. constructor; [|by apply IH].
  by rewrite Hc, Hp.
Qed.

Lemma checked_typed ctx ep thr l rs answers :
  Forall ok_Relation l → checked_ok ctx ep thr l rs answers tr → Forall ok_ProofResult rs.
Proof.
  intros Hl [Hc Hr Ha _ _ Hts].
  assert (Forall int64 answers) as Hans.
  { eapply Forall2_Forall_r; [exact Ha|]. apply Forall_true. intros c r [e Hin]. by typed Hin. }
  assert (Forall int64 (pf_Reason <$> rs)) as Hreasons.
  { rewrite Hr. apply Forall_app. split; [done|]. by apply Forall_replicate. }
  apply all_of. intros r Hin.
  destruct (one_of_all _ _ _ (same_contract_typed _ _ Hl Hc) Hin) as [? ?].
  split_and!; [done|done| |by apply (typed_clock tr), (one_of_all _ _ _ Hts)].
  eapply one_of_all; [exact Hreasons|]. apply list_elem_of_fmap. by exists r.
Qed.

Lemma provider_typed p ctx job rs :
  Forall ok_Relation job.2 → provider_complete p ctx tr job rs → Forall ok_ProofResult rs.
Proof.
  intros Hjob (ep & ok & err & _ & [(_ & now & Hnow & ->)|(_ & sample & answers & Hsub & _ & Hc)]).
  - apply Forall_fmap. eapply Forall_impl; [done|]. intros c (? & ? & ? & _).
    split_and!; [done|done|done|by apply (typed_clock tr)].
  - eapply checked_typed; [|exact Hc]. apply all_of. intros c Hin.
    eapply one_of_all; [exact Hjob|]. by eapply elem_of_submseteq.
Qed.

Lemma proofs_typed p ctx relations results :
  answered (GetActiveRelations ctx) (relations, None) ∈ tr → proof_result_ok p ctx tr relations results →
  Forall ok_ProofResult results.
Proof.
  intros Hans (checks & _ & Hjobs & Hall & ->). typed Hans. destruct Hty as [Hty _].
  apply Forall_join, Forall_fmap, all_of. intros [[pk cs] rs] Hin. cbn [snd].
  eapply (provider_typed p ctx (pk, cs)); [|by apply (one_of_all _ _ _ Hall Hin)].
  assert ((pk, cs) ∈ checks.*1) as [-> _]%Hjobs by (apply (list_elem_of_fmap_2 fst _ _ Hin)).
  by apply all_filter.
Qed.

(** *** lookup_ipinfo *)
Lemma ipinfo_typed ctx endpoints items :
  answered (GetProvidersIPs ctx) (endpoints, None) ∈ tr → ipinfo_result_ok endpoints items tr →
  Forall ok_IPInfoUpdate items.
Proof.
  intros Hans [Hips ->]. typed Hans. apply all_of. intros u (o & Ho & Hu)%list_elem_of_omap.
  simpl in Hu. subst o. apply elem_of_zip_with in Ho as (ep & [ip [info e]] & Hu & Hep & Hl).
  destruct e; [done|]. injection Hu as ->. apply list_elem_of_filter in Hep as [_ Hep].
  assert (ok_IpInfo info) as Hinfo.
  { apply list_elem_of_omap in Hl as ([o x] & Hin & Hev). destruct o as [g|o]; [done|]. destruct o; try done.
    destruct x as [info' e']. simpl in Hev. simplify_eq. by typed Hin. }
  assert (ip ∈ (λ ep, ep_IP (pe_Provider ep)) <$> with_ip endpoints) as Hip
    by (rewrite <- Hips; apply (list_elem_of_fmap_2 fst _ _ Hl)).
  apply list_elem_of_fmap in Hip as (ep' & -> & [_ Hep']%list_elem_of_filter).
  split_and!; [apply (one_of_all _ _ _ Hty Hep)|apply (one_of_all _ _ _ Hty Hep')|done].
Qed.
End cycles.

(** ** The seven cycles *)
Section results.
Context `{Unicode} `{Tlb}.
Implicit Types (ctx : Ctx) (cfg : AppConfig) (b : binding).

Lemma published_written tr c s job cycle p e :
  answered (Ports.PublishResult c s job cycle p) e ∈ tr → WPublished p e ∈ writes tr.
Proof. intros Hin. apply list_elem_of_omap. by eexists. Qed.

(** A cycle whose only write is a publication. *)
Lemma one_write {tr p e p' e'} :
  writes tr = [WPublished p' e'] → WPublished p e ∈ writes tr → p = p'.
Proof. intros ->. by intros [= -> _]%list_elem_of_singleton. Qed.
Lemma no_writes {tr w} {P : Prop} : writes tr = [] → w ∈ writes tr → P.
Proof. intros ->. by intros ?%elem_of_nil. Qed.

Lemma scan_wallets_typed d ctx :
  every_run (CollectStorageContracts d ctx) (λ tr _,
    well_typed tr → ∀ p e, WPublished p e ∈ writes tr → ok_payload p).
Proof.
  intros tr out [[Hw _]|(ws & r & err & Hans & Hok & _ & Hw)]%scan_wallets_runs Hty p e Hin.
  { by apply (no_writes Hw Hin). }
  rewrite Hw in Hin. apply elem_of_cons in Hin as [[= -> _]|Hin]; [by eapply wallets_typed|].
  case_bool_decide; [by apply list_elem_of_singleton in Hin|by apply elem_of_nil in Hin].
Qed.

Lemma handler_typed cfg b ctx :
  b ∈ bindings cfg →
  every_run (b_handler b ctx) (λ tr _,
    well_typed tr → ∀ p e, WPublished p e ∈ writes tr → payload_cycle p = b_cycleType b → ok_payload p).
Proof.
  unfold bindings. rewrite !elem_of_cons, elem_of_nil.
  intros [-> | [-> | [-> | [-> | [-> | [-> | [-> | []]]]]]]]; cbn [b_handler b_cycleType];
    intros tr out Hrun Hty p e Hin Hp.
  - destruct (proj1 (wp_runs _ _ _) (scan_master_wp _ _) _ _ Hrun) as [Hpub _].
    destruct p as [r|r|r|r|r|r|r]; try done.
    destruct (Hpub _ _ Hin) as (? & ? & ? & Hs). eapply scan_master_typed; [done|]. by do 3 eexists.
  - by eapply scan_wallets_typed.
  - apply resolve_endpoints_runs in Hrun as [[Hw _]|(r & err & Hok & _ & Hw)];
      [by apply (no_writes Hw Hin)|]. rewrite (one_write Hw Hin). by eapply resolve_typed.
  - apply (proj1 (wp_runs _ _ _) (probe_rates_wp _ _)) in Hrun
      as [[Hw _]|(ks & r & err & Hans & Hok & Hw & _)];
      [by apply (no_writes Hw Hin)|]. rewrite (one_write Hw Hin). by eapply probe_typed.
  - apply (proj1 (wp_runs _ _ _) (inspect_contracts_wp _ _)) in Hrun
      as [[Hw _]|(rels & r & err & Hans & Hok & Hw & _)];
      [by apply (no_writes Hw Hin)|]. rewrite (one_write Hw Hin).
    case_decide; [subst; by split|]. by eapply inspect_typed.
  - apply (proj1 (wp_runs _ _ _) (check_proofs_wp _ _ (New_concurrency _))) in Hrun
      as [[Hw _]|(rels & rs & err & Hans & Hok & Hw & _)];
      [by apply (no_writes Hw Hin)|]. rewrite (one_write Hw Hin).
    pose proof (proofs_typed _ Hty _ _ _ _ Hans Hok) as Hrs. destruct rels; [constructor|done].
  - apply (proj1 (wp_runs _ _ _) (update_ipinfo_wp _ _)) in Hrun
      as [[Hw _]|(eps & items & err & Hans & Hok & Hw & _)];
      [by apply (no_writes Hw Hin)|]. rewrite (one_write Hw Hin).
    pose proof (ipinfo_typed _ Hty _ _ _ Hans Hok) as Hit. destruct eps; [constructor|done].
Qed.

Lemma cycle_text cfg b : b ∈ bindings cfg → text (b_cycleType b).
Proof.
  unfold bindings. rewrite !elem_of_cons, elem_of_nil.
  intros [-> | [-> | [-> | [-> | [-> | [-> | [-> | []]]]]]]]; by repeat constructor.
Qed.

(** C19. Every cycle preserves types: in a run whose ports answer with valid
    UTF-8, 64-bit integers and slices of an [int]'s length, and whose clock
    stays within the years RFC 3339 can hold, each payload published is of the
    type of its cycle and itself well-typed.  So the publisher's [json.Marshal]
    of it succeeds and no result is lost to its encoding. *)
Theorem results_well_typed cfg b ctx :
  b ∈ bindings cfg →
  every_run (b_handler b ctx) (λ tr _,
    well_typed tr →
    ∀ c s job cycle p e, answered (Ports.PublishResult c s job cycle p) e ∈ tr →
      cycle = b_cycleType b ∧ payload_cycle p = cycle ∧ ok_payload p ∧
      ∀ agentID now, text job → text agentID → writable now →
        ∃ data, json_Marshal (mkResultEnvelope job cycle StatusOK "" (Some p) now agentID) = inl data).
Proof.
  intros Hb tr out Hrun Hty c s job cycle p e Hin.
  pose proof (runs_only _ _ _ _ _ _ (binding_pub cfg b ctx Hb) Hrun) as Hops.
  rewrite Forall_forall in Hops. destruct (Hops _ Hin) as (_ & _ & -> & Hp). cbn in Hp.
  assert (ok_payload p) as Hok by (eapply handler_typed; [done..|by eapply published_written|done]).
  split_and!; [done|done|done|]. intros agentID now Hjob Hagent Hnow.
  destruct (envelope_read (mkResultEnvelope job (b_cycleType b) StatusOK "" (Some p) now agentID))
    as (data & Hdata & _); [|by exists data].
  split_and!; [done|by eapply cycle_text|by repeat constructor|by repeat constructor|done|done|done].
Qed.
End results.
End typed.

(** A cycle that finds one new provider, with its answers. *)
Definition ex_found : Provider := mkProvider "ab" "EQ" 6 (1777203300 * Second).
Definition ex_payload : payload := PScanMaster (mkScanMasterResult [ex_found] 7 1).
Definition ex_typed_run : trace ports :=
  [ answered (GetMasterWalletLT Background) (5, None);
    answered (GetAllPubkeys Background) (["cd"], None);
    answered (MasterScan Background "EQ" 5) ([ex_found], 7, None);
    answered (Ports.PublishResult Background "mtpa:result:scan_master" "" CycleScanMaster ex_payload) None;
    answered (SetMasterWalletLT Background 7) None ].

Lemma ex_run_runs : runs [] (@CollectNewProviders AsciiUnicode (discovery_config ex_app) Background) ex_typed_run (Returned None).
Proof.
  repeat (eexists _, _; split; [exact I|]; split; [reflexivity|]; cbn beta iota). split; reflexivity.
Qed.

Lemma ex_run_typed : well_typed (H:=UTC) ex_typed_run.
Proof.
  unfold well_typed, ex_typed_run.
  repeat match goal with |- Forall ok_event (_ :: _) => apply Forall_cons; split; [cbn [ok_event ok_answer]|] end;
    [done| | |done|done|constructor].
  - by repeat constructor.
  - split_and!; [ok_by_computing|done|ok_by_computing].
Qed.

Lemma results_well_typed_witness :
  ex_binding ∈ @bindings AsciiUnicode ex_TON ex_app ∧ well_typed (H:=UTC) ex_typed_run ∧
  payload_cycle ex_payload = CycleScanMaster ∧
  ∃ data, json_Marshal (Json:=@GoJson UTC)
            (mkResultEnvelope "" CycleScanMaster StatusOK "" (Some ex_payload) 0 "agent") = inl data.
Proof.
  split; [apply list_elem_of_here|]. split; [exact ex_run_typed|].
  destruct (@results_well_typed UTC AsciiUnicode ex_TON ex_app ex_binding Background (list_elem_of_here _ _)
              ex_typed_run _ ex_run_runs ex_run_typed Background "mtpa:result:scan_master" ""
              CycleScanMaster ex_payload None) as (_ & Hp & _ & He).
  { do 3 apply list_elem_of_further. apply list_elem_of_here. }
  split; [exact Hp|]. apply He; ok_by_computing.
Defined.
