(* ===== verification/Agent.v ===== *)
(** The agent's workers with the cycles they run: every cycle's handler ends,
    so every trigger that was read is acknowledged. *)

From S2P Require Import Prelude GoStd Effects Domain Pool Ports Discovery Poll StorageProof Update.
From S2P Require Import Redis Consumer App.

(** ** A handler inside the consumer

    Its run within a longer history is a run of its own: what it may be
    answered about its contexts only gets narrower. *)
Section inject_runs.
Context {I J : iface}.
#[local] Existing Instance any_env.

Lemma inject_runs {R} (p : prog J R) h h' tr out :
  less_done h h' → runs h' (inject (I:=I) p) tr out → ∃ tr', runs h p tr' out.
Proof.
  revert h h' tr. induction p as [r|s|[g|o] k IH]; intros h h' tr Hl; simpl.
  - intros [_ ->]. by exists [].
  - intros [_ ->]. by exists [].
  - intros (x & tr' & Hx & -> & Hr).
    edestruct (IH x (h ++ [@Ev J (@Go J g) x])) as [tr2 H2]; [|exact Hr|].
    + apply less_done_snoc; [done|]. intros c. by destruct g.
    + exists (@Ev J (@Go J g) x :: tr2), x, tr2. split_and!; [by eapply go_ok_less|done|done].
  - intros (x & tr' & _ & -> & Hr).
    edestruct (IH x (h ++ [@Ev J (@Ext J o) x])) as [tr2 H2]; [|exact Hr|].
    + apply less_done_snoc; [done|]. done.
    + exists (@Ev J (@Ext J o) x :: tr2), x, tr2. by split_and!.
Qed.
End inject_runs.

(** ** Every cycle's handler returns *)
Section cycles.
Context `{Unicode} `{Tlb} `{Json}.
Implicit Types (ctx : Ctx) (cfg : AppConfig) (b : binding).

Definition always_returns (p : prog ports (option error)) : Prop :=
  wp p (λ _ out, ∃ err, out = Returned err) [].

Lemma binding_returns cfg b ctx : b ∈ bindings cfg → always_returns (b_handler b ctx).
Proof.
  unfold bindings. rewrite !elem_of_cons, elem_of_nil.
  intros [-> | [-> | [-> | [-> | [-> | [-> | [-> | []]]]]]]]; cbn [b_handler]; unfold always_returns.
  - apply scan_master_returns.
  - apply wp_runs. intros tr out Hr. apply scan_wallets_runs in Hr. simpl.
    destruct Hr as [[_ [e ->]]|(? & ? & err & _ & _ & -> & _)]; by eexists.
  - apply wp_runs. intros tr out Hr. apply resolve_endpoints_runs in Hr. simpl.
    destruct Hr as [[_ [e ->]]|(? & err & _ & -> & _)]; by eexists.
  - eapply wp_mono'; [apply probe_rates_wp|].
    intros tr out [[_ [e ->]]|(? & ? & ? & _ & _ & _ & err & -> & _)]; by eexists.
  - eapply wp_mono'; [apply inspect_contracts_wp|].
    intros tr out [[_ [e ->]]|(? & ? & ? & _ & _ & _ & err & -> & _)]; by eexists.
  - eapply wp_mono'; [apply check_proofs_wp, New_concurrency|].
    intros tr out [[_ [e ->]]|(? & ? & ? & _ & _ & _ & err & -> & _)]; by eexists.
  - eapply wp_mono'; [apply update_ipinfo_wp|].
    intros tr out [[_ [e ->]]|(? & ? & ? & _ & _ & _ & err & -> & _)]; by eexists.
Qed.

Lemma binding_lives cfg b s : b ∈ bindings cfg → ¬ dies (b_handler b) s.
Proof.
  intros Hb (_ & ctx & hist & h & Hrun).
  destruct (inject_runs (I:=redis) (J:=ports) _ [] _ _ _ ltac:(by intros c ?%Exists_nil) Hrun) as [tr Hr].
  pose proof (proj1 (wp_runs _ _ _) (binding_returns cfg b ctx Hb) _ _ Hr) as [err Herr]. done.
Qed.

(** C10. Every trigger a worker of the agent reads is acknowledged, whatever the
    cycle and whatever the database, the chain, the DHT and the providers
    answer: each cycle's handler always ends, so the worker returns only once
    its context is done, and until then it goes on for as many rounds as one
    cares to run it, one read each; in either case the messages acknowledged
    are those delivered, in order, and no cycle is left in flight. *)
Theorem worker_acknowledges_all cfg b fuel ctx :
  b ∈ bindings cfg →
  every_run (runWorker (consumer_of cfg b) (b_handler b) fuel ctx) (λ tr out,
    acks tr = delivered tr ∧ gauge tr = 0 ∧
    ((out = Returned tt ∧ done_in ctx tr) ∨ (out = Stopped NoFuel ∧ nreads tr = fuel))).
Proof.
  intros Hb tr out Hrun.
  pose proof (proj1 (wp_runs _ _ _) (worker_wp (consumer_of cfg b) (b_handler b) fuel ctx fuel []
                (idle_nil ctx) eq_refl) _ _ Hrun) as [_ Hout].
  destruct out as [[]|s]; simpl in Hout |- *.
  - destruct Hout as (Hd & Ha & Hg). split_and!; [done|done|by left].
  - destruct Hout as [(-> & Hn & Ha & Hg)|[Hdies _]]; [|by destruct (binding_lives cfg b s Hb)].
    split_and!; [done|done|by right].
Qed.
End cycles.

Lemma worker_acknowledges_all_witness :
  ex_binding ∈ @bindings AsciiUnicode ex_TON ex_app ∧
  every_run (@runWorker ex_json ports (consumer_of ex_app ex_binding) (b_handler ex_binding) 3 Background)
    (λ tr out,
      acks tr = delivered tr ∧ gauge tr = 0 ∧
      ((out = Returned tt ∧ done_in Background tr) ∨ (out = Stopped NoFuel ∧ nreads tr = 3%nat))).
Proof.
  split; [apply list_elem_of_here|].
  exact (@worker_acknowledges_all AsciiUnicode ex_TON ex_json ex_app ex_binding 3 Background
           (list_elem_of_here _ _)).
Defined.
