(* ===== verification/Boot.v ===== *)
(** Start and end of the process: [internal/config], the opening of the
    connections ([initADNL] and [New] of internal/app, [adnlclients.New],
    [postgres.NewPool], [tonclient.NewClient], [pkg/telemetry]), [App.Close],
    and [run] of cmd/app. *)

From S2P Require Import Prelude GoStd Effects Domain Pool Ports Redis Consumer App.
From S2P Require Import Poll.

(** ** internal/config *)
Record System := mkSystem {
  sy_AgentID : string;
  sy_ADNLPort : string;
  sy_Key : string;
  sy_LogLevel : Z;
  sy_MinJobIdle : Duration;
  sy_ReaperTimeout : Duration }.
Record PostgresCfg := mkPostgresCfg {
  pg_Host : string;
  pg_Port : string;
  pg_User : string;
  pg_Password : string;
  pg_Name : string }.
Record RedisCfg := mkRedisCfg {
  rd_Addr : string;
  rd_Password : string;
  rd_DB : Z;
  rd_Group : string;
  rd_StreamPrefix : string;
  rd_ResultMaxLen : Z }.
Record TONCfg := mkTONCfg { tn_MasterAddress : string; tn_ConfigURL : string }.
Record Workers := mkWorkers {
  wk_Discovery : UsecaseCfg;
  wk_Poll : UsecaseCfg;
  wk_Proof : UsecaseCfg;
  wk_Update : UsecaseCfg }.
Record MetricsCfg := mkMetricsCfg { mt_Enabled : bool; mt_Port : string }.
Record TelemetryCfg := mkTelemetryCfg { tl_Enabled : bool; tl_EndPoint : string; tl_ServiceName : string }.
Record Config := mkConfig {
  cf_System : System;
  cf_Postgres : PostgresCfg;
  cf_Redis : RedisCfg;
  cf_TON : TONCfg;
  cf_Workers : Workers;
  cf_Metrics : MetricsCfg;
  cf_Telemetry : TelemetryCfg }.

Definition DSN (p : PostgresCfg) : string :=
  "postgres://" +:+ pg_User p +:+ ":" +:+ pg_Password p +:+ "@" +:+ pg_Host p +:+ ":" +:+ pg_Port p
  +:+ "/" +:+ pg_Name p +:+ "?sslmode=disable".

(** [LogLevels] and [setupConfig]: an unknown level is info. *)
Inductive Level := LevelDebug | LevelInfo | LevelWarn | LevelError.
Definition LogLevels : gmap Z Level :=
  {[ 0 := LevelDebug; 1 := LevelInfo; 2 := LevelWarn; 3 := LevelError ]}.
Definition setupConfig (c : Config) : Level := default LevelInfo (LogLevels !! sy_LogLevel (cf_System c)).

(** The defaults in the struct tags, for what a configuration leaves out. *)
Definition default_System (Key : string) : System := mkSystem "auto" "16167" Key 1 (15 * Minute) (10 * Minute).
Definition default_Redis : RedisCfg := mkRedisCfg "redis:6379" "" 0 "mtpa" "mtpa" 100000.
Definition default_UsecaseCfg (Enabled : bool) : UsecaseCfg := mkUsecaseCfg Enabled 1 (30 * Minute) 5000 0 (30 * Minute).
Definition default_Metrics : MetricsCfg := mkMetricsCfg true "2112".
Definition default_Telemetry : TelemetryCfg := mkTelemetryCfg true "otel-collector:4317" "mtpa_telemetry".

(** A configuration with only what is required, and the use cases it enables. *)
Definition minimal_Config (Key : string) (p : PostgresCfg) (t : TONCfg) (discovery poll proof update : bool) : Config :=
  mkConfig (default_System Key) p default_Redis t
    (mkWorkers (default_UsecaseCfg discovery) (default_UsecaseCfg poll) (default_UsecaseCfg proof)
       (default_UsecaseCfg update))
    default_Metrics default_Telemetry.

(** The part of the configuration the wiring of the use cases reads. *)
Definition app_config (c : Config) : AppConfig :=
  mkAppConfig (sy_AgentID (cf_System c)) (sy_MinJobIdle (cf_System c)) (sy_ReaperTimeout (cf_System c))
    (rd_Group (cf_Redis c)) (rd_StreamPrefix (cf_Redis c)) (tn_MasterAddress (cf_TON c))
    (wk_Discovery (cf_Workers c)) (wk_Poll (cf_Workers c)) (wk_Proof (cf_Workers c))
    (wk_Update (cf_Workers c)).

(** With the defaults every consumer's reaper takes an entry for abandoned while
    its handler may still be running. *)
Lemma reaper_before_timeout `{Unicode} `{Tlb} Key p t d po pr u b :
  b ∈ bindings (app_config (minimal_Config Key p t d po pr u)) →
  let c := consumer_of (app_config (minimal_Config Key p t d po pr u)) b in c_midIdle c < c_timeout c.
Proof.
  unfold bindings. rewrite !elem_of_cons, elem_of_nil.
  by intros [-> | [-> | [-> | [-> | [-> | [-> | [-> | []]]]]]]].
Qed.

(** ** The libraries that are called while starting and stopping

    A connection, a gateway, a client is a handle; a method called on a pointer
    takes [None] for [nil], and answers the message of its panic, if any. *)
Definition handle := nat.

Inductive bop :=
(* os, cleanenv, uuid, crypto/ed25519 *)
| Getenv (name : string)
| Stat (path : string)
| ReadConfig (path : string)
| NewUUID
| GenerateKey
| NewKeyFromSeed (priv : string)
(* tonutils-go, tonutils-storage-provider *)
| GetConfigFromUrl (ctx : Ctx) (url : string)
| DefaultListener (addr : string)
| NewMultiNetReader (dl : handle)
| NewGateway (key : string) (netMgr : handle)
| StartClient (gate : handle)
| NewDHTClient (gate cfg : handle)
| NewTransport (gate dht : handle)
| GatewayClose (gate : option handle)
| AddConnectionsFromConfigUrl (ctx : Ctx) (url : string)
(* pgxpool, go-redis *)
| PoolNew (ctx : Ctx) (dsn : string)
| PoolPing (ctx : Ctx) (pool : handle)
| PoolClose (pool : option handle)
| RedisNewClient (addr password : string) (db : Z)
| RedisClose (rdb : handle)
(* opentelemetry *)
| OtlpNew (ctx : Ctx) (endpoint : string)
| ResourceMerge (serviceName : string)
| NewTracerProvider (exp res : handle)
| SetTracerProvider (tp : handle)
| TracerShutdown (tp : handle)
(* prometheus *)
| Register (collector : string).

Definition bop_ans (o : bop) : Type :=
  match o with
  | Getenv _ | NewUUID | NewKeyFromSeed _ => string
  | Stat _ | StartClient _ | PoolPing _ _ | AddConnectionsFromConfigUrl _ _ | TracerShutdown _ => option error
  | ReadConfig _ => Config + error
  | GenerateKey => string + error
  | GetConfigFromUrl _ _ | DefaultListener _ | NewDHTClient _ _ | PoolNew _ _ | OtlpNew _ _
  | ResourceMerge _ => handle + error
  | NewMultiNetReader _ | NewGateway _ _ | NewTransport _ _ | RedisNewClient _ _ _
  | NewTracerProvider _ _ => handle
  | RedisClose _ | SetTracerProvider _ => unit
  | GatewayClose _ | PoolClose _ | Register _ => option string
  end%type.
Definition boot : iface := Iface bop bop_ans.
#[export] Instance boot_env : Env boot := any_env boot.
Definition bcall (o : bop) : prog boot (bop_ans o) := ext (I:=boot) o.

(** A call that may panic. *)
Definition may_panic (r : option string) : prog boot unit :=
  match r with Some m => Stop (Panic m) | None => mret tt end.

(** ** MustLoad *)
Definition quoted (s : string) : string := dquote +:+ s +:+ dquote.
Definition ErrNotExist : error := ErrSentinel "os.ErrNotExist" "file does not exist".

Definition with_agent_id (c : Config) (id : string) : Config :=
  let s := cf_System c in
  mkConfig (mkSystem id (sy_ADNLPort s) (sy_Key s) (sy_LogLevel s) (sy_MinJobIdle s) (sy_ReaperTimeout s))
    (cf_Postgres c) (cf_Redis c) (cf_TON c) (cf_Workers c) (cf_Metrics c) (cf_Telemetry c).
Definition with_key (c : Config) (key : string) : Config :=
  let s := cf_System c in
  mkConfig (mkSystem (sy_AgentID s) (sy_ADNLPort s) key (sy_LogLevel s) (sy_MinJobIdle s) (sy_ReaperTimeout s))
    (cf_Postgres c) (cf_Redis c) (cf_TON c) (cf_Workers c) (cf_Metrics c) (cf_Telemetry c).

Definition MustLoad : prog boot Config :=
  configPath ← bcall (Getenv "CONFIG_PATH");
  if bool_decide (configPath = "") then Stop (Panic "CONFIG_PATH is not set")
  else
    err ← bcall (Stat configPath);
    if match (err : option error) with Some e => Is e ErrNotExist | None => false end
    then Stop (Panic ("config file " +:+ quoted configPath +:+ " does not exist"))
    else
      r ← bcall (ReadConfig configPath);
      match (r : Config + error) with
      | inr e => Stop (Panic ("failed to read config: " +:+ Error e))
      | inl cfg =>
          cfg ← (if bool_decide (sy_AgentID (cf_System cfg) = "") || bool_decide (sy_AgentID (cf_System cfg) = "auto")
                 then id ← bcall NewUUID; mret (with_agent_id cfg ("agent-" +:+ id))
                 else mret cfg);
          if strlen (sy_Key (cf_System cfg)) =? 0 then
            r ← bcall GenerateKey;
            match (r : string + error) with
            | inr e => Stop (Panic ("failed to generate ed25519 key: " +:+ Error e))
            | inl priv => key ← bcall (NewKeyFromSeed priv); mret (with_key cfg key)
            end
          else mret cfg
      end.

(** ** Opening *)


Definition initADNL (ctx : Ctx) (configURL adnlPort privKey : string)
    : prog boot ((handle * handle * handle) + error) :=
  let op := "main.initADNL" in
  lsCfg ← bcall (GetConfigFromUrl ctx configURL);
  match (lsCfg : handle + error) with
  | inr e => mret (inr (ErrWrap (op +:+ ": liteclient config: ") e))
  | inl lsCfg =>
  key ← bcall GenerateKey;
  match (key : string + error) with
  | inr e => mret (inr (ErrWrap (op +:+ ": dht key: ") e))
  | inl dhtAdnlKey =>
  dl ← bcall (DefaultListener ("0.0.0.0:" +:+ adnlPort));
  match (dl : handle + error) with
  | inr e => mret (inr (ErrWrap (op +:+ ": udp listen: ") e))
  | inl dl =>
  netMgr ← bcall (NewMultiNetReader dl);
  dhtGate ← bcall (NewGateway dhtAdnlKey netMgr);
  err ← bcall (StartClient dhtGate);
  match (err : option error) with
  | Some e => mret (inr (ErrWrap (op +:+ ": dht gateway: ") e))
  | None =>
  dhtCli ← bcall (NewDHTClient dhtGate lsCfg);
  match (dhtCli : handle + error) with
  | inr e => mret (inr (ErrWrap (op +:+ ": dht client: ") e))
  | inl dhtCli =>
  gateProvider ← bcall (NewGateway privKey netMgr);
  err ← bcall (StartClient gateProvider);
  match (err : option error) with
  | Some e => mret (inr (ErrWrap (op +:+ ": provider gateway: ") e))
  | None =>
  transportCli ← bcall (NewTransport gateProvider dhtCli);
  mret (inl (dhtCli, transportCli, gateProvider))
  end end end end end end.

(** *** adnlclients: the same, for nobody *)
Record Clients := mkClients { cl_DHT : option handle; cl_Transport : option handle }.

Definition adnl_New (ctx : Ctx) (configURL ADNLPort privateKey : string)
    : prog boot (Clients * option error) :=
  let none := mkClients None None in
  lsCfg ← bcall (GetConfigFromUrl ctx configURL);
  match (lsCfg : handle + error) with
  | inr e => mret (none, Some (ErrWrap "failed to get liteclient config: " e))
  | inl lsCfg =>
  key ← bcall GenerateKey;
  match (key : string + error) with
  | inr e => mret (none, Some (ErrWrap "failed to generate DHT ADNL key: " e))
  | inl dhtAdnlKey =>
  dl ← bcall (DefaultListener ("0.0.0.0:" +:+ ADNLPort));
  match (dl : handle + error) with
  | inr e => mret (none, Some (ErrWrap "failed to create default listener: " e))
  | inl dl =>
  netMgr ← bcall (NewMultiNetReader dl);
  dhtGate ← bcall (NewGateway dhtAdnlKey netMgr);
  err ← bcall (StartClient dhtGate);
  match (err : option error) with
  | Some e => mret (none, Some (ErrWrap "failed to start DHT gateway: " e))
  | None =>
  dhtCli ← bcall (NewDHTClient dhtGate lsCfg);
  match (dhtCli : handle + error) with
  | inr e => mret (none, Some (ErrWrap "failed to create DHT client: " e))
  | inl dhtCli =>
  gateProvider ← bcall (NewGateway privateKey netMgr);
  err ← bcall (StartClient gateProvider);
  match (err : option error) with
  | Some e => mret (mkClients (Some dhtCli) None, Some (ErrWrap "failed to start ADNL gateway for provider: " e))
  | None =>
  transportCli ← bcall (NewTransport gateProvider dhtCli);
  mret (mkClients (Some dhtCli) (Some transportCli), None)
  end end end end end end.

(** *** storage.go, liteclient/client.go, otel.go, metrics.go *)
Definition NewPool (ctx : Ctx) (dsn : string) : prog boot (handle + error) :=
  let op := "postgres.NewPool" in
  pool ← bcall (PoolNew ctx dsn);
  match (pool : handle + error) with
  | inr e => mret (inr (wrap op e))
  | inl pool =>
      err ← bcall (PoolPing ctx pool);
      match (err : option error) with
      | Some e =>
          r ← bcall (PoolClose (Some pool));
          _ ← may_panic r;
          mret (inr (wrap op e))
      | None => mret (inl pool)
      end
  end.

(** The lite client panics where it could return the error. *)
Definition NewClient (ctx : Ctx) (configUrl : string) : prog boot unit :=
  err ← bcall (AddConnectionsFromConfigUrl ctx configUrl);
  match (err : option error) with
  | Some e => Stop (Panic (Error e))
  | None => mret tt
  end.

Definition telemetry_New (ctx : Ctx) (serviceName endPoint : string) : prog boot (handle + error) :=
  let op := "telemetry.New" in
  exp ← bcall (OtlpNew ctx endPoint);
  match (exp : handle + error) with
  | inr e => mret (inr (wrap op e))
  | inl exp =>
      r ← bcall (ResourceMerge serviceName);
      match (r : handle + error) with
      | inr e => mret (inr (wrap op e))
      | inl r =>
          tp ← bcall (NewTracerProvider exp r);
          _ ← bcall (SetTracerProvider tp);
          mret (inl tp)
      end
  end.

(** [promauto] registers each collector, or panics. *)
Definition register (namespace subsystem name : string) : prog boot unit :=
  r ← bcall (Register (namespace +:+ "_" +:+ subsystem +:+ "_" +:+ name));
  may_panic r.
Definition metrics_New (namespace subsystem : string) : prog boot unit :=
  _ ← register namespace subsystem "cycles_total";
  _ ← register namespace subsystem "cycle_duration_seconds";
  _ ← register namespace subsystem "cycles_inflight";
  _ ← register namespace subsystem "redis_errors_total";
  register namespace subsystem "publish_errors_total".

(** ** New and Close

    Of [App], what the rest of the process uses: the configuration, the Redis
    client, and the three fields [Close] reads. *)
Record RunningApp := mkRunningApp {
  app_Config : Config;
  app_RDB : handle;
  app_pool : option handle;
  app_gateProvider : option handle;
  app_tracer : option handle }.

Definition New (ctx : Ctx) (cfg : Config) : prog boot (RunningApp + error) :=
  let op := "app.New" in
  tp ← (if tl_Enabled (cf_Telemetry cfg) then
          r ← telemetry_New ctx (tl_ServiceName (cf_Telemetry cfg)) (tl_EndPoint (cf_Telemetry cfg));
          mret (match r with inl tp => inl (Some tp) | inr e => inr e end)
        else mret (inl None));
  match (tp : option handle + error) with
  | inr e => mret (inr (wrap op e))
  | inl tp =>
  adnl ← initADNL ctx (tn_ConfigURL (cf_TON cfg)) (sy_ADNLPort (cf_System cfg)) (sy_Key (cf_System cfg));
  match (adnl : (handle * handle * handle) + error) with
  | inr e => mret (inr (wrap op e))
  | inl (dhtCli, transportCli, gateProvider) =>
  pool ← NewPool ctx (DSN (cf_Postgres cfg));
  match (pool : handle + error) with
  | inr e => mret (inr (wrap op e))
  | inl pool =>
  _ ← NewClient ctx (tn_ConfigURL (cf_TON cfg));
  rdb ← bcall (RedisNewClient (rd_Addr (cf_Redis cfg)) (rd_Password (cf_Redis cfg)) (rd_DB (cf_Redis cfg)));
  _ ← metrics_New "ton_storage" "mtpa";
  (* the composite literal names neither pool nor gateProvider *)
  mret (inl (mkRunningApp cfg rdb None None tp))
  end end end.

Definition Close (a : RunningApp) : prog boot unit :=
  r ← bcall (PoolClose (app_pool a));
  _ ← may_panic r;
  _ ← bcall (RedisClose (app_RDB a));
  r ← bcall (GatewayClose (app_gateProvider a));
  _ ← may_panic r;
  match app_tracer a with
  | Some tp => _ ← bcall (TracerShutdown tp); mret tt
  | None => mret tt
  end.

(** ** cmd/app/main.go

    The agent's operations beside those of the libraries.  [defer app.Close(ctx)]
    also runs when [MustRun] panics. *)
Abbreviation process_iface := (iplus boot agent).
#[export] Instance process_env : Env process_iface := any_env process_iface.
Definition booting {R} (p : prog boot R) : prog process_iface R :=
  interp (I:=boot) (λ o, ext (I:=process_iface) (inl o)) p.

Section run.
Context `{Unicode} `{Tlb} `{Json}.

Definition run (fuel steps : nat) (ctx : Ctx) : prog process_iface Z :=
  cfg ← booting MustLoad;
  app ← booting (New ctx cfg);
  match (app : RunningApp + error) with
  | inr e => mret 1
  | inl app =>
      r ← recover (inject (MustRun (app_config (app_Config app)) fuel steps ctx));
      _ ← booting (Close app);
      match r with
      | inl _ => mret 0
      | inr m => Stop (Panic m)
      end
  end.
End run.

(** ** initADNL and adnlclients.New

    The two open the same connections in the same order; only the texts of the
    errors, and what is handed back, differ. *)
Inductive alike {R R'} (same : R → R' → Prop) : prog boot R → prog boot R' → Prop :=
| alike_ret r r' : same r r' → alike same (Ret r) (Ret r')
| alike_do o k k' : (∀ x, alike same (k x) (k' x)) → alike same (Do o k) (Do o k').

Definition same_opened (r : (handle * handle * handle) + error) (r' : Clients * option error) : Prop :=
  match r, r' with
  | inl (d, t, _), (cl, None) => cl = mkClients (Some d) (Some t)
  | inr (ErrWrap _ e), (_, Some (ErrWrap _ e')) => e = e'
  | _, _ => False
  end.

Lemma alike_runs {R R'} (same : R → R' → Prop) p p' hist tr r :
  alike same p p' → runs hist p tr (Returned r) → ∃ r', runs hist p' tr (Returned r') ∧ same r r'.
Proof.
  intros Ha. revert hist tr. induction Ha as [r1 r2 Hs|o k k' _ IH]; intros hist tr; simpl.
  - intros [-> [= ->]]. eauto.
  - intros (x & tr' & Hx & -> & Hr). destruct (IH _ _ _ Hr) as (r' & Hr' & Hs). eauto 10.
Qed.

Lemma initADNL_alike ctx url port key : alike same_opened (initADNL ctx url port key) (adnl_New ctx url port key).
Proof.
  unfold initADNL, adnl_New, bcall, ext.
  repeat first [ apply alike_ret; reflexivity
               | apply alike_do; intros ?; cbn beta iota; case_goal
               | apply alike_do; intros ?; cbn beta iota ].
Qed.

(** ** What Close can close *)
Implicit Types (ctx : Ctx) (cfg : Config).

(** The pools that were opened and answered, and the connections that were
    closed, calls on [nil] apart. *)
Definition as_pool (ev : event boot) : option handle :=
  match ev with Ev (Ext (PoolPing _ h)) None => Some h | _ => None end.
Definition as_closed (ev : event boot) : option handle :=
  match ev with Ev (Ext (PoolClose (Some h))) _ | Ev (Ext (GatewayClose (Some h))) _ => Some h | _ => None end.
(** A call of a method on [nil] that returned. *)
Definition as_nil_call (ev : event boot) : option bool :=
  match ev with
  | Ev (Ext (PoolClose None)) None => Some true
  | Ev (Ext (GatewayClose None)) None => Some false
  | _ => None
  end.
(** The events that are none of these. *)
Definition idle_boot (tr : trace boot) : Prop :=
  omap as_pool tr = [] ∧ omap as_closed tr = [] ∧ omap as_nil_call tr = [].

Ltac boot_step :=
  lazymatch goal with
  | |- wp (bcall _ ≫= _) _ _ => unfold bcall; wp_step
  | |- wp (may_panic ?r ≫= _) _ _ => destruct r; cbn [may_panic]; [apply wp_stop|]
  | |- wp (may_panic ?r) _ _ => destruct r; cbn [may_panic]
  | |- wp ((_ ≫= _) ≫= _) _ _ => apply wp_bind
  | _ => wp_step
  end.
Ltac boot_steps := repeat boot_step.

Lemma MustLoad_wp : wp MustLoad (λ tr _, idle_boot tr) [].
Proof. unfold MustLoad. boot_steps; done. Qed.

(** A successful start leaves one pool open, and the app knows neither it nor
    the gateway. *)
Lemma New_wp ctx cfg :
  wp (New ctx cfg) (λ tr out,
    omap as_nil_call tr = [] ∧ (omap as_pool tr = [] ∨ omap as_closed tr = []) ∧
    match out with
    | Returned (inl a) =>
        length (omap as_pool tr) = 1%nat ∧ omap as_closed tr = [] ∧
        app_Config a = cfg ∧ app_pool a = None ∧ app_gateProvider a = None
    | _ => True
    end) [].
Proof.
  unfold New, telemetry_New, initADNL, NewPool, NewClient, metrics_New, register.
  boot_steps; (split; [reflexivity|]); (split; [first [by left|by right]|]); by repeat split.
Qed.

(** Closing it closes nothing; it comes to the end only if the calls on [nil]
    return. *)
Lemma Close_wp a :
  app_pool a = None → app_gateProvider a = None →
  wp (Close a) (λ tr out, omap as_pool tr = [] ∧ omap as_closed tr = [] ∧
                          (out = Returned tt → omap as_nil_call tr = [true; false])) [].
Proof. intros Hp Hg. unfold Close. rewrite Hp, Hg. boot_steps; by repeat split. Qed.

(** *** Programs of the libraries inside the process *)
Definition boot_ev (ev : event boot) : event process_iface :=
  match ev with
  | Ev (Go g) x => @Ev process_iface (@Go process_iface g) x
  | Ev (Ext o) x => @Ev process_iface (@Ext process_iface (inl o)) x
  end.
Definition as_boot (ev : event process_iface) : option (event boot) :=
  match ev with Ev (Ext (inl o)) x => Some (@Ev boot (@Ext boot o) x) | _ => None end.
(** What the process did with the libraries. *)
Definition boot_trace (tr : trace process_iface) : trace boot := omap as_boot tr.

Definition is_ext {I : iface} (o : fop I) : Prop := match o with Ext _ => True | Go _ => False end.

Lemma booting_runs {R} (p : prog boot R) hist hb tr out :
  only is_ext (λ _, True) p → runs hist (booting p) tr out →
  ∃ trb, boot_trace tr = trb ∧ runs (E:=any_env boot) hb p trb out.
Proof.
  revert hist hb tr. induction p as [r|s|[g|o] k IH]; intros hist hb tr Hp Hrun;
    unfold booting in *; simpl in Hp, Hrun.
  - destruct Hrun as [-> ->]. by exists [].
  - destruct Hrun as [-> ->]. by exists [].
  - by destruct Hp.
  - destruct Hrun as (x & tr' & _ & -> & Hr).
    destruct (IH x _ (hb ++ [@Ev boot (@Ext boot o) x]) tr' (proj2 Hp x) Hr) as (trb & Ht & Hb).
    eexists. split; [done|]. exists x, trb. split_and!; [done| |done]. unfold boot_trace in *. csimpl. by f_equal.
Qed.

Lemma booting_wp {R} (p : prog boot R) (Q : trace boot → outcome R → Prop) hist :
  only is_ext (λ _, True) p → wp (E:=any_env boot) p Q [] →
  wp (booting p) (λ tr out, ∃ seg, tr = hist ++ seg ∧ Q (boot_trace seg) out) hist.
Proof.
  intros Hp HQ. apply wp_runs. intros tr out Hrun. exists tr. split; [done|].
  destruct (booting_runs p hist [] tr out Hp Hrun) as (trb & -> & Hb).
  exact (proj1 (wp_runs p Q []) HQ _ _ Hb).
Qed.

Lemma boot_trace_app tr tr' : boot_trace (tr ++ tr') = boot_trace tr ++ boot_trace tr'.
Proof. apply omap_app. Qed.

Lemma injected_boot (tr : trace process_iface) :
  Forall (λ ev, injected (ev_op ev)) tr → boot_trace tr = [].
Proof. induction 1 as [|[[g|[o|o]] x] tr Ho _ IH]; [done|exact IH|done|exact IH]. Qed.

Section run_theorem.
Context `{Unicode} `{Tlb} `{Json}.

(** C39. [App.Close], deferred by [run], never releases what the process opened:
    whatever happens in between, once the database pool has been opened and
    answered, neither a pool nor a gateway is ever closed.  [New] does not
    store them, so that [Close] calls their methods on [nil]; the process can
    exit with 0 only if both of those calls return. *)
Theorem run_closes_nothing fuel steps ctx :
  every_run (run fuel steps ctx) (λ tr out,
    let b := boot_trace tr in
    (omap as_pool b ≠ [] → omap as_closed b = []) ∧
    (out = Returned 0 → length (omap as_pool b) = 1%nat ∧ omap as_nil_call b = [true; false])).
Proof.
  apply every_run_wp. unfold run. apply wp_bind. eapply wp_mono'.
  { apply (booting_wp MustLoad (λ tr _, idle_boot tr)); [|apply MustLoad_wp].
    unfold MustLoad, bcall. only_steps; done. }
  intros tr out (seg & -> & Hp & Hc & Hn). cbn [app].
  destruct out as [cfg|s]; cbn [seq_post]; [|by rewrite Hp].
  apply wp_bind. eapply wp_mono'.
  { apply (booting_wp (New ctx cfg)); [|apply New_wp].
    unfold New, telemetry_New, initADNL, NewPool, NewClient, metrics_New, register, may_panic, bcall.
    only_steps; done. }
  intros tr out (seg' & -> & Hn' & Hpc & Hout).
  assert (∀ f : event boot → option handle, omap f (boot_trace seg) = [] →
    omap f (boot_trace (seg ++ seg')) = omap f (boot_trace seg')) as Hskip
    by (intros f Hf; by rewrite boot_trace_app, omap_app, Hf).
  destruct out as [[a|e]|s]; cbn [seq_post];
    [|split; [rewrite !Hskip by done; by destruct Hpc as [-> |?]|done]..].
  destruct Hout as (Hpool & Hclosed & Hcfg & Hap & Hag). clear Hpc.
  apply wp_bind. eapply wp_mono'.
  { apply (only_wp injected (λ _, True)); [apply only_recover, inject_only|apply wp_true]. }
  intros tr out (_ & more & -> & Hmore%injected_boot).
  assert (∀ f : event boot → option handle, omap f (boot_trace seg) = [] →
    omap f (boot_trace ((seg ++ seg') ++ more)) = omap f (boot_trace seg')) as Hskip'
    by (intros f Hf; rewrite boot_trace_app, Hmore, app_nil_r; by apply Hskip).
  destruct out as [r|s]; cbn [seq_post]; [|by rewrite !Hskip'].
  apply wp_bind. eapply wp_mono'.
  { apply (booting_wp (Close a)); [|by apply Close_wp].
    unfold Close, may_panic, bcall. only_steps; done. }
  intros tr out (seg2 & -> & Hp2 & Hc2 & Hn2).
  assert (omap as_pool (boot_trace (((seg ++ seg') ++ more) ++ seg2)) = omap as_pool (boot_trace seg') ∧
          omap as_closed (boot_trace (((seg ++ seg') ++ more) ++ seg2)) = [] ∧
          omap as_nil_call (boot_trace (((seg ++ seg') ++ more) ++ seg2)) = omap as_nil_call (boot_trace seg2))
    as (Hp3 & Hc3 & Hn3).
  { rewrite !(boot_trace_app _ seg2), !omap_app, !Hskip', Hp2, Hc2, Hclosed, app_nil_r by done.
    split_and!; [done|done|]. by rewrite !boot_trace_app, Hmore, !omap_app, Hn, Hn'. }
  destruct out as [[]|s]; cbn [seq_post].
  - specialize (Hn2 eq_refl). destruct r as [[]|m]; simpl; rewrite Hp3, Hc3, Hn3; by split.
  - simpl. rewrite Hp3, Hc3. by split.
Qed.
End run_theorem.
