(* ===== verification/Metrics.v ===== *)
(** [pkg/metrics]: the HTTP endpoint of the metrics, beside the consumers.  The
    collectors are registered in Boot, and moved by the consumer's operations. *)

From S2P Require Import Prelude GoStd Effects World Boot.

(** ** Serve

    The server of [net/http], and the end of the context. *)
Inductive hop :=
| AwaitDone (ctx : Ctx)               (* <-ctx.Done() *)
| ListenAndServe (addr : string)
| Shutdown (ctx : Ctx).
Definition hop_ans (o : hop) : Type :=
  match o with AwaitDone _ => unit | ListenAndServe _ | Shutdown _ => option error end.
Definition http : iface := Iface hop hop_ans.
Definition ErrServerClosed : error := ErrSentinel "http.ErrServerClosed" "http: Server closed".

(** The goroutine that waits for the end. *)
Definition shutdown_when_done (ctx : Ctx) : prog http (option error) :=
  _ ← ext (I:=http) (AwaitDone ctx);
  _ ← ext (I:=http) (Shutdown (WithTimeout Background (5 * Second)));
  mret None.

(** The rest; it returns the error it logs, if any. *)
Definition Serve (port : string) : prog http (option error) :=
  err ← ext (I:=http) (ListenAndServe (":" +:+ port));
  match (err : option error) with
  | Some e => if negb (Is e ErrServerClosed) then mret (Some e) else mret None
  | None => mret None
  end.

(** What [MustRun] starts. *)
Definition metrics_goroutines (ctx : Ctx) (c : MetricsCfg) : list (prog http (option error)) :=
  if mt_Enabled c then [Serve (mt_Port c); shutdown_when_done ctx] else [].

(** ** The server's life *)
Section life.
Context (ctx : Ctx) (cfg : MetricsCfg).

Record server := mkServer {
  sv_done : bool;                    (* the context is done *)
  sv_shutdown : bool;                (* Shutdown was called *)
  sv_closed : bool }.                (* ListenAndServe returned without an error to log *)

(** [ListenAndServe] always returns an error, [ErrServerClosed] once [Shutdown]
    was called and only then. *)
Definition serves (s : server) (o : hop) : hop_ans o → server → Prop :=
  match o with
  | AwaitDone _ => λ _ s', sv_done s = true ∧ s' = s
  | Shutdown _ => λ _ s', s' = mkServer (sv_done s) true (sv_closed s)
  | ListenAndServe _ => λ err s', ∃ e, err = Some e ∧ (Is e ErrServerClosed = true ↔ sv_shutdown s = true) ∧
      s' = mkServer (sv_done s) (sv_shutdown s) (sv_closed s || Is e ErrServerClosed)
  end.
Definition told_to_stop (s s' : server) : Prop := s' = mkServer true (sv_shutdown s) (sv_closed s).

#[local] Instance server_world : World http := Build_World http server serves told_to_stop.

(** The server is shut down only when the context is done, and closed only
    when it is shut down. *)
Definition stopped_in_order (s : server) : Prop :=
  (sv_shutdown s = true → sv_done s = true) ∧ (sv_closed s = true → sv_shutdown s = true).
Definition goes_on (s s' : server) : Prop := sv_done s = true → sv_done s' = true.
#[local] Instance goes_on_preorder : PreOrder goes_on.
Proof. split; unfold goes_on; [by intros s|]. intros s1 s2 s3. auto. Qed.
Lemma told_in_order s s' : stopped_in_order s → told_to_stop s s' → stopped_in_order s' ∧ goes_on s s'.
Proof. intros [H1 H2] ->. by split. Qed.
#[local] Instance server_rely : Rely server_world :=
  Build_Rely http server_world stopped_in_order goes_on goes_on_preorder told_in_order.

Lemma goroutines_safe p s : p ∈ metrics_goroutines ctx cfg → stopped_in_order s → safe p (λ _ _, True) s.
Proof.
  unfold metrics_goroutines. destruct (mt_Enabled cfg); [|by intros ?%elem_of_nil].
  rewrite !elem_of_cons, elem_of_nil. intros [-> |[-> |[]]] _; unfold Serve, shutdown_when_done.
  - apply safe_call. intros err s1 s2 Hl [H1 H2] (e & -> & He & ->).
    split; [|split; [by intros ?|destruct (Is e ErrServerClosed); by intros h]].
    split; [exact H1|]. cbn. intros [Hc|Hc]%orb_true_iff; [auto|by apply He].
  - apply safe_call. intros [] s1 s2 Hl Hg [Hd ->]. split; [exact Hg|]. split; [by intros ?|].
    apply safe_call. intros err s3 s4 Hl3 [H1 H2] ->.
    split; [split; [intros _; by apply Hl3|done]|]. by split; [intros ?|intros h].
Qed.

(** The endpoint of the metrics goes down in silence only at the end: in any
    state of the process, once [ListenAndServe] returned without an error to
    log, the server was shut down and the context is done. *)
Theorem silent_only_when_done s ps :
  rtc (step (λ p, p ∈ metrics_goroutines ctx cfg)) (mkServer false false false, []) (s, ps) →
  sv_closed s = true → sv_shutdown s = true ∧ sv_done s = true.
Proof.
  intros Hsteps Hc. destruct (reachable_good (G:=server_rely) (λ p, p ∈ metrics_goroutines ctx cfg) goroutines_safe _ _ Hsteps) as [H1 H2]; [by split|]. auto.
Qed.
End life.
