(* ===== verification/System.v ===== *)
(** The use cases over the adapters' code.

    [adapters] is the environment of the ports in which every answer is one
    the code of the adapter behind the port can return, whatever the services
    behind the adapter do.  What a cycle publishes in it is a property of the
    use case and its adapters together.  [with_resolver] runs resolve_endpoints
    with the code of the resolver in place of its port, in one run with one
    trace.  [listing] and [scan_run] are the scans of a wallet over a server that
    holds its history, whole or cut short. *)

From S2P Require Import Prelude GoStd Effects World Domain Pool Ports Discovery Poll StorageProof.
From S2P Require Import Redis IpConfig Ton LiteClient Postgres DirectProvider Dht App.

Section system.
Context `{Unicode} `{Tlb} `{TonUtils} `{ProviderLib} `{DhtLib}.

(** [x] is what some run of the adapter's method returns. *)
Definition can_return {I : iface} {R} (p : prog I R) (x : R) : Prop :=
  ∃ tr, runs (E:=any_env I) [] p tr (Returned x).

Definition adapter_answer (o : port) : port_ans o → Prop :=
  match o with
  | Ports.MasterScan ctx a lt => can_return (Ton.MasterScan ctx a lt)
  | Ports.WalletScan ctx a lt => can_return (Ton.WalletScan ctx a lt)
  | Ports.InspectProviders ctx addrs => can_return (Ton.InspectProviders ctx addrs)
  | Ports.Resolve ctx pk a => can_return (Dht.Resolve ctx pk a)
  | Ports.ResolveStorageWithOverlay ctx ip bags => can_return (Dht.ResolveStorageWithOverlay ctx ip bags)
  | Ports.GetAllPubkeys ctx => can_return (Postgres.GetAllPubkeys ctx)
  | Ports.GetAllWallets ctx => can_return (Postgres.GetAllWallets ctx)
  | Ports.UpdateLT ctx ws => can_return (Postgres.UpdateLT ctx ws)
  | Ports.GetActiveRelations ctx => can_return (Postgres.GetActiveRelations ctx)
  | Ports.LoadAll ctx => can_return (Postgres.LoadAll ctx)
  | Ports.LoadFresh ctx pk age => can_return (Postgres.LoadFresh ctx pk age)
  | Ports.GetMasterWalletLT ctx => can_return (Postgres.GetMasterWalletLT ctx)
  | Ports.SetMasterWalletLT ctx lt => can_return (Postgres.SetMasterWalletLT ctx lt)
  | Ports.Probe ctx pk => can_return (DirectProvider.Probe ctx pk)
  | Ports.Verify ctx ep bag => can_return (DirectProvider.Verify ctx ep bag)
  | Ports.GetProvidersIPs ctx => can_return (Postgres.GetProvidersIPs ctx)
  | Ports.GetIPInfo ctx ip => can_return (IpConfig.GetIPInfo ctx ip)
  | Ports.PublishResult _ _ _ _ _ => λ _, True
  end.
Definition adapters : Env ports := λ _, adapter_answer.

(** A run over the adapters is a run of the use case. *)
Lemma adapters_run {R} (p : prog ports R) Q tr out :
  wp p Q [] → runs (E:=adapters) [] p tr out → Q tr out.
Proof. intros Hwp Hrun. apply runs_any in Hrun. exact (proj1 (wp_runs p Q []) Hwp tr out Hrun). Qed.

(** An answer in such a run satisfies what holds of the adapter's results. *)
Lemma adapters_answer {R} (p : prog ports R) tr out o x :
  runs (E:=adapters) [] p tr out → answered o x ∈ tr → adapter_answer o x.
Proof. apply runs_law. Qed.

(** *** check_proofs *)

(** The endpoint loaded from the database has no key for the storage node, and
    without one the prover does not even dial. *)
Lemma loaded_unreachable ctx pubkey age ep ok err :
  adapter_answer (Ports.LoadFresh ctx pubkey age) (ep, ok, err) → ¬ reachable ep.
Proof.
  intros (tr & Hrun) (_ & _ & Hkey). apply Hkey.
  destruct (LoadFresh_no_storage_key ctx pubkey age tr _ Hrun) as (ep' & ok' & err' & [= -> -> ->] & Hk).
  exact Hk.
Qed.

Lemma verify_unreachable ctx ep bag r err :
  ¬ reachable ep → adapter_answer (Ports.Verify ctx ep bag) (r, err) → r = IPNotFound.
Proof.
  intros Hno (tr & Hrun). destruct (Verify_unreachable ctx ep bag tr _ Hno Hrun) as [_ Hout].
  by injection Hout.
Qed.

Definition not_verified (r : ProofResult) : Prop :=
  pf_Reason r = IPNotFound ∨ pf_Reason r = UnavailableProvider.

Lemma complete_not_verified p ctx tr job rs :
  (∀ o x, answered o x ∈ tr → adapter_answer o x) →
  provider_complete p ctx tr job rs → Forall not_verified rs.
Proof.
  intros Hlaw (ep & ok & err & Hload & [[_ (now & _ & ->)]|(_ & sample & answers & _ & _ & Hc)]).
  { apply Forall_fmap, Forall_true. by left. }
  apply Hlaw, loaded_unreachable in Hload. destruct Hc as [_ Hr Ha _ _ _].
  assert (Forall (λ r, r = IPNotFound) answers) as Hans.
  { eapply Forall2_Forall_r; [exact Ha|]. apply Forall_true. intros c r [e Hin].
    by eapply verify_unreachable, Hlaw. }
  assert (Forall (λ r, r = IPNotFound ∨ r = UnavailableProvider) (pf_Reason <$> rs)) as Hrs.
  { rewrite Hr. apply Forall_app. split.
    - eapply Forall_impl; [exact Hans|]. by left.
    - apply Forall_replicate. by right. }
  by apply Forall_fmap in Hrs.
Qed.

(** C14. With the repositories and the prover as they are, check_proofs never
    publishes a valid storage proof, whatever the database and the providers
    answer: every result is "IP not found" or given up by the breaker. *)
Theorem check_proofs_never_valid p ctx :
  every_run (E:=adapters) (CheckStorageProofs (StorageProof.New p) ctx) (λ tr _,
    ∀ r e, WPublished (PCheckProofs r) e ∈ writes tr → Forall not_verified (cp_Results r)).
Proof.
  intros tr out Hrun r e Hin.
  pose proof (λ o x, adapters_answer _ _ _ o x Hrun) as Hlaw.
  pose proof (adapters_run _ _ _ _ (check_proofs_wp _ ctx (New_concurrency p)) Hrun) as Hout.
  destruct Hout as [[Hw _]|(rels & results & perr & _ & Hok & Hw & _)]; rewrite Hw in Hin.
  { by apply elem_of_nil in Hin. }
  apply list_elem_of_singleton in Hin as [= -> ->].
  destruct Hok as (checks & _ & _ & Hall & ->).
  apply Forall_forall. intros x (rs & Hx & Hrs)%elem_slice_of%list_elem_of_join.
  apply list_elem_of_fmap in Hrs as ([job rs'] & -> & Hc).
  rewrite Forall_forall in Hall. specialize (Hall _ Hc).
  apply complete_not_verified in Hall; [|done]. rewrite Forall_forall in Hall. by apply Hall.
Qed.

(** *** scan_master *)

(** C23. With the scanner as it is, the providers scan_master announces are
    distinct and their keys have the canonical form, the LT it announces is not
    below the one it read, and the one it stores is above it. *)
Theorem scan_master_canonical d ctx :
  every_run (E:=adapters) (CollectNewProviders d ctx) (λ tr _,
    (∀ r e, WPublished (PScanMaster r) e ∈ writes tr →
       NoDup (pr_PublicKey <$> sm_NewProviders r) ∧
       Forall (λ p, canonical_key (pr_PublicKey p)) (sm_NewProviders r) ∧
       ∃ fromLT, answered (Ports.GetMasterWalletLT ctx) (fromLT, None) ∈ tr ∧ fromLT <= sm_LastLT r) ∧
    ∀ lt, WMasterLT lt ∈ writes tr →
       ∃ fromLT, answered (Ports.GetMasterWalletLT ctx) (fromLT, None) ∈ tr ∧ fromLT < lt).
Proof.
  intros tr out Hrun. pose proof (λ o x, adapters_answer _ _ _ o x Hrun) as Hlaw.
  destruct (adapters_run _ _ _ _ (scan_master_wp d ctx) Hrun) as [Hpub Hlt].
  split; [|exact Hlt]. intros r e Hin.
  destruct (Hpub r e Hin) as (fromLT & known & scanned & Hfrom & Hscan & -> & _).
  destruct (Hlaw _ _ Hscan) as (tr' & Hrun').
  destruct (proj1 (wp_runs _ _ _) (MasterScan_wp ctx (MasterAddr d) fromLT) _ _ Hrun')
    as (txs & err & ps & lt & rerr & _ & [= <- <- <-] & Herr & Hok).
  destruct err; [done|]. destruct Hok as (Hnd & _ & Hcan & _ & Hge).
  split_and!; [| |by exists fromLT].
  - eapply sublist_NoDup; [exact Hnd|]. apply (fmap_sublist pr_PublicKey), new_providers_sublist.
  - apply Forall_forall. intros q Hq. apply Hcan.
    eapply elem_of_submseteq; [exact Hq|]. apply sublist_submseteq, new_providers_sublist.
Qed.

End system.

(** ** resolve_endpoints with the resolver's own code

    One program: the use case, with the code of [adapters/outbound/dht] in place
    of the calls of its resolver.  Its operations are those of the DHT, and the
    other ports. *)
Section resolving.
Context `{Unicode} `{Tlb} `{TonUtils} `{DhtLib}.
#[local] Existing Instance any_env.
Implicit Types (tr : trace (iplus ports dht)) (hist : trace ports).

Definition with_resolver (o : port) : prog (iplus ports dht) (port_ans o) :=
  match o with
  | Ports.Resolve ctx pk a => inject (Dht.Resolve ctx pk a)
  | Ports.ResolveStorageWithOverlay ctx ip bags => inject (Dht.ResolveStorageWithOverlay ctx ip bags)
  | o => ext (I:=iplus ports dht) (inl o)
  end.

(** What the run shows of the other ports. *)
Definition port_event (ev : event (iplus ports dht)) : option (event ports) :=
  match ev with Ev (Ext (inl o)) x => Some (answered o x) | _ => None end.
Definition port_part tr : trace ports := omap port_event tr.

Lemma port_part_in tr o x : answered o x ∈ port_part tr ↔ @Ev (iplus ports dht) (@Ext (iplus ports dht) (inl o)) x ∈ tr.
Proof.
  unfold port_part. rewrite list_elem_of_omap. split.
  - intros ([[g|[o'|o']] y] & Hin & Heq); simpl in Heq; try done. apply (inj Some) in Heq.
    change (match answered o x with
            | Ev (Ext o) x => @Ev (iplus ports dht) (@Ext (iplus ports dht) (inl o)) x ∈ tr
            | _ => True end). by rewrite <- Heq.
  - intros Hin. by eexists.
Qed.

(** What the events show of an answer the use case got. *)
Definition shown tr (o : port) : port_ans o → Prop :=
  match o with
  | Ports.Resolve ctx pk a => λ x, resolve_post ctx pk a (right_part tr) (Returned x)
  | Ports.ResolveStorageWithOverlay ctx ip bags => λ x, ∀ e, x = (e, None) →
      ep_IP e = ip ∧ ∃ bagID, bagID ∈ bags ∧ bag_found ctx ip bagID e (right_part tr)
  | o => λ x, answered o x ∈ port_part tr
  end.

Lemma shown_more tr more o x : shown tr o x → shown (tr ++ more) o x.
Proof.
  destruct o; simpl; unfold port_part; rewrite ?right_part_app, ?omap_app; try (intros ?; apply elem_of_app; by left).
  - apply resolve_post_more.
  - intros Hx e He. destruct (Hx e He) as (? & b & Hb & Hf). split; [done|]. exists b. split; [done|by apply bag_found_more].
Qed.

(** What the use case saw, against what happened. *)
Definition resolver_saw hist tr : Prop :=
  less_done hist tr ∧ (∀ o x, answered o x ∈ hist → shown tr o x) ∧
  ∀ o x, answered o x ∈ port_part tr → answered o x ∈ hist.

Lemma resolver_saw_go g x hist tr :
  resolver_saw hist tr → go_ok tr g x →
  go_ok hist g x ∧ resolver_saw (hist ++ [@Ev ports (Go g) x]) (tr ++ [@Ev (iplus ports dht) (Go g) x]).
Proof.
  intros (Hd & Hs & Hp) Hx. split; [by eapply go_ok_less|]. split_and!.
  - apply less_done_snoc; [done|]. intros c. by destruct g.
  - intros o y [Hin|Hin]%elem_of_app; [by apply shown_more, Hs|]. by apply list_elem_of_singleton in Hin.
  - intros o y. unfold port_part. rewrite omap_app, elem_of_app. intros [Hin|Hin]; [|by apply elem_of_nil in Hin].
    apply elem_of_app. left. by apply Hp.
Qed.

(** The resolver's code makes no call of the other ports. *)
Lemma inject_port_part {R} (p : prog dht R) Q tr :
  wp p Q (right_part tr) → wp (inject (I:=ports) p) (λ tr' out, (∃ more, tr' = tr ++ more ∧ port_part more = []) ∧
    Q (right_part tr') out) tr.
Proof.
  intros Hp. eapply wp_mono'; [eapply only_wp; [apply inject_only|apply wp_inject, Hp]|].
  intros tr' out ((_ & HQ) & more & -> & Hall). split; [|done]. exists more. split; [done|].
  clear HQ. induction Hall as [|[[g|[o|o]] x] more Ho _ IH]; [done|exact IH|done|exact IH].
Qed.

Lemma resolver_saw_ext o hist tr (Q : trace (iplus ports dht) → outcome (option error) → Prop) :
  (∀ tr, missing_value (right_part tr) → Q tr (Stopped (Panic nil_dereference))) →
  resolver_saw hist tr →
  wp (with_resolver o) (λ tr out, match out with
    | Returned x => resolver_saw (hist ++ [answered o x]) tr
    | Stopped s => Q tr (Stopped s)
    end) tr.
Proof.
  intros HQ (Hd & Hs & Hp).
  assert (∀ tr' x, (∃ more, tr' = tr ++ more ∧ port_part more = []) → shown tr' o x →
    resolver_saw (hist ++ [answered o x]) tr') as Hcall.
  { intros tr' x (more & -> & Hm) Hx. split_and!.
    - intros c [Hc|[Hc|Hc]%Exists_cons]%done_in_app; [apply done_in_app; left; by apply Hd|done|by apply Exists_nil in Hc].
    - intros o' y [Hin|Hin]%elem_of_app; [by apply shown_more, Hs|]. apply list_elem_of_singleton in Hin.
      change (match answered o' y with Ev (Ext o) x => shown (tr ++ more) o x | _ => True end). by rewrite Hin.
    - intros o' y. unfold port_part in *. rewrite omap_app, Hm, app_nil_r. intros Hin. apply elem_of_app. left. by apply Hp. }
  assert (∀ x, (∀ tr', answered o x ∈ port_part tr' → shown tr' o x) →
    resolver_saw (hist ++ [answered o x]) (tr ++ [@Ev (iplus ports dht) (@Ext (iplus ports dht) (inl o)) x])) as Hother.
  { intros x Hx. set (tr' := tr ++ _). assert (answered o x ∈ port_part tr') as Hev%Hx
      by (apply port_part_in; unfold tr'; set_solver). split_and!.
    - apply less_done_snoc; [done|]. intros c. done.
    - intros o' y [Hin|Hin]%elem_of_app; [by apply shown_more, Hs|]. apply list_elem_of_singleton in Hin.
      change (match answered o' y with Ev (Ext o) x => shown tr' o x | _ => True end). by rewrite Hin.
    - intros o' y. unfold tr'. rewrite port_part_in, elem_of_app, list_elem_of_singleton. intros [Hin|Hin].
      + apply elem_of_app. left. by apply Hp, port_part_in.
      + apply elem_of_app. right. apply list_elem_of_singleton.
        assert (port_event (@Ev (iplus ports dht) (@Ext (iplus ports dht) (inl o')) y) = Some (answered o x)) as Heq by by rewrite Hin.
        exact (inj Some _ _ Heq). }
  destruct o; try (intros x _; apply Hother; by intros tr').
  - eapply wp_mono'; [apply inject_port_part, Resolve_wp|]. intros tr' [x|s] [Hm [_ Hpost]]; [by apply Hcall|].
    destruct Hpost as [-> Hmiss]. by apply HQ.
  - eapply wp_mono'; [apply inject_port_part, ResolveStorageWithOverlay_wp|].
    intros tr' [x|s] [Hm (e & err & Hout & Hpost)]; [|done]. apply Hcall; [done|]. injection Hout as ->.
    intros e' [= -> ->]. exact Hpost.
Qed.

(** Where a published endpoint comes from, by the events of the run: the
    address the provider announced in the DHT under its key; and its storage
    node. *)
Definition trusted_storage ctx (pk contractAddr : string) (bags : list string) (ep : ProviderEndpoint) (dtr : trace dht) : Prop :=
  proved_storage ctx pk contractAddr (pe_Storage ep) dtr ∨
  pe_Storage ep = zeroEndpoint ∧ storage_failed ctx pk contractAddr dtr ∨
  ep_IP (pe_Storage ep) = ep_IP (pe_Provider ep) ∧
    ∃ bagID, bagID ∈ bags ∧ bag_found ctx (ep_IP (pe_Provider ep)) bagID (pe_Storage ep) dtr.
Definition trusted_endpoint ctx (ep : ProviderEndpoint) tr : Prop :=
  ∃ pk relations, DecodeString (pe_PublicKey ep) = (pk, None) ∧
    answered (Ports.GetActiveRelations ctx) (relations, None) ∈ port_part tr ∧
    announced ctx pk (pe_Provider ep) (right_part tr) ∧
    trusted_storage ctx pk (default "" (contract_by_pubkey relations !! pe_PublicKey ep))
      (default [] (bags_by_pubkey relations !! pe_PublicKey ep)) ep (right_part tr).

(** C22. With the code of the resolver in place of its port, in every run: each
    endpoint resolve_endpoints publishes has the address the provider announced
    in the DHT under its key in that run; its storage node is the one whose
    identity the provider proved in the run for the contract of its first
    relation, or was found in the run at the provider's IP in the overlay of one
    of its bags, or is empty after the proof or its lookup failed.  The run ends
    by itself, and panics only when the DHT library returns neither a value nor
    an error. *)
Theorem resolve_endpoints_trusted d ctx :
  every_run (interp (I:=ports) with_resolver (ResolveEndpoints d ctx)) (λ tr out,
    out = Stopped (Panic nil_dereference) ∧ missing_value (right_part tr) ∨
    (∃ err, out = Returned err) ∧
    ∀ r e ep, WPublished (PResolveEndpoints r) e ∈ writes (port_part tr) → ep ∈ re_Endpoints r →
      trusted_endpoint ctx ep tr).
Proof.
  apply every_run_wp. match goal with |- wp _ ?post _ => set (Q := post) end.
  eapply (wp_interp (I:=ports) with_resolver resolver_saw _ Q []).
  - intros g x hist tr. apply resolver_saw_go.
  - intros o hist tr. apply (resolver_saw_ext o hist tr Q). intros tr' Hm. by left.
  - split_and!; [by intros c ?%Exists_nil|by intros o x ?%elem_of_nil|by intros o x ?%elem_of_nil].
  - apply wp_runs. intros hist out Hrun tr (_ & Hshown & Hport). rewrite app_nil_l in *. right.
    pose proof (resolve_endpoints_runs d ctx hist out Hrun) as Hout. split.
    { destruct Hout as [[_ [e ->]]|(r & err & _ & -> & _)]; by eexists. }
    intros r e ep Hin Hep.
    assert (WPublished (PResolveEndpoints r) e ∈ writes hist) as Hin'.
    { apply list_elem_of_omap in Hin as ([[g|o] x] & Hev & Hw); [done|].
      apply list_elem_of_omap. exists (answered o x). split; [by apply Hport|done]. }
    destruct Hout as [[Hw _]|(r' & err & Hok & _ & Hw)]; rewrite Hw in Hin'; [by apply elem_of_nil in Hin'|].
    apply list_elem_of_singleton in Hin' as [= -> ->].
    destruct Hok as (rels & ex & now & keys & Hrels & _ & _ & _ & _ & _ & _ & _ & Hall).
    destruct (Hall ep Hep) as [_ _ Hip (pk & ep0 & Hd & _ & Hres & Hprov & Hst)].
    destruct (Hshown _ _ Hres) as (Hann & Hstore & _).
    exists pk, rels. split_and!; [done|apply (Hshown _ _ Hrels)|by rewrite Hprov|].
    destruct Hst as [Heq|[_ Hover]].
    + destruct Hstore as [Hp|[Hz Hf]]; [left|right; left]; rewrite Heq; [exact Hp|by split].
    + right. right. destruct (Hshown _ _ Hover _ eq_refl) as [Hsame Hfound]. by rewrite Hprov.
Qed.
End resolving.

(** ** The master scanner over the lite client *)
Section scanning.
Context `{Unicode} `{TonUtils}.
Context (history : list tlbTransaction) (Hchain : chain history).

(** [p] was registered in the history after [fromLT]. *)
Definition registered (fromLT : Z) (t : tlbTransaction) (p : Provider) : Prop :=
  t ∈ history ∧ fromLT < tt_LT t ∧ ∃ tx, parsed t = Some tx ∧ registration tx = Some p.

Lemma parsed_LT t tx : parsed t = Some tx → tx_LT tx = tt_LT t.
Proof. unfold parsed. destruct (tt_In t) as [[[]|]|]; try done. by intros [= <-]. Qed.

(** Every key of a registration is among the providers, once per key. *)
Lemma registration_found fromLT txs (ps : list Provider) p :
  (∀ q, q ∈ ps ↔
        head (filter (λ r, pr_PublicKey r = pr_PublicKey q) (registrations fromLT txs)) = Some q) →
  p ∈ registrations fromLT txs → pr_PublicKey p ∈ pr_PublicKey <$> ps.
Proof.
  intros Hps Hp.
  assert (p ∈ filter (λ r, pr_PublicKey r = pr_PublicKey p) (registrations fromLT txs)) as Hin
    by (by apply list_elem_of_filter).
  destruct (filter _ _) as [|q l] eqn:Hf; [by apply elem_of_nil in Hin|].
  assert (q ∈ filter (λ r, pr_PublicKey r = pr_PublicKey p) (registrations fromLT txs)) as Hq
    by (rewrite Hf; constructor).
  apply list_elem_of_filter in Hq as [Hkey _]. apply list_elem_of_fmap. exists q. split; [done|].
  apply Hps. by rewrite Hkey, Hf.
Qed.

(** The largest LT seen is the one to start from or one that was seen. *)
Lemma foldl_max_in (l : list Z) a : foldl Z.max a l = a ∨ foldl Z.max a l ∈ l.
Proof.
  revert a. induction l as [|x l IH]; intros a; simpl; [by left|].
  destruct (IH (Z.max a x)) as [-> |Hin]; [|right; by right].
  destruct (Z.max_spec a x) as [[_ ->]|[_ ->]]; [right; by left|by left].
Qed.

(** What a scan returns, over any client whose listings are runs of the lite
    client on this history, with enough fuel, that satisfy [P]. *)
Lemma scan_covers (L : ∀ o : tonop, tonop_ans o → Prop) (P : nat → trace lite → Prop)
    ctx addr fromLT tr ps lt :
  (∀ c a from x, L (Ton.GetTransactions c a from) x →
     ∃ fuel ltr, (length history < fuel)%nat ∧ P fuel ltr ∧
       runs (E:=chain_env history) [] (GetTransactions fuel c a from) ltr (Returned x)) →
  runs (I:=tonclient) (E:=λ _, L) [] (Ton.MasterScan ctx addr fromLT) tr (Returned (ps, lt, None)) →
  (∀ p, p ∈ ps → ∃ t, registered fromLT t p) ∧
  (lt = fromLT ∨ ∃ t, t ∈ history ∧ tt_LT t = lt) ∧
  ∃ fuel ltr txs, P fuel ltr ∧
    runs (E:=chain_env history) [] (GetTransactions fuel (WithTimeout ctx getTxTimeout) addr fromLT)
      ltr (Returned (txs, None)) ∧
    (cut_short ltr ∨
     (∀ t p, registered fromLT t p → pr_PublicKey p ∈ pr_PublicKey <$> ps) ∧
     ∀ t tx, t ∈ history → parsed t = Some tx → tt_LT t <= lt).
Proof.
  intros HL Hrun. pose proof Hrun as Hany. apply runs_any in Hany.
  destruct (proj1 (wp_runs _ _ _) (MasterScan_wp ctx addr fromLT) _ _ Hany)
    as (txs & err & ps' & lt' & rerr & Hans & Hret & Herr & Hok).
  injection Hret as <- <- <-. destruct err; [done|].
  destruct Hok as (_ & Hps & _ & Hlt & Hge).
  destruct (HL _ _ _ _ (runs_law _ _ _ _ _ _ _ Hrun Hans)) as (fuel & ltr & Hfuel & HP & Hlrun).
  pose proof (proj1 (wp_runs _ _ _) (GetTransactions_wp history Hchain fuel _ addr fromLT Hfuel) _ _ Hlrun)
    as (got & (n & Hgot & Hrest) & Htxs).
  destruct (foldl_max_ge (tx_LT <$> fresh_txs fromLT txs) fromLT) as [_ Hmax]. rewrite <- Hlt in Hmax.
  assert (∀ t, t ∈ got → t ∈ history) as Hsub
    by (intros t Ht; rewrite Hgot in Ht; eapply elem_of_subseteq; [apply subseteq_take|exact Ht]).
  assert (∀ tx, tx ∈ fresh_txs fromLT txs → fromLT < tx_LT tx ∧ ∃ t, t ∈ got ∧ parsed t = Some tx) as Hfresh.
  { intros tx [Hf Htx]%list_elem_of_filter. split; [done|]. rewrite Htxs in Htx.
    apply list_elem_of_omap in Htx as (o & Ho & Heq). simpl in Heq. subst o.
    apply list_elem_of_fmap in Ho as (tx' & [= <-] & Ho). by apply list_elem_of_omap in Ho. }
  split_and!.
  - intros p Hp. apply Hps, head_Some in Hp as [l Hf].
    assert (p ∈ filter (λ r, pr_PublicKey r = pr_PublicKey p) (registrations fromLT txs)) as [_ Hreg]%list_elem_of_filter
      by (rewrite Hf; constructor).
    apply list_elem_of_omap in Hreg as (tx & [Hlttx (t & Ht & Hpt)]%Hfresh & Hr).
    exists t. split_and!; [by apply Hsub|by rewrite <- (parsed_LT _ _ Hpt)|by exists tx].
  - destruct (foldl_max_in (tx_LT <$> fresh_txs fromLT txs) fromLT) as [Heq|Hin]; [left; congruence|right].
    apply list_elem_of_fmap in Hin as (tx & Heq & [_ (t & Ht & Hpt)]%Hfresh).
    exists t. split; [by apply Hsub|]. rewrite <- (parsed_LT _ _ Hpt). congruence.
  - exists fuel, ltr, txs. split; [exact HP|]. split; [exact Hlrun|]. destruct Hrest as [Hcut|Hold]; [by left|right].
    assert (∀ t tx, t ∈ history → fromLT < tt_LT t → parsed t = Some tx → tx ∈ fresh_txs fromLT txs) as Hin.
    { intros t tx Ht Hlt' Htx. unfold fresh_txs. apply list_elem_of_filter.
      rewrite (parsed_LT _ _ Htx). split; [done|]. rewrite Htxs. apply list_elem_of_omap. exists (Some tx).
      split; [|done]. apply list_elem_of_fmap_2, list_elem_of_omap. exists t. split; [|done].
      rewrite Hgot. rewrite <- (take_drop n history) in Ht. apply elem_of_app in Ht as [|Ht]; [done|].
      rewrite Forall_forall in Hold. specialize (Hold _ Ht). simpl in Hold. lia. }
    split.
    + intros t p (Ht & Hfrom & tx & Htx & Hr). eapply registration_found; [exact Hps|].
      apply list_elem_of_omap. exists tx. split; [by eapply Hin|done].
    + intros t tx Ht Htx. destruct (Z.le_gt_cases (tt_LT t) fromLT); [lia|].
      rewrite <- (parsed_LT _ _ Htx). apply Hmax, list_elem_of_fmap_2. by eapply Hin.
Qed.

(** The client's answers, of a server that holds [history]. *)
Context (fuel : nat) (Hfuel : (length history < fuel)%nat).
#[local] Instance client_env : Env tonclient :=
  λ _ o x, ∃ tr, runs (E:=chain_env history) [] (tonclient_of fuel o) tr (Returned x).

(** A scan of the master wallet over the lite client, with a server that
    holds the wallet's history: unless the listing was cut short, every key
    registered in the history after [fromLT] is returned, and no transaction
    with a readable message is newer than the LT to go on from; in any case
    what is returned was registered in the history after [fromLT]. *)
Theorem scan_finds_registrations ctx addr fromLT :
  every_run (Ton.MasterScan ctx addr fromLT) (λ _ out, ∀ ps lt, out = Returned (ps, lt, None) →
    (∀ p, p ∈ ps → ∃ t, registered fromLT t p) ∧
    ∃ ltr txs,
      runs (E:=chain_env history) [] (GetTransactions fuel (WithTimeout ctx getTxTimeout) addr fromLT)
        ltr (Returned (txs, None)) ∧
      (cut_short ltr ∨
       (∀ t p, registered fromLT t p → pr_PublicKey p ∈ pr_PublicKey <$> ps) ∧
       ∀ t tx, t ∈ history → parsed t = Some tx → tt_LT t <= lt)).
Proof.
  intros tr out Hrun ps lt ->.
  destruct (scan_covers (λ o x, ∃ tr, runs (E:=chain_env history) [] (tonclient_of fuel o) tr (Returned x))
              (λ f _, f = fuel) ctx addr fromLT tr ps lt) as (Hsound & _ & f & ltr & txs & -> & Hl & Hall).
  - intros c a from x [ltr Hl]. by exists fuel, ltr.
  - exact Hrun.
  - split; [exact Hsound|]. by exists ltr, txs.
Qed.
End scanning.

(** ** Histories that grow *)
Section growing.
Context `{TonUtils}.

Definition newest (history : list tlbTransaction) : Z :=
  match history with [] => 0 | t :: _ => tt_LT t end.

(** An answer of the client to a listing: by a run with enough fuel against a
    server that holds the history, whose listing was cut short or not. *)
Definition listing (cut : bool) (history : list tlbTransaction) (o : tonop) (x : tonop_ans o) : Prop :=
  ∃ fuel ltr, (length history < fuel)%nat ∧ (if cut then cut_short ltr else ¬ cut_short ltr) ∧
    runs (E:=chain_env history) [] (tonclient_of fuel o) ltr (Returned x).
Definition whole_listing := listing false.

(** A scan over the client: without [gap], every answer it got was in order;
    with [gap], at least one was not. *)
Definition scan_run {R} (in_order disturbed : ∀ o : tonop, tonop_ans o → Prop) (gap : bool)
    (p : prog tonclient R) (x : R) : Prop :=
  if gap then ∃ tr, runs (I:=tonclient) (E:=λ _ o y, in_order o y ∨ disturbed o y) [] p tr (Returned x) ∧
                ∃ o y, tanswered o y ∈ tr ∧ disturbed o y
  else ∃ tr, runs (I:=tonclient) (E:=λ _, in_order) [] p tr (Returned x).

Lemma newest_app new history :
  chain (new ++ history) → newest history <= newest (new ++ history) ∧
  ∀ t, t ∈ new → newest history < tt_LT t.
Proof.
  induction new as [|t new IH]; intros Hc; [split; [simpl; lia|by intros ? ?%elem_of_nil]|].
  cbn [app] in Hc |- *. destruct (IH (chain_tail _ 1 Hc)) as [Hn Hnew].
  assert (newest history < tt_LT t) as Ht.
  { destruct history as [|t' older]; [by apply Hc|]. simpl. apply (chain_below _ _ _ Hc). set_solver. }
  simpl. split; [lia|]. intros t' [-> |Hin]%elem_of_cons; [done|by apply Hnew].
Qed.

Lemma newest_max history t : chain history → t ∈ history → tt_LT t <= newest history.
Proof.
  destruct history as [|t0 older]; intros Hc; [by intros ?%elem_of_nil|]. simpl.
  intros [-> |Hin]%elem_of_cons; [done|]. by apply Z.lt_le_incl, (chain_below older).
Qed.
End growing.

(** ** Finding: transactions behind a short listing

    The listing starts at the newest transaction.  When it is cut short, the
    older half of what is new is not returned, but the scanner's LT moves to
    the newest: the next scan starts there and never sees the others. *)
Section short.
Context `{Unicode} `{TonUtils}.
Implicit Types (history : list tlbTransaction).

(** The answer of a listing that the server ended with [e]. *)
Definition ended_by (e : error) history (o : tonop) (x : tonop_ans o) : Prop :=
  ∃ fuel ltr, (length history < fuel)%nat ∧
    (∃ ctx a lt hash, @Ev lite (@Ext lite (ListTransactions ctx a batch lt hash)) ([], Some e) ∈ ltr) ∧
    runs (E:=chain_env history) [] (tonclient_of fuel o) ltr (Returned x).

(** A server that holds the history may answer so. *)
Definition server_world history : World lite := Build_World lite unit (λ _ o x _, chain_ok history o x) (λ _ _, False).

Lemma ended_listing history ctx addr a from n e :
  ParseAddr addr = inl a → (0 < n)%nat → Z.of_nat n <= batch → history ≠ [] →
  Forall (λ t, from < tt_LT t ∧ tt_In t ≠ None) (take n history) →
  (e = DeadlineExceeded ∨ ∃ m, e = ErrLS (-400) m) →
  ended_by e history (Ton.GetTransactions ctx addr from) (Some <$> omap parsed (rev (take n history)), None).
Proof.
  intros Ha Hn Hlimit Hne Hall He. apply Forall_and in Hall as [Hnew Hin].
  assert (∃ oldest page, rev (take n history) = oldest :: page) as (oldest & page & Hpage).
  { destruct (rev (take n history)) as [|oldest page] eqn:Hr; [|by eexists _, _].
    apply (f_equal length) in Hr. rewrite length_rev, length_take in Hr. destruct history; [done|]. simpl in Hr. lia. }
  assert (can (W:=server_world history) (GetTransactions (S (S (length history))) ctx addr from)
    (λ out tr _, out = Returned (Some <$> omap parsed (rev (take n history)), None) ∧
       ∃ ctx a lt hash, @Ev lite (@Ext lite (ListTransactions ctx a batch lt hash)) ([], Some e) ∈ tr) [] tt) as Hcan.
  { unfold GetTransactions. rewrite Ha.
    apply (can_call (W:=server_world history) (GetMasterchainInfo ctx) _ (zeroBlock, None) tt); [done|].
    apply (can_call (W:=server_world history) (GetAccount ctx zeroBlock a) _ (mkAccount (newest history) "", None) tt); [done|].
    apply can_bind. cbn [list_loop].
    apply (can_call (W:=server_world history) (ListTransactions ctx a batch (newest history) "") _ (rev (take n history), None) tt).
    { exists (n - 1)%nat. split; [unfold batch in *; lia|]. cbn [fst]. replace (S (n - 1)) with n by lia.
      do 2 f_equal. destruct history as [|t older]; [done|]. simpl. by rewrite Z.eqb_refl. }
    cbv beta iota. rewrite Hpage, (cut_newer from (oldest :: page)) by (rewrite <- Hpage; by apply Forall_rev).
    apply (can_call (W:=server_world history) (ListTransactions ctx a batch _ _) _ ([], Some e) tt).
    { by destruct He as [-> |[m ->]]. }
    cbv beta iota. rewrite app_nil_l, <- Hpage.
    assert (∀ acc, (if Is e ErrNoTransactionsWereFound && acc then mret (rev (take n history), None)
      else if Is e DeadlineExceeded then mret (rev (take n history), None)
      else if match e with ErrLS code _ => code =? -400 | _ => false end then mret (rev (take n history), None)
      else mret ([], Some (ErrWrap "list transactions: " e)))
      = mret (M:=prog lite) (rev (take n history), @None error)) as -> by (intros acc; by destruct He as [-> |[m ->]]).
    cbn [can mret prog_ret then_can]. rewrite parse_all_eq by by apply Forall_rev. split; [done|]. do 4 eexists. list_member. }
  destruct (can_runs (W:=server_world history) (chain_ok history) _ _ _ _ (λ s o x s' Hs, Hs) Hcan)
    as (tr & out & s & Hrun & (-> & Hev) & _).
  exists (S (S (length history))), tr. split; [lia|]. by split.
Qed.

(** The master scanner's own steps are determined by the transactions. *)
Lemma MasterScan_runs (L : ∀ o : tonop, tonop_ans o → Prop) ctx addr from txs :
  L (Ton.GetTransactions (WithTimeout ctx getTxTimeout) addr from) (txs, None) →
  ∃ tr ps lt, runs (I:=tonclient) (E:=λ _, L) [] (Ton.MasterScan ctx addr from) tr (Returned (ps, lt, None)) ∧
    tanswered (Ton.GetTransactions (WithTimeout ctx getTxTimeout) addr from) (txs, None) ∈ tr ∧
    ∀ txs', tanswered (Ton.GetTransactions (WithTimeout ctx getTxTimeout) addr from) (txs', None) ∈ tr → txs' = txs.
Proof.
  intros Htxs. set (s := foldl (master_tx from) (mkMasterState ∅ from) txs).
  assert (∀ tr, tr = [tanswered (Ton.GetTransactions (WithTimeout ctx getTxTimeout) addr from) (txs, None)] ∨
      (∃ ks ks', tr = [tanswered (Ton.GetTransactions (WithTimeout ctx getTxTimeout) addr from) (txs, None);
                 @Ev tonclient (Go (RangeKeys ks)) ks']) →
    tanswered (Ton.GetTransactions (WithTimeout ctx getTxTimeout) addr from) (txs, None) ∈ tr ∧
    ∀ txs', tanswered (Ton.GetTransactions (WithTimeout ctx getTxTimeout) addr from) (txs', None) ∈ tr → txs' = txs) as Htr.
  { intros tr [-> |(ks & ks' & ->)]; (split; [list_member|]); intros txs' Hin; by trace_simpl. }
  destruct (decide (ms_unique s = ∅)) as [He|He].
  - eexists _, _, _. split; [|apply Htr; by left]. exists (txs, None). eexists. split; [exact Htxs|]. split; [reflexivity|].
    simpl. by rewrite decide_True by exact He.
  - eexists _, _, _. split; [|apply Htr; right; by do 2 eexists].
    exists (txs, None). eexists. split; [exact Htxs|]. split; [reflexivity|].
    simpl. rewrite decide_False by exact He. exists (map_to_list (ms_unique s)).*1. eexists.
    split; [apply Permutation_refl|]. by split.
Qed.

(** The newest [n] transactions are not among the others. *)
Lemma chain_split history n t : chain history → t ∈ take n history → t ∉ drop n history.
Proof.
  intros Hc Ht Hd. apply list_elem_of_lookup in Ht as [i Hi]. apply lookup_take_Some in Hi as [Hi Hin].
  apply list_elem_of_lookup in Hd as [j Hj]. rewrite lookup_drop in Hj.
  pose proof (chain_tail _ i Hc) as Hci. rewrite (drop_S _ _ _ Hi) in Hci.
  assert (t ∈ drop (S i) history) as Hlater.
  { apply list_elem_of_lookup. exists (n + j - S i)%nat. rewrite lookup_drop. by replace (S i + (n + j - S i))%nat with (n + j)%nat by lia. }
  pose proof (chain_below _ _ _ Hci Hlater). lia.
Qed.

(** What a scan finds is registered after the LT it goes from. *)
Lemma listed_registrations history cut ctx addr from tr ps lt :
  chain history →
  runs (I:=tonclient) (E:=λ _, listing cut history) [] (Ton.MasterScan ctx addr from) tr (Returned (ps, lt, None)) →
  ∀ p, p ∈ ps → ∃ t, registered history from t p.
Proof.
  intros Hc Hrun. destruct (scan_covers history Hc (listing cut history) (λ _ _, True) ctx addr from tr ps lt)
    as (Hsound & _); [|exact Hrun|exact Hsound].
  intros c b f x (fuel & ltr & Hfuel & _ & Hl). by exists fuel, ltr.
Qed.

End short.

(** Three registrations, of which the page has the newest. *)
Section short_example.
#[local] Existing Instances AsciiUnicode LiteClient.ex_ton.

End short_example.

(** ** The operations that store something *)
Section storing.
Context (lower : string → string) (clock : Time).   (* of the database *)
Abbreviation on_db p db := (exec_state (I:=pg) (run_sql lower clock) p db).

(** They answer an error or not; a failed one may have taken effect. *)
Definition failed (o : port) : port_ans o → Prop :=
  match o with
  | Ports.PublishResult _ _ _ _ _ | Ports.SetMasterWalletLT _ _ | Ports.UpdateLT _ _ => λ err, err ≠ None
  | _ => λ _, False
  end.

Lemma UpdateLT_keys ctx ws b :
  db_params (on_db (Postgres.UpdateLT ctx ws) b).2 = db_params b ∧
  pv_public_key <$> db_providers (on_db (Postgres.UpdateLT ctx ws) b).2 = pv_public_key <$> db_providers b.
Proof.
  destruct ws as [|w ws]; [done|]. unfold Postgres.UpdateLT, pcall. simpl.
  destruct (_ || _); [done|]. split; [done|]. cbn. rewrite <- list_fmap_compose. apply list_fmap_ext.
  intros i row _. simpl. unfold sql_update_lt. by destruct (filter _ _).
Qed.
End storing.
