(* ===== verification/Announce.v ===== *)
(** scan_master across cycles: the registrations of the chain, the agents that
    scan it, the database that holds the place to go on from, and the backend
    that stores what was announced, as one transition system.

    Any number of agents run scan_master at the same time, one operation at a
    time in any order; an agent may die between two operations, a query or a
    publication may fail, with or without its effect, the listing of a scan may
    be cut short; of such a scan the world keeps the LTs it went between. *)

From S2P Require Import Prelude GoStd Effects World Domain Ports Discovery Ton LiteClient Postgres System.

Section announce.
Context `{Unicode} `{TonUtils}.
Context (lower : string → string) (clock : Time).   (* of the database *)
Context (d : Config).

Abbreviation on_db p db := (exec_state (I:=pg) (run_sql lower clock) p db).

(** ** The world *)
Record world := mkWorld {
  w_history : list tlbTransaction;    (* of the master wallet, newest first *)
  w_db : db;
  w_results : list ScanMasterResult;  (* published in the scan_master stream *)
  w_gaps : list (Z * Z) }.            (* the LTs from and to which a scan went whose listing
                                         was cut short *)

Definition with_tx (w : world) (t : tlbTransaction) : world :=
  mkWorld (t :: w_history w) (w_db w) (w_results w) (w_gaps w).
Definition with_db (w : world) (b : db) : world := mkWorld (w_history w) b (w_results w) (w_gaps w).
Definition with_result (w : world) (r : ScanMasterResult) : world :=
  mkWorld (w_history w) (w_db w) (w_results w ++ [r]) (w_gaps w).
Definition with_gap (w : world) (from to : Z) : world :=
  mkWorld (w_history w) (w_db w) (w_results w) (w_gaps w ++ [(from, to)]).

Definition known_keys (w : world) : list string := pv_public_key <$> db_providers (w_db w).

(** The keys in the results of the stream. *)
Definition announced_keys (rs : list ScanMasterResult) : list string :=
  r ← rs; pr_PublicKey <$> sm_NewProviders r.
Definition w_published (w : world) : list string := announced_keys (w_results w).

Lemma announced_keys_snoc rs r :
  announced_keys (rs ++ [r]) = announced_keys rs ++ (pr_PublicKey <$> sm_NewProviders r).
Proof. unfold announced_keys. by rewrite bind_app, bind_singleton. Qed.

(** What a port may answer in a world: a query answers from the database or
    fails, a scan is a run of the scanner over the lite client, with a server
    that holds the history; with [gap], its listing was cut short. *)
Definition may_answer (gap : bool) (w : world) (o : port) : port_ans o → Prop :=
  match o with
  | Ports.GetMasterWalletLT ctx => λ x,
      (on_db (Postgres.GetMasterWalletLT ctx) (w_db w)).1 = Returned x ∨ ∃ e, x.2 = Some e
  | Ports.GetAllPubkeys ctx => λ x,
      (on_db (Postgres.GetAllPubkeys ctx) (w_db w)).1 = Returned x ∨ ∃ e, x.2 = Some e
  | Ports.MasterScan ctx a from => λ x,
      scan_run (whole_listing (w_history w)) (listing true (w_history w)) gap (Ton.MasterScan ctx a from) x
  | _ => λ _, True
  end.

(** What an operation leaves behind when it takes effect; of a scan whose listing
    was cut short, the world remembers from where to where it went. *)
Definition effect (gap : bool) (o : port) : port_ans o → world → world :=
  match o with
  | Ports.MasterScan ctx a from => λ x w,
      match x with (_, lt, None) => if gap then with_gap w from lt else w | _ => w end
  | Ports.PublishResult _ _ _ _ (PScanMaster r) => λ _ w, with_result w r
  | Ports.SetMasterWalletLT ctx lt => λ _ w, with_db w (on_db (Postgres.SetMasterWalletLT ctx lt) (w_db w)).2
  | Ports.UpdateLT ctx ws => λ _ w, with_db w (on_db (Postgres.UpdateLT ctx ws) (w_db w)).2
  | _ => λ _ w, w
  end.

(** The chain grows; the backend stores rows of announced providers, and may set
    the LT to that of any result in the stream. *)
Inductive outside : world → world → Prop :=
| chain_grows w t : chain (t :: w_history w) → is_u64 (tt_LT t) → outside w (with_tx w t)
| backend_stores w b :
    (db_params b !! lastLTKey = db_params (w_db w) !! lastLTKey ∨
     ∃ r, r ∈ w_results w ∧ db_params b !! lastLTKey = Some (FormatUint (sm_LastLT r))) →
    (∀ row, row ∈ db_providers b →
       pv_public_key row ∈ known_keys w ∨ pv_public_key row ∈ w_published w) →
    outside w (with_db w b).

(** A failed operation may have taken effect. *)
Definition performs (w : world) (o : port) (x : port_ans o) (w' : world) : Prop :=
  ∃ gap, may_answer gap w o x ∧ (w' = effect gap o x w ∨ failed o x ∧ w' = w).

#[local] Instance scanning_world : World ports := Build_World ports world performs outside.

(** The cycles that agents start. *)
Definition scan_master (p : prog ports (option error)) : Prop := ∃ ctx, p = CollectNewProviders d ctx.

(** An LT in the reach of a scan whose listing was cut short. *)
Definition missed (gaps : list (Z * Z)) (lt : Z) : Prop := ∃ from to, (from, to) ∈ gaps ∧ from < lt <= to.

(** ** The invariant *)
Section invariant.
Context (old_keys : list string).   (* what the database knew before the first cycle *)

(** A key was announced, or known all along, up to letter case. *)
Definition accounted (w : world) (key : string) : Prop :=
  ∃ k, (k ∈ old_keys ∨ k ∈ w_published w) ∧ ToLower k = ToLower key.

(** The registrations up to an LT are accounted for, or will be with the keys
    [pending], or were in the reach of a scan whose listing was cut short; and
    none to come is below it. *)
Definition covered (pending : list string) (w : world) (lt : Z) : Prop :=
  0 <= lt <= newest (w_history w) ∧
  ∀ t p, registered (w_history w) 0 t p → tt_LT t <= lt →
    accounted w (pr_PublicKey p) ∨ pr_PublicKey p ∈ pending ∨ missed (w_gaps w) (tt_LT t).

Definition stored_LT (b : db) (lt : Z) : Prop :=
  ∀ ctx, (on_db (Postgres.GetMasterWalletLT ctx) b).1 = Returned (lt, None).

Record well (w : world) : Prop := {
  g_chain : chain (w_history w);
  g_width : Forall (λ t, is_u64 (tt_LT t)) (w_history w);
  g_known : ∀ k, k ∈ known_keys w → k ∈ old_keys ∨ k ∈ w_published w;
  g_stored : ∃ lt, stored_LT (w_db w) lt ∧ covered [] w lt;
  g_results : ∀ r, r ∈ w_results w → covered [] w (sm_LastLT r);
  g_sound : ∀ k, k ∈ w_published w → ∃ t p, registered (w_history w) 0 t p ∧ pr_PublicKey p = k }.

(** *** What the world keeps *)
Record extends (w w' : world) : Prop := {
  la_history : ∃ new, w_history w' = new ++ w_history w;
  la_results : w_results w ⊆ w_results w';
  la_gaps : w_gaps w ⊆ w_gaps w' }.

#[local] Instance extends_preorder : PreOrder extends.
Proof.
  split.
  - intros w. split; [by exists []|done|done].
  - intros w1 w2 w3 [[n1 H1] Hp1 Hg1] [[n2 H2] Hp2 Hg2].
    split; [exists (n2 ++ n1); by rewrite H2, H1, app_assoc|set_solver|set_solver].
Qed.

Lemma extends_db w b : extends w (with_db w b).
Proof. split; [by exists []|done|done]. Qed.
Lemma extends_published w w' : extends w w' → w_published w ⊆ w_published w'.
Proof.
  intros [_ Hr _] k. unfold w_published, announced_keys. rewrite !list_elem_of_bind.
  intros (r & ? & ?). exists r. split; [done|by apply Hr].
Qed.

Lemma accounted_extends w w' key : extends w w' → accounted w key → accounted w' key.
Proof. intros Hp%extends_published (k & Hk & ?). exists k. split; [|done]. set_solver. Qed.

Lemma registered_extends w w' from t p :
  extends w w' → registered (w_history w) from t p → registered (w_history w') from t p.
Proof. intros [[new Hh] _ _] (Ht & ? & ?). split_and!; [|done..]. rewrite Hh. set_solver. Qed.

Lemma covered_extends pending w w' lt :
  extends w w' → chain (w_history w') → covered pending w lt → covered pending w' lt.
Proof.
  intros Hl Hch [Hlt Hc]. destruct (la_history _ _ Hl) as [new Hh].
  rewrite Hh in Hch. destruct (newest_app _ _ Hch) as [Hn Hnew]. split; [rewrite Hh; lia|].
  intros t p (Ht & H0' & tx & Hr) Hle. rewrite Hh in Ht. apply elem_of_app in Ht as [Ht|Ht].
  - specialize (Hnew _ Ht). lia.
  - destruct (Hc t p) as [?|[?|(f & to & Hin & ?)]]; [split_and!; [done|done|by exists tx]|done| |by right; left|].
    + left. by eapply accounted_extends.
    + right. right. exists f, to. split; [by apply (la_gaps _ _ Hl)|done].
Qed.

Lemma covered_u64 pending w lt : well w → covered pending w lt → is_u64 lt.
Proof.
  intros Hg [Hlt _]. destruct (g_width _ Hg) as [|t older Ht]; simpl in *; unfold is_u64, two64 in *; lia.
Qed.

(** *** The database *)
Lemma get_depends b b' ctx :
  db_params b' !! lastLTKey = db_params b !! lastLTKey →
  (on_db (Postgres.GetMasterWalletLT ctx) b').1 = (on_db (Postgres.GetMasterWalletLT ctx) b).1.
Proof.
  intros Hp. unfold Postgres.GetMasterWalletLT. cbn -[lastLTKey ParseUint]. rewrite Hp.
  destruct (db_params b !! lastLTKey) as [v|]; cbn -[lastLTKey ParseUint]; [|done].
  case_bool_decide; [done|]. by destruct (ParseUint v) as [lt [e|]].
Qed.

Lemma keys_read ctx b :
  (on_db (Postgres.GetAllPubkeys ctx) b).1 = Returned (pv_public_key <$> db_providers b, None).
Proof.
  unfold Postgres.GetAllPubkeys, pcall.
  rewrite (exec_state_ext (I:=pg) (run_sql lower clock) (SelectPubkeys ctx) _ b). cbn [run_sql fst snd].
  by rewrite collect_all.
Qed.

Lemma stored_text b lt : is_u64 lt → db_params b !! lastLTKey = Some (FormatUint lt) → stored_LT b lt.
Proof.
  intros Hu Hp ctx. destruct (master_LT_roundtrip lower clock ctx lt b Hu) as (_ & Hget & _).
  rewrite <- Hget. apply get_depends. unfold Postgres.SetMasterWalletLT. cbn -[FormatUint lastLTKey].
  by rewrite lookup_insert_eq.
Qed.

(** *** What keeps the world good *)

(** A step that adds to the history, the results or the gaps, and leaves the
    database good, is one more to show of what it adds. *)
Lemma well_more w w' :
  well w → extends w w' → chain (w_history w') → Forall (λ t, is_u64 (tt_LT t)) (w_history w') →
  (∀ k, k ∈ known_keys w' → k ∈ known_keys w ∨ k ∈ w_published w) →
  (∃ lt, stored_LT (w_db w') lt ∧ (stored_LT (w_db w) lt ∨ covered [] w' lt)) →
  (∀ r, r ∈ w_results w' → r ∈ w_results w ∨ covered [] w' (sm_LastLT r) ∧
     ∀ k, k ∈ pr_PublicKey <$> sm_NewProviders r → ∃ t p, registered (w_history w') 0 t p ∧ pr_PublicKey p = k) →
  well w'.
Proof.
  intros [Hc Hw Hk (lt0 & Hst0 & Hcov0) Hres Hs] Hl Hc' Hw' Hkeys (lt & Hst & Hor) Hnew.
  assert (∀ lt, covered [] w lt → covered [] w' lt) as Hcov by (intros lt'; by apply covered_extends).
  pose proof (extends_published _ _ Hl) as Hpub. split; [done|done| | | |].
  - intros k [Hin|Hin]%Hkeys; [|right; by apply Hpub]. destruct (Hk k Hin); [by left|right; by apply Hpub].
  - exists lt. split; [done|]. destruct Hor as [Hold|]; [|done].
    assert (lt = lt0) as -> by (specialize (Hold Background); rewrite Hst0 in Hold; congruence). by apply Hcov.
  - intros r [Hr|[? _]]%Hnew; [|done]. by apply Hcov, Hres.
  - intros k (r & Hkr & Hr)%list_elem_of_bind. destruct (Hnew r Hr) as [Hold|[_ Hall]]; [|by apply Hall].
    destruct (Hs k) as (t & p & ? & ?); [apply list_elem_of_bind; by exists r|].
    exists t, p. split; [by eapply registered_extends|done].
Qed.

Lemma stored_same w (P : Z → Prop) : well w → ∃ lt, stored_LT (w_db w) lt ∧ (stored_LT (w_db w) lt ∨ P lt).
Proof. intros Hg. destruct (g_stored _ Hg) as (lt & ? & ?). exists lt. auto. Qed.

Lemma good_with_db w lt ctx :
  well w → covered [] w lt →
  well (with_db w (on_db (Postgres.SetMasterWalletLT ctx lt) (w_db w)).2).
Proof.
  intros Hg Hcov. pose proof (covered_u64 _ _ _ Hg Hcov) as Hu.
  destruct (master_LT_roundtrip lower clock ctx lt (w_db w) Hu) as (_ & _ & Hrows & _).
  apply (well_more w); [done|apply extends_db|apply (g_chain _ Hg)|apply (g_width _ Hg)| | |by left].
  - intros k. unfold known_keys. cbn [w_db with_db]. rewrite Hrows. by left.
  - exists lt. split; [|by right]. intros ctx'.
    exact (proj1 (proj2 (master_LT_roundtrip lower clock ctx lt (w_db w) Hu))).
Qed.

(** *** What others do keeps the world good *)
Lemma good_grown w t :
  well w → chain (t :: w_history w) → is_u64 (tt_LT t) → well (with_tx w t) ∧ extends w (with_tx w t).
Proof.
  intros Hg Hc Hu. assert (extends w (with_tx w t)) as Hl by (split; [by exists [t]|done|done]). split; [|done].
  apply (well_more w); [done|done|done| |by left|by apply (stored_same w)|by left].
  constructor; [done|apply (g_width _ Hg)].
Qed.

Lemma well_stored w b :
  (db_params b !! lastLTKey = db_params (w_db w) !! lastLTKey ∨
   ∃ r, r ∈ w_results w ∧ db_params b !! lastLTKey = Some (FormatUint (sm_LastLT r))) →
  (∀ row, row ∈ db_providers b → pv_public_key row ∈ known_keys w ∨ pv_public_key row ∈ w_published w) →
  well w → well (with_db w b).
Proof.
  intros Hb Hrows Hg.
  apply (well_more w); [done|apply extends_db|apply (g_chain _ Hg)|apply (g_width _ Hg)| | |by left].
  - intros k (row & -> & Hrow)%list_elem_of_fmap. by apply Hrows.
  - destruct Hb as [Hb|(r & Hr & Hb)].
    + destruct (g_stored _ Hg) as (lt & Hst & _). exists lt. split; [|by left].
      intros ctx. rewrite <- (Hst ctx). by apply get_depends.
    + pose proof (g_results _ Hg r Hr) as Hcov. exists (sm_LastLT r). split; [|right].
      * apply stored_text; [by eapply covered_u64|done].
      * eapply covered_extends; [apply extends_db|apply (g_chain _ Hg)|done].
Qed.

Lemma outside_well w w' : well w → outside w w' → well w' ∧ extends w w'.
Proof.
  intros Hg Ho. destruct Ho as [w t Hc Hu|w b Hb Hrows]; [exact (good_grown w t Hg Hc Hu)|].
  split; [by apply well_stored|apply extends_db].
Qed.

#[local] Instance scanning_rely : Rely scanning_world :=
  Build_Rely ports scanning_world well extends extends_preorder outside_well.

(** *** scan_master keeps the world good *)

(** What a scan says, in order or cut short: a sound listing. *)
Lemma scan_sound w gap ctx a from ps lt :
  well w → may_answer gap w (Ports.MasterScan ctx a from) (ps, lt, None) →
  (∀ p, p ∈ ps → ∃ t, registered (w_history w) from t p) ∧
  (lt = from ∨ ∃ t, t ∈ w_history w ∧ tt_LT t = lt) ∧
  (gap = false → ∀ t p, registered (w_history w) from t p → pr_PublicKey p ∈ pr_PublicKey <$> ps).
Proof.
  intros Hg Hrun. set (L := λ o x, whole_listing (w_history w) o x ∨ gap = true ∧ listing true (w_history w) o x).
  assert (∃ tr, runs (I:=tonclient) (E:=λ _, L) [] (Ton.MasterScan ctx a from) tr (Returned (ps, lt, None))) as [tr Hr].
  { destruct gap; [destruct Hrun as (tr & Hr & _)|destruct Hrun as (tr & Hr)]; exists tr;
      (eapply runs_weaken; [|exact Hr]); intros o x; unfold L; naive_solver. }
  destruct (scan_covers (w_history w) (g_chain _ Hg) L (λ _ ltr, gap = true ∨ ¬ cut_short ltr) ctx a from tr ps lt)
    as (Hsound & Hlt & fuel & ltr & txs & Hwhole & _ & Hrest); [|exact Hr|].
  { intros c b from' x [(fuel & ltr & Hfuel & Hcut & Hl)|[-> (fuel & ltr & Hfuel & Hcut & Hl)]]; exists fuel, ltr; auto. }
  split_and!; [done|done|]. intros ->. destruct Hwhole as [|Hwhole]; [done|].
  destruct Hrest as [|[Hall _]]; [done|exact Hall].
Qed.

(** A scan from an LT that is covered: what it found covers its own LT, but for
    what it missed; and was registered. *)
Lemma scan_found w gap ctx a from ps lt :
  well w → covered [] w from → may_answer gap w (Ports.MasterScan ctx a from) (ps, lt, None) →
  let w' := effect gap (Ports.MasterScan ctx a from) (ps, lt, None) w in
  covered (pr_PublicKey <$> ps) w' lt ∧ ∀ p, p ∈ ps → ∃ t, registered (w_history w') 0 t p.
Proof.
  intros Hg [Hfrom Hcov] Hrun w'. destruct (scan_sound w gap ctx a from ps lt Hg Hrun) as (Hsound & Hlt & Hall).
  assert (w_history w' = w_history w ∧ w_results w' = w_results w ∧ w_gaps w ⊆ w_gaps w') as (Hh & Hres & Hgaps)
    by (unfold w'; destruct gap; split_and!; cbn; [done|done|set_solver|done..]).
  split.
  - split; rewrite Hh.
    + destruct Hlt as [-> |(t & Ht & <-)]; [done|]. split; [|by apply newest_max; [apply (g_chain _ Hg)|]].
      by apply Z.lt_le_incl, (chain_pos _ _ (g_chain _ Hg)).
    + intros t p Hr Hle. destruct (Z.le_gt_cases (tt_LT t) from) as [Hold|Hnew].
      * destruct (Hcov t p Hr Hold) as [(k & Hk & ?)|[?%elem_of_nil|(f & to & Hin & ?)]]; [left|done|right; right].
        -- exists k. unfold w_published in *. rewrite Hres. done.
        -- exists f, to. split; [by apply Hgaps|done].
      * right. destruct gap; [right; exists from, lt; split; [cbn; set_solver|lia]|left].
        apply (Hall eq_refl t). destruct Hr as (Ht & _ & Hr). split_and!; [done|lia|done].
  - intros p (t & Ht & Hf & Hr)%Hsound. exists t. rewrite Hh. split_and!; [done|lia|done].
Qed.

(** Publishing a scan accounts for what it found, except what is known. *)
Lemma accounted_published w ks ps q :
  (∀ k, k ∈ ks → k ∈ old_keys ∨ k ∈ w_published w) →
  (pr_PublicKey <$> new_providers (known_set ks) ps) ⊆ w_published w →
  q ∈ pr_PublicKey <$> ps → accounted w q.
Proof.
  intros Hks Hpub (p & -> & Hp)%list_elem_of_fmap.
  destruct (decide (ToLower (pr_PublicKey p) ∈ known_set ks)) as [Hin|Hout].
  - unfold known_set in Hin. apply elem_of_list_to_set, list_elem_of_fmap in Hin as (k & Heq & Hk).
    exists k. split; [by apply Hks|done].
  - exists (pr_PublicKey p). split; [|done]. right. apply Hpub, list_elem_of_fmap_2.
    unfold new_providers. by apply list_elem_of_filter.
Qed.

Lemma covered_published w ks ps lt :
  (∀ k, k ∈ ks → k ∈ old_keys ∨ k ∈ w_published w) →
  (pr_PublicKey <$> new_providers (known_set ks) ps) ⊆ w_published w →
  covered (pr_PublicKey <$> ps) w lt → covered [] w lt.
Proof.
  intros Hks Hpub [Hlt Hc]. split; [done|]. intros t p Hr Hle.
  destruct (Hc t p Hr Hle) as [?|[Hp|?]]; [by left|left; by eapply accounted_published|by right; right].
Qed.

Lemma extends_result w r : extends w (with_result w r).
Proof. split; [by exists []|cbn; set_solver|done]. Qed.
Lemma published_result w r : w_published (with_result w r) = w_published w ++ (pr_PublicKey <$> sm_NewProviders r).
Proof. apply announced_keys_snoc. Qed.

Lemma good_published w r :
  well w → covered [] (with_result w r) (sm_LastLT r) →
  (∀ k, k ∈ pr_PublicKey <$> sm_NewProviders r → ∃ t p, registered (w_history w) 0 t p ∧ pr_PublicKey p = k) →
  well (with_result w r).
Proof.
  intros Hg Hcov Hks. apply (well_more w); [done|apply extends_result|apply (g_chain _ Hg)|apply (g_width _ Hg)|by left|by apply (stored_same w)|].
  intros r' [Hr|Hr]%elem_of_app; [by left|right]. apply list_elem_of_singleton in Hr as ->. by split.
Qed.

Lemma good_gap w from to : well w → well (with_gap w from to) ∧ extends w (with_gap w from to).
Proof.
  intros Hg. assert (extends w (with_gap w from to)) as Hl by (split; [by exists []|done|cbn; set_solver]). split; [|done].
  apply (well_more w); [done|done|apply (g_chain _ Hg)|apply (g_width _ Hg)|by left|by apply (stored_same w)|by left].
Qed.

(** The last operations of the cycle: the checkpoint. *)
Lemma checkpoint_safe ctx (from lt : Z) w :
  covered [] w lt →
  safe (if from <? lt then _ ← call (Ports.SetMasterWalletLT ctx lt); mret None
        else mret (M:=prog ports) (None : option error)) (λ _ _, True) w.
Proof.
  intros Hcov. destruct (from <? lt); [|done]. apply safe_call. intros x w1 w2 Hl Hg (gap & _ & Hw).
  assert (well w2 ∧ extends w1 w2) as [? ?].
  { destruct Hw as [-> |[_ ->]]; [|done]. split; [|apply extends_db].
    apply good_with_db; [done|]. eapply covered_extends; [exact Hl|apply (g_chain _ Hg)|done]. }
  by split_and!.
Qed.

(** An operation that only reads. *)
Lemma safe_query {R} (o : port) (k : port_ans o → prog ports R) Q w :
  (∀ gap x w1, effect gap o x w1 = w1) →
  (∀ gap x w1, extends w w1 → well w1 → may_answer gap w1 o x → safe (k x) Q w1) →
  safe (call o ≫= k) Q w.
Proof.
  intros Ho Hk. apply safe_read.
  - intros x w1 w2 (gap & _ & Hw). rewrite Ho in Hw. tauto.
  - intros x w1 Hl Hg (gap & Hx & _). by eapply Hk.
Qed.

(** A scan changes the world only by its gap. *)
Lemma scan_keeps w gap ctx a from x w' :
  well w → w' = effect gap (Ports.MasterScan ctx a from) x w → well w' ∧ extends w w'.
Proof. intros Hg ->. destruct x as [[ps lt] [e|]]; [done|]. destruct gap; [by apply good_gap|done]. Qed.

Lemma cycle_safe p w : scan_master p → well w → safe p (λ _ _, True) w.
Proof.
  intros [ctx ->] _. unfold CollectNewProviders. apply safe_query; [done|]. intros g1 [from [e|]] w1 _ Hg1 Hx; [done|].
  destruct Hx as [Hget|[e He]]; [|done]. destruct (g_stored _ Hg1) as (lt0 & Hst & Hcov1).
  rewrite Hst in Hget. injection Hget as ->. clear Hst.
  apply safe_query; [done|]. intros g2 [ks [e|]] w2 Hl2 Hg2 Hx; [done|].
  destruct Hx as [Hks|[e He]]; [|done]. rewrite keys_read in Hks. injection Hks as <-.
  pose proof (g_known _ Hg2) as Hknown. change (pv_public_key <$> db_providers (w_db w2)) with (known_keys w2).
  set (ks := known_keys w2) in *. clearbody ks.
  apply safe_call. intros [[ps lt] err] w3 w4 Hl3 Hg3 (gap & Hx & Hw). destruct Hw as [Hw|[[] _]].
  destruct (scan_keeps w3 gap _ _ _ _ _ Hg3 Hw) as [Hg4 Hl4]. split_and!; [done|done|].
  destruct err as [e|]; [done|].
  apply (covered_extends _ _ w3) in Hcov1; [|by etrans|apply (g_chain _ Hg3)].
  destruct (scan_found _ _ _ _ _ _ _ Hg3 Hcov1 Hx) as [Hcov Hreg]. rewrite <- Hw in Hcov, Hreg. clear Hcov1 Hx Hw.
  set (r := mkScanMasterResult _ _ _). apply safe_call. intros err w5 w6 Hl5 Hg5 (gap' & _ & Hw).
  assert (covered [] (with_result w5 r) lt) as Hcov6.
  { apply (covered_published _ ks ps).
    - intros k Hk. destruct (Hknown k Hk) as [|Hp]; [by left|right]. rewrite published_result. apply elem_of_app. left.
      apply (extends_published _ _ Hl5), (extends_published _ _ Hl4), (extends_published _ _ Hl3), Hp.
    - rewrite published_result. set_solver.
    - apply (covered_extends _ w4); [|apply (g_chain _ Hg5)|done]. etrans; [exact Hl5|apply extends_result]. }
  assert (well w6 ∧ extends w5 w6 ∧ (err = None → covered [] w6 lt)) as (Hg6 & Hl6 & Hcov7).
  { destruct Hw as [-> |[Hf ->]]; [|by split_and!]. split_and!; [|apply extends_result|done].
    apply good_published; [done|done|]. intros k (p & -> & Hp)%list_elem_of_fmap. destruct (Hreg p) as [t Ht].
    - eapply elem_of_submseteq; [exact Hp|apply sublist_submseteq, new_providers_sublist].
    - exists t, p. split; [by eapply registered_extends|done]. }
  split_and!; [done|done|]. destruct err as [e|]; [done|]. apply checkpoint_safe. by apply Hcov7.
Qed.

(** *** Other operations keep the world good *)
Definition quiet (o : fop ports) : Prop :=
  match o with
  | Ext (Ports.SetMasterWalletLT _ _) | Ext (Ports.PublishResult _ _ _ _ (PScanMaster _)) => False
  | _ => True
  end.

Lemma wallet_LTs_well w ctx ws :
  well w → let w' := with_db w (on_db (Postgres.UpdateLT ctx ws) (w_db w)).2 in well w' ∧ extends w w'.
Proof.
  intros Hg w'. destruct (UpdateLT_keys lower clock ctx ws (w_db w)) as [Hp Hk].
  split; [|apply extends_db]. apply well_stored; [left; by rewrite Hp| |done].
  intros row Hrow. left. unfold known_keys. rewrite <- Hk. by apply list_elem_of_fmap_2.
Qed.

Lemma quiet_well (o : port) x w w' : quiet (@Ext ports o) → well w → performs w o x w' → well w' ∧ extends w w'.
Proof.
  intros Hq Hg (gap & _ & [Hw|[_ ->]]); [|done].
  destruct o; try (simpl in Hw; subst; done); [by eapply scan_keeps|subst; by apply wallet_LTs_well|].
  subst. by destruct p.
Qed.

Lemma quiet_keeps {R} (p : prog ports R) :
  only quiet (λ _, True) p → keeps p.
Proof. intros Hp. eapply only_keeps; [exact Hp|]. intros o x w w'. apply quiet_well. Qed.

Lemma scan_master_keeps ctx : keeps (CollectNewProviders d ctx).
Proof. apply (safe_keeps _ (λ _ _, True)). intros w Hg. apply cycle_safe; [by exists ctx|done]. Qed.
End invariant.

(** A first start: nothing scanned, nothing published. *)
Definition fresh (w : world) : Prop :=
  chain (w_history w) ∧ Forall (λ t, is_u64 (tt_LT t)) (w_history w) ∧
  db_params (w_db w) !! lastLTKey = None ∧ w_results w = [] ∧ w_gaps w = [].

Lemma fresh_well w : fresh w → well (known_keys w) w.
Proof.
  intros (Hc & Hu & Hp & Hres & _). split; [done|done|by left| |rewrite Hres; by intros r ?%elem_of_nil|].
  - exists 0. split; [intros ctx; exact (master_LT_initial lower clock ctx (w_db w) Hp)|]. split.
    + destruct (w_history w) as [|t older]; [done|]. simpl in *. lia.
    + intros t p (_ & Hlt & _) Hle. lia.
  - unfold w_published. rewrite Hres. by intros k ?%elem_of_nil.
Qed.

(** In a world: the LT stored in the database can be read, the registrations up
    to it were published or known, unless in the reach of a scan whose listing
    was cut short; and what was published was registered. *)
Definition registrations_kept (old_keys : list string) (w : world) : Prop :=
  ∃ lt, (∀ ctx, (on_db (Postgres.GetMasterWalletLT ctx) (w_db w)).1 = Returned (lt, None)) ∧
    lt <= newest (w_history w) ∧
    (∀ t p, registered (w_history w) 0 t p → tt_LT t <= lt →
       (∃ k, (k ∈ old_keys ∨ k ∈ w_published w) ∧ ToLower k = ToLower (pr_PublicKey p)) ∨
       missed (w_gaps w) (tt_LT t)) ∧
    ∀ k, k ∈ w_published w → ∃ t p, registered (w_history w) 0 t p ∧ pr_PublicKey p = k.

Lemma well_registrations old_keys w : well old_keys w → registrations_kept old_keys w.
Proof.
  intros Hg. destruct (g_stored _ _ Hg) as (lt & Hst & Hlt & Hcov). exists lt.
  split_and!; [done|lia| |apply (g_sound _ _ Hg)].
  intros t p Hr Hle. destruct (Hcov t p Hr Hle) as [?|[?%elem_of_nil|?]]; [by left|done|by right].
Qed.

(** C4. No registration is lost, except behind a listing that was cut short.
    From a first start, however the cycles of any number of agents interleave
    with each other, with the chain and with the backend, which may also set the
    LT to that of any result, wherever agents die, and whatever fails: the LT
    stored in the database can be read; every key registered on chain up to it
    was published in a scan_master result, or was in the database from the
    start, up to letter case, or else its transaction is newer than the LT from
    which some scan went whose listing was cut short by a deadline or by -400,
    and not newer than the LT which that scan returned; and only registered keys
    are published.  [short_listing_loses_registrations] shows that the exception
    is one: such a registration can be lost. *)
Theorem no_registration_lost (w0 w : world) ps :
  fresh w0 → rtc (step scan_master) (w0, []) (w, ps) →
  ∃ lt, (∀ ctx, (on_db (Postgres.GetMasterWalletLT ctx) (w_db w)).1 = Returned (lt, None)) ∧
    lt <= newest (w_history w) ∧
    (∀ t p, registered (w_history w) 0 t p → tt_LT t <= lt →
       (∃ k, (k ∈ known_keys w0 ∨ k ∈ w_published w) ∧ ToLower k = ToLower (pr_PublicKey p)) ∨
       ∃ from to, (from, to) ∈ w_gaps w ∧ from < tt_LT t <= to) ∧
    ∀ k, k ∈ w_published w → ∃ t p, registered (w_history w) 0 t p ∧ pr_PublicKey p = k.
Proof.
  intros Hf Hsteps.
  pose proof (reachable_good (G:=scanning_rely (known_keys w0)) scan_master (cycle_safe (known_keys w0)) _ _ Hsteps (fresh_well _ Hf)) as Hg.
  exact (well_registrations _ _ Hg).
Qed.
End announce.

(** ** A cycle that announces a registration *)
Section example.
#[local] Existing Instance AsciiUnicode.
#[local] Existing Instance ex_ton.

Definition ex_history : list tlbTransaction := [gap_tx 1 0 "1"].
Definition ex_key : string := of_bytes (replicate 63 "a"%char) +:+ "1".
Definition ex_tx : Transaction := mkTransaction "" 1 0 gap_from "master" ("tsp-" +:+ ex_key) 0.
Definition ex_scanned : Provider := mkProvider ex_key gap_from 0 0.
Definition ex_scan_server (o : liteop) : liteop_ans o :=
  match o with
  | GetMasterchainInfo _ => (tt, None)
  | GetAccount _ _ _ => (mkAccount 1 "", None)
  | ListTransactions _ _ _ lt _ => (rev (take 1 (from_LT lt ex_history)), None)
  | GetStorageInfoV1 _ _ _ => (None, None)
  | GetProvidersV1 _ _ _ => ([], 0, None)
  end.
Definition ex_requests (ctx : Ctx) : trace lite :=
  [ @Ev lite (@Ext lite (GetMasterchainInfo ctx)) (tt, None);
    @Ev lite (@Ext lite (GetAccount ctx tt "EQ")) (mkAccount 1 "", None);
    @Ev lite (@Ext lite (ListTransactions ctx "EQ" batch 1 "")) (ex_history, None);
    @Ev lite (@Ext lite (ListTransactions ctx "EQ" batch 0 "")) ([], None) ].
Definition failed_listing (ev : event lite) : bool :=
  match ev with Ev (Ext (ListTransactions _ _ _ _ _)) (_, Some _) => true | _ => false end.

Lemma not_cut_short (tr : trace lite) : Forall (λ ev, failed_listing ev = false) tr → ¬ cut_short tr.
Proof.
  intros Hall (c & a & lt & h & res & e & Hin & _). rewrite Forall_forall in Hall. by specialize (Hall _ Hin).
Qed.

Lemma ex_listing ctx :
  whole_listing ex_history (Ton.GetTransactions ctx "EQ" 0) ([Some ex_tx], None).
Proof.
  exists 10%nat, (ex_requests ctx). split; [simpl; lia|].
  split; [apply not_cut_short; by repeat constructor|].
  apply (exec_runs (calm (I:=lite) ex_scan_server) _ tt); [vm_compute; reflexivity|].
  split; [done|]. split; [by intros _|]. split; [by exists 0%nat|]. split; [by exists 0%nat|done].
Qed.

(** The scan that finds the registration. *)
Definition ex_client (o : tonop) : tonop_ans o :=
  match o with
  | Ton.GetTransactions _ _ _ => ([Some ex_tx], None)
  | Ton.GetStorageContractsInfo _ _ => ([], None)
  | Ton.GetProvidersInfo _ _ => ([], None)
  end.
Lemma ex_scan ctx :
  scan_run (whole_listing ex_history) (listing true ex_history) false (Ton.MasterScan ctx "EQ" 0) ([ex_scanned], 1, None).
Proof.
  exists [@Ev tonclient (@Ext tonclient (Ton.GetTransactions (WithTimeout ctx getTxTimeout) "EQ" 0)) ([Some ex_tx], None);
          @Ev tonclient (Go (RangeKeys [ex_key])) [ex_key]].
  apply (exec_runs (calm (I:=tonclient) ex_client) _ tt); [vm_compute; reflexivity|].
  split; [apply ex_listing|]. split; [apply Permutation_refl|exact I].
Qed.

(** The agent's configuration, and a database that knows another provider. *)
Definition ex_config : Config := mkConfig "EQ" 0 "m" "w" "r".
Definition ex_start : world := mkWorld ex_history ex_db [] [].
#[local] Existing Instance scanning_world.

(** The only agent's next operation, with its answer. *)
Ltac calls o x answered_by :=
  eapply rtc_l;
    [eapply (step_call (W:=scanning_world id 0) _ _ _ [] _ o _ x []); exists false; split; [answered_by|left; reflexivity]|].

Lemma ex_steps :
  ∃ w ps, rtc (step (W:=scanning_world id 0) (scan_master ex_config)) (ex_start, []) (w, ps) ∧
    w_published w = [ex_key] ∧ w_gaps w = [] ∧ db_params (w_db w) !! lastLTKey = Some "1".
Proof.
  eexists _, _. split.
  { eapply rtc_l; [apply (step_start (W:=scanning_world id 0) (scan_master ex_config) ex_start [] (CollectNewProviders ex_config Background)); by exists Background|].
    calls (Ports.GetMasterWalletLT Background) (0, @None error) ltac:(left; reflexivity).
    calls (Ports.GetAllPubkeys Background) (["aa"], @None error) ltac:(left; reflexivity).
    calls (Ports.MasterScan Background "EQ" 0) ([ex_scanned], 1, @None error) ltac:(apply ex_scan).
    calls (Ports.PublishResult Background "m" "" CycleScanMaster
             (PScanMaster (mkScanMasterResult [ex_scanned] 1 1))) (@None error) ltac:(exact I).
    calls (Ports.SetMasterWalletLT Background 1) (@None error) ltac:(exact I).
    apply rtc_refl. }
  vm_compute. done.
Qed.

Lemma ex_start_fresh : fresh ex_start.
Proof. split_and!; [simpl; lia|by repeat constructor|done..]. Qed.

Lemma no_registration_lost_witness :
  fresh ex_start ∧ ∃ w ps, rtc (step (W:=scanning_world id 0) (scan_master ex_config)) (ex_start, []) (w, ps) ∧
    w_published w = [ex_key] ∧ w_gaps w = [] ∧ db_params (w_db w) !! lastLTKey = Some "1" ∧
    ∃ lt, (∀ ctx, (exec_state (I:=pg) (run_sql id 0) (Postgres.GetMasterWalletLT ctx) (w_db w)).1
                  = Returned (lt, None)) ∧
      lt <= newest (w_history w) ∧
      (∀ t p, registered (w_history w) 0 t p → tt_LT t <= lt →
         (∃ k, (k ∈ known_keys ex_start ∨ k ∈ w_published w) ∧ ToLower k = ToLower (pr_PublicKey p)) ∨
         ∃ from to, (from, to) ∈ w_gaps w ∧ from < tt_LT t <= to) ∧
      ∀ k, k ∈ w_published w → ∃ t p, registered (w_history w) 0 t p ∧ pr_PublicKey p = k.
Proof.
  split; [exact ex_start_fresh|]. destruct ex_steps as (w & ps & Hsteps & Hpub & Hgaps & Hlt).
  exists w, ps. split; [exact Hsteps|]. split; [exact Hpub|]. split; [exact Hgaps|]. split; [exact Hlt|].
  exact (no_registration_lost id 0 ex_config ex_start w ps ex_start_fresh Hsteps).
Defined.
End example.
