(* ===== verification/Wallets.v ===== *)
(** scan_wallets across cycles: the withdrawals of storage rewards that
    contracts pay to the providers' wallets, the agents that scan the wallets,
    the database that holds the place to go on from for each, and the backend
    that stores providers, as one transition system, in the way of Announce.  A scan
    may be disturbed: its listing cut short, or a contract not read. *)

From stdpp Require Import functions.
From S2P Require Import Prelude GoStd Effects World Domain Ports Discovery Ton LiteClient Postgres System.

(** ** A wallet scanned over the lite client *)
Section scan.
Context `{TonUtils}.
Context (storage_contract : Address → Prop).   (* the accounts that are storage contracts *)
Implicit Types (history : list tlbTransaction) (tr : trace lite).

(** The contract [c] paid a reward with transaction [t]; and its address is
    that of a storage contract. *)
Definition paid history (t : tlbTransaction) (c : string) : Prop :=
  t ∈ history ∧ 0 < tt_LT t ∧
  ∃ tx, parsed t = Some tx ∧ tx_Op tx = StorageRewardWithdrawalOpCode ∧ tx_From tx = c.
Definition contract_address (c : string) : Prop := ∃ a, ParseAddr c = inl a ∧ storage_contract a.

(** A request for a storage contract's data that failed or found nothing. *)
Definition unreadable tr : Prop :=
  ∃ ctx block a info err, info_event ctx block a (info, err) ∈ tr ∧ storage_contract a ∧
    (err ≠ None ∨ info = None).

(** Undisturbed answers: whole listings, and the data of every contract. *)
Definition undisturbed (histories : string → list tlbTransaction) (o : tonop) : tonop_ans o → Prop :=
  match o with
  | Ton.GetTransactions ctx a lt => whole_listing (histories a) (Ton.GetTransactions ctx a lt)
  | Ton.GetStorageContractsInfo ctx addrs => λ x,
      ∃ tr, ¬ unreadable tr ∧ runs (E:=any_env lite) [] (GetStorageContractsInfo ctx addrs) tr (Returned x)
  | _ => λ _, True
  end.

(** Disturbed ones: a listing that was cut short, or a contract that was asked for
    and not read. *)
Definition disturbed (histories : string → list tlbTransaction) (o : tonop) : tonop_ans o → Prop :=
  match o with
  | Ton.GetTransactions ctx a lt => listing true (histories a) (Ton.GetTransactions ctx a lt)
  | Ton.GetStorageContractsInfo ctx addrs => λ x,
      ∃ tr, unreadable tr ∧ runs (E:=any_env lite) [] (GetStorageContractsInfo ctx addrs) tr (Returned x)
  | _ => λ _, False
  end.

Lemma latest_LT_pos txs tx c :
  tx ∈ withdrawals txs → tx_From tx = c → 0 < tx_LT tx → 0 < latest_LT c txs.
Proof.
  intros Hin Hc Hpos. unfold latest_LT.
  destruct (foldl_max_ge (tx_LT <$> filter (λ tx, tx_From tx = c) (withdrawals txs)) 0) as [_ Hge].
  specialize (Hge (tx_LT tx)). assert (tx_LT tx <= foldl Z.max 0 (tx_LT <$> filter (λ tx, tx_From tx = c) (withdrawals txs))).
  { apply Hge, list_elem_of_fmap_2, list_elem_of_filter. done. }
  lia.
Qed.

Lemma latest_LT_from txs c :
  0 < latest_LT c txs → ∃ tx, tx ∈ withdrawals txs ∧ tx_From tx = c ∧ 0 < tx_LT tx.
Proof.
  unfold latest_LT. intros Hpos.
  destruct (foldl_max_in (tx_LT <$> filter (λ tx, tx_From tx = c) (withdrawals txs)) 0) as [Heq|Hin]; [lia|].
  apply list_elem_of_fmap in Hin as (tx & Heq & [Hc Htx]%list_elem_of_filter). exists tx. split_and!; [done|done|lia].
Qed.

(** The withdrawals a listing returns: of the history, and all that are after
    [from] unless it was cut short. *)
Lemma listed_withdrawals cut histories ctx a from txs :
  chain (histories a) →
  listing cut (histories a) (Ton.GetTransactions ctx a from) (txs, None) →
  (∀ tx, tx ∈ withdrawals txs → ∃ t, t ∈ histories a ∧ parsed t = Some tx ∧ tx_LT tx = tt_LT t) ∧
  (cut = false → ∀ t c, paid (histories a) t c → from < tt_LT t →
    ∃ tx, tx ∈ withdrawals txs ∧ tx_From tx = c ∧ tx_LT tx = tt_LT t).
Proof.
  intros Hchain (fuel & ltr & Hfuel & Hcut & Hrun).
  pose proof (proj1 (wp_runs _ _ _) (GetTransactions_wp _ Hchain fuel ctx a from Hfuel) _ _ Hrun)
    as (got & (n & Hgot & Hrest) & ->).
  assert (∀ tx, tx ∈ withdrawals (Some <$> omap parsed got) ↔
            tx_Op tx = StorageRewardWithdrawalOpCode ∧ ∃ t, t ∈ got ∧ parsed t = Some tx) as Hin.
  { intros tx. unfold withdrawals. rewrite list_elem_of_filter, list_elem_of_omap.
    setoid_rewrite list_elem_of_fmap. setoid_rewrite list_elem_of_omap. naive_solver. }
  split.
  - intros tx [_ (t & Ht & Hp)]%Hin. exists t. split_and!; [|done|by apply parsed_LT].
    rewrite Hgot in Ht. eapply elem_of_subseteq; [apply subseteq_take|exact Ht].
  - intros -> t c (Ht & _ & tx & Hp & Hop & Hc) Hlt. destruct Hrest as [|Hold]; [done|].
    exists tx. split_and!; [|done|by apply parsed_LT].
    apply Hin. split; [done|]. exists t. split; [|done]. rewrite Hgot.
    rewrite <- (take_drop n (histories a)) in Ht. apply elem_of_app in Ht as [|Ht]; [done|].
    rewrite Forall_forall in Hold. specialize (Hold t Ht). simpl in Hold. lia.
Qed.

(** Contracts that were asked for and are storage contracts are read. *)
Lemma contracts_read histories ctx addrs infos c :
  undisturbed histories (Ton.GetStorageContractsInfo ctx addrs) (infos, None) →
  c ∈ addrs → contract_address c → ∃ info, info ∈ infos ∧ in_Address info = c.
Proof.
  intros (tr & Hread & Hrun) Hc (a & Ha & Hsc).
  destruct (GetStorageContractsInfo_result ctx addrs tr _ Hrun)
    as [[e He]|(block & contracts & [= ->] & rs & Hrs & ->)]; [done|].
  apply list_elem_of_lookup in Hc as [i Hi]. destruct (Forall2_lookup_l _ _ _ _ _ Hrs Hi) as (r & Hr & Hentry).
  destruct r as [info|]; simpl in Hentry.
  - exists info. split; [|by destruct Hentry as (addr & si & _ & _ & ->)].
    apply list_elem_of_omap. exists (Some info). split; [by eapply list_elem_of_lookup_2|done].
  - destruct Hread. destruct Hentry as [[e He]|(addr & info & err & Hp & Hev & Hno)]; [congruence|].
    assert (addr = a) as -> by congruence. by exists ctx, block, a, info, err.
Qed.

(** A scan of a wallet: what it returns was paid to it, and, if nothing was
    disturbed, all that storage contracts paid after [from] is among it. *)
Lemma wallet_scan_covers histories gap ctx a from cs lt :
  chain (histories a) →
  scan_run (undisturbed histories) (disturbed histories) gap (Ton.WalletScan ctx a from) (cs, lt, None) →
  (∀ c, c ∈ cs → sc_Providers c = [a] ∧ ∃ t, paid (histories a) t (sc_Address c)) ∧
  (lt = from ∨ ∃ t, t ∈ histories a ∧ tt_LT t = lt) ∧
  (gap = false → ∀ t c, paid (histories a) t c → from < tt_LT t → contract_address c →
    ∃ sc, sc ∈ cs ∧ sc_Address sc = c).
Proof.
  intros Hchain Hscan.
  set (L := λ o x, undisturbed histories o x ∨ gap = true ∧ disturbed histories o x).
  assert (∃ tr : trace tonclient, runs (I:=tonclient) (E:=λ _, L) [] (Ton.WalletScan ctx a from) tr (Returned (cs, lt, None))) as [tr Hrun].
  { destruct gap; [destruct Hscan as (tr & Hr & _)|destruct Hscan as (tr & Hr)]; exists tr;
      (eapply runs_weaken; [|exact Hr]); intros o x; unfold L; naive_solver. }
  pose proof Hrun as Hany. apply runs_any in Hany.
  destruct (proj1 (wp_runs _ _ _) (WalletScan_wp ctx a from) _ _ Hany) as (cs' & lt' & rerr & Hret & Hpost).
  injection Hret as <- <- <-. destruct Hpost as (txs & Hans & Hlt & _ & Hcs).
  assert (∃ cut, listing cut (histories a) (Ton.GetTransactions (WithTimeout ctx getTxTimeout) a from) (txs, None) ∧
            (gap = false → cut = false)) as (cut & Hlist & Hcut).
  { destruct (runs_law _ _ _ _ _ _ _ Hrun Hans) as [Hl|[-> Hl]]; [by exists false|by exists true]. }
  destruct (listed_withdrawals _ _ _ _ _ _ Hchain Hlist) as [Hsub Hall].
  split_and!.
  - intros c Hc. destruct Hcs as [[_ ->]|(addrs & infos & _ & _ & _ & ->)]; [by apply elem_of_nil in Hc|].
    apply list_elem_of_fmap in Hc as (info & -> & [Hpos _]%list_elem_of_filter). split; [done|].
    apply latest_LT_from in Hpos as (tx & Htx & Hfrom & Hpos). pose proof (Hsub tx Htx) as (t & Ht & Hp & HLT).
    exists t. split_and!; [done|lia|]. exists tx. split_and!; [done| |done].
    by apply list_elem_of_filter in Htx as [? _].
  - destruct (foldl_max_in (tx_LT <$> withdrawals txs) from) as [Heq|Hin]; [left; congruence|right].
    apply list_elem_of_fmap in Hin as (tx & Heq & (t & Ht & _ & HLT)%Hsub). exists t. split; [done|congruence].
  - intros -> t c Hpaid Hafter Haddr. destruct (Hall (Hcut eq_refl) t c Hpaid Hafter) as (tx & Htx & Hfrom & HLT).
    assert (0 < latest_LT c txs) as Hpos.
    { eapply latest_LT_pos; [exact Htx|done|]. destruct Hpaid as (_ & ? & _). lia. }
    destruct Hcs as [[Hno _]|(addrs & infos & _ & Haddrs & Hinfos & ->)]; [specialize (Hno c); lia|].
    destruct (runs_law _ _ _ _ _ _ _ Hrun Hinfos) as [Hread|[? _]]; [|done].
    destruct (contracts_read _ _ _ _ c Hread) as (info & Hinfo & <-); [by apply Haddrs|done|].
    eexists. split; [by apply list_elem_of_fmap_2, list_elem_of_filter|done].
Qed.
End scan.

Section wallets.
Context `{Unicode} `{TonUtils}.
Context (storage_contract : Address → Prop).
Context (wallet_of : string → string).         (* the wallet a provider's key was registered with *)
Context (lower : string → string) (clock : Time).   (* of the database *)
Context (d : Config).

Abbreviation on_db p db := (exec_state (I:=pg) (run_sql lower clock) p db).

(** ** The world *)
Record world := mkWorld {
  w_history : string → list tlbTransaction;   (* of each wallet, newest first *)
  w_db : db;
  w_results : list ScanWalletsResult;         (* published in the scan_wallets stream *)
  w_gaps : list (string * (Z * Z)) }.         (* the wallet, and the LTs from and to which a scan
                                                 of it went that was disturbed *)

Definition with_tx (w : world) (a : string) (t : tlbTransaction) : world :=
  mkWorld (<[a := t :: w_history w a]> (w_history w)) (w_db w) (w_results w) (w_gaps w).
Definition with_db (w : world) (b : db) : world := mkWorld (w_history w) b (w_results w) (w_gaps w).
Definition with_result (w : world) (r : ScanWalletsResult) : world :=
  mkWorld (w_history w) (w_db w) (w_results w ++ [r]) (w_gaps w).
Definition with_gap (w : world) (a : string) (from to : Z) : world :=
  mkWorld (w_history w) (w_db w) (w_results w) (w_gaps w ++ [(a, (from, to))]).

(** What a port may answer: a query answers from the database or fails, a scan
    is a run of the scanner over the wallet's history; with [gap], its listing
    was cut short, or a contract could not be read. *)
Definition may_answer (gap : bool) (w : world) (o : port) : port_ans o → Prop :=
  match o with
  | Ports.GetAllWallets ctx => λ x,
      (on_db (Postgres.GetAllWallets ctx) (w_db w)).1 = Returned x ∨ ∃ e, x.2 = Some e
  | Ports.WalletScan ctx a from => λ x,
      scan_run (undisturbed storage_contract (w_history w)) (disturbed storage_contract (w_history w)) gap
        (Ton.WalletScan ctx a from) x
  | _ => λ _, True
  end.

(** What an operation leaves behind when it takes effect; of a disturbed scan, the
    world remembers from where to where it went. *)
Definition effect (gap : bool) (o : port) : port_ans o → world → world :=
  match o with
  | Ports.WalletScan ctx a from => λ x w,
      match x with (_, lt, None) => if gap then with_gap w a from lt else w | _ => w end
  | Ports.PublishResult _ _ _ _ (PScanWallets r) => λ _ w, with_result w r
  | Ports.UpdateLT ctx ws => λ _ w, with_db w (on_db (Postgres.UpdateLT ctx ws) (w_db w)).2
  | Ports.SetMasterWalletLT ctx lt => λ _ w, with_db w (on_db (Postgres.SetMasterWalletLT ctx lt) (w_db w)).2
  | _ => λ _ w, w
  end.

(** A failed operation may have taken effect. *)
Definition performs (w : world) (o : port) (x : port_ans o) (w' : world) : Prop :=
  ∃ gap, may_answer gap w o x ∧ (w' = effect gap o x w ∨ failed o x ∧ w' = w).

(** A row of the backend: a key in the form the database compares keys in, its
    wallet, and the LT stored for the key, or that of the key in a published
    result, or none yet. *)
Definition backend_row (b : db) (rs : list ScanWalletsResult) (row : provider_row) : Prop :=
  lower (pv_public_key row) = pv_public_key row ∧ pv_address row = wallet_of (pv_public_key row) ∧
  (pv_last_tx_lt row = 0 ∨
   (∃ row', row' ∈ db_providers b ∧
      pv_public_key row' = pv_public_key row ∧ pv_last_tx_lt row' = pv_last_tx_lt row) ∨
   ∃ r u, r ∈ rs ∧ u ∈ sw_UpdatedWallets r ∧
      pr_PublicKey u = pv_public_key row ∧ pr_LT u = pv_last_tx_lt row).

Inductive outside : world → world → Prop :=
| chain_grows w a t : chain (t :: w_history w a) → outside w (with_tx w a t)
| backend_stores w b : Forall (backend_row (w_db w) (w_results w)) (db_providers b) → outside w (with_db w b).

#[local] Instance wallets_world : World ports := Build_World ports world performs outside.

(** The cycles that agents start. *)
Definition scan_wallets (p : prog ports (option error)) : Prop := ∃ ctx, p = CollectStorageContracts d ctx.

(** ** The invariant *)

(** A published result names the contract, with the wallet among its
    providers, and the relation to a provider of that wallet. *)
Definition announces (c a : string) (r : ScanWalletsResult) : Prop :=
  (∃ sc, sc ∈ sw_Contracts r ∧ sc_Address sc = c ∧ a ∈ sc_Providers sc) ∧
  ∃ rel, rel ∈ sw_Relations r ∧ cr_ContractAddr rel = c ∧ cr_ProviderAddress rel = a ∧
         wallet_of (cr_ProviderPubkey rel) = a.
Definition announced (w : world) (c a : string) : Prop := Exists (announces c a) (w_results w).

(** An LT in the reach of a disturbed scan of the wallet. *)
Definition missed (w : world) (a : string) (lt : Z) : Prop :=
  ∃ from to, (a, (from, to)) ∈ w_gaps w ∧ from < lt <= to.

(** The payments to a wallet up to an LT are announced, or will be with the
    contracts [pending], or were in the reach of a disturbed scan; and none to
    come is below it. *)
Definition covered (pending : list StorageContract) (w : world) (a : string) (lt : Z) : Prop :=
  lt <= newest (w_history w a) ∧
  ∀ t c, paid (w_history w a) t c → contract_address storage_contract c → tt_LT t <= lt →
    announced w c a ∨ (∃ sc, sc ∈ pending ∧ sc_Address sc = c ∧ a ∈ sc_Providers sc) ∨ missed w a (tt_LT t).

Record tracked (pending : list StorageContract) (w : world) (p : Provider) : Prop := {
  tr_key : lower (pr_PublicKey p) = pr_PublicKey p;
  tr_address : pr_Address p = wallet_of (pr_PublicKey p);
  tr_covered : covered pending w (pr_Address p) (pr_LT p) }.

Definition row_wallet (row : provider_row) : Provider :=
  mkProvider (pv_public_key row) (pv_address row) (pv_last_tx_lt row) zero_time.

Definition was_paid (w : world) (sc : StorageContract) : Prop :=
  ∀ a, a ∈ sc_Providers sc → ∃ t, paid (w_history w a) t (sc_Address sc).

Record well (w : world) : Prop := {
  wl_chain : ∀ a, chain (w_history w a);
  wl_rows : ∀ row, row ∈ db_providers (w_db w) → tracked [] w (row_wallet row);
  wl_updated : ∀ r u, r ∈ w_results w → u ∈ sw_UpdatedWallets r → tracked [] w u;
  wl_sound : ∀ r sc, r ∈ w_results w → sc ∈ sw_Contracts r → was_paid w sc }.

Record extends (w w' : world) : Prop := {
  la_history : ∀ a, ∃ new, w_history w' a = new ++ w_history w a;
  la_results : w_results w ⊆ w_results w';
  la_gaps : w_gaps w ⊆ w_gaps w' }.

#[local] Instance extends_preorder : PreOrder extends.
Proof.
  split.
  - intros w. split; [by exists []|done|done].
  - intros w1 w2 w3 [H1 Hr1 Hg1] [H2 Hr2 Hg2]. split; [|set_solver|set_solver].
    intros a. destruct (H1 a) as [n1 E1], (H2 a) as [n2 E2]. exists (n2 ++ n1). by rewrite E2, E1, app_assoc.
Qed.

Lemma wallets_extends_db w b : extends w (with_db w b).
Proof. split; [by exists []|done|done]. Qed.

Lemma announced_extends w w' c a : extends w w' → announced w c a → announced w' c a.
Proof.
  intros [_ Hr _]. unfold announced. rewrite !Exists_exists. intros (r & ? & ?). exists r. split; [set_solver|done].
Qed.

Lemma paid_extends w w' a t c : extends w w' → paid (w_history w a) t c → paid (w_history w' a) t c.
Proof. intros [Hh _ _] (Ht & ? & ?). destruct (Hh a) as [new E]. split_and!; [|done..]. rewrite E. set_solver. Qed.

Lemma was_paid_extends w w' sc : extends w w' → was_paid w sc → was_paid w' sc.
Proof. intros Hl Hp a Ha. destruct (Hp a Ha) as [t Ht]. exists t. by eapply paid_extends. Qed.

Lemma wallet_covered_extends pending w w' a lt :
  extends w w' → chain (w_history w' a) → covered pending w a lt → covered pending w' a lt.
Proof.
  intros Hl Hch [Hlt Hc]. destruct (la_history _ _ Hl a) as [new Hh].
  rewrite Hh in Hch. destruct (newest_app _ _ Hch) as [Hn Hnew]. split; [rewrite Hh; lia|].
  intros t c (Ht & Hpos & tx & Hp) Haddr Hle. rewrite Hh in Ht. apply elem_of_app in Ht as [Ht|Ht].
  - specialize (Hnew _ Ht). lia.
  - destruct (Hc t c) as [?|[?|(f & to & Hin & ?)]]; [split_and!; [done|done|by exists tx]|done|done| |by right; left|].
    + left. by eapply announced_extends.
    + right. right. exists f, to. split; [by apply (la_gaps _ _ Hl)|done].
Qed.

Lemma tracked_extends pending w w' p :
  extends w w' → (∀ a, chain (w_history w' a)) → tracked pending w p → tracked pending w' p.
Proof. intros Hl Hch [Hk Ha Hc]. split; [done|done|by eapply wallet_covered_extends]. Qed.

Lemma covered_more pending pending' w a lt :
  pending ⊆ pending' → covered pending w a lt → covered pending' w a lt.
Proof.
  intros Hsub [Hlt Hc]. split; [done|]. intros t c Hp Ha Hle.
  destruct (Hc t c Hp Ha Hle) as [?|[(sc & ? & ?)|?]]; [by left|right; left|by right; right].
  exists sc. split; [set_solver|done].
Qed.

(** *** What keeps the world good *)

(** A step that adds to the histories, the results or the gaps is one more to
    show of the rows it leaves and of what it publishes. *)
Lemma wallets_well_more w w' :
  well w → extends w w' → (∀ a, chain (w_history w' a)) →
  (∀ row, row ∈ db_providers (w_db w') → row ∈ db_providers (w_db w) ∨ tracked [] w' (row_wallet row)) →
  (∀ r, r ∈ w_results w' → r ∈ w_results w ∨
     (∀ u, u ∈ sw_UpdatedWallets r → tracked [] w' u) ∧ ∀ sc, sc ∈ sw_Contracts r → was_paid w' sc) →
  well w'.
Proof.
  intros [Hc Hr Hu Hs] Hl Hc' Hrows Hres.
  assert (∀ p, tracked [] w p → tracked [] w' p) as Htr by (intros p; by apply tracked_extends).
  split; [done| | |].
  - intros row [Hin|]%Hrows; [|done]. by apply Htr, Hr.
  - intros r u [Hin|[Hnew _]]%Hres Hur; [|by apply Hnew]. by eapply Htr, Hu.
  - intros r sc [Hin|[_ Hnew]]%Hres Hsc; [|by apply Hnew]. by eapply was_paid_extends, Hs.
Qed.

Lemma grown_well w a t : well w → chain (t :: w_history w a) → well (with_tx w a t) ∧ extends w (with_tx w a t).
Proof.
  intros Hg Hch. assert (∀ b, chain (w_history (with_tx w a t) b)) as Hc'.
  { intros b. cbn. destruct (decide (a = b)) as [<-|Hne]; [by rewrite fn_lookup_insert|].
    rewrite fn_lookup_insert_ne by done. apply (wl_chain _ Hg). }
  assert (extends w (with_tx w a t)) as Hl.
  { split; [|done|done]. intros b. cbn. destruct (decide (a = b)) as [<-|Hne].
    - exists [t]. by rewrite fn_lookup_insert.
    - exists []. by rewrite fn_lookup_insert_ne. }
  split; [|done]. apply (wallets_well_more w); auto.
Qed.

Lemma gap_well w a from to : well w → well (with_gap w a from to) ∧ extends w (with_gap w a from to).
Proof.
  intros Hg. assert (extends w (with_gap w a from to)) as Hl by (split; [by exists []|done|cbn; set_solver]).
  split; [|done]. apply (wallets_well_more w); auto. apply (wl_chain _ Hg).
Qed.

(** Nothing was paid at LT 0. *)
Lemma covered_start w a : chain (w_history w a) → covered [] w a 0.
Proof.
  intros Hc. split; [destruct (w_history w a); simpl in *; lia|]. intros t c (_ & Hpos & _) _ Hle. lia.
Qed.

Lemma stored_well w b :
  Forall (backend_row (w_db w) (w_results w)) (db_providers b) → well w → well (with_db w b) ∧ extends w (with_db w b).
Proof.
  intros Hb Hg. split; [|apply wallets_extends_db].
  apply (wallets_well_more w); [done|apply wallets_extends_db|apply (wl_chain _ Hg)| |by left].
  intros row Hrow. right. rewrite Forall_forall in Hb. destruct (Hb row Hrow) as (Hk & Ha & Hlt).
  eapply tracked_extends; [apply wallets_extends_db|apply (wl_chain _ Hg)|]. split; cbn; [done|done|].
  destruct Hlt as [-> |[(row' & Hrow' & Hk' & <-)|(r & u & Hr & Hu & Hk' & <-)]]; [apply covered_start, Hg| |].
  - destruct (wl_rows _ Hg row' Hrow') as [_ Ha' Hcov]. cbn in Ha', Hcov. by rewrite Ha, <- Hk', <- Ha'.
  - destruct (wl_updated _ Hg r u Hr Hu) as [_ Ha' Hcov]. by rewrite Ha, <- Hk', <- Ha'.
Qed.

Lemma payments_well w w' : well w → outside w w' → well w' ∧ extends w w'.
Proof.
  intros Hg Ho. destruct Ho as [w a t Hc|w b Hb]; [exact (grown_well w a t Hg Hc)|exact (stored_well w b Hb Hg)].
Qed.

#[local] Instance wallets_rely : Rely wallets_world :=
  Build_Rely ports wallets_world well extends extends_preorder payments_well.

(** *** The database *)
Lemma wallets_read ctx b :
  (on_db (Postgres.GetAllWallets ctx) b).1 = Returned (row_wallet <$> db_providers b, None).
Proof.
  unfold Postgres.GetAllWallets, pcall.
  rewrite (exec_state_ext (I:=pg) (run_sql lower clock) (SelectWallets ctx) _ b). cbn [run_sql fst snd].
  rewrite collect_all. cbn [mret prog_ret exec_state fst]. rewrite <- list_fmap_compose. done.
Qed.

(** Storing LTs up to which a wallet is covered. *)
Lemma updated_well w ctx ws :
  (∀ p, p ∈ ws → tracked [] w p) → well w →
  let w' := with_db w (on_db (Postgres.UpdateLT ctx ws) (w_db w)).2 in well w' ∧ extends w w'.
Proof.
  intros Hws Hg w'. assert (extends w w') as Hl by apply wallets_extends_db. split; [|done].
  apply (wallets_well_more w); [done|done|apply (wl_chain _ Hg)| |by left].
  intros row' Hrow'. unfold w' in Hrow'. cbn [w_db with_db] in Hrow'.
  destruct ws as [|p ws']; [by left|]. set (ws := p :: ws') in *.
  pose proof (UpdateLT_rows lower clock ctx ws (w_db w) ltac:(done)) as Hrows.
  destruct (on_db (Postgres.UpdateLT ctx ws) (w_db w)) as [out b]. cbn [snd] in *.
  destruct (existsb _ ws); [destruct Hrows as [_ ->]; by left|]. destruct Hrows as (_ & _ & _ & Hrows).
  apply list_elem_of_lookup in Hrow' as [i Hi].
  destruct (Forall2_lookup_r _ _ _ _ _ Hrows Hi) as (row & Hrow & [(q & Hq & Hk & ->)|[_ ->]]);
    apply list_elem_of_lookup_2 in Hrow; [right|by left].
  eapply tracked_extends; [exact Hl|apply (wl_chain _ Hg)|].
  destruct (wl_rows _ Hg row Hrow) as [Hk' Ha' _], (Hws q Hq) as [Hkq Haq Hcov]. cbn in Hk', Ha'.
  assert (pv_public_key row = pr_PublicKey q) as Heq by congruence.
  assert (pv_address row = pr_Address q) as Hea by congruence.
  split; cbn; [done|done|]. by rewrite Hea.
Qed.

(** *** What a cycle publishes *)
Lemma addr_to_pubkey_found wallets a :
  a ∈ pr_Address <$> wallets →
  ∃ p, p ∈ wallets ∧ pr_Address p = a ∧ addr_to_pubkey wallets !! a = Some (pr_PublicKey p).
Proof.
  unfold addr_to_pubkey. induction wallets as [|p ws IH] using rev_ind; [by intros ?%elem_of_nil|].
  rewrite fmap_app, elem_of_app, foldl_snoc. intros Ha. destruct (decide (pr_Address p = a)) as [Heq|Hne].
  - exists p. rewrite Heq, lookup_insert_eq. set_solver.
  - destruct Ha as [Ha|Ha]; [|set_solver]. destruct (IH Ha) as (q & ? & ? & ?).
    exists q. rewrite lookup_insert_ne by done. set_solver.
Qed.

(** The providers of a merged contract are those of the contracts merged. *)
Lemma merged_providers cs b :
  match merged_ref b cs with
  | Some m => ∀ a, a ∈ sc_Providers m ↔ ∃ sc, sc ∈ cs ∧ sc_Address sc = b ∧ a ∈ sc_Providers sc
  | None => ∀ sc, sc ∈ cs → sc_Address sc ≠ b
  end.
Proof.
  assert (∀ sc, sc ∈ filter (λ c, sc_Address c = b) cs ↔ sc_Address sc = b ∧ sc ∈ cs) as Hf
    by (intros sc; by rewrite list_elem_of_filter).
  unfold merged_ref. destruct (filter _ cs) as [|c0 cs'].
  - intros sc Hsc Hb. by apply (elem_of_nil sc), Hf.
  - intros a. cbn [sc_Providers]. rewrite list_elem_of_join. setoid_rewrite list_elem_of_fmap.
    split; [intros (l & Ha & sc & -> & ?%Hf); exists sc; tauto|].
    intros (sc & ? & ? & ?). exists (sc_Providers sc). split; [done|]. exists sc. by rewrite Hf.
Qed.

Definition scanned (wallets : list Provider) (cs : list StorageContract) (w : world) : Prop :=
  ∀ sc, sc ∈ cs → was_paid w sc ∧ sc_Providers sc ⊆ pr_Address <$> wallets.

Lemma result_announces wallets cs merged keys us w :
  (∀ p, p ∈ wallets → tracked [] w p) → scanned wallets cs w → merged = foldl merge_contract ∅ cs →
  keys ≡ₚ (map_to_list merged).*1 →
  let contracts := omap (λ k, merged !! k) keys in
  let r := mkScanWalletsResult contracts (c ← contracts; contract_relations (addr_to_pubkey wallets) c) us in
  (∀ sc a, sc ∈ cs → a ∈ sc_Providers sc → announces (sc_Address sc) a r) ∧
  ∀ sc, sc ∈ sw_Contracts r → was_paid w sc.
Proof.
  intros Hws Hcs -> Hkeys contracts r. destruct (ranged_contracts cs keys Hkeys) as [_ Hin]. split.
  - intros sc a Hsc Ha. pose proof (merged_providers cs (sc_Address sc)) as Hm.
    destruct (merged_ref (sc_Address sc) cs) as [m|] eqn:Href; [|by destruct (Hm sc Hsc)].
    pose proof (merged_ref_address _ _ _ Href) as Haddr.
    assert (m ∈ contracts) as Hmc by (apply Hin; by rewrite Haddr).
    assert (a ∈ sc_Providers m) as Ham by (apply Hm; by exists sc).
    destruct (addr_to_pubkey_found wallets a) as (p & Hp & Hpa & Hl); [by apply (Hcs sc Hsc)|].
    split; [by exists m|]. eexists. split.
    { apply list_elem_of_bind. exists m. split; [|exact Hmc]. apply elem_of_contract_relations. by exists a, (pr_PublicKey p). }
    split_and!; [done|done|]. cbn. by rewrite <- (tr_address _ _ _ (Hws p Hp)).
  - intros m Hmc%Hin a Ha. pose proof (merged_providers cs (sc_Address m)) as Hm. rewrite Hmc in Hm.
    apply Hm in Ha as (sc & Hsc & Heq & Ha). destruct (proj1 (Hcs sc Hsc) a Ha) as [t Ht].
    exists t. by rewrite <- Heq.
Qed.

Lemma wallets_extends_result w r : extends w (with_result w r).
Proof. split; [by exists []|cbn; set_solver|done]. Qed.

Lemma published_well w r :
  well w → (∀ sc, sc ∈ sw_Contracts r → was_paid w sc) →
  (∀ u, u ∈ sw_UpdatedWallets r → tracked [] (with_result w r) u) →
  well (with_result w r) ∧ extends w (with_result w r).
Proof.
  intros Hg Hpaid Hu. split; [|apply wallets_extends_result].
  apply (wallets_well_more w); [done|apply wallets_extends_result|apply (wl_chain _ Hg)|by left|].
  intros r' [Hin| ->%list_elem_of_singleton]%elem_of_app; [by left|right]. split; [done|].
  intros sc Hsc. eapply was_paid_extends; [apply wallets_extends_result|by apply Hpaid].
Qed.

(** Once published, nothing is pending. *)
Lemma tracked_published w r cs p :
  (∀ sc a, sc ∈ cs → a ∈ sc_Providers sc → announces (sc_Address sc) a r) →
  tracked cs w p → tracked [] (with_result w r) p.
Proof.
  intros Hann [Hk Ha [Hlt Hc]]. split; [done|done|]. split; [done|]. intros t c Hp Haddr Hle.
  unfold announced. cbn [w_results w_gaps with_result]. setoid_rewrite Exists_app.
  destruct (Hc t c Hp Haddr Hle) as [?|[(sc & Hsc & <- & Hin)|?]]; [by left; left| |by right; right].
  left. right. apply Exists_cons_hd. by apply Hann.
Qed.

(** *** scan_wallets keeps the world good *)

(** The loop's state: contracts that were paid out, and wallets covered by
    what is published and by these contracts. *)
Definition loop_inv (wallets : list Provider) (s : scan_state) (w : world) : Prop :=
  (∀ p, p ∈ wallets → tracked [] w p) ∧
  ∃ cs, ss_merged s = foldl merge_contract ∅ cs ∧ scanned wallets cs w ∧
        ∀ u, u ∈ ss_updated s → tracked cs w u.

Lemma loop_inv_extends wallets s w w' :
  extends w w' → well w' → loop_inv wallets s w → loop_inv wallets s w'.
Proof.
  intros Hl Hg (Hws & cs & Hm & Hcs & Hu). pose proof (wl_chain _ Hg). split; [|exists cs; split_and!].
  - intros p Hp. by eapply tracked_extends, Hws.
  - done.
  - intros sc Hsc. destruct (Hcs sc Hsc). split; [by eapply was_paid_extends|done].
  - intros u Hin. by eapply tracked_extends, Hu.
Qed.

(** A scan changes the world only by its gap. *)
Lemma wallet_scan_keeps w gap ctx a from x w' :
  well w → w' = effect gap (Ports.WalletScan ctx a from) x w → well w' ∧ extends w w'.
Proof. intros Hg ->. destruct x as [[cs lt] [e|]]; [done|]. destruct gap; [by apply gap_well|done]. Qed.

(** A scan from an LT up to which the wallet is covered: it covers its own LT,
    but for what it missed, and if it was not disturbed all the history. *)
Lemma wallet_scan_found w gap ctx p cs lt :
  well w → tracked [] w p → may_answer gap w (Ports.WalletScan ctx (pr_Address p) (pr_LT p)) (cs, lt, None) →
  let a := pr_Address p in
  let w' := effect gap (Ports.WalletScan ctx a (pr_LT p)) (cs, lt, None) w in
  (∀ c, c ∈ cs → was_paid w' c ∧ sc_Providers c = [a]) ∧ covered cs w' a lt ∧
  (gap = false → covered cs w' a (newest (w_history w' a))).
Proof.
  intros Hg [_ _ [Hle Hcov]] Hrun a w'.
  destruct (wallet_scan_covers _ _ _ _ _ _ _ _ (wl_chain _ Hg a) Hrun) as (Hcs & Hlt & Hall).
  destruct (wallet_scan_keeps w gap ctx a (pr_LT p) (cs, lt, None) w' Hg eq_refl) as [Hg' Hl].
  assert (w_history w' = w_history w) as Hh by (unfold w'; by destruct gap).
  assert (lt <= newest (w_history w' a)) as Hnew.
  { rewrite Hh. destruct Hlt as [-> |(t & Ht & <-)]; [done|]. by apply newest_max; [apply (wl_chain _ Hg)|]. }
  assert (∀ t c, paid (w_history w' a) t c → contract_address storage_contract c → gap = false ∨ tt_LT t <= lt →
    announced w' c a ∨ (∃ sc, sc ∈ cs ∧ sc_Address sc = c ∧ a ∈ sc_Providers sc) ∨ missed w' a (tt_LT t)) as Hfound.
  { rewrite Hh. intros t c Hp Haddr Hreach. destruct (Z.le_gt_cases (tt_LT t) (pr_LT p)) as [Hold|Hafter].
    - destruct (Hcov t c Hp Haddr Hold) as [?|[(sc & ?%elem_of_nil & _)|(f & to & Hin & ?)]]; [left|done|right; right].
      + by eapply announced_extends.
      + exists f, to. split; [by apply (la_gaps _ _ Hl)|done].
    - right. destruct gap; [right|left].
      + exists (pr_LT p), lt. destruct Hreach; [done|]. split; [unfold w'; cbn; set_solver|lia].
      + destruct (Hall eq_refl t c Hp) as (sc & Hsc & <-); [lia|done|]. exists sc.
        destruct (Hcs sc Hsc) as [-> _]. split_and!; [done|done|by constructor]. }
  split_and!.
  - intros c Hc. destruct (Hcs c Hc) as [Hprov Hpaid]. split; [|done].
    intros b Hb. rewrite Hprov in Hb. apply list_elem_of_singleton in Hb as ->. by rewrite Hh.
  - split; [done|]. intros t c Hp Ha Hle'. by apply Hfound; [| |right].
  - intros ->. split; [done|]. intros t c Hp Ha _. by apply Hfound; [| |left].
Qed.

Lemma scan_wallet_safe wallets ctx p s w :
  p ∈ wallets → loop_inv wallets s w →
  safe (scan_wallet ctx p s) (λ f w, match f with
                                     | Next s => loop_inv wallets s w
                                     | Break _ => False
                                     | Return _ => True
                                     end) w.
Proof.
  intros Hp Hinv. unfold scan_wallet. apply safe_go. intros cerr _.
  destruct (negb (is_nil cerr)); [by apply safe_go|].
  destruct (negb (Discovery.IsUserFriendly (pr_Address p))); [by apply safe_ret|].
  apply safe_call. intros [[cs lt] err] w1 w2 Hl Hg (gap & Hx & Hw). destruct Hw as [Hw|[[] _]].
  destruct (wallet_scan_keeps w1 gap _ _ _ _ _ Hg Hw) as [Hg2 Hl2]. split_and!; [done|done|].
  pose proof (loop_inv_extends _ _ _ w1 Hl Hg Hinv) as [Hws1 _].
  apply (loop_inv_extends _ _ _ w2) in Hinv; [|by etrans|done].
  destruct err as [e|]; [by apply safe_ret|]. apply safe_ret. destruct Hinv as (Hws & cs0 & Hm & Hcs0 & Hu).
  destruct (wallet_scan_found w1 gap ctx p cs lt Hg (Hws1 p Hp) Hx) as (Hcs & Hcov & _).
  rewrite <- Hw in Hcs, Hcov. split; [done|]. exists (cs0 ++ cs). split_and!.
  - cbn. by rewrite Hm, foldl_app.
  - intros sc [Hsc|Hsc]%elem_of_app; [by apply Hcs0|]. destruct (Hcs sc Hsc) as [? ->]. split; [done|].
    intros a ->%list_elem_of_singleton. by apply list_elem_of_fmap_2.
  - assert (∀ u, u ∈ ss_updated s → tracked (cs0 ++ cs) w2 u) as Hu'.
    { intros u Hin. destruct (Hu u Hin) as [? ? Hc]. split; [done|done|]. eapply covered_more; [|exact Hc]. set_solver. }
    cbn [ss_updated]. intros u Hin. destruct (pr_LT p <? lt); [|by apply Hu'].
    apply elem_of_app in Hin as [Hin| ->%list_elem_of_singleton]; [by apply Hu'|].
    destruct (Hws p Hp) as [? ? _]. split; [done|done|]. eapply covered_more; [|exact Hcov]. set_solver.
Qed.

(** After the loop: publishing, then the LTs. *)
Lemma finish_safe wallets ctx s w :
  loop_inv wallets s w →
  safe (keys ← go (RangeKeys (map_to_list (ss_merged s)).*1);
        let contracts := omap (λ k, ss_merged s !! k) keys in
        let relations := c ← contracts; contract_relations (addr_to_pubkey wallets) c in
        let result := mkScanWalletsResult contracts relations (ss_updated s) in
        err ← call (PublishResult ctx (ScanWalletsStream d) (JobIDFrom ctx)
                      CycleScanWallets (PScanWallets result));
        iferr err ;;
        if (0 <? length (ss_updated s))%nat then
          _ ← call (Ports.UpdateLT ctx (ss_updated s)); mret None
        else mret None) (λ _ _, True) w.
Proof.
  intros Hinv. apply safe_go. intros keys Hkeys. cbn zeta. apply safe_call. intros err w1 w2 Hl Hg (gap & _ & Hw).
  apply (loop_inv_extends _ _ _ w1) in Hinv as (Hws & cs & Hm & Hcs & Hu); [|done|done].
  destruct (result_announces wallets cs (ss_merged s) keys (ss_updated s) w1 Hws Hcs Hm Hkeys) as [Hann Hpaid].
  set (r := mkScanWalletsResult _ _ _) in *.
  assert (∀ u, u ∈ ss_updated s → tracked [] (with_result w1 r) u) as Hupd
    by (intros u Hin; by eapply tracked_published, Hu).
  destruct (published_well w1 r Hg Hpaid Hupd) as [Hg' Hl'].
  split_and!; [by destruct Hw as [-> |[_ ->]]|by destruct Hw as [-> |[_ ->]]|].
  destruct err as [e|]; [done|]. destruct (0 <? _)%nat; [|done].
  destruct Hw as [-> |[Hf _]]; [|by destruct Hf].
  apply safe_call. intros err w3 w4 Hl3 Hg3 (gap' & _ & Hw).
  destruct (updated_well w3 ctx (ss_updated s)) as [Hg4 Hl4]; [|done|].
  - intros u Hin. eapply tracked_extends; [exact Hl3|apply (wl_chain _ Hg3)|by apply Hupd].
  - split_and!; [by destruct Hw as [-> |[_ ->]]|by destruct Hw as [-> |[_ ->]]|done].
Qed.

Lemma wallet_cycle_safe p w : scan_wallets p → well w → safe p (λ _ _, True) w.
Proof.
  intros [ctx ->] _. unfold CollectStorageContracts.
  apply safe_read; [by intros x w1 w2 (gap & _ & [-> |[_ ->]])|]. intros [wallets err] w1 _ Hg1 (gap & Hx & _).
  destruct err as [e|]; [done|]. destruct Hx as [Hx|[e He]]; [|done].
  rewrite wallets_read in Hx. injection Hx as <-.
  assert (∀ p, p ∈ row_wallet <$> db_providers (w_db w1) → tracked [] w1 p) as Hws
    by (intros p (row & -> & Hrow)%list_elem_of_fmap; by apply (wl_rows _ Hg1)).
  destruct (row_wallet <$> db_providers (w_db w1)) as [|p0 ws].
  - apply safe_call. intros err w2 w3 Hl Hg (gap' & _ & Hw).
    destruct (published_well w2 zeroScanWalletsResult Hg) as [Hg' Hl']; [by intros sc ?%elem_of_nil|by intros u ?%elem_of_nil|].
    split_and!; [by destruct Hw as [-> |[_ ->]]|by destruct Hw as [-> |[_ ->]]|done].
  - set (wallets := p0 :: ws) in *. apply safe_bind.
    eapply safe_mono; [|apply (safe_range (W:=wallets_world) (λ _, loop_inv wallets) (λ _ _, True))].
    + intros [s|s|r] w2; cbn [after]; [apply finish_safe|done|done].
    + intros pre p suf s w2 Hsplit Hinv. apply scan_wallet_safe; [|done]. rewrite Hsplit. set_solver.
    + split; [done|]. exists []. split_and!; [done|by intros sc ?%elem_of_nil|by intros u ?%elem_of_nil].
Qed.

(** *** Other operations keep the world good *)
Definition quiet (o : fop ports) : Prop :=
  match o with
  | Ext (Ports.UpdateLT _ _) | Ext (Ports.PublishResult _ _ _ _ (PScanWallets _)) => False
  | _ => True
  end.

Lemma quiet_wallets_well (o : port) x w w' : quiet (@Ext ports o) → well w → performs w o x w' → well w' ∧ extends w w'.
Proof.
  intros Hq Hg (gap & _ & [Hw|[_ ->]]); [|done].
  destruct o; try (simpl in Hw; subst; done); [by eapply wallet_scan_keeps| |subst; by destruct p].
  subst. split; [|apply wallets_extends_db]. apply (wallets_well_more w); [done|apply wallets_extends_db|apply (wl_chain _ Hg)|by left|by left].
Qed.

Lemma quiet_wallets_keeps {R} (p : prog ports R) :
  only quiet (λ _, True) p → keeps p.
Proof. intros Hp. eapply only_keeps; [exact Hp|]. intros o x w w'. apply quiet_wallets_well. Qed.

Lemma scan_wallets_keeps ctx : keeps (CollectStorageContracts d ctx).
Proof. apply (safe_keeps _ (λ _ _, True)). intros w Hg. apply wallet_cycle_safe; [by exists ctx|done]. Qed.

(** A first start: nothing scanned, nothing published. *)
Definition first_start (w : world) : Prop :=
  (∀ a, chain (w_history w a)) ∧ w_results w = [] ∧ w_gaps w = [] ∧
  Forall (λ row, lower (pv_public_key row) = pv_public_key row ∧
                 pv_address row = wallet_of (pv_public_key row) ∧ pv_last_tx_lt row = 0)
    (db_providers (w_db w)).

Lemma first_start_well w : first_start w → well w.
Proof.
  intros (Hc & Hr & _ & Hrows). split; [done| |rewrite Hr; by intros r sc ?%elem_of_nil..].
  intros row Hrow. rewrite Forall_forall in Hrows. destruct (Hrows row Hrow) as (? & ? & Hlt).
  split; [done|done|]. cbn. rewrite Hlt. apply covered_start, Hc.
Qed.

(** In a world: what storage contracts paid to a wallet up to its stored LT was
    published, unless in the reach of a disturbed scan, and what was published
    was paid. *)
Definition withdrawals_kept (w : world) : Prop :=
  (∀ row, row ∈ db_providers (w_db w) →
     let a := pv_address row in
     pv_last_tx_lt row <= newest (w_history w a) ∧
     ∀ t c, paid (w_history w a) t c → contract_address storage_contract c →
       tt_LT t <= pv_last_tx_lt row → announced w c a ∨ missed w a (tt_LT t)) ∧
  ∀ r sc a, r ∈ w_results w → sc ∈ sw_Contracts r → a ∈ sc_Providers sc →
    ∃ t, paid (w_history w a) t (sc_Address sc).

Lemma well_withdrawals w : well w → withdrawals_kept w.
Proof.
  intros Hg. split.
  - intros row Hrow a. destruct (wl_rows _ Hg row Hrow) as [_ _ [Hlt Hcov]]. split; [done|].
    intros t c Hp Ha Hle. destruct (Hcov t c Hp Ha Hle) as [?|[(sc & ?%elem_of_nil & _)|?]]; [by left|done|by right].
  - intros r sc a Hr Hsc Ha. by apply (wl_sound _ Hg r sc).
Qed.

(** C5. No withdrawal is lost, except behind a scan that was disturbed.  From a
    first start, however the cycles of any number of agents interleave with each
    other, with payments to the wallets and with the backend, which may also set
    a provider's LT to that of any result, wherever agents die, and whatever
    fails: each contract that paid a storage reward to a wallet, up to the LT the
    database stores for it, is in a published scan_wallets result, with the
    wallet among its providers and the relation to a provider of that wallet; or
    else the payment is newer than the LT from which some scan of the wallet went
    whose listing was cut short, or in which a contract could not be read, and
    not newer than the LT which that scan returned.  Only contracts that paid are
    published, each with wallets it paid to. *)
Theorem no_withdrawal_lost (w0 w : world) ps :
  first_start w0 → rtc (step scan_wallets) (w0, []) (w, ps) →
  (∀ row, row ∈ db_providers (w_db w) →
     let a := pv_address row in
     pv_last_tx_lt row <= newest (w_history w a) ∧
     ∀ t c, paid (w_history w a) t c → contract_address storage_contract c →
       tt_LT t <= pv_last_tx_lt row →
       announced w c a ∨ ∃ from to, (a, (from, to)) ∈ w_gaps w ∧ from < tt_LT t <= to) ∧
  ∀ r sc a, r ∈ w_results w → sc ∈ sw_Contracts r → a ∈ sc_Providers sc →
    ∃ t, paid (w_history w a) t (sc_Address sc).
Proof.
  intros Hf Hsteps.
  pose proof (reachable_good scan_wallets wallet_cycle_safe _ _ Hsteps (first_start_well _ Hf)) as Hg.
  exact (well_withdrawals _ Hg).
Qed.
End wallets.

(** ** A cycle that finds a contract *)
Section example.
#[local] Existing Instance AsciiUnicode.

#[local] Instance ex_ton : TonUtils := {|
  Address := string; Block := unit; Cell := string;
  ParseAddr := inl; addr_String := id;
  LoadStringSnake := λ s, (s, None); LoadUInt32 := λ _, (StorageRewardWithdrawalOpCode, None);
  zeroBlock := tt |}.

Definition ex_wallet : string := ex_addr "1".
Definition ex_payment : tlbTransaction :=
  mkTlbTransaction 7 "" 0 "" (Some (MsgInternal (Some (mkInternalMessage "contract" ex_wallet 0 (Some ""))))).
Definition ex_history : list tlbTransaction := [ex_payment].
Definition ex_tx : Transaction := mkTransaction "" 7 StorageRewardWithdrawalOpCode "contract" ex_wallet "" 0.
Definition ex_data : StorageInfo := mkStorageInfo "bag" "owner" 10 1.
Definition ex_info : ContractInfo := mkContractInfo "contract" (EncodeToString "bag") "owner" 10 1.
Definition ex_found : StorageContract :=
  mkStorageContract "contract" (EncodeToString "bag") "owner" 10 1 7 [ex_wallet].

Definition ex_server (o : liteop) : liteop_ans o :=
  match o with
  | GetMasterchainInfo _ => (tt, None)
  | GetAccount _ _ _ => (mkAccount 7 "", None)
  | ListTransactions _ _ _ lt _ => (rev (take 1 (from_LT lt ex_history)), None)
  | GetStorageInfoV1 _ _ _ => (Some ex_data, None)
  | GetProvidersV1 _ _ _ => ([], 0, None)
  end.
Definition ex_histories (a : string) : list tlbTransaction := if decide (a = ex_wallet) then ex_history else [].
Definition ex_listing_requests (ctx : Ctx) : trace lite :=
  [ @Ev lite (@Ext lite (GetMasterchainInfo ctx)) (tt, None);
    @Ev lite (@Ext lite (GetAccount ctx tt ex_wallet)) (mkAccount 7 "", None);
    @Ev lite (@Ext lite (ListTransactions ctx ex_wallet batch 7 "")) (ex_history, None);
    @Ev lite (@Ext lite (ListTransactions ctx ex_wallet batch 0 "")) ([], None) ].
Definition ex_info_requests (ctx : Ctx) : trace lite :=
  [ @Ev lite (@Ext lite (GetMasterchainInfo ctx)) (tt, None);
    @Ev lite (@Ext lite (GetStorageInfoV1 ctx tt "contract")) (Some ex_data, None) ].
Definition failed_event (ev : event lite) : bool :=
  match ev with
  | Ev (Ext (ListTransactions _ _ _ _ _)) (_, Some _) => true
  | Ev (Ext (GetStorageInfoV1 _ _ _)) (None, _) | Ev (Ext (GetStorageInfoV1 _ _ _)) (_, Some _) => true
  | _ => false
  end.

Lemma not_disturbed (tr : trace lite) :
  Forall (λ ev, failed_event ev = false) tr → ¬ cut_short tr ∧ ¬ unreadable (λ _, True) tr.
Proof.
  rewrite Forall_forall. intros Hall. split.
  - intros (c & a & lt & h & res & e & Hin & _). by specialize (Hall _ Hin).
  - intros (c & b & a & info & err & Hin & _ & Hno). specialize (Hall _ Hin). cbn in Hall.
    destruct info, err; naive_solver.
Qed.

Lemma ex_wallet_listing ctx :
  undisturbed (λ _, True) ex_histories (Ton.GetTransactions ctx ex_wallet 0) ([Some ex_tx], None).
Proof.
  exists 10%nat, (ex_listing_requests ctx). split; [vm_compute; lia|].
  split; [apply (not_disturbed (ex_listing_requests ctx)); by repeat constructor|].
  apply (exec_runs (calm (I:=lite) ex_server) _ tt); [vm_compute; reflexivity|].
  split; [done|]. split; [by intros _|]. split; [by exists 0%nat|]. split; [by exists 0%nat|done].
Qed.

Lemma ex_reading ctx :
  undisturbed (λ _, True) ex_histories (Ton.GetStorageContractsInfo ctx ["contract"]) ([ex_info], None).
Proof.
  exists (ex_info_requests ctx). split; [apply not_disturbed; by repeat constructor|].
  apply (exec_runs (calm (I:=lite) ex_server) _ tt); [vm_compute; reflexivity|]. done.
Qed.

Definition ex_client (o : tonop) : tonop_ans o :=
  match o with
  | Ton.GetTransactions _ _ _ => ([Some ex_tx], None)
  | Ton.GetStorageContractsInfo _ _ => ([ex_info], None)
  | Ton.GetProvidersInfo _ _ => ([], None)
  end.
Lemma ex_wallet_scan ctx :
  scan_run (undisturbed (λ _, True) ex_histories) (disturbed (λ _, True) ex_histories) false
    (Ton.WalletScan ctx ex_wallet 0) ([ex_found], 7, None).
Proof.
  exists [@Ev tonclient (@Ext tonclient (Ton.GetTransactions (WithTimeout ctx getTxTimeout) ex_wallet 0)) ([Some ex_tx], None);
          @Ev tonclient (Go (RangeKeys ["contract"])) ["contract"];
          @Ev tonclient (@Ext tonclient (Ton.GetStorageContractsInfo ctx ["contract"])) ([ex_info], None)].
  apply (exec_runs (calm (I:=tonclient) ex_client) _ tt); [vm_compute; reflexivity|].
  split; [apply ex_wallet_listing|]. split; [apply Permutation_refl|]. split; [apply ex_reading|exact I].
Qed.

(** The only agent's run, in a world where the wallet was paid once. *)
Definition ex_config : Config := mkConfig "EQ" 0 "m" "w" "r".
Definition ex_row (lt : Z) : provider_row := mkProviderRow "aa" ex_wallet lt None None None None 0 ∅.
Definition ex_start : world := mkWorld ex_histories (mkDb [ex_row 0] [] ∅) [] [].
Definition ex_result : ScanWalletsResult :=
  mkScanWalletsResult [ex_found] [mkRelation "contract" "aa" ex_wallet (EncodeToString "bag") 10]
    [mkProvider "aa" ex_wallet 7 zero_time].
Definition ex_agents : World ports := wallets_world (λ _, True) (λ _, ex_wallet) id 0.

Ltac ex_agent := apply (step_start (W:=ex_agents) (scan_wallets ex_config) ex_start []
                          (CollectStorageContracts ex_config Background)); by exists Background.
Ltac runs_go g x answered_by :=
  eapply rtc_l; [eapply (step_go (W:=ex_agents) _ _ [] _ g _ x []); answered_by|].
Ltac calls o x answered_by :=
  eapply rtc_l; [eapply (step_call (W:=ex_agents) _ _ _ [] _ o _ x []); exists false; split; [answered_by|left; reflexivity]|].

Lemma not_done c (tr : trace ports) : ¬ done_in c tr → go_ok tr (CtxErr c) None.
Proof. by intros Hd; split. Qed.

Lemma ex_wallet_steps :
  ∃ w ps, rtc (step (W:=ex_agents) (scan_wallets ex_config)) (ex_start, []) (w, ps) ∧
    w_results w = [ex_result] ∧ w_gaps w = [] ∧ db_providers (w_db w) = [ex_row 7].
Proof.
  eexists _, _. split.
  { eapply rtc_l; [ex_agent|].
    calls (Ports.GetAllWallets Background) ([mkProvider "aa" ex_wallet 0 zero_time], @None error)
      ltac:(left; reflexivity).
    runs_go (CtxErr Background) (@None error) ltac:(apply not_done; by intros [[]|[]%Exists_nil]%Exists_cons).
    calls (Ports.WalletScan Background ex_wallet 0) ([ex_found], 7, @None error) ltac:(apply ex_wallet_scan).
    runs_go (RangeKeys ["contract"]) ["contract"] ltac:(apply Permutation_refl).
    calls (Ports.PublishResult Background "w" "" CycleScanWallets (PScanWallets ex_result)) (@None error)
      ltac:(exact I).
    calls (Ports.UpdateLT Background [mkProvider "aa" ex_wallet 7 zero_time]) (@None error) ltac:(exact I).
    apply rtc_refl. }
  vm_compute. done.
Qed.

Lemma ex_first_start : first_start (λ _, ex_wallet) id ex_start.
Proof.
  split_and!; [|done|done|by repeat constructor].
  intros a. cbn. unfold ex_histories. case_decide; [simpl; lia|done].
Qed.

Lemma no_withdrawal_lost_witness :
  first_start (λ _, ex_wallet) id ex_start ∧
  ∃ w ps, rtc (step (W:=ex_agents) (scan_wallets ex_config)) (ex_start, []) (w, ps) ∧
    w_results w = [ex_result] ∧ w_gaps w = [] ∧ db_providers (w_db w) = [ex_row 7] ∧
    (∀ row, row ∈ db_providers (w_db w) →
       let a := pv_address row in
       pv_last_tx_lt row <= newest (w_history w a) ∧
       ∀ t c, paid (w_history w a) t c → contract_address (λ _, True) c →
         tt_LT t <= pv_last_tx_lt row →
         announced (λ _, ex_wallet) w c a ∨ ∃ from to, (a, (from, to)) ∈ w_gaps w ∧ from < tt_LT t <= to) ∧
    ∀ r sc a, r ∈ w_results w → sc ∈ sw_Contracts r → a ∈ sc_Providers sc →
      ∃ t, paid (w_history w a) t (sc_Address sc).
Proof.
  split; [exact ex_first_start|]. destruct ex_wallet_steps as (w & ps & Hsteps & Hres & Hgaps & Hrows).
  exists w, ps. split; [exact Hsteps|]. split; [exact Hres|]. split; [exact Hgaps|]. split; [exact Hrows|].
  exact (no_withdrawal_lost (λ _, True) (λ _, ex_wallet) id 0 ex_config ex_start w ps ex_first_start Hsteps).
Defined.
End example.
