(* ===== verification/Workers.v ===== *)
(** The workers and reapers of a consumer as processes of a world: what they
    keep, when their handler keeps it, and what they can do, when their handler
    can be run. *)

From S2P Require Import Prelude GoStd Effects World Domain Redis Consumer.

(** ** A handler whose end is noted

    [Ended] is no operation of the code: it notes in the model that the handler
    of a trigger of the stream returned for the job of its context, without an
    error or not, or panicked. *)
Inductive note := Ended (stream jobID : string) (ok : bool).
Definition notes : iface := Iface note (λ _, unit).

Definition no_error (r : option error + string) : bool :=
  match r with inl None => true | _ => false end.

Section noted.
Context {J : iface} (stream : string).

Definition noted (handler : Ctx → prog J (option error)) (ctx : Ctx) : prog (iplus notes J) (option error) :=
  r ← recover (inject (I:=notes) (handler ctx));
  _ ← ext (I:=iplus notes J) (inl (Ended stream (JobIDFrom ctx) (no_error r)));
  match r with inl err => mret err | inr m => Stop (Panic m) end.

(** Without the notes it is the handler. *)
Definition erase_note (o : op (iplus notes J)) : prog J (ans (iplus notes J) o) :=
  match o with inl (Ended _ _ _) => mret tt | inr o => ext (I:=J) o end.

Lemma noted_erased {E : Env J} (handler : Ctx → prog J (option error)) ctx hist tr out :
  runs hist (interp erase_note (noted handler ctx)) tr out ↔ runs hist (handler ctx) tr out.
Proof.
  unfold noted. revert hist tr. induction (handler ctx) as [r|[m|m|]|[g|o] k IH]; intros hist tr; [done..| |].
  - simpl. split; intros (x & tr' & Hx & -> & Hr); exists x, tr'; (split_and!; [done|done|by apply IH]).
  - simpl. split; intros (x & tr' & Hx & -> & Hr); exists x, tr'; (split_and!; [done|done|by apply IH]).
Qed.
End noted.

(** The operations of such a worker, with what each does to a state. *)
Abbreviation noting J := (iplus redis (iplus notes J)).
Definition crew_acts {J : iface} {S : Type} (aR : S → ∀ o : rop, rop_ans o → S → Prop)
    (aN : S → ∀ o : note, unit → S → Prop) (aJ : S → ∀ o : op J, ans J o → S → Prop) :=
  plus_acts (I:=redis) (J:=iplus notes J) aR (plus_acts (I:=notes) (J:=J) aN aJ).

Section crew.
Context `{Json} {J : iface} (stream group : string) (handler : Ctx → prog J (option error)).

(** The workers and reapers of any consumer of the group, for any number of
    rounds. *)
Definition consumes (p : prog (noting J) unit) : Prop :=
  ∃ c fuel ctx, c_stream c = stream ∧ c_group c = group ∧
    (p = runWorker c (noted stream handler) fuel ctx ∨ p = runReaper c (noted stream handler) fuel ctx).

(** Their own operations. *)
Definition metric (o : rop) : Prop :=
  match o with
  | InflightInc _ | InflightDec _ | ObserveDuration _ _ | CyclesTotalInc _ _ | RedisErrorsInc => True
  | _ => False
  end.
Definition own_command (o : rop) : Prop :=
  match o with
  | XReadGroup _ g _ s _ _ | XAutoClaim _ s g _ _ _ _ | XAck _ s g _ => s = stream ∧ g = group
  | _ => metric o
  end.

Context {S : Type} (aR : S → ∀ o : rop, rop_ans o → S → Prop) (aN : S → ∀ o : note, unit → S → Prop).
Context (aJ : S → ∀ o : op J, ans J o → S → Prop) (oth : S → S → Prop).

#[local] Instance crew_world : World (noting J) := Build_World (noting J) S (crew_acts aR aN aJ) oth.

(** ** What they keep *)
Section keeps.
Context (is_good : S → Prop) (extends : S → S → Prop) (Hpre : PreOrder extends).
Context (Hoth : ∀ s s', is_good s → oth s s' → is_good s' ∧ extends s s').
#[local] Instance crew_rely : Rely crew_world := Build_Rely (noting J) crew_world is_good extends Hpre Hoth.

Context (Hown : ∀ o x s s', own_command o → is_good s → aR s o x s' → is_good s' ∧ extends s s').
Context (Hnote : ∀ j ok s s', is_good s → aN s (Ended stream j ok) tt s' → is_good s' ∧ extends s s').
Context (Hhandler : ∀ ctx, keeps (G:=Build_Rely J (Build_World J S aJ oth) is_good extends Hpre Hoth) (handler ctx)).

Lemma keeps_own {R} (o : rop) (k : rop_ans o → prog (noting J) R) :
  own_command o → (∀ x, keeps (k x)) → keeps (ext (I:=noting J) (inl o) ≫= k).
Proof. intros Ho Hk. apply keeps_call; [|done]. intros x s1 s2. by apply Hown. Qed.

Lemma keeps_last (o : rop) : own_command o → keeps (ext (I:=noting J) (inl o)).
Proof. intros Ho. apply (keeps_own o (λ x, mret x)); [done|]. intros x. apply keeps_ret. Qed.

Lemma keeps_metrics c (p : prog (noting J) unit) : keeps p → keeps (with_metrics c p).
Proof. unfold with_metrics. destruct (c_metrics c); [done|intros _; apply keeps_ret]. Qed.

Lemma noted_keeps ctx :
  keeps (G:=Build_Rely _ (Build_World (iplus notes J) S (plus_acts (I:=notes) aN aJ) oth) is_good extends Hpre Hoth)
    (noted stream handler ctx).
Proof.
  unfold noted. apply keeps_bind.
  - apply keeps_recover. apply (keeps_inject (I:=notes)), Hhandler.
  - intros r. apply keeps_call; [intros [] s1 s2; by apply Hnote|].
    intros x. destruct r; [apply keeps_ret|apply keeps_stop].
Qed.

Lemma process_keeps c ctx msg :
  c_stream c = stream → c_group c = group → keeps (process c (noted stream handler) ctx msg).
Proof.
  intros Hs Hg. unfold process. apply keeps_bind; [by apply keeps_metrics, keeps_last|]. intros _.
  apply keeps_go. intros start. apply keeps_bind.
  { unfold runHandler. apply keeps_bind; [apply keeps_recover; apply (keeps_inject (I:=redis)), noted_keeps|].
    intros [err|m]; apply keeps_ret. }
  intros err. apply keeps_go. intros now. apply keeps_bind.
  { apply keeps_metrics, keeps_own; [done|]. intros _. by apply keeps_last. }
  intros _. apply keeps_own; [done|]. intros ackerr. apply keeps_bind; [|intros _; by apply keeps_metrics, keeps_last].
  destruct (is_nil ackerr); [apply keeps_ret|by apply keeps_metrics, keeps_last].
Qed.

Lemma process_all_keeps c ctx msgs :
  c_stream c = stream → c_group c = group → keeps (process_all c (noted stream handler) ctx msgs).
Proof.
  intros Hs Hg. apply keeps_range. intros m []. apply keeps_bind; [by apply process_keeps|].
  intros []. apply keeps_ret.
Qed.

Lemma worker_keeps c fuel ctx :
  c_stream c = stream → c_group c = group → keeps (runWorker c (noted stream handler) fuel ctx).
Proof.
  intros Hs Hg. induction fuel as [|fuel IH]; [apply keeps_stop|]. cbn [runWorker].
  apply keeps_go. intros cerr. destruct (negb (is_nil cerr)); [apply keeps_ret|].
  apply keeps_own; [done|]. intros [streams [e|]].
  - destruct (_ || _); [exact IH|]. apply keeps_bind; [by apply keeps_metrics, keeps_last|]. intros _.
    apply keeps_go. intros [|]; [apply keeps_ret|exact IH].
  - apply keeps_bind; [|intros _; exact IH]. apply keeps_range. intros s []. by apply process_all_keeps.
Qed.

Lemma claim_keeps c fuel ctx cursor :
  c_stream c = stream → c_group c = group → keeps (claimPending c (noted stream handler) fuel ctx cursor).
Proof.
  intros Hs Hg. revert cursor. induction fuel as [|fuel IH]; intros cursor; [apply keeps_stop|].
  cbn [claimPending]. apply keeps_own; [done|]. intros [[jobs start] err]. apply keeps_bind.
  { destruct (is_nil err); [apply keeps_ret|]. unfold must_metrics.
    destruct (c_metrics c); [by apply keeps_last|apply keeps_stop]. }
  intros _. apply keeps_bind; [by apply process_all_keeps|]. intros _.
  case_bool_decide; [apply keeps_ret|apply IH].
Qed.

Lemma reaper_keeps c fuel ctx :
  c_stream c = stream → c_group c = group → keeps (runReaper c (noted stream handler) fuel ctx).
Proof.
  intros Hs Hg. unfold runReaper. destruct (_ <=? _); [apply keeps_stop|].
  induction fuel as [|fuel IH]; [apply keeps_stop|]. cbn [reaper_loop].
  apply keeps_go. intros [|]; [apply keeps_ret|]. apply keeps_bind; [by apply claim_keeps|].
  intros []. exact IH.
Qed.

Lemma crew_keeps p : consumes p → keeps p.
Proof.
  intros (c & fuel & ctx & Hs & Hg & [-> | ->]); [by apply worker_keeps|by apply reaper_keeps].
Qed.
End keeps.

(** ** What they can do

    When metrics, acknowledgements and notes take effect as [acked] and [ended]
    say. *)
Section can.
Context (acked : S → string → S) (ended : S → string → bool → S).
Context (Hmetric : ∀ s o, metric o → ∃ x, aR s o x s).
Context (Hack : ∀ s ctx id, aR s (XAck ctx stream group id) None (acked s id)).
Context (Hend : ∀ s j ok, aN s (Ended stream j ok) tt (ended s j ok)).
Implicit Types (h : trace (noting J)).

Lemma less_done_refl h : less_done h h.
Proof. by intros c. Qed.
Lemma less_done_ext h h0 o x :
  less_done h h0 → less_done (h ++ [@Ev (noting J) (@Ext (noting J) o) x]) h0.
Proof.
  intros Hh c. rewrite done_in_app. intros [Hd|Hd]; [by apply Hh|].
  by apply Exists_cons in Hd as [[]|Hd%Exists_nil].
Qed.
Lemma less_done_go h h0 (g : goop) (x : goans g) :
  less_done h h0 → (∀ ctx, ¬ reports_done ctx (@Ev (noting J) (@Go (noting J) g) x)) →
  less_done (h ++ [@Ev (noting J) (@Go (noting J) g) x]) h0.
Proof.
  intros Hh Hx c. rewrite done_in_app. intros [Hd|Hd]; [by apply Hh|].
  by apply Exists_cons in Hd as [Hd%Hx|Hd%Exists_nil].
Qed.

(** A part that returns and leaves everything as it is. *)
Definition stays (p : prog (noting J) unit) : Prop :=
  ∀ h s, can p (λ out h' s', out = Returned tt ∧ s' = s ∧ less_done h' h) h s.

Lemma stays_ret : stays (mret tt).
Proof. intros h s. split_and!; [done|done|apply less_done_refl]. Qed.
Lemma stays_metric (o : rop) (f : rop_ans o → unit) : metric o → stays (x ← ext (I:=noting J) (inl o); mret (f x)).
Proof.
  intros Ho h s. destruct (Hmetric s o Ho) as [x Hx]. exists x, s. split; [exact Hx|].
  split_and!; [by destruct (f x)|done|apply less_done_ext, less_done_refl].
Qed.
Lemma stays_bind p (k : unit → prog (noting J) unit) : stays p → stays (k tt) → stays (p ≫= k).
Proof.
  intros Hp Hk h s. apply can_bind. eapply can_mono; [|apply Hp]. intros out h1 s1 (-> & -> & Hl1).
  eapply can_mono; [|apply Hk]. intros out h2 s2 (-> & -> & Hl2). split_and!; [done|done|].
  intros c Hc. by apply Hl1, Hl2.
Qed.
Lemma stays_metrics c p : stays p → stays (with_metrics c p).
Proof. unfold with_metrics. destruct (c_metrics c); [done|intros _; apply stays_ret]. Qed.

Lemma can_after {R} p (k : unit → prog (noting J) R) Q h s :
  stays p → (∀ h', less_done h' h → can (k tt) Q h' s) → can (p ≫= k) Q h s.
Proof.
  intros Hp Hk. apply can_bind. eapply can_mono; [|apply Hp]. intros out h1 s1 (-> & -> & Hl1). by apply Hk.
Qed.

(** No context was seen done. *)
Definition undone h : Prop := ∀ c, ¬ done_in c h.
Lemma undone_less {K : iface} h (h0 : trace K) : undone h → less_done h h0.
Proof. intros Hh c Hc. by destruct (Hh c). Qed.
Lemma less_undone h h' : undone h → less_done h' h → undone h'.
Proof. intros Hh Hl c Hc. by apply (Hh c), Hl. Qed.

(** The handler's world. *)
Abbreviation handler_can := (can (W:=Build_World J S aJ oth)).

Lemma noted_can ctx (Q : outcome (option error) → S → Prop) s :
  (∀ out s', Q out s' → ∃ r, recovered out = Returned r) →
  handler_can (handler ctx) (λ out _ s', Q out s') [] s →
  can (W:=Build_World (iplus notes J) S (plus_acts (I:=notes) aN aJ) oth) (noted stream handler ctx)
    (λ out _ s', ∃ out0 s1 r, Q out0 s1 ∧ recovered out0 = Returned r ∧ recovered out = Returned r ∧
       s' = ended s1 (JobIDFrom ctx) (no_error r)) [] s.
Proof.
  intros HQ Hcan. unfold noted. apply can_bind, can_recover.
  eapply can_mono; [|eapply (can_inject (I:=notes) aN aJ oth); [apply (less_done_nil (K:=iplus notes J))|exact Hcan]].
  intros out h1 s1 (tr' & _ & Hout). destruct (HQ _ _ Hout) as [r Hr]. rewrite Hr.
  exists tt, (ended s1 (JobIDFrom ctx) (no_error r)). split; [apply Hend|]. destruct r; simpl; by eauto 10.
Qed.

Lemma runHandler_can ctx (Q : outcome (option error) → S → Prop) h s :
  undone h → (∀ out s', Q out s' → ∃ r, recovered out = Returned r) →
  handler_can (handler ctx) (λ out _ s', Q out s') [] s →
  can (runHandler (noted stream handler) ctx)
    (λ out _ s', ∃ out0 s1 r, Q out0 s1 ∧ recovered out0 = Returned r ∧ (∃ err, out = Returned err) ∧
       s' = ended s1 (JobIDFrom ctx) (no_error r)) h s.
Proof.
  intros Hh HQ Hcan. unfold runHandler. apply can_bind, can_recover.
  eapply can_mono; [|eapply (can_inject (I:=redis) aR (plus_acts (I:=notes) aN aJ) oth);
                     [by apply undone_less|by apply (noted_can ctx Q)]].
  intros out h1 s1 (tr' & _ & out0 & s2 & r & Hout & Hr0 & Hr & ->). rewrite Hr.
  destruct r; simpl; eauto 10.
Qed.

(** A message is handled, its end noted, and it is acknowledged. *)
Definition handled (Q : outcome (option error) → S → Prop) ctx (m : XMessage) (s' : S) : Prop :=
  ∃ out s1 r, Q out s1 ∧ recovered out = Returned r ∧
    s' = acked (ended s1 (JobIDFrom ctx) (no_error r)) (msg_ID m).

Lemma process_can c ctx m (Q : outcome (option error) → S → Prop) h s :
  c_stream c = stream → c_group c = group →
  undone h → (∀ out s', Q out s' → ∃ r, recovered out = Returned r) →
  handler_can (handler (handler_ctx c ctx m)) (λ out _ s', Q out s') [] s →
  can (process c (noted stream handler) ctx m)
    (λ out _ s', out = Returned tt ∧ handled Q (handler_ctx c ctx m) m s') h s.
Proof.
  intros Hs Hg Hh HQ Hcan. unfold process.
  apply can_after; [apply stays_metrics; by apply (stays_metric (InflightInc _) id)|]. intros h1 Hh1.
  apply (can_go TimeNow _ 0); [done|]. apply can_bind.
  eapply can_mono; [|apply (runHandler_can _ Q)]; [|eapply less_undone; [exact Hh|]|exact HQ|exact Hcan].
  2: { apply less_done_go; [done|]. by intros d []. }
  intros out h2 s2 (out0 & s1 & r & HQ1 & Hr & [err ->] & ->). simpl.
  apply (can_go TimeNow _ 0); [done|]. apply can_after.
  { apply stays_metrics. apply (stays_bind (rcall (ObserveDuration _ _)));
      [by apply (stays_metric (ObserveDuration _ _) id)|by apply (stays_metric (CyclesTotalInc _ _) id)]. }
  intros h3 _. rewrite Hs, Hg. eapply (can_call (I:=noting J)); [apply Hack|]. cbn [is_nil].
  eapply can_mono; [|apply stays_metrics; by apply (stays_metric (InflightDec _) id)].
  intros out h4 s4 (-> & -> & _). split; [done|]. by exists out0, s1, r.
Qed.

(** A reaper claims a message and handles it. *)
Lemma reaper_can c ctx m (Q : outcome (option error) → S → Prop) s :
  c_stream c = stream → c_group c = group → 0 < c_reaperTimeout c →
  (∀ out s', Q out s' → ∃ r, recovered out = Returned r) →
  (∀ ctx idle count, aR s (XAutoClaim ctx stream group idle "0-0" count (c_consumerID c)) ([m], "0-0", None) s) →
  handler_can (handler (handler_ctx c ctx m)) (λ out _ s', Q out s') [] s →
  can (runReaper c (noted stream handler) 1 ctx) (λ _ _ s', handled Q (handler_ctx c ctx m) m s') [] s.
Proof.
  intros Hs Hg Ht HQ Hclaim Hcan. unfold runReaper. rewrite (proj2 (Z.leb_gt _ _) Ht). cbn [reaper_loop].
  apply (can_go (SelectDone _ _) _ false); [done|]. apply can_bind. cbn [claimPending]. rewrite Hs, Hg.
  eapply (can_call (I:=noting J)); [apply Hclaim|]. cbn [is_nil].
  apply can_after; [apply stays_ret|]. intros h Hh. apply can_bind, can_bind, can_bind.
  eapply can_mono; [|apply (process_can c ctx m Q)]; [|done..| |exact HQ|exact Hcan].
  - intros out h' s' [-> Hq]. simpl. done.
  - eapply less_undone; [|exact Hh].
    intros d Hd. apply Exists_cons in Hd as [[]|Hd]. by apply Exists_cons in Hd as [[]|?%Exists_nil].
Qed.

(** A worker reads a message and handles it. *)
Lemma worker_can c ctx m (Q : outcome (option error) → S → Prop) s s1 :
  c_stream c = stream → c_group c = group →
  (∀ out s', Q out s' → ∃ r, recovered out = Returned r) →
  (∀ block, aR s (XReadGroup ctx group (c_consumerID c) stream 1 block) ([mkXStream stream [m]], None) s1) →
  handler_can (handler (handler_ctx c ctx m)) (λ out _ s', Q out s') [] s1 →
  can (runWorker c (noted stream handler) 1 ctx) (λ _ _ s', handled Q (handler_ctx c ctx m) m s') [] s.
Proof.
  intros Hs Hg HQ Hread Hcan. cbn [runWorker]. rewrite Hs, Hg.
  apply (can_go (CtxErr _) _ None); [by split; [intros ?%Exists_nil|]|]. cbn [is_nil negb].
  eapply (can_call (I:=noting J)); [apply Hread|]. apply can_bind, can_bind, can_bind, can_bind.
  eapply can_mono; [|apply (process_can c ctx m Q)]; [|done..| |exact HQ|exact Hcan].
  - intros out h s' [-> Hq]. simpl. done.
  - intros d Hd. apply Exists_cons in Hd as [[]|Hd]. by apply Exists_cons in Hd as [[]|?%Exists_nil].
Qed.
End can.
End crew.
