(* ===== verification/Delivery.v ===== *)
(** The delivery of triggers across crashes: the stream of a cycle with its
    consumer group, the workers and reapers of any number of agents, and the
    coordinator that adds triggers, as one transition system.

    A worker or a reaper takes one step at a time, in any order with the
    others; its process may die between two steps; a command may fail, with or
    without its effect. *)

From S2P Require Import Prelude GoStd Effects World Domain Redis Consumer Workers.

(** ** What a handler publishes

    The job of the result that an operation adds to the result stream, and
    whether the call succeeded. *)
Class Publishes (J : iface) := {
  result_job : op J → option string;
  published_ok : ∀ o : op J, ans J o → bool }.

Section delivery.
Context `{Json} {J : iface} `{Publishes J}.
Context (stream group : string) (handler : Ctx → prog J (option error)).

Abbreviation agent_ops := (noting J).
Abbreviation noted := (noted stream).
Abbreviation consumes := (consumes stream group handler).

(** ** The streams and the group *)
Record queue := mkQueue {
  q_entries : list XMessage;       (* added since the group was created, in order *)
  q_next : nat;                    (* how many were delivered to the group *)
  q_pending : gset string;         (* ids delivered and not acknowledged *)
  q_failed : list string;          (* jobs whose handler panicked or returned an error *)
  q_results : list string }.       (* jobs of the results in the result stream *)

Definition ids (l : list XMessage) : gset string := list_to_set (msg_ID <$> l).
Definition next_entries (q : queue) (n : nat) : list XMessage := take n (drop (q_next q) (q_entries q)).
Definition deliver (q : queue) (n : nat) : queue :=
  mkQueue (q_entries q) (q_next q + length (next_entries q n)) (q_pending q ∪ ids (next_entries q n))
    (q_failed q) (q_results q).
Definition acknowledge (q : queue) (id : string) : queue :=
  mkQueue (q_entries q) (q_next q) (q_pending q ∖ {[id]}) (q_failed q) (q_results q).
Definition note_end (q : queue) (jobID : string) (ok : bool) : queue :=
  if ok then q
  else mkQueue (q_entries q) (q_next q) (q_pending q) (q_failed q ++ [jobID]) (q_results q).
Definition add_result (q : queue) (jobID : option string) : queue :=
  mkQueue (q_entries q) (q_next q) (q_pending q) (q_failed q) (q_results q ++ option_list jobID).
Definition add_entry (q : queue) (m : XMessage) : queue :=
  mkQueue (q_entries q ++ [m]) (q_next q) (q_pending q) (q_failed q) (q_results q).

(** The commands, as Redis documents them.  A read delivers the next entries;
    a claim answers pending ones, however long they are idle.  Commands on
    other streams or of other groups do not matter here. *)
Definition here (s g : string) : Prop := s = stream ∧ g = group.
#[local] Instance here_dec s g : Decision (here s g).
Proof. unfold here. apply _. Defined.

Definition command (q : queue) (o : rop) : rop_ans o → queue → Prop :=
  match o with
  | XReadGroup _ g _ s count _ =>
      if decide (here s g) then λ x q',
        ∃ n, Z.of_nat n <= count ∧ q' = deliver q n ∧
          (x.2 = None → mjoin (xs_Messages <$> x.1) = next_entries q n)
      else λ _ q', q' = q
  | XAutoClaim _ s g _ _ _ _ =>
      if decide (here s g) then λ x q',
        q' = q ∧ ∀ m, m ∈ x.1.1 → m ∈ q_entries q ∧ msg_ID m ∈ q_pending q
      else λ _ q', q' = q
  | XAck _ s g id =>
      if decide (here s g) then λ err q', q' = acknowledge q id ∨ err ≠ None ∧ q' = q
      else λ _ q', q' = q
  | _ => λ _ q', q' = q
  end.

Definition note_acts (q : queue) (o : note) (_ : unit) (q' : queue) : Prop :=
  match o with Ended s jobID ok => q' = if decide (s = stream) then note_end q jobID ok else q end.

Definition result_acts (q : queue) (o : op J) (x : ans J o) (q' : queue) : Prop :=
  q' = add_result q (result_job o) ∨ published_ok o x = false ∧ q' = q.

(** The coordinator adds triggers; Redis gives each an id of its own. *)
Definition outside (q q' : queue) : Prop := ∃ m, (msg_ID m ∉ ids (q_entries q)) ∧ q' = add_entry q m.

#[local] Instance delivery_world : World agent_ops :=
  Build_World agent_ops queue (crew_acts command note_acts result_acts) outside.

(** ** The invariant *)

(** A trigger that was delivered is pending, or its job is over. *)
Definition over (q : queue) (jobID : string) : Prop := jobID ∈ q_failed q ∨ jobID ∈ q_results q.
Definition kept (q : queue) (m : XMessage) : Prop := msg_ID m ∈ q_pending q ∨ over q (decodeJobID m).

Record well (q : queue) : Prop := {
  we_next : (q_next q <= length (q_entries q))%nat;
  we_ids : NoDup (msg_ID <$> q_entries q);
  we_kept : ∀ m, m ∈ take (q_next q) (q_entries q) → kept q m }.

Record extends (q q' : queue) : Prop := {
  qe_entries : q_entries q ⊆ q_entries q';
  qe_failed : q_failed q ⊆ q_failed q';
  qe_results : q_results q ⊆ q_results q' }.
#[local] Instance extends_preorder : PreOrder extends.
Proof. split; [by intros q|]. intros q1 q2 q3 [] []. split; set_solver. Qed.

Lemma over_extends q q' j : extends q q' → over q j → over q' j.
Proof. intros [_ Hf Hr] [?|?]; [left|right]; set_solver. Qed.

(** A state that differs only by more that is over. *)
Lemma well_over q q' :
  q_entries q' = q_entries q → q_next q' = q_next q → q_pending q' = q_pending q → extends q q' →
  well q → well q'.
Proof.
  intros He Hn Hp Hl [H1 H2 H3]. split; [by rewrite He, Hn|by rewrite He|].
  intros m Hm. rewrite He, Hn in Hm. unfold kept. rewrite Hp.
  destruct (H3 m Hm); [by left|right; by eapply over_extends].
Qed.

Lemma add_well q m : msg_ID m ∉ ids (q_entries q) → well q → well (add_entry q m).
Proof.
  intros Hm [Hn Hi Hk]. split; cbn.
  - rewrite length_app. lia.
  - rewrite fmap_app. apply NoDup_app. split_and!; [done| |apply NoDup_singleton].
    intros id Hid ->%list_elem_of_singleton. apply Hm. by apply elem_of_list_to_set.
  - intros m' Hm'. rewrite take_app_le in Hm' by done. by apply Hk.
Qed.

Lemma arrivals_well q q' : well q → outside q q' → well q' ∧ extends q q'.
Proof. intros Hg (m & Hm & ->). split; [by apply add_well|]. split; cbn; set_solver. Qed.

#[local] Instance delivery_rely : Rely delivery_world :=
  Build_Rely agent_ops delivery_world well extends extends_preorder arrivals_well.

(** ** The commands keep it *)
Lemma deliver_well q n : well q → well (deliver q n) ∧ extends q (deliver q n).
Proof.
  intros [Hn Hi Hk]. split; [|split; cbn; set_solver]. unfold deliver, next_entries. split; cbn.
  - rewrite length_take, length_drop. lia.
  - done.
  - intros m Hm. rewrite <- take_take_drop in Hm. apply elem_of_app in Hm as [Hm|Hm].
    + destruct (Hk m Hm); [left; set_solver|by right].
    + left. apply elem_of_union_r. unfold ids. apply elem_of_list_to_set, list_elem_of_fmap_2.
      by rewrite take_length_take in Hm.
Qed.

Lemma acknowledge_well q m :
  well q → m ∈ q_entries q → over q (decodeJobID m) →
  well (acknowledge q (msg_ID m)) ∧ extends q (acknowledge q (msg_ID m)).
Proof.
  intros [Hn Hi Hk] Hm Hj. split; [|done]. split; cbn; [done|done|]. intros m' Hm'. unfold kept. cbn.
  destruct (decide (msg_ID m' = msg_ID m)) as [Heq|Hne].
  - right. assert (m' = m) as ->; [|done].
    apply list_elem_of_lookup in Hm as [i Hm]. assert (m' ∈ q_entries q) as [j Hj']%list_elem_of_lookup
      by (eapply elem_of_subseteq; [apply subseteq_take|done]).
    assert (i = j) as <- by (eapply (NoDup_lookup _ _ _ (msg_ID m) Hi); rewrite list_lookup_fmap; [by rewrite Hm|by rewrite Hj', <- Heq]).
    congruence.
  - destruct (Hk m' Hm'); [left; set_solver|by right].
Qed.

Lemma note_end_well q jobID ok : well q → well (note_end q jobID ok) ∧ extends q (note_end q jobID ok).
Proof.
  intros Hg. unfold note_end. destruct ok; [done|]. assert (extends q (note_end q jobID false)) as Hl
    by (split; cbn; set_solver). split; [by apply (well_over q)|exact Hl].
Qed.
Lemma note_here q j ok q' : note_acts q (Ended stream j ok) tt q' ↔ q' = note_end q j ok.
Proof. simpl. by rewrite decide_True. Qed.
Lemma add_result_well q j : well q → well (add_result q j) ∧ extends q (add_result q j).
Proof.
  intros Hg. assert (extends q (add_result q j)) as Hl by (split; cbn; set_solver).
  split; [by apply (well_over q)|exact Hl].
Qed.

(** ** The consumer keeps it *)
Implicit Types (q : queue) (c : Consumer).
Abbreviation safely := (safe (W:=delivery_world)).

(** A program that only changes the metrics. *)
Definition metrics_op (o : fop agent_ops) : Prop :=
  match o with Go _ => True | Ext (inl o) => metric o | Ext (inr _) => False end.
Lemma metrics_safe {R} (p : prog agent_ops R) q :
  only metrics_op (λ _, True) p → well q → safely p (λ _ q', well q' ∧ extends q q') q.
Proof.
  intros Hp Hg. apply (safe_only (G:=delivery_rely) metrics_op); [exact Hp| |exact Hg].
  intros [[]|[[]|o]] x q1 q2; simpl; try done; by intros _ Hg1 ->.
Qed.

(** What follows a part that keeps the queue good. *)
Lemma seq_safe {A R} (p : prog agent_ops A) (k : A → prog agent_ops R) (P : A → queue → Prop) Q q :
  safely p (λ a q', well q' ∧ extends q q' ∧ P a q') q →
  (∀ a q', well q' → extends q q' → P a q' → safely (k a) Q q') →
  safely (p ≫= k) Q q.
Proof. intros Hp Hk. apply safe_bind. eapply safe_mono; [|exact Hp]. intros a q' (? & ? & ?). auto. Qed.

Lemma metrics_seq_safe {A R} (p : prog agent_ops A) (k : A → prog agent_ops R) Q q :
  only metrics_op (λ _, True) p → well q → (∀ a q', well q' → extends q q' → safely (k a) Q q') →
  safely (p ≫= k) Q q.
Proof.
  intros Hp Hg Hk. apply safe_bind. eapply safe_mono; [|by apply metrics_safe].
  intros a q' [? ?]. auto.
Qed.

(** *** The handler *)

(** The jobs of the results that a run of a handler published. *)
Definition publication (ev : event J) : option string :=
  match ev with Ev (Ext o) x => if published_ok o x then result_job o else None | _ => None end.
Definition publishes_unless_failed : Prop :=
  ∀ ctx, wp (E:=any_env J) (handler ctx)
    (λ tr out, out = Returned None → JobIDFrom ctx ∈ omap publication tr) [].

(** What was published is in the stream. *)
Definition recorded q (tr : trace J) : Prop := omap publication tr ⊆ q_results q.

Lemma recorded_extends q q' tr : extends q q' → recorded q tr → recorded q' tr.
Proof. intros Hl Hr. unfold recorded. etrans; [exact Hr|apply Hl]. Qed.

Lemma recorded_go q tr g x : recorded q tr → recorded q (tr ++ [@Ev J (@Go J g) x]).
Proof. unfold recorded. rewrite omap_snoc. simpl. by rewrite app_nil_r. Qed.

Lemma recorded_call q tr o (x : ans J o) q' :
  recorded q tr → result_acts q o x q' → recorded q' (tr ++ [@Ev J (@Ext J o) x]).
Proof.
  unfold recorded. rewrite omap_snoc. simpl. intros Hr Ha.
  destruct Ha as [-> |[Hok ->]]; cbn; [destruct (published_ok o x), (result_job o); set_solver|].
  rewrite Hok. set_solver.
Qed.

Context (Hpublishes : publishes_unless_failed).

(** Its run in the process, up to the note of its end: [tr] is what the handler
    itself did, and knows no more of its contexts than the process. *)
Lemma handler_safe (p : prog J (option error)) (k : option error + string → prog (iplus notes J) (option error))
    Qt Q tr h q :
  wp (E:=any_env J) p Qt tr → less_done tr h → recorded q tr → well q →
  (∀ out r tr q', recovered out = Returned r → Qt tr out → recorded q' tr → well q' → extends q q' →
     safely (recover (inject (I:=redis) (k r))) Q q') →
  safe_after (W:=delivery_world) (recover (inject (I:=redis) (recover (inject (I:=notes) p) ≫= k))) Q h q.
Proof.
  revert tr h q. induction p as [r|[m|m|]|[g|o] kp IH]; intros tr h q Hwp Hl Hrec Hg Hk; simpl.
  - by apply (Hk (Returned r) (inl r) tr q).
  - by apply (Hk (Stopped (Panic m)) (inr m) tr q).
  - done.
  - done.
  - intros x Hx. apply (IH x (tr ++ [@Ev J (@Go J g) x])); [| |by apply recorded_go|done|done].
    + apply Hwp. by eapply go_ok_less.
    + apply less_done_snoc; [done|]. intros c. by destruct g.
  - intros x q1 q2 Hl1 Hg1 Ha. assert (well q2 ∧ extends q1 q2) as [Hg2 Hl2].
    { destruct Ha as [-> |[_ ->]]; [by apply add_result_well|done]. }
    split; [done|]. split; [done|].
    apply (IH x (tr ++ [@Ev J (@Ext J o) x])); [by apply Hwp| | |done|].
    + by apply less_done_snoc.
    + eapply recorded_call; [|exact Ha]. by eapply recorded_extends.
    + intros out r tr' q' Hout HQ Hrec' Hg' Hl'. apply (Hk out r tr'); [done..|]. etrans; [exact Hl1|]. by etrans.
Qed.

Lemma runHandler_safe ctx q :
  well q →
  safely (runHandler (noted handler) ctx) (λ _ q', well q' ∧ extends q q' ∧ over q' (JobIDFrom ctx)) q.
Proof.
  intros Hg. unfold runHandler. apply safe_bind.
  apply (safe_mono (G:=delivery_rely) _ (λ _ q', well q' ∧ extends q q' ∧ over q' (JobIDFrom ctx))).
  { intros [err|m] q' Hq'; by apply safe_ret. }
  intros h. unfold noted. eapply handler_safe; [apply Hpublishes|apply less_done_nil|by intros j ?%elem_of_nil|done|].
  intros out r tr q' Hout Hret Hrec Hg' Hl'. simpl. intros h' [] q1 q2 Hl1 Hg1 Hn. apply note_here in Hn as ->.
  destruct (note_end_well q1 (JobIDFrom ctx) (no_error r) Hg1) as [Hg2 Hl2]. split; [done|]. split; [done|].
  assert (well (note_end q1 (JobIDFrom ctx) (no_error r)) ∧
          extends q (note_end q1 (JobIDFrom ctx) (no_error r)) ∧
          over (note_end q1 (JobIDFrom ctx) (no_error r)) (JobIDFrom ctx)) as Hend.
  { split; [done|]. split; [etrans; [exact Hl'|]; by etrans|].
    assert (no_error r = false ∨ out = Returned None) as [-> | ->].
    { destruct r as [[e|]|m]; [by left|right|by left]. by destruct out as [err|[]]; simpl in Hout; simplify_eq. }
    - left. cbn. set_solver.
    - injection Hout as <-. right. apply (qe_results _ _ Hl1), Hrec, Hret. done. }
  by destruct r as [err|m].
Qed.

Lemma metrics_only c (p : prog agent_ops unit) :
  only metrics_op (λ _, True) p → only metrics_op (λ _, True) (with_metrics c p).
Proof. unfold with_metrics. by destruct (c_metrics c). Qed.

Lemma process_safe c ctx msg q :
  here (c_stream c) (c_group c) → well q → msg ∈ q_entries q →
  safely (process c (noted handler) ctx msg) (λ _ q', well q' ∧ extends q q') q.
Proof.
  intros Hc Hg Hm. unfold process.
  apply metrics_seq_safe; [by apply metrics_only|done|]. intros _ q1 Hg1 Hl1.
  apply safe_go. intros start _. eapply seq_safe; [by apply runHandler_safe|].
  intros err q2 Hg2 Hl2 Hj. unfold handler_ctx in Hj. rewrite JobIDFrom_WithJobID in Hj.
  apply safe_go. intros now _.
  apply metrics_seq_safe; [apply metrics_only; by split|done|]. intros _ q3 Hg3 Hl3.
  apply safe_call. intros ackerr q4 q5 Hl4 Hg4 Hack. simpl in Hack. rewrite decide_True in Hack by done.
  assert (well q5 ∧ extends q4 q5) as [Hg5 Hl5].
  { destruct Hack as [-> |[_ ->]]; [|done]. apply acknowledge_well; [done| |].
    - apply (qe_entries _ _ Hl4), (qe_entries _ _ Hl3), (qe_entries _ _ Hl2), (qe_entries _ _ Hl1), Hm.
    - eapply over_extends; [exact Hl4|]. by eapply over_extends. }
  split_and!; [done|done|].
  assert (extends q q5) as Hl by (do 4 (etrans; [eassumption|]); done).
  apply metrics_seq_safe; [destruct (is_nil ackerr); [done|by apply metrics_only]|done|].
  intros _ q6 Hg6 Hl6. eapply safe_mono; [|by apply metrics_safe, Hg6; apply metrics_only].
  intros [] q7 [? ?]. split; [done|]. etrans; [exact Hl|]. by etrans.
Qed.

(** A loop over things that stand for entries of the stream. *)
Lemma entries_safe {A} (messages : A → list XMessage) (xs : list A)
    (body : A → unit → prog agent_ops (flow unit unit)) q :
  (∀ x q, well q → messages x ⊆ q_entries q →
     safely (body x tt) (λ f q', (well q' ∧ extends q q') ∧ f = Next tt) q) →
  well q → (∀ x, x ∈ xs → messages x ⊆ q_entries q) →
  safely (range xs tt body) (λ f q', (well q' ∧ extends q q') ∧ f = Next tt) q.
Proof.
  intros Hbody. revert q. induction xs as [|x xs IH]; intros q Hg Hxs; [done|].
  apply safe_bind. eapply safe_mono; [|apply Hbody; [done|apply Hxs, list_elem_of_here]].
  intros f q1 [[Hg1 Hl1] ->]. eapply safe_mono; [|apply IH; [done|]].
  - intros f q2 [[Hg2 Hl2] ->]. split; [|done]. split; [done|by etrans].
  - intros y Hy. etrans; [by apply Hxs, list_elem_of_further|apply Hl1].
Qed.

Lemma process_all_safe c ctx msgs q :
  here (c_stream c) (c_group c) → well q → msgs ⊆ q_entries q →
  safely (process_all c (noted handler) ctx msgs) (λ f q', (well q' ∧ extends q q') ∧ f = Next tt) q.
Proof.
  intros Hc Hg Hm. apply (entries_safe (λ m, [m])); [|done|].
  - intros m q1 Hg1 Hm1. apply safe_bind. eapply safe_mono; [|apply process_safe; [done|done|]].
    + intros [] q2 ?. done.
    + apply Hm1, list_elem_of_here.
  - intros m Hin m' ->%list_elem_of_singleton. by apply Hm.
Qed.

Lemma worker_safe c fuel ctx q :
  here (c_stream c) (c_group c) → well q →
  safely (runWorker c (noted handler) fuel ctx) (λ _ _, True) q.
Proof.
  intros Hc. revert q. induction fuel as [|fuel IH]; intros q Hg; [done|].
  cbn [runWorker]. apply safe_go. intros cerr _. destruct (negb (is_nil cerr)); [done|].
  apply safe_call. intros [streams err] q1 q2 Hl Hg1 Hread.
  simpl in Hread. rewrite decide_True in Hread by done. destruct Hread as (n & _ & -> & Hread).
  destruct (deliver_well q1 n Hg1) as [Hg2 Hl2]. split_and!; [done|done|].
  destruct err as [e|].
  - destruct (_ || _); [by apply IH|].
    apply metrics_seq_safe; [by apply metrics_only|done|]. intros _ q3 Hg3 _.
    apply safe_go. intros done _. destruct done; [by apply safe_ret|by apply IH].
  - specialize (Hread eq_refl). cbn [fst] in Hread.
    eapply seq_safe with (P:=λ _ _, True); [|intros _ q3 Hg3 _ _; by apply IH].
    eapply safe_mono; [|apply (entries_safe xs_Messages); [|done|]].
    + intros f q3 [[? ?] _]. by split_and!.
    + intros s q3 Hg3 Hm. by apply process_all_safe.
    + intros s Hsin m Hm. apply (qe_entries _ _ Hl2).
      assert (m ∈ next_entries q1 n) as Hin.
      { rewrite <- Hread. apply list_elem_of_join. exists (xs_Messages s). split; [done|by apply list_elem_of_fmap_2]. }
      unfold next_entries in Hin. eapply elem_of_subseteq in Hin; [|apply subseteq_take].
      eapply elem_of_subseteq; [apply subseteq_drop|exact Hin].
Qed.

Lemma claim_safe c fuel ctx cursor q :
  here (c_stream c) (c_group c) → well q →
  safely (claimPending c (noted handler) fuel ctx cursor) (λ _ q', well q' ∧ extends q q') q.
Proof.
  intros Hc. revert cursor q. induction fuel as [|fuel IH]; intros cursor q Hg; [done|].
  cbn [claimPending]. apply safe_call. intros [[jobs start] err] q1 q2 Hl Hg1 Ha.
  simpl in Ha. rewrite decide_True in Ha by done. destruct Ha as [-> Hjobs].
  split_and!; [done|done|].
  assert (∀ q2, well q2 → extends q1 q2 →
    safely (_ ← process_all c (noted handler) ctx jobs;
            if bool_decide (start = "0-0") then mret tt else claimPending c (noted handler) fuel ctx start)
      (λ _ q', well q' ∧ extends q q') q2) as Hrest.
  { intros q2 Hg2 Hl2. apply safe_bind. eapply safe_mono; [|apply process_all_safe; [done|done|]].
    - intros f q3 [[Hg3 Hl3] _]. assert (extends q q3) as Hl' by (etrans; [exact Hl|]; by etrans).
      case_bool_decide; [done|]. eapply safe_mono; [|by apply IH].
      intros [] q4 [? ?]. split; [done|by etrans].
    - intros m Hm. apply (qe_entries _ _ Hl2). by apply Hjobs. }
  destruct (is_nil err); [by apply Hrest|]. unfold must_metrics.
  destruct (c_metrics c); [|done]. apply metrics_seq_safe; [by split|done|]. intros _. apply Hrest.
Qed.

Lemma reaper_safe c fuel ctx q :
  here (c_stream c) (c_group c) → well q →
  safely (runReaper c (noted handler) fuel ctx) (λ _ _, True) q.
Proof.
  intros Hc. unfold runReaper. destruct (_ <=? _); [done|].
  revert q. induction fuel as [|fuel IH]; intros q Hg; [done|].
  cbn [reaper_loop]. apply safe_go. intros done _. destruct done; [by apply safe_ret|].
  apply safe_bind. eapply safe_mono; [|by apply claim_safe]. intros [] q1 [Hg1 _]. by apply IH.
Qed.

Lemma consumer_safe p q : consumes p → well q → safely p (λ _ _, True) q.
Proof.
  intros (c & fuel & ctx & Hs & Hg & [-> | ->]); [by apply worker_safe|by apply reaper_safe].
Qed.

(** A stream none of whose triggers was delivered yet. *)
Definition undelivered (q : queue) : Prop :=
  q_next q = O ∧ NoDup (msg_ID <$> q_entries q).

Lemma undelivered_well q : undelivered q → well q.
Proof. intros [Hn Hi]. split; rewrite ?Hn; [lia|done|by intros m ?%elem_of_nil]. Qed.

(** Each trigger waits, is pending, or is over. *)
Definition triggers_kept (q : queue) : Prop :=
  ∀ m, m ∈ q_entries q →
    m ∈ drop (q_next q) (q_entries q) ∨ msg_ID m ∈ q_pending q ∨
    decodeJobID m ∈ q_failed q ∨ decodeJobID m ∈ q_results q.

Lemma well_triggers q : well q → triggers_kept q.
Proof.
  intros Hg m Hm. rewrite <- (take_drop (q_next q) (q_entries q)) in Hm. apply elem_of_app in Hm as [Hm|Hm]; [right|by left].
  by apply (we_kept _ Hg).
Qed.

(** What a trigger of the stream is in a reachable state. *)
Lemma trigger_kept (q0 q : queue) ps :
  undelivered q0 → rtc (step consumes) (q0, []) (q, ps) → triggers_kept q.
Proof. intros Hu Hsteps. exact (well_triggers _ (reachable_good consumes consumer_safe _ _ Hsteps (undelivered_well _ Hu))). Qed.

(** ** Taking over *)

(** The queue is the same, except for results. *)
Definition alike q q' : Prop :=
  q_entries q' = q_entries q ∧ q_next q' = q_next q ∧ q_pending q' = q_pending q ∧ q_failed q' = q_failed q.

(** A run of the handler is one in any state of the stream. *)
Lemma handler_runs {E : Env J} (p : prog J (option error)) tr0 tr out q :
  runs tr0 p tr out → recorded q tr0 →
  can (W:=Build_World J queue result_acts outside) p
    (λ out' _ q', out' = out ∧ alike q q' ∧ recorded q' (tr0 ++ tr)) tr0 q.
Proof.
  revert tr0 tr q. induction p as [r|e|[g|o] k IH]; intros tr0 tr q; simpl.
  - intros [-> ->] Hr. by rewrite app_nil_r.
  - intros [-> ->] Hr. by rewrite app_nil_r.
  - intros (x & tr' & Hx & -> & Hrun) Hr. exists x. split; [done|].
    rewrite (cons_middle _ tr0 tr'), app_assoc. apply IH; [done|by apply recorded_go].
  - intros (x & tr' & Hx & -> & Hrun) Hr.
    assert (result_acts q o x (add_result q (result_job o))) as Ha by by left.
    exists x, (add_result q (result_job o)). split; [done|].
    rewrite (cons_middle _ tr0 tr'), app_assoc. apply (IH x _ _ (add_result q (result_job o))); [done|by eapply recorded_call].
Qed.

(** The end of a handler that published its result, or failed. *)
Lemma note_end_over {E : Env J} ctx tr out r q :
  runs [] (handler ctx) tr out → recovered out = Returned r → recorded q tr →
  over (note_end q (JobIDFrom ctx) (no_error r)) (JobIDFrom ctx).
Proof.
  intros Hrun Hout Hrec. destruct (no_error r) eqn:Hr; [|left; cbn; set_solver].
  assert (out = Returned None) as ->.
  { destruct r as [[e|]|m]; [done| |done]. by destruct out as [err|[]]; simpl in Hout; simplify_eq. }
  right. apply Hrec. apply (proj1 (wp_runs (E:=any_env J) _ _ []) (Hpublishes ctx) tr (Returned None)); [|done].
  by eapply runs_any.
Qed.

(** A pending trigger can be taken over: a reaper that starts claims it, runs
    its handler and acknowledges it. *)
Lemma takes_over {E : Env J} c ctx (q : queue) ps m tr out r :
  here (c_stream c) (c_group c) → 0 < c_reaperTimeout c →
  m ∈ q_entries q → msg_ID m ∈ q_pending q →
  runs [] (handler (handler_ctx c ctx m)) tr out → recovered out = Returned r →
  ∃ q' ps', rtc (step consumes) (q, ps) (q', ps') ∧
    q_entries q' = q_entries q ∧ q_pending q' = q_pending q ∖ {[msg_ID m]} ∧ over q' (decodeJobID m).
Proof.
  intros [Hs Hg] Ht Hm Hp Hrun Hr.
  destruct (can_start (W:=delivery_world) consumes (runReaper c (noted handler) 1 ctx)
              (λ _ _ q', handled acknowledge note_end
                 (λ out' q', out' = out ∧ alike q q' ∧ recorded q' tr) (handler_ctx c ctx m) m q') q ps)
    as (_ & _ & q' & ps' & (out' & q1 & r' & (-> & (He & _ & Hpe & _) & Hrec) & Hr' & ->) & Hsteps).
  - exists c, 1%nat, ctx. auto.
  - apply (reaper_can stream group handler command note_acts result_acts outside acknowledge note_end);
      [| | |done|done|done| | |].
    + by intros q1 []; try done; intros _; exists tt.
    + intros q1 c' id. simpl. rewrite decide_True by done. by left.
    + intros q1 j ok. by apply note_here.
    + intros out' q' (-> & _). by exists r.
    + intros c' idle count. simpl. rewrite decide_True by done. split; [done|]. by intros m' ->%list_elem_of_singleton.
    + eapply can_mono; [|by apply (handler_runs _ [] tr out); [|intros j ?%elem_of_nil]]. by intros out' h q'.
  - exists (acknowledge (note_end q1 (JobIDFrom (handler_ctx c ctx m)) (no_error r')) (msg_ID m)), ps'.
    split; [exact Hsteps|]. cbn [q_entries q_pending acknowledge].
    pose proof (note_end_over (handler_ctx c ctx m) tr out r' q1 Hrun Hr' Hrec) as Ho.
    unfold handler_ctx in *. rewrite JobIDFrom_WithJobID in *.
    split; [rewrite <- He; unfold note_end; by destruct (no_error r')|].
    split; [rewrite <- Hpe; unfold note_end; by destruct (no_error r')|exact Ho].
Qed.
End delivery.
