(* ===== verification/Triggers.v ===== *)
(** The triggers of the agent's cycles: what becomes of a trigger when agents
    crash, commands fail and other agents take over ([Delivery] for the handlers
    of [App]). *)

From S2P Require Import Prelude GoStd Effects World Domain Pool Ports Discovery Poll StorageProof Update.
From S2P Require Import Redis Consumer App Agent Workers Delivery.

(** The streams of a cycle. *)
Abbreviation trigger_stream cfg b := (streamKey cfg "cycle" (b_cycleType b)).
Abbreviation result_stream cfg b := (streamKey cfg "result" (b_cycleType b)).

(** The results that go to [stream]. *)
Definition job_published (stream : string) (o : port) : option string :=
  match o with
  | Ports.PublishResult _ s j _ _ => if bool_decide (s = stream) then Some j else None
  | _ => None
  end.
Definition published_without_error (o : port) : port_ans o → bool :=
  match o with Ports.PublishResult _ _ _ _ _ => is_nil | _ => λ _, true end.
Definition results_of (stream : string) : Publishes ports :=
  @Build_Publishes ports (job_published stream) published_without_error.

(** ** Every cycle publishes its result unless it fails *)
Section published.
Context `{Unicode} `{Tlb} `{Json}.
Implicit Types (ctx : Ctx) (cfg : AppConfig) (b : binding).

Definition publishes (tr : trace ports) (out : outcome (option error)) : Prop :=
  out = Returned None → ∃ p, WPublished p None ∈ writes tr.

(** An outcome that writes nothing and fails, or publishes with an error as it
    returns one. *)
Lemma publishes_intro (tr : trace ports) p perr err ws :
  writes tr = WPublished p perr :: ws → is_nil err = is_nil perr → publishes tr (Returned err).
Proof.
  intros Hw Hn [= ->]. exists p. rewrite Hw. destruct perr; [done|]. apply list_elem_of_here.
Qed.
Ltac published Hr :=
  destruct Hr as [[_ [? ->]]|Hr]; [done|];
  repeat match goal with
         | Hr : ∃ _, _ |- _ => destruct Hr
         | Hr : _ ∧ _ |- _ => destruct Hr
         end; subst; by eapply publishes_intro.

Lemma scan_master_publishes d ctx : wp (CollectNewProviders d ctx) publishes [].
Proof.
  unfold CollectNewProviders. wp_steps; intros Hret; simplify_eq.
  all: eexists; trace_simpl; list_member.
Qed.

Lemma binding_publishes cfg b ctx : b ∈ bindings cfg → wp (b_handler b ctx) publishes [].
Proof.
  unfold bindings. rewrite !elem_of_cons, elem_of_nil.
  intros [-> | [-> | [-> | [-> | [-> | [-> | [-> | []]]]]]]]; cbn [b_handler].
  - apply scan_master_publishes.
  - apply wp_runs. intros tr out Hr. apply scan_wallets_runs in Hr. published Hr.
  - apply wp_runs. intros tr out Hr. apply resolve_endpoints_runs in Hr. published Hr.
  - eapply wp_mono'; [apply probe_rates_wp|]. intros tr out Hr. published Hr.
  - eapply wp_mono'; [apply inspect_contracts_wp|]. intros tr out Hr. published Hr.
  - eapply wp_mono'; [apply check_proofs_wp, New_concurrency|]. intros tr out Hr. published Hr.
  - eapply wp_mono'; [apply update_ipinfo_wp|]. intros tr out Hr. published Hr.
Qed.

(** A publication is one of the cycle's results for the job. *)
Lemma publication_job stream job cycle (tr : trace ports) p :
  Forall (λ ev, pub_op stream job cycle (ev_op ev)) tr → WPublished p None ∈ writes tr →
  job ∈ omap (publication (H0:=results_of stream)) tr.
Proof.
  intros Hall (ev & Hev & Hw)%list_elem_of_omap. rewrite Forall_forall in Hall. specialize (Hall _ Hev).
  destruct ev as [[g|[]] x]; simpl in Hw; simplify_eq.
  apply list_elem_of_omap. eexists. split; [exact Hev|].
  simpl in *. destruct Hall as (-> & -> & _). by rewrite bool_decide_eq_true_2.
Qed.

Lemma cycle_publishes cfg b :
  b ∈ bindings cfg → publishes_unless_failed (H0:=results_of (result_stream cfg b)) (b_handler b).
Proof.
  intros Hb ctx. apply (wp_runs (E:=any_env ports)). intros tr out Hrun Hret.
  destruct (proj1 (wp_runs _ _ _) (binding_publishes cfg b ctx Hb) tr out Hrun Hret) as [p Hp].
  eapply publication_job; [|exact Hp].
  apply (runs_only _ _ _ _ _ _ (binding_pub cfg b ctx Hb) Hrun).
Qed.

(** ** The cycle's trigger stream *)

(** The steps of any number of agents that run the cycle, with the coordinator
    and the failures of [Delivery]. *)
Definition cycle_world cfg b : World (noting ports) :=
  delivery_world (H0:=results_of (result_stream cfg b)) (trigger_stream cfg b) (ac_Group cfg).
Definition cycle_crew cfg b : prog (noting ports) unit → Prop :=
  consumes (trigger_stream cfg b) (ac_Group cfg) (b_handler b).
Definition cycle_step cfg b := World.step (W:=cycle_world cfg b) (cycle_crew cfg b).

(** The workers and the reaper that [MustRun] starts for the cycle are such
    processes. *)
Lemma consumer_consumes cfg b fuel ctx :
  let handler := noted (trigger_stream cfg b) (b_handler b) in
  cycle_crew cfg b (runWorker (consumer_of cfg b) handler fuel ctx) ∧
  cycle_crew cfg b (runReaper (consumer_of cfg b) handler fuel ctx).
Proof. split; exists (consumer_of cfg b), fuel, ctx; auto. Qed.

(** C6. No trigger of a cycle is lost.  Whatever the workers and reapers of any
    number of agents do, wherever their processes die and whichever commands
    fail, each trigger in the cycle's stream waits to be delivered, or is pending
    in the group, or its handler ended with an error or a panic, or a result with
    its job id was added to the cycle's result stream: until then it is not
    acknowledged. *)
Theorem no_trigger_lost cfg b (q0 q : queue) ps m :
  b ∈ bindings cfg → undelivered q0 → rtc (cycle_step cfg b) (q0, []) (q, ps) → m ∈ q_entries q →
  m ∈ drop (q_next q) (q_entries q) ∨ msg_ID m ∈ q_pending q ∨
  decodeJobID m ∈ q_failed q ∨ decodeJobID m ∈ q_results q.
Proof.
  intros Hb Hu Hsteps.
  exact (trigger_kept (H0:=results_of _) _ _ _ (cycle_publishes cfg b Hb) q0 q ps Hu Hsteps m).
Qed.

(** C7. A pending trigger can be taken over.  In any state of the cycle's stream,
    whatever became of the process it was delivered to, the reaper of an agent
    can claim it, run its handler and acknowledge it, whichever way the handler
    runs; then the handler failed, or a result with the trigger's job id is in
    the result stream. *)
Theorem pending_taken_over cfg b ctx (q : queue) ps m tr out :
  b ∈ bindings cfg → 0 < ac_ReaperTimeout cfg →
  m ∈ q_entries q → msg_ID m ∈ q_pending q →
  runs [] (b_handler b (handler_ctx (consumer_of cfg b) ctx m)) tr out →
  ∃ q' ps', rtc (cycle_step cfg b) (q, ps) (q', ps') ∧
    q_entries q' = q_entries q ∧ q_pending q' = q_pending q ∖ {[msg_ID m]} ∧
    (decodeJobID m ∈ q_failed q' ∨ decodeJobID m ∈ q_results q').
Proof.
  intros Hb Ht Hm Hp Hrun.
  destruct (proj1 (wp_runs _ _ _) (binding_returns cfg b _ Hb) tr out Hrun) as [err ->].
  exact (takes_over (H0:=results_of (result_stream cfg b)) _ _ _ (cycle_publishes cfg b Hb) (consumer_of cfg b) ctx
           q ps m tr _ (inl err) (conj eq_refl eq_refl) Ht Hm Hp Hrun eq_refl).
Qed.
End published.

(** ** A worker that dies with a trigger, and the reaper that finishes it *)
Section example.
#[local] Existing Instances AsciiUnicode ex_TON ex_json.

Definition ex_agent : AppConfig :=
  mkAppConfig "agent-1" 0 Minute "mtpa" "mtpa" "EQ" ex_usecase ex_usecase ex_usecase ex_usecase.
Definition ex_cycle : binding :=
  mkBinding CycleScanMaster ex_usecase (CollectNewProviders (discovery_config ex_agent)).
Definition ex_start : queue := mkQueue [ex_message] 0 ∅ [] [].
Definition ex_crashed : queue := mkQueue [ex_message] 1 {[ "1-0" ]} [] [].

(** The worker reads the trigger and its process dies. *)
Lemma ex_crash : rtc (cycle_step ex_agent ex_cycle) (ex_start, []) (ex_crashed, []).
Proof.
  set (W := cycle_world ex_agent ex_cycle).
  eapply rtc_l; [apply (step_start (W:=W) _ ex_start [] _ (proj1 (consumer_consumes ex_agent ex_cycle 1 Background)))|].
  eapply rtc_l.
  { apply (step_go (W:=W) _ ex_start [] [] (CtxErr Background) _ (@None error) []).
    split; [by intros ?%Exists_nil|done]. }
  eapply rtc_l.
  { apply (step_call (W:=W) _ ex_start ex_crashed [] _
             (inl (XReadGroup Background "mtpa" "agent-1" "mtpa:cycle:scan_master" 1 (5000 * Millisecond))) _
             ([mkXStream "mtpa:cycle:scan_master" [ex_message]], @None error) []).
    exists 1%nat. split; [done|]. split; [by vm_compute|done]. }
  eapply rtc_l; [|apply rtc_refl]. apply (step_end (W:=W) _ ex_crashed [] _ []).
Qed.

Lemma no_trigger_lost_witness :
  (ex_cycle ∈ bindings ex_agent ∧ undelivered ex_start ∧
   rtc (cycle_step ex_agent ex_cycle) (ex_start, []) (ex_crashed, []) ∧ ex_message ∈ q_entries ex_crashed) ∧
  (ex_message ∈ drop (q_next ex_crashed) (q_entries ex_crashed) ∨ msg_ID ex_message ∈ q_pending ex_crashed ∨
   decodeJobID ex_message ∈ q_failed ex_crashed ∨ decodeJobID ex_message ∈ q_results ex_crashed).
Proof.
  assert (ex_cycle ∈ bindings ex_agent) as Hb by apply list_elem_of_here.
  assert (undelivered ex_start) as Hu by (split; [done|apply NoDup_singleton]).
  assert (ex_message ∈ q_entries ex_crashed) as Hm by apply list_elem_of_here.
  split; [exact (conj Hb (conj Hu (conj ex_crash Hm)))|].
  exact (no_trigger_lost ex_agent ex_cycle ex_start ex_crashed [] ex_message Hb Hu ex_crash Hm).
Defined.

(** The handler that nothing fails: the scan finds no one and reaches LT 5. *)
Lemma ex_handled ctx : ∃ tr, runs [] (b_handler ex_cycle ctx) tr (Returned None).
Proof.
  eexists. exists (0, None). eexists. split; [done|]. split; [reflexivity|].
  exists ([], None). eexists. split; [done|]. split; [reflexivity|].
  exists ([], 5, None). eexists. split; [done|]. split; [reflexivity|].
  exists None. eexists. split; [done|]. split; [reflexivity|].
  exists None. eexists. split; [done|]. split; [reflexivity|]. by split.
Qed.

Lemma pending_taken_over_witness :
  ex_message ∈ q_entries ex_crashed ∧ msg_ID ex_message ∈ q_pending ex_crashed ∧
  ∃ q' ps', rtc (cycle_step ex_agent ex_cycle) (ex_crashed, []) (q', ps') ∧
    q_entries q' = q_entries ex_crashed ∧ q_pending q' = q_pending ex_crashed ∖ {[msg_ID ex_message]} ∧
    (decodeJobID ex_message ∈ q_failed q' ∨ decodeJobID ex_message ∈ q_results q').
Proof.
  assert (ex_message ∈ q_entries ex_crashed) as Hm by apply list_elem_of_here.
  assert (msg_ID ex_message ∈ q_pending ex_crashed) as Hp by (cbn; set_solver).
  split; [exact Hm|]. split; [exact Hp|].
  destruct (ex_handled (handler_ctx (consumer_of ex_agent ex_cycle) Background ex_message)) as [tr Hrun].
  exact (pending_taken_over ex_agent ex_cycle Background ex_crashed [] ex_message tr (Returned None)
           (list_elem_of_here _ _) eq_refl Hm Hp Hrun).
Defined.
End example.
