(* ===== verification/Fleet.v ===== *)
(** The whole deployment: any number of agents with the workers and reapers of
    all seven cycles, over one Redis, one database and one chain, with the
    backend that stores providers and writes triggers.

    Its state has the worlds of Announce, Wallets and Delivery as parts, which
    share the database and the chain: each step of the deployment is one of
    each part's, so what was proved of the parts holds of it. *)

From stdpp Require Import functions.
From S2P Require Import Prelude GoStd Effects World Domain Ports Poll Discovery Ton LiteClient Postgres System.
From S2P Require Import Redis Consumer App Agent Workers Delivery Triggers.
From S2P Require Announce Wallets.

Section fleet.
Context `{Unicode} `{Tlb} `{Json} `{TonUtils}.
Context (storage_contract : Address → Prop) (wallet_of : string → string).
Context (lower : string → string) (clock : Time).   (* of the database *)
Context (cfg : AppConfig).
Implicit Types (b : binding) (a cycle : string).

Abbreviation on_db p db := (exec_state (I:=pg) (run_sql lower clock) p db).

(** ** The state *)
Record fleet := mkFleet {
  f_history : string → list tlbTransaction;   (* of each account, newest first *)
  f_db : db;
  f_announced : list ScanMasterResult;        (* published by scan_master *)
  f_results : list ScanWalletsResult;         (* published by scan_wallets *)
  f_gaps : list (Z * Z);                      (* the LTs between which disturbed scans of the
                                                 master wallet went *)
  f_wgaps : list (string * (Z * Z));          (* of other wallets *)
  f_queues : string → queue }.                (* of each cycle *)
Implicit Types (f : fleet).

Definition with_queues f (qs : string → queue) : fleet :=
  mkFleet (f_history f) (f_db f) (f_announced f) (f_results f) (f_gaps f) (f_wgaps f) qs.
Definition with_queue f cycle (q : queue) : fleet := with_queues f (<[cycle := q]> (f_queues f)).
Definition with_tx f a (t : tlbTransaction) : fleet :=
  mkFleet (<[a := t :: f_history f a]> (f_history f)) (f_db f) (f_announced f) (f_results f)
    (f_gaps f) (f_wgaps f) (f_queues f).
Definition with_db f (d : db) : fleet :=
  mkFleet (f_history f) d (f_announced f) (f_results f) (f_gaps f) (f_wgaps f) (f_queues f).

(** Its parts. *)
Definition scanning f : Announce.world :=
  Announce.mkWorld (f_history f (ac_MasterAddress cfg)) (f_db f) (f_announced f) (f_gaps f).
Definition paying f : Wallets.world :=
  Wallets.mkWorld (f_history f) (f_db f) (f_results f) (f_wgaps f).
Definition queue_of b f : queue := f_queues f (b_cycleType b).

(** ** The steps *)

(** A Redis command acts on the stream it names, a note on its own. *)
Definition redis_acts f (o : rop) (x : rop_ans o) f' : Prop :=
  ∃ qs, f' = with_queues f qs ∧
    ∀ b, b ∈ bindings cfg → command (trigger_stream cfg b) (ac_Group cfg) (queue_of b f) o x (queue_of b f').
Definition ending f (o : note) (x : unit) f' : Prop :=
  ∃ qs, f' = with_queues f qs ∧
    ∀ b, b ∈ bindings cfg → note_acts (trigger_stream cfg b) (queue_of b f) o x (queue_of b f').

(** What a port leaves behind when it takes effect; [gap] says that a scan was
    disturbed. *)
Definition master_gap (gap : bool) (o : port) : port_ans o → list (Z * Z) :=
  match o with
  | Ports.MasterScan _ _ from => λ x, match x with (_, lt, None) => if gap then [(from, lt)] else [] | _ => [] end
  | _ => λ _, []
  end.
Definition wallet_gap (gap : bool) (o : port) : port_ans o → list (string * (Z * Z)) :=
  match o with
  | Ports.WalletScan _ a from => λ x, match x with (_, lt, None) => if gap then [(a, (from, lt))] else [] | _ => [] end
  | _ => λ _, []
  end.
Definition effect (gap : bool) (o : port) (x : port_ans o) f : fleet :=
  mkFleet (f_history f)
    (match o with
     | Ports.SetMasterWalletLT ctx lt => (on_db (Postgres.SetMasterWalletLT ctx lt) (f_db f)).2
     | Ports.UpdateLT ctx ws => (on_db (Postgres.UpdateLT ctx ws) (f_db f)).2
     | _ => f_db f
     end)
    (f_announced f ++ match o with Ports.PublishResult _ _ _ _ (PScanMaster r) => [r] | _ => [] end)
    (f_results f ++ match o with Ports.PublishResult _ _ _ _ (PScanWallets r) => [r] | _ => [] end)
    (f_gaps f ++ master_gap gap o x) (f_wgaps f ++ wallet_gap gap o x)
    (match o with
     | Ports.PublishResult _ _ _ _ _ =>
         λ cycle, add_result (f_queues f cycle) (job_published (streamKey cfg "result" cycle) o)
     | _ => f_queues f
     end).

(** What it answers: a query answers from the database or fails, a scan is a run
    of the scanner over the lite client; with [gap], one that was disturbed. *)
Definition may_answer (gap : bool) f (o : port) (x : port_ans o) : Prop :=
  Announce.may_answer lower clock gap (scanning f) o x ∧
  Wallets.may_answer storage_contract lower clock gap (paying f) o x.
Definition port_acts f (o : port) (x : port_ans o) f' : Prop :=
  ∃ gap, may_answer gap f o x ∧ (f' = effect gap o x f ∨ failed o x ∧ f' = f).

(** The chain grows, the backend stores providers it was told of and may set
    the LTs to those of published results, and it writes triggers. *)
Inductive outside : fleet → fleet → Prop :=
| chain_grows f a t : chain (t :: f_history f a) → is_u64 (tt_LT t) → outside f (with_tx f a t)
| backend_stores f d :
    (db_params d !! lastLTKey = db_params (f_db f) !! lastLTKey ∨
     ∃ r, r ∈ f_announced f ∧ db_params d !! lastLTKey = Some (FormatUint (sm_LastLT r))) →
    (∀ row, row ∈ db_providers d →
       (pv_public_key row ∈ pv_public_key <$> db_providers (f_db f) ∨
        pv_public_key row ∈ Announce.announced_keys (f_announced f)) ∧
       Wallets.backend_row wallet_of lower (f_db f) (f_results f) row) →
    outside f (with_db f d)
| trigger_written f cycle m :
    msg_ID m ∉ ids (q_entries (f_queues f cycle)) →
    outside f (with_queue f cycle (add_entry (f_queues f cycle) m)).

Definition fleet_world : World (noting ports) :=
  Build_World (noting ports) fleet (crew_acts (J:=ports) redis_acts ending port_acts) outside.

(** The workers and reapers of any cycle, of any agent. *)
Definition fleet_crew (p : prog (noting ports) unit) : Prop := ∃ b, b ∈ bindings cfg ∧ cycle_crew cfg b p.
Definition fleet_step := World.step (W:=fleet_world) fleet_crew.

(** ** The parts' steps *)
Definition scanning_world : World (noting ports) :=
  Build_World (noting ports) Announce.world
    (crew_acts (J:=ports) (silent (I:=redis)) (silent (I:=notes)) (Announce.performs lower clock)) Announce.outside.
Definition paying_world : World (noting ports) :=
  Build_World (noting ports) Wallets.world
    (crew_acts (J:=ports) (silent (I:=redis)) (silent (I:=notes)) (Wallets.performs storage_contract lower clock)) (Wallets.outside wallet_of lower).

Lemma effect_scanning gap o x f : scanning (effect gap o x f) = Announce.effect lower clock gap o x (scanning f).
Proof.
  destruct o; cbv [scanning effect f_history f_db f_announced f_gaps master_gap]; rewrite ?app_nil_r; try reflexivity.
  - destruct x as [[ps lt] [e|]], gap; rewrite ?app_nil_r; reflexivity.
  - by destruct p; rewrite ?app_nil_r.
Qed.
Lemma effect_paying gap o x f : paying (effect gap o x f) = Wallets.effect lower clock gap o x (paying f).
Proof.
  destruct o; cbv [paying effect f_history f_db f_results f_wgaps wallet_gap]; rewrite ?app_nil_r; try reflexivity.
  - destruct x as [[cs lt] [e|]], gap; rewrite ?app_nil_r; reflexivity.
  - by destruct p; rewrite ?app_nil_r.
Qed.

Lemma scanning_view : is_view (W1:=fleet_world) (W2:=scanning_world) scanning.
Proof.
  split.
  - intros f [o|[o|o]] x f'; [by intros (qs & -> & _)|by intros (qs & -> & _)|].
    intros (gap & [Ha _] & [-> |[Hs ->]]); exists gap; (split; [exact Ha|]); [left; apply effect_scanning|by right].
  - intros f f' [f0 a t Hc Hu|f0 d Hp Hrows|f0 cycle m Hm]; [|right|by left].
    + destruct (decide (a = ac_MasterAddress cfg)) as [-> |Hne].
      * right. unfold scanning. cbn. rewrite fn_lookup_insert. by apply (Announce.chain_grows (scanning f0)).
      * left. unfold scanning. cbn. by rewrite fn_lookup_insert_ne.
    + apply (Announce.backend_stores (scanning f0)); [done|]. intros row Hrow. by apply Hrows.
Qed.

Lemma paying_view : is_view (W1:=fleet_world) (W2:=paying_world) paying.
Proof.
  split.
  - intros f [o|[o|o]] x f'; [by intros (qs & -> & _)|by intros (qs & -> & _)|].
    intros (gap & [_ Ha] & [-> |[Hs ->]]); exists gap; (split; [exact Ha|]); [left; apply effect_paying|by right].
  - intros f f' [f0 a t Hc Hu|f0 d Hp Hrows|f0 cycle m Hm]; [right|right|by left].
    + by apply (Wallets.chain_grows _ _ (paying f0)).
    + apply (Wallets.backend_stores _ _ (paying f0)). apply Forall_forall. intros row Hrow. by apply Hrows.
Qed.

Lemma add_no_result (q : queue) : add_result q None = q.
Proof. unfold add_result. rewrite app_nil_r. by destruct q. Qed.

Lemma queue_view b : b ∈ bindings cfg → is_view (W1:=fleet_world) (W2:=cycle_world cfg b) (queue_of b).
Proof.
  intros Hb. split.
  - intros f [o|[o|o]] x f'; [intros (qs & -> & Hq); by apply Hq|intros (qs & -> & Hq); by apply Hq|].
    intros (gap & _ & [-> |[Hs ->]]).
    + left. destruct o; first [reflexivity|symmetry; apply add_no_result].
    + destruct o; try done; first [left; symmetry; apply add_no_result|right; split; [by destruct x|done]].
  - intros f f' [f0 a t Hc Hu|f0 d Hp Hrows|f0 cycle m Hm]; [by left|by left|].
    unfold queue_of. cbn. destruct (decide (cycle = b_cycleType b)) as [-> |Hne].
    + right. rewrite fn_lookup_insert. by exists m.
    + left. by rewrite fn_lookup_insert_ne.
Qed.

(** ** The crews keep each part *)
Section scanning_safe.
Context (old_keys : list string).
#[local] Instance scanning_rely : Rely scanning_world :=
  Build_Rely (noting ports) scanning_world (Announce.well lower clock old_keys) Announce.extends
    Announce.extends_preorder (Announce.outside_well lower clock old_keys).

Lemma scanning_handler b ctx :
  b ∈ bindings cfg → World.keeps (G:=Announce.scanning_rely lower clock old_keys) (b_handler b ctx).
Proof.
  intros Hb. pose proof Hb as Hcases. revert Hcases. unfold bindings. rewrite !elem_of_cons, elem_of_nil.
  intros [-> |Hrest]; [apply Announce.scan_master_keeps|].
  assert (b_cycleType b ≠ CycleScanMaster) as Hne
    by (clear Hb; by destruct Hrest as [-> | [-> | [-> | [-> | [-> | [-> | []]]]]]]).
  apply Announce.quiet_keeps. eapply only_weaken; [by apply binding_pub|].
  intros [g|[]]; simpl; try done. intros (_ & _ & _ & Hp). by destruct p; [simpl in Hp; congruence|..].
Qed.

Lemma scanning_crew p w : fleet_crew p → good (Rely:=scanning_rely) w → safe p (λ _ _, True) w.
Proof.
  intros (b & Hb & Hp). apply keeps_safe.
  apply (crew_keeps (trigger_stream cfg b) (ac_Group cfg) (b_handler b)); [| | |exact Hp].
  - intros o x s s' _. apply (silent_good (I:=redis) _ Announce.extends (Hpre:=Announce.extends_preorder)).
  - intros j ok s s'. apply (silent_good (I:=notes) _ Announce.extends (Hpre:=Announce.extends_preorder) s (Ended _ j ok) tt).
  - intros ctx. by apply scanning_handler.
Qed.
End scanning_safe.

#[local] Instance paying_rely : Rely paying_world :=
  Build_Rely (noting ports) paying_world (Wallets.well storage_contract wallet_of lower) Wallets.extends
    Wallets.extends_preorder (Wallets.payments_well storage_contract wallet_of lower).

Lemma paying_handler b ctx :
  b ∈ bindings cfg → World.keeps (G:=Wallets.wallets_rely storage_contract wallet_of lower clock) (b_handler b ctx).
Proof.
  intros Hb. destruct (decide (b_cycleType b = CycleScanWallets)) as [Heq|Hne].
  - revert Hb. unfold bindings. rewrite !elem_of_cons, elem_of_nil.
    intros [-> | [-> | [-> | [-> | [-> | [-> | [-> | []]]]]]]]; try done. apply Wallets.scan_wallets_keeps.
  - apply Wallets.quiet_wallets_keeps. eapply only_weaken; [by apply binding_pub|].
    intros [g|[]]; simpl; try done. intros (_ & _ & _ & Hp). by destruct p; simpl in Hp; try congruence.
Qed.

Lemma paying_crew p w : fleet_crew p → good (Rely:=paying_rely) w → safe p (λ _ _, True) w.
Proof.
  intros (b & Hb & Hp). apply keeps_safe.
  apply (crew_keeps (trigger_stream cfg b) (ac_Group cfg) (b_handler b)); [| | |exact Hp].
  - intros o x s s' _. apply (silent_good (I:=redis) _ Wallets.extends (Hpre:=Wallets.extends_preorder)).
  - intros j ok s s'. apply (silent_good (I:=notes) _ Wallets.extends (Hpre:=Wallets.extends_preorder) s (Ended _ j ok) tt).
  - intros ctx. by apply paying_handler.
Qed.

(** The crew of one cycle leaves the streams of the others alone. *)
Lemma stream_of_cycle b b' :
  b_cycleType b ≠ b_cycleType b' → trigger_stream cfg b ≠ trigger_stream cfg b' ∧ result_stream cfg b ≠ result_stream cfg b'.
Proof. intros Hne. split; unfold streamKey; intros Heq; by repeat apply (inj (String.append _)) in Heq. Qed.

Lemma binding_of_cycle b b' : b ∈ bindings cfg → b' ∈ bindings cfg → b_cycleType b = b_cycleType b' → b = b'.
Proof.
  intros Hb Hb' Heq. apply list_elem_of_lookup in Hb as [i Hi], Hb' as [j Hj].
  assert (i = j) as <-; [|congruence].
  apply (NoDup_lookup (b_cycleType <$> bindings cfg) i j (b_cycleType b)).
  - apply (bool_decide_unpack _). by vm_compute.
  - by rewrite list_lookup_fmap, Hi.
  - by rewrite list_lookup_fmap, Hj, Heq.
Qed.

Section queue_safe.
Context (b : binding) (Hb : b ∈ bindings cfg).
#[local] Instance results : Publishes ports := results_of (result_stream cfg b).
#[local] Instance queue_rely : Rely (cycle_world cfg b) :=
  delivery_rely (trigger_stream cfg b) (ac_Group cfg).

Lemma other_handler b' ctx :
  b' ∈ bindings cfg → b_cycleType b' ≠ b_cycleType b →
  World.keeps (G:=Build_Rely ports (Build_World ports queue result_acts Delivery.outside) well Delivery.extends
             Delivery.extends_preorder arrivals_well)
    (b_handler b' ctx).
Proof.
  intros Hb' Hne. eapply only_keeps; [by apply binding_pub|]. intros o x q q' Ho Hg Ha.
  assert (result_job o = None) as Hj.
  { destruct o; try done. simpl in *. destruct Ho as (-> & _).
    rewrite bool_decide_eq_false_2; [done|]. by apply stream_of_cycle. }
  destruct Ha as [-> |[_ ->]]; [|done]. rewrite Hj. by apply add_result_well.
Qed.

Lemma queue_crew p q : fleet_crew p → well q → safe (W:=cycle_world cfg b) p (λ _ _, True) q.
Proof.
  intros (b' & Hb' & Hp) Hg. destruct (decide (b_cycleType b' = b_cycleType b)) as [Heq|Hne].
  { apply binding_of_cycle in Heq as ->; [|done..]. by eapply consumer_safe; [apply cycle_publishes|..]. }
  destruct (stream_of_cycle b' b Hne) as [Hs _].
  apply keeps_safe; [|done].
  apply (crew_keeps (trigger_stream cfg b') (ac_Group cfg) (b_handler b')); [| | |exact Hp].
  - intros o x q1 q2 Ho Hg1 Ha.
    assert (q2 = q1) as ->; [|done]. destruct o; try done; simpl in Ho, Ha;
      destruct Ho as [-> _]; by rewrite decide_False in Ha by (by intros []).
  - intros j ok q1 q2 Hg1 Ha. simpl in Ha. by rewrite decide_False in Ha by done; subst.
  - intros ctx. by apply other_handler.
Qed.
End queue_safe.

(** ** Nothing is lost *)

(** A first start: nothing scanned, published or delivered. *)
Definition first_start f : Prop :=
  Announce.fresh (scanning f) ∧ Wallets.first_start wallet_of lower (paying f) ∧
  ∀ b, b ∈ bindings cfg → undelivered (queue_of b f).

Record well old_keys f : Prop := {
  fw_scanning : Announce.well lower clock old_keys (scanning f);
  fw_paying : Wallets.well storage_contract wallet_of lower (paying f);
  fw_queues : ∀ b, b ∈ bindings cfg → Delivery.well (queue_of b f) }.

Lemma reachable_well f0 f ps :
  first_start f0 → rtc fleet_step (f0, []) (f, ps) → well (Announce.known_keys (scanning f0)) f.
Proof.
  intros (Ha & Hw & Hq) Hsteps. split.
  - apply (reachable_good (G:=scanning_rely _) fleet_crew (scanning_crew _) _ _ (view_steps _ _ _ _ scanning_view Hsteps)).
    by apply Announce.fresh_well.
  - apply (reachable_good (G:=paying_rely) fleet_crew paying_crew _ _ (view_steps _ _ _ _ paying_view Hsteps)).
    by apply Wallets.first_start_well.
  - intros b Hb.
    apply (reachable_good (G:=queue_rely b) fleet_crew (queue_crew b Hb) _ _ (view_steps _ _ _ _ (queue_view b Hb) Hsteps)).
    by apply undelivered_well, Hq.
Qed.

(** C1. Nothing is lost in the whole deployment, except behind scans that were
    disturbed.  From a first start, however the workers and reapers of all cycles
    of any number of agents interleave, with each other, with the chain, the
    backend and the coordinator, wherever processes die and whatever fails: the
    registrations up to the stored LT of the master wallet were published or
    known from the start, or are in the reach of a scan whose listing was cut
    short by a deadline or by -400, between the LT from which it went and the one
    it returned; the withdrawals up to the stored LT of a provider's wallet were
    published with it, or are in the reach of a scan of the wallet whose listing
    was cut short or in which a contract could not be read; only what is on chain
    was published; and each trigger of each cycle waits, is pending, or failed,
    or its result was published.  The backend may set the stored LTs to those of
    any published result. *)
Theorem nothing_lost f0 f ps :
  first_start f0 → rtc fleet_step (f0, []) (f, ps) →
  Announce.registrations_kept lower clock (pv_public_key <$> db_providers (f_db f0)) (scanning f) ∧
  Wallets.withdrawals_kept storage_contract wallet_of (paying f) ∧
  ∀ b, b ∈ bindings cfg → triggers_kept (queue_of b f).
Proof.
  intros Hf Hsteps. destruct (reachable_well _ _ _ Hf Hsteps) as [Ha Hw Hq]. split_and!.
  - exact (Announce.well_registrations _ _ _ _ Ha).
  - exact (Wallets.well_withdrawals _ _ _ _ Hw).
  - intros b Hb. by apply well_triggers, Hq.
Qed.

End fleet.
