(* ===== verification/Progress.v ===== *)
(** What the deployment of [Fleet] can always still do: serve the next trigger of
    scan_master, and so announce every registration on the chain that no
    disturbed scan went past. *)

From stdpp Require Import functions.
From S2P Require Import Prelude GoStd Effects World Domain Ports Poll Discovery Ton LiteClient Postgres System.
From S2P Require Import Redis Consumer App Agent Workers Delivery Triggers Fleet.
From S2P Require Announce Wallets.

(** ** A listing that is not cut short *)
Section listing.
Context `{TonUtils} (history : list tlbTransaction) (Hchain : chain history).
Context (Hin : ∀ t, t ∈ history → tt_In t ≠ None).   (* each transaction has its incoming message *)

(** The server answers without faults: a listing in batches of up to [limit], and
    [ErrNoTransactionsWereFound] where there are no more. *)
Definition paged (limit : Z) (rest : list tlbTransaction) : list tlbTransaction * option error :=
  match take (Z.to_nat limit) rest with
  | [] => ([], Some ErrNoTransactionsWereFound)
  | page => (rev page, None)
  end.
Definition no_fault (o : liteop) : liteop_ans o → Prop :=
  match o with
  | GetMasterchainInfo _ | GetAccount _ _ _ => λ a, a.2 = None
  | ListTransactions _ _ limit lt _ => λ a, a = paged limit (from_LT lt history)
  | _ => λ _, False
  end.
Definition server (_ : unit) (o : liteop) (x : liteop_ans o) (_ : unit) : Prop := chain_ok history o x ∧ no_fault o x.
#[local] Instance calm_world : World lite := Build_World lite unit server (λ _ _, False).

Lemma parse_all_can txs tr :
  txs ⊆ history → can (parse_all txs) (λ out _ _, ∃ l, out = Returned (Next l)) tr tt.
Proof.
  intros Hsub. eapply can_mono; [|apply (can_range _ (λ _ _ _ _, True)); [|done]].
  { intros out h s (l & -> & _). by exists l. }
  intros pre t suf l h s Htxs _. apply can_bind.
  assert (∃ r, parseTx t = mret r) as [r ->].
  { unfold parseTx. assert (tt_In t ≠ None) by (apply Hin, Hsub; set_solver).
    destruct (tt_In t) as [[[m|]|]|]; [by eexists..|done]. }
  destruct r; by eexists.
Qed.

Lemma rev_subset {A} (l : list A) : rev l ⊆ l.
Proof. intros x. by rewrite !list_elem_of_In, <- in_rev. Qed.

Lemma cut_subset lp res newer : cut lp res = Some newer → newer ⊆ res.
Proof.
  intros (n & tx & _ & _ & ->)%cut_rev_spec. rewrite app_nil_r.
  etrans; [apply rev_subset|]. etrans; [apply subseteq_take|apply rev_subset].
Qed.

Lemma drop_subset {A} n (l : list A) : drop n l ⊆ l.
Proof. intros x. rewrite <- (take_drop n l) at 2. set_solver. Qed.

(** A page: none where the history ends, else the newest part of what is left. *)
Lemma page_can ctx a n lt hash {R} (k : list tlbTransaction * option error → prog lite R) Q tr :
  from_LT lt history = drop n history →
  (drop n history = [] → can (k ([], Some ErrNoTransactionsWereFound)) Q
     (tr ++ [@Ev lite (@Ext lite (ListTransactions ctx a batch lt hash)) ([], Some ErrNoTransactionsWereFound)]) tt) →
  (∀ page m oldest, rev page = oldest :: tail (rev page) → page ⊆ history → (n < m <= length history)%nat →
     from_LT (tt_PrevTxLT oldest) history = drop m history →
     can (k (rev page, None)) Q (tr ++ [@Ev lite (@Ext lite (ListTransactions ctx a batch lt hash)) (rev page, None)]) tt) →
  can (lcall (ListTransactions ctx a batch lt hash) ≫= k) Q tr tt.
Proof.
  intros Hlt Hend Hpage.
  apply (can_call (W:=calm_world) (ListTransactions ctx a batch lt hash) _ (paged batch (from_LT lt history)) tt).
  - split; [|done]. unfold paged. cbn [chain_ok]. destruct (take (Z.to_nat batch) (from_LT lt history)) as [|t page] eqn:Hp.
    + intros _. by destruct (from_LT lt history).
    + exists 99%nat. split; [done|]. cbn [fst]. by rewrite <- Hp.
  - unfold paged. rewrite Hlt. destruct (take (Z.to_nat batch) (drop n history)) as [|t page] eqn:Hp.
    + apply Hend. by destruct (drop n history).
    + rewrite <- Hp. set (pg := take (Z.to_nat batch) (drop n history)) in *.
      destruct (rev pg) as [|oldest older] eqn:Hrev.
      { apply (f_equal (@rev _)) in Hrev. rewrite rev_involutive, Hp in Hrev. done. }
      destruct (page_oldest (drop n history) 99 oldest older) as (m & _ & Hm & _); [done|].
      rewrite lookup_drop in Hm. rewrite <- Hrev. apply (Hpage pg (S (n + m)) oldest); [by rewrite Hrev| |apply lookup_lt_Some in Hm; lia|].
      * etrans; [apply subseteq_take|apply drop_subset].
      * by apply (from_LT_drop _ _ _ Hchain).
Qed.

(** Page by page to the end, or to the transaction seen last. *)
Lemma list_loop_can ctx a lp fuel : ∀ n lt hash txs tr,
  from_LT lt history = drop n history → txs ⊆ history → (n <= length history < n + fuel)%nat →
  (txs ≠ [] ∨ drop n history ≠ []) →
  can (list_loop fuel ctx a lp lt hash txs) (λ out _ _, ∃ txs', out = Returned (txs', None) ∧ txs' ⊆ history) tr tt.
Proof.
  induction fuel as [|fuel IH]; intros n lt hash txs tr Hlt Hsub Hfuel Hsome; [lia|]. cbn [list_loop].
  apply (page_can _ _ n); [done| |].
  - intros Hnil. destruct Hsome as [Hne|]; [|done]. destruct txs as [|t txs]; [done|]. by exists (t :: txs).
  - intros page m oldest Hrev Hpage Hm Hnext. pose proof (rev_subset page) as Hsub'. rewrite Hrev in Hsub' |- *.
    destruct (cut lp (oldest :: _)) as [newer|] eqn:Hcut.
    + exists (txs ++ newer). split; [done|]. apply cut_subset in Hcut. set_solver.
    + apply (IH m); [done|set_solver|lia|]. left. by intros [_ ?]%app_eq_nil.
Qed.

Lemma listing_exists ctx addr a lp :
  ParseAddr addr = inl a →
  ∃ txs err, whole_listing history (Ton.GetTransactions ctx addr lp) (txs, err) ∧ (history ≠ [] → err = None).
Proof.
  intros Ha. set (fuel := S (length history)).
  assert (can (GetTransactions fuel ctx addr lp)
            (λ out _ _, ∃ txs err, out = Returned (txs, err) ∧ (history ≠ [] → err = None)) [] tt) as Hcan.
  { unfold GetTransactions. rewrite Ha.
    apply (can_call (W:=calm_world) (GetMasterchainInfo ctx) _ (zeroBlock, None) tt); [done|].
    apply (can_call (W:=calm_world) (GetAccount ctx zeroBlock a) _ (mkAccount (newest history) "", None) tt); [done|].
    assert (from_LT (newest history) history = drop 0 history) as H0'.
    { destruct history as [|t older]; [done|]. simpl. by rewrite Z.eqb_refl. }
    apply can_bind. destruct (decide (drop 0 history = [])) as [Hnil|Hne].
    { apply (page_can _ _ 0); [done| |].
      - intros _. eexists _, _. split; [done|]. intros []. exact Hnil.
      - intros page m oldest _ _ Hm. destruct history; [simpl in Hm; lia|done]. }
    eapply can_mono; [|apply (list_loop_can _ _ _ _ 0); [done|apply list_subseteq_nil|unfold fuel; lia|by right]].
    intros out tr [] (txs & -> & Hsub). simpl. apply can_bind. eapply can_mono; [|by apply parse_all_can].
    intros out tr' [] (l & ->). by exists l, None. }
  destruct (can_runs (W:=calm_world) (chain_ok history) _ _ _ _ (λ s o x s' Hs, proj1 Hs) Hcan)
    as (tr & out & s & Hrun & (txs & err & -> & Herr) & Hall).
  exists txs, err. split; [|exact Herr]. exists fuel, tr. split; [unfold fuel; lia|]. split; [|exact Hrun].
  intros (c & b & l & h & res & e & Hev & Hcut). rewrite Forall_forall in Hall.
  destruct (Hall _ Hev) as (s1 & s2 & _ & Hf). cbn in Hf. unfold paged in Hf.
  destruct (take _ _); [|done]. injection Hf as -> ->. by destruct Hcut as [|[m ?]].
Qed.
End listing.

(** The triggers that no worker has read. *)
Abbreviation waiting b f := (drop (q_next (queue_of b f)) (q_entries (queue_of b f))).

Section progress.
Context `{Unicode} `{Tlb} `{Json} `{TonUtils}.
Context (storage_contract : Address → Prop) (wallet_of : string → string).
Context (lower : string → string) (clock : Time) (cfg : AppConfig).
Implicit Types (f : fleet).

Abbreviation master := (ac_MasterAddress cfg).
Abbreviation scanning := (scanning cfg).
Abbreviation well := (Fleet.well storage_contract wallet_of lower clock cfg).
Abbreviation port_acts := (port_acts storage_contract lower clock cfg).
Abbreviation fleet_outside := (Fleet.outside wallet_of lower).
Abbreviation fleet_step := (fleet_step storage_contract wallet_of lower clock cfg).

(** Publishing records the job of the cycle, and what is recorded stays. *)
Lemma publication_recorded b ctx job cycle p f :
  let o := Ports.PublishResult ctx (result_stream cfg b) job cycle p in
  job ∈ q_results (queue_of b (effect lower clock cfg false o None f)).
Proof.
  unfold queue_of, effect. cbn [f_queues q_results add_result]. apply elem_of_app. right.
  unfold job_published. rewrite bool_decide_eq_true_2 by done. apply list_elem_of_here.
Qed.

(** An operation that asks leaves the deployment as it is. *)
Lemma asking f (o : port) (x : port_ans o) :
  match o with
  | Ports.GetMasterWalletLT _ | Ports.GetAllPubkeys _ | Ports.GetAllWallets _
  | Ports.MasterScan _ _ _ | Ports.WalletScan _ _ _ => True
  | _ => False
  end → effect lower clock cfg false o x f = f.
Proof.
  intros Ho. destruct f, o; try done; try (unfold effect; simpl; by rewrite !app_nil_r);
    destruct x as [[? ?] [?|]]; unfold effect; simpl; by rewrite !app_nil_r.
Qed.

(** ** scan_master can be run *)
Lemma scan_exists history ctx addr a from :
  chain history → (∀ t, t ∈ history → tt_In t ≠ None) → history ≠ [] → ParseAddr addr = inl a →
  ∃ ps lt, scan_run (whole_listing history) (listing true history) false (Ton.MasterScan ctx addr from) (ps, lt, None).
Proof.
  intros Hc Hin Hne Ha.
  destruct (listing_exists history Hc Hin (WithTimeout ctx getTxTimeout) addr a from Ha) as (txs & err & Htxs & Herr).
  rewrite (Herr Hne) in Htxs. set (s := foldl (master_tx from) (mkMasterState ∅ from) txs).
  destruct (decide (ms_unique s = ∅)) as [He|He].
  - eexists _, _, _. exists (txs, None). eexists. split; [exact Htxs|]. split; [reflexivity|].
    simpl. by rewrite decide_True by exact He.
  - eexists _, _, _. exists (txs, None). eexists. split; [exact Htxs|]. split; [reflexivity|].
    simpl. rewrite decide_False by exact He. exists (map_to_list (ms_unique s)).*1. eexists. split; [apply Permutation_refl|]. by split.
Qed.

(** Every registration on the chain was announced, or known from the start, or is
    in the reach of a scan whose listing was cut short. *)
Definition all_announced old_keys f : Prop :=
  ∀ t p, registered (f_history f master) 0 t p →
    Announce.accounted old_keys (scanning f) (pr_PublicKey p) ∨ Announce.missed (f_gaps f) (tt_LT t).

Lemma all_announced_same old_keys f f' :
  f_history f' = f_history f → f_announced f' = f_announced f → f_gaps f' = f_gaps f →
  all_announced old_keys f → all_announced old_keys f'.
Proof.
  intros Hh Ha Hg Hall t p. unfold Announce.accounted, Announce.w_published. cbn. rewrite Hh, Ha, Hg. apply Hall.
Qed.

(** After a scan nothing on the chain is newer. *)
Lemma scan_reaches w ctx a from ps lt t tx :
  chain (Announce.w_history w) → Announce.may_answer lower clock false w (Ports.MasterScan ctx a from) (ps, lt, None) →
  t ∈ Announce.w_history w → parsed t = Some tx → tt_LT t <= lt.
Proof.
  intros Hc (tr & Hrun) Ht Hp.
  destruct (scan_covers (Announce.w_history w) Hc (whole_listing (Announce.w_history w))
              (λ _ ltr, ¬ cut_short ltr) ctx a from tr ps lt)
    as (_ & _ & fuel & ltr & txs & Hwhole & _ & [Hcut|[_ Hall]]); [|exact Hrun|done|by eapply Hall].
  intros c b from' x (fuel & ltr & Hfuel & Hcut & Hl). exists fuel, ltr. auto.
Qed.

(** A published scan announces all registrations, but for the old gaps. *)
Lemma scan_announces old_keys f ctx a from ps lt f' ks n :
  Announce.well lower clock old_keys (scanning f) → Announce.covered old_keys [] (scanning f) from →
  Announce.may_answer lower clock false (scanning f) (Ports.MasterScan ctx a from) (ps, lt, None) →
  ks = Announce.known_keys (scanning f) → f_history f' = f_history f → f_gaps f' = f_gaps f →
  f_announced f' = f_announced f ++ [mkScanMasterResult (new_providers (known_set ks) ps) lt n] →
  all_announced old_keys f'.
Proof.
  intros Hw Hfrom Hscan -> Hh Hgaps Hres t p Hr. rewrite Hh in Hr.
  destruct (Announce.scan_found lower clock old_keys (scanning f) false ctx a from ps lt Hw Hfrom Hscan) as [[_ Hcov] _].
  assert (Announce.w_published (scanning f') = Announce.w_published (scanning f) ++
            (pr_PublicKey <$> new_providers (known_set (Announce.known_keys (scanning f))) ps)) as Hpub.
  { unfold Announce.w_published. cbn. by rewrite Hres, Announce.announced_keys_snoc. }
  assert (tt_LT t <= lt) as Hle.
  { destruct Hr as (Ht & _ & tx & Hp & _). by eapply (scan_reaches (scanning f)); [apply Hw|..]. }
  rewrite Hgaps. destruct (Hcov t p Hr Hle) as [(k & [Hin|Hin] & Heq)|[Hin|Hmiss]]; [left..|by right].
  - exists k. split; [by left|done].
  - exists k. split; [right|done]. rewrite Hpub. apply elem_of_app. by left.
  - eapply (Announce.accounted_published old_keys (scanning f') (Announce.known_keys (scanning f)) ps); [| |exact Hin].
    + intros k Hk'. destruct (Announce.g_known _ _ _ _ Hw k Hk'); [by left|right]. rewrite Hpub. set_solver.
    + rewrite Hpub. set_solver.
Qed.

(** The binding of scan_master. *)
Definition scan_master : binding :=
  mkBinding CycleScanMaster (ac_Discovery cfg) (CollectNewProviders (discovery_config cfg)).
Lemma scan_master_binding : scan_master ∈ bindings cfg.
Proof. apply list_elem_of_here. Qed.

(** The chain can be read, the master address parsed, and the master wallet has
    transactions. *)
Record readable f (a : Address) : Prop := {
  rd_address : ParseAddr master = inl a;
  rd_active : f_history f master ≠ [];
  rd_messages : ∀ t, t ∈ f_history f master → tt_In t ≠ None }.

Abbreviation handler_can := (can (W:=Build_World ports fleet port_acts fleet_outside)).

(** A query answered from the database, a scan answered by the chain. *)
Lemma can_ask {R} f (o : port) (k : port_ans o → prog ports R) (x : port_ans o) Q tr :
  may_answer storage_contract lower clock cfg false f o x → effect lower clock cfg false o x f = f →
  handler_can (k x) Q (tr ++ [answered o x]) f → handler_can (call o ≫= k) Q tr f.
Proof. intros Ha Hs Hk. exists x, f. split; [|done]. exists false. split; [done|]. by left. Qed.

(** An operation that takes effect. *)
Lemma can_act {R} f (o : port) (k : port_ans o → prog ports R) (x : port_ans o) Q tr :
  may_answer storage_contract lower clock cfg false f o x →
  handler_can (k x) Q (tr ++ [answered o x]) (effect lower clock cfg false o x f) →
  handler_can (call o ≫= k) Q tr f.
Proof. intros Ha Hk. exists x, (effect lower clock cfg false o x f). split; [|done]. exists false. split; [done|]. by left. Qed.

Lemma scan_master_can old_keys f a ctx :
  Announce.well lower clock old_keys (scanning f) → readable f a →
  handler_can (b_handler scan_master ctx)
    (λ out _ f', out = Returned None ∧ JobIDFrom ctx ∈ q_results (queue_of scan_master f') ∧
       f_history f' = f_history f ∧ f_gaps f' = f_gaps f ∧ all_announced old_keys f') [] f.
Proof.
  intros Hw [Ha Hne Hin]. destruct (Announce.g_stored _ _ _ _ Hw) as (from & Hst & Hcov).
  destruct (scan_exists (f_history f master) ctx master a from (Announce.g_chain _ _ _ _ Hw) Hin Hne Ha) as (ps & lt & Hmay).
  set (keys := Announce.known_keys (scanning f)).
  cbn [b_handler scan_master]. unfold CollectNewProviders.
  apply (can_ask f (Ports.GetMasterWalletLT ctx) _ (from, None)); [by split; [left; apply Hst|]|by apply asking|].
  apply (can_ask f (Ports.GetAllPubkeys ctx) _ (keys, None)); [by split; [left; apply Announce.keys_read|]|by apply asking|].
  apply (can_ask f (Ports.MasterScan ctx master from) _ (ps, lt, None)); [by split|by apply asking|].
  cbv beta iota zeta. set (o := Ports.PublishResult _ _ _ _ _).
  apply (can_act f o _ None); [by split|]. cbv beta iota zeta.
  pose proof (publication_recorded scan_master ctx (JobIDFrom ctx) CycleScanMaster _ f
    : JobIDFrom ctx ∈ q_results (queue_of scan_master (effect lower clock cfg false o None f))) as Hjob.
  assert (f_gaps (effect lower clock cfg false o None f) = f_gaps f) as Hgaps by apply app_nil_r.
  assert (all_announced old_keys (effect lower clock cfg false o None f)) as Hall
    by by eapply (scan_announces old_keys f ctx master from ps lt).
  destruct (from <? lt); [|by split_and!].
  set (f1 := effect lower clock cfg false o None f) in *. apply (can_act f1 (Ports.SetMasterWalletLT ctx lt) _ None); [by split|].
  split_and!; [done|done|done|by rewrite <- Hgaps; apply app_nil_r|].
  apply (all_announced_same old_keys f1); [done|apply app_nil_r|apply app_nil_r|exact Hall].
Qed.

(** ** A trigger can be served *)

Section serving.
Context (b : binding) (Hb : b ∈ bindings cfg).
Abbreviation queue_b := (queue_of b).
Definition set_queue f (q : queue) : fleet := with_queue f (b_cycleType b) q.
Definition acked f (id : string) : fleet := set_queue f (acknowledge (queue_b f) id).
Definition ended f (j : string) (ok : bool) : fleet := set_queue f (note_end (queue_b f) j ok).

Lemma queue_set f q : queue_b (set_queue f q) = q.
Proof. unfold queue_of. cbn. by rewrite fn_lookup_insert. Qed.
Lemma queue_other b' f q : b_cycleType b ≠ b_cycleType b' → queue_of b' (set_queue f q) = queue_of b' f.
Proof. intros Hne. unfold queue_of. cbn. by rewrite fn_lookup_insert_ne. Qed.

(** A command of the cycle's consumer acts on its queue. *)
Lemma own_acts f (o : rop) x q :
  own_command (trigger_stream cfg b) (ac_Group cfg) o →
  command (trigger_stream cfg b) (ac_Group cfg) (queue_b f) o x q →
  redis_acts cfg f o x (set_queue f q).
Proof.
  intros Ho Hc. eexists. split; [done|]. intros b' Hb'.
  destruct (decide (b_cycleType b = b_cycleType b')) as [Heq|Hne].
  - apply (binding_of_cycle cfg) in Heq as <-; [|done..]. by rewrite queue_set.
  - rewrite queue_other by done. destruct (stream_of_cycle cfg b b' Hne) as [Hs _].
    destruct o; try done; simpl in Ho |- *; destruct Ho as [-> _]; by rewrite decide_False by (by intros []).
Qed.

Lemma note_acts_own f j ok : ending cfg f (Ended (trigger_stream cfg b) j ok) tt (ended f j ok).
Proof.
  eexists. split; [done|]. intros b' Hb'. destruct (decide (b_cycleType b = b_cycleType b')) as [Heq|Hne].
  - apply (binding_of_cycle cfg) in Heq as <-; [|done..]. unfold ended. rewrite queue_set. by apply note_here.
  - unfold ended. rewrite queue_other by done. destruct (stream_of_cycle cfg b b' Hne) as [Hs _].
    simpl. by rewrite decide_False.
Qed.

Lemma metrics_act f (o : rop) : metric o → ∃ x, redis_acts cfg f o x f.
Proof.
  intros Ho. assert (∃ x : rop_ans o, True) as [x _] by (destruct o; try done; by exists tt).
  exists x, (f_queues f). split; [by destruct f|]. intros b' _. by destruct o.
Qed.

(** A worker that starts reads the first waiting message and handles it. *)
Lemma served f ps c ctx m rest (Q : outcome (option error) → fleet → Prop) :
  c_stream c = trigger_stream cfg b → c_group c = ac_Group cfg →
  waiting b f = m :: rest →
  (∀ out f', Q out f' → ∃ r, recovered out = Returned r) →
  handler_can (b_handler b (handler_ctx c ctx m)) (λ out _ f', Q out f') [] (set_queue f (deliver (queue_b f) 1)) →
  ∃ out f1 r ps', Q out f1 ∧ recovered out = Returned r ∧
    rtc fleet_step (f, ps) (acked (ended f1 (decodeJobID m) (no_error r)) (msg_ID m), ps').
Proof.
  intros Hs Hg Hm HQ Hcan.
  destruct (can_start (W:=fleet_world storage_contract wallet_of lower clock cfg) (fleet_crew cfg)
              (runWorker c (noted (trigger_stream cfg b) (b_handler b)) 1 ctx)
              (λ _ _ f', handled acked ended Q (handler_ctx c ctx m) m f') f ps)
    as (_ & _ & f' & ps' & (out & f1 & r & HQ1 & Hr & ->) & Hsteps).
  - exists b. split; [done|]. exists c, 1%nat, ctx. auto.
  - apply (worker_can (trigger_stream cfg b) (ac_Group cfg) (b_handler b) (redis_acts cfg) (ending cfg) port_acts
             fleet_outside acked ended) with (s1 := set_queue f (deliver (queue_b f) 1)); [| | |done|done|done| |done].
    + intros s o. apply metrics_act.
    + intros s c' id. apply own_acts; [done|]. simpl. rewrite decide_True by done. by left.
    + intros s j ok. apply note_acts_own.
    + intros block. apply own_acts; [done|]. simpl. rewrite decide_True by done. exists 1%nat.
      split; [done|]. split; [done|]. intros _. unfold next_entries. by rewrite Hm.
  - exists out, f1, r, ps'. unfold handler_ctx in Hsteps. rewrite JobIDFrom_WithJobID in Hsteps. by split_and!.
Qed.

(** The coordinator writes a trigger when none waits. *)
Lemma trigger_waits f ps :
  (q_next (queue_b f) <= length (q_entries (queue_b f)))%nat →
  ∃ qs m rest, rtc fleet_step (f, ps) (with_queues f qs, ps) ∧
    waiting b (with_queues f qs) = m :: rest ∧ ∀ m', head (waiting b f) = Some m' → m' = m.
Proof.
  intros Hn. destruct (waiting b f) as [|m rest] eqn:Hw.
  2: { exists (f_queues f), m, rest. split_and!; [by destruct f; apply rtc_refl|done|by intros m' [= ->]]. }
  set (m := mkXMessage (fresh (ids (q_entries (queue_b f)))) ∅).
  exists (f_queues (set_queue f (add_entry (queue_b f) m))), m, []. split_and!; [| |done].
  - apply rtc_once, (step_others (W:=fleet_world storage_contract wallet_of lower clock cfg)), trigger_written, fin_sets.is_fresh.
  - change (waiting b (set_queue f (add_entry (queue_b f) m)) = [m]).
    rewrite queue_set. cbn. by rewrite drop_app_le, Hw by done.
Qed.

(** The next trigger is answered, when the cycle can succeed; [Q] says what it
    achieves besides. *)
Lemma next_answered f ps (Q : fleet → Prop) :
  (q_next (queue_b f) <= length (q_entries (queue_b f)))%nat →
  (∀ qs ctx, handler_can (b_handler b ctx)
     (λ out _ f', out = Returned None ∧ JobIDFrom ctx ∈ q_results (queue_b f') ∧ Q f') [] (with_queues f qs)) →
  (∀ f' qs, Q f' → Q (with_queues f' qs)) →
  ∃ f' ps' m, rtc fleet_step (f, ps) (f', ps') ∧ Q f' ∧ (∀ m', head (waiting b f) = Some m' → m' = m) ∧
    decodeJobID m ∈ q_results (queue_b f') ∧ msg_ID m ∉ q_pending (queue_b f').
Proof.
  intros Hn Hcan HQ. destruct (trigger_waits f ps Hn) as (qs & m & rest & Hs1 & Hm & Hhead).
  destruct (served (with_queues f qs) ps (consumer_of cfg b) Background m rest
              (λ out f', out = Returned None ∧ decodeJobID m ∈ q_results (queue_b f') ∧ Q f'))
    as (out & f2 & r & ps' & (-> & Hjob & HQ2) & Hr & Hs2); [done|done|exact Hm| | |].
  - intros out f' (-> & _). by eexists.
  - eapply can_mono; [|apply Hcan]. intros out h f'. unfold handler_ctx. by rewrite JobIDFrom_WithJobID.
  - injection Hr as <-. eexists _, ps', m. split; [by etrans|]. split_and!; [by do 2 apply HQ|done| |].
    + unfold acked, ended. by rewrite !queue_set.
    + unfold acked, ended. rewrite !queue_set. cbn. set_solver.
Qed.
End serving.

(** C2. Every registration can still be announced, unless a scan whose listing was
    cut short went past it.  In every state the deployment can reach from a first
    start, whatever died or failed before: when the server answers, the messages
    of the master wallet's transactions can be read, there are some, and the
    master address can be parsed, some further steps, which disturb no scan,
    announce every registration that is on the chain, up to letter case and but
    for what was known from the start, and but for registrations in the reach of
    earlier scans of the master wallet whose listing was cut short, between the
    LT from which such a scan went and the one it returned.  An agent that starts
    serves scan_master's next trigger, which the coordinator writes if none
    waits, its result is published, and the trigger is no longer pending. *)
Theorem registrations_announced f0 f ps a :
  first_start wallet_of lower cfg f0 → rtc fleet_step (f0, []) (f, ps) → readable f a →
  ∃ f' ps' m, rtc fleet_step (f, ps) (f', ps') ∧
    (f_history f' = f_history f ∧ f_gaps f' = f_gaps f ∧
     ∀ t p, registered (f_history f' master) 0 t p →
       (∃ k, (k ∈ pv_public_key <$> db_providers (f_db f0) ∨ k ∈ Announce.announced_keys (f_announced f')) ∧
             ToLower k = ToLower (pr_PublicKey p)) ∨
       ∃ from to, (from, to) ∈ f_gaps f' ∧ from < tt_LT t <= to) ∧
    (∀ m', head (waiting scan_master f) = Some m' → m' = m) ∧
    decodeJobID m ∈ q_results (queue_of scan_master f') ∧ msg_ID m ∉ q_pending (queue_of scan_master f').
Proof.
  intros Hf Hsteps [Ha Hne Hin].
  destruct (reachable_well storage_contract wallet_of lower clock cfg f0 f ps Hf Hsteps) as [Hw _ Hq].
  apply next_answered; [apply scan_master_binding|apply (we_next _ (Hq _ scan_master_binding))| |done].
  intros qs ctx. apply (scan_master_can (Announce.known_keys (scanning f0)) (with_queues f qs) a); [done|by split].
Qed.
End progress.

(** ** A deployment with one registration on the chain *)
Section example.
#[local] Existing Instances AsciiUnicode ex_TON ex_json LiteClient.ex_ton.

Definition ex_row : provider_row := mkProviderRow "aa" "wallet" 0 None None None None 0 ∅.
Definition ex_histories (a : string) : list tlbTransaction :=
  if decide (a = "EQ") then Announce.ex_history else [].
Definition ex_fleet : fleet :=
  mkFleet ex_histories (mkDb [ex_row] [] ∅) [] [] [] [] (λ _, mkQueue [] 0 ∅ [] []).
Abbreviation ex_wallet_of := (λ _ : string, "wallet").
Abbreviation ex_contract := (λ _ : Address, True).
Abbreviation ex_step := (fleet_step ex_contract ex_wallet_of id 0 ex_agent).

Lemma ex_fleet_start : first_start ex_wallet_of id ex_agent ex_fleet.
Proof.
  split_and!.
  - split_and!; [vm_compute; done|by repeat constructor|done..].
  - split_and!; [|done|done|by repeat constructor].
    intros a. cbn. unfold ex_histories. case_decide; [vm_compute; done|done].
  - intros b Hb. split; [done|apply NoDup_nil_2].
Qed.

Lemma ex_readable : readable ex_agent ex_fleet "EQ".
Proof. split; [done|done|]. by intros t ->%list_elem_of_singleton. Qed.

(** A run in which the registration is announced. *)
Lemma ex_announced :
  ∃ f ps, rtc ex_step (ex_fleet, []) (f, ps) ∧
    ∃ k, (k ∈ ["aa"] ∨ k ∈ Announce.announced_keys (f_announced f)) ∧ ToLower k = ToLower Announce.ex_key.
Proof.
  pose proof (Announce.fresh_well id 0 _ (proj1 ex_fleet_start)) as Hw.
  destruct (next_answered ex_contract ex_wallet_of id 0 ex_agent (scan_master ex_agent) (scan_master_binding ex_agent)
              ex_fleet [] (λ f, f_history f = ex_histories ∧ f_gaps f = [] ∧ all_announced ex_agent ["aa"] f))
    as (f & ps & m & Hsteps & (Hh & Hgaps & Hall) & _); [simpl; lia| |done|].
  - intros qs ctx. apply (scan_master_can ex_contract ex_wallet_of id 0 ex_agent ["aa"] (with_queues ex_fleet qs) "EQ"); [exact Hw|].
    destruct ex_readable. by split.
  - exists f, ps. split; [exact Hsteps|].
    destruct (Hall (gap_tx 1 0 "1") Announce.ex_scanned) as [?|(from & to & Hin & _)]; [|done|].
    + rewrite Hh. split_and!; [apply list_elem_of_here|done|]. exists Announce.ex_tx. by vm_compute.
    + rewrite Hgaps in Hin. by apply elem_of_nil in Hin.
Qed.

Lemma nothing_lost_witness :
  first_start ex_wallet_of id ex_agent ex_fleet ∧
  ∃ f ps, rtc ex_step (ex_fleet, []) (f, ps) ∧
    (∃ k, (k ∈ ["aa"] ∨ k ∈ Announce.announced_keys (f_announced f)) ∧ ToLower k = ToLower Announce.ex_key) ∧
    Announce.registrations_kept id 0 ["aa"] (Fleet.scanning ex_agent f) ∧
    Wallets.withdrawals_kept ex_contract ex_wallet_of (paying f) ∧
    ∀ b, b ∈ bindings ex_agent → triggers_kept (queue_of b f).
Proof.
  split; [exact ex_fleet_start|]. destruct ex_announced as (f & ps & Hsteps & Hk).
  exists f, ps. split; [exact Hsteps|]. split; [exact Hk|].
  exact (nothing_lost ex_contract ex_wallet_of id 0 ex_agent ex_fleet f ps ex_fleet_start Hsteps).
Defined.

Lemma registrations_announced_witness :
  readable ex_agent ex_fleet "EQ" ∧
  ∃ f' ps' m, rtc ex_step (ex_fleet, []) (f', ps') ∧
    (f_history f' = f_history ex_fleet ∧ f_gaps f' = [] ∧
     ∀ t p, registered (f_history f' "EQ") 0 t p →
       (∃ k, (k ∈ ["aa"] ∨ k ∈ Announce.announced_keys (f_announced f')) ∧ ToLower k = ToLower (pr_PublicKey p)) ∨
       ∃ from to, (from, to) ∈ f_gaps f' ∧ from < tt_LT t <= to) ∧
    (∀ m', head (drop 0 ([] : list XMessage)) = Some m' → m' = m) ∧
    decodeJobID m ∈ q_results (queue_of (scan_master ex_agent) f') ∧
    msg_ID m ∉ q_pending (queue_of (scan_master ex_agent) f').
Proof.
  split; [exact ex_readable|].
  exact (registrations_announced ex_contract ex_wallet_of id 0 ex_agent ex_fleet ex_fleet [] "EQ" ex_fleet_start
           (rtc_refl _ _) ex_readable).
Defined.
End example.
