(* ===== verification/Payments.v ===== *)
(** scan_wallets in the deployment of [Fleet]: its next trigger can always be
    served, and so every withdrawal on the chain be published that no disturbed
    scan went past. *)

From stdpp Require Import functions.
From S2P Require Import Prelude GoStd Effects World Domain Ports Poll Discovery Ton LiteClient Postgres System.
From S2P Require Import Redis Consumer App Agent Workers Delivery Triggers Fleet Progress.
From S2P Require Announce Wallets.

(** ** Contracts that can be read *)
Section contracts.
Context `{TonUtils} (storage_contract : Address → Prop).

Definition helpful (o : liteop) : liteop_ans o → Prop :=
  match o with
  | GetMasterchainInfo _ => λ a, a.2 = None
  | GetStorageInfoV1 _ _ _ => λ a, a.1 ≠ None ∧ a.2 = None
  | _ => λ _, False
  end.
#[local] Instance helpful_world : World lite :=
  Build_World lite unit (λ _ o x _, helpful o x) (λ _ _, False).

Lemma contracts_can ctx addrs :
  can (GetStorageContractsInfo ctx addrs) (λ out _ _, ∃ infos, out = Returned (infos, None)) [] tt.
Proof.
  unfold GetStorageContractsInfo.
  apply (can_call (W:=helpful_world) (GetMasterchainInfo ctx) _ (zeroBlock, None) tt); [done|].
  apply can_bind. eapply can_mono; [|apply (can_range _ (λ _ _ _ _, True)); [|done]].
  { intros out h s (l & -> & _). by exists l. }
  intros pre a suf l h [] _ _. unfold storage_info_one. destruct (ParseAddr a) as [addr|]; [|by eexists].
  apply (can_call (W:=helpful_world) (GetStorageInfoV1 ctx zeroBlock addr) _ (Some (mkStorageInfo "" addr 0 0), None) tt); [done|].
  by eexists.
Qed.

Lemma contracts_exist histories ctx addrs :
  ∃ infos, Wallets.undisturbed storage_contract histories (Ton.GetStorageContractsInfo ctx addrs) (infos, None).
Proof.
  destruct (can_runs (W:=helpful_world) (λ _ _, True) _ _ _ _ (λ _ _ _ _ _, I) (contracts_can ctx addrs))
    as (tr & out & s & Hrun & (infos & ->) & Hall).
  exists infos, tr. split; [|exact Hrun].
  intros (c & b & a & info & err & Hin & _ & Hno). rewrite Forall_forall in Hall.
  destruct (Hall _ Hin) as (_ & _ & Hinfo & Herr). simpl in *. by destruct Hno.
Qed.

(** A scan of a wallet that is not disturbed; it succeeds if there are transactions. *)
Lemma wallet_scan_exists histories ctx addr a from :
  chain (histories addr) → (∀ t, t ∈ histories addr → tt_In t ≠ None) → ParseAddr addr = inl a →
  ∃ cs lt err,
    scan_run (Wallets.undisturbed storage_contract histories) (Wallets.disturbed storage_contract histories) false
      (Ton.WalletScan ctx addr from) (cs, lt, err) ∧ (histories addr ≠ [] → err = None).
Proof.
  intros Hc Hin Ha.
  destruct (listing_exists (histories addr) Hc Hin (WithTimeout ctx getTxTimeout) addr a from Ha) as (txs & err & Htxs & Herr).
  destruct err as [e|].
  { eexists _, _, _. split; [|intros Hne; discriminate (Herr Hne)]. eexists.
    exists (txs, Some e). eexists. split; [exact Htxs|]. split; [reflexivity|]. by split. }
  set (s := foldl wallet_tx (mkWalletState ∅ from) txs).
  destruct (decide (ws_contractLT s = ∅)) as [He|He].
  - eexists _, _, None. split; [|done]. eexists. exists (txs, None). eexists. split; [exact Htxs|]. split; [reflexivity|].
    simpl. by rewrite decide_True by exact He.
  - destruct (contracts_exist histories ctx (map_to_list (ws_contractLT s)).*1) as [infos Hinfos].
    eexists _, _, None. split; [|done]. eexists. exists (txs, None). eexists. split; [exact Htxs|]. split; [reflexivity|].
    simpl. rewrite decide_False by exact He. exists (map_to_list (ws_contractLT s)).*1. eexists.
    split; [apply Permutation_refl|]. split; [reflexivity|].
    exists (infos, None). eexists. split; [exact Hinfos|]. split; [reflexivity|]. by split.
Qed.
End contracts.

Section payments.
Context `{Unicode} `{Tlb} `{Json} `{TonUtils}.
Context (storage_contract : Address → Prop) (wallet_of : string → string).
Context (lower : string → string) (clock : Time) (cfg : AppConfig).
Implicit Types (f : fleet) (p : Provider) (ctx : Ctx).

Abbreviation covered := (Wallets.covered storage_contract wallet_of).
Abbreviation well := (Wallets.well storage_contract wallet_of lower).
Abbreviation tracked := (Wallets.tracked storage_contract wallet_of lower).
Abbreviation effect := (effect lower clock cfg).
Abbreviation fleet_step := (fleet_step storage_contract wallet_of lower clock cfg).
Abbreviation handlers :=
  (Build_World ports fleet (port_acts storage_contract lower clock cfg) (Fleet.outside wallet_of lower)).
Abbreviation handler_can := (can (W:=handlers)).

(** The agents accept a wallet's address and can read its transactions. *)
Record readable_wallet (histories : string → list tlbTransaction) (addr : string) : Prop := {
  rw_friendly : Discovery.IsUserFriendly addr = true;
  rw_parsed : ∃ a, ParseAddr addr = inl a;
  rw_messages : ∀ t, t ∈ histories addr → tt_In t ≠ None }.

Lemma still_open ctx (tr : trace ports) ev : ¬ reports_done ctx ev → ¬ done_in ctx tr → ¬ done_in ctx (tr ++ [ev]).
Proof. intros Hev Hd [Hd'|[?|[]%Exists_nil]%Exists_cons]%done_in_app; auto. Qed.

(** The binding of scan_wallets. *)
Definition scan_wallets : binding :=
  mkBinding CycleScanWallets (ac_Discovery cfg) (CollectStorageContracts (discovery_config cfg)).
Lemma scan_wallets_binding : scan_wallets ∈ bindings cfg.
Proof. apply list_elem_of_further, list_elem_of_here. Qed.

(** ** scan_wallets can be run *)
Section cycle.
Context (f : fleet) (Hw : well (paying f)).
Abbreviation wallets := (Wallets.row_wallet <$> db_providers (f_db f)).
Context (Hread : ∀ p, p ∈ wallets → readable_wallet (f_history f) (pr_Address p)).

Lemma wallets_tracked p : p ∈ wallets → tracked [] (paying f) p.
Proof. intros (row & -> & Hrow)%list_elem_of_fmap. by apply (Wallets.wl_rows _ _ _ _ Hw). Qed.

(** All that was paid to the wallets scanned so far is published or merged. *)
Definition all_found (scanned : list Provider) (s : scan_state) : Prop :=
  ∃ cs, ss_merged s = foldl merge_contract ∅ cs ∧ Wallets.scanned wallets cs (paying f) ∧
    ∀ p, p ∈ scanned → covered cs (paying f) (pr_Address p) (newest (f_history f (pr_Address p))).

Lemma scan_wallet_can ctx pre p suf s tr :
  wallets = pre ++ p :: suf → ¬ done_in ctx tr → all_found pre s →
  handler_can (scan_wallet ctx p s)
    (λ out tr f', ∃ s', out = Returned (Next s') ∧ f' = f ∧ ¬ done_in ctx tr ∧ all_found (pre ++ [p]) s') tr f.
Proof.
  intros Hsplit Hd (cs0 & Hm & Hcs0 & Hfound). assert (p ∈ wallets) as Hp by (rewrite Hsplit; set_solver).
  destruct (Hread p Hp) as [Huser [a Ha] Hin].
  destruct (wallet_scan_exists storage_contract (f_history f) ctx (pr_Address p) a (pr_LT p)
              (Wallets.wl_chain _ _ _ _ Hw _) Hin Ha) as (cs & lt & err & Hmay & Herr).
  unfold scan_wallet. apply (can_go (CtxErr ctx) _ None); [done|]. cbn [is_nil negb]. rewrite Huser. cbn [negb].
  apply (can_ask storage_contract wallet_of lower clock cfg f (Ports.WalletScan ctx (pr_Address p) (pr_LT p)) _ (cs, lt, err));
    [by split|by apply asking|].
  assert (¬ done_in ctx ((tr ++ [@Ev ports (Go (CtxErr ctx)) None]) ++
            [answered (Ports.WalletScan ctx (pr_Address p) (pr_LT p)) (cs, lt, err)])) as Hd'.
  { apply still_open; [by intros []|]. apply still_open; [by intros []|done]. }
  assert (∀ cs', covered cs' (paying f) (pr_Address p) (newest (f_history f (pr_Address p))) →
            ∀ q, q ∈ pre ++ [p] → covered (cs0 ++ cs') (paying f) (pr_Address q) (newest (f_history f (pr_Address q)))) as Hall.
  { intros cs' Hcov q [Hq| ->%list_elem_of_singleton]%elem_of_app.
    - apply (Wallets.covered_more _ _ lower cs0); [set_solver|by apply Hfound].
    - apply (Wallets.covered_more _ _ lower cs'); [set_solver|exact Hcov]. }
  destruct err as [e|].
  { exists s. split_and!; [done|done|done|]. exists cs0. split_and!; [done|done|]. rewrite <- (app_nil_r cs0). apply Hall.
    destruct (f_history f (pr_Address p)) eqn:Hnil; [|by discriminate Herr].
    apply (Wallets.covered_start _ _ (paying f)), (Wallets.wl_chain _ _ _ _ Hw). }
  destruct (Wallets.wallet_scan_found storage_contract wallet_of lower clock (paying f) false ctx p cs lt Hw (wallets_tracked p Hp) Hmay) as (Hcs & _ & Hcov).
  eexists. split_and!; [reflexivity|done|done|]. exists (cs0 ++ cs). split_and!; [| |by apply Hall, Hcov].
  - cbn. by rewrite Hm, foldl_app.
  - intros sc [Hsc|Hsc]%elem_of_app; [by apply Hcs0|]. destruct (Hcs sc Hsc) as [? ->]. split; [done|].
    intros b ->%list_elem_of_singleton. by apply list_elem_of_fmap_2.
Qed.

(** All that was paid to a wallet in the database is published, but for what is
    in the reach of a disturbed scan of the wallet. *)
Definition all_published f' : Prop :=
  ∀ row t c, row ∈ db_providers (f_db f) → Wallets.paid (f_history f (pv_address row)) t c →
    Wallets.contract_address storage_contract c →
    Wallets.announced wallet_of (paying f') c (pv_address row) ∨ Wallets.missed (paying f) (pv_address row) (tt_LT t).

(** A published result with all that was found. *)
Lemma publication_announces s keys us f' :
  all_found wallets s → keys ≡ₚ (map_to_list (ss_merged s)).*1 →
  let contracts := omap (λ k, ss_merged s !! k) keys in
  f_results f' = f_results f ++
    [mkScanWalletsResult contracts (c ← contracts; contract_relations (addr_to_pubkey wallets) c) us] →
  all_published f'.
Proof.
  intros (cs & Hm & Hcs & Hfound) Hkeys contracts Hres row t c Hrow Hpaid Hc.
  destruct (Wallets.result_announces _ _ _ wallets cs (ss_merged s) keys us (paying f) wallets_tracked Hcs Hm Hkeys)
    as [Hann _].
  unfold Wallets.announced. cbn [paying Wallets.w_results]. rewrite Hres, Exists_app, Exists_cons.
  destruct (Hfound (Wallets.row_wallet row)) as [_ Hall]; [by apply list_elem_of_fmap_2|].
  destruct (Hall t c Hpaid Hc) as [Hpub|[(sc & Hsc & <- & Hin)|?]]; [|by left; left|by left; right; left; apply Hann|by right].
  apply newest_max; [apply (Wallets.wl_chain _ _ _ _ Hw)|apply Hpaid].
Qed.

Lemma scan_wallets_can ctx :
  handler_can (b_handler scan_wallets ctx)
    (λ out _ f', out = Returned None ∧ JobIDFrom ctx ∈ q_results (queue_of scan_wallets f') ∧
       f_history f' = f_history f ∧ f_wgaps f' = f_wgaps f ∧ all_published f') [] f.
Proof.
  cbn [b_handler scan_wallets]. unfold CollectStorageContracts.
  apply (can_ask storage_contract wallet_of lower clock cfg f (Ports.GetAllWallets ctx) _ (wallets, None)).
  { split; [done|]. left. apply (Wallets.wallets_read lower clock). }
  { by apply asking. }
  cbv beta iota zeta. case_eq (Wallets.row_wallet <$> db_providers (f_db f)); [intros Hrows|intros p0 ps0 Hrows].
  - set (o := Ports.PublishResult _ _ _ _ _).
    apply (can_act storage_contract wallet_of lower clock cfg f o _ None); [by split|].
    split_and!; [done| |done|apply app_nil_r|].
    + apply (publication_recorded lower clock cfg scan_wallets).
    + intros row t c Hrow. apply (list_elem_of_fmap_2 Wallets.row_wallet) in Hrow. rewrite Hrows in Hrow.
      by apply elem_of_nil in Hrow.
  - rewrite <- Hrows. apply can_bind.
    eapply can_mono; [|apply (can_range (W:=handlers) _ (λ pre s tr f', f' = f ∧ ¬ done_in ctx tr ∧ all_found pre s))].
    2: { intros pre p suf s tr f' Hsplit (-> & Hd & Hfound). by eapply scan_wallet_can. }
    2: { split_and!; [done|by apply (still_open ctx []); [intros []|intros []%Exists_nil]|]. exists []. split_and!; [done|by intros sc ?%elem_of_nil|by intros p ?%elem_of_nil]. }
    intros out tr f' (s & -> & -> & _ & Hfound). cbn [then_can after].
    apply (can_go (RangeKeys _) _ (map_to_list (ss_merged s)).*1); [apply Permutation_refl|].
    cbv beta zeta. set (o := Ports.PublishResult _ _ _ _ _).
    apply (can_act storage_contract wallet_of lower clock cfg f o _ None); [by split|]. cbv beta iota zeta.
    set (f1 := effect false o None f).
    assert (JobIDFrom ctx ∈ q_results (queue_of scan_wallets f1)) as Hjob
      by apply (publication_recorded lower clock cfg scan_wallets).
    assert (all_published f1) as Hall by by eapply publication_announces.
    assert (f_wgaps f1 = f_wgaps f) as Hgaps by apply app_nil_r.
    destruct (0 <? length (ss_updated s))%nat; [|by split_and!].
    apply (can_act storage_contract wallet_of lower clock cfg f1 (Ports.UpdateLT ctx (ss_updated s)) _ None); [by split|].
    split_and!; [done|done|done|by rewrite <- Hgaps; apply app_nil_r|].
    intros row t c Hrow Hpaid Hc. destruct (Hall row t c Hrow Hpaid Hc) as [Hann|?]; [left|by right].
    unfold Wallets.announced in *. cbn [paying Wallets.w_results Fleet.effect f_results] in *. by rewrite app_nil_r.
Qed.
End cycle.

(** C3. Every withdrawal can still be published, unless a disturbed scan went past
    it.  In every state the deployment can reach from a first start, whatever
    died or failed before: when the servers answer and the wallets of the
    providers in the database have accepted addresses and readable transactions,
    some further steps, which disturb no scan, publish, for each of these
    wallets, every storage contract that paid a reward to it, with the wallet and
    its relation; but for payments in the reach of earlier scans of the wallet
    whose listing was cut short or in which a contract could not be read, between
    the LT from which such a scan went and the one it returned.  An agent that
    starts serves scan_wallets' next trigger, which the coordinator writes if none
    waits, and the trigger is no longer pending. *)
Theorem withdrawals_published f0 f ps :
  first_start wallet_of lower cfg f0 → rtc fleet_step (f0, []) (f, ps) →
  (∀ row, row ∈ db_providers (f_db f) → readable_wallet (f_history f) (pv_address row)) →
  ∃ f' ps' m, rtc fleet_step (f, ps) (f', ps') ∧
    (f_history f' = f_history f ∧ f_wgaps f' = f_wgaps f ∧
     ∀ row t c, row ∈ db_providers (f_db f) → Wallets.paid (f_history f (pv_address row)) t c →
       Wallets.contract_address storage_contract c →
       Wallets.announced wallet_of (paying f') c (pv_address row) ∨
       ∃ from to, (pv_address row, (from, to)) ∈ f_wgaps f ∧ from < tt_LT t <= to) ∧
    (∀ m', head (waiting scan_wallets f) = Some m' → m' = m) ∧
    decodeJobID m ∈ q_results (queue_of scan_wallets f') ∧ msg_ID m ∉ q_pending (queue_of scan_wallets f').
Proof.
  intros Hf Hsteps Hread.
  destruct (reachable_well storage_contract wallet_of lower clock cfg f0 f ps Hf Hsteps) as [_ Hw Hq].
  apply next_answered; [apply scan_wallets_binding|apply (we_next _ (Hq _ scan_wallets_binding))| |done].
  intros qs ctx. apply (scan_wallets_can (with_queues f qs)); [done|].
  intros p (row & -> & Hrow)%list_elem_of_fmap. by apply Hread.
Qed.
End payments.

(** ** A deployment whose only wallet was paid once *)
Section example.
#[local] Existing Instances AsciiUnicode ex_TON ex_json Wallets.ex_ton.

Definition ex_paid : fleet :=
  mkFleet Wallets.ex_histories (mkDb [Wallets.ex_row 0] [] ∅) [] [] [] [] (λ _, mkQueue [] 0 ∅ [] []).
Abbreviation ex_wallet_of := (λ _ : string, Wallets.ex_wallet).
Abbreviation ex_contract := (λ _ : Address, True).
Abbreviation ex_step := (fleet_step ex_contract ex_wallet_of id 0 ex_agent).

Lemma ex_paid_start : first_start ex_wallet_of id ex_agent ex_paid.
Proof.
  split_and!.
  - split_and!; [vm_compute; done|by repeat constructor|done..].
  - apply Wallets.ex_first_start.
  - intros b Hb. split; [done|apply NoDup_nil_2].
Qed.

Lemma ex_wallet_readable row :
  row ∈ db_providers (f_db ex_paid) → readable_wallet (f_history ex_paid) (pv_address row).
Proof.
  intros ->%list_elem_of_singleton. split; [by vm_compute|by eexists|].
  cbn. unfold Wallets.ex_histories. rewrite decide_True by done. by intros t ->%list_elem_of_singleton.
Qed.

Lemma ex_contract_paid : Wallets.paid (f_history ex_paid Wallets.ex_wallet) Wallets.ex_payment "contract".
Proof.
  cbn. unfold Wallets.ex_histories. rewrite decide_True by done. split_and!; [apply list_elem_of_here|done|].
  exists Wallets.ex_tx. by vm_compute.
Qed.

Lemma withdrawals_published_witness :
  Wallets.paid (f_history ex_paid Wallets.ex_wallet) Wallets.ex_payment "contract" ∧
  ∃ f' ps' m, rtc ex_step (ex_paid, []) (f', ps') ∧
    (f_history f' = f_history ex_paid ∧ f_wgaps f' = [] ∧
     ∀ row t c, row ∈ [Wallets.ex_row 0] → Wallets.paid (f_history ex_paid (pv_address row)) t c →
       Wallets.contract_address ex_contract c →
       Wallets.announced ex_wallet_of (paying f') c (pv_address row) ∨
       ∃ from to, (pv_address row, (from, to)) ∈ f_wgaps ex_paid ∧ from < tt_LT t <= to) ∧
    (∀ m', head (drop 0 ([] : list XMessage)) = Some m' → m' = m) ∧
    decodeJobID m ∈ q_results (queue_of (scan_wallets ex_agent) f') ∧
    msg_ID m ∉ q_pending (queue_of (scan_wallets ex_agent) f').
Proof.
  split; [exact ex_contract_paid|].
  exact (withdrawals_published ex_contract ex_wallet_of id 0 ex_agent ex_paid ex_paid [] ex_paid_start
           (rtc_refl _ _) ex_wallet_readable).
Defined.
End example.
