(* ===== verification/Pipeline.v ===== *)
(** The way of one trigger: written by the load test, read and handled by the
    agent, its result published, and read by the load test. *)

From S2P Require Import Prelude GoStd Effects Domain Pool Ports Poll JsonTree Rfc3339 Redis Consumer.
From S2P Require Import Codec Loadtest App Typed.

Section pipeline.
Context `{Unicode} `{Tlb} `{Zone}.
Implicit Types (f : flags) (m : XMessage) (s : recv).

(** A message that carries [data], and the state of the load test after it got
    a result with status ok for [id]. *)
Definition carries (data : string) m : Prop := msg_Values m !! "data" = Some (XString data).
Definition got_ok s (id msgID : string) : recv :=
  mkRecv (rc_jobIDs s ∖ {[ id ]}) msgID (rc_gotOK s + 1) (rc_gotErr s).

(** An entry of a stream with a result that the load test takes for [id]. *)
Definition accepted_entry f (id : string) (ev : event redis) : Prop :=
  match ev with
  | Ev (Ext (XAdd _ stream _ _ data)) _ =>
      stream = resultStream f ∧
      ∀ s m, id ∈ rc_jobIDs s → carries data m → handle_message s m = got_ok s id (msg_ID m)
  | _ => False
  end.

Lemma streams_meet cfg f cycle :
  fl_prefix f = ac_StreamPrefix cfg → fl_cycle f = cycle →
  cycleStream f = streamKey cfg "cycle" cycle ∧ resultStream f = streamKey cfg "result" cycle.
Proof.
  intros Hp <-. unfold cycleStream, resultStream, streamKey. rewrite Hp.
  done.
Qed.

Lemma handled_ok s m env data :
  json_Marshal env = inl data → ok_envelope env → env_Status env = StatusOK →
  env_JobID env ∈ rc_jobIDs s → carries data m → handle_message s m = got_ok s (env_JobID env) (msg_ID m).
Proof.
  intros Hd Hok Hst Hid Hm. destruct (envelope_read env Hok) as (data' & Hd' & Hread).
  assert (data' = data) as -> by (change (json_Marshal env = inl data') in Hd'; congruence).
  rewrite handle_message_carried. unfold carried. rewrite Hm, Hread. cbn.
  by rewrite decide_True, bool_decide_eq_true_2.
Qed.

(** C13. The load test and the agent agree.  A trigger written by the load test
    for a cycle of the agent is written, to the stream the cycle's consumer
    reads; whatever the agent's process of the message then publishes goes
    through the publisher as one entry of the stream the load test reads, and
    the load test takes that entry, whenever it gets it while it waits for the
    id, as a result of the trigger with status ok.  Ids are valid UTF-8, clocks
    within the years RFC 3339 can hold, results well-typed
    ([results_well_typed]). *)
Theorem trigger_answered cfg b f (pub : Publisher) id t ctx :
  b ∈ bindings cfg → fl_prefix f = ac_StreamPrefix cfg → fl_cycle f = b_cycleType b →
  text id → text (pub_agentID pub) → writable t →
  ∃ data, marshal (enc_Trigger id (fl_cycle f) t) = inl data ∧
    cycleStream f = c_stream (consumer_of cfg b) ∧
    ∀ msg, carries data msg →
      every_run (process (consumer_of cfg b) (b_handler b) ctx msg) (λ tr _,
        ∀ c stream j cycle p e, @Ev agent (@Ext agent (inr (Ports.PublishResult c stream j cycle p))) e ∈ tr →
          ok_payload p →
          every_run (Redis.PublishResult pub c stream j cycle p) (λ ptr out,
            ∃ now err, ptr !! 0%nat = Some (@Ev redis (@Go redis TimeNow) now) ∧ out = Returned err ∧
              (writable now → ∃ ev, ptr !! 1%nat = Some ev ∧ length ptr = 2%nat ∧ accepted_entry f id ev))).
Proof.
  intros Hb Hp Hc Hid Hag Ht. destruct (streams_meet cfg f _ Hp Hc) as [Hcs Hrs].
  assert (text (b_cycleType b)) as Hcyc by by eapply cycle_text.
  assert (text (fl_cycle f)) as Hfc by by rewrite Hc.
  destruct (writable_format t Ht) as [bytes Hbytes].
  assert (∃ data, marshal (enc_Trigger id (fl_cycle f) t) = inl data) as [data Hdata].
  { unfold enc_Trigger, jobj, jtime, jstr. cbn [fields]. rewrite Hbytes. by eexists. }
  exists data. split; [exact Hdata|]. split; [exact Hcs|]. intros msg Hmsg.
  assert (decodeJobID msg = id) as Hjob.
  { assert (unmarshal_trigger data = (mkTriggerEnvelope id (fl_cycle f) None t, None)) as Hu
      by (eapply enc_Trigger_read; [done|done|apply Ht|done]).
    unfold decodeJobID. rewrite Hmsg. cbn [json_Unmarshal GoJson]. by rewrite Hu. }
  intros tr out Hrun c stream j cycle p e Hin Hok.
  pose proof (runs_only _ _ _ _ _ _ (process_ops cfg b (λ j, j = decodeJobID msg) ctx msg Hb eq_refl) Hrun) as Hall.
  rewrite Forall_forall in Hall. specialize (Hall _ Hin). simpl in Hall. destruct Hall as (-> & -> & -> & _).
  rewrite Hjob. intros ptr pout Hpub.
  destruct (PublishResult_entry _ _ _ _ _ _ _ _ Hpub) as (now & Hnow). exists now. cbv zeta in Hnow.
  set (env := mkResultEnvelope id (b_cycleType b) StatusOK "" (Some p) now (pub_agentID pub)) in *.
  destruct (json_Marshal env) as [data'|err] eqn:Hm.
  - destruct Hnow as (err & maxLen & -> & _ & ->). eexists. split; [done|]. split; [done|].
    intros Hw. eexists. split; [done|]. split; [done|]. split; [by rewrite Hrs|].
    intros st m Hst Hcarry. apply (handled_ok st m env data'); [done| |done|done|done].
    split_and!; [done|done|by repeat constructor|by repeat constructor|done|done|done].
  - destruct Hnow as (-> & ->). eexists. split; [done|]. split; [done|]. intros Hw.
    destruct (envelope_read env) as (data' & Hd' & _); [|by change (json_Marshal env = inl data') in Hd'; congruence].
    split_and!; [done|done|by repeat constructor|by repeat constructor|done|done|done].
Qed.
End pipeline.

Definition ex_publisher : Publisher := mkPublisher 100000 "agent-1".
Definition ex_time : Time := 1777203314 * Second.

Lemma trigger_answered_witness :
  (ex_binding ∈ @bindings AsciiUnicode ex_TON ex_app ∧ fl_prefix ex_flags = ac_StreamPrefix ex_app ∧
   fl_cycle ex_flags = b_cycleType ex_binding ∧ text "job-1" ∧ text (pub_agentID ex_publisher) ∧
   @writable UTC ex_time) ∧
  ∃ data, marshal (@enc_Trigger UTC "job-1" (fl_cycle ex_flags) ex_time) = inl data ∧
    cycleStream ex_flags = c_stream (consumer_of ex_app ex_binding) ∧
    ∀ msg, carries data msg →
      every_run (@process (@GoJson UTC) ports (consumer_of ex_app ex_binding) (b_handler ex_binding) Background msg)
        (λ tr _,
        ∀ c stream j cycle p e, @Ev agent (@Ext agent (inr (Ports.PublishResult c stream j cycle p))) e ∈ tr →
          @ok_payload UTC p →
          every_run (@Redis.PublishResult (@GoJson UTC) ex_publisher c stream j cycle p) (λ ptr out,
            ∃ now err, ptr !! 0%nat = Some (@Ev redis (@Go redis TimeNow) now) ∧ out = Returned err ∧
              (@writable UTC now → ∃ ev, ptr !! 1%nat = Some ev ∧ length ptr = 2%nat ∧
                 accepted_entry ex_flags "job-1" ev))).
Proof.
  assert (ex_binding ∈ @bindings AsciiUnicode ex_TON ex_app) as Hb by apply list_elem_of_here.
  assert (text "job-1" ∧ text (pub_agentID ex_publisher)) as [Hid Hag] by (split; by repeat constructor).
  assert (@writable UTC ex_time) as Ht by by vm_compute.
  split; [by split_and!|].
  exact (@trigger_answered AsciiUnicode ex_TON UTC ex_app ex_binding ex_flags ex_publisher "job-1" ex_time
           Background Hb eq_refl eq_refl Hid Hag Ht).
Defined.
